(* ===== verification/_CoqProject ===== *)
-Q . S2P
Prelude.v
Utf8.v
Bits.v
Json.v
Crates.v
Kinds.v
Packed.v
EventParse.v
Validate.v
Bech32.v
NegEncoding.v
NegTypes.v
NegStorage.v
NegProtocol.v
NegMessage.v
NegReconcile.v
NegBounds.v
DbKeys.v
Search.v
BTreeMap.v
Filter.v
FilterSpec.v
Pending.v
Monitor.v
MonitorIndex.v
MonitorSpec.v
MonitorMatch.v
MonitorOps.v
WsFrame.v
WsFlate.v
WsFrameSpec.v
WsDeflate.v
WsSession.v
WsRead.v
DbCodec.v
DbIndex.v
DbTxn.v
DbState.v
DbPayload.v
DbSearch.v
DbTagKind.v
DbPolicy.v
DbWrite.v
DbStore.v
DbCursor.v
DbTable.v
DbScan.v
DbTables.v
DbRows.v
DbRw.v
DbDerived.v
DbOps.v
DbLogic.v
DbCounters.v
DbIndices.v
DbEvents.v
DbDelete.v
DbLookup.v
DbPostings.v
DbDecide.v
DbBatch.v
DbWriter.v
DbMarkers.v
DbCommit.v
DbContract.v
DbDurable.v
DbWriteSpec.v
