(* ===== verification/Prelude.v ===== *)
(** * Verification of the wok Nostr relay

    wok is a Nostr relay: clients connect over WebSocket, publish signed events,
    subscribe to filters, and reconcile sets of events.  This library models the
    parts of it that are computation rather than I/O as Rocq functions and proves
    what makes each part correct.

    ** The program and how it is modelled

    - [wok-ws]: a connection's bytes become messages.  WsFrame is
      crates/wok-ws/src/frame.rs: [WsParser] (feed, try_parse_frame,
      handle_frame), [WsEncoder], the inflating and deflating contexts,
      [ReadDeadlines] and [read_events_into].  WsFlate states what the flate2
      crate promises; WsFrameSpec, WsDeflate, WsSession and WsRead hold the
      results.
    - [wok-event]: a message's event is parsed, verified and packed.  Json is
      json.rs, Kinds is kinds.rs and the hex readers, Packed is packed.rs,
      EventParse is parse.rs, Validate is hash.rs, deletion_protection.rs and
      validate.rs, Bech32 is bech32.rs.
    - [wok-query]: filters select events.  Filter is filter.rs and subid.rs,
      FilterSpec what a filter means, Pending is pending.rs, Monitor is
      monitor.rs (the index of live subscriptions) with its specification in
      MonitorIndex, MonitorSpec, MonitorMatch and MonitorOps.  BTreeMap models
      the standard map the index uses.
    - [wok-db]: events are stored.  DbKeys and DbIndex are the keys, comparators,
      tables and typed entries (keys.rs, comparators.rs, schema.rs, index.rs and
      the codec of rocks/mod.rs); DbTxn is rocks/txn.rs and author_heads.rs, the
      transactions and cursors over RocksDB, whose documented behaviour is in
      DbStore.  DbState is state.rs, DbPayload fbs.rs and payload.rs, Search and
      DbSearch search.rs, DbTagKind tag_kind.rs, DbPolicy deletion_protection.rs
      and the request side of vanish.rs, DbWrite write.rs.  The results are
      layered: DbCodec to DbOps show that a transaction is a set of sorted tables
      ([rows], [txn_wf]); DbLogic has the rules to reason about code over
      transactions; DbCounters to DbLookup the rows of one event ([store_wf]);
      DbPostings to DbWriter the decisions and the loop of a batch ([db_wf]);
      DbMarkers, DbCommit and DbDurable the commit and opening the database after
      one that failed; DbContract and DbWriteSpec state the properties.
    - [wok-negentropy]: two relays find the events the other lacks.  NegEncoding,
      NegTypes, NegStorage and NegProtocol are encoding.rs, types.rs, storage.rs
      with vector.rs, and protocol.rs; NegMessage, NegReconcile and NegBounds
      hold the results.
    - Utf8 and Bits are the standard library's UTF-8 and facts on machine
      integers; Crates holds the hex, sha2 and secp256k1 crates as parameters.

    A [u8] or [u64] is a [Z] with its wrap-around written out; bytes and strings
    are lists of them; [Result] is [result], the [?] operator its bind; a method
    on [&mut self] returns the new state; a panic is an error value where the
    code could panic.  Code outside the repository is a class of operations with
    its documented behaviour as a class of laws, and an instance that satisfies
    them.

    ** What the theorems show

    - Connections: however bytes are cut into reads, the events are those of the
      whole; what one end encodes the other decodes, compressed or not; buffers
      stay within the message limit; a trickled message meets its deadline.
    - Events: what ingest accepts has a valid id and signature and meets the
      limits; the record indexes the event's own tags; stored JSON packs to the
      same record again; either serializer's output parses back.
    - Filters: a compiled filter matches exactly the events its JSON object asks
      for; a refused filter breaks the rule its error names.
    - Live subscriptions: the index stays consistent under every operation, acts
      as a map of subscriptions, and delivers an event exactly to the
      subscriptions one of whose filters matches; the pending buffer keeps the
      events of a scan in order within its limit.
    - Tables: the cursors and scans of a transaction behave as LMDB's on sorted
      tables, and its operations change one row at a time with every count,
      marker and author head in step.
    - Writes: a batch keeps every index, payload and counter exact, ids and
      addresses unique, and gives each event a verdict; an event is removed only
      by a newer version of its address or by who may delete it; what a request
      deleted stays out; quotas hold; lookups are exact; a commit publishes all
      of it or nothing, also when the store reports an error and the outcome is
      ambiguous, and what was written is read back byte for byte.
    - Two lemmas record where the code does not do what it means to: an address's
      tombstone hidden by an earlier one ([tombstone_hidden_by_earlier]) and a
      compressed message cut at bytes that look like the end of a flush
      ([early_marker_cuts_message]).
    - Reconciliation: on well-formed messages no call fails, a session of calls
      finds exactly the differences, and any input costs a bounded amount.
    - Codecs: varints, bounds, npub, packed records and addresses round trip.

    ** Loops and bounds

    A loop runs with the fuel its measure gives ([loop_m]); the lemmas on it show
    that the measure decreases, so the fuel does not run out.  Measures are the
    unread input, the unprocessed ranges or the queue.  The compressor's loop is
    the exception: the number of calls depends on the foreign compressor, and the
    theorem states a bound from which every fuel gives the same result.
    Hypotheses that bound sizes (such as a total below [2 ^ 64] or a timestamp
    below the greatest one) are those of counters that hold at most that much; in
    the store, a counter that runs out is an error of the model as of the code.
    The background builds of the search and tag postings take as many rounds of
    fuel as their tables have rows, and two more; no theorem is about them.

    ** Not modelled

    Threads, queues and sockets of the relay server; the files of RocksDB; the
    scans that answer queries, the negentropy trees, the sweep of vanished keys,
    moderation lists, rebuilds and migrations; the subscription gate and the
    protocol messages; configuration, administration, the command line and the
    benchmarks.  These are I/O around the parts above, or code over the tables
    that the theorems on transactions cover.

    This file is the prelude: errors as values, loops, bytes, machine integers,
    total orders and the facts on lists that the other files share. *)

From Stdlib Require Export ZArith Lia Sorted.
From stdpp Require Export sorting base tactics numbers strings gmap list.

Local Open Scope Z_scope.

(** ** Errors as values

    [Result<A, E>] of Rust.  The [?] operator is the monadic bind of stdpp
    ([x ← e; k]). *)

Inductive result (E A : Type) : Type :=
| Ok (a : A)
| Err (e : E).
Arguments Ok {E A} a.
Arguments Err {E A} e.

#[export] Instance result_ret {E} : MRet (result E) := λ A a, Ok a.
#[export] Instance result_bind {E} : MBind (result E) :=
  λ A B f r, match r with Ok a => f a | Err e => Err e end.
#[export] Instance result_fmap {E} : FMap (result E) :=
  λ A B f r, match r with Ok a => Ok (f a) | Err e => Err e end.

#[export] Instance result_eq_dec {E A} `{EqDecision E, EqDecision A} :
  EqDecision (result E A).
Proof. solve_decision. Defined.

Definition map_err {E F A} (f : E → F) (r : result E A) : result F A :=
  match r with Ok a => Ok a | Err e => Err (f e) end.

Definition ok_or {E A} (o : option A) (e : E) : result E A :=
  match o with Some a => Ok a | None => Err e end.

Definition result_ok {E A} (r : result E A) : option A :=
  match r with Ok a => Some a | Err _ => None end.

Definition is_ok {E A} (r : result E A) : bool :=
  match r with Ok _ => true | Err _ => false end.

(** [for x in xs { acc = f(acc, x)?; }] *)
Fixpoint try_fold {E A B} (f : A → B → result E A) (acc : A) (xs : list B)
    : result E A :=
  match xs with
  | [] => Ok acc
  | x :: xs => acc' ← f acc x; try_fold f acc' xs
  end.

(** ** Loops

    A [loop] whose body says whether to go on ([inl], with the next state) or to
    leave ([inr], with the result).  [loop_m] runs it with as much fuel as the
    measure [m] of the initial state allows; [loop_m_unfold] shows that this is
    enough when every iteration decreases [m], so [oof] is never returned. *)
Fixpoint loop {E S A} (body : S → result E (S + A)) (oof : E) (fuel : nat) (s : S)
    : result E A :=
  match fuel with
  | O => Err oof
  | Datatypes.S fuel =>
      r ← body s;
      match r with
      | inl s' => loop body oof fuel s'
      | inr a => Ok a
      end
  end.

Definition loop_m {E S A} (m : S → nat) (body : S → result E (S + A)) (oof : E)
    (s : S) : result E A :=
  loop body oof (Datatypes.S (m s)) s.

(** ** Bytes and strings

    A [u8] is an integer in [0, 256).  [&[u8]], [Vec<u8>], [&str] and [String]
    are lists of them (a Rust string is its UTF-8 bytes). *)

Abbreviation bytes := (list Z).

Definition byte_ok (b : Z) : Prop := 0 ≤ b < 256.
Abbreviation bytes_ok := (Forall byte_ok).

(** The bytes of an ASCII string literal. *)
Definition str (s : string) : bytes :=
  (λ a, Z.of_N (Ascii.N_of_ascii a)) <$> String.list_ascii_of_string s.

(** The byte of an ASCII character literal, [b'x'] or an ASCII ['x']. *)
Definition ch (s : string) : Z := default 0 (str s !! 0%nat).

(** Formatted text: the format string of a [format!] with its arguments.  Two
    texts render alike when format and arguments agree. *)
Inductive text : Type :=
| Text (fmt : string) (args : list text)
| TBytes (b : bytes)
| TNum (n : Z)
| TNone.

(** Length of a slice as a [u64]/[usize] value. *)
Abbreviation len l := (Z.of_nat (length l)).

(** [&l[a..b]], in range *)
Definition slice {A} (a b : nat) (l : list A) : list A := take (b - a) (drop a l).

(** [str::to_ascii_lowercase] *)
Definition to_ascii_lowercase (s : bytes) : bytes :=
  (λ c, if (65 <=? c) && (c <=? 90) then c + 32 else c) <$> s.

(** [strip_prefix] *)
Fixpoint strip_prefix (p s : bytes) : option bytes :=
  match p, s with
  | [], _ => Some s
  | a :: p, b :: s => if decide (a = b) then strip_prefix p s else None
  | _ :: _, [] => None
  end.

Definition starts_with (s p : bytes) : bool :=
  match strip_prefix p s with Some _ => true | None => false end.

(** [str::find] of an ASCII character, splitting there: the text before its
    first occurrence and the text after it. *)
Fixpoint split_once (c : Z) (s : bytes) : option (bytes * bytes) :=
  match s with
  | [] => None
  | x :: s' =>
      if decide (x = c) then Some ([], s')
      else match split_once c s' with
           | Some (a, b) => Some (x :: a, b)
           | None => None
           end
  end.

Definition is_ascii_digit (b : Z) : bool := (48 <=? b) && (b <=? 57).
Definition is_ascii_lowercase (b : Z) : bool := (97 <=? b) && (b <=? 122).
Definition is_ascii_uppercase (b : Z) : bool := (65 <=? b) && (b <=? 90).
Definition is_ascii_alphabetic (b : Z) : bool :=
  is_ascii_lowercase b || is_ascii_uppercase b.

(** ** Machine integers *)

Definition U16_MAX : Z := 65535.
Definition U32_MAX : Z := 2 ^ 32 - 1.
Definition U64_MAX : Z := 2 ^ 64 - 1.
Definition I64_MIN : Z := - 2 ^ 63.

Definition u64_ok (n : Z) : Prop := 0 ≤ n ≤ U64_MAX.

Definition wrap64 (n : Z) : Z := n mod 2 ^ 64.
Definition wrap32 (n : Z) : Z := n mod 2 ^ 32.
Definition wrap8 (n : Z) : Z := n mod 256.

(** [saturating_add], [saturating_sub] and [saturating_mul] at a width given by
    its largest value. *)
Definition sat_add (mx a b : Z) : Z := Z.min mx (a + b).
Definition sat_sub (a b : Z) : Z := Z.max 0 (a - b).
Definition sat_mul (mx a b : Z) : Z := Z.min mx (a * b).

(** [to_le_bytes]/[from_le_bytes].  The relay's targets (x86-64 and ARM64) are
    little-endian, so [to_ne_bytes] and [from_ne_bytes] are these too. *)
Fixpoint to_le_bytes (n : nat) (v : Z) : bytes :=
  match n with
  | O => []
  | S n => v mod 256 :: to_le_bytes n (v / 256)
  end.

Fixpoint from_le_bytes (b : bytes) : Z :=
  match b with
  | [] => 0
  | x :: b => x + 256 * from_le_bytes b
  end.

(** [to_be_bytes] and [from_be_bytes] *)
Definition to_be_bytes (n : nat) (v : Z) : bytes := rev (to_le_bytes n v).
Definition from_be_bytes (b : bytes) : Z := from_le_bytes (rev b).

Definition to_ne_bytes (v : Z) : bytes := to_le_bytes 8 v.
Definition from_ne_bytes (b : bytes) : Z := from_le_bytes b.

(** [n.to_string()] of an unsigned integer: its decimal digits.  The fuel is
    the number of binary digits, which is never fewer than the decimal ones. *)
Fixpoint digits_fuel (fuel : nat) (n : Z) (acc : bytes) : bytes :=
  match fuel with
  | O => acc
  | S fuel =>
      let acc := 48 + n mod 10 :: acc in
      if decide (n < 10) then acc else digits_fuel fuel (n / 10) acc
  end.

Definition u64_to_string (n : Z) : bytes := digits_fuel 20 n [].

(** The value of a string of ASCII digits. *)
Definition digits_value (s : bytes) : Z :=
  foldl (λ acc d, acc * 10 + (d - 48)) 0 s.

(** A non-empty string of ASCII digits. *)
Definition all_digits (s : bytes) : bool :=
  negb (bool_decide (s = [])) && forallb is_ascii_digit s.

(** [str::parse::<u64>] without a leading sign: an error when empty, when not
    all digits, or out of range. *)
Definition parse_u64_digits (s : bytes) : option Z :=
  if all_digits s && (digits_value s <=? U64_MAX) then Some (digits_value s) else None.

(** ** Total orders

    [Ord::cmp] implementations, and what the slice algorithms of the Rust
    standard library need of them. *)

Class TotalCmp {A} (cmp : A → A → comparison) : Prop := {
  cmp_eq_iff a b : cmp a b = Eq ↔ a = b;
  cmp_opp a b : cmp b a = CompOpp (cmp a b);
  cmp_lt_trans a b c : cmp a b = Lt → cmp b c = Lt → cmp a c = Lt;
}.

Definition cmp_le {A} (cmp : A → A → comparison) : relation A :=
  λ a b, cmp a b ≠ Gt.
Definition cmp_lt {A} (cmp : A → A → comparison) : relation A :=
  λ a b, cmp a b = Lt.

#[export] Instance comparison_eq_dec : EqDecision comparison.
Proof. solve_decision. Defined.

#[export] Instance cmp_le_dec {A} (cmp : A → A → comparison) :
  RelDecision (cmp_le cmp).
Proof. intros a b. unfold cmp_le. apply _. Defined.
#[export] Instance cmp_lt_dec {A} (cmp : A → A → comparison) :
  RelDecision (cmp_lt cmp).
Proof. intros a b. unfold cmp_lt. apply _. Defined.

(** [Ordering::then_with] *)
Definition then_with (c d : comparison) : comparison :=
  match c with Eq => d | _ => c end.

(** Lexicographic order of slices, [<[T]>::cmp]. *)
Fixpoint slice_cmp {A} (cmp : A → A → comparison) (a b : list A) : comparison :=
  match a, b with
  | [], [] => Eq
  | [], _ :: _ => Lt
  | _ :: _, [] => Gt
  | x :: a, y :: b => then_with (cmp x y) (slice_cmp cmp a b)
  end.

Abbreviation bytes_cmp := (slice_cmp Z.compare).

(** [slice::sort] *)
Definition slice_sort {A} (cmp : A → A → comparison) (l : list A) : list A :=
  merge_sort (cmp_le cmp) l.

(** [Vec::dedup]: drop each element equal to the one before it. *)
Fixpoint vec_dedup {A} `{EqDecision A} (l : list A) : list A :=
  match l with
  | [] => []
  | x :: l' =>
      match l' with
      | [] => [x]
      | y :: _ => if decide (x = y) then vec_dedup l' else x :: vec_dedup l'
      end
  end.

(** [slice::binary_search_by]: the loop of the standard library, which keeps
    the answer in [base, base + size).  The fuel bounds the halvings. *)
Fixpoint bsearch_loop {A} (f : A → comparison) (l : list A)
    (fuel base size : nat) : nat :=
  match fuel with
  | O => base
  | S fuel =>
      if decide (size ≤ 1)%nat then base
      else
        let half := (size / 2)%nat in
        let mid := (base + half)%nat in
        let base' :=
          match l !! mid with
          | Some x => match f x with Gt => base | _ => mid end
          | None => base
          end in
        bsearch_loop f l fuel base' (size - half)
  end.

(** [inl i] is [Ok(i)] (found), [inr i] is [Err(i)] (insertion point). *)
Definition binary_search_by {A} (f : A → comparison) (l : list A) : nat + nat :=
  let base := bsearch_loop f l (length l) 0 (length l) in
  match l !! base with
  | None => inr O
  | Some x =>
      match f x with
      | Eq => inl base
      | Lt => inr (S base)
      | Gt => inr base
      end
  end.

(** [slice::partition_point] *)
Definition partition_point {A} (pred : A → bool) (l : list A) : nat :=
  match binary_search_by (λ x, if pred x then Lt else Gt) l with
  | inl i | inr i => i
  end.

(** ** Automation *)

Create HintDb wok discriminated.
#[export] Hint Constants Transparent : wok.

(** Case analysis on the innermost [match] or [if] of a hypothesis or goal,
    keeping the equation and closing the absurd branches. *)
Ltac break_match_hyp :=
  match goal with
  | H : context [match ?x with _ => _ end] |- _ =>
      lazymatch x with context [match _ with _ => _ end] => fail | _ => idtac end;
      let E := fresh "E" in destruct x eqn:E; simplify_eq/=
  end.
Ltac break_match_goal :=
  match goal with
  | |- context [match ?x with _ => _ end] =>
      lazymatch x with context [match _ with _ => _ end] => fail | _ => idtac end;
      let E := fresh "E" in destruct x eqn:E; simplify_eq/=
  end.
Ltac break_match := repeat (break_match_hyp || break_match_goal).

(** Boolean arithmetic tests of the source, as propositions. *)
Ltac bool_to_prop :=
  repeat match goal with
  | H : (_ && _) = true |- _ => apply andb_prop in H as [? ?]
  | H : (_ && _) = false |- _ => apply andb_false_iff in H
  | H : (_ || _) = true |- _ => apply orb_prop in H
  | H : (_ || _) = false |- _ => apply orb_false_iff in H as [? ?]
  | H : negb _ = true |- _ => apply negb_true_iff in H
  | H : negb _ = false |- _ => apply negb_false_iff in H
  | H : bool_decide _ = true |- _ => apply bool_decide_eq_true in H
  | H : bool_decide _ = false |- _ => apply bool_decide_eq_false in H
  | H : (_ =? _) = true |- _ => apply Z.eqb_eq in H
  | H : (_ =? _) = false |- _ => apply Z.eqb_neq in H
  | H : (_ <=? _) = true |- _ => apply Z.leb_le in H
  | H : (_ <=? _) = false |- _ => apply Z.leb_gt in H
  | H : (_ <? _) = true |- _ => apply Z.ltb_lt in H
  | H : (_ <? _) = false |- _ => apply Z.ltb_ge in H
  end.

(** Linear arithmetic with divisions and remainders. *)
Ltac zlia := Z.div_mod_to_equations; lia.

(** Split a successful [result] bind into its steps. *)
Lemma bind_Ok_inv {E A B} (r : result E A) (f : A → result E B) b :
  (r ≫= f) = Ok b → ∃ a, r = Ok a ∧ f a = Ok b.
Proof. destruct r as [a|e]; simpl; [eauto|done]. Qed.

Ltac inv_bind H :=
  let a := fresh "v" in
  let Ha := fresh "Hv" in
  apply bind_Ok_inv in H as (a & Ha & H).

(** ** Lemmas: results and lists *)

Lemma ok_or_Ok {E A} (o : option A) (e : E) a : ok_or o e = Ok a ↔ o = Some a.
Proof. destruct o; simpl; split; intros; simplify_eq; done. Qed.

Lemma try_fold_app {E A B} (f : A → B → result E A) acc xs ys :
  try_fold f acc (xs ++ ys) = (try_fold f acc xs ≫= λ a, try_fold f a ys).
Proof.
  revert acc. induction xs as [|x xs IH]; intros acc; simpl; [done|].
  destruct (f acc x); simpl; [apply IH|done].
Qed.

(** An invariant of the loop body is an invariant of the loop. *)
Lemma try_fold_inv {E A B} (f : A → B → result E A) (P : A → Prop) xs :
  (∀ a x a', P a → f a x = Ok a' → P a') →
  ∀ acc acc', P acc → try_fold f acc xs = Ok acc' → P acc'.
Proof.
  intros Hf. induction xs as [|x xs IH]; simpl; intros acc acc' HP H.
  - by simplify_eq.
  - inv_bind H. eauto.
Qed.

Section loops.
Context {E S A : Type} (m : S → nat) (body : S → result E (S + A)).
Context (P : S → Prop).
Hypothesis body_decreases :
  ∀ s s', P s → body s = Ok (inl s') → P s' ∧ (m s' < m s)%nat.

Lemma loop_enough_fuel oof oof' fuel fuel' s :
  P s → (m s < fuel)%nat → (m s < fuel')%nat →
  loop body oof fuel s = loop body oof' fuel' s.
Proof using body_decreases.
  revert fuel' s. induction fuel as [|fuel IH]; intros [|fuel'] s HP H1 H2; try lia.
  simpl. destruct (body s) as [[s'|a]|e] eqn:Hb; simpl; try done.
  destruct (body_decreases _ _ HP Hb). apply IH; [done|lia..].
Qed.

Lemma loop_m_unfold oof s :
  P s →
  loop_m m body oof s =
    (r ← body s; match r with inl s' => loop_m m body oof s' | inr a => Ok a end).
Proof using body_decreases.
  intros HP. unfold loop_m at 1. simpl.
  destruct (body s) as [[s'|a]|e] eqn:Hb; simpl; try done.
  destruct (body_decreases _ _ HP Hb). apply loop_enough_fuel; [done|lia..].
Qed.

(** Rule of the loop: an invariant that every iteration keeps and every exit
    turns into the postcondition. *)
Lemma loop_m_rule (I : S → Prop) (Q : A → Prop) oof s a :
  (∀ s s', I s → body s = Ok (inl s') → I s') →
  (∀ s a, I s → body s = Ok (inr a) → Q a) →
  I s → loop_m m body oof s = Ok a → Q a.
Proof.
  intros Hi Hq. unfold loop_m. generalize (Datatypes.S (m s)). intros fuel.
  revert s. induction fuel as [|fuel IH]; intros s HI; simpl; [done|].
  destruct (body s) as [[s'|a']|e] eqn:Hb; simpl; intros H; simplify_eq; eauto.
Qed.
End loops.

(** A loop that returned returns the same with more fuel. *)
Lemma loop_more {E S A} (body : S → result E (S + A)) oof f g s a :
  loop body oof f s = Ok a → (f ≤ g)%nat → loop body oof g s = Ok a.
Proof.
  revert g s. induction f as [|f IH]; intros [|g] s H Hg; simpl in *; try done; try lia.
  destruct (body s) as [[s'|a']|e]; simpl in *; [|done..]. apply IH; [done|lia].
Qed.

(** Total rule of the loop: when every iteration from the invariant succeeds and
    decreases the measure, the loop returns. *)
Lemma loop_m_total {E S A} (m : S → nat) (body : S → result E (S + A)) (I : S → Prop)
    (Q : A → Prop) oof s :
  (∀ s, I s → ∃ r, body s = Ok r ∧
     match r with inl s' => I s' ∧ (m s' < m s)%nat | inr a => Q a end) →
  I s → ∃ a, loop_m m body oof s = Ok a ∧ Q a.
Proof.
  intros Hb. unfold loop_m. assert (m s < Datatypes.S (m s))%nat as Hf by lia. revert Hf.
  generalize (Datatypes.S (m s)). intros fuel. revert s.
  induction fuel as [|fuel IH]; intros s Hf HI; [lia|]. simpl.
  destruct (Hb s HI) as ([s'|a] & -> & Hr); simpl; [|by eauto].
  destruct Hr. apply IH; [lia|done].
Qed.

Lemma str_app s t : str (s +:+ t) = str s ++ str t.
Proof. induction s as [|a s IH]; simpl; [done|]. unfold str in *. simpl. by f_equal. Qed.

Lemma str_ok s : bytes_ok (str s).
Proof.
  unfold str. apply Forall_fmap, Forall_true. intros a. unfold byte_ok. simpl.
  pose proof (Ascii.N_ascii_bounded a). lia.
Qed.

Lemma strip_prefix_Some p s r : strip_prefix p s = Some r ↔ s = p ++ r.
Proof.
  revert s. induction p as [|a p IH]; intros s; simpl.
  - naive_solver.
  - destruct s as [|b s]; [naive_solver|].
    destruct (decide (a = b)) as [->|]; [rewrite IH; naive_solver|naive_solver].
Qed.

Lemma starts_with_true s p : starts_with s p = true ↔ ∃ r, s = p ++ r.
Proof.
  unfold starts_with. destruct (strip_prefix p s) as [r|] eqn:E.
  - apply strip_prefix_Some in E. naive_solver.
  - split; [done|]. intros [r H]. apply strip_prefix_Some in H. congruence.
Qed.

Lemma split_once_Some c s a b :
  split_once c s = Some (a, b) ↔ s = a ++ c :: b ∧ c ∉ a.
Proof.
  revert a. induction s as [|x s IH]; intros a; simpl.
  - split; [done|]. intros [H _]. by destruct a.
  - destruct (decide (x = c)) as [->|Hne].
    + split.
      * intros [= <- <-]. split; [done|]. apply not_elem_of_nil.
      * intros [H Hn]. destruct a as [|y a]; simplify_eq/=; [done|].
        by destruct Hn; left.
    + destruct (split_once c s) as [[a' b']|] eqn:E.
      * split.
        -- intros [= <- <-]. destruct (proj1 (IH a') eq_refl) as [-> Hn].
           split; [done|]. rewrite not_elem_of_cons. done.
        -- intros [H Hn]. destruct a as [|y a]; simplify_eq/=.
           rewrite not_elem_of_cons in Hn. destruct Hn as [_ Hn].
           assert (Some (a', b') = Some (a, b)) as [= -> ->]; [|done].
           apply IH. done.
      * split; [done|]. intros [H Hn]. destruct a as [|y a]; simplify_eq/=.
        rewrite not_elem_of_cons in Hn. destruct Hn as [_ Hn].
        assert (None = Some (a, b)); [|done]. apply IH. done.
Qed.

(** A decidable property of a small range, by evaluation. *)
Lemma forall_range (P : Z → bool) n :
  forallb P (seqZ 0 n) = true → ∀ c, 0 ≤ c < n → P c = true.
Proof.
  intros H c Hc. rewrite forallb_forall in H. apply H.
  apply list_elem_of_In, elem_of_seqZ. lia.
Qed.

(** ** Lemmas: little-endian integers *)

Lemma length_to_le_bytes n v : length (to_le_bytes n v) = n.
Proof. revert v. induction n; intros; simpl; auto. Qed.

Lemma to_le_bytes_ok n v : bytes_ok (to_le_bytes n v).
Proof.
  revert v. induction n as [|n IH]; intros v; simpl; constructor; [|done].
  unfold byte_ok. pose proof (Z.mod_pos_bound v 256). lia.
Qed.

Lemma from_to_le_bytes n v :
  0 ≤ v < 256 ^ Z.of_nat n → from_le_bytes (to_le_bytes n v) = v.
Proof.
  revert v. induction n as [|n IH]; intros v Hv; simpl.
  - change (256 ^ Z.of_nat 0) with 1 in Hv. lia.
  - rewrite Nat2Z.inj_succ, Z.pow_succ_r in Hv by lia.
    rewrite IH.
    + pose proof (Z.div_mod v 256). lia.
    + split; [apply Z.div_pos; lia|]. apply Z.div_lt_upper_bound; lia.
Qed.

Lemma from_le_bytes_bound b :
  bytes_ok b → 0 ≤ from_le_bytes b < 256 ^ len b.
Proof.
  induction 1 as [|x b Hx Hb IH]; simpl length; [simpl; lia|].
  rewrite Nat2Z.inj_succ, Z.pow_succ_r by lia. simpl. unfold byte_ok in Hx. lia.
Qed.

Lemma to_from_le_bytes b :
  bytes_ok b → to_le_bytes (length b) (from_le_bytes b) = b.
Proof.
  induction 1 as [|x b Hx Hb IH]; simpl; [done|]. unfold byte_ok in Hx.
  rewrite Z.mul_comm, Z_mod_plus_full, Z.mod_small by lia.
  rewrite Z.div_add, Z.div_small by lia. by rewrite Z.add_0_l, IH.
Qed.

Lemma length_to_be_bytes n v : length (to_be_bytes n v) = n.
Proof. unfold to_be_bytes. by rewrite length_rev, length_to_le_bytes. Qed.

Lemma from_to_be_bytes n v :
  0 ≤ v < 256 ^ Z.of_nat n → from_be_bytes (to_be_bytes n v) = v.
Proof.
  intros Hv. unfold from_be_bytes, to_be_bytes. rewrite rev_involutive.
  by apply from_to_le_bytes.
Qed.

Lemma length_to_ne_bytes v : length (to_ne_bytes v) = 8%nat.
Proof. apply length_to_le_bytes. Qed.

Lemma from_to_ne_bytes v : u64_ok v → from_ne_bytes (to_ne_bytes v) = v.
Proof.
  intros Hv. apply from_to_le_bytes. unfold u64_ok, U64_MAX in Hv.
  change (256 ^ Z.of_nat 8) with (2 ^ 64). lia.
Qed.

(** ** Lemmas: decimal digits *)

Lemma digits_value_app a b :
  digits_value (a ++ b) = digits_value a * 10 ^ len b + digits_value b.
Proof.
  unfold digits_value. rewrite foldl_app.
  generalize (foldl (λ acc d, acc * 10 + (d - 48)) 0 a). intros acc.
  assert (∀ b x, foldl (λ acc d, acc * 10 + (d - 48)) x b =
    x * 10 ^ len b + foldl (λ acc d, acc * 10 + (d - 48)) 0 b) as Haux; [|apply Haux].
  clear. intros b. induction b as [|d b IH]; intros x; simpl foldl; simpl length.
  - lia.
  - rewrite Nat2Z.inj_succ, Z.pow_succ_r by lia.
    rewrite IH, (IH (0 * 10 + (d - 48))). ring.
Qed.

Lemma digits_fuel_acc fuel n acc :
  digits_fuel fuel n acc = digits_fuel fuel n [] ++ acc.
Proof.
  revert n acc. induction fuel as [|fuel IH]; intros n acc; simpl; [done|].
  case_decide; [done|]. rewrite IH, (IH _ [_]), <-app_assoc. done.
Qed.

Lemma digits_fuel_spec fuel n :
  0 ≤ n < 10 ^ Z.of_nat fuel → (0 < fuel)%nat →
  digits_value (digits_fuel fuel n []) = n ∧
  Forall (λ b, is_ascii_digit b = true) (digits_fuel fuel n []) ∧
  (∃ d t, digits_fuel fuel n [] = d :: t ∧ (t = [] ∨ d ≠ 48)) ∧
  (length (digits_fuel fuel n []) ≤ fuel)%nat.
Proof.
  revert n. induction fuel as [|fuel IH]; intros n Hn Hf; [lia|]. simpl.
  pose proof (Z.mod_pos_bound n 10 ltac:(lia)) as Hm.
  assert (is_ascii_digit (48 + n mod 10) = true) as Hd.
  { unfold is_ascii_digit. apply andb_true_intro. rewrite !Z.leb_le. lia. }
  destruct (decide (n < 10)) as [Hlt|Hge].
  - rewrite Z.mod_small by lia. split; [unfold digits_value; simpl; lia|].
    split; [rewrite Z.mod_small in Hd by lia; by constructor|].
    split; [eexists _, []; eauto|]. simpl. lia.
  - rewrite Nat2Z.inj_succ, Z.pow_succ_r in Hn by lia.
    rewrite digits_fuel_acc.
    assert (0 < n / 10) by (apply Z.div_str_pos; lia).
    assert (0 < fuel)%nat.
    { destruct fuel; [|lia]. change (10 ^ Z.of_nat 0) with 1 in Hn. lia. }
    destruct (IH (n / 10)) as (Hv & Hds & (d & t & Hdt & Hnz) & Hl).
    { split; [lia|]. apply Z.div_lt_upper_bound; lia. }
    { done. }
    rewrite digits_value_app, Hv. simpl length. change (10 ^ Z.of_nat 1) with 10.
    split; [unfold digits_value; simpl; pose proof (Z.div_mod n 10); lia|].
    split; [apply Forall_app; split; [done|by constructor]|].
    split; [|rewrite length_app; simpl; lia].
    rewrite Hdt. exists d, (t ++ [48 + n mod 10]). split; [done|]. right.
    destruct Hnz as [->|]; [|done]. intros ->. rewrite Hdt in Hv.
    unfold digits_value in Hv. simpl in Hv. lia.
Qed.

Lemma u64_to_string_spec n :
  u64_ok n →
  digits_value (u64_to_string n) = n ∧
  Forall (λ b, is_ascii_digit b = true) (u64_to_string n) ∧
  (∃ d t, u64_to_string n = d :: t ∧ (t = [] ∨ d ≠ 48)) ∧
  (length (u64_to_string n) ≤ 20)%nat.
Proof.
  intros Hn. apply digits_fuel_spec; [|lia]. unfold u64_ok, U64_MAX in Hn.
  assert (2 ^ 64 ≤ 10 ^ Z.of_nat 20) by (vm_compute; congruence). lia.
Qed.

Lemma all_digits_u64_to_string n : u64_ok n → all_digits (u64_to_string n) = true.
Proof.
  intros Hn. destruct (u64_to_string_spec n Hn) as (_ & Hds & (d & t & Ht & _) & _).
  unfold all_digits. rewrite bool_decide_false by (by rewrite Ht). simpl.
  apply forallb_forall. intros x Hx. rewrite Forall_forall in Hds.
  by apply Hds, list_elem_of_In.
Qed.

Lemma parse_u64_to_string n :
  u64_ok n → parse_u64_digits (u64_to_string n) = Some n.
Proof.
  intros Hn. destruct (u64_to_string_spec n Hn) as (Hv & _).
  unfold parse_u64_digits. rewrite all_digits_u64_to_string, Hv by done.
  unfold u64_ok in Hn. simpl. by rewrite (proj2 (Z.leb_le n U64_MAX)) by lia.
Qed.

Lemma digits_value_nonneg s : all_digits s = true → 0 ≤ digits_value s.
Proof.
  unfold all_digits. intros [_ H]%andb_prop. unfold digits_value.
  assert (∀ acc, 0 ≤ acc → 0 ≤ foldl (λ acc d, acc * 10 + (d - 48)) acc s) as Haux;
    [|by apply Haux].
  induction s as [|d s IH]; simpl in *; intros acc Ha; [done|].
  apply andb_prop in H as [Hd H]. unfold is_ascii_digit in Hd. bool_to_prop.
  apply IH; [done|]. lia.
Qed.

Lemma parse_u64_digits_Some s n :
  parse_u64_digits s = Some n → u64_ok n ∧ all_digits s = true ∧ n = digits_value s.
Proof.
  unfold parse_u64_digits. destruct (_ && _) eqn:E; [|done]. intros [= <-].
  apply andb_prop in E as [E1 E2]. bool_to_prop.
  pose proof (digits_value_nonneg s E1). by unfold u64_ok.
Qed.

(** ** Lemmas: slices *)

Lemma length_slice {A} b e (l : list A) : (e ≤ length l)%nat → length (slice b e l) = (e - b)%nat.
Proof. intros. unfold slice. rewrite length_take, length_drop. lia. Qed.

Lemma slice_slice {A} B E b e (l : list A) :
  (B + e ≤ E)%nat → slice b e (slice B E l) = slice (B + b) (B + e) l.
Proof.
  intros H. unfold slice. rewrite skipn_firstn_comm, drop_drop, take_take.
  f_equal; lia.
Qed.

Lemma slice_full {A} (l : list A) : slice 0 (length l) l = l.
Proof. unfold slice. rewrite drop_0, take_ge; [done|lia]. Qed.

Lemma slice_app {A} b m e (l : list A) :
  (b ≤ m ≤ e)%nat → slice b m l ++ slice m e l = slice b e l.
Proof.
  intros H. unfold slice. replace (drop m l) with (drop (m - b) (drop b l))
    by (rewrite drop_drop; f_equal; lia).
  rewrite take_take_drop. f_equal. lia.
Qed.

Lemma slice_app_le {A} b e (l k : list A) : (e ≤ length l)%nat → slice b e (l ++ k) = slice b e l.
Proof.
  intros He. unfold slice. destruct (decide (b ≤ e)%nat) as [Hb|Hb].
  - by rewrite drop_app_le, take_app_le by (rewrite ?length_drop; lia).
  - by replace (e - b)%nat with 0%nat by lia.
Qed.

Lemma slice_nil {A} b (l : list A) : slice b b l = [].
Proof. unfold slice. by rewrite Nat.sub_diag. Qed.

Lemma lookup_slice {A} b e (l : list A) i :
  (i < e - b)%nat → slice b e l !! i = l !! (b + i)%nat.
Proof. intros H. unfold slice. by rewrite lookup_take_lt, lookup_drop by done. Qed.

Lemma lookup_slice_Some {A} b e (l : list A) i x :
  slice b e l !! i = Some x ↔ l !! (b + i)%nat = Some x ∧ (i < e - b)%nat.
Proof. unfold slice. rewrite lookup_take_Some, lookup_drop. done. Qed.

Lemma Forall_slice {A} (P : A → Prop) b e l : Forall P l → Forall P (slice b e l).
Proof. intros. unfold slice. by apply Forall_take, Forall_drop. Qed.

Lemma StronglySorted_slice {A} (R : relation A) b e l :
  StronglySorted R l → StronglySorted R (slice b e l).
Proof.
  intros Hs. unfold slice. rewrite <-(take_drop b l) in Hs.
  apply StronglySorted_app_1_r in Hs.
  rewrite <-(take_drop (e - b) (drop b l)) in Hs. by apply StronglySorted_app_1_l in Hs.
Qed.

(** In a strongly sorted list, positions are ordered as the elements are. *)
Lemma StronglySorted_lookup {A} (R : relation A) l i j x y :
  StronglySorted R l → (i < j)%nat → l !! i = Some x → l !! j = Some y → R x y.
Proof.
  intros Hs Hij Hx Hy. rewrite <-(take_drop (Datatypes.S i) l) in Hs.
  eapply StronglySorted_app_1_elem_of; [exact Hs|..].
  - eapply (list_elem_of_lookup_2 _ i). rewrite lookup_take_lt by lia. exact Hx.
  - eapply (list_elem_of_lookup_2 _ (j - Datatypes.S i)%nat). rewrite lookup_drop, <-Hy. f_equal. lia.
Qed.

Lemma filter_all {A} (P : A → Prop) `{!∀ x, Decision (P x)} (l : list A) :
  (∀ x, x ∈ l → P x) → filter P l = l.
Proof.
  induction l as [|x l IH]; intros Hl; [done|].
  rewrite filter_cons_True by (apply Hl; left). f_equal. apply IH. intros y Hy. apply Hl. by right.
Qed.

Lemma filter_none {A} (P : A → Prop) `{!∀ x, Decision (P x)} (l : list A) :
  (∀ x, x ∈ l → ¬ P x) → filter P l = [].
Proof.
  induction l as [|x l IH]; intros Hl; [done|].
  rewrite filter_cons_False by (apply Hl; left). apply IH. intros y Hy. apply Hl. by right.
Qed.

Lemma filter_ext_in {A} (P Q : A → Prop) `{!∀ x, Decision (P x), !∀ x, Decision (Q x)} (l : list A) :
  (∀ x, x ∈ l → P x ↔ Q x) → filter P l = filter Q l.
Proof.
  induction l as [|x l IH]; intros Hl; [done|]. rewrite !filter_cons, IH.
  - pose proof (Hl x ltac:(left)). repeat case_decide; tauto.
  - intros y Hy. apply Hl. by right.
Qed.

(** A decimal spelling without leading zeros. *)
Definition canonical_digits (s : bytes) : Prop :=
  ∃ d t, s = d :: t ∧ (t = [] ∨ d ≠ 48).

Lemma digits_value_snoc s d : digits_value (s ++ [d]) = digits_value s * 10 + (d - 48).
Proof. unfold digits_value. by rewrite foldl_app. Qed.

Lemma canonical_digits_pos d t :
  forallb is_ascii_digit (d :: t) = true → d ≠ 48 → 1 ≤ digits_value (d :: t).
Proof.
  induction t as [|e t IH] using rev_ind; intros Hd Hne.
  - simpl in Hd. unfold is_ascii_digit in Hd. bool_to_prop. unfold digits_value. simpl. lia.
  - rewrite app_comm_cons, forallb_app in Hd. apply andb_prop in Hd as [Hd He].
    rewrite app_comm_cons, digits_value_snoc. specialize (IH Hd Hne).
    simpl in He. unfold is_ascii_digit in He. bool_to_prop. lia.
Qed.

Lemma canonical_digits_inj s t :
  forallb is_ascii_digit s = true → forallb is_ascii_digit t = true →
  canonical_digits s → canonical_digits t → digits_value s = digits_value t → s = t.
Proof.
  revert t. induction s as [|d s IH] using rev_ind; intros t Hs Ht (x & s' & E & Cs) Ct Hv.
  { done. }
  destruct t as [|e t _] using rev_ind; [by destruct Ct as (?&?&?&?)|].
  destruct Ct as (y & t' & F & Ct).
  rewrite forallb_app in Hs, Ht. apply andb_prop in Hs as [Hs Hd], Ht as [Ht He].
  simpl in Hd, He. unfold is_ascii_digit in Hd, He. bool_to_prop.
  rewrite !digits_value_snoc in Hv.
  pose proof (λ H, canonical_digits_pos x (tail s) H) as Px.
  pose proof (λ H, canonical_digits_pos y (tail t) H) as Py.
  destruct s as [|x' s], t as [|y' t]; simplify_eq/=.
  - f_equal. unfold digits_value in Hv. simpl in Hv. lia.
  - destruct Ct as [Ct|Ct]; [by destruct t|]. specialize (Py Ht Ct).
    unfold digits_value in Hv at 1. simpl in Hv. lia.
  - destruct Cs as [Cs|Cs]; [by destruct s|]. specialize (Px Hs Cs).
    unfold digits_value in Hv at 2. simpl in Hv. lia.
  - destruct Cs as [Cs|Cs]; [by destruct s|]. destruct Ct as [Ct|Ct]; [by destruct t|].
    assert (x :: s = y :: t) as [= -> ->].
    { apply IH; try done; [by eexists _, _; split; [|right]..|lia]. }
    do 2 f_equal. f_equal. lia.
Qed.

Lemma canonical_digits_unique s n :
  canonical_digits s → parse_u64_digits s = Some n → s = u64_to_string n.
Proof.
  intros Hc Hp. apply parse_u64_digits_Some in Hp as (Hn & Hd & ->).
  apply andb_prop in Hd as [_ Hd]. pose proof (u64_to_string_spec _ Hn) as (Hv & Hf & Hc' & _).
  apply canonical_digits_inj; try done.
  apply forallb_forall. intros x Hx. rewrite Forall_forall in Hf. by apply Hf, list_elem_of_In.
Qed.

(** ** Lemmas: total orders *)

#[export] Instance Z_compare_total : TotalCmp Z.compare.
Proof.
  split.
  - apply Z.compare_eq_iff.
  - intros. by rewrite Z.compare_antisym.
  - intros a b c. rewrite !Z.compare_lt_iff. lia.
Qed.

#[export] Instance slice_cmp_total {A} (cmp : A → A → comparison) :
  TotalCmp cmp → TotalCmp (slice_cmp cmp).
Proof.
  intros Ht. split.
  - intros a. induction a as [|x a IH]; intros [|y b]; simpl; try done.
    unfold then_with. destruct (cmp x y) eqn:E.
    + apply cmp_eq_iff in E as ->. rewrite IH. naive_solver.
    + split; [done|]. intros [= -> ->].
      rewrite (proj2 (cmp_eq_iff y y) eq_refl) in E. done.
    + split; [done|]. intros [= -> ->].
      rewrite (proj2 (cmp_eq_iff y y) eq_refl) in E. done.
  - intros a. induction a as [|x a IH]; intros [|y b]; simpl; try done.
    rewrite (cmp_opp (cmp:=cmp) x y). unfold then_with. destruct (cmp x y); simpl; auto.
  - intros a. induction a as [|x a IH]; intros [|y b] [|z c]; simpl; try done.
    unfold then_with.
    destruct (cmp x y) eqn:E1, (cmp y z) eqn:E2; try done.
    + apply cmp_eq_iff in E1 as ->. rewrite E2. apply IH.
    + apply cmp_eq_iff in E1 as ->. by rewrite E2.
    + apply cmp_eq_iff in E2 as ->. by rewrite E1.
    + by rewrite (cmp_lt_trans _ _ _ E1 E2).
Qed.

Section total_cmp.
Context {A : Type} (cmp : A → A → comparison) `{!TotalCmp cmp}.

Lemma cmp_refl a : cmp a a = Eq.
Proof. by apply cmp_eq_iff. Qed.

Lemma cmp_gt_lt a b : cmp a b = Gt ↔ cmp b a = Lt.
Proof. rewrite (cmp_opp (cmp:=cmp) a b). destruct (cmp a b); naive_solver. Qed.

Lemma cmp_le_lt_eq a b : cmp_le cmp a b ↔ cmp_lt cmp a b ∨ a = b.
Proof.
  unfold cmp_le, cmp_lt. rewrite <-(cmp_eq_iff (cmp:=cmp) a b).
  destruct (cmp a b); naive_solver.
Qed.

#[export] Instance cmp_le_preorder : PreOrder (cmp_le cmp).
Proof.
  split.
  - intros a. apply cmp_le_lt_eq. by right.
  - intros a b c. rewrite !cmp_le_lt_eq. unfold cmp_lt.
    intros [H1| ->] [H2| ->]; eauto using cmp_lt_trans.
Qed.

#[export] Instance cmp_le_antisymm : AntiSymm (=) (cmp_le cmp).
Proof.
  intros a b. unfold cmp_le. rewrite (cmp_opp (cmp:=cmp) a b).
  destruct (cmp a b) eqn:E; simpl; try done. intros. by apply cmp_eq_iff.
Qed.

#[export] Instance cmp_le_total : Total (cmp_le cmp).
Proof.
  intros a b. unfold cmp_le. rewrite (cmp_opp (cmp:=cmp) a b).
  destruct (cmp a b); simpl; naive_solver.
Qed.

#[export] Instance cmp_lt_strict : StrictOrder (cmp_lt cmp).
Proof.
  split.
  - intros a H. unfold cmp_lt in H. rewrite cmp_refl in H. done.
  - intros a b c. apply cmp_lt_trans.
Qed.

Lemma cmp_lt_not_le a b : cmp_lt cmp a b ↔ ¬ cmp_le cmp b a.
Proof.
  unfold cmp_lt, cmp_le. rewrite (cmp_opp (cmp:=cmp) a b). destruct (cmp a b); naive_solver.
Qed.

Lemma cmp_le_lt_trans a b c : cmp_le cmp a b → cmp_lt cmp b c → cmp_lt cmp a c.
Proof.
  rewrite cmp_le_lt_eq. intros [H| ->] H2; [|done]. by eapply cmp_lt_trans.
Qed.

(** Sorting *)

Lemma slice_sort_perm l : slice_sort cmp l ≡ₚ l.
Proof. apply merge_sort_Permutation. Qed.

Lemma slice_sort_sorted l : StronglySorted (cmp_le cmp) (slice_sort cmp l).
Proof. apply StronglySorted_merge_sort; apply _. Qed.

(** Sorting a list is canonical: it depends on the elements alone. *)
Lemma slice_sort_perm_eq l1 l2 : l1 ≡ₚ l2 → slice_sort cmp l1 = slice_sort cmp l2.
Proof.
  intros Hp. apply (StronglySorted_unique (cmp_le cmp)).
  - apply slice_sort_sorted.
  - apply slice_sort_sorted.
  - by rewrite !slice_sort_perm.
Qed.

Lemma slice_sort_id l : StronglySorted (cmp_le cmp) l → slice_sort cmp l = l.
Proof.
  intros Hs. apply (StronglySorted_unique (cmp_le cmp)).
  - apply slice_sort_sorted.
  - done.
  - apply slice_sort_perm.
Qed.

Lemma lt_sorted_le l :
  StronglySorted (cmp_lt cmp) l → StronglySorted (cmp_le cmp) l.
Proof.
  induction 1 as [|a l Hs IH Hf]; constructor; [done|].
  eapply Forall_impl; [exact Hf|]. intros b Hb. apply cmp_le_lt_eq. by left.
Qed.

Context `{!EqDecision A}.

Lemma vec_dedup_cons2 (x y : A) l :
  vec_dedup (x :: y :: l) =
    if decide (x = y) then vec_dedup (y :: l) else x :: vec_dedup (y :: l).
Proof. done. Qed.

Lemma elem_of_vec_dedup (l : list A) x : x ∈ vec_dedup l ↔ x ∈ l.
Proof.
  induction l as [|a l IH]; [done|]. destruct l as [|b l]; [done|].
  rewrite vec_dedup_cons2. case_decide as E.
  - subst b. rewrite IH. rewrite !elem_of_cons. naive_solver.
  - rewrite elem_of_cons, IH. by rewrite (elem_of_cons (b :: l)).
Qed.

(** Sorting then [dedup] gives a strictly increasing list. *)
Lemma vec_dedup_sorted (l : list A) :
  StronglySorted (cmp_le cmp) l → StronglySorted (cmp_lt cmp) (vec_dedup l).
Proof.
  induction 1 as [|a l Hs IH Hf]; [constructor|].
  destruct l as [|b l]; [simpl; repeat constructor|].
  rewrite vec_dedup_cons2. case_decide as E; [done|].
  constructor; [done|]. apply Forall_forall. intros x Hx.
  rewrite elem_of_vec_dedup in Hx. inversion Hf as [|? ? Hab Hal]; subst.
  assert (cmp_lt cmp a b) as Hlt.
  { apply cmp_le_lt_eq in Hab as [?|?]; done. }
  apply elem_of_cons in Hx as [->|Hx]; [done|].
  inversion Hs as [|? ? ? Hbl]; subst. rewrite Forall_forall in Hbl.
  specialize (Hbl _ Hx). apply cmp_le_lt_eq in Hbl as [Hbx| ->]; [|done].
  by eapply cmp_lt_trans.
Qed.

Lemma slice_sort_dedup_sorted (l : list A) :
  StronglySorted (cmp_lt cmp) (vec_dedup (slice_sort cmp l)).
Proof. apply vec_dedup_sorted, slice_sort_sorted. Qed.

Lemma elem_of_slice_sort_dedup (l : list A) x :
  x ∈ vec_dedup (slice_sort cmp l) ↔ x ∈ l.
Proof. by rewrite elem_of_vec_dedup, slice_sort_perm. Qed.

Lemma sorted_NoDup_lt (l : list A) :
  StronglySorted (cmp_le cmp) l → NoDup l → StronglySorted (cmp_lt cmp) l.
Proof.
  induction 1 as [|x l Hs IH Hf]; intros Hnd; [constructor|]. apply NoDup_cons in Hnd as [Hx Hnd].
  constructor; [by apply IH|]. rewrite Forall_forall in *. intros y Hy.
  specialize (Hf y Hy). apply cmp_le_lt_eq in Hf as [|]; [done|]. by subst.
Qed.

Lemma strictly_sorted_NoDup (l : list A) :
  StronglySorted (cmp_lt cmp) l → NoDup l.
Proof.
  induction 1 as [|a l Hs IH Hf]; constructor; [|done].
  intros Ha. rewrite Forall_forall in Hf. specialize (Hf _ Ha).
  unfold cmp_lt in Hf. by rewrite cmp_refl in Hf.
Qed.
End total_cmp.

(** ** Lemmas: binary search *)

Section binary_search.
Context {A : Type} (f : A → comparison).

(** The probed function is non-decreasing along the slice: [Less]es, then
    [Equal]s, then [Greater]s. *)
Definition probe_sorted (l : list A) : Prop :=
  ∀ i j x y, (i < j)%nat → l !! i = Some x → l !! j = Some y →
    (f y = Lt → f x = Lt) ∧ (f x = Gt → f y = Gt).

(** The loop keeps every index below [base] not [Greater], and every index
    from [base + size] on [Greater]. *)
Lemma bsearch_loop_spec l fuel base size :
  probe_sorted l →
  (size ≤ fuel)%nat → (0 < size)%nat → (base + size ≤ length l)%nat →
  (∀ i x, (i < base)%nat → l !! i = Some x → f x ≠ Gt) →
  (0 < base → ∀ x, l !! base = Some x → f x ≠ Gt)%nat →
  (∀ i x, (base + size ≤ i)%nat → l !! i = Some x → f x = Gt) →
  let b := bsearch_loop f l fuel base size in
  (b < length l)%nat ∧
  (∀ i x, (i < b)%nat → l !! i = Some x → f x ≠ Gt) ∧
  (0 < b → ∀ x, l !! b = Some x → f x ≠ Gt)%nat ∧
  (∀ i x, (b < i)%nat → l !! i = Some x → f x = Gt).
Proof.
  intros Hl. revert base size.
  induction fuel as [|fuel IH]; intros base size Hfuel Hsz Hlen Hlo Hb Hhi; [lia|].
  cbn [bsearch_loop]. cbv zeta. case_decide as Hs.
  { replace size with 1%nat in * by lia. repeat split; auto; [lia|].
    intros i x Hi. apply Hhi. lia. }
  set (half := (size / 2)%nat).
  assert (0 < half)%nat by (apply Nat.div_str_pos; lia).
  assert (half < size)%nat by (apply Nat.div_lt; lia).
  assert (2 * half ≤ size)%nat by apply Nat.Div0.mul_div_le.
  destruct (lookup_lt_is_Some_2 l (base + half)%nat) as [x Hx]; [lia|].
  rewrite Hx. destruct (f x) eqn:Hfx.
  - apply IH; [lia..| | |].
    + intros i y Hi Hy Hgt. destruct (Hl i (base + half)%nat y x) as [_ Hg]; auto.
      rewrite (Hg Hgt) in Hfx. done.
    + intros _ y Hy. assert (y = x) as -> by congruence. congruence.
    + intros i y Hi. apply Hhi. lia.
  - apply IH; [lia..| | |].
    + intros i y Hi Hy Hgt. destruct (Hl i (base + half)%nat y x) as [_ Hg]; auto.
      rewrite (Hg Hgt) in Hfx. done.
    + intros _ y Hy. assert (y = x) as -> by congruence. congruence.
    + intros i y Hi. apply Hhi. lia.
  - apply IH; [lia..| | |]; auto.
    intros i y Hi Hy. destruct (decide (i = base + half)%nat) as [->|].
    + congruence.
    + destruct (Hl (base + half)%nat i x y) as [_ Hg]; auto. lia.
Qed.

(** On a sorted slice the search finds an [Equal] element if there is one, and
    otherwise the point up to which every element is [Less]. *)
Lemma binary_search_by_spec l :
  probe_sorted l →
  match binary_search_by f l with
  | inl i => ∃ x, l !! i = Some x ∧ f x = Eq
  | inr i => (i ≤ length l)%nat ∧
      (∀ j x, l !! j = Some x → f x = if decide (j < i)%nat then Lt else Gt)
  end.
Proof.
  intros Hl. unfold binary_search_by.
  destruct (decide (length l = 0)%nat) as [Hz|Hz].
  { apply nil_length_inv in Hz as ->. simpl. split; [lia|]. by intros j x. }
  destruct (bsearch_loop_spec l (length l) 0 (length l)) as (Hb & Hlo & Hat & Hhi);
    auto; try lia.
  { intros i x Hi Hx. apply lookup_lt_Some in Hx. lia. }
  set (b := bsearch_loop f l (length l) 0 (length l)) in *.
  destruct (lookup_lt_is_Some_2 l b Hb) as [x Hx]. rewrite Hx.
  destruct (f x) eqn:Hfx; [eauto| |].
  - split; [lia|]. intros j y Hy. case_decide as Hj.
    + destruct (decide (j = b)) as [->|]; [congruence|].
      destruct (Hl j b y x) as [Hp _]; auto. lia.
    + apply (Hhi j); [lia|done].
  - split; [lia|]. intros j y Hy. case_decide as Hj.
    + exfalso. apply (Hat ltac:(lia) _ Hx Hfx).
    + destruct (decide (j = b)) as [->|]; [congruence|].
      apply (Hhi j); [lia|done].
Qed.
End binary_search.

(** On a strictly sorted slice, [binary_search] decides membership. *)
Lemma binary_search_mem {A} (cmp : A → A → comparison) `{!TotalCmp cmp} l c :
  StronglySorted (cmp_lt cmp) l →
  (∃ i, binary_search_by (λ x, cmp x c) l = inl i) ↔ c ∈ l.
Proof.
  intros Hs.
  assert (probe_sorted (λ x, cmp x c) l) as Hp.
  { intros i j x y Hij Hx Hy.
    assert (cmp x y = Lt) as Hxy.
    { clear -Hs Hij Hx Hy. revert i j Hij Hx Hy.
      induction Hs as [|a l Hs IH Hf]; intros [|i] [|j] Hij Hx Hy;
        simpl in *; simplify_eq; try lia.
      - rewrite Forall_forall in Hf. apply Hf. by eapply list_elem_of_lookup_2.
      - eapply (IH i j); eauto. lia. }
    split; intros H.
    - by eapply cmp_lt_trans.
    - apply cmp_gt_lt; [done|]. apply cmp_gt_lt in H; [|done].
      by eapply cmp_lt_trans. }
  pose proof (binary_search_by_spec _ l Hp) as Hspec.
  destruct (binary_search_by _ l) as [i|i].
  - split; [|by eauto]. intros _. destruct Hspec as (x & Hx & Hc).
    apply cmp_eq_iff in Hc as ->. by eapply list_elem_of_lookup_2.
  - split; [by intros [? ?]|]. intros Hin.
    apply list_elem_of_lookup_1 in Hin as [j Hj].
    destruct Hspec as [_ Hspec]. specialize (Hspec j c Hj).
    rewrite cmp_refl in Hspec by done. by case_decide.
Qed.

(** [partition_point] counts the elements satisfying a predicate that holds on
    a prefix of the slice. *)
Lemma partition_point_spec {A} (pred : A → bool) l :
  (∀ i j x y, (i < j)%nat → l !! i = Some x → l !! j = Some y →
     pred y = true → pred x = true) →
  let k := partition_point pred l in
  (k ≤ length l)%nat ∧
  (∀ j x, l !! j = Some x → pred x = bool_decide (j < k)%nat).
Proof.
  intros Hp. unfold partition_point.
  pose proof (binary_search_by_spec (λ x, if pred x then Lt else Gt) l) as Hs.
  destruct (binary_search_by _ l) as [i|i].
  - destruct Hs as (x & _ & Hx); [|by destruct (pred x)].
    intros i' j x y Hij Hx Hy. specialize (Hp _ _ _ _ Hij Hx Hy).
    destruct (pred x), (pred y); naive_solver.
  - destruct Hs as [Hle Hs].
    { intros i' j x y Hij Hx Hy. specialize (Hp _ _ _ _ Hij Hx Hy).
      destruct (pred x), (pred y); naive_solver. }
    split; [done|]. intros j x Hx. specialize (Hs j x Hx).
    destruct (pred x); case_decide; try done.
    + by rewrite bool_decide_true.
    + by rewrite bool_decide_false.
Qed.

#[export] Hint Resolve length_to_le_bytes length_to_ne_bytes to_le_bytes_ok
  str_ok : wok.
