(* ===== verification/Utf8.v ===== *)
(** * UTF-8, as the Rust standard library reads and writes it

    [char::encode_utf8], [str::chars] and [str::from_utf8]: a [char] is a
    Unicode scalar value, a string is valid when it decodes to such values in
    their shortest encodings.  The JSON codec and the subscription ids use it. *)

From S2P Require Import Prelude.

Local Open Scope Z_scope.

(** A Unicode scalar value: any code point but the surrogates. *)
Definition char_ok (c : Z) : Prop := 0 ≤ c < 0xD800 ∨ 0xE000 ≤ c < 0x110000.

(** [char::from_u32] *)
Definition char_from_u32 (c : Z) : option Z :=
  if ((0 <=? c) && (c <? 0xD800)) || ((0xE000 <=? c) && (c <? 0x110000))
  then Some c else None.

(** [char::encode_utf8], as [String::push] appends it. *)
Definition utf8_encode (c : Z) : bytes :=
  if decide (c < 0x80) then [c]
  else if decide (c < 0x800) then [0xC0 + c / 64; 0x80 + c mod 64]
  else if decide (c < 0x10000) then
    [0xE0 + c / 4096; 0x80 + c / 64 mod 64; 0x80 + c mod 64]
  else
    [0xF0 + c / 262144; 0x80 + c / 4096 mod 64; 0x80 + c / 64 mod 64;
     0x80 + c mod 64].

Definition in_range (lo hi b : Z) : bool := (lo <=? b) && (b <=? hi).

(** One step of [str::chars], with the checks of [str::from_utf8]. *)
Definition utf8_decode1 (s : bytes) : option (Z * bytes) :=
  match s with
  | [] => None
  | b0 :: r0 =>
      if in_range 0 0x7F b0 then Some (b0, r0)
      else if in_range 0xC2 0xDF b0 then
        match r0 with
        | b1 :: r =>
            if in_range 0x80 0xBF b1
            then Some ((b0 - 0xC0) * 64 + (b1 - 0x80), r) else None
        | _ => None
        end
      else if in_range 0xE0 0xEF b0 then
        match r0 with
        | b1 :: b2 :: r =>
            if in_range (if decide (b0 = 0xE0) then 0xA0 else 0x80)
                 (if decide (b0 = 0xED) then 0x9F else 0xBF) b1
               && in_range 0x80 0xBF b2
            then Some ((b0 - 0xE0) * 4096 + (b1 - 0x80) * 64 + (b2 - 0x80), r)
            else None
        | _ => None
        end
      else if in_range 0xF0 0xF4 b0 then
        match r0 with
        | b1 :: b2 :: b3 :: r =>
            if in_range (if decide (b0 = 0xF0) then 0x90 else 0x80)
                 (if decide (b0 = 0xF4) then 0x8F else 0xBF) b1
               && in_range 0x80 0xBF b2 && in_range 0x80 0xBF b3
            then Some ((b0 - 0xF0) * 262144 + (b1 - 0x80) * 4096
                       + (b2 - 0x80) * 64 + (b3 - 0x80), r)
            else None
        | _ => None
        end
      else None
  end.

Fixpoint utf8_chars_fuel (fuel : nat) (s : bytes) : option (list Z) :=
  match s with
  | [] => Some []
  | _ :: _ =>
      match fuel with
      | O => None
      | S fuel =>
          '(c, r) ← utf8_decode1 s;
          cs ← utf8_chars_fuel fuel r;
          Some (c :: cs)
      end
  end.

(** The characters of a string, [None] when it is not valid UTF-8. *)
Definition utf8_chars (s : bytes) : option (list Z) :=
  utf8_chars_fuel (length s) s.

Definition utf8_valid (s : bytes) : bool :=
  match utf8_chars s with Some _ => true | None => false end.

(** [s.chars()] of a Rust string, which is valid. *)
Definition chars (s : bytes) : list Z := default [] (utf8_chars s).

(** A Rust string holding these characters. *)
Definition from_chars (cs : list Z) : bytes := cs ≫= utf8_encode.

(** ** Lemmas *)

Ltac in_range_prop :=
  unfold in_range in *; bool_to_prop.

Lemma char_from_u32_ok c : char_ok c → char_from_u32 c = Some c.
Proof.
  intros Hc. unfold char_from_u32. destruct (_ || _) eqn:E; [done|].
  unfold char_ok in Hc. bool_to_prop. lia.
Qed.

Lemma char_from_u32_Some c d : char_from_u32 c = Some d → d = c ∧ char_ok c.
Proof.
  unfold char_from_u32, char_ok. destruct (_ || _) eqn:E; [|done].
  intros [= <-]. split; [done|]. bool_to_prop. destruct E; bool_to_prop; lia.
Qed.

Lemma utf8_encode_ok c : char_ok c → bytes_ok (utf8_encode c).
Proof.
  unfold char_ok, utf8_encode, byte_ok. intros Hc.
  repeat case_decide; repeat constructor;
    zlia.
Qed.

(** The first byte tells the length of the sequence; no byte of a longer
    sequence is below 0x80. *)
Lemma utf8_encode_shape c :
  char_ok c →
  (c < 0x80 ∧ utf8_encode c = [c]) ∨
  (0x80 ≤ c ∧ Forall (λ b, 0x80 ≤ b < 256) (utf8_encode c) ∧ utf8_encode c ≠ []).
Proof.
  unfold char_ok, utf8_encode. intros Hc.
  case_decide; [left; auto|right].
  repeat case_decide; (split; [lia|split; [|done]]); repeat constructor;
    zlia.
Qed.

Lemma in_range_true lo hi b : lo ≤ b ≤ hi → in_range lo hi b = true.
Proof. intros. unfold in_range. apply andb_true_intro. rewrite !Z.leb_le. lia. Qed.

Lemma in_range_false lo hi b : b < lo ∨ hi < b → in_range lo hi b = false.
Proof. intros. unfold in_range. apply andb_false_iff. rewrite !Z.leb_gt. lia. Qed.

Lemma utf8_decode1_encode c r :
  char_ok c → utf8_decode1 (utf8_encode c ++ r) = Some (c, r).
Proof.
  unfold char_ok, utf8_encode. intros Hc.
  destruct (decide (c < 0x80)) as [H1|H1].
  { simpl. by rewrite in_range_true by lia. }
  destruct (decide (c < 0x800)) as [H2|H2].
  { cbn [app utf8_decode1]. Z.div_mod_to_equations.
    rewrite (in_range_false 0 127), !in_range_true by lia. do 2 f_equal. lia. }
  destruct (decide (c < 0x10000)) as [H3|H3].
  { cbn [app utf8_decode1]. Z.div_mod_to_equations.
    rewrite (in_range_false 0 127), (in_range_false 0xC2 0xDF) by lia.
    rewrite (in_range_true 0xE0 0xEF) by lia.
    rewrite in_range_true by (repeat case_decide; lia).
    rewrite in_range_true by lia. simpl. do 2 f_equal. lia. }
  cbn [app utf8_decode1]. Z.div_mod_to_equations.
  rewrite (in_range_false 0 127), (in_range_false 0xC2 0xDF) by lia.
  rewrite (in_range_false 0xE0 0xEF), (in_range_true 0xF0 0xF4) by lia.
  rewrite in_range_true by (repeat case_decide; lia).
  rewrite !in_range_true by lia. simpl. do 2 f_equal. lia.
Qed.

Lemma utf8_decode1_inv s c r :
  utf8_decode1 s = Some (c, r) → char_ok c ∧ s = utf8_encode c ++ r.
Proof.
  destruct s as [|b0 r0]; simpl; [done|].
  destruct (in_range 0 127 b0) eqn:E0.
  { intros [= -> ->]. in_range_prop. split; [unfold char_ok; lia|].
    unfold utf8_encode. by rewrite decide_True by lia. }
  destruct (in_range 0xC2 0xDF b0) eqn:E1.
  { destruct r0 as [|b1 r1]; [done|]. destruct (in_range 0x80 0xBF b1) eqn:E2; [|done].
    intros [= <- <-]. in_range_prop. split; [unfold char_ok; lia|].
    unfold utf8_encode. rewrite decide_False, decide_True by lia.
    simpl. repeat f_equal; zlia. }
  destruct (in_range 0xE0 0xEF b0) eqn:E2.
  { destruct r0 as [|b1 [|b2 r1]]; try done.
    destruct (_ && _) eqn:E3; [|done]. intros [= <- <-].
    apply andb_prop in E3 as [E3 E4].
    assert (0x80 ≤ b1 ≤ 0xBF ∧ (b0 = 0xE0 → 0xA0 ≤ b1) ∧ (b0 = 0xED → b1 ≤ 0x9F)).
    { in_range_prop. repeat case_decide; lia. }
    clear E3. in_range_prop. split; [unfold char_ok; lia|].
    unfold utf8_encode. rewrite !decide_False, decide_True by lia.
    simpl. repeat f_equal; zlia. }
  destruct (in_range 0xF0 0xF4 b0) eqn:E3; [|done].
  destruct r0 as [|b1 [|b2 [|b3 r1]]]; try done.
  destruct (_ && _ && _) eqn:E4; [|done]. intros [= <- <-].
  apply andb_prop in E4 as [E4 E6]. apply andb_prop in E4 as [E4 E5].
  assert (0x80 ≤ b1 ≤ 0xBF ∧ (b0 = 0xF0 → 0x90 ≤ b1) ∧ (b0 = 0xF4 → b1 ≤ 0x8F)).
  { in_range_prop. repeat case_decide; lia. }
  clear E4. in_range_prop. split; [unfold char_ok; lia|].
  unfold utf8_encode. rewrite !decide_False by lia.
  simpl. repeat f_equal; zlia.
Qed.

Lemma utf8_encode_length c : (1 ≤ length (utf8_encode c) ≤ 4)%nat.
Proof. unfold utf8_encode. repeat case_decide; simpl; lia. Qed.

Lemma utf8_chars_fuel_spec fuel s cs :
  (length s ≤ fuel)%nat →
  utf8_chars_fuel fuel s = Some cs ↔ Forall char_ok cs ∧ s = from_chars cs.
Proof.
  revert s cs. induction fuel as [|fuel IH]; intros s cs Hl.
  { destruct s; simpl in *; [|lia]. split.
    - intros [= <-]. done.
    - intros [_ H]. destruct cs as [|c cs]; [done|]. simpl in H.
      pose proof (utf8_encode_length c). destruct (utf8_encode c); simpl in *; [lia|done]. }
  destruct s as [|b s].
  { simpl. split.
    - intros [= <-]. done.
    - intros [_ H]. destruct cs as [|c cs]; [done|]. simpl in H.
      pose proof (utf8_encode_length c). destruct (utf8_encode c); simpl in *; [lia|done]. }
  set (t := b :: s) in *. assert (t ≠ []) as Hne by done.
  change (utf8_chars_fuel (S fuel) t) with
    ('(c, r) ← utf8_decode1 t; cs ← utf8_chars_fuel fuel r; Some (c :: cs)).
  clearbody t. split.
  - destruct (utf8_decode1 t) as [[c r]|] eqn:Hd; simpl; [|done].
    apply utf8_decode1_inv in Hd as [Hc ->].
    destruct (utf8_chars_fuel fuel r) as [cs'|] eqn:Hr; simpl; [|done].
    intros [= <-]. apply IH in Hr as [Hcs ->].
    + split; [by constructor|done].
    + rewrite length_app in Hl. pose proof (utf8_encode_length c). lia.
  - intros [Hcs ->]. destruct cs as [|c cs]; [done|].
    inversion Hcs as [|? ? Hc Hcs']; subst.
    change (from_chars (c :: cs)) with (utf8_encode c ++ from_chars cs) in *.
    rewrite utf8_decode1_encode by done. simpl.
    rewrite length_app in Hl. pose proof (utf8_encode_length c).
    by rewrite (proj2 (IH (from_chars cs) cs ltac:(lia))).
Qed.

Lemma utf8_chars_spec s cs :
  utf8_chars s = Some cs ↔ Forall char_ok cs ∧ s = from_chars cs.
Proof. by apply utf8_chars_fuel_spec. Qed.

Lemma utf8_valid_spec s :
  utf8_valid s = true ↔ ∃ cs, Forall char_ok cs ∧ s = from_chars cs.
Proof.
  unfold utf8_valid. destruct (utf8_chars s) as [cs|] eqn:E.
  - apply utf8_chars_spec in E. naive_solver.
  - split; [done|]. intros (cs & H). apply utf8_chars_spec in H. congruence.
Qed.

Lemma chars_from_chars cs : Forall char_ok cs → chars (from_chars cs) = cs.
Proof.
  intros H. unfold chars. by rewrite (proj2 (utf8_chars_spec _ cs) (conj H eq_refl)).
Qed.

Lemma utf8_valid_encode c : char_ok c → utf8_valid (utf8_encode c) = true.
Proof.
  intros Hc. apply utf8_valid_spec. exists [c]. split; [by constructor|].
  unfold from_chars. simpl. by rewrite app_nil_r.
Qed.

Lemma from_chars_app a b : from_chars (a ++ b) = from_chars a ++ from_chars b.
Proof. unfold from_chars. apply bind_app. Qed.

Lemma from_chars_ok cs : Forall char_ok cs → bytes_ok (from_chars cs).
Proof.
  induction 1 as [|c cs Hc Hcs IH]; [constructor|].
  change (from_chars (c :: cs)) with (utf8_encode c ++ from_chars cs).
  apply Forall_app. split; [by apply utf8_encode_ok|done].
Qed.
