(* ===== verification/Bits.v ===== *)
(** * Bits of machine integers

    Facts on shifts, masks and exclusive or over [Z] that the codecs share, and
    the number a list of fixed-width groups of bits writes. *)

From S2P Require Import Prelude.

Local Open Scope Z_scope.

(** The number whose groups of [w] bits are [vs], the first highest. *)
Definition val (w : Z) (vs : bytes) : Z := foldl (λ d v, d * 2 ^ w + v) 0 vs.

Lemma val_snoc w vs v : val w (vs ++ [v]) = val w vs * 2 ^ w + v.
Proof. unfold val. by rewrite foldl_app. Qed.

Lemma testbit_small a n i : 0 ≤ a < 2 ^ n → n ≤ i → Z.testbit a i = false.
Proof.
  intros Ha Hi. destruct (decide (0 ≤ n)); [|rewrite Z.pow_neg_r in Ha; lia].
  destruct (decide (a = 0)) as [->|]; [apply Z.testbit_0_l|].
  apply Z.bits_above_log2; [lia|]. assert (Z.log2 a < n) by (apply Z.log2_lt_pow2; lia). lia.
Qed.

Lemma land_shifted a b n : 0 ≤ b < 2 ^ n → 0 ≤ n → Z.land (a * 2 ^ n) b = 0.
Proof.
  intros Hb Hn. apply Z.bits_inj'. intros i Hi. rewrite Z.land_spec, Z.bits_0.
  destruct (decide (i < n)).
  - rewrite Z.mul_pow2_bits_low by lia. done.
  - rewrite (testbit_small b n) by lia. apply andb_false_r.
Qed.

Lemma lor_shifted a b n : 0 ≤ b < 2 ^ n → 0 ≤ n → Z.lor (a * 2 ^ n) b = a * 2 ^ n + b.
Proof.
  intros Hb Hn. pose proof (Z.add_lor_land (a * 2 ^ n) b) as H.
  rewrite land_shifted in H by done. lia.
Qed.

Lemma lxor_shifted a b n : 0 ≤ b < 2 ^ n → 0 ≤ n → Z.lxor (a * 2 ^ n) b = a * 2 ^ n + b.
Proof.
  intros Hb Hn. rewrite <-lor_shifted by done. apply Z.lxor_lor. by apply land_shifted.
Qed.

Lemma lxor_bound n a b :
  0 ≤ n → 0 ≤ a < 2 ^ n → 0 ≤ b < 2 ^ n → 0 ≤ Z.lxor a b < 2 ^ n.
Proof.
  intros Hn Ha Hb. assert (0 ≤ Z.lxor a b) as H0 by (apply Z.lxor_nonneg; lia). split; [done|].
  destruct (decide (Z.lxor a b = 0)) as [->|]; [lia|]. apply Z.log2_lt_pow2; [lia|].
  assert (n ≠ 0) by (intros ->; apply n0; assert (a = 0) as -> by lia; by assert (b = 0) as -> by lia).
  assert (∀ x, 0 ≤ x < 2 ^ n → Z.log2 x < n) as Hl.
  { intros x Hx. destruct (decide (x = 0)) as [->|]; [cbn; lia|]. apply Z.log2_lt_pow2; lia. }
  pose proof (Z.log2_lxor a b ltac:(lia) ltac:(lia)). pose proof (Hl a Ha). pose proof (Hl b Hb). lia.
Qed.

Lemma land_lxor_distr a b c : Z.land (Z.lxor a b) c = Z.lxor (Z.land a c) (Z.land b c).
Proof.
  apply Z.bits_inj'. intros i Hi. rewrite Z.land_spec, !Z.lxor_spec, !Z.land_spec.
  by destruct (Z.testbit a i), (Z.testbit b i), (Z.testbit c i).
Qed.

Lemma val_bound w vs :
  0 ≤ w → Forall (λ v, 0 ≤ v < 2 ^ w) vs → 0 ≤ val w vs < 2 ^ (w * len vs).
Proof.
  intros Hw Hvs. induction vs as [|v vs IH] using rev_ind; [cbn; rewrite Z.mul_0_r; cbn; lia|].
  apply Forall_app in Hvs as [Hvs [Hv _]%Forall_cons]. specialize (IH Hvs).
  rewrite val_snoc, length_app. cbn [length]. rewrite Nat2Z.inj_add.
  replace (w * (len vs + Z.of_nat 1)) with (w * len vs + w) by lia.
  rewrite Z.pow_add_r by lia. nia.
Qed.

Lemma val_inj w a b :
  0 ≤ w → Forall (λ v, 0 ≤ v < 2 ^ w) a → Forall (λ v, 0 ≤ v < 2 ^ w) b →
  length a = length b → val w a = val w b → a = b.
Proof.
  intros Hw. revert b. induction a as [|x a IH] using rev_ind; intros b Ha Hb Hl Hv.
  { by destruct b. }
  destruct b as [|y b _] using rev_ind; [rewrite length_app in Hl; cbn in Hl; lia|].
  apply Forall_app in Ha as [Ha [Hx _]%Forall_cons], Hb as [Hb [Hy _]%Forall_cons].
  rewrite !val_snoc in Hv. rewrite !length_app in Hl. cbn in Hl.
  assert (0 < 2 ^ w) by (apply Z.pow_pos_nonneg; lia).
  pose proof (f_equal (λ n, n / 2 ^ w) Hv) as E. cbn beta in E.
  rewrite !Z.div_add_l, !Z.div_small, !Z.add_0_r in E by lia.
  f_equal; [apply IH; try done; lia|]. f_equal. lia.
Qed.
