(* ===== verification/Json.v ===== *)
(** * JSON: crates/wok-event/src/json.rs and error.rs

    The event crate's errors, the [serde_json::Value] data it works on, the
    strict parser ([parse_strict], duplicate keys refused, nesting bounded) and
    the two serializers (tao escaping for stored JSON, NIP-01 escaping for the
    event id preimage).  The main result is the round trip: what either
    serializer writes of a float-free value, the parser reads back. *)

From Stdlib Require Import SpecFloat.
From S2P Require Import Prelude Utf8.

Local Open Scope Z_scope.

(** ** error.rs *)

Inductive EventLimit : Type :=
| EventSize | NumTags | TagValSize | TooOld | TooNew | EphemeralTooOld.

Inductive EventError : Type :=
| Message (m : text)
| Restricted (m : text)
| Limit (l : EventLimit) (m : text).

Definition EventError_msg (m : string) : EventError := Message (Text m []).
Definition EventError_fmt (m : string) (args : list text) : EventError :=
  Message (Text m args).
Definition EventError_limit (l : EventLimit) (m : string) (args : list text)
    : EventError := Limit l (Text m args).
Definition EventError_restricted (m : string) : EventError :=
  Restricted (Text m []).

Definition rejection_prefix (e : EventError) : string :=
  match e with Restricted _ => "restricted" | _ => "invalid" end.

Definition broken_limit (e : EventError) : option EventLimit :=
  match e with Limit l _ => Some l | Message _ | Restricted _ => None end.

(** ** serde_json values

    [Number] holds a [u64], a negative [i64] or a finite [f64].  An object is
    serde_json's sorted map: its entries in increasing key order. *)

Abbreviation f64 := spec_float.

Inductive Number : Type :=
| PosInt (n : Z)
| NegInt (n : Z)
| Float (f : f64).

Inductive Value : Type :=
| Null
| Bool (b : bool)
| Num (n : Number)
| Str (s : bytes)
| Array (a : list Value)
| Object (m : list (bytes * Value)).

Fixpoint map_get {V} (m : list (bytes * V)) (k : bytes) : option V :=
  match m with
  | [] => None
  | (k', v) :: m => if decide (k = k') then Some v else map_get m k
  end.

Definition map_contains_key {V} (m : list (bytes * V)) (k : bytes) : bool :=
  match map_get m k with Some _ => true | None => false end.

Fixpoint map_insert {V} (m : list (bytes * V)) (k : bytes) (v : V)
    : list (bytes * V) :=
  match m with
  | [] => [(k, v)]
  | (k', v') :: m' =>
      match bytes_cmp k k' with
      | Lt => (k, v) :: m
      | Eq => (k, v) :: m'
      | Gt => (k', v') :: map_insert m' k v
      end
  end.

Definition as_str (v : Value) : option bytes :=
  match v with Str s => Some s | _ => None end.
Definition as_array (v : Value) : option (list Value) :=
  match v with Array a => Some a | _ => None end.
Definition as_u64 (v : Value) : option Z :=
  match v with Num (PosInt n) => Some n | _ => None end.
Definition is_object (v : Value) : bool :=
  match v with Object _ => true | _ => false end.
Definition is_string (v : Value) : bool :=
  match v with Str _ => true | _ => false end.
Definition is_array (v : Value) : bool :=
  match v with Array _ => true | _ => false end.

(** [Value::get] by a string key. *)
Definition value_get (v : Value) (k : string) : option Value :=
  match v with Object m => map_get m (str k) | _ => None end.

(** ** The parser

    The cursor of [Parser]: [pos], and the unread input [bytes[pos..]]. *)
Record Parser : Type := mkParser { pos : nat; rest : bytes }.

Definition MAX_DEPTH : nat := 128.

Definition err {A} (p : Parser) (m : string) : result EventError A :=
  Err (EventError_fmt "{msg} at byte {}" [Text m []; TNum (Z.of_nat (pos p))]).

Definition err_arg {A} (p : Parser) (m : string) (arg : bytes)
    : result EventError A :=
  Err (EventError_fmt "{msg} at byte {}"
         [Text m [TBytes arg]; TNum (Z.of_nat (pos p))]).

Definition peek (p : Parser) : option Z := head (rest p).

Definition advance (n : nat) (p : Parser) : Parser :=
  mkParser (pos p + n) (drop n (rest p)).

Definition bump (p : Parser) : option Z * Parser :=
  match rest p with
  | [] => (None, p)
  | c :: r => (Some c, mkParser (S (pos p)) r)
  end.

Definition is_ws (c : Z) : bool :=
  bool_decide (c = 32) || bool_decide (c = 9) || bool_decide (c = 10)
  || bool_decide (c = 13).

Fixpoint count_while (f : Z → bool) (s : bytes) : nat :=
  match s with
  | c :: s => if f c then S (count_while f s) else O
  | [] => O
  end.

Definition skip_ws (p : Parser) : Parser := advance (count_while is_ws (rest p)) p.

Definition consume_digits (p : Parser) : Parser :=
  advance (count_while is_ascii_digit (rest p)) p.

Definition expect (p : Parser) (s : string) : result EventError Parser :=
  if starts_with (rest p) (str s) then Ok (advance (length (str s)) p)
  else err_arg p "expected {s}" (str s).

Definition utf8_len (first : Z) : nat :=
  if first <? 0x80 then 1 else if first <? 0xE0 then 2
  else if first <? 0xF0 then 3 else 4.

Definition hex_digit (c : Z) : option Z :=
  if (48 <=? c) && (c <=? 57) then Some (c - 48)
  else if (97 <=? c) && (c <=? 102) then Some (c - 97 + 10)
  else if (65 <=? c) && (c <=? 70) then Some (c - 65 + 10)
  else None.

Definition hex4_step (acc : Z * Parser) (_ : nat)
    : result EventError (Z * Parser) :=
  let '(v, p) := acc in
  let '(c, p) := bump p in
  match hex_digit (default 0 c) with
  | Some d => Ok (v * 16 + d, p)
  | None => err p "invalid hex digit in \u escape"
  end.

Definition parse_hex4 (p : Parser) : result EventError (Z * Parser) :=
  if decide (length (rest p) < 4)%nat then err p "truncated \u escape"
  else try_fold hex4_step (0, p) (seq 0 4).

(** The code point of a [\u] escape, whose [\u] has been read. *)
Definition parse_unicode_escape (p : Parser) : result EventError (Z * Parser) :=
  '(hi, p) ← parse_hex4 p;
  if (0xD800 <=? hi) && (hi <? 0xDC00) then
    let '(c1, p1) := bump p in
    if decide (c1 = Some (ch "\")) then
      let '(c2, p2) := bump p1 in
      if decide (c2 = Some (ch "u")) then
        '(lo, p) ← parse_hex4 p2;
        if (0xDC00 <=? lo) && (lo <? 0xE000)
        then Ok (0x10000 + Z.shiftl (hi - 0xD800) 10 + (lo - 0xDC00), p)
        else err p "unpaired surrogate"
      else err p2 "unpaired surrogate"
    else err p1 "unpaired surrogate"
  else if (0xDC00 <=? hi) && (hi <? 0xE000) then err p "unpaired surrogate"
  else Ok (hi, p).

(** The character an escape other than [\u] stands for. *)
Definition simple_escape (e : Z) : option Z :=
  if decide (e = 34) then Some 34
  else if decide (e = ch "\") then Some (ch "\")
  else if decide (e = ch "/") then Some (ch "/")
  else if decide (e = ch "b") then Some 8
  else if decide (e = ch "f") then Some 12
  else if decide (e = ch "n") then Some 10
  else if decide (e = ch "r") then Some 13
  else if decide (e = ch "t") then Some 9
  else None.

(** One iteration of the loop of [parse_string]. *)
Definition parse_string_step (st : Parser * bytes)
    : result EventError (Parser * bytes + bytes * Parser) :=
  let '(p, out) := st in
  match bump p with
  | (None, _) => err p "unterminated string"
  | (Some c, p1) =>
      if decide (c = 34) then Ok (inr (out, p1))
      else if decide (c = ch "\") then
        match bump p1 with
        | (None, _) => err p1 "unterminated escape"
        | (Some e, p2) =>
            match simple_escape e with
            | Some c => Ok (inl (p2, out ++ utf8_encode c))
            | None =>
                if decide (e = ch "u") then
                  '(cp, p3) ← parse_unicode_escape p2;
                  match char_from_u32 cp with
                  | Some c => Ok (inl (p3, out ++ utf8_encode c))
                  | None => err p3 "invalid codepoint"
                  end
                else err p2 "invalid escape"
            end
        end
      else if c <=? 0x1F then
        err p1 "unescaped control character in string"
      else
        let n := utf8_len c in
        if decide (1 < n)%nat then
          if decide (length (rest p) < n)%nat then err p1 "truncated UTF-8"
          else
            let s := take n (rest p) in
            if utf8_valid s then Ok (inl (advance n p, out ++ s))
            else err p1 "invalid UTF-8"
        else Ok (inl (p1, out ++ utf8_encode c))
  end.

Definition loop_fuel_error : EventError := EventError_msg "loop fuel".

Definition parse_string (p : Parser) : result EventError (bytes * Parser) :=
  let p := snd (bump p) in
  loop_m (λ st, length (rest (fst st))) parse_string_step loop_fuel_error (p, []).

(** [text.parse::<f64>()] of a JSON number: the nearest double to the decimal
    value, ties to even. *)
Definition parse_exp (s : bytes) : Z :=
  match s with
  | [] => 0
  | c :: s' =>
      if decide (c = ch "-") then - digits_value s'
      else if decide (c = ch "+") then digits_value s'
      else digits_value s
  end.

Definition parse_f64 (s : bytes) : f64 :=
  let '(neg, s) :=
    match strip_prefix (str "-") s with Some r => (true, r) | None => (false, s) end in
  let int := take (count_while is_ascii_digit s) s in
  let s := drop (length int) s in
  let '(frac, s) :=
    match strip_prefix (str ".") s with
    | Some r => (take (count_while is_ascii_digit r) r,
                 drop (count_while is_ascii_digit r) r)
    | None => ([], s)
    end in
  let e := parse_exp (drop 1 s) - len frac in
  let m := digits_value (int ++ frac) in
  match m with
  | Zpos mp =>
      if 0 <=? e
      then binary_normalize 53 1024 ((if neg then -1 else 1) * m * 10 ^ e) 0 neg
      else SFdiv 53 1024 (S754_finite neg mp 0) (S754_finite false (10 ^ Z.to_pos (- e)) 0)
  | _ => S754_zero neg
  end.

(** [Number::from_f64] *)
Definition number_from_f64 (f : f64) : option Number :=
  match f with
  | S754_zero _ | S754_finite _ _ _ => Some (Float f)
  | S754_infinity _ | S754_nan => None
  end.

(** [text.parse::<u64>()] and [text.parse::<i64>()] of a JSON integer. *)
Definition parse_u64 (s : bytes) : option Z :=
  match strip_prefix (str "-") s with
  | Some _ => None
  | None => parse_u64_digits s
  end.
Definition parse_i64 (s : bytes) : option Z :=
  match strip_prefix (str "-") s with
  | Some d =>
      if all_digits d && (I64_MIN <=? - digits_value d) then Some (- digits_value d) else None
  | None =>
      if all_digits s && (digits_value s <? 2 ^ 63) then Some (digits_value s) else None
  end.
Definition number_from_i64 (n : Z) : Number :=
  if decide (n < 0) then NegInt n else PosInt n.

Definition is_digit_opt (c : option Z) : bool :=
  match c with Some c => is_ascii_digit c | None => false end.

(** The fraction and the exponent of [parse_number]. *)
Definition parse_frac (p : Parser) : result EventError (bool * Parser) :=
  if decide (peek p = Some (ch ".")) then
    let p := advance 1 p in
    if is_digit_opt (peek p) then Ok (true, consume_digits p)
    else err p "invalid number"
  else Ok (false, p).

Definition parse_exponent (p : Parser) : result EventError (bool * Parser) :=
  if decide (peek p = Some (ch "e") ∨ peek p = Some (ch "E")) then
    let p := advance 1 p in
    let p :=
      if decide (peek p = Some (ch "+") ∨ peek p = Some (ch "-"))
      then advance 1 p else p in
    if is_digit_opt (peek p) then Ok (true, consume_digits p)
    else err p "invalid number"
  else Ok (false, p).

Definition parse_number (p : Parser) : result EventError (Value * Parser) :=
  let start := p in
  let p := if decide (peek p = Some (ch "-")) then advance 1 p else p in
  p ← (match peek p with
       | Some c =>
           if decide (c = ch "0") then Ok (advance 1 p)
           else if (49 <=? c) && (c <=? 57) then Ok (consume_digits p)
           else err p "invalid number"
       | None => err p "invalid number"
       end);
  '(fl1, p) ← parse_frac p;
  '(fl2, p) ← parse_exponent p;
  let txt := take (pos p - pos start) (rest start) in
  let as_float := ok_or (number_from_f64 (parse_f64 txt))
                    (EventError_fmt "{msg} at byte {}"
                       [Text "number out of range" []; TNum (Z.of_nat (pos p))]) in
  n ← (if (fl1 || fl2 : bool) then as_float
       else match parse_u64 txt with
            | Some u => Ok (PosInt u)
            | None =>
                match parse_i64 txt with
                | Some i => Ok (number_from_i64 i)
                | None => as_float
                end
            end);
  Ok (Num n, p).

(** One iteration of the loops of [parse_array] and [parse_object], given the
    parser of the nested values. *)
Definition parse_array_step
    (parse_value : Parser → result EventError (Value * Parser))
    (st : Parser * list Value)
    : result EventError (Parser * list Value + Value * Parser) :=
  let '(p, arr) := st in
  '(v, p) ← parse_value (skip_ws p);
  let arr := arr ++ [v] in
  let '(c, p) := bump (skip_ws p) in
  if decide (c = Some (ch ",")) then Ok (inl (p, arr))
  else if decide (c = Some (ch "]")) then Ok (inr (Array arr, p))
  else err p "expected ',' or ']'".

Definition parse_array
    (parse_value : Parser → result EventError (Value * Parser))
    (p : Parser) : result EventError (Value * Parser) :=
  let p := skip_ws (snd (bump p)) in
  if decide (peek p = Some (ch "]")) then Ok (Array [], snd (bump p))
  else loop_m (λ st, length (rest (fst st))) (parse_array_step parse_value)
         loop_fuel_error (p, []).

Definition parse_object_step
    (parse_value : Parser → result EventError (Value * Parser))
    (st : Parser * list (bytes * Value))
    : result EventError (Parser * list (bytes * Value) + Value * Parser) :=
  let '(p, map) := st in
  let p := skip_ws p in
  if decide (peek p ≠ Some 34) then err p "expected object key string"
  else
    '(key, p) ← parse_string p;
    if map_contains_key map key
    then err_arg p "duplicate JSON object key {key:?}" key
    else
      let '(c, p) := bump (skip_ws p) in
      if decide (c ≠ Some (ch ":")) then err p "expected ':'"
      else
        '(value, p) ← parse_value (skip_ws p);
        let map := map_insert map key value in
        let '(c, p) := bump (skip_ws p) in
        if decide (c = Some (ch ",")) then Ok (inl (p, map))
        else if decide (c = Some (ch "}")) then Ok (inr (Object map, p))
        else err p "expected ',' or '}'".

Definition parse_object
    (parse_value : Parser → result EventError (Value * Parser))
    (p : Parser) : result EventError (Value * Parser) :=
  let p := skip_ws (snd (bump p)) in
  if decide (peek p = Some (ch "}")) then Ok (Object [], snd (bump p))
  else loop_m (λ st, length (rest (fst st))) (parse_object_step parse_value)
         loop_fuel_error (p, []).

(** [parse_value] at nesting [depth], by recursion on the levels left,
    [levels = MAX_DEPTH + 1 - depth]: none are left once [depth > MAX_DEPTH]. *)
Fixpoint parse_value (levels : nat) (p : Parser)
    : result EventError (Value * Parser) :=
  match levels with
  | O => err p "nesting too deep"
  | S levels =>
      match peek p with
      | Some c =>
          if decide (c = ch "{") then parse_object (parse_value levels) p
          else if decide (c = ch "[") then parse_array (parse_value levels) p
          else if decide (c = 34) then
            '(s, p) ← parse_string p; Ok (Str s, p)
          else if decide (c = ch "t") then
            p ← expect p "true"; Ok (Bool true, p)
          else if decide (c = ch "f") then
            p ← expect p "false"; Ok (Bool false, p)
          else if decide (c = ch "n") then
            p ← expect p "null"; Ok (Null, p)
          else if bool_decide (c = ch "-") || is_ascii_digit c then parse_number p
          else err p "unexpected character"
      | None => err p "unexpected end of input"
      end
  end.

Definition parse_strict (txt : bytes) : result EventError Value :=
  '(v, p) ← parse_value (S MAX_DEPTH) (skip_ws (mkParser 0 txt));
  let p := skip_ws p in
  if decide (rest p ≠ []) then err p "unexpected trailing characters"
  else Ok v.

(** ** The serializers *)

Inductive Escaping : Type := Tao | Nip01.

#[export] Instance Escaping_eq_dec : EqDecision Escaping.
Proof. solve_decision. Defined.

Definition HEX : bytes := str "0123456789abcdef".

Definition hex_char (n : Z) : Z := default 0 (HEX !! Z.to_nat n).

(** What [write_string] appends for one character. *)
Definition write_char (escaping : Escaping) (c : Z) : bytes :=
  if decide (c = 34) then [ch "\"; 34]
  else if decide (c = ch "\") then str "\\"
  else if decide (c = 8) then str "\b"
  else if decide (c = 12) then str "\f"
  else if decide (c = 10) then str "\n"
  else if decide (c = 13) then str "\r"
  else if decide (c = 9) then str "\t"
  else if (c <? 0x20) || (bool_decide (c = 0x7F) && bool_decide (escaping = Tao))
  then str "\u00" ++ [hex_char (Z.shiftr (Z.land c 0xf0) 4); hex_char (Z.land c 0x0f)]
  else utf8_encode c.

Definition write_string (escaping : Escaping) (s : bytes) : bytes :=
  34 :: (chars s ≫= write_char escaping) ++ [34].

(** Separate the items with commas. *)
Fixpoint join_commas (items : list bytes) : bytes :=
  match items with
  | [] => []
  | [x] => x
  | x :: items => x ++ ch "," :: join_commas items
  end.

(** serde_json's decimal rendering of a finite double (the ryu crate), which
    this code re-arranges. *)
Class SerdeFloat : Type := { serde_f64_to_string : f64 → bytes }.

Definition parse_i32_or_zero (s : bytes) : Z :=
  let digits := match s with
                | c :: r => if decide (c = ch "-" ∨ c = ch "+") then r else s
                | [] => []
                end in
  if decide (digits = []) then 0
  else if negb (forallb is_ascii_digit digits) then 0
  else if decide (- 2 ^ 31 ≤ parse_exp s < 2 ^ 31) then parse_exp s else 0.

Fixpoint trim_zeros_rev (d : bytes) : bytes :=
  match d with
  | [] => []
  | c :: t => if decide (c = 48 ∧ t ≠ []) then trim_zeros_rev t else d
  end.

(** [n.to_string()] of an integer. *)
Definition int_to_string (n : Z) : bytes :=
  if decide (n < 0) then ch "-" :: u64_to_string (- n) else u64_to_string n.

Section writer.
Context {SF : SerdeFloat}.

(** Significant digits and decimal exponent of serde_json's rendering. *)
Definition f64_digits (s : bytes) : bytes * Z :=
  let is_e := λ c : Z, bool_decide (c = ch "e") || bool_decide (c = ch "E") in
  let epos := count_while (λ c, negb (is_e c)) s in
  if decide (epos < length s)%nat then
    (filter (λ c, c ≠ ch ".") (take epos s), parse_i32_or_zero (drop (S epos) s))
  else match split_once (ch ".") s with
  | Some (int_part, frac_part) =>
      if decide (int_part = str "0") then
        let zeros := count_while (λ b, bool_decide (b = ch "0")) frac_part in
        (drop zeros frac_part, - Z.of_nat zeros - 1)
      else (int_part ++ frac_part, len int_part - 1)
  | None => (s, len s - 1)
  end.

Definition format_tao_f64 (f : f64) : bytes :=
  match f with
  | S754_zero neg => if neg then str "-0.0" else str "0.0"
  | _ =>
      let s := match number_from_f64 f with
               | Some _ => serde_f64_to_string f
               | None => []
               end in
      let '(neg, s) :=
        match strip_prefix (str "-") s with Some r => (true, r) | None => (false, s) end in
      let '(digits, exp10) := f64_digits s in
      let digits := reverse (trim_zeros_rev (reverse digits)) in
      let exp := exp10 + 1 in
      let l := len digits in
      (if (neg : bool) then str "-" else []) ++
      (if (-6 <? exp) && (exp <? 22) then
         if exp <=? 0 then
           str "0." ++ replicate (Z.to_nat (- exp)) (ch "0") ++ digits
         else if l <=? exp then
           digits ++ replicate (Z.to_nat (exp - l)) (ch "0") ++ str ".0"
         else take (Z.to_nat exp) digits ++ str "." ++ drop (Z.to_nat exp) digits
       else
         take 1 digits ++ (if 1 <? l then str "." ++ drop 1 digits else []) ++
         str "e" ++
         int_to_string exp10)
  end.

Definition write_number (n : Number) : bytes :=
  match n with
  | PosInt n | NegInt n => int_to_string n
  | Float f => format_tao_f64 f
  end.

Fixpoint write_json (escaping : Escaping) (v : Value) : bytes :=
  match v with
  | Null => str "null"
  | Bool b => if b then str "true" else str "false"
  | Num n => write_number n
  | Str s => write_string escaping s
  | Array arr => ch "[" :: join_commas (write_json escaping <$> arr) ++ str "]"
  | Object map =>
      let values := (λ kv, (kv.1, write_json escaping kv.2)) <$> map in
      let keys := slice_sort bytes_cmp (map.*1) in
      ch "{" ::
      join_commas
        ((λ k, write_string escaping k ++ ch ":" :: default [] (map_get values k)) <$> keys)
      ++ str "}"
  end.

Definition write_tao (v : Value) : bytes := write_json Tao v.
Definition to_tao_string (v : Value) : bytes := write_tao v.
Definition write_nip01 (v : Value) : bytes := write_json Nip01 v.
End writer.

(** ** Parsing terminates: every construct that succeeds consumes input *)

Definition unread (p : Parser) : nat := length (rest p).

Lemma unread_advance n p : unread (advance n p) = (unread p - n)%nat.
Proof. unfold unread, advance. simpl. by rewrite length_drop. Qed.

Lemma unread_bump p : (unread (bump p).2 ≤ unread p)%nat.
Proof. unfold unread, bump. destruct (rest p) eqn:E; simpl; rewrite ?E; simpl; lia. Qed.

Lemma unread_bump_Some p c p' : bump p = (Some c, p') → S (unread p') = unread p.
Proof. unfold unread, bump. destruct (rest p); simpl; intros; by simplify_eq/=. Qed.

Lemma unread_skip_ws p : (unread (skip_ws p) ≤ unread p)%nat.
Proof. unfold skip_ws. rewrite unread_advance. lia. Qed.

Lemma unread_consume_digits p : (unread (consume_digits p) ≤ unread p)%nat.
Proof. unfold consume_digits. rewrite unread_advance. lia. Qed.

Lemma unread_peek_Some p c : peek p = Some c → (0 < unread p)%nat.
Proof. unfold peek, unread. destruct (rest p); simpl; [done|lia]. Qed.

Lemma parse_hex4_shrinks p v p' :
  parse_hex4 p = Ok (v, p') → (unread p' ≤ unread p)%nat.
Proof.
  unfold parse_hex4. case_decide; [done|].
  apply (try_fold_inv _ (λ a, (unread a.2 ≤ unread p)%nat)); [|done].
  intros [w q] x [w' q'] Hq. simpl in *. pose proof (unread_bump q) as Hb.
  destruct (bump q) as [c q1]. destruct (hex_digit _); [|done].
  intros [= <- <-]. simpl in *. lia.
Qed.

Lemma parse_unicode_escape_shrinks p v p' :
  parse_unicode_escape p = Ok (v, p') → (unread p' ≤ unread p)%nat.
Proof.
  unfold parse_unicode_escape. intros H. inv_bind H. destruct v0 as [hi q].
  apply parse_hex4_shrinks in Hv.
  destruct (_ && _).
  - pose proof (unread_bump q) as H1. destruct (bump q) as [c1 q1].
    case_decide; [|done].
    pose proof (unread_bump q1) as H2. destruct (bump q1) as [c2 q2].
    case_decide; [|done]. inv_bind H. destruct v0 as [lo q3].
    apply parse_hex4_shrinks in Hv0. destruct (_ && _); [|done].
    simplify_eq/=. lia.
  - destruct (_ && _); simplify_eq/=; lia.
Qed.

Lemma parse_string_step_decreases st st' :
  parse_string_step st = Ok (inl st') → (unread st'.1 < unread st.1)%nat.
Proof.
  destruct st as [p out]. unfold parse_string_step. simpl.
  destruct (bump p) as [[c|] p1] eqn:Hb; [|done].
  apply unread_bump_Some in Hb. case_decide; [done|]. case_decide.
  - destruct (bump p1) as [[e|] p2] eqn:Hb2; [|done].
    apply unread_bump_Some in Hb2. destruct (simple_escape e).
    + intros [= <-]. simpl. lia.
    + case_decide; [|done]. intros Hd. inv_bind Hd. destruct v as [cp p3].
      apply parse_unicode_escape_shrinks in Hv. destruct (char_from_u32 cp); [|done].
      simplify_eq/=. lia.
  - destruct (c <=? 31); [done|]. case_decide.
    + case_decide; [done|]. destruct (utf8_valid _); [|done].
      intros [= <-]. simpl. rewrite unread_advance. lia.
    + intros [= <-]. simpl. lia.
Qed.

Lemma parse_string_step_exit st s p' :
  parse_string_step st = Ok (inr (s, p')) → (unread p' < unread st.1)%nat.
Proof.
  destruct st as [p out]. unfold parse_string_step. simpl.
  destruct (bump p) as [[c|] p1] eqn:Hb; [|done].
  apply unread_bump_Some in Hb. case_decide; [intros [= <- <-]; lia|].
  case_decide.
  - destruct (bump p1) as [[e|] p2]; [|done]. destruct (simple_escape e); [done|].
    case_decide; [|done]. intros Hd. inv_bind Hd. destruct v as [cp p3].
    by destruct (char_from_u32 cp).
  - destruct (c <=? 31); [done|]. case_decide; [|done]. case_decide; [done|].
    by destruct (utf8_valid _).
Qed.

Lemma parse_string_loop_unfold st :
  loop_m (λ st, length (rest (fst st))) parse_string_step loop_fuel_error st =
    (r ← parse_string_step st;
     match r with
     | inl st' =>
         loop_m (λ st, length (rest (fst st))) parse_string_step loop_fuel_error st'
     | inr a => Ok a
     end).
Proof.
  apply (loop_m_unfold _ _ (λ _, True)); [|done].
  intros s s' _ H. split; [done|]. by apply parse_string_step_decreases.
Qed.

Lemma parse_string_shrinks p s p' :
  parse_string p = Ok (s, p') → (unread p' < unread p)%nat.
Proof.
  unfold parse_string. pose proof (unread_bump p) as Hb. intros H.
  assert (unread p' < unread (bump p).2)%nat; [|lia].
  apply (loop_m_rule _ _ (λ st, (unread st.1 ≤ unread (bump p).2)%nat)
           (λ r, (unread r.2 < unread (bump p).2)%nat)) in H; [done|..|simpl; lia].
  - intros st st' Hst Hs. apply parse_string_step_decreases in Hs. lia.
  - intros st [s0 p0] Hst Hs. apply parse_string_step_exit in Hs. simpl. lia.
Qed.

Lemma parse_frac_shrinks p b p' :
  parse_frac p = Ok (b, p') → (unread p' ≤ unread p)%nat.
Proof.
  unfold parse_frac. case_decide; [|by intros [= <- <-]].
  destruct (is_digit_opt _); [|done]. intros [= <- <-].
  pose proof (unread_consume_digits (advance 1 p)).
  pose proof (unread_advance 1 p). lia.
Qed.

Lemma parse_exponent_shrinks p b p' :
  parse_exponent p = Ok (b, p') → (unread p' ≤ unread p)%nat.
Proof.
  unfold parse_exponent. case_decide; [|by intros [= <- <-]].
  destruct (is_digit_opt _); [|done]. intros [= <- <-].
  pose proof (unread_consume_digits
    (if decide (peek (advance 1 p) = Some (ch "+") ∨ peek (advance 1 p) = Some (ch "-"))
     then advance 1 (advance 1 p) else advance 1 p)) as H1.
  pose proof (unread_advance 1 p). pose proof (unread_advance 1 (advance 1 p)).
  case_decide; lia.
Qed.

Lemma parse_number_shrinks p v p' :
  parse_number p = Ok (v, p') → (unread p' < unread p)%nat.
Proof.
  unfold parse_number. set (q := if decide _ then _ else p). intros H.
  assert (unread q ≤ unread p)%nat as Hq.
  { subst q. case_decide; [|done]. rewrite unread_advance. lia. }
  inv_bind H. assert (unread v0 < unread q)%nat.
  { destruct (peek q) as [c|] eqn:Hc; [|done]. pose proof (unread_peek_Some _ _ Hc).
    case_decide; [simplify_eq; rewrite unread_advance; lia|].
    destruct (_ && _) eqn:Hd; [|done]. simplify_eq.
    unfold consume_digits. rewrite unread_advance.
    unfold peek, unread in *. destruct (rest q) as [|c' r]; [done|].
    simplify_eq/=. assert (is_ascii_digit c = true) as ->.
    { unfold is_ascii_digit. bool_to_prop. apply andb_true_intro. rewrite !Z.leb_le. lia. }
    simpl. lia. }
  inv_bind H. destruct v1 as [f1 q1]. apply parse_frac_shrinks in Hv0.
  inv_bind H. destruct v1 as [f2 q2]. apply parse_exponent_shrinks in Hv1.
  inv_bind H. simplify_eq. lia.
Qed.

Lemma expect_shrinks p s p' :
  (0 < length (str s))%nat → (0 < unread p)%nat →
  expect p s = Ok p' → (unread p' < unread p)%nat.
Proof.
  intros Hs Hp. unfold expect. destruct (starts_with _ _); [|done].
  intros [= <-]. rewrite unread_advance. lia.
Qed.

(** What the loops of [parse_array] and [parse_object] need of the parser of
    nested values: it consumes input. *)
Definition consumes (pv : Parser → result EventError (Value * Parser)) : Prop :=
  ∀ p v p', pv p = Ok (v, p') → (unread p' < unread p)%nat.

Section nested.
Context (pv : Parser → result EventError (Value * Parser)) (Hpv : consumes pv).

Lemma parse_array_step_decreases st r :
  parse_array_step pv st = Ok r →
  match r with
  | inl st' => (unread st'.1 < unread st.1)%nat
  | inr (v, p') => (unread p' < unread st.1)%nat
  end.
Proof using Hpv.
  destruct st as [p arr]. unfold parse_array_step. intros H. inv_bind H.
  destruct v as [v p1]. apply Hpv in Hv. pose proof (unread_skip_ws p).
  pose proof (unread_skip_ws p1). pose proof (unread_bump (skip_ws p1)).
  destruct (bump (skip_ws p1)) as [c p2]. simpl in *.
  case_decide; [simplify_eq/=; lia|]. case_decide; simplify_eq/=. lia.
Qed.

Lemma parse_array_loop_unfold st :
  loop_m (λ st, length (rest (fst st))) (parse_array_step pv) loop_fuel_error st =
    (r ← parse_array_step pv st;
     match r with
     | inl st' =>
         loop_m (λ st, length (rest (fst st))) (parse_array_step pv) loop_fuel_error st'
     | inr a => Ok a
     end).
Proof using Hpv.
  apply (loop_m_unfold _ _ (λ _, True)); [|done].
  intros s s' _ H. split; [done|]. by apply parse_array_step_decreases in H.
Qed.

Lemma parse_array_shrinks p v p' :
  peek p = Some (ch "[") → parse_array pv p = Ok (v, p') → (unread p' < unread p)%nat.
Proof using Hpv.
  intros Hpk. unfold parse_array. cbv zeta.
  set (q := skip_ws (bump p).2). intros H.
  assert (unread q < unread p)%nat as Hq.
  { pose proof (unread_skip_ws (bump p).2) as H1. unfold q, peek, bump in *.
    destruct (rest p) eqn:Hr; simplify_eq/=. unfold unread in *. rewrite Hr.
    simpl in *. lia. }
  destruct (decide (peek q = _)).
  { simplify_eq. pose proof (unread_bump q). lia. }
  assert (unread p' < unread p)%nat; [|done].
  apply (loop_m_rule _ _ (λ st, (unread st.1 < unread p)%nat)
           (λ r, (unread r.2 < unread p)%nat)) in H; [done|..|done].
  - intros st st' Hst Hs. apply parse_array_step_decreases in Hs. lia.
  - intros st [v0 p0] Hst Hs. apply parse_array_step_decreases in Hs. simpl. lia.
Qed.

Lemma parse_object_step_decreases st r :
  parse_object_step pv st = Ok r →
  match r with
  | inl st' => (unread st'.1 < unread st.1)%nat
  | inr (v, p') => (unread p' < unread st.1)%nat
  end.
Proof using Hpv.
  destruct st as [p m]. unfold parse_object_step. cbv zeta. intros H.
  pose proof (unread_skip_ws p). case_decide; [done|]. inv_bind H.
  destruct v as [key p1]. apply parse_string_shrinks in Hv.
  destruct (map_contains_key m key); [done|].
  pose proof (unread_skip_ws p1). pose proof (unread_bump (skip_ws p1)).
  destruct (bump (skip_ws p1)) as [c p2]. simpl in *.
  case_decide; [done|]. inv_bind H. destruct v as [w p3]. apply Hpv in Hv0.
  pose proof (unread_skip_ws p2). pose proof (unread_skip_ws p3).
  pose proof (unread_bump (skip_ws p3)).
  destruct (bump (skip_ws p3)) as [c' p4]. simpl in *.
  case_decide; [simplify_eq/=; lia|]. case_decide; simplify_eq/=. lia.
Qed.

Lemma parse_object_loop_unfold st :
  loop_m (λ st, length (rest (fst st))) (parse_object_step pv) loop_fuel_error st =
    (r ← parse_object_step pv st;
     match r with
     | inl st' =>
         loop_m (λ st, length (rest (fst st))) (parse_object_step pv) loop_fuel_error st'
     | inr a => Ok a
     end).
Proof using Hpv.
  apply (loop_m_unfold _ _ (λ _, True)); [|done].
  intros s s' _ H. split; [done|]. by apply parse_object_step_decreases in H.
Qed.

Lemma parse_object_shrinks p v p' :
  peek p = Some (ch "{") → parse_object pv p = Ok (v, p') → (unread p' < unread p)%nat.
Proof using Hpv.
  intros Hpk. unfold parse_object. cbv zeta.
  set (q := skip_ws (bump p).2). intros H.
  assert (unread q < unread p)%nat as Hq.
  { pose proof (unread_skip_ws (bump p).2) as H1. unfold q, peek, bump in *.
    destruct (rest p) eqn:Hr; simplify_eq/=. unfold unread in *. rewrite Hr.
    simpl in *. lia. }
  destruct (decide (peek q = _)).
  { simplify_eq. pose proof (unread_bump q). lia. }
  assert (unread p' < unread p)%nat; [|done].
  apply (loop_m_rule _ _ (λ st, (unread st.1 < unread p)%nat)
           (λ r, (unread r.2 < unread p)%nat)) in H; [done|..|done].
  - intros st st' Hst Hs. apply parse_object_step_decreases in Hs. lia.
  - intros st [v0 p0] Hst Hs. apply parse_object_step_decreases in Hs. simpl. lia.
Qed.
End nested.

Lemma parse_value_consumes levels : consumes (parse_value levels).
Proof.
  induction levels as [|levels IH]; intros p v p'; simpl; [done|].
  destruct (peek p) as [c|] eqn:Hc; [|done]. pose proof (unread_peek_Some _ _ Hc).
  case_decide; [subst; by apply parse_object_shrinks|].
  case_decide; [subst; by apply parse_array_shrinks|].
  case_decide; [intros H3; inv_bind H3; destruct v0; simplify_eq;
                by apply parse_string_shrinks in Hv|].
  repeat (case_decide; [intros H'; inv_bind H'; simplify_eq;
    apply expect_shrinks in Hv; [done|by vm_compute; lia|done]|]).
  destruct (_ || _); [|done]. apply parse_number_shrinks.
Qed.

(** ** Well-formed values *)

Lemma Value_nested_ind (P : Value → Prop) :
  P Null → (∀ b, P (Bool b)) → (∀ n, P (Num n)) → (∀ s, P (Str s)) →
  (∀ a, Forall P a → P (Array a)) →
  (∀ m, Forall (λ kv, P kv.2) m → P (Object m)) →
  ∀ v, P v.
Proof.
  intros H1 H2 H3 H4 H5 H6. fix IH 1. intros [|b|n|s|a|m].
  - exact H1.
  - apply H2.
  - apply H3.
  - apply H4.
  - apply H5. induction a as [|v a IHa]; constructor; [apply IH|exact IHa].
  - apply H6. induction m as [|[k v] m IHm]; constructor; [apply IH|exact IHm].
Qed.

Fixpoint keys_sorted (ks : list bytes) : bool :=
  match ks with
  | k1 :: ((k2 :: _) as t) => bool_decide (bytes_cmp k1 k2 = Lt) && keys_sorted t
  | _ => true
  end.

(** The values Rust code can hold: integers in range, finite floats (none unless
    [floats]), valid strings, object entries in increasing key order. *)
Fixpoint value_wf (floats : bool) (v : Value) : bool :=
  match v with
  | Null | Bool _ => true
  | Num (PosInt n) => (0 <=? n) && (n <=? U64_MAX)
  | Num (NegInt n) => (I64_MIN <=? n) && (n <? 0)
  | Num (Float f) => floats && (match number_from_f64 f with Some _ => true | None => false end)
  | Str s => utf8_valid s
  | Array a => forallb (value_wf floats) a
  | Object m =>
      keys_sorted (m.*1) && forallb utf8_valid (m.*1)
      && forallb (λ kv, value_wf floats kv.2) m
  end.

(** How many levels of nesting a value has below its own. *)
Fixpoint value_depth (v : Value) : nat :=
  match v with
  | Array a => max_list (S ∘ value_depth <$> a)
  | Object m => max_list ((λ kv, S (value_depth kv.2)) <$> m)
  | _ => O
  end.

(** ** The round trip: reading what the serializers write *)

Lemma keys_sorted_strongly ks :
  keys_sorted ks = true → StronglySorted (cmp_lt bytes_cmp) ks.
Proof.
  intros H. apply Sorted_StronglySorted; [apply _|].
  induction ks as [|k1 [|k2 ks] IH]; [constructor|repeat constructor|].
  simpl in H. apply andb_prop in H as [H1 H2]. bool_to_prop.
  constructor; [by apply IH|]. by constructor.
Qed.

Lemma count_while_app f a r :
  Forall (λ c, f c = true) a →
  match head r with Some c => f c = false | None => True end →
  count_while f (a ++ r) = length a.
Proof.
  induction 1 as [|c a Hc Ha IH]; simpl; intros Hr.
  - destruct r as [|c r]; simpl in *; [done|]. by rewrite Hr.
  - by rewrite Hc, IH.
Qed.

(** The text after a value: nothing a number could go on with. *)
Definition value_end (r : bytes) : Prop :=
  match head r with
  | Some c => is_ascii_digit c = false ∧ c ≠ ch "." ∧ c ≠ ch "e" ∧ c ≠ ch "E"
  | None => True
  end.

Definition not_ws_head (r : bytes) : Prop :=
  match head r with Some c => is_ws c = false | None => True end.

Lemma skip_ws_id n r : not_ws_head r → skip_ws (mkParser n r) = mkParser n r.
Proof.
  unfold skip_ws, not_ws_head, advance. simpl. intros H.
  assert (count_while is_ws r = O) as ->.
  { destruct r as [|c r]; simpl in *; [done|by rewrite H]. }
  by rewrite Nat.add_0_r, drop_0.
Qed.

Lemma hex_digit_hex_char k : 0 ≤ k < 16 → hex_digit (hex_char k) = Some k.
Proof.
  intros Hk.
  pose proof (forall_range (λ k, bool_decide (hex_digit (hex_char k) = Some k)) 16
    ltac:(by vm_compute) k Hk) as H. cbv beta in H. by bool_to_prop.
Qed.

Lemma nibbles c :
  0 ≤ c < 128 → Z.shiftr (Z.land c 0xf0) 4 = c / 16 ∧ Z.land c 0x0f = c mod 16.
Proof.
  intros Hc.
  pose proof (forall_range (λ c, bool_decide
    (Z.shiftr (Z.land c 0xf0) 4 = c / 16 ∧ Z.land c 0x0f = c mod 16)) 128
    ltac:(by vm_compute) c Hc) as H. cbv beta in H. by bool_to_prop.
Qed.

Lemma parse_hex4_spec n a b c d r x y z w :
  hex_digit a = Some x → hex_digit b = Some y → hex_digit c = Some z →
  hex_digit d = Some w →
  ∃ n', parse_hex4 (mkParser n (a :: b :: c :: d :: r)) =
    Ok (((x * 16 + y) * 16 + z) * 16 + w, mkParser n' r).
Proof.
  intros Ha Hb Hc Hd. unfold parse_hex4. case_decide as Hl; [simpl in Hl; lia|].
  simpl. rewrite Ha. simpl. rewrite Hb. simpl. rewrite Hc. simpl. rewrite Hd. simpl. eauto.
Qed.

(** A [\u00xy] escape of an ASCII character. *)
Lemma parse_string_step_control n c r out :
  0 ≤ c < 128 →
  ∃ n', parse_string_step (mkParser n (str "\u00" ++
      [hex_char (Z.shiftr (Z.land c 0xf0) 4); hex_char (Z.land c 0x0f)] ++ r), out) =
    Ok (inl (mkParser n' r, out ++ utf8_encode c)).
Proof.
  intros Hc. destruct (nibbles c Hc) as [-> ->].
  assert (0 ≤ c / 16 < 16 ∧ 0 ≤ c mod 16 < 16 ∧ c = c / 16 * 16 + c mod 16) as (H1 & H2 & H3)
    by zlia.
  destruct (parse_hex4_spec (S (S n)) 48 48 (hex_char (c / 16)) (hex_char (c mod 16)) r
              0 0 (c / 16) (c mod 16)) as [n' Hn']; auto using hex_digit_hex_char.
  exists n'. change (str "\u00") with [92; 117; 48; 48]. cbn [app].
  unfold parse_string_step, bump. cbn [rest pos].
  rewrite decide_False, decide_True by done. cbn [rest pos].
  change (simple_escape 117) with (@None Z). cbn iota.
  rewrite decide_True by done. unfold parse_unicode_escape. rewrite Hn'.
  cbn [mbind result_bind].
  replace (((0 * 16 + 0) * 16 + c / 16) * 16 + c mod 16) with c by lia.
  assert ((55296 <=? c) = false) as -> by (apply Z.leb_gt; lia).
  assert ((56320 <=? c) = false) as -> by (apply Z.leb_gt; lia). cbn [andb].
  cbn [mbind result_bind]. rewrite char_from_u32_ok by (unfold char_ok; lia). done.
Qed.

(** A character written as itself. *)
Lemma parse_string_step_raw n c r out :
  char_ok c → 0x20 ≤ c → c ≠ 34 → c ≠ 92 →
  ∃ n', parse_string_step (mkParser n (utf8_encode c ++ r), out) =
    Ok (inl (mkParser n' r, out ++ utf8_encode c)).
Proof.
  intros Hc Hlo Hq Hb. unfold parse_string_step, bump. cbn [rest].
  destruct (utf8_encode_shape c Hc) as [[Hlt He]|(Hge & Hf & Hne)].
  - rewrite He. cbn [app]. change (ch "\") with 92.
    rewrite !decide_False by done.
    assert ((c <=? 31) = false) as -> by (apply Z.leb_gt; lia).
    unfold utf8_len.
    assert ((c <? 128) = true) as -> by (apply Z.ltb_lt; lia).
    rewrite decide_False by lia. rewrite He. eauto.
  - assert (∃ b t, utf8_encode c = b :: t ∧ utf8_len b = length (utf8_encode c)) as
      (b & t & He & Hlen).
    { unfold utf8_encode, utf8_len, char_ok in *. clear Hf Hne.
      repeat case_decide; try lia; eexists _, _; (split; [reflexivity|]); simpl;
        repeat (case_match; bool_to_prop); try done; exfalso; zlia. }
    rewrite He in *. cbn [app]. change (ch "\") with 92.
    apply Forall_cons in Hf as [Hb0 _]. rewrite !decide_False by lia.
    assert ((b <=? 31) = false) as -> by (apply Z.leb_gt; lia).
    rewrite Hlen.
    rewrite decide_True.
    2:{ pose proof (utf8_encode_length c). rewrite <-Hlen. unfold utf8_len.
        assert ((b <? 128) = false) as -> by (apply Z.ltb_ge; lia).
        repeat case_match; lia. }
    rewrite decide_False by (simpl; rewrite length_app; lia).
    change (b :: t ++ r) with ((b :: t) ++ r). rewrite take_app_length, <-He.
    rewrite utf8_valid_encode by done. unfold advance. cbn [rest pos].
    rewrite drop_app_length. eauto.
Qed.

(** One character: the step of [parse_string] reads back what [write_char]
    wrote. *)
Lemma parse_string_step_write_char esc n c r out :
  char_ok c →
  ∃ n', parse_string_step (mkParser n (write_char esc c ++ r), out) =
    Ok (inl (mkParser n' r, out ++ utf8_encode c)).
Proof.
  intros Hc. unfold write_char.
  do 7 (case_decide; [subst c; eexists; reflexivity|]).
  destruct (_ || _) eqn:Hctl.
  - rewrite <-app_assoc. apply parse_string_step_control.
    bool_to_prop. unfold char_ok in Hc. destruct Hctl; bool_to_prop; lia.
  - bool_to_prop. by apply parse_string_step_raw.
Qed.

Lemma parse_string_loop_write esc cs n r out :
  Forall char_ok cs →
  ∃ n', loop_m (λ st, length (rest (fst st))) parse_string_step loop_fuel_error
          (mkParser n ((cs ≫= write_char esc) ++ 34 :: r), out) =
    Ok (out ++ from_chars cs, mkParser n' r).
Proof.
  intros Hcs. revert n out. induction Hcs as [|c cs Hc Hcs IH]; intros n out.
  - rewrite parse_string_loop_unfold. simpl. rewrite app_nil_r. eauto.
  - rewrite parse_string_loop_unfold. rewrite bind_cons, <-app_assoc.
    destruct (parse_string_step_write_char esc n c
                ((cs ≫= write_char esc) ++ 34 :: r) out Hc) as [n1 ->].
    simpl. destruct (IH n1 (out ++ utf8_encode c)) as [n2 ->].
    exists n2. by rewrite <-app_assoc.
Qed.

Lemma parse_string_write esc s n r :
  utf8_valid s = true →
  ∃ n', parse_string (mkParser n (write_string esc s ++ r)) = Ok (s, mkParser n' r).
Proof.
  intros (cs & Hcs & ->)%utf8_valid_spec.
  unfold parse_string, write_string. rewrite chars_from_chars by done. simpl.
  rewrite <-app_assoc. destruct (parse_string_loop_write esc cs (S n) r [] Hcs) as [n' H].
  exists n'. exact H.
Qed.

Lemma advance_app n a r : advance (length a) (mkParser n (a ++ r)) = mkParser (n + length a) r.
Proof. unfold advance. simpl. by rewrite drop_app_length. Qed.

(** The integer part of [parse_number], on the digits of [u64_to_string]. *)
Lemma parse_int_part m n r :
  u64_ok m → value_end r →
  let p := mkParser n (u64_to_string m ++ r) in
  match peek p with
  | Some c =>
      if decide (c = ch "0") then Ok (advance 1 p)
      else if (49 <=? c) && (c <=? 57) then Ok (consume_digits p)
      else err p "invalid number"
  | None => err p "invalid number"
  end = Ok (mkParser (n + length (u64_to_string m)) r).
Proof.
  intros Hm Hr. destruct (u64_to_string_spec m Hm) as (_ & Hds & (d & t & Hdt & Hz) & _).
  rewrite Hdt in *. cbn [peek rest app head].
  apply Forall_cons in Hds as Hd; destruct Hd as [Hd _].
  unfold is_ascii_digit in Hd. bool_to_prop. unfold peek. cbn [rest app head].
  change (ch "0") with 48. case_decide.
  - destruct Hz as [->|]; [|done].
    apply (f_equal Ok), (advance_app n [d] r).
  - assert ((49 <=? d) && (d <=? 57) = true) as ->.
    { apply andb_true_intro. rewrite !Z.leb_le. lia. }
    f_equal. unfold consume_digits. cbn [rest].
    change (d :: t ++ r) with ((d :: t) ++ r). rewrite count_while_app; [apply advance_app|done|].
    unfold value_end in Hr. destruct (head r); [naive_solver|done].
Qed.

Lemma parse_frac_none n r : value_end r → parse_frac (mkParser n r) = Ok (false, mkParser n r).
Proof.
  unfold parse_frac, value_end, peek. cbn [rest]. intros Hr.
  case_decide as H; [|done]. rewrite H in Hr. naive_solver.
Qed.

Lemma parse_exponent_none n r :
  value_end r → parse_exponent (mkParser n r) = Ok (false, mkParser n r).
Proof.
  unfold parse_exponent, value_end, peek. cbn [rest]. intros Hr.
  case_decide as H; [|done]. destruct H as [H|H]; rewrite H in Hr; naive_solver.
Qed.

Lemma u64_to_string_no_minus m :
  u64_ok m → strip_prefix (str "-") (u64_to_string m) = None.
Proof.
  intros Hm. destruct (u64_to_string_spec m Hm) as (_ & Hds & (d & t & Hdt & _) & _).
  rewrite Hdt in *. apply Forall_cons in Hds as [Hd _].
  unfold is_ascii_digit in Hd. bool_to_prop. change (str "-") with [45].
  simpl. rewrite decide_False by lia. done.
Qed.

Lemma parse_number_pos m n r :
  u64_ok m → value_end r →
  ∃ n', parse_number (mkParser n (u64_to_string m ++ r)) =
    Ok (Num (PosInt m), mkParser n' r).
Proof.
  intros Hm Hr. unfold parse_number.
  assert (peek (mkParser n (u64_to_string m ++ r)) ≠ Some (ch "-")) as Hmin.
  { pose proof (u64_to_string_no_minus m Hm) as H.
    destruct (u64_to_string_spec m Hm) as (_ & _ & (d & t & Hdt & _) & _).
    rewrite Hdt in *. unfold peek. simpl. change (str "-") with [45] in H.
    intros [= ->]. simpl in H. done. }
  rewrite decide_False by done. cbv zeta. rewrite parse_int_part by done.
  cbn [mbind result_bind]. rewrite parse_frac_none by done.
  cbn [mbind result_bind]. rewrite parse_exponent_none by done.
  cbn [mbind result_bind orb pos rest].
  rewrite Nat.add_comm, Nat.add_sub, take_app_length.
  unfold parse_u64. rewrite u64_to_string_no_minus, parse_u64_to_string by done.
  simpl. eauto.
Qed.

Lemma parse_number_neg m n r :
  I64_MIN ≤ m < 0 → value_end r →
  ∃ n', parse_number (mkParser n (ch "-" :: u64_to_string (- m) ++ r)) =
    Ok (Num (NegInt m), mkParser n' r).
Proof.
  intros Hm Hr. unfold I64_MIN in Hm.
  assert (u64_ok (- m)) as Hu by (unfold u64_ok, U64_MAX; lia).
  unfold parse_number. rewrite decide_True by done. cbv zeta.
  change (advance 1 (mkParser n (ch "-" :: u64_to_string (- m) ++ r))) with
    (mkParser (n + 1) (u64_to_string (- m) ++ r)).
  rewrite parse_int_part by done.
  cbn [mbind result_bind]. rewrite parse_frac_none by done.
  cbn [mbind result_bind]. rewrite parse_exponent_none by done.
  cbn [mbind result_bind orb pos rest].
  replace (n + 1 + length (u64_to_string (- m)) - n)%nat with
    (S (length (u64_to_string (- m)))) by lia.
  rewrite firstn_cons, take_app_length.
  unfold parse_u64, parse_i64. change (str "-") with [45]. cbn [strip_prefix].
  rewrite decide_True by done.
  rewrite all_digits_u64_to_string by done.
  destruct (u64_to_string_spec (- m) Hu) as (-> & _).
  assert ((I64_MIN <=? - - m) = true) as -> by (apply Z.leb_le; unfold I64_MIN; lia).
  cbn [mbind result_bind andb].
  unfold number_from_i64. rewrite decide_True by lia.
  rewrite Z.opp_involutive. eauto.
Qed.

Section roundtrip.
Context {SF : SerdeFloat} (esc : Escaping).

(** A value's text starts with a character that is not whitespace, nor one that
    closes an array or an object. *)
Lemma write_json_head v :
  value_wf false v = true →
  ∃ c t, write_json esc v = c :: t ∧ is_ws c = false ∧ c ≠ ch "]" ∧ c ≠ ch "}".
Proof.
  destruct v as [|[]|[m|m|f]|s|a|m]; simpl; intros H; try done;
    try (eexists _, _; split_and!; [reflexivity|by vm_compute..]).
  all: unfold int_to_string; case_decide; bool_to_prop;
    try (eexists _, _; split_and!; [reflexivity|by vm_compute..]); try lia.
  destruct (u64_to_string_spec m) as (_ & Hds & (d & t & Hdt & _) & _); [done|].
  rewrite Hdt in *. apply Forall_cons in Hds as [Hd _]. unfold is_ascii_digit in Hd.
  bool_to_prop. exists d, t. split; [done|].
  assert (is_ws d = false) as ->.
  { unfold is_ws. rewrite !bool_decide_false by lia. done. }
  change (ch "]") with 93. change (ch "}") with 125. split_and!; [done|lia..].
Qed.

Lemma value_end_sep c r : c = ch "," ∨ c = ch "]" ∨ c = ch "}" → value_end (c :: r).
Proof. intros [->|[->| ->]]; by vm_compute. Qed.

(** What the induction gives for the nested values. *)
Definition reads_back (pv : Parser → result EventError (Value * Parser)) (v : Value)
    : Prop :=
  ∀ n r, value_end r →
    ∃ n', pv (mkParser n (write_json esc v ++ r)) = Ok (v, mkParser n' r).

Lemma skip_ws_value n v r :
  value_wf false v = true →
  skip_ws (mkParser n (write_json esc v ++ r)) = mkParser n (write_json esc v ++ r).
Proof.
  intros Hv. apply skip_ws_id. destruct (write_json_head v Hv) as (c & t & -> & Hc & _).
  done.
Qed.

Lemma parse_array_step_write pv acc v n c r :
  value_wf false v = true → reads_back pv v → c = ch "," ∨ c = ch "]" →
  ∃ n', parse_array_step pv (mkParser n (write_json esc v ++ c :: r), acc) =
    Ok (if decide (c = ch ",") then inl (mkParser n' r, acc ++ [v])
        else inr (Array (acc ++ [v]), mkParser n' r)).
Proof.
  intros Hwf Hv Hc. unfold parse_array_step. rewrite skip_ws_value by done.
  destruct (Hv n (c :: r)) as [n1 ->]; [apply value_end_sep; tauto|].
  cbn [mbind result_bind]. rewrite skip_ws_id by (destruct Hc; subst c; done).
  cbn [bump rest pos]. exists (S n1). destruct Hc; subst c; done.
Qed.

Lemma parse_array_loop_write pv items acc n r :
  consumes pv →
  Forall (λ v, value_wf false v = true ∧ reads_back pv v) items → items ≠ [] →
  ∃ n', loop_m (λ st, length (rest (fst st))) (parse_array_step pv) loop_fuel_error
          (mkParser n (join_commas (write_json esc <$> items) ++ ch "]" :: r), acc) =
    Ok (Array (acc ++ items), mkParser n' r).
Proof.
  intros Hpv Hitems. revert n acc.
  induction Hitems as [|v items [Hwf Hv] Hitems IH]; intros n acc Hne; [done|].
  rewrite parse_array_loop_unfold by done. destruct items as [|v' items].
  - change (join_commas (write_json esc <$> [v])) with (write_json esc v).
    destruct (parse_array_step_write pv acc v n (ch "]") r) as [n1 ->]; auto.
    simpl. eauto.
  - change (join_commas (write_json esc <$> v :: v' :: items)) with
      (write_json esc v ++ ch "," :: join_commas (write_json esc <$> v' :: items)).
    rewrite <-app_assoc, <-app_comm_cons.
    destruct (parse_array_step_write pv acc v n (ch ",")
      (join_commas (write_json esc <$> v' :: items) ++ ch "]" :: r)) as [n1 ->]; auto.
    cbn [mbind result_bind]. rewrite decide_True by done.
    destruct (IH n1 (acc ++ [v])) as [n2 H2]; [done|].
    exists n2. by rewrite H2, <-app_assoc.
Qed.

(** An entry of an object as [write_json] writes it. *)
Definition write_entry (kv : bytes * Value) : bytes :=
  write_string esc kv.1 ++ ch ":" :: write_json esc kv.2.

Lemma map_get_NoDup {V} (m : list (bytes * V)) k v :
  NoDup (m.*1) → (k, v) ∈ m → map_get m k = Some v.
Proof.
  induction m as [|[k' v'] m IH]; simpl; intros Hnd Hin; [by apply elem_of_nil in Hin|].
  apply NoDup_cons in Hnd as [Hk Hnd]. apply elem_of_cons in Hin as [[= -> ->]|Hin].
  - by rewrite decide_True.
  - rewrite decide_False; [auto|]. intros ->. apply Hk.
    apply list_elem_of_fmap. by exists (k', v).
Qed.

Lemma write_object m :
  keys_sorted (m.*1) = true →
  write_json esc (Object m) = ch "{" :: join_commas (write_entry <$> m) ++ str "}".
Proof.
  intros Hs. apply keys_sorted_strongly in Hs. simpl. do 3 f_equal.
  rewrite slice_sort_id; [|apply _|by apply lt_sorted_le, Hs; apply _].
  apply strictly_sorted_NoDup in Hs; [|apply _].
  rewrite <-list_fmap_compose. apply list_fmap_ext. intros i [k v] Hi. simpl.
  unfold write_entry. simpl. do 2 f_equal.
  rewrite (map_get_NoDup _ k (write_json esc v)); [done|..].
  - rewrite <-list_fmap_compose. exact Hs.
  - apply list_elem_of_fmap. exists (k, v). split; [done|].
    by eapply list_elem_of_lookup_2.
Qed.

(** Inserting a key above all others appends it. *)
Lemma map_insert_snoc {V} (m : list (bytes * V)) k v :
  Forall (λ k', bytes_cmp k' k = Lt) (m.*1) → map_insert m k v = m ++ [(k, v)].
Proof.
  induction m as [|[k' v'] m IH]; simpl; intros Hf; [done|].
  apply Forall_cons in Hf as [Hk Hf]. rewrite (cmp_opp (cmp:=bytes_cmp) k' k), Hk.
  simpl. by rewrite IH.
Qed.

Lemma map_contains_key_false {V} (m : list (bytes * V)) k :
  Forall (λ k', bytes_cmp k' k = Lt) (m.*1) → map_contains_key m k = false.
Proof.
  unfold map_contains_key.
  induction m as [|[k' v'] m IH]; simpl; intros Hf; [done|].
  apply Forall_cons in Hf as [Hk Hf]. rewrite decide_False; [auto|].
  intros ->. rewrite cmp_refl in Hk; [done|apply _].
Qed.

(** One entry: the step of [parse_object] reads it back. *)
Lemma parse_object_step_write pv acc kv n c r :
  Forall (λ k', bytes_cmp k' kv.1 = Lt) (acc.*1) →
  utf8_valid kv.1 = true → value_wf false kv.2 = true → reads_back pv kv.2 →
  c = ch "," ∨ c = ch "}" →
  ∃ n', parse_object_step pv (mkParser n (write_entry kv ++ c :: r), acc) =
    Ok (if decide (c = ch ",") then inl (mkParser n' r, acc ++ [kv])
        else inr (Object (acc ++ [kv]), mkParser n' r)).
Proof.
  destruct kv as [k v]. cbn [fst snd]. intros Hacc Hk Hwf Hv Hc.
  unfold parse_object_step, write_entry. cbn [fst snd]. cbv zeta.
  rewrite <-app_assoc, <-app_comm_cons.
  rewrite skip_ws_id by done. rewrite decide_False by (intros H; by apply H).
  destruct (parse_string_write esc k n (ch ":" :: write_json esc v ++ c :: r) Hk)
    as [n1 ->]. cbn [mbind result_bind].
  rewrite map_contains_key_false by done. rewrite skip_ws_id by done.
  cbn [bump rest pos]. rewrite decide_False by tauto.
  rewrite skip_ws_value by done.
  destruct (Hv (S n1) (c :: r)) as [n2 ->]; [apply value_end_sep; tauto|].
  cbn [mbind result_bind]. rewrite map_insert_snoc by done.
  rewrite skip_ws_id by (destruct Hc; subst c; done). cbn [bump rest pos].
  exists (S n2). destruct Hc; subst c; done.
Qed.

Lemma parse_object_loop_write pv items acc n r :
  consumes pv →
  StronglySorted (cmp_lt bytes_cmp) ((acc ++ items).*1) →
  Forall (λ kv, utf8_valid kv.1 = true ∧ value_wf false kv.2 = true ∧ reads_back pv kv.2)
    items → items ≠ [] →
  ∃ n', loop_m (λ st, length (rest (fst st))) (parse_object_step pv) loop_fuel_error
          (mkParser n (join_commas (write_entry <$> items) ++ ch "}" :: r), acc) =
    Ok (Object (acc ++ items), mkParser n' r).
Proof.
  intros Hpv Hs Hitems. revert n acc Hs.
  induction Hitems as [|kv items (Hk & Hwf & Hv) Hitems IH]; intros n acc Hs Hne; [done|].
  rewrite parse_object_loop_unfold by done.
  assert (Forall (λ k', bytes_cmp k' kv.1 = Lt) (acc.*1)) as Hacc.
  { rewrite fmap_app in Hs. apply Forall_forall. intros k' Hk'.
    apply (StronglySorted_app_1_elem_of _ _ _ _ _ Hs Hk'). simpl. by left. }
  destruct items as [|kv' items].
  - change (join_commas (write_entry <$> [kv])) with (write_entry kv).
    destruct (parse_object_step_write pv acc kv n (ch "}") r) as [n1 ->]; auto.
    simpl. eauto.
  - change (join_commas (write_entry <$> kv :: kv' :: items)) with
      (write_entry kv ++ ch "," :: join_commas (write_entry <$> kv' :: items)).
    rewrite <-app_assoc, <-app_comm_cons.
    destruct (parse_object_step_write pv acc kv n (ch ",")
      (join_commas (write_entry <$> kv' :: items) ++ ch "}" :: r)) as [n1 ->]; auto.
    cbn [mbind result_bind]. rewrite decide_True by done.
    destruct (IH n1 (acc ++ [kv])) as [n2 H2]; [by rewrite <-app_assoc|done|].
    exists n2. by rewrite H2, <-app_assoc.
Qed.

Lemma max_list_fmap_le {A} (f : A → nat) l x n :
  (max_list (f <$> l) ≤ n)%nat → x ∈ l → (f x ≤ n)%nat.
Proof.
  intros Hm Hx. induction l as [|y l IH]; [by apply elem_of_nil in Hx|].
  change (max_list (f <$> y :: l)) with (f y `max` max_list (f <$> l))%nat in Hm.
  apply elem_of_cons in Hx as [->|Hx]; [lia|]. apply IH; [lia|done].
Qed.

Lemma parse_string_value s n r levels :
  utf8_valid s = true →
  ∃ n', parse_value (S levels) (mkParser n (write_string esc s ++ r)) =
    Ok (Str s, mkParser n' r).
Proof.
  intros Hs. destruct (parse_string_write esc s n r Hs) as [n' H]. exists n'.
  cbn [parse_value]. change (peek (mkParser n (write_string esc s ++ r))) with (Some 34).
  cbv beta iota. rewrite !decide_False by done. rewrite decide_True by done.
  by rewrite H.
Qed.

Lemma parse_number_value m n r levels :
  value_wf false (Num m) = true → value_end r →
  ∃ n', parse_value (S levels) (mkParser n (write_number m ++ r)) =
    Ok (Num m, mkParser n' r).
Proof.
  intros Hwf Hr.
  assert (∃ n', parse_number (mkParser n (write_number m ++ r)) = Ok (Num m, mkParser n' r))
    as [n' Hn'].
  { destruct m as [m|m|f]; simpl in Hwf; [| |done]; bool_to_prop; simpl;
      unfold int_to_string.
    - rewrite decide_False by lia. by apply parse_number_pos.
    - rewrite decide_True by lia. by apply parse_number_neg. }
  exists n'. rewrite <-Hn'. cbn [parse_value].
  assert (∃ c t, write_number m = c :: t ∧ (c = 45 ∨ is_ascii_digit c = true))
    as (c & t & Hc & Hdig).
  { destruct m as [m|m|f]; simpl in Hwf; [| |done]; bool_to_prop; simpl;
      unfold int_to_string.
    - rewrite decide_False by lia. destruct (u64_to_string_spec m) as
        (_ & Hds & (d & t & Hdt & _) & _); [done|].
      rewrite Hdt in *. apply Forall_cons in Hds as [Hd _]. eauto.
    - rewrite decide_True by lia. eexists _, _. split; [done|]. by left. }
  rewrite Hc. unfold peek. cbn [rest app head].
  assert (c = 45 ∨ 48 ≤ c ≤ 57) as Hrange.
  { unfold is_ascii_digit in Hdig. destruct Hdig; bool_to_prop; lia. }
  change (ch "{") with 123. change (ch "[") with 91. change (ch "t") with 116.
  change (ch "f") with 102. change (ch "n") with 110. change (ch "-") with 45.
  rewrite !decide_False by lia.
  assert (bool_decide (c = 45) || is_ascii_digit c = true) as ->; [|done].
  destruct Hdig as [->| ->]; [done|]. apply orb_true_r.
Qed.

Lemma parse_value_write v :
  value_wf false v = true →
  ∀ levels, (value_depth v < levels)%nat → reads_back (parse_value levels) v.
Proof.
  induction v as [|b|m|s|a IH|m IH] using Value_nested_ind; intros Hwf levels Hd n r Hr;
    (destruct levels as [|levels]; [lia|]).
  - eexists. reflexivity.
  - destruct b; eexists; reflexivity.
  - by apply parse_number_value.
  - by apply parse_string_value.
  - cbn [parse_value write_json]. rewrite <-app_comm_cons.
    change (peek (mkParser n (ch "[" :: _))) with (Some (ch "[")).
    cbv beta iota. rewrite decide_False, decide_True by done.
    unfold parse_array. cbn [bump rest snd pos]. rewrite <-app_assoc.
    destruct a as [|v a].
    { simpl. eauto. }
    assert (value_wf false v = true) as Hv by (simpl in Hwf; by apply andb_prop in Hwf as [? _]).
    assert (skip_ws (mkParser (S n) (join_commas (write_json esc <$> v :: a) ++ str "]" ++ r))
      = mkParser (S n) (join_commas (write_json esc <$> v :: a) ++ ch "]" :: r)) as Hskip.
    { apply skip_ws_id. destruct (write_json_head v Hv) as (c & t & Hc & Hw & _).
      simpl. rewrite Hc. by destruct a. }
    cbv zeta. rewrite Hskip. rewrite decide_False.
    2:{ destruct (write_json_head v Hv) as (c & t & Hc & _ & Hcl & _).
        unfold peek. simpl. rewrite Hc. destruct a; simpl; congruence. }
    apply (parse_array_loop_write _ (v :: a) []); [apply parse_value_consumes| |done].
    apply Forall_forall. intros x Hx. rewrite Forall_forall in IH. simpl in Hwf.
    assert (value_wf false x = true) as Hwx.
    { apply (proj1 (forallb_forall (value_wf false) (v :: a)) Hwf). by apply list_elem_of_In. }
    split; [done|]. apply IH; [done..|].
    assert (S (value_depth x) ≤ levels)%nat; [|lia].
    apply (max_list_fmap_le (S ∘ value_depth) (v :: a)); [|done]. simpl in *. lia.
  - cbn [value_wf] in Hwf. apply andb_prop in Hwf as [Hwf Hvals].
    apply andb_prop in Hwf as [Hks Hutf].
    rewrite write_object by done. rewrite <-app_comm_cons. cbn [parse_value].
    change (peek (mkParser n (ch "{" :: _))) with (Some (ch "{")).
    cbv beta iota. rewrite decide_True by done.
    unfold parse_object. cbn [bump rest snd pos]. rewrite <-app_assoc.
    destruct m as [|kv m].
    { simpl. eauto. }
    assert (∀ t, ∃ t', join_commas (write_entry <$> kv :: m) ++ t = 34 :: t') as Hq.
    { intros t. destruct m; simpl; eauto. }
    assert (skip_ws (mkParser (S n) (join_commas (write_entry <$> kv :: m) ++ str "}" ++ r))
      = mkParser (S n) (join_commas (write_entry <$> kv :: m) ++ ch "}" :: r)) as Hskip.
    { apply skip_ws_id. destruct (Hq (ch "}" :: r)) as [t' Ht].
      unfold not_ws_head. by rewrite Ht. }
    cbv zeta. rewrite Hskip. rewrite decide_False.
    2:{ destruct (Hq (ch "}" :: r)) as [t' Ht]. unfold peek. cbn [rest]. by rewrite Ht. }
    apply (parse_object_loop_write _ (kv :: m) []);
      [apply parse_value_consumes|by apply keys_sorted_strongly| |done].
    apply Forall_forall. intros x Hx. rewrite Forall_forall in IH.
    rewrite forallb_forall in Hutf, Hvals.
    assert (value_wf false x.2 = true) as Hwx by (apply Hvals; by apply list_elem_of_In).
    split; [|split; [done|]].
    { apply Hutf, list_elem_of_In. by apply list_elem_of_fmap_2. }
    apply IH; [done..|].
    assert (S (value_depth x.2) ≤ levels)%nat; [|lia].
    apply (max_list_fmap_le (λ kv, S (value_depth kv.2)) (kv :: m)); [|done].
    simpl in *. lia.
Qed.
End roundtrip.

Lemma parse_strict_written {SF : SerdeFloat} esc v :
  value_wf false v = true → (value_depth v ≤ MAX_DEPTH)%nat →
  parse_strict (write_json esc v) = Ok v.
Proof.
  intros Hwf Hd. unfold parse_strict.
  destruct (parse_value_write esc v Hwf (S MAX_DEPTH) ltac:(lia) 0%nat []) as [n H]; [done|].
  rewrite app_nil_r in H. rewrite skip_ws_id.
  2:{ destruct (write_json_head esc v Hwf) as (c & t & Hc & Hws & _).
      unfold not_ws_head. by rewrite Hc. }
  rewrite H. cbn [mbind result_bind]. rewrite skip_ws_id by done. done.
Qed.

(** ** What the parser returns is well formed *)

Lemma keys_sorted_true ks :
  StronglySorted (cmp_lt bytes_cmp) ks → keys_sorted ks = true.
Proof.
  induction 1 as [|k ks Hs IH Hf]; [done|]. destruct ks as [|k' ks]; [done|].
  simpl in *. rewrite IH. apply Forall_cons in Hf as [Hk _].
  by rewrite bool_decide_true.
Qed.

Lemma elem_of_map_insert {V} (m : list (bytes * V)) k v k' v' :
  (k', v') ∈ map_insert m k v → (k' = k ∧ v' = v) ∨ (k', v') ∈ m.
Proof.
  induction m as [|[k1 v1] m IH]; simpl.
  - intros H%list_elem_of_singleton. left. by simplify_eq.
  - destruct (bytes_cmp k k1); rewrite !elem_of_cons; naive_solver.
Qed.

Lemma elem_of_map_insert_keys {V} (m : list (bytes * V)) k v k' :
  k' ∈ (map_insert m k v).*1 → k' = k ∨ k' ∈ m.*1.
Proof.
  intros ([k1 v1] & -> & H)%list_elem_of_fmap.
  apply elem_of_map_insert in H as [[-> ->]|H]; [by left|right].
  apply list_elem_of_fmap. by exists (k1, v1).
Qed.

Lemma map_insert_sorted {V} (m : list (bytes * V)) k v :
  StronglySorted (cmp_lt bytes_cmp) (m.*1) →
  StronglySorted (cmp_lt bytes_cmp) ((map_insert m k v).*1).
Proof.
  induction m as [|[k1 v1] m IH]; simpl; intros Hs; [repeat constructor|].
  apply StronglySorted_cons in Hs as [Hf Hs].
  destruct (bytes_cmp k k1) eqn:E; simpl; apply StronglySorted_cons.
  - apply cmp_eq_iff in E as ->. done.
  - split; [|by apply StronglySorted_cons]. constructor; [done|].
    eapply Forall_impl; [exact Hf|]. intros k2 H2. by eapply cmp_lt_trans.
  - split; [|by apply IH]. apply Forall_forall. intros k2 H2.
    apply elem_of_map_insert_keys in H2 as [->|H2].
    + by apply cmp_gt_lt in E; [|apply _].
    + rewrite Forall_forall in Hf. by apply Hf.
Qed.

Lemma simple_escape_ok e c : simple_escape e = Some c → char_ok c.
Proof.
  unfold simple_escape. repeat case_decide; intros; simplify_eq;
    unfold char_ok; vm_compute; intuition congruence.
Qed.

Lemma utf8_valid_app a b :
  utf8_valid a = true → utf8_valid b = true → utf8_valid (a ++ b) = true.
Proof.
  rewrite !utf8_valid_spec. intros (ca & Ha & ->) (cb & Hb & ->).
  exists (ca ++ cb). rewrite from_chars_app. split; [by apply Forall_app|done].
Qed.

Lemma parse_string_step_valid st r :
  utf8_valid st.2 = true → parse_string_step st = Ok r →
  match r with inl st' => utf8_valid st'.2 = true | inr a => utf8_valid a.1 = true end.
Proof.
  destruct st as [p out]. simpl. intros Hout. unfold parse_string_step.
  destruct (bump p) as [[c|] p1]; [|done]. case_decide; [by intros [= <-]|].
  case_decide.
  - destruct (bump p1) as [[e|] p2]; [|done].
    destruct (simple_escape e) as [c'|] eqn:He.
    + intros [= <-]. apply utf8_valid_app; [done|].
      by apply utf8_valid_encode, (simple_escape_ok e).
    + case_decide; [|done]. intros Hd. inv_bind Hd. destruct v as [cp p3].
      destruct (char_from_u32 cp) as [c'|] eqn:Hc; [|done]. simplify_eq.
      apply char_from_u32_Some in Hc as [-> Hc].
      apply utf8_valid_app; [done|by apply utf8_valid_encode].
  - destruct (c <=? 31) eqn:Hctl; [done|]. bool_to_prop. unfold utf8_len.
    case_decide as Hn.
    + case_decide; [done|]. destruct (utf8_valid (take _ _)) eqn:Hval; [|done].
      intros [= <-]. by apply utf8_valid_app.
    + intros [= <-]. apply utf8_valid_app; [done|]. apply utf8_valid_encode.
      destruct (c <? 128) eqn:Hlt; bool_to_prop; [unfold char_ok; lia|].
      exfalso. apply Hn. repeat case_match; lia.
Qed.

Lemma parse_string_valid p s p' :
  parse_string p = Ok (s, p') → utf8_valid s = true.
Proof.
  unfold parse_string. intros H.
  apply (loop_m_rule _ _ (λ st, utf8_valid st.2 = true) (λ a, utf8_valid a.1 = true)) in H;
    [done|..|done].
  - intros st st' Hst Hs. by apply (parse_string_step_valid st (inl st')).
  - intros st a Hst Hs. by apply (parse_string_step_valid st (inr a)).
Qed.

Lemma parse_number_wf p v p' :
  parse_number p = Ok (v, p') → value_wf true v = true ∧ value_depth v = O.
Proof.
  unfold parse_number. intros H. inv_bind H. inv_bind H. destruct v1.
  inv_bind H. destruct v1. inv_bind H. simplify_eq.
  set (txt := take _ _) in *. clearbody txt. clear Hv Hv0 Hv1.
  split; [|done].
  assert (∀ (e : EventError) n, ok_or (number_from_f64 (parse_f64 txt)) e = Ok n →
    value_wf true (Num n) = true) as Hf.
  { intros e n Hn%ok_or_Ok. destruct (parse_f64 txt); simplify_eq/=; done. }
  destruct (_ || _); [by eapply Hf|].
  destruct (parse_u64 txt) as [u|] eqn:Hu.
  - simplify_eq/=. unfold parse_u64 in Hu. destruct (strip_prefix _ _); [done|].
    apply parse_u64_digits_Some in Hu as [[H1 H2] _].
    apply andb_true_intro. by rewrite !Z.leb_le.
  - destruct (parse_i64 txt) as [n|] eqn:Hi; [|by eapply Hf]. simplify_eq.
    assert (I64_MIN ≤ n < 2 ^ 63) as Hn.
    { unfold parse_i64 in Hi. unfold I64_MIN in *.
      destruct (strip_prefix _ _) as [d|]; destruct (_ && _) eqn:E; simplify_eq;
        apply andb_prop in E as [E1 E2]; apply digits_value_nonneg in E1;
        bool_to_prop; lia. }
    unfold number_from_i64, I64_MIN in *. case_decide; simpl;
      apply andb_true_intro; rewrite ?Z.leb_le, ?Z.ltb_lt; unfold U64_MAX, I64_MIN; lia.
Qed.

Lemma max_list_fmap_lt {A} (f : A → nat) l n :
  (∀ x, x ∈ l → (f x ≤ n)%nat) → (max_list (f <$> l) ≤ n)%nat.
Proof.
  induction l as [|y l IH]; intros H; [simpl; lia|].
  change (max_list (f <$> y :: l)) with (f y `max` max_list (f <$> l))%nat.
  pose proof (H y ltac:(by left)). specialize (IH (λ x Hx, H x ltac:(by right))). lia.
Qed.

(** A value the parser may return with so many levels left. *)
Definition parsed_ok (levels : nat) (v : Value) : Prop :=
  value_wf true v = true ∧ (value_depth v < levels)%nat.

Lemma parse_array_step_ok levels pv st r :
  (∀ p v p', pv p = Ok (v, p') → parsed_ok levels v) →
  Forall (parsed_ok levels) st.2 → parse_array_step pv st = Ok r →
  match r with
  | inl st' => Forall (parsed_ok levels) st'.2
  | inr a => ∃ l, a.1 = Array l ∧ Forall (parsed_ok levels) l
  end.
Proof.
  intros Hpv. destruct st as [p arr]. cbn [snd]. intros Ha. unfold parse_array_step.
  intros Hs. inv_bind Hs. destruct v as [w p1]. apply Hpv in Hv.
  assert (Forall (parsed_ok levels) (arr ++ [w])) by (by apply Forall_app_2; auto).
  destruct (bump _) as [c p2].
  case_decide; [by simplify_eq/=|]. case_decide; simplify_eq/=. eauto.
Qed.

Lemma parse_array_ok levels pv p v p' :
  (∀ p v p', pv p = Ok (v, p') → parsed_ok levels v) →
  parse_array pv p = Ok (v, p') → parsed_ok (S levels) v.
Proof.
  intros Hpv. unfold parse_array. cbv zeta. case_decide.
  { intros [= <- <-]. split; simpl; [done|lia]. }
  intros H0.
  apply (loop_m_rule _ _ (λ st, Forall (parsed_ok levels) st.2)
           (λ r, ∃ a, r.1 = Array a ∧ Forall (parsed_ok levels) a)) in H0.
  - destruct H0 as (a & Hva & Ha). simpl in Hva. subst v. rewrite Forall_forall in Ha. split.
    + simpl. apply forallb_forall. intros x Hx. by apply Ha, list_elem_of_In.
    + simpl. assert (max_list (S ∘ value_depth <$> a) ≤ levels)%nat; [|lia].
      apply max_list_fmap_lt. intros x Hx. destruct (Ha x Hx). simpl. lia.
  - intros st st' Hst Hs. by apply (parse_array_step_ok levels pv st (inl st')).
  - intros st r Hst Hs. by apply (parse_array_step_ok levels pv st (inr r)).
  - constructor.
Qed.

(** The entries gathered by [parse_object]. *)
Definition entries_ok (levels : nat) (m : list (bytes * Value)) : Prop :=
  StronglySorted (cmp_lt bytes_cmp) (m.*1) ∧
  Forall (λ kv, utf8_valid kv.1 = true ∧ parsed_ok levels kv.2) m.

Lemma entries_ok_insert levels m k v :
  entries_ok levels m → utf8_valid k = true → parsed_ok levels v →
  entries_ok levels (map_insert m k v).
Proof.
  intros [Hs Hf] Hk Hv. split; [by apply map_insert_sorted|].
  rewrite Forall_forall in *. intros [k' v'] H.
  apply elem_of_map_insert in H as [[-> ->]|H]; [done|]. by apply Hf.
Qed.

Lemma parse_object_step_ok levels pv st r :
  (∀ p v p', pv p = Ok (v, p') → parsed_ok levels v) →
  entries_ok levels st.2 → parse_object_step pv st = Ok r →
  match r with
  | inl st' => entries_ok levels st'.2
  | inr a => ∃ m, a.1 = Object m ∧ entries_ok levels m
  end.
Proof.
  intros Hpv. destruct st as [p m]. cbn [snd]. intros Hm. unfold parse_object_step.
  cbv zeta. case_decide; [done|]. intros Hs. inv_bind Hs. destruct v as [key p1].
  apply parse_string_valid in Hv. destruct (map_contains_key m key); [done|].
  destruct (bump _) as [c p2]. case_decide; [done|]. inv_bind Hs.
  destruct v as [w p3]. apply Hpv in Hv0. destruct (bump _) as [c' p4].
  pose proof (entries_ok_insert _ _ _ _ Hm Hv Hv0).
  case_decide; [by simplify_eq/=|]. case_decide; simplify_eq/=. eauto.
Qed.

Lemma parse_object_ok levels pv p v p' :
  (∀ p v p', pv p = Ok (v, p') → parsed_ok levels v) →
  parse_object pv p = Ok (v, p') → parsed_ok (S levels) v.
Proof.
  intros Hpv. unfold parse_object. cbv zeta. case_decide.
  { intros [= <- <-]. split; simpl; [done|lia]. }
  intros H0.
  apply (loop_m_rule _ _ (λ st, entries_ok levels st.2)
           (λ r, ∃ m, r.1 = Object m ∧ entries_ok levels m)) in H0.
  - destruct H0 as (m & Hva & Hs & Hf). simpl in Hva. subst v. rewrite Forall_forall in Hf. split.
    + simpl. rewrite keys_sorted_true by done. simpl. apply andb_true_intro. split.
      * apply forallb_forall. intros k Hk.
        apply list_elem_of_In, list_elem_of_fmap in Hk as ([k' v'] & -> & Hk).
        apply (Hf _ Hk).
      * apply forallb_forall. intros kv Hkv. by apply Hf, list_elem_of_In.
    + simpl. assert (max_list ((λ kv, S (value_depth kv.2)) <$> m) ≤ levels)%nat; [|lia].
      apply max_list_fmap_lt. intros x Hx. destruct (Hf x Hx) as (_ & _ & Hd). simpl. lia.
  - intros st st' Hst Hs. by apply (parse_object_step_ok levels pv st (inl st')).
  - intros st r Hst Hs. by apply (parse_object_step_ok levels pv st (inr r)).
  - split; constructor.
Qed.

Lemma parse_value_ok levels p v p' :
  parse_value levels p = Ok (v, p') → parsed_ok levels v.
Proof.
  revert p v p'. induction levels as [|levels IH]; intros p v p'; simpl; [done|].
  destruct (peek p) as [c|]; [|done].
  case_decide; [by apply parse_object_ok|].
  case_decide; [by apply parse_array_ok|].
  case_decide.
  { intros Hs. inv_bind Hs. destruct v0 as [s q]. simplify_eq.
    apply parse_string_valid in Hv. split; simpl; [done|lia]. }
  repeat (case_decide; [intros H'; inv_bind H'; simplify_eq; split; simpl; [done|lia]|]).
  destruct (_ || _); [|done]. intros Hn. apply parse_number_wf in Hn as [Hw Hd].
  split; [done|rewrite Hd; lia].
Qed.

(** ** Properties *)

(** C19. What either serializer writes of a well-formed float-free value nested
    at most [MAX_DEPTH] deep, the strict parser reads back as that value: no
    byte of stored JSON, nor of an event id preimage, is lost or confused. *)
Theorem parse_strict_write_json {SF : SerdeFloat} esc v :
  value_wf false v = true → (value_depth v ≤ MAX_DEPTH)%nat →
  parse_strict (write_json esc v) = Ok v.
Proof. apply parse_strict_written. Qed.

(** The round trip on a concrete value: nested, with escapes and a negative
    number. *)
Definition sample_value : Value :=
  Object [(str "a", Array [Num (PosInt 1); Num (NegInt (-7)); Null]);
          (str "b", Str [34; 92; 10; 127; 195; 169])].

#[export] Instance toy_serde_float : SerdeFloat :=
  {| serde_f64_to_string := λ _, str "0.5" |}.

Lemma parse_strict_write_json_witness :
  parse_strict (write_json Tao sample_value) = Ok sample_value.
Proof. apply (parse_strict_write_json Tao sample_value); vm_compute; [done|lia]. Defined.

(** C34. Whatever text it accepts, the strict parser returns a well-formed value
    nested at most [MAX_DEPTH] deep: integers in range, valid UTF-8 strings, and
    every object in strictly increasing key order, so no key occurs twice. *)
Theorem parse_strict_wf txt v :
  parse_strict txt = Ok v → value_wf true v = true ∧ (value_depth v ≤ MAX_DEPTH)%nat.
Proof.
  unfold parse_strict. intros H. inv_bind H. destruct v0 as [w p].
  apply parse_value_ok in Hv as [Hw Hd]. case_decide; [done|]. simplify_eq.
  split; [done|lia].
Qed.

Lemma parse_strict_wf_witness :
  value_wf true (Object [(str "k", Bool true)]) = true ∧
  (value_depth (Object [(str "k", Bool true)]) ≤ MAX_DEPTH)%nat.
Proof.
  apply (parse_strict_wf ([123; 34; 107; 34] ++ str " : true }")). by vm_compute.
Defined.
