(* ===== verification/Crates.v ===== *)
(** * The third-party crates the sources call

    [hex], [sha2] and [secp256k1] are not part of the repository.  Each is a
    class of operations, an argument of the definitions that use it, with the
    documented behaviour the proofs rely on as a separate class of laws.  The
    instances at the end make the theorems that assume them applicable to
    concrete inputs: [hex] is given in full, the hash and the signature check
    are stand-ins with the right shapes. *)

From S2P Require Import Prelude Json.

Local Open Scope Z_scope.

(** ** hex *)

(** The two lowercase hex digits of a byte. *)
Definition byte_hex (b : Z) : bytes := [hex_char (b / 16); hex_char (b mod 16)].

(** [hex::encode], [hex::decode] and [hex::decode_to_slice] into a slice of the
    given length; an error is its [Display] text. *)
Class HexCrate : Type := {
  hex_encode : bytes → bytes;
  hex_decode : bytes → result text bytes;
  hex_decode_to_slice : nat → bytes → result text bytes;
}.

(** Encoding is lowercase; decoding accepts either case, every digit pair and
    nothing else; a slice is filled only by exactly as many bytes. *)
Class HexLaws `{!HexCrate} : Prop := {
  hex_encode_spec b : bytes_ok b → hex_encode b = b ≫= byte_hex;
  hex_decode_spec s b :
    bytes_ok s →
    hex_decode s = Ok b ↔ bytes_ok b ∧ to_ascii_lowercase s = b ≫= byte_hex;
  hex_decode_to_slice_spec n s b :
    bytes_ok s →
    hex_decode_to_slice n s = Ok b ↔ hex_decode s = Ok b ∧ length b = n;
}.

(** ** sha2 *)

(** [Sha256::new], [update], [finalize]. *)
Class Sha256 : Type := { sha256 : bytes → bytes }.

(** A digest is a [[u8; 32]]. *)
Class Sha256Laws `{!Sha256} : Prop := {
  sha256_length b : length (sha256 b) = 32%nat;
  sha256_ok b : bytes_ok (sha256 b);
}.

(** ** secp256k1 *)

(** Whether [XOnlyPublicKey::from_slice] and [schnorr::Signature::from_slice]
    accept their input, and whether [verify_schnorr] accepts a signature of a
    message under a key. *)
Class Secp256k1 : Type := {
  xonly_from_slice_ok : bytes → bool;
  schnorr_from_slice_ok : bytes → bool;
  verify_schnorr (sig msg pubkey : bytes) : bool;
}.

(** ** Concrete instances *)

Fixpoint hex_pairs (s : bytes) : option bytes :=
  match s with
  | [] => Some []
  | a :: b :: s =>
      match hex_digit a, hex_digit b, hex_pairs s with
      | Some x, Some y, Some r => Some (x * 16 + y :: r)
      | _, _, _ => None
      end
  | [_] => None
  end.

#[export] Instance hex_instance : HexCrate := {|
  hex_encode b := b ≫= byte_hex;
  hex_decode s := ok_or (hex_pairs s) (Text "invalid hex" []);
  hex_decode_to_slice n s :=
    match hex_pairs s with
    | Some b => if decide (length b = n) then Ok b
                else Err (Text "Invalid string length" [])
    | None => Err (Text "invalid hex" [])
    end;
|}.

(** ** Lemmas *)

Lemma hex_char_digit n :
  0 ≤ n < 16 → hex_digit (hex_char n) = Some n ∧ byte_ok (hex_char n).
Proof.
  intros Hn. pose proof (forall_range (λ n, bool_decide (hex_digit (hex_char n) = Some n)
    && (0 <=? hex_char n) && (hex_char n <? 256)) 16 ltac:(by vm_compute) n Hn) as H.
  cbv beta in H. bool_to_prop. unfold byte_ok. split; [done|lia].
Qed.

Lemma hex_char_lower n : 0 ≤ n < 16 → to_ascii_lowercase [hex_char n] = [hex_char n].
Proof.
  intros Hn. pose proof (forall_range (λ n, bool_decide
    (to_ascii_lowercase [hex_char n] = [hex_char n])) 16 ltac:(by vm_compute) n Hn) as H.
  cbv beta in H. by bool_to_prop.
Qed.

Lemma hex_digit_lower c n :
  byte_ok c → hex_digit c = Some n ↔ 0 ≤ n < 16 ∧ to_ascii_lowercase [c] = [hex_char n].
Proof.
  intros Hc. split.
  - intros Hd. pose proof (forall_range (λ c, match hex_digit c with
      | Some n => (0 <=? n) && (n <? 16) && bool_decide (to_ascii_lowercase [c] = [hex_char n])
      | None => true end) 256 ltac:(by vm_compute) c Hc) as H.
    cbv beta in H. rewrite Hd in H. bool_to_prop. split; [lia|done].
  - intros [Hn Hl].
    pose proof (forall_range (λ n, forallb (λ c,
      negb (bool_decide (to_ascii_lowercase [Z.of_nat c] = [hex_char n])) ||
      bool_decide (hex_digit (Z.of_nat c) = Some n)) (seq 0 256)) 16
      ltac:(by vm_compute) n Hn) as H.
    cbv beta in H. rewrite forallb_forall in H.
    specialize (H (Z.to_nat c)). unfold byte_ok in Hc. rewrite Z2Nat.id in H by lia.
    rewrite Hl in H. rewrite bool_decide_true in H by done.
    apply (bool_decide_eq_true_1 _), H, in_seq. lia.
Qed.

Lemma length_hex (b : bytes) : length (b ≫= byte_hex) = (2 * length b)%nat.
Proof. induction b as [|x b IH]; [done|]. rewrite bind_cons, length_app, IH. simpl. lia. Qed.

Lemma hex_bytes_ok b : bytes_ok b → bytes_ok (b ≫= byte_hex).
Proof.
  induction 1 as [|x b Hx Hb IH]; [constructor|]. unfold byte_ok in Hx.
  rewrite bind_cons. apply Forall_app_2; [|done].
  apply Forall_cons_2; [|apply Forall_singleton]; apply hex_char_digit; zlia.
Qed.

Lemma lower_hex b : bytes_ok b → to_ascii_lowercase (b ≫= byte_hex) = b ≫= byte_hex.
Proof.
  induction 1 as [|x b Hx Hb IH]; [done|]. unfold byte_ok in Hx.
  change ((x :: b) ≫= byte_hex) with ([hex_char (x / 16)] ++ [hex_char (x mod 16)] ++ (b ≫= byte_hex)).
  unfold to_ascii_lowercase in *. rewrite !fmap_app, IH.
  f_equal; [|f_equal]; apply hex_char_lower; zlia.
Qed.

Lemma byte_hex_inj_app x y r r' :
  byte_ok x → byte_ok y → byte_hex x ++ r = byte_hex y ++ r' → x = y ∧ r = r'.
Proof.
  unfold byte_ok. intros Hx Hy [= E1 E2 ->]. split; [|done].
  assert (0 ≤ x / 16 < 16) as Hx1 by zlia. assert (0 ≤ y / 16 < 16) as Hy1 by zlia.
  assert (0 ≤ x mod 16 < 16) as Hx2 by zlia. assert (0 ≤ y mod 16 < 16) as Hy2 by zlia.
  apply hex_char_digit in Hx1 as [Hx1 _], Hy1 as [Hy1 _], Hx2 as [Hx2 _], Hy2 as [Hy2 _].
  rewrite E1, Hy1 in Hx1. rewrite E2, Hy2 in Hx2. simplify_eq. zlia.
Qed.

Lemma hex_inj a b :
  bytes_ok a → bytes_ok b → a ≫= byte_hex = b ≫= byte_hex → a = b.
Proof.
  intros Ha. revert b. induction Ha as [|x a Hx Ha IH]; intros [|y b] Hb E; [done..|].
  apply Forall_cons in Hb as [Hy Hb].
  rewrite !bind_cons in E. apply byte_hex_inj_app in E as [-> E]; [|done..].
  f_equal. by apply IH.
Qed.

Lemma hex_pairs_spec s b :
  bytes_ok s →
  hex_pairs s = Some b ↔ bytes_ok b ∧ to_ascii_lowercase s = b ≫= byte_hex.
Proof.
  intros Hs. revert b. induction s as [s IH] using (induction_ltof1 _ (@length Z)).
  unfold ltof in IH. destruct s as [|x [|y s]]; intros b.
  - simpl. split; [by intros [= <-]|]. by destruct b as [|? ?]; intros [_ [=]].
  - simpl. split; [done|]. intros [_ E]. apply (f_equal length) in E.
    rewrite length_hex in E. simpl in E. lia.
  - apply Forall_cons in Hs as [Hx Hs]. apply Forall_cons in Hs as [Hy Hs].
    change (to_ascii_lowercase (x :: y :: s)) with
      (to_ascii_lowercase [x] ++ to_ascii_lowercase [y] ++ to_ascii_lowercase s).
    simpl hex_pairs. split.
    + destruct (hex_digit x) as [n|] eqn:Dx; [|done].
      destruct (hex_digit y) as [m|] eqn:Dy; [|done].
      destruct (hex_pairs s) as [r|] eqn:Dr; [|done]. intros [= <-].
      apply IH in Dr as [Hr ->]; [|simpl; lia|done].
      apply (hex_digit_lower x n Hx) in Dx as [Hn ->].
      apply (hex_digit_lower y m Hy) in Dy as [Hm ->].
      split; [constructor; [unfold byte_ok; zlia|done]|].
      rewrite bind_cons. assert (byte_hex (n * 16 + m) = [hex_char n; hex_char m]) as ->; [|done].
      unfold byte_hex. f_equal; [|f_equal]; f_equal; zlia.
    + destruct b as [|z b]; [by intros [_ [=]]|].
      intros [[Hz Hb]%Forall_cons E]. unfold byte_ok in Hz.
      change ((z :: b) ≫= byte_hex) with
        ([hex_char (z / 16)] ++ [hex_char (z mod 16)] ++ (b ≫= byte_hex)) in E.
      apply app_inj_1 in E as [E1 E]; [|done]. apply app_inj_1 in E as [E2 E]; [|done].
      assert (hex_digit x = Some (z / 16)) as -> by (apply hex_digit_lower; [done|split; [zlia|done]]).
      assert (hex_digit y = Some (z mod 16)) as -> by (apply hex_digit_lower; [done|split; [zlia|done]]).
      assert (hex_pairs s = Some b) as -> by (apply IH; [simpl; lia|done|done]).
      f_equal. f_equal. zlia.
Qed.

#[export] Instance hex_instance_laws : HexLaws.
Proof.
  split; [done|..].
  - intros s b Hs. simpl. rewrite ok_or_Ok. by apply hex_pairs_spec.
  - intros n s b Hs. simpl. rewrite ok_or_Ok.
    destruct (hex_pairs s) as [r|]; [|split; naive_solver].
    case_decide; naive_solver.
Qed.

(** A stand-in hash: 32 bytes that depend on the length and the sum of the
    input. *)
#[export] Instance toy_sha256 : Sha256 := {|
  sha256 b := to_le_bytes 32 (len b + 256 * foldr Z.add 0 b)
|}.

#[export] Instance toy_sha256_laws : Sha256Laws.
Proof. split; intros b; [apply length_to_le_bytes|apply to_le_bytes_ok]. Qed.

(** A stand-in signature check. *)
#[export] Instance toy_secp256k1 : Secp256k1 := {|
  xonly_from_slice_ok _ := true;
  schnorr_from_slice_ok _ := true;
  verify_schnorr sig msg pubkey := bool_decide (sig = msg ++ pubkey);
|}.

Section hex_lemmas.
Context {HC : HexCrate} {HX : HexLaws}.

Lemma hex_decode_encode b : bytes_ok b → hex_decode (hex_encode b) = Ok b.
Proof.
  intros Hb. rewrite hex_encode_spec by done.
  apply hex_decode_spec; [by apply hex_bytes_ok|]. split; [done|by apply lower_hex].
Qed.

Lemma hex_decode_Ok s b :
  bytes_ok s → hex_decode s = Ok b → bytes_ok b ∧ length s = (2 * length b)%nat.
Proof.
  intros Hs H. apply hex_decode_spec in H as [Hb E]; [|done]. split; [done|].
  rewrite <-length_hex, <-E. unfold to_ascii_lowercase. by rewrite length_fmap.
Qed.
End hex_lemmas.
