(* ===== verification/Kinds.v ===== *)
(** * Kinds, hex and addresses: wok-event's kinds.rs, lib.rs and the hex part of
    parse.rs

    The NIP-01 kind ranges, the hex readers of the event crate over the [hex]
    crate, and the [a] tag address [kind:pubkey:d].  The main result is that a
    canonical address has exactly one spelling. *)

From S2P Require Import Prelude Json Crates.

Local Open Scope Z_scope.

(** ** lib.rs *)

Definition MAX_SUBID_CHARS : nat := 64.
Definition MAX_INDEXED_TAG_VAL_SIZE : nat := 255.
Definition AUTH_KIND : Z := 22242.
Definition DELETION_KIND : Z := 5.
Definition GIFT_WRAP_KINDS : list Z := [1059; 21059].
Definition APP_DATA_KINDS : list Z := [78; 30078].
Definition REPOST_KINDS : list Z := [6; 16].
Definition PROTECTED_TAG : Z := ch "-".

(** ** kinds.rs *)

Definition is_replaceable_kind (kind : Z) : bool :=
  (kind =? 0) || (kind =? 3) || ((10000 <=? kind) && (kind <? 20000)).

Definition is_param_replaceable_kind (kind : Z) : bool :=
  (30000 <=? kind) && (kind <? 40000).

Definition is_ephemeral_kind (kind : Z) : bool :=
  (20000 <=? kind) && (kind <? 30000).

Section hex.
Context {HC : HexCrate}.

(** ** parse.rs: reading hex *)

Definition hex_error (e : text) : EventError := EventError_fmt "hex decode: {e}" [e].

Definition from_hex_impl (s : bytes) (allow_uneven : bool) : result EventError bytes :=
  let s := default s (strip_prefix (str "0x") s) in
  if negb (Nat.even (length s)) then
    if negb allow_uneven then Err (EventError_msg "uneven size input to from_hex")
    else map_err hex_error (hex_decode (ch "0" :: s))
  else map_err hex_error (hex_decode s).

Definition from_hex (s : bytes) : result EventError bytes := from_hex_impl s true.
Definition from_hex_exact (s : bytes) : result EventError bytes := from_hex_impl s false.

Definition from_hex_strict (s : bytes) : result EventError bytes :=
  if starts_with s (str "0x") || negb (Nat.even (length s))
  then Err (EventError_msg "hex must have an even length and no prefix")
  else map_err hex_error (hex_decode s).

Definition is_lower_hex (b : Z) : bool :=
  is_ascii_digit b || ((97 <=? b) && (b <=? 102)).

Definition from_lower_hex_exact (s : bytes) : result EventError bytes :=
  if negb (forallb is_lower_hex s) then Err (EventError_msg "hex must be lowercase ASCII")
  else from_hex_strict s.

(** [from_lower_hex_array::<N>] *)
Definition from_lower_hex_array (n : nat) (s : bytes) : result EventError bytes :=
  if negb (forallb is_lower_hex s) then Err (EventError_msg "hex must be lowercase ASCII")
  else map_err hex_error (hex_decode_to_slice n s).

Definition to_hex (b : bytes) : bytes := hex_encode b.

(** ** kinds.rs: addresses *)

Definition parse_a_tag (input : bytes) : result EventError (Z * bytes * bytes) :=
  '(kind_str, rest) ← ok_or (split_once (ch ":") input) (EventError_msg "parse error");
  if bool_decide (kind_str = []) || negb (forallb is_ascii_digit kind_str)
  then Err (EventError_msg "parse error")
  else
    kind ← ok_or (parse_u64_digits kind_str) (EventError_msg "parse error");
    if kind >? U16_MAX then Err (EventError_msg "parse error")
    else
      '(pubkey_str, d_tag) ← ok_or (split_once (ch ":") rest) (EventError_msg "parse error");
      if negb (length pubkey_str =? 64)%nat then Err (EventError_msg "parse error")
      else
        pubkey ← from_lower_hex_exact pubkey_str;
        Ok (kind, pubkey, d_tag).

Definition parse_canonical_a_tag (input : bytes)
    : result EventError (Z * bytes * bytes) :=
  address ← parse_a_tag input;
  if starts_with input (str "0") && negb (starts_with input (str "0:"))
  then Err (EventError_msg "a tag kind has leading zeros")
  else Ok address.
End hex.

(** The canonical spelling of an address. *)
Definition a_tag_text (kind : Z) (pubkey d : bytes) : bytes :=
  u64_to_string kind ++ [ch ":"] ++ (pubkey ≫= byte_hex) ++ [ch ":"] ++ d.

(** ** Lemmas *)

Lemma replaceable_not_addressable k :
  is_replaceable_kind k = true → is_param_replaceable_kind k = false.
Proof.
  unfold is_replaceable_kind, is_param_replaceable_kind. intros H.
  apply andb_false_iff. rewrite Z.leb_gt, Z.ltb_ge.
  bool_to_prop. destruct H as [H|H]; bool_to_prop; [|lia]. destruct H; bool_to_prop; lia.
Qed.

Lemma is_lower_hex_char n : 0 ≤ n < 16 → is_lower_hex (hex_char n) = true.
Proof.
  intros Hn. exact (forall_range (λ n, is_lower_hex (hex_char n)) 16
    ltac:(by vm_compute) n Hn).
Qed.

Lemma lower_hex_bytes b :
  bytes_ok b → forallb is_lower_hex (b ≫= byte_hex) = true.
Proof.
  induction 1 as [|x b Hx Hb IH]; [done|]. unfold byte_ok in Hx.
  rewrite bind_cons, forallb_app, IH. simpl.
  by rewrite !is_lower_hex_char by zlia.
Qed.

Lemma is_lower_hex_facts c :
  is_lower_hex c = true → byte_ok c ∧ to_ascii_lowercase [c] = [c] ∧ c ≠ ch "x".
Proof.
  unfold is_lower_hex, is_ascii_digit, byte_ok, to_ascii_lowercase. intros H.
  assert (48 ≤ c ≤ 57 ∨ 97 ≤ c ≤ 102) as Hc by (bool_to_prop; destruct H; bool_to_prop; lia).
  split; [lia|]. split; [|change (ch "x") with 120; lia].
  assert ((65 <=? c) && (c <=? 90) = false) as E
    by (apply andb_false_iff; rewrite !Z.leb_gt; lia).
  by cbn [fmap list_fmap]; rewrite E.
Qed.

Lemma lower_hex_ok s :
  forallb is_lower_hex s = true → bytes_ok s ∧ to_ascii_lowercase s = s.
Proof.
  induction s as [|c s IH]; cbn [forallb]; [done|]. intros [Hc Hs]%andb_prop.
  apply is_lower_hex_facts in Hc as (Hc & Hl & _). destruct (IH Hs) as [H1 H2].
  split; [by constructor|].
  change (to_ascii_lowercase (c :: s)) with (to_ascii_lowercase [c] ++ to_ascii_lowercase s).
  by rewrite Hl, H2.
Qed.

(** Lowercase hex never starts with [0x]. *)
Lemma lower_hex_no_prefix s :
  forallb is_lower_hex s = true → strip_prefix (str "0x") s = None.
Proof.
  intros H. destruct (strip_prefix _ _) as [r|] eqn:E; [|done].
  apply strip_prefix_Some in E as ->. done.
Qed.

(** The leading-zero test of [parse_canonical_a_tag] on digits and a colon. *)
Lemma canonical_of_no_zeros ks r n :
  parse_u64_digits ks = Some n →
  starts_with (ks ++ [ch ":"] ++ r) (str "0") &&
    negb (starts_with (ks ++ [ch ":"] ++ r) (str "0:")) = false →
  canonical_digits ks.
Proof.
  intros Hn Hz. apply parse_u64_digits_Some in Hn as (_ & Hd & _).
  destruct ks as [|x t]; [done|]. exists x, t. split; [done|].
  destruct (decide (x = 48)) as [->|]; [|by right]. left. destruct t as [|y t]; [done|].
  exfalso. apply andb_prop in Hd as [_ Hd]. cbn in Hd. apply andb_prop in Hd as [Hy _].
  unfold starts_with in Hz. cbn [app] in Hz.
  change (str "0:") with [48; 58] in Hz. change (str "0") with [48] in Hz.
  cbn [strip_prefix] in Hz. rewrite decide_True in Hz by done.
  destruct (decide (58 = y)) as [<-|]; done.
Qed.

Lemma u64_to_string_no_zeros n r :
  u64_ok n →
  starts_with (u64_to_string n ++ [ch ":"] ++ r) (str "0") &&
    negb (starts_with (u64_to_string n ++ [ch ":"] ++ r) (str "0:")) = false.
Proof.
  intros Hn. apply u64_to_string_spec in Hn as (_ & _ & (x & t & -> & [->|Hx]) & _).
  - apply andb_false_iff. unfold starts_with. cbn [app].
    change (str "0:") with [48; 58]. change (str "0") with [48]. cbn [strip_prefix].
    destruct (decide (48 = x)) as [<-|]; [right|left]; [|done].
    by rewrite decide_True by done.
  - apply andb_false_iff. left. unfold starts_with. change (str "0") with [48].
    cbn [app strip_prefix]. by rewrite decide_False.
Qed.

Section hex_lemmas.
Context {HC : HexCrate} {HX : HexLaws}.

Lemma from_lower_hex_array_Ok n s b :
  from_lower_hex_array n s = Ok b ↔ bytes_ok b ∧ s = b ≫= byte_hex ∧ length b = n.
Proof.
  unfold from_lower_hex_array. destruct (forallb is_lower_hex s) eqn:Hl; simpl.
  - pose proof (lower_hex_ok s Hl) as [Hs Hlow].
    assert (map_err hex_error (hex_decode_to_slice n s) = Ok b ↔
      hex_decode_to_slice n s = Ok b) as -> by (by destruct (hex_decode_to_slice n s); simpl; split; intros; simplify_eq).
    rewrite hex_decode_to_slice_spec, hex_decode_spec, Hlow by done. naive_solver.
  - split; [done|]. intros (Hb & -> & _). by rewrite lower_hex_bytes in Hl.
Qed.

Lemma from_lower_hex_exact_Ok s b :
  from_lower_hex_exact s = Ok b ↔ bytes_ok b ∧ s = b ≫= byte_hex.
Proof.
  unfold from_lower_hex_exact, from_hex_strict.
  destruct (forallb is_lower_hex s) eqn:Hl; simpl.
  - pose proof (lower_hex_ok s Hl) as [Hs Hlow]. unfold starts_with.
    rewrite lower_hex_no_prefix by done. simpl.
    destruct (Nat.even (length s)) eqn:He; simpl.
    + assert (map_err hex_error (hex_decode s) = Ok b ↔ hex_decode s = Ok b) as ->
        by (by destruct (hex_decode s); simpl; split; intros; simplify_eq).
      by rewrite hex_decode_spec, Hlow by done.
    + split; [done|]. intros [Hb ->]. by rewrite length_hex, Nat.even_mul in He.
  - split; [done|]. intros (Hb & ->). by rewrite lower_hex_bytes in Hl.
Qed.

(** What ingest reads as lowercase hex, strfry's reader reads alike. *)
Lemma from_hex_exact_lower s b :
  from_lower_hex_exact s = Ok b → from_hex_exact s = Ok b.
Proof.
  unfold from_lower_hex_exact, from_hex_strict, from_hex_exact, from_hex_impl.
  destruct (forallb is_lower_hex s) eqn:Hl; [|done]. unfold starts_with.
  rewrite lower_hex_no_prefix by done. simpl. by destruct (Nat.even (length s)).
Qed.

Lemma parse_a_tag_Ok s kind pk d :
  parse_a_tag s = Ok (kind, pk, d) ↔
  ∃ ks, s = ks ++ [ch ":"] ++ (pk ≫= byte_hex) ++ [ch ":"] ++ d ∧
    parse_u64_digits ks = Some kind ∧ kind ≤ U16_MAX ∧ bytes_ok pk ∧ length pk = 32%nat.
Proof.
  unfold parse_a_tag. split.
  - intros H. inv_bind H. destruct v as [ks r]. apply ok_or_Ok, split_once_Some in Hv as [-> Hks].
    destruct (_ || _) eqn:Hd; [done|]. inv_bind H. apply ok_or_Ok in Hv.
    destruct (v >? U16_MAX) eqn:Hle; [done|]. inv_bind H. destruct v0 as [ps d'].
    apply ok_or_Ok, split_once_Some in Hv0 as [-> Hps].
    destruct (length ps =? 64)%nat eqn:Hlen; [|done]. inv_bind H. simplify_eq.
    apply from_lower_hex_exact_Ok in Hv0 as [Hpk ->]. apply Nat.eqb_eq in Hlen.
    rewrite length_hex in Hlen. exists ks. rewrite Z.gtb_ltb in Hle. bool_to_prop.
    split_and!; [done..|lia].
  - intros (ks & -> & Hk & Hle & Hpk & Hlen).
    apply parse_u64_digits_Some in Hk as Hks.
    destruct Hks as (_ & [Hne Hdig]%andb_prop & _). bool_to_prop.
    assert (split_once (ch ":") (ks ++ [ch ":"] ++ (pk ≫= byte_hex) ++ [ch ":"] ++ d) =
      Some (ks, (pk ≫= byte_hex) ++ [ch ":"] ++ d)) as ->.
    { apply split_once_Some. split; [done|]. intros Hin.
      rewrite forallb_forall in Hdig. by specialize (Hdig _ (proj1 (list_elem_of_In _ _) Hin)). }
    simpl. rewrite bool_decide_false, Hdig by done. simpl. rewrite Hk. simpl.
    destruct (kind >? U16_MAX) eqn:E; [rewrite Z.gtb_ltb in E; bool_to_prop; lia|].
    assert (split_once (ch ":") ((pk ≫= byte_hex) ++ ch ":" :: d) =
      Some (pk ≫= byte_hex, d)) as ->.
    { apply split_once_Some. split; [done|]. intros Hin.
      pose proof (lower_hex_bytes pk Hpk) as Hf. rewrite forallb_forall in Hf.
      by specialize (Hf _ (proj1 (list_elem_of_In _ _) Hin)). }
    simpl. rewrite length_hex, Hlen. simpl.
    by rewrite (proj2 (from_lower_hex_exact_Ok (pk ≫= byte_hex) pk)).
Qed.

(** ** Properties *)

(** C38. Ingest's address reader accepts one spelling per address: a text parses
    to [(kind, pubkey, d)] exactly when it is the canonical text of that address,
    for a 16-bit kind and a 32-byte key.  So tombstones, keyed by the hash of the
    tag, are looked up under the text they were stored under. *)
Theorem parse_canonical_a_tag_spelling s kind pk d :
  parse_canonical_a_tag s = Ok (kind, pk, d) ↔
  s = a_tag_text kind pk d ∧ 0 ≤ kind ≤ U16_MAX ∧ bytes_ok pk ∧ length pk = 32%nat.
Proof.
  unfold parse_canonical_a_tag. split.
  - intros H. inv_bind H. destruct (_ && _) eqn:Hz; [done|]. simplify_eq.
    apply parse_a_tag_Ok in Hv as (ks & -> & Hks & Hle & Hpk & Hlen).
    pose proof (parse_u64_digits_Some _ _ Hks) as ([Hk _] & _).
    split_and!; [|done..]. unfold a_tag_text. f_equal.
    apply canonical_digits_unique; [|done]. by eapply canonical_of_no_zeros.
  - intros (-> & Hk & Hpk & Hlen).
    assert (u64_ok kind) as Hu by (unfold u64_ok, U64_MAX, U16_MAX in *; lia).
    rewrite (proj2 (parse_a_tag_Ok _ kind pk d)); simpl.
    + unfold a_tag_text. by rewrite u64_to_string_no_zeros.
    + exists (u64_to_string kind). split_and!; [done|by apply parse_u64_to_string|lia|done..].
Qed.
End hex_lemmas.

Lemma parse_canonical_a_tag_spelling_witness :
  parse_canonical_a_tag (a_tag_text 30000 (replicate 32 0xAB) (str "d")) =
    Ok (30000, replicate 32 0xAB, str "d").
Proof.
  apply parse_canonical_a_tag_spelling.
  split_and!; [done|unfold U16_MAX; lia..|by apply Forall_replicate|done].
Defined.
