(* ===== verification/Packed.v ===== *)
(** * PackedEvent: crates/wok-event/src/packed.rs

    The binary record of an event: a header of 88 bytes (id, pubkey, created_at,
    kind, expiration) and its indexable tags.  A [PackedEvent] and its view are
    the record's bytes; callbacks of the iterators are functions on an explicit
    state that say whether to go on. *)

From S2P Require Import Prelude Utf8 Json Crates Kinds.

Local Open Scope Z_scope.

Definition PACKED_HEADER_LEN : nat := 88.
Definition HASHED_TAG_VAL_MARKER : Z := 0xFF.

(** ** Tag values *)

Section packed.
Context {SH : Sha256}.

Definition indexed_tag_value (value : bytes) : bytes :=
  if (length value <=? MAX_INDEXED_TAG_VAL_SIZE)%nat then value
  else HASHED_TAG_VAL_MARKER :: sha256 value.
End packed.

Definition hashed_tag_value_digest (indexed : bytes) : option bytes :=
  match indexed with
  | m :: digest =>
      if (m =? HASHED_TAG_VAL_MARKER) && (length digest =? 32)%nat
      then Some digest else None
  | [] => None
  end.

(** ** The view *)

Abbreviation PackedEvent := bytes.
Abbreviation PackedEventView := bytes.

(** A [PackedEventTag]: its name and its value. *)
Abbreviation PackedEventTag := (Z * bytes)%type.

Definition PackedEventView_new (buf : bytes) : result EventError PackedEventView :=
  if (length buf <? PACKED_HEADER_LEN)%nat
  then Err (EventError_msg "PackedEventView too short") else Ok buf.

Definition PackedEvent_from_bytes (buf : bytes) : result EventError PackedEvent :=
  _ ← PackedEventView_new buf; Ok buf.

Definition PackedEventView_id (v : PackedEventView) : bytes := slice 0 32 v.
Definition PackedEventView_pubkey (v : PackedEventView) : bytes := slice 32 64 v.
Definition PackedEventView_created_at (v : PackedEventView) : Z :=
  from_ne_bytes (slice 64 72 v).
Definition PackedEventView_kind (v : PackedEventView) : Z :=
  from_ne_bytes (slice 72 80 v).
Definition PackedEventView_expiration (v : PackedEventView) : Z :=
  from_ne_bytes (slice 80 88 v).

(** The loop of [walk_tags] over the bytes [b] left; each iteration drops at
    least two of them. *)
Fixpoint walk_tags_loop {S} (cb : S → Z → bytes → bool → S * bool) (fuel : nat)
    (s : S) (b : bytes) : S :=
  match fuel, b with
  | Datatypes.S fuel, tag_name :: tag_len :: r =>
      let tag_len := Z.to_nat tag_len in
      if (length r <? tag_len)%nat then s
      else
        let val := take tag_len r in
        let rest := drop tag_len r in
        let '(s, go) := cb s tag_name val (bool_decide (rest = [])) in
        if go then walk_tags_loop cb fuel s rest else s
  | _, _ => s
  end.

Definition walk_tags {S} (cb : S → Z → bytes → bool → S * bool) (s : S)
    (v : PackedEventView) : S :=
  let b := drop PACKED_HEADER_LEN v in walk_tags_loop cb (length b) s b.

Definition foreach_tag {S} (cb : S → Z → bytes → S * bool) (s : S)
    (v : PackedEventView) : S :=
  walk_tags (λ s name val _, cb s name val) s v.

(** The closure [foreach_filter_tag] passes to [walk_tags]; its variables
    [first] and [d_seen] are part of the state. *)
Definition filter_tag_cb {S} (replaceable addressable : bool)
    (cb : S → Z → bytes → S * bool) (st : S * bool * bool) (name : Z) (val : bytes)
    (last : bool) : S * bool * bool * bool :=
  let '(s, first, d_seen) := st in
  let added := bool_decide (name = ch "d") && bool_decide (val = [])
    && ((replaceable && first) || (addressable && d_seen && last)) in
  let d_seen := d_seen || bool_decide (name = ch "d") in
  if added then ((s, false, d_seen), true)
  else let '(s, go) := cb s name val in ((s, false, d_seen), go).

Definition foreach_filter_tag {S} (cb : S → Z → bytes → S * bool) (s : S)
    (v : PackedEventView) : S :=
  let kind := PackedEventView_kind v in
  let replaceable := is_replaceable_kind kind in
  let addressable := is_param_replaceable_kind kind in
  let '(s, _, _) :=
    walk_tags (filter_tag_cb replaceable addressable cb) (s, true, false) v in
  s.

Definition PackedEventView_tags (v : PackedEventView) : list PackedEventTag :=
  foreach_tag (λ out name value, (out ++ [(name, value)], true)) [] v.

Definition first_d_tag (v : PackedEventView) : option bytes :=
  foreach_tag (λ found name val,
    if decide (name = ch "d") then (Some val, false) else (found, true)) None v.

(** ** The builders *)

Definition PackedEventTagBuilder_add (buf : bytes) (tag_key : Z) (tag_val : bytes)
    : result EventError bytes :=
  if (255 <? length tag_val)%nat then Err (EventError_msg "tagVal too long")
  else Ok (buf ++ [wrap8 tag_key; wrap8 (len tag_val)] ++ tag_val).

Definition PackedEventBuilder_build (id pubkey : bytes) (created_at kind expiration : Z)
    (tags : bytes) : result EventError PackedEvent :=
  if negb (length id =? 32)%nat then Err (EventError_msg "unexpected id size")
  else if negb (length pubkey =? 32)%nat then Err (EventError_msg "unexpected pubkey size")
  else Ok (id ++ pubkey ++ to_ne_bytes created_at ++ to_ne_bytes kind
             ++ to_ne_bytes expiration ++ tags).

Definition is_event_a_before_event_b (a b : PackedEventView) : bool :=
  (PackedEventView_created_at a <? PackedEventView_created_at b)
  || ((PackedEventView_created_at a =? PackedEventView_created_at b)
      && bool_decide (bytes_cmp (PackedEventView_id a) (PackedEventView_id b) = Gt)).

(** ** Reference: the tags as a list *)

Definition encode_tag (t : PackedEventTag) : bytes := t.1 :: len t.2 :: t.2.
Definition encode_tags (l : list PackedEventTag) : bytes := l ≫= encode_tag.

Definition tag_ok (t : PackedEventTag) : Prop := byte_ok t.1 ∧ (length t.2 ≤ 255)%nat.

(** Going through a list of tags, each with whether it is the last. *)
Fixpoint walk_list {S} (cb : S → Z → bytes → bool → S * bool) (s : S)
    (l : list PackedEventTag) : S :=
  match l with
  | [] => s
  | (n, v) :: l =>
      let '(s, go) := cb s n v (bool_decide (l = [])) in
      if go then walk_list cb s l else s
  end.

(** The tags of the event itself: the list without the empty [d] that packing
    adds first for replaceable kinds and last for addressable ones, which keeps
    it when the event has no [d] of its own. *)
Definition own_tags (kind : Z) (l : list PackedEventTag) : list PackedEventTag :=
  if is_replaceable_kind kind then
    match l with
    | t :: l' => if decide (t = (ch "d", [])) then l' else l
    | [] => []
    end
  else if is_param_replaceable_kind kind then
    if decide (last l = Some (ch "d", []) ∧ ch "d" ∈ (removelast l).*1)
    then removelast l else l
  else l.

(** ** Lemmas: walking encoded tags *)

Lemma encode_tags_app l k : encode_tags (l ++ k) = encode_tags l ++ encode_tags k.
Proof. apply bind_app. Qed.

Lemma encode_tags_nil l : encode_tags l = [] ↔ l = [].
Proof. by destruct l. Qed.

Lemma walk_tags_loop_encode {S} (cb : S → Z → bytes → bool → S * bool) l :
  Forall tag_ok l → ∀ fuel s, (length (encode_tags l) ≤ fuel)%nat →
  walk_tags_loop cb fuel s (encode_tags l) = walk_list cb s l.
Proof.
  induction 1 as [|[n v] l [Hn Hv] Hl IH]; intros fuel s Hf; [by destruct fuel|].
  unfold encode_tags in *. rewrite bind_cons in *. cbn [fst snd encode_tag app] in *.
  destruct fuel as [|fuel]; [simpl in Hf; lia|]. cbn [walk_tags_loop walk_list].
  rewrite Nat2Z.id. simpl in Hf. rewrite length_app in Hf.
  destruct (_ <? _)%nat eqn:E; [rewrite Nat.ltb_lt, length_app in E; lia|].
  rewrite take_app_length, drop_app_length.
  rewrite (bool_decide_ext _ (l = [])) by apply encode_tags_nil.
  destruct (cb _ _ _ _) as [s' []]; [|done]. apply IH. lia.
Qed.

Lemma wrap8_small n : 0 ≤ n < 256 → wrap8 n = n.
Proof. intros. unfold wrap8. by apply Z.mod_small. Qed.

Lemma PackedEventTagBuilder_add_Ok buf k v buf' :
  byte_ok k →
  PackedEventTagBuilder_add buf k v = Ok buf' ↔
  (length v ≤ 255)%nat ∧ buf' = buf ++ encode_tag (k, v).
Proof.
  intros Hk. unfold PackedEventTagBuilder_add.
  destruct (255 <? length v)%nat eqn:E.
  - apply Nat.ltb_lt in E. split; [done|lia].
  - apply Nat.ltb_ge in E. rewrite !wrap8_small; [|lia|done].
    split; [by intros [= <-]|by intros [_ ->]].
Qed.

(** The tags a record's bytes hold, with junk-free encoding. *)
Definition record_tags (v : PackedEventView) (l : list PackedEventTag) : Prop :=
  Forall tag_ok l ∧ drop PACKED_HEADER_LEN v = encode_tags l.

Lemma walk_tags_list {S} (cb : S → Z → bytes → bool → S * bool) s v l :
  record_tags v l → walk_tags cb s v = walk_list cb s l.
Proof.
  intros [Hl Hd]. unfold walk_tags. cbv zeta. rewrite Hd.
  by apply walk_tags_loop_encode.
Qed.

Lemma walk_list_collect (out l : list PackedEventTag) :
  walk_list (λ out name value _, (out ++ [(name, value)], true)) out l = out ++ l.
Proof.
  revert out. induction l as [|[n v] l IH]; intros out; simpl; [by rewrite app_nil_r|].
  rewrite IH, <-app_assoc. done.
Qed.

Lemma PackedEventView_tags_list v l : record_tags v l → PackedEventView_tags v = l.
Proof.
  intros H. unfold PackedEventView_tags, foreach_tag.
  rewrite (walk_tags_list _ _ v l H). apply walk_list_collect.
Qed.

(** ** Lemmas: the header *)

Lemma PackedEventBuilder_build_Ok id pk c k e tags p :
  PackedEventBuilder_build id pk c k e tags = Ok p ↔
  length id = 32%nat ∧ length pk = 32%nat ∧
  p = id ++ pk ++ to_ne_bytes c ++ to_ne_bytes k ++ to_ne_bytes e ++ tags.
Proof.
  unfold PackedEventBuilder_build.
  destruct (length id =? 32)%nat eqn:Hid; [apply Nat.eqb_eq in Hid|apply Nat.eqb_neq in Hid];
    [|split; [done|tauto]].
  destruct (length pk =? 32)%nat eqn:Hpk; [apply Nat.eqb_eq in Hpk|apply Nat.eqb_neq in Hpk];
    [|split; [done|tauto]].
  cbn [negb]. split; [|intros (_ & _ & ->); done].
  intros H. split_and!; [done..|congruence].
Qed.

Section header.
Context (id pk tags : bytes) (c k e : Z).
Hypotheses (Hid : length id = 32%nat) (Hpk : length pk = 32%nat).
Hypotheses (Hc : u64_ok c) (Hk : u64_ok k) (He : u64_ok e).

Let p := id ++ pk ++ to_ne_bytes c ++ to_ne_bytes k ++ to_ne_bytes e ++ tags.

Lemma built_id : PackedEventView_id p = id.
Proof. unfold PackedEventView_id, slice, p. by rewrite drop_0, take_app_length' by lia. Qed.

Lemma built_pubkey : PackedEventView_pubkey p = pk.
Proof.
  unfold PackedEventView_pubkey, slice, p.
  rewrite drop_app_length' by done. by rewrite take_app_length' by done.
Qed.

Local Lemma drop_header n x y :
  length x = n → drop (n + length (id ++ pk)) (id ++ pk ++ x ++ y) = y.
Proof.
  intros <-. rewrite (app_assoc id), (app_assoc _ x), drop_app_length'; [done|].
  rewrite !length_app. lia.
Qed.

Lemma built_created_at : PackedEventView_created_at p = c.
Proof.
  unfold PackedEventView_created_at, slice.
  pose proof (drop_header 0 [] (to_ne_bytes c ++ to_ne_bytes k ++ to_ne_bytes e ++ tags) eq_refl) as H.
  rewrite length_app, Hid, Hpk in H. cbn [app Nat.add] in H. unfold p. rewrite H.
  rewrite take_app_length' by done. by apply from_to_ne_bytes.
Qed.

Lemma built_kind : PackedEventView_kind p = k.
Proof.
  unfold PackedEventView_kind, slice.
  pose proof (drop_header 8 (to_ne_bytes c) (to_ne_bytes k ++ to_ne_bytes e ++ tags)
    ltac:(apply length_to_ne_bytes)) as H.
  rewrite length_app, Hid, Hpk in H. cbn [Nat.add] in H. unfold p. rewrite H.
  rewrite take_app_length' by done. by apply from_to_ne_bytes.
Qed.

Lemma built_expiration : PackedEventView_expiration p = e.
Proof.
  unfold PackedEventView_expiration, slice.
  pose proof (drop_header 16 (to_ne_bytes c ++ to_ne_bytes k) (to_ne_bytes e ++ tags)
    ltac:(by rewrite length_app, !length_to_ne_bytes)) as H.
  rewrite length_app, Hid, Hpk, <-app_assoc in H. cbn [Nat.add] in H. unfold p. rewrite H.
  rewrite take_app_length' by done. by apply from_to_ne_bytes.
Qed.

Lemma built_tags : drop PACKED_HEADER_LEN p = tags.
Proof.
  pose proof (drop_header 24 (to_ne_bytes c ++ to_ne_bytes k ++ to_ne_bytes e) tags
    ltac:(by rewrite !length_app, !length_to_ne_bytes)) as H.
  rewrite length_app, Hid, Hpk, <-!app_assoc in H. exact H.
Qed.

Lemma built_new : PackedEventView_new p = Ok p.
Proof.
  unfold PackedEventView_new, p. rewrite !length_app, !length_to_ne_bytes, Hid, Hpk.
  by destruct (_ <? _)%nat eqn:E; [apply Nat.ltb_lt in E; unfold PACKED_HEADER_LEN in E; lia|].
Qed.
End header.

(** ** Lemmas: the tags filters see *)

Section filter_tags.
Context {S : Type} (cb : S → Z → bytes → S * bool).

Let cb' : S → Z → bytes → bool → S * bool := λ s n v _, cb s n v.

Local Lemma cb_eq s n v b : cb' s n v b = cb s n v.
Proof. done. Qed.

Lemma filter_tag_cb_eq r a s f d n v last :
  filter_tag_cb r a cb (s, f, d) n v last =
  let added := bool_decide (n = ch "d") && bool_decide (v = [])
    && ((r && f) || (a && d && last)) in
  let d := d || bool_decide (n = ch "d") in
  if added then ((s, false, d), true)
  else let '(s, go) := cb s n v in ((s, false, d), go).
Proof. done. Qed.

Lemma filter_tag_cb_plain r l s f d :
  r && f = false →
  (walk_list (filter_tag_cb r false cb) (s, f, d) l).1.1 = walk_list cb' s l.
Proof.
  revert s f d. induction l as [|[n v] l IH]; intros s f d Hf; [done|].
  cbn [walk_list]. rewrite filter_tag_cb_eq, Hf. cbv zeta. cbn [orb andb].
  rewrite andb_false_r. rewrite cb_eq. destruct (cb s n v) as [s' []]; [|done].
  apply IH. apply andb_false_r.
Qed.

Lemma filter_tag_cb_replaceable l s :
  (walk_list (filter_tag_cb true false cb) (s, true, false) l).1.1 =
  walk_list cb' s
    (match l with t :: l' => if decide (t = (ch "d", [])) then l' else l | [] => [] end).
Proof.
  destruct l as [|[n v] l]; [done|]. cbn [walk_list]. rewrite filter_tag_cb_eq. cbv zeta.
  cbn [andb orb]. rewrite andb_true_r. case_decide as E.
  - simplify_eq. rewrite !bool_decide_true by done. cbn [andb].
    by apply filter_tag_cb_plain.
  - assert (bool_decide (n = ch "d") && bool_decide (v = []) = false) as ->.
    { apply not_true_is_false. intros [H1 H2]%andb_prop. bool_to_prop. by subst. }
    cbn [walk_list]. rewrite cb_eq. destruct (cb s n v) as [s' []]; [|done].
    by apply filter_tag_cb_plain.
Qed.

(** The list without its final added [d], given whether a [d] came before. *)
Definition drop_last_d (d_seen : bool) (l : list PackedEventTag) : list PackedEventTag :=
  if decide (last l = Some (ch "d", []) ∧ (d_seen = true ∨ ch "d" ∈ (removelast l).*1))
  then removelast l else l.

Lemma drop_last_d_cons d n v t l :
  drop_last_d d ((n, v) :: t :: l) =
  (n, v) :: drop_last_d (d || bool_decide (n = ch "d")) (t :: l).
Proof.
  unfold drop_last_d. change (last ((n, v) :: t :: l)) with (last (t :: l)).
  change (removelast ((n, v) :: t :: l)) with ((n, v) :: removelast (t :: l)).
  rewrite fmap_cons. cbn [fst].
  repeat case_decide; try done; exfalso;
    match goal with H : ¬ _ |- _ => apply H; clear H end;
    (split; [tauto|]); rewrite ?elem_of_cons, ?orb_true_iff, ?bool_decide_eq_true in *;
    naive_solver.
Qed.

Lemma filter_tag_cb_addressable l s f d :
  (walk_list (filter_tag_cb false true cb) (s, f, d) l).1.1 =
  walk_list cb' s (drop_last_d d l).
Proof.
  revert s f d. induction l as [|[n v] l IH]; intros s f d; [by unfold drop_last_d; case_decide|].
  cbn [walk_list]. rewrite filter_tag_cb_eq. cbv zeta. cbn [andb orb].
  destruct l as [|t l].
  - rewrite (bool_decide_true ([] = [])), andb_true_r by done. unfold drop_last_d.
    cbn [last removelast]. case_decide as E.
    + destruct E as [[= -> ->] [->|Hin]]; [done|]. by apply elem_of_nil in Hin.
    + assert (bool_decide (n = ch "d") && bool_decide (v = []) && d = false) as ->.
      { apply not_true_is_false. intros [[H1 H2]%andb_prop H3]%andb_prop. bool_to_prop.
        subst. apply E. auto. }
      cbn [walk_list]. rewrite cb_eq. by destruct (cb s n v) as [s' []].
  - rewrite (bool_decide_false (t :: l = [])), !andb_false_r by done.
    rewrite drop_last_d_cons. cbn [walk_list]. rewrite cb_eq.
    destruct (cb s n v) as [s' []]; [|done]. apply IH.
Qed.

Lemma foreach_filter_tag_list s v l :
  record_tags v l →
  foreach_filter_tag cb s v = walk_list cb' s (own_tags (PackedEventView_kind v) l).
Proof.
  intros Hl. unfold foreach_filter_tag, own_tags. cbv zeta. rewrite (walk_tags_list _ _ v l Hl).
  set (k := PackedEventView_kind v).
  transitivity ((walk_list (filter_tag_cb (is_replaceable_kind k)
    (is_param_replaceable_kind k) cb) (s, true, false) l).1.1); [by destruct (walk_list _ _ _) as [[??]?]|].
  destruct (is_replaceable_kind k) eqn:Hr.
  - rewrite replaceable_not_addressable by done. apply filter_tag_cb_replaceable.
  - destruct (is_param_replaceable_kind k).
    + rewrite filter_tag_cb_addressable. f_equal. unfold drop_last_d.
      repeat case_decide; naive_solver.
    + by apply filter_tag_cb_plain.
Qed.
End filter_tags.

(** ** Lemmas: building, order, indexed values *)

Definition add_tag (buf : bytes) (t : PackedEventTag) : result EventError bytes :=
  PackedEventTagBuilder_add buf t.1 t.2.

Lemma add_tags_Ok buf l buf' :
  Forall (λ t, byte_ok t.1) l →
  try_fold add_tag buf l = Ok buf' → Forall tag_ok l ∧ buf' = buf ++ encode_tags l.
Proof.
  intros Hl. revert buf. induction Hl as [|[n v] l Hn Hl IH]; intros buf H; simpl in H.
  - simplify_eq. by rewrite app_nil_r.
  - inv_bind H. apply PackedEventTagBuilder_add_Ok in Hv as [Hv ->]; [|done].
    apply IH in H as [Hok ->]. split; [by constructor|].
    unfold encode_tags. by rewrite bind_cons, <-app_assoc.
Qed.

Lemma before_spec a b :
  is_event_a_before_event_b a b = true ↔
  PackedEventView_created_at a < PackedEventView_created_at b ∨
  PackedEventView_created_at a = PackedEventView_created_at b ∧
  cmp_lt bytes_cmp (PackedEventView_id b) (PackedEventView_id a).
Proof.
  unfold is_event_a_before_event_b.
  rewrite orb_true_iff, andb_true_iff, Z.ltb_lt, Z.eqb_eq, bool_decide_eq_true.
  pose proof (cmp_gt_lt bytes_cmp (PackedEventView_id a) (PackedEventView_id b)).
  unfold cmp_lt. tauto.
Qed.

Lemma utf8_encode_no_marker c : char_ok c → HASHED_TAG_VAL_MARKER ∉ utf8_encode c.
Proof.
  unfold char_ok, utf8_encode, HASHED_TAG_VAL_MARKER. intros Hc.
  repeat case_decide; rewrite ?not_elem_of_cons; split_and?; try apply not_elem_of_nil; zlia.
Qed.

Lemma utf8_no_marker s : utf8_valid s = true → HASHED_TAG_VAL_MARKER ∉ s.
Proof.
  rewrite utf8_valid_spec. intros (cs & Hcs & ->). unfold from_chars.
  rewrite list_elem_of_bind. intros (c & Hc & Hin). rewrite Forall_forall in Hcs.
  by apply (utf8_encode_no_marker c); [apply Hcs|].
Qed.

(** A tag value that packing may see: text, or the 32 raw bytes of an [e] or
    [p] id. *)
Definition packable (v : bytes) : Prop := utf8_valid v = true ∨ length v = 32%nat.

(** ** Properties *)

(** C37. A record built from header fields and tags reads back: the view accepts
    it, every header field is the one given, and the tags are the ones added, in
    order. *)
Theorem packed_roundtrip id pk c k e l tb p :
  u64_ok c → u64_ok k → u64_ok e → Forall (λ t, byte_ok t.1) l →
  try_fold add_tag [] l = Ok tb → PackedEventBuilder_build id pk c k e tb = Ok p →
  PackedEvent_from_bytes p = Ok p ∧
  PackedEventView_id p = id ∧ PackedEventView_pubkey p = pk ∧
  PackedEventView_created_at p = c ∧ PackedEventView_kind p = k ∧
  PackedEventView_expiration p = e ∧ PackedEventView_tags p = l.
Proof.
  intros Hc Hk He Hl Htb Hp. apply add_tags_Ok in Htb as [Hok ->]; [|done].
  apply PackedEventBuilder_build_Ok in Hp as (Hid & Hpk & ->).
  unfold PackedEvent_from_bytes. rewrite built_new by done.
  split; [done|]. rewrite built_id, built_pubkey, built_created_at, built_kind, built_expiration by done.
  split_and!; [done..|]. apply PackedEventView_tags_list. split; [done|]. by apply built_tags.
Qed.

Lemma packed_roundtrip_witness :
  PackedEventView_tags (default [] (result_ok (PackedEventBuilder_build
    (replicate 32 1) (replicate 32 2) 7 30000 0
    (default [] (result_ok (try_fold add_tag [] [(ch "e", replicate 32 9); (ch "d", str "x")])))))) =
    [(ch "e", replicate 32 9); (ch "d", str "x")].
Proof.
  apply (packed_roundtrip (replicate 32 1) (replicate 32 2) 7 30000 0
    [(ch "e", replicate 32 9); (ch "d", str "x")]
    (default [] (result_ok (try_fold add_tag [] [(ch "e", replicate 32 9); (ch "d", str "x")])))).
  1-3: by unfold u64_ok, U64_MAX.
  - by repeat constructor.
  - by vm_compute.
  - by vm_compute.
Defined.

(** The replacement order is a strict total order on events up to their
    [created_at] and id: no event is before itself, the relation is transitive,
    and of two events one is before the other unless both fields agree. *)
Theorem before_strict_total a b c :
  is_event_a_before_event_b a a = false ∧
  (is_event_a_before_event_b a b = true → is_event_a_before_event_b b c = true →
    is_event_a_before_event_b a c = true) ∧
  (is_event_a_before_event_b a b = true ∨ is_event_a_before_event_b b a = true ∨
    PackedEventView_created_at a = PackedEventView_created_at b ∧
    PackedEventView_id a = PackedEventView_id b).
Proof.
  split_and!.
  - apply not_true_is_false. rewrite before_spec. unfold cmp_lt. rewrite (cmp_refl bytes_cmp). naive_solver lia.
  - rewrite !before_spec. intros [?|[-> ?]] [?|[E ?]]; [left; lia..|right].
    split; [done|]. by eapply cmp_lt_trans.
  - rewrite !before_spec. unfold cmp_lt.
    destruct (Z.lt_trichotomy (PackedEventView_created_at a) (PackedEventView_created_at b))
      as [?|[E|?]]; [by left; left|rewrite E|by right; left; left].
    destruct (bytes_cmp (PackedEventView_id b) (PackedEventView_id a)) eqn:F; [|by left; right|].
    + apply (cmp_eq_iff (cmp:=bytes_cmp)) in F. by right; right.
    + apply (cmp_gt_lt bytes_cmp) in F. by right; left; right.
Qed.

Section indexed.
Context {SH : Sha256} {SL : Sha256Laws}.

(** The packed form of a tag value names the value: the hashed form is
    recognised exactly on long values, so it never equals a value packed as is,
    and two values share a packed form only when equal or, both being long, when
    their hashes collide. *)
Theorem indexed_tag_value_names v w :
  packable v → packable w →
  hashed_tag_value_digest (indexed_tag_value v) =
    (if decide (MAX_INDEXED_TAG_VAL_SIZE < length v)%nat then Some (sha256 v) else None) ∧
  (indexed_tag_value v = indexed_tag_value w →
    v = w ∨ (MAX_INDEXED_TAG_VAL_SIZE < length v)%nat ∧
      (MAX_INDEXED_TAG_VAL_SIZE < length w)%nat ∧ sha256 v = sha256 w).
Proof.
  intros Hv Hw.
  assert (∀ u d, packable u → (length u ≤ 255)%nat → length d = 32%nat →
    u ≠ HASHED_TAG_VAL_MARKER :: d) as Hno.
  { intros u d [Hu|Hu] Hlen Hd ->; [|simpl in Hu; lia].
    apply utf8_no_marker in Hu. apply Hu. by left. }
  pose proof (sha256_length v) as Lv. pose proof (sha256_length w) as Lw.
  unfold indexed_tag_value, MAX_INDEXED_TAG_VAL_SIZE.
  destruct (length v <=? 255)%nat eqn:Ev; [apply Nat.leb_le in Ev|apply Nat.leb_gt in Ev].
  - rewrite decide_False by lia. split.
    + destruct v as [|m v]; [done|]. simpl. destruct (_ && _) eqn:E; [|done].
      apply andb_prop in E as [->%Z.eqb_eq E%Nat.eqb_eq]. by destruct (Hno _ v Hv Ev E).
    + destruct (length w <=? 255)%nat; [by left|]. intros ->. by destruct (Hno _ _ Hv Ev Lw).
  - rewrite decide_True by lia. split; [simpl; by rewrite Lv|].
    destruct (length w <=? 255)%nat eqn:Ew; [apply Nat.leb_le in Ew|apply Nat.leb_gt in Ew].
    + intros <-. by destruct (Hno _ _ Hw Ew Lv).
    + intros [= E]. by right.
Qed.
End indexed.
