(* ===== verification/EventParse.v ===== *)
(** * Packing and normalizing event JSON: crates/wok-event/src/parse.rs

    [pack_event] reads an event's JSON into its [PackedEvent]; [normalize_event_json]
    writes the seven authenticated fields in key order.  The hex readers of the
    same file are in Kinds.  The main result here is what packing writes: the
    tags of the record are the event's own single-letter tags, with the added
    empty [d] of replaceable and addressable kinds. *)

From S2P Require Import Prelude Utf8 Json Crates Kinds Packed.

Local Open Scope Z_scope.

Definition DEFAULT_MAX_EVENT_SIZE : nat := Z.to_nat (1024 * 1024).
Definition DEFAULT_MAX_NUM_TAGS : nat := Z.to_nat 5000.
Definition MIN_REPRESENTABLE_EXPIRATION : Z := 100.

Record EventLimits : Type := mkEventLimits {
  max_event_size : nat;
  max_num_tags : nat;
  max_tag_val_size : nat;
}.

Definition EventLimits_default : EventLimits :=
  mkEventLimits DEFAULT_MAX_EVENT_SIZE DEFAULT_MAX_NUM_TAGS (Z.to_nat 1024).

Record ParsedEvent : Type := mkParsedEvent { packed : PackedEvent; json : bytes }.

Definition json_get_string (v : Value) (err : string) : result EventError bytes :=
  ok_or (as_str v) (EventError_msg err).

Definition json_get_unsigned (v : Value) (err : string) : result EventError Z :=
  match v with
  | Num n => match as_u64 (Num n) with
             | Some u => Ok u
             | None => Err (EventError_msg err)
             end
  | _ => Err (EventError_msg err)
  end.

Definition json_get_array (v : Value) (err : string) : result EventError (list Value) :=
  ok_or (as_array v) (EventError_msg err).

Definition parse_uint64 (s : bytes) : result EventError Z :=
  if bool_decide (s = []) || negb (forallb is_ascii_digit s)
  then Err (EventError_fmt "invalid uint64: {s}" [TBytes s])
  else ok_or (parse_u64_digits s) (EventError_fmt "invalid uint64: {s}" [TBytes s]).

(** [tag.first().and_then(Value::as_str) == Some(name)] *)
Definition tag_named (name : string) (tag : list Value) : bool :=
  bool_decide ((head tag ≫= as_str) = Some (str name)).

Definition expiration_tag (v : Value) : option Z :=
  tags ← value_get v "tags" ≫= as_array;
  tag ← List.find (tag_named "expiration") (omap as_array tags);
  value ← tag !! 1%nat ≫= as_str;
  result_ok (parse_uint64 value).

Section pack.
Context {HC : HexCrate} {SH : Sha256}.

(** The loop variables of [pack_event]. *)
Record pack_state : Type := mkPackState {
  tag_builder : bytes;
  expiration : Z;
  address_d_seen : bool;
}.

(** The single-letter branch of the loop: the checks on the value and the tag
    it packs. *)
Definition pack_single_letter (limits : EventLimits) (kind : Z) (pubkey : bytes)
    (st : pack_state) (tag_name tag_val : bytes) : result EventError pack_state :=
  if (max_tag_val_size limits <? length tag_val)%nat then
    Err (EventError_limit TagValSize "tag val too large: {}" [TNum (len tag_val)])
  else
    let name := default 0 (head tag_name) in
    let is_address := bool_decide (tag_name = str "d") && negb (address_d_seen st) in
    let address_d_seen := address_d_seen st || is_address in
    let a_tag_len := (length (u64_to_string kind) + 1 + 64 + 1 + length tag_val)%nat in
    if is_address && (max_tag_val_size limits <? a_tag_len)%nat then
      Err (EventError_limit TagValSize
             "d tag too large: its a tag would be {a_tag_len} bytes" [TNum (Z.of_nat a_tag_len)])
    else if bool_decide (tag_name = str "e") || bool_decide (tag_name = str "p") then
      if negb (length tag_val =? 64)%nat then
        Err (EventError_fmt "unexpected size for fixed-size tag: {tag_name}" [TBytes tag_name])
      else
        raw ← from_lower_hex_array 32 tag_val;
        if (length raw <=? MAX_INDEXED_TAG_VAL_SIZE)%nat then
          tb ← PackedEventTagBuilder_add (tag_builder st) name raw;
          Ok (mkPackState tb (expiration st) address_d_seen)
        else Ok (mkPackState (tag_builder st) (expiration st) address_d_seen)
    else
      _ ← (if bool_decide (tag_name = str "a") && (kind =? 5) then
             '(_, tag_pubkey, _) ← parse_a_tag tag_val;
             if bool_decide (tag_pubkey ≠ pubkey)
             then Err (EventError_msg "can't delete other user's events") else Ok tt
           else Ok tt);
      tb ← PackedEventTagBuilder_add (tag_builder st) name (indexed_tag_value tag_val);
      Ok (mkPackState tb (expiration st) address_d_seen).

(** One iteration of the loop over the tags. *)
Definition pack_tag (limits : EventLimits) (kind : Z) (pubkey : bytes)
    (st : pack_state) (tag_arr : Value) : result EventError pack_state :=
  tag ← json_get_array tag_arr "tag in tags field was not an array";
  if bool_decide (tag = []) then Err (EventError_msg "too few fields in tag")
  else if existsb (λ element, negb (is_string element)) tag then
    Err (EventError_msg "all tag elements must be strings")
  else
    tag_name ← json_get_string (default Null (tag !! 0%nat)) "tag name was not a string";
    tag_val ← (if (2 <=? length tag)%nat
               then json_get_string (default Null (tag !! 1%nat)) "tag val was not a string"
               else Ok []);
    if (length tag_name =? 1)%nat then
      pack_single_letter limits kind pubkey st tag_name tag_val
    else if bool_decide (tag_name = str "expiration") && (expiration st =? 0) then
      e ← parse_uint64 tag_val;
      if e <? MIN_REPRESENTABLE_EXPIRATION then Err (EventError_msg "invalid expiration")
      else Ok (mkPackState (tag_builder st) e (address_d_seen st))
    else Ok st.

(** A required field of the event object. *)
Definition event_field (v : Value) (key missing : string) : result EventError Value :=
  ok_or (value_get v key) (EventError_msg missing).

Definition pack_event (v : Value) (limits : EventLimits)
    : result EventError (PackedEvent * Z) :=
  if negb (is_object v) then Err (EventError_msg "event is not an object")
  else
    id_hex ← (f ← event_field v "id" "missing id"; json_get_string f "event id field was not a string");
    if negb (length id_hex =? 64)%nat then Err (EventError_msg "unexpected id size") else
    id ← from_lower_hex_array 32 id_hex;
    pubkey_hex ← (f ← event_field v "pubkey" "missing pubkey";
                  json_get_string f "event pubkey field was not a string");
    if negb (length pubkey_hex =? 64)%nat then Err (EventError_msg "unexpected pubkey size") else
    pubkey ← from_lower_hex_array 32 pubkey_hex;
    created_at ← (f ← event_field v "created_at" "missing created_at";
                  json_get_unsigned f "event created_at field was not an integer");
    kind ← (f ← event_field v "kind" "missing kind";
            json_get_unsigned f "event kind field was not an integer");
    if kind >? U16_MAX then Err (EventError_msg "event kind must be between 0 and 65535") else
    _ ← (f ← event_field v "content" "missing content";
         json_get_string f "event content field was not a string");
    tb ← (if is_replaceable_kind kind
          then PackedEventTagBuilder_add [] (ch "d") [] else Ok []);
    tags ← (f ← event_field v "tags" "missing tags"; json_get_array f "tags field not an array");
    if (max_num_tags limits <? length tags)%nat then
      Err (EventError_limit NumTags "too many tags: {}" [TNum (len tags)])
    else
      st ← try_fold (pack_tag limits kind pubkey)
             (mkPackState tb 0 (negb (is_param_replaceable_kind kind))) tags;
      tb ← (if is_param_replaceable_kind kind
            then PackedEventTagBuilder_add (tag_builder st) (ch "d") []
            else Ok (tag_builder st));
      let packed_expiration := if is_ephemeral_kind kind then 1 else expiration st in
      packed ← PackedEventBuilder_build id pubkey created_at kind packed_expiration tb;
      Ok (packed, expiration st).

Definition nostr_json_to_packed_event (v : Value) (limits : EventLimits)
    : result EventError PackedEvent :=
  fst <$> pack_event v limits.
End pack.

Section normalize.
Context {SF : SerdeFloat}.

Definition normalized_keys : list string :=
  ["content"; "created_at"; "id"; "kind"; "pubkey"; "sig"; "tags"].

Definition normalize_step (orig : Value) (json : bytes) (ik : nat * string)
    : result EventError bytes :=
  let '(index, key) := ik in
  v ← ok_or (value_get orig key) (EventError_fmt "missing {key}" [TBytes (str key)]);
  Ok (json ++ (if negb (index =? 0)%nat then str "," else []) ++ [34] ++ str key
        ++ [34; 58] ++ write_tao v).

Definition normalize_event_json (orig : Value) : result EventError bytes :=
  json ← try_fold (normalize_step orig) (str "{") (imap pair normalized_keys);
  Ok (json ++ str "}").
End normalize.

(** ** Reference: the tags of an event and what packing makes of them *)

(** The JSON of a list of string tags. *)
Definition tags_value (tags : list (list bytes)) : Value :=
  Array ((λ t, Array (Str <$> t)) <$> tags).

(** A tag's value: its second element, empty when it has none. *)
Definition tag_value (tag : list bytes) : bytes := default [] (tag !! 1%nat).

Definition fixed_size_name (n : Z) : bool :=
  bool_decide (n = ch "e") || bool_decide (n = ch "p").

Definition first_expiration_tag (tags : list (list bytes)) : option (list bytes) :=
  List.find (λ t, bool_decide (head t = Some (str "expiration"))) tags.

(** The time of the first [expiration] tag, 0 without one. *)
Definition first_expiration (tags : list (list bytes)) : Z :=
  match first_expiration_tag tags with
  | Some t => default 0 (parse_u64_digits (tag_value t))
  | None => 0
  end.

(** Every [expiration] tag that counts is a time of at least 100. *)
Definition expiration_ok (tags : list (list bytes)) : Prop :=
  ∀ t, first_expiration_tag tags = Some t →
    ∃ n, parse_u64_digits (tag_value t) = Some n ∧ MIN_REPRESENTABLE_EXPIRATION ≤ n.

(** The empty [d] added before the tags of a replaceable event, and after those
    of an addressable one. *)
Definition added_first (kind : Z) : list PackedEventTag :=
  if is_replaceable_kind kind then [(ch "d", [])] else [].
Definition added_last (kind : Z) : list PackedEventTag :=
  if is_param_replaceable_kind kind then [(ch "d", [])] else [].

Section pack_spec.
Context {HC : HexCrate} {SH : Sha256}.

(** How a value is packed: [e] and [p] ids as their bytes, others as
    [indexed_tag_value]. *)
Definition packed_value (n : Z) (v : bytes) : bytes :=
  if fixed_size_name n then default [] (result_ok (hex_decode v))
  else indexed_tag_value v.

(** The packed form of a tag: only single-letter tags are packed. *)
Definition pack_own (tag : list bytes) : option PackedEventTag :=
  match head tag with
  | Some [n] => Some (n, packed_value n (tag_value tag))
  | _ => None
  end.

(** What packing checks of one tag. *)
Definition tag_accepted (limits : EventLimits) (kind : Z) (pubkey : bytes)
    (tag : list bytes) : Prop :=
  tag ≠ [] ∧
  ∀ n, head tag = Some [n] →
    (length (tag_value tag) ≤ max_tag_val_size limits)%nat ∧
    (fixed_size_name n = true →
      ∃ raw, bytes_ok raw ∧ length raw = 32%nat ∧ tag_value tag = raw ≫= byte_hex) ∧
    (n = ch "a" → kind = 5 → ∃ k d, parse_a_tag (tag_value tag) = Ok (k, pubkey, d)).

(** The first [d] tag, which names the address of an addressable event. *)
Definition first_d (tags : list (list bytes)) : option (list bytes) :=
  List.find (λ t, bool_decide (head t = Some (str "d"))) tags.

(** The [a] tag of the address fits the limit on tag values. *)
Definition address_fits (limits : EventLimits) (kind : Z) (tags : list (list bytes)) : Prop :=
  ∀ t, first_d tags = Some t →
    (length (u64_to_string kind) + 66 + length (tag_value t) ≤ max_tag_val_size limits)%nat.

(** Everything a successful [pack_event] establishes: the event's fields, and
    the record it built from them. *)
Record packs (v : Value) (limits : EventLimits) (p : PackedEvent) (e : Z)
    (id pk : bytes) (c k : Z) (tags : list (list bytes)) : Prop := {
  packs_id : value_get v "id" = Some (Str (id ≫= byte_hex)) ∧ bytes_ok id ∧ length id = 32%nat;
  packs_pubkey : value_get v "pubkey" = Some (Str (pk ≫= byte_hex)) ∧ bytes_ok pk ∧ length pk = 32%nat;
  packs_created_at : value_get v "created_at" = Some (Num (PosInt c));
  packs_kind : value_get v "kind" = Some (Num (PosInt k)) ∧ k ≤ U16_MAX;
  packs_content : ∃ s, value_get v "content" = Some (Str s);
  packs_tags : value_get v "tags" = Some (tags_value tags) ∧
    (length tags ≤ max_num_tags limits)%nat ∧ Forall (tag_accepted limits k pk) tags;
  packs_expiration : expiration_ok tags ∧ e = first_expiration tags;
  packs_address : is_param_replaceable_kind k = true → address_fits limits k tags;
  packs_record : p = id ++ pk ++ to_ne_bytes c ++ to_ne_bytes k
    ++ to_ne_bytes (if is_ephemeral_kind k then 1 else e)
    ++ encode_tags (added_first k ++ omap pack_own tags ++ added_last k);
}.
End pack_spec.

(** ** Lemmas *)

Lemma json_get_string_Ok v err s : json_get_string v err = Ok s ↔ v = Str s.
Proof. unfold json_get_string. rewrite ok_or_Ok. destruct v; simpl; naive_solver. Qed.

Lemma json_get_array_Ok v err a : json_get_array v err = Ok a ↔ v = Array a.
Proof. unfold json_get_array. rewrite ok_or_Ok. destruct v; simpl; naive_solver. Qed.

Lemma json_get_unsigned_Ok v err n : json_get_unsigned v err = Ok n ↔ v = Num (PosInt n).
Proof. destruct v as [| |[] | | |]; simpl; naive_solver. Qed.

Lemma parse_uint64_Ok s n : parse_uint64 s = Ok n ↔ parse_u64_digits s = Some n.
Proof.
  unfold parse_uint64, parse_u64_digits, all_digits.
  destruct (bool_decide (s = [])), (forallb is_ascii_digit s); simpl; try naive_solver.
  by rewrite ok_or_Ok.
Qed.

(** A non-empty array of strings. *)
Lemma strings_of_values (l : list Value) :
  existsb (λ x, negb (is_string x)) l = false → ∃ tag, l = Str <$> tag.
Proof.
  induction l as [|x l IH]; simpl; [by exists []|].
  intros [Hx Hl]%orb_false_iff. destruct (IH Hl) as [tag ->].
  destruct x; try done. by exists (s :: tag).
Qed.

Lemma lookup_Str (tag : list bytes) i s : (Str <$> tag) !! i = Some (Str s) ↔ tag !! i = Some s.
Proof. rewrite list_lookup_fmap. destruct (tag !! i); simpl; naive_solver. Qed.

(** The name and value [pack_tag] reads off an array of strings. *)
Lemma tag_fields (name : bytes) (tag : list bytes) e1 e2 n v :
  json_get_string (default Null ((Str <$> name :: tag) !! 0%nat)) e1 = Ok n →
  (if (2 <=? length (Str <$> name :: tag))%nat
   then json_get_string (default Null ((Str <$> name :: tag) !! 1%nat)) e2
   else Ok []) = Ok v →
  n = name ∧ v = tag_value (name :: tag).
Proof.
  rewrite json_get_string_Ok. simpl. intros [= ->] H. split; [done|].
  destruct tag as [|w tag]; simpl in H; [by simplify_eq|].
  by apply json_get_string_Ok in H as [= ->].
Qed.

Lemma utf8_valid_bytes_ok s : utf8_valid s = true → bytes_ok s.
Proof. rewrite utf8_valid_spec. intros (cs & Hcs & ->). by apply from_chars_ok. Qed.

Lemma wf_strings b (tag : list bytes) :
  value_wf b (Array (Str <$> tag)) = true → Forall bytes_ok tag.
Proof.
  simpl. rewrite forallb_forall. intros H. apply Forall_forall. intros s Hs.
  apply utf8_valid_bytes_ok. apply (H (Str s)). apply list_elem_of_In.
  by apply list_elem_of_fmap_2.
Qed.

Section pack_lemmas.
Context {HC : HexCrate} {HX : HexLaws} {SH : Sha256} {SL : Sha256Laws}.

Lemma length_indexed_tag_value v : (length (indexed_tag_value v) ≤ 255)%nat.
Proof.
  unfold indexed_tag_value, MAX_INDEXED_TAG_VAL_SIZE. destruct (_ <=? _)%nat eqn:E.
  - by apply Nat.leb_le in E.
  - simpl. rewrite sha256_length. lia.
Qed.

Lemma packed_value_fixed n raw :
  fixed_size_name n = true → bytes_ok raw → packed_value n (raw ≫= byte_hex) = raw.
Proof.
  intros Hn Hraw. unfold packed_value. rewrite Hn.
  rewrite <-hex_encode_spec by done. by rewrite hex_decode_encode.
Qed.

Lemma pack_own_ok limits k pk tag t :
  tag_accepted limits k pk tag → Forall bytes_ok tag → pack_own tag = Some t → tag_ok t.
Proof.
  intros [_ Hacc] Hok. unfold pack_own. destruct (head tag) as [[|n [|]]|] eqn:Hh; try done.
  intros [= <-]. destruct tag as [|name tag]; [done|]. simpl in Hh. simplify_eq.
  split; simpl; [by apply Forall_cons in Hok as [[]%Forall_cons _]|].
  destruct (Hacc n eq_refl) as (_ & Hfix & _).
  unfold packed_value. destruct (fixed_size_name n) eqn:Hn; [|apply length_indexed_tag_value].
  destruct (Hfix eq_refl) as (raw & Hraw & Hlen & ->).
  rewrite <-hex_encode_spec, hex_decode_encode by done. simpl. lia.
Qed.

Lemma pack_single_letter_Ok limits kind pk st n v st' :
  byte_ok n → pack_single_letter limits kind pk st [n] v = Ok st' →
  ((length v ≤ max_tag_val_size limits)%nat ∧
   (fixed_size_name n = true →
     ∃ raw, bytes_ok raw ∧ length raw = 32%nat ∧ v = raw ≫= byte_hex) ∧
   (n = ch "a" → kind = 5 → ∃ k d, parse_a_tag v = Ok (k, pk, d))) ∧
  (address_d_seen st = false → n = ch "d" →
    (length (u64_to_string kind) + 66 + length v ≤ max_tag_val_size limits)%nat) ∧
  tag_builder st' = tag_builder st ++ encode_tag (n, packed_value n v) ∧
  expiration st' = expiration st ∧
  address_d_seen st' = address_d_seen st || bool_decide (n = ch "d").
Proof.
  intros Hn. unfold pack_single_letter. cbv zeta.
  destruct (_ <? length v)%nat eqn:Hlen; [done|]. apply Nat.ltb_ge in Hlen.
  assert (∀ s c, str s = [c] → bool_decide ([n] = str s) = bool_decide (n = c)) as Hname.
  { intros s c ->. apply bool_decide_ext. naive_solver. }
  rewrite (Hname "d" (ch "d") eq_refl), (Hname "e" (ch "e") eq_refl),
    (Hname "p" (ch "p") eq_refl), (Hname "a" (ch "a") eq_refl). clear Hname.
  destruct (_ && _) eqn:Hfit in |- *; [done|]. change (default 0 (head [n])) with n.
  assert (address_d_seen st = false → n = ch "d" →
    (length (u64_to_string kind) + 66 + length v ≤ max_tag_val_size limits)%nat) as Hd.
  { intros Hs ->. rewrite Hs in Hfit. rewrite bool_decide_true in Hfit by done.
    cbn [andb negb] in Hfit. apply Nat.ltb_ge in Hfit. lia. }
  assert (address_d_seen st || bool_decide (n = ch "d") && negb (address_d_seen st) =
    address_d_seen st || bool_decide (n = ch "d")) as ->.
  { by destruct (address_d_seen st), (bool_decide (n = ch "d")). }
  fold (fixed_size_name n). destruct (fixed_size_name n) eqn:Hf.
  - destruct (length v =? 64)%nat; [|done]. cbn [negb]. intros H. inv_bind H.
    apply from_lower_hex_array_Ok in Hv as (Hraw & -> & H32).
    destruct (length v0 <=? MAX_INDEXED_TAG_VAL_SIZE)%nat eqn:E;
      [|apply Nat.leb_gt in E; unfold MAX_INDEXED_TAG_VAL_SIZE in E; lia].
    inv_bind H. apply PackedEventTagBuilder_add_Ok in Hv as [_ ->]; [|done]. simplify_eq/=.
    rewrite packed_value_fixed by done. split_and!; eauto.
    intros ->. done.
  - intros H. inv_bind H. inv_bind H. apply PackedEventTagBuilder_add_Ok in Hv0 as [_ ->]; [|done].
    simplify_eq/=. unfold packed_value. rewrite Hf. split_and!; try done.
    intros -> ->. rewrite bool_decide_true in Hv by done. cbn [andb] in Hv.
    rewrite Z.eqb_refl in Hv. inv_bind Hv. destruct v1 as [[k' pk'] d].
    destruct (bool_decide (pk' ≠ pk)) eqn:E; [done|]. bool_to_prop.
    exists k', d. by rewrite <-(dec_stable E).
Qed.

(** One iteration: the tag it accepted and what it added. *)
Lemma pack_tag_Ok limits kind pk st x st' :
  value_wf true x = true → pack_tag limits kind pk st x = Ok st' →
  ∃ tag, x = Array (Str <$> tag) ∧ tag_accepted limits kind pk tag ∧ Forall bytes_ok tag ∧
    tag_builder st' = tag_builder st ++ encode_tags (option_list (pack_own tag)) ∧
    (head tag = Some (str "d") → address_d_seen st = false →
      (length (u64_to_string kind) + 66 + length (tag_value tag) ≤ max_tag_val_size limits)%nat) ∧
    address_d_seen st' = address_d_seen st || bool_decide (head tag = Some (str "d")) ∧
    (if bool_decide (head tag = Some (str "expiration")) && (expiration st =? 0)
     then parse_u64_digits (tag_value tag) = Some (expiration st') ∧
       MIN_REPRESENTABLE_EXPIRATION ≤ expiration st'
     else expiration st' = expiration st).
Proof.
  intros Hwf H. unfold pack_tag in H. inv_bind H. apply json_get_array_Ok in Hv as ->.
  destruct (bool_decide (v = [])) eqn:Hne; [done|]. bool_to_prop.
  destruct (existsb _ v) eqn:Hstr; [done|]. apply strings_of_values in Hstr as [tag ->].
  assert (Forall bytes_ok tag) as Hok by (by eapply wf_strings).
  destruct tag as [|name tag]; [done|]. inv_bind H. inv_bind H.
  destruct (tag_fields _ _ _ _ _ _ Hv Hv0) as [-> ->]. clear Hv Hv0.
  exists (name :: tag). cbn [head]. split; [done|].
  destruct (length name =? 1)%nat eqn:Hl1.
  - apply Nat.eqb_eq in Hl1. destruct name as [|n [|]]; try done.
    assert (byte_ok n) as Hn by (by apply Forall_cons in Hok as [[]%Forall_cons _]).
    apply pack_single_letter_Ok in H as (Hacc & Hd & Htb & He & Hs); [|done].
    rewrite (bool_decide_false (Some [n] = Some (str "expiration"))) by done.
    cbn [andb]. split; [split; [done|]; by intros m [= <-]|]. split; [done|].
    split; [rewrite Htb; unfold pack_own; cbn; by rewrite app_nil_r|].
    assert (Some [n] = Some (str "d") ↔ n = ch "d") as Hnd by (split; [by intros [= ->]|by intros ->]).
    split; [by intros ->%Hnd Hs'; apply Hd|]. split; [|done]. rewrite Hs. f_equal.
    by apply bool_decide_ext.
  - apply Nat.eqb_neq in Hl1.
    assert (∀ n, name ≠ [n]) as Hname by (by intros n ->).
    assert (pack_own (name :: tag) = None) as Hown
      by (by unfold pack_own; cbn; destruct name as [|? [|]]).
    rewrite Hown. change (encode_tags (option_list None)) with (@nil Z). rewrite app_nil_r.
    split; [split; [done|]; intros m [= ->]; by destruct (Hname m)|]. split; [done|].
    rewrite (bool_decide_false (Some name = Some (str "d"))) by (intros [= ->]; by apply (Hname 100)).
    rewrite orb_false_r.
    assert (bool_decide (Some name = Some (str "expiration")) =
      bool_decide (name = str "expiration")) as -> by (apply bool_decide_ext; naive_solver).
    destruct (_ && _).
    + inv_bind H. destruct (v <? _) eqn:E; [done|]. simplify_eq/=. bool_to_prop.
      apply parse_uint64_Ok in Hv. split_and!; try done. intros [= ->]. by destruct (Hname 100).
    + simplify_eq. split_and!; try done. intros [= ->]. by destruct (Hname 100).
Qed.
Lemma omap_cons_list {A B} (f : A → option B) x l :
  omap f (x :: l) = option_list (f x) ++ omap f l.
Proof. simpl. by destruct (f x). Qed.

Lemma address_fits_cons limits kind t tags :
  address_fits limits kind (t :: tags) ↔
  if bool_decide (head t = Some (str "d"))
  then (length (u64_to_string kind) + 66 + length (tag_value t) ≤ max_tag_val_size limits)%nat
  else address_fits limits kind tags.
Proof.
  unfold address_fits, first_d. cbn [List.find].
  destruct (bool_decide _); [|done]. split; [auto|by intros H ? [= <-]].
Qed.

(** The whole loop over the tags. *)
Lemma pack_tags_Ok limits kind pk xs st st' :
  forallb (value_wf true) xs = true →
  try_fold (pack_tag limits kind pk) st xs = Ok st' →
  ∃ tags, xs = (λ t, Array (Str <$> t)) <$> tags ∧
    Forall (tag_accepted limits kind pk) tags ∧ Forall (Forall bytes_ok) tags ∧
    tag_builder st' = tag_builder st ++ encode_tags (omap pack_own tags) ∧
    (address_d_seen st = false → address_fits limits kind tags) ∧
    (if expiration st =? 0 then expiration_ok tags ∧ expiration st' = first_expiration tags
     else expiration st' = expiration st).
Proof.
  revert st. induction xs as [|x xs IH]; intros st Hwf H; simpl in H.
  - simplify_eq. exists []. cbn. rewrite app_nil_r. split_and!; try constructor; try done.
    destruct (_ =? 0) eqn:E; [|done]. by bool_to_prop.
  - inv_bind H. cbn in Hwf. apply andb_prop in Hwf as [Hx Hwf].
    apply pack_tag_Ok in Hv as (tag & -> & Hacc & Hok & Htb & Hd & Hds & He); [|done].
    apply IH in H as (tags & -> & Haccs & Hoks & Htbs & Hds' & Hes); [|done].
    exists (tag :: tags). split; [done|]. split; [by constructor|]. split; [by constructor|].
    split; [by rewrite Htbs, Htb, omap_cons_list, encode_tags_app, <-app_assoc|].
    split.
    + intros Hs. rewrite address_fits_cons. destruct (bool_decide _) eqn:E; bool_to_prop; [auto|].
      apply Hds'. by rewrite Hds, Hs.
    + unfold expiration_ok, first_expiration, first_expiration_tag in *. cbn [List.find].
      destruct (bool_decide (head tag = Some (str "expiration"))), (expiration st =? 0) eqn:Ez;
        cbn [andb] in He.
      * destruct He as [Hp Hmin]. unfold MIN_REPRESENTABLE_EXPIRATION in *.
        destruct (expiration v =? 0) eqn:Ev; bool_to_prop; [lia|].
        split; [intros t [= <-]; eauto|]. by rewrite Hes, Hp.
      * by rewrite He, Ez in Hes.
      * by rewrite He, Ez in Hes.
      * by rewrite He, Ez in Hes.
Qed.

Lemma map_get_elem {V} (m : list (bytes * V)) k v : map_get m k = Some v → (k, v) ∈ m.
Proof.
  induction m as [|[k' v'] m IH]; simpl; [done|]. case_decide; [|right; auto].
  intros [= ->]. subst. left.
Qed.

Lemma value_get_wf b v k x :
  value_wf b v = true → value_get v k = Some x → value_wf b x = true.
Proof.
  destruct v as [| | | | |m]; try done. simpl. intros [_ H]%andb_prop Hx%map_get_elem.
  rewrite forallb_forall in H. by apply (H (str k, x)), list_elem_of_In.
Qed.

Lemma event_field_Ok v key missing x :
  event_field v key missing = Ok x ↔ value_get v key = Some x.
Proof. apply ok_or_Ok. Qed.

Lemma added_first_Ok kind tb :
  (if is_replaceable_kind kind then PackedEventTagBuilder_add [] (ch "d") [] else Ok []) = Ok tb ↔
  tb = encode_tags (added_first kind).
Proof. unfold added_first. destruct (is_replaceable_kind kind); cbn; naive_solver. Qed.

Lemma added_last_Ok kind buf tb :
  (if is_param_replaceable_kind kind then PackedEventTagBuilder_add buf (ch "d") [] else Ok buf) = Ok tb ↔
  tb = buf ++ encode_tags (added_last kind).
Proof.
  unfold added_last. destruct (is_param_replaceable_kind kind); cbn; [naive_solver|].
  rewrite app_nil_r. naive_solver.
Qed.

Lemma pack_event_packs v limits p e :
  value_wf true v = true → pack_event v limits = Ok (p, e) →
  ∃ id pk c k tags, packs v limits p e id pk c k tags ∧ Forall (Forall bytes_ok) tags.
Proof.
  intros Hwf H. unfold pack_event in H. destruct (is_object v); [|done]. cbn [negb] in H.
  inv_bind H. inv_bind Hv. apply event_field_Ok in Hv0 as Hid. apply json_get_string_Ok in Hv as ->.
  destruct (length v0 =? 64)%nat; [|done]. cbn [negb] in H. inv_bind H.
  apply from_lower_hex_array_Ok in Hv as (Hidok & -> & Hidl). clear Hv0. rename v1 into id.
  inv_bind H. inv_bind Hv. apply event_field_Ok in Hv0 as Hpk. apply json_get_string_Ok in Hv as ->.
  destruct (length v0 =? 64)%nat; [|done]. cbn [negb] in H. inv_bind H.
  apply from_lower_hex_array_Ok in Hv as (Hpkok & -> & Hpkl). clear Hv0. rename v1 into pk.
  inv_bind H. inv_bind Hv. apply event_field_Ok in Hv0 as Hc. apply json_get_unsigned_Ok in Hv as ->.
  inv_bind H. inv_bind Hv. apply event_field_Ok in Hv1 as Hk. apply json_get_unsigned_Ok in Hv as ->.
  rename v0 into c, v1 into k. clear Hv0 Hv1.
  destruct (k >? U16_MAX) eqn:Hmax; [done|]. rewrite Z.gtb_ltb in Hmax. bool_to_prop.
  inv_bind H. inv_bind Hv. apply event_field_Ok in Hv0 as Hcontent. apply json_get_string_Ok in Hv as ->.
  inv_bind H. apply added_first_Ok in Hv as ->.
  inv_bind H. inv_bind Hv. apply event_field_Ok in Hv1 as Htags. apply json_get_array_Ok in Hv as ->.
  destruct (_ <? length v1)%nat eqn:Hnum; [done|]. apply Nat.ltb_ge in Hnum.
  inv_bind H. apply pack_tags_Ok in Hv as (tags & -> & Hacc & Hok & Htb & Hfits & Hexp);
    [|by apply (value_get_wf true v "tags" (Array v1))].
  inv_bind H. apply added_last_Ok in Hv as ->. inv_bind H.
  apply PackedEventBuilder_build_Ok in Hv as (_ & _ & ->). simplify_eq.
  cbn [expiration] in Hexp. rewrite Z.eqb_refl in Hexp. destruct Hexp as [Hexp1 Hexp2].
  exists id, pk, c, k, tags. split; [|done]. rewrite length_fmap in Hnum. split; try done; eauto.
  - intros Ha. apply Hfits. cbn. by rewrite Ha.
  - rewrite Htb, Hexp2. cbn [tag_builder]. by rewrite !encode_tags_app, <-app_assoc.
Qed.
End pack_lemmas.

(** The event's tags as filters see them, collected. *)
Definition filter_tags (v : PackedEventView) : list PackedEventTag :=
  foreach_filter_tag (λ out name value, (out ++ [(name, value)], true)) [] v.

Lemma filter_tags_own v l :
  record_tags v l → filter_tags v = own_tags (PackedEventView_kind v) l.
Proof.
  intros H. unfold filter_tags. rewrite (foreach_filter_tag_list _ _ v l H).
  apply walk_list_collect.
Qed.

(** Taking the added [d] away again leaves the event's own tags, and the empty
    address of an addressable event that names none. *)
Lemma own_tags_added k own :
  own_tags k (added_first k ++ own ++ added_last k) =
  own ++ (if is_param_replaceable_kind k && negb (bool_decide (ch "d" ∈ own.*1))
          then [(ch "d", [])] else []).
Proof.
  unfold own_tags, added_first, added_last.
  destruct (is_replaceable_kind k) eqn:Hr.
  - rewrite replaceable_not_addressable by done. cbn [app andb]. by rewrite decide_True, app_nil_r.
  - destruct (is_param_replaceable_kind k); cbn [app andb]; [|by rewrite !app_nil_r].
    rewrite last_snoc, removelast_last.
    destruct (bool_decide (ch "d" ∈ own.*1)) eqn:E; bool_to_prop; cbn [negb].
    + by rewrite decide_True, app_nil_r.
    + by rewrite decide_False by naive_solver.
Qed.

Lemma find_fmap {A B} (f : A → B) (P : B → bool) (Q : A → bool) l :
  (∀ x, P (f x) = Q x) → List.find P (f <$> l) = f <$> List.find Q l.
Proof.
  intros H. induction l as [|x l IH]; [done|]. cbn. rewrite H. by destruct (Q x).
Qed.

Lemma omap_as_array (tags : list (list bytes)) :
  omap as_array ((λ t : list bytes, Array (Str <$> t)) <$> tags) =
  (λ t : list bytes, Str <$> t) <$> tags.
Proof. induction tags as [|t tags IH]; [done|]. cbn. by f_equal. Qed.

Lemma tag_named_strings name (t : list bytes) :
  tag_named name (Str <$> t) = bool_decide (head t = Some (str name)).
Proof. unfold tag_named. apply bool_decide_ext. destruct t; cbn; naive_solver. Qed.

Lemma find_tag_named name (tags : list (list bytes)) :
  List.find (tag_named name) (omap as_array ((λ t : list bytes, Array (Str <$> t)) <$> tags)) =
  (λ t : list bytes, Str <$> t) <$> List.find (λ t, bool_decide (head t = Some (str name))) tags.
Proof. rewrite omap_as_array. apply (find_fmap (λ t : list bytes, Str <$> t)), tag_named_strings. Qed.

Lemma first_expiration_u64 tags : u64_ok (first_expiration tags).
Proof.
  unfold first_expiration. destruct (first_expiration_tag tags) as [t|]; [|by unfold u64_ok, U64_MAX].
  destruct (parse_u64_digits (tag_value t)) as [n|] eqn:E; [|by unfold u64_ok, U64_MAX].
  apply parse_u64_digits_Some in E. naive_solver.
Qed.

Section pack_view.
Context {HC : HexCrate} {HX : HexLaws} {SH : Sha256} {SL : Sha256Laws}.

Lemma packs_view v limits p e id pk c k tags :
  value_wf true v = true → packs v limits p e id pk c k tags → Forall (Forall bytes_ok) tags →
  0 ≤ k ∧ PackedEventView_id p = id ∧ PackedEventView_pubkey p = pk ∧
  PackedEventView_created_at p = c ∧ PackedEventView_kind p = k ∧
  PackedEventView_expiration p = (if is_ephemeral_kind k then 1 else e) ∧
  record_tags p (added_first k ++ omap pack_own tags ++ added_last k).
Proof.
  intros Hwf [(Hid & _ & Lid) (Hpk & _ & Lpk) Hc [Hk Hk16] _ (Htags & _ & Hacc) [_ ->] _ ->] Hok.
  assert (u64_ok c) as Uc.
  { apply (value_get_wf true v) in Hc; [|done]. cbn in Hc. bool_to_prop. done. }
  assert (u64_ok k) as Uk.
  { apply (value_get_wf true v) in Hk; [|done]. cbn in Hk. bool_to_prop. done. }
  assert (u64_ok (if is_ephemeral_kind k then 1 else first_expiration tags)) as Ue.
  { destruct (is_ephemeral_kind k); [by unfold u64_ok, U64_MAX|apply first_expiration_u64]. }
  split; [apply Uk|].
  rewrite built_id, built_pubkey, built_created_at, built_kind, built_expiration by done.
  split_and!; try done. split; [|by apply built_tags].
  apply Forall_app_2; [|apply Forall_app_2].
  - unfold added_first. destruct (is_replaceable_kind k); repeat constructor; done || (simpl; lia).
  - apply Forall_forall. intros t (tag & Htag & Ht)%list_elem_of_omap.
    rewrite Forall_forall in Hacc, Hok. eapply pack_own_ok; eauto.
  - unfold added_last. destruct (is_param_replaceable_kind k); repeat constructor; done || (simpl; lia).
Qed.

Lemma pack_event_exp v limits p e :
  value_wf true v = true → pack_event v limits = Ok (p, e) →
  expiration_tag v = (if e =? 0 then None else Some e) ∧
  (e = 0 ∨ MIN_REPRESENTABLE_EXPIRATION ≤ e) ∧
  PackedEventView_expiration p =
    (if is_ephemeral_kind (PackedEventView_kind p) then 1 else e).
Proof.
  intros Hwf H. apply pack_event_packs in H as (id & pk & c & k & tags & H & Hok); [|done].
  pose proof (packs_view _ _ _ _ _ _ _ _ _ Hwf H Hok) as (_ & _ & _ & _ & Hk & He & _).
  rewrite Hk. destruct H as [_ _ _ _ _ (Htags & _) [Hexp ->] _ _].
  enough (expiration_tag v =
    (if first_expiration tags =? 0 then None else Some (first_expiration tags)) ∧
    (first_expiration tags = 0 ∨ MIN_REPRESENTABLE_EXPIRATION ≤ first_expiration tags))
    by tauto. unfold expiration_tag, first_expiration.
  rewrite Htags. cbn [mbind option_bind as_array tags_value]. rewrite find_tag_named.
  unfold expiration_ok, first_expiration_tag in *.
  destruct (List.find _ tags) as [t|]; [|split; [done|by left]].
  destruct (Hexp t eq_refl) as (n & Hn & Hmin). rewrite Hn. cbn [default].
  assert ((n =? 0) = false) as E by (apply Z.eqb_neq; unfold MIN_REPRESENTABLE_EXPIRATION in *; lia).
  cbn [from_option]. unfold Datatypes.id. rewrite E. split; [|by right].
  cbn [fmap option_fmap option_map mbind option_bind]. unfold tag_value in Hn.
  rewrite list_lookup_fmap. destruct (t !! 1%nat) as [s|]; [|done]. cbn in *.
  by rewrite (proj2 (parse_uint64_Ok s n) Hn).
Qed.

(** ** Properties *)

(** C26. Packing indexes exactly the event's own tags: the record's kind is the
    event's, its tags are the event's single-letter tags in order, each in its
    packed form, with the empty [d] added for replaceable and addressable kinds,
    and what filters see of the record is the event's own tags, plus the empty
    address of an addressable event without a [d]. *)
Theorem pack_event_indexes_own_tags v limits p e :
  value_wf true v = true → pack_event v limits = Ok (p, e) →
  ∃ k tags,
    value_get v "kind" = Some (Num (PosInt k)) ∧ value_get v "tags" = Some (tags_value tags) ∧
    PackedEventView_kind p = k ∧
    PackedEventView_tags p = added_first k ++ omap pack_own tags ++ added_last k ∧
    filter_tags p = omap pack_own tags ++
      (if is_param_replaceable_kind k && negb (bool_decide (ch "d" ∈ (omap pack_own tags).*1))
       then [(ch "d", [])] else []).
Proof.
  intros Hwf H. apply pack_event_packs in H as (id & pk & c & k & tags & H & Hok); [|done].
  pose proof (packs_view _ _ _ _ _ _ _ _ _ Hwf H Hok) as (_ & _ & _ & _ & Hk & _ & Hrec).
  exists k, tags. split_and!; [apply H..|done|by apply PackedEventView_tags_list|].
  by rewrite (filter_tags_own _ _ Hrec), Hk, own_tags_added.
Qed.

(** The expiration packing returns is the one [expiration_tag] reads off the
    JSON, 0 standing for none; the record carries it, or the marker 1 for an
    ephemeral event, and neither marker is ever a time: a real expiration is at
    least 100. *)
Theorem pack_event_expiration v limits p e :
  value_wf true v = true → pack_event v limits = Ok (p, e) →
  expiration_tag v = (if e =? 0 then None else Some e) ∧
  (e = 0 ∨ MIN_REPRESENTABLE_EXPIRATION ≤ e) ∧
  PackedEventView_expiration p =
    (if is_ephemeral_kind (PackedEventView_kind p) then 1 else e).
Proof. apply pack_event_exp. Qed.

(** An addressable event that packs can be referenced and deleted: the [a]
    tag naming its address, by its first [d], is itself within the limit on tag
    values. *)
Theorem pack_event_address_fits v limits p e :
  value_wf true v = true → pack_event v limits = Ok (p, e) →
  is_param_replaceable_kind (PackedEventView_kind p) = true →
  ∃ tags, value_get v "tags" = Some (tags_value tags) ∧
    ∀ t, first_d tags = Some t →
      (length (a_tag_text (PackedEventView_kind p) (PackedEventView_pubkey p) (tag_value t))
        ≤ max_tag_val_size limits)%nat.
Proof.
  intros Hwf H. apply pack_event_packs in H as (id & pk & c & k & tags & H & Hok); [|done].
  pose proof (packs_view _ _ _ _ _ _ _ _ _ Hwf H Hok) as (_ & _ & Hpk & _ & Hk & _).
  rewrite Hk, Hpk. intros Ha. exists tags. split; [apply H|]. intros t Ht.
  pose proof (packs_address _ _ _ _ _ _ _ _ _ H Ha t Ht) as Hfit.
  unfold a_tag_text. rewrite !length_app, length_hex.
  change (length [ch ":"]) with 1%nat.
  destruct (packs_pubkey _ _ _ _ _ _ _ _ _ H) as (_ & _ & ->). lia.
Qed.
End pack_view.

(** A concrete event: an addressable one with two indexed tags and an
    expiration. *)
Definition sample_event (id sig : bytes) : Value :=
  Object
    [(str "content", Str (str "hello"));
     (str "created_at", Num (PosInt 1700000000));
     (str "id", Str (id ≫= byte_hex));
     (str "kind", Num (PosInt 30023));
     (str "pubkey", Str (replicate 32 17 ≫= byte_hex));
     (str "sig", Str (sig ≫= byte_hex));
     (str "tags", tags_value
        [[str "e"; replicate 32 5 ≫= byte_hex]; [str "d"; str "post"];
         [str "expiration"; str "1800000000"]; [str "title"; str "x"]])].

Definition sample_packed (v : Value) : PackedEvent :=
  default [] (fst <$> result_ok (pack_event v EventLimits_default)).

Lemma pack_event_indexes_own_tags_witness :
  ∃ k tags,
    value_get (sample_event (replicate 32 7) []) "kind" = Some (Num (PosInt k)) ∧
    value_get (sample_event (replicate 32 7) []) "tags" = Some (tags_value tags) ∧
    PackedEventView_kind (sample_packed (sample_event (replicate 32 7) [])) = k ∧
    PackedEventView_tags (sample_packed (sample_event (replicate 32 7) [])) =
      added_first k ++ omap pack_own tags ++ added_last k ∧
    filter_tags (sample_packed (sample_event (replicate 32 7) [])) =
      omap pack_own tags ++
      (if is_param_replaceable_kind k && negb (bool_decide (ch "d" ∈ (omap pack_own tags).*1))
       then [(ch "d", [])] else []).
Proof.
  apply (pack_event_indexes_own_tags (sample_event (replicate 32 7) []) EventLimits_default
           (sample_packed (sample_event (replicate 32 7) [])) 1800000000); by vm_compute.
Defined.

Lemma pack_event_expiration_witness :
  expiration_tag (sample_event (replicate 32 7) []) =
    (if 1800000000 =? 0 then None else Some 1800000000).
Proof.
  apply (pack_event_expiration (sample_event (replicate 32 7) []) EventLimits_default
           (sample_packed (sample_event (replicate 32 7) [])) 1800000000); by vm_compute.
Defined.

Lemma pack_event_address_fits_witness :
  ∃ tags, value_get (sample_event (replicate 32 7) []) "tags" = Some (tags_value tags) ∧
    ∀ t, first_d tags = Some t →
      (length (a_tag_text (PackedEventView_kind (sample_packed (sample_event (replicate 32 7%Z) [])))
        (PackedEventView_pubkey (sample_packed (sample_event (replicate 32 7%Z) [])))
        (tag_value t)) ≤ max_tag_val_size EventLimits_default)%nat.
Proof.
  apply (pack_event_address_fits (sample_event (replicate 32 7) []) EventLimits_default
           (sample_packed (sample_event (replicate 32 7) [])) 1800000000); by vm_compute.
Defined.
