(* ===== verification/Validate.v ===== *)
(** * Verifying events: wok-event's hash.rs, deletion_protection.rs and
    validate.rs

    Event ids and signatures, the deletion-protection marker, the checks of a
    record imported from a strfry database, timestamps, and the ingest pipeline
    [parse_and_verify_event_with].  The main results are that ingest is sound
    (what it accepts carries a valid id and signature and meets the limits), that
    the strfry checks accept every record ingest makes, and that the JSON ingest
    stores packs to the same record again. *)

From S2P Require Import Prelude Utf8 Json Crates Kinds Packed EventParse.

Local Open Scope Z_scope.

(** ** hash.rs *)

Section hash.
Context {SF : SerdeFloat} {SH : Sha256} {SK : Secp256k1}.

Definition preimage_fields : list (string * string) :=
  [("pubkey", "missing pubkey"); ("created_at", "missing created_at");
   ("kind", "missing kind"); ("tags", "missing tags"); ("content", "missing content")].

Definition id_preimage (orig : Value) (write : Value → bytes) : result EventError bytes :=
  encoded ← try_fold (λ encoded '(key, error),
      v ← ok_or (value_get orig key) (EventError_msg error);
      Ok (encoded ++ str "," ++ write v)) (str "[0") preimage_fields;
  Ok (encoded ++ str "]").

Definition event_id_hash (orig : Value) : result EventError bytes :=
  preimage ← id_preimage orig write_nip01; Ok (sha256 preimage).

Definition legacy_event_id_hash (orig : Value) : result EventError bytes :=
  preimage ← id_preimage orig write_tao; Ok (sha256 preimage).

Definition verify_id (orig : Value) (packed_id : bytes) : result EventError unit :=
  preimage ← id_preimage orig write_nip01;
  if bool_decide (sha256 preimage ≠ packed_id) then Err (EventError_msg "bad event id")
  else Ok tt.

Definition verify_id_allowing_legacy (orig : Value) (packed_id : bytes)
    : result EventError unit :=
  preimage ← id_preimage orig write_nip01;
  if bool_decide (sha256 preimage = packed_id) then Ok tt
  else if bool_decide (0x7F ∈ preimage) then
    legacy ← legacy_event_id_hash orig;
    if bool_decide (legacy = packed_id) then Ok tt else Err (EventError_msg "bad event id")
  else Err (EventError_msg "bad event id").

Definition verify_sig (sig hash pubkey : bytes) : result EventError bool :=
  if negb (length sig =? 64)%nat || negb (length hash =? 32)%nat || negb (length pubkey =? 32)%nat
  then Err (EventError_msg "verify sig: bad input size")
  else if negb (xonly_from_slice_ok pubkey) then Err (EventError_msg "verify sig: bad pubkey")
  else if negb (schnorr_from_slice_ok sig) then Err (EventError_msg "verify sig: bad signature")
  else Ok (verify_schnorr sig hash pubkey).
End hash.

(** ** deletion_protection.rs *)

Definition NO_DELETE_TAG : string := "no_delete".

(** [named]: an array whose first element is the string [name]. *)
Definition named (name : string) (tag : Value) : bool :=
  bool_decide (((as_array tag ≫= head) ≫= as_str) = Some (str name)).

(** The test on the only [expiration] tag of a protected event. *)
Definition canonical_expiration (tag : list Value) (more : bool) : bool :=
  let value := default [] (tag !! 1%nat ≫= as_str) in
  negb (negb (length tag =? 2)%nat || more || bool_decide (value = [])
    || negb (forallb is_ascii_digit value)
    || ((1 <? length value)%nat && starts_with value (str "0"))
    || negb (bool_decide (is_Some (parse_u64_digits value)))).

Definition deletion_protection (event : Value) : result EventError bool :=
  match value_get event "tags" ≫= as_array with
  | None => Ok false
  | Some tags =>
      match filter (λ t, named NO_DELETE_TAG t = true) tags with
      | [] => Ok false
      | marker :: markers =>
          if negb (length (default [] (as_array marker)) =? 1)%nat
             || negb (bool_decide (markers = []))
          then Err (EventError_fmt "expected exactly one [{}] tag" [TBytes ([34] ++ str NO_DELETE_TAG ++ [34])])
          else
            _ ← match filter (λ t, named "expiration" t = true) tags with
                | [] => Ok tt
                | expiration :: expirations =>
                    if canonical_expiration (default [] (as_array expiration))
                         (negb (bool_decide (expirations = [])))
                    then Ok tt
                    else Err (EventError_msg "no_delete requires one canonical u64 expiration value")
                end;
            kind ← ok_or (value_get event "kind" ≫= as_u64)
                     (EventError_msg "event kind field was not an integer");
            if is_replaceable_kind kind || is_param_replaceable_kind kind || is_ephemeral_kind kind
            then Err (EventError_restricted "no_delete is only allowed on regular event kinds")
            else Ok true
      end
  end.

(** ** validate.rs *)

Inductive IdPreimage : Type := IdNip01 | Nip01OrLegacy.

Definition AUTH_TIMESTAMP_WINDOW_SECS : Z := 600.
Definition GIFT_WRAP_BACKDATE_SECS : Z := 3 * 86400.

Record TimestampPolicy : Type := mkTimestampPolicy {
  now_secs : Z;
  reject_newer_than_secs : Z;
  reject_older_than_secs : Z;
  reject_ephemeral_older_than_secs : Z;
}.

Definition json_string (v : Value) (e : EventError) : result EventError bytes :=
  ok_or (as_str v) e.

(** The arrays among the payload's tags:
    [orig.get("tags").and_then(Value::as_array).into_iter().flatten()
     .filter_map(Value::as_array)]. *)
Definition payload_tags (orig : Value) : list (list Value) :=
  omap as_array (default [] (value_get orig "tags" ≫= as_array)).

(** [check_packed_tags], first loop: what the payload carries. *)
Record carried_tags : Type := mkCarried {
  carried : list PackedEventTag;
  address : option bytes;
  strfry_address : option bytes;
  recipient : option bytes;
}.

Section check.
Context {HC : HexCrate} {SH : Sha256}.

(** [get_or_insert_with], and the [is_none] guards. *)
Definition or_insert {A} (o : option A) (a : A) : option A :=
  match o with Some x => Some x | None => Some a end.

Definition carry (st : carried_tags) (name : Z) (value packed_value : bytes) : carried_tags :=
  let is_d := bool_decide (name = ch "d") in
  mkCarried (carried st ++ [(name, packed_value)])
    (if is_d then or_insert (address st) packed_value else address st)
    (if is_d && (length value <=? MAX_INDEXED_TAG_VAL_SIZE)%nat
     then or_insert (strfry_address st) packed_value else strfry_address st)
    (if bool_decide (name = ch "p") && (length packed_value =? 32)%nat
     then or_insert (recipient st) packed_value else recipient st).

Definition carry_tag (st : carried_tags) (tag : list Value) : carried_tags :=
  match head tag ≫= as_str,
        match tag !! 1%nat with Some value => as_str value | None => Some [] end with
  | Some [name], Some value =>
      let packed_value :=
        if bool_decide (name = ch "e") || bool_decide (name = ch "p") then
          if negb (length value =? 64)%nat then None else result_ok (from_hex_exact value)
        else Some (indexed_tag_value value) in
      match packed_value with
      | Some packed_value => carry st name value packed_value
      | None => st
      end
  | _, _ => st
  end.

(** Second loop: each packed tag is carried, or the empty [d] strfry adds. *)
Record packed_walk : Type := mkPackedWalk {
  walk_first_d : option bytes;
  walk_first_p : option bytes;
  stray : option text;
}.

Definition check_tag (virtual_d : bool) (carried : list PackedEventTag) (st : packed_walk)
    (name : Z) (value : bytes) : packed_walk * bool :=
  let fd := if bool_decide (name = ch "d") then or_insert (walk_first_d st) value
            else walk_first_d st in
  let fp := if bool_decide (name = ch "p") && (length value =? 32)%nat
            then or_insert (walk_first_p st) value else walk_first_p st in
  if (bool_decide (name = ch "d") && bool_decide (value = []) && virtual_d)
     || bool_decide ((name, value) ∈ carried)
  then (mkPackedWalk fd fp (stray st), true)
  else
    (mkPackedWalk fd fp (Some
       (if bool_decide (name = ch "e") || bool_decide (name = ch "p")
        then Text "packed {name} tag {} is not in the payload" [TBytes [name]; TBytes (to_hex value)]
        else Text "packed {name} tag {:?} is not in the payload" [TBytes [name]; TBytes value])),
     false).

Definition strfry_expiration (orig : Value) : result EventError (option Z) :=
  match List.find (tag_named "expiration")
          (payload_tags orig) with
  | None => Ok None
  | Some tag =>
      match match tag !! 1%nat with Some value => as_str value | None => Some [] end with
      | None => Err (EventError_msg "payload expiration is not a string")
      | Some value =>
          match parse_uint64 value with
          | Ok expiration =>
              if 100 <=? expiration then Ok (Some expiration)
              else Err (EventError_fmt "payload expiration {value:?} is not a time strfry packs"
                          [TBytes value])
          | Err _ => Err (EventError_fmt "payload expiration {value:?} is not a time strfry packs"
                            [TBytes value])
          end
      end
  end.

Definition shown_hex (p : option bytes) : text :=
  match p with Some p => TBytes (to_hex p) | None => Text "none" [] end.
Definition shown (d : option bytes) : text :=
  match d with Some d => TBytes d | None => Text "none" [] end.

(** The addresses accepted as the first packed [d]: strfry's and Wok's. *)
Definition addresses (kind : Z) (st : carried_tags) : option (bytes * bytes) :=
  if is_replaceable_kind kind then Some ([], [])
  else if is_param_replaceable_kind kind
  then Some (default [] (strfry_address st), default [] (address st))
  else None.

Definition check_packed_tags (packed : PackedEventView) (orig : Value)
    : result EventError unit :=
  let kind := PackedEventView_kind packed in
  let st := foldl carry_tag (mkCarried [] None None None)
              (payload_tags orig) in
  let virtual_d := (kind =? 41) || is_replaceable_kind kind || is_param_replaceable_kind kind in
  let w := foreach_tag (check_tag virtual_d (carried st)) (mkPackedWalk None None None) packed in
  match stray w with
  | Some stray => Err (Message stray)
  | None =>
      if bool_decide (walk_first_p w ≠ recipient st) then
        Err (EventError_fmt "packed recipient {} differs from the payload's {}"
               [shown_hex (walk_first_p w); shown_hex (recipient st)])
      else
        _ ← match addresses kind st with
            | Some (strfry, wok) =>
                if bool_decide (walk_first_d w ≠ Some strfry)
                   && bool_decide (walk_first_d w ≠ Some wok)
                then Err (EventError_fmt "packed address {} differs from the payload's {}"
                            [shown (walk_first_d w); shown (Some strfry)])
                else Ok tt
            | None => Ok tt
            end;
        own ← strfry_expiration orig;
        let expected := if is_ephemeral_kind kind then 1 else default 0 own in
        if negb (PackedEventView_expiration packed =? expected) then
          Err (EventError_fmt
                 "packed expiration {} differs from the {expected} strfry packs from the payload"
                 [TNum (PackedEventView_expiration packed); TNum expected])
        else Ok tt
  end.
End check.

Section verify.
Context {SF : SerdeFloat} {HC : HexCrate} {SH : Sha256} {SK : Secp256k1}.

Definition verify_nostr_event_with (packed : PackedEventView) (orig : Value)
    (ids : IdPreimage) : result EventError unit :=
  _ ← match ids with
      | IdNip01 => verify_id orig (PackedEventView_id packed)
      | Nip01OrLegacy => verify_id_allowing_legacy orig (PackedEventView_id packed)
      end;
  f ← ok_or (value_get orig "sig") (EventError_msg "missing sig");
  sig_hex ← json_string f (EventError_msg "event sig was not a string");
  if negb (length sig_hex =? 128)%nat then Err (EventError_msg "unexpected signature size")
  else
    sig ← from_lower_hex_array 64 sig_hex;
    valid ← verify_sig sig (PackedEventView_id packed) (PackedEventView_pubkey packed);
    if negb valid then Err (EventError_msg "bad signature") else Ok tt.

Definition verify_nostr_event (packed : PackedEventView) (orig : Value)
    : result EventError unit :=
  verify_nostr_event_with packed orig IdNip01.

(** The closures [field], [bytes] and [unsigned] of [verify_strfry_event]. *)
Definition strfry_field (orig : Value) (key : string) : result EventError Value :=
  ok_or (value_get orig key) (EventError_fmt "missing {key}" [TBytes (str key)]).

Definition strfry_bytes (orig : Value) (key : string) (n : nat) : result EventError bytes :=
  f ← strfry_field orig key;
  s ← json_string f (EventError_fmt "event {key} was not a string" [TBytes (str key)]);
  decoded ← from_hex_exact s;
  if negb (length decoded =? n)%nat
  then Err (EventError_fmt "unexpected {key} size" [TBytes (str key)])
  else Ok decoded.

Definition strfry_unsigned (orig : Value) (key : string) : result EventError Z :=
  f ← strfry_field orig key;
  ok_or (as_u64 f) (EventError_fmt "event {key} was not an integer" [TBytes (str key)]).

Definition verify_strfry_event (packed : PackedEventView) (orig : Value)
    : result EventError unit :=
  id ← strfry_bytes orig "id" 32;
  if bool_decide (id ≠ PackedEventView_id packed)
  then Err (EventError_msg "payload id differs from the packed record") else
  pubkey ← strfry_bytes orig "pubkey" 32;
  if bool_decide (pubkey ≠ PackedEventView_pubkey packed)
  then Err (EventError_msg "payload pubkey differs from the packed record") else
  kind ← strfry_unsigned orig "kind";
  if negb (kind =? PackedEventView_kind packed)
  then Err (EventError_msg "payload kind differs from the packed record") else
  created_at ← strfry_unsigned orig "created_at";
  if negb (created_at =? PackedEventView_created_at packed)
  then Err (EventError_msg "payload created_at differs from the packed record") else
  _ ← check_packed_tags packed orig;
  _ ← verify_id_allowing_legacy orig (PackedEventView_id packed);
  sig ← strfry_bytes orig "sig" 64;
  valid ← verify_sig sig (PackedEventView_id packed) (PackedEventView_pubkey packed);
  if negb valid then Err (EventError_msg "bad signature") else Ok tt.

Definition verify_event_json_size (json_str : bytes) (max_event_size : nat)
    : result EventError unit :=
  if (max_event_size <? length json_str)%nat
  then Err (EventError_limit EventSize "event too large: {}" [TNum (len json_str)])
  else Ok tt.

Definition verify_event_timestamp (packed : PackedEventView) (policy : TimestampPolicy)
    : result EventError unit :=
  let now := now_secs policy in
  let ts := PackedEventView_created_at packed in
  let is_ephemeral := PackedEventView_expiration packed =? 1 in
  let max_age :=
    if is_ephemeral then reject_ephemeral_older_than_secs policy
    else if reject_older_than_secs policy =? 0 then U64_MAX
    else reject_older_than_secs policy in
  let earliest := sat_sub now max_age in
  let latest := sat_add U64_MAX now (reject_newer_than_secs policy) in
  let earliest := if earliest >? now then 0 else earliest in
  let latest := if latest <? now then U64_MAX - 1 else latest in
  if ts <? earliest then
    Err (if is_ephemeral then EventError_limit EphemeralTooOld "ephemeral event expired" []
         else EventError_limit TooOld "created_at too early" [])
  else if ts >? latest then Err (EventError_limit TooNew "created_at too late" [])
  else if (PackedEventView_expiration packed >? 1) && (PackedEventView_expiration packed <=? now)
  then Err (EventError_msg "event expired")
  else Ok tt.

Definition require_canonical_addresses (orig : Value) : result EventError unit :=
  try_fold (λ _ tag,
    if tag_named "a" tag then
      match tag !! 1%nat ≫= as_str with
      | Some address => _ ← parse_canonical_a_tag address; Ok tt
      | None => Ok tt
      end
    else Ok tt) tt (payload_tags orig).

Definition parse_and_verify_event_with (orig : Value) (limits : EventLimits)
    (policy : option TimestampPolicy) (verify_msg verify_time : bool) (ids : IdPreimage)
    : result EventError ParsedEvent :=
  if negb (is_object orig) then Err (EventError_msg "event is not an object") else
  protected ← deletion_protection orig;
  if protected && match expiration_tag orig with
                  | Some expiration => expiration <? MIN_REPRESENTABLE_EXPIRATION
                  | None => false
                  end
  then Err (EventError_restricted "expiration is outside the supported storage range") else
  '(packed, expiration) ← pack_event orig limits;
  _ ← (if PackedEventView_kind packed =? DELETION_KIND
       then require_canonical_addresses orig else Ok tt);
  json ← normalize_event_json orig;
  _ ← (if verify_msg then verify_event_json_size json (max_event_size limits) else Ok tt);
  _ ← (if verify_time then
         p ← ok_or policy (EventError_msg "timestamp policy required");
         _ ← verify_event_timestamp packed p;
         if negb (expiration =? 0) && (expiration <=? now_secs p)
         then Err (EventError_msg "event expired") else Ok tt
       else Ok tt);
  _ ← (if verify_msg then verify_nostr_event_with packed orig ids else Ok tt);
  Ok (mkParsedEvent packed json).

Definition parse_and_verify_event (orig : Value) (limits : EventLimits)
    (policy : option TimestampPolicy) (verify_msg verify_time : bool)
    : result EventError ParsedEvent :=
  parse_and_verify_event_with orig limits policy verify_msg verify_time IdNip01.
End verify.

(** ** Lemmas: the strfry checks on a record Wok packs *)

Definition is_d (t : PackedEventTag) : bool := bool_decide (t.1 = ch "d").
Definition is_p32 (t : PackedEventTag) : bool :=
  bool_decide (t.1 = ch "p") && (length t.2 =? 32)%nat.

(** The value of the first tag that satisfies [P], unless one was found before. *)
Definition first_value (P : PackedEventTag → bool) (found : option bytes)
    (l : list PackedEventTag) : option bytes :=
  match found with Some x => Some x | None => snd <$> List.find P l end.

Lemma first_value_cons P found t l :
  first_value P found (t :: l) =
  first_value P (if P t then or_insert found t.2 else found) l.
Proof. unfold first_value. cbn. destruct found, (P t); done. Qed.

Lemma first_value_nil P found : first_value P found [] = found.
Proof. by destruct found. Qed.

Lemma first_value_app P found l k :
  first_value P found (l ++ k) = first_value P (first_value P found l) k.
Proof.
  revert found. induction l as [|t l IH]; intros found; [by destruct found|].
  cbn [app]. by rewrite !first_value_cons, IH.
Qed.

Lemma payload_tags_strings orig tags :
  value_get orig "tags" = Some (tags_value tags) →
  payload_tags orig = (λ t : list bytes, Str <$> t) <$> tags.
Proof. intros H. unfold payload_tags. rewrite H. apply omap_as_array. Qed.

Section check_lemmas.
Context {HC : HexCrate} {HX : HexLaws} {SH : Sha256} {SL : Sha256Laws}.

(** On an accepted tag, the checker reads the packed form packing wrote. *)
Lemma carry_tag_accepted limits k pk st tag :
  tag_accepted limits k pk tag →
  carry_tag st (Str <$> tag) =
  match pack_own tag with
  | Some (n, pv) => carry st n (tag_value tag) pv
  | None => st
  end.
Proof.
  intros [Hne Hacc]. destruct tag as [|name tag]; [done|]. unfold carry_tag, pack_own.
  cbn [fmap list_fmap head hd_error mbind option_bind as_str].
  assert (match (Str <$> name :: tag) !! 1%nat with
    | Some value => as_str value | None => Some [] end = Some (tag_value (name :: tag))) as Hval
    by (by destruct tag).
  cbn [fmap list_fmap] in Hval. rewrite Hval. destruct name as [|n [|m name]]; try done.
  destruct (Hacc n eq_refl) as (_ & Hfix & _).
  unfold packed_value. fold (fixed_size_name n). destruct (fixed_size_name n) eqn:Hf; [|done].
  destruct (Hfix eq_refl) as (raw & Hraw & Hlen & ->).
  rewrite length_hex, Hlen. cbn [Nat.mul Nat.eqb negb].
  rewrite (from_hex_exact_lower _ raw) by (by apply from_lower_hex_exact_Ok).
  rewrite <-hex_encode_spec, hex_decode_encode by done. done.
Qed.

Lemma carry_tags_accepted limits k pk tags st :
  Forall (tag_accepted limits k pk) tags →
  let st' := foldl carry_tag st ((λ t : list bytes, Str <$> t) <$> tags) in
  carried st' = carried st ++ omap pack_own tags ∧
  address st' = first_value is_d (address st) (omap pack_own tags) ∧
  recipient st' = first_value is_p32 (recipient st) (omap pack_own tags).
Proof.
  intros Hacc. revert st. induction Hacc as [|tag tags Ht Hacc IH]; intros st; cbn zeta.
  - cbn. rewrite app_nil_r. by destruct (address st), (recipient st).
  - cbn [fmap list_fmap foldl]. rewrite (carry_tag_accepted limits k pk) by done.
    destruct (IH (match pack_own tag with
      | Some (n, pv) => carry st n (tag_value tag) pv | None => st end)) as (H1 & H2 & H3).
    rewrite omap_cons_list. destruct (pack_own tag) as [[n pv]|]; [|done].
    change (option_list (Some (n, pv)) ++ omap pack_own tags) with ((n, pv) :: omap pack_own tags).
    rewrite !first_value_cons, H1, H2, H3. unfold carry; cbn.
    by rewrite <-app_assoc.
Qed.

(** Going through packed tags that are all accounted for. *)
Lemma check_tags_ok virtual_d carried l st :
  Forall (λ t, (t = (ch "d", []) ∧ virtual_d = true) ∨ t ∈ carried) l → stray st = None →
  walk_list (λ st n v _, check_tag virtual_d carried st n v) st l =
  mkPackedWalk (first_value is_d (walk_first_d st) l) (first_value is_p32 (walk_first_p st) l) None.
Proof.
  intros Hl. revert st. induction Hl as [|[n v] l Ht Hl IH]; intros st Hst.
  - destruct st as [fd fp s]. cbn in *. subst. by destruct fd, fp.
  - cbn [walk_list]. unfold check_tag.
    assert ((bool_decide (n = ch "d") && bool_decide (v = []) && virtual_d)
      || bool_decide ((n, v) ∈ carried) = true) as ->.
    { apply orb_true_iff. destruct Ht as [[[= -> ->] ->]|Ht]; [by left|right].
      by apply bool_decide_eq_true. }
    rewrite IH by done. by rewrite !first_value_cons.
Qed.

Lemma first_value_added k own :
  first_value is_p32 None (added_first k ++ own ++ added_last k) = first_value is_p32 None own ∧
  first_value is_d None (added_first k ++ own ++ added_last k) =
    (if is_replaceable_kind k then Some []
     else if is_param_replaceable_kind k then Some (default [] (first_value is_d None own))
     else first_value is_d None own).
Proof.
  assert (∀ found, first_value is_p32 found [(ch "d", [])] = found) as Hp by (by intros []).
  assert (∀ found, first_value is_d found [(ch "d", [])] = Some (default [] found)) as Hd
    by (by intros []).
  unfold added_first, added_last. rewrite !first_value_app.
  destruct (is_replaceable_kind k) eqn:Hr.
  - rewrite replaceable_not_addressable by done. rewrite Hp, Hd. by rewrite !first_value_nil.
  - destruct (is_param_replaceable_kind k); rewrite ?Hp, ?Hd, !first_value_nil; done.
Qed.

Lemma strfry_expiration_packs orig tags :
  value_get orig "tags" = Some (tags_value tags) → expiration_ok tags →
  strfry_expiration orig =
    Ok (if first_expiration tags =? 0 then None else Some (first_expiration tags)).
Proof.
  intros Htags Hexp. unfold strfry_expiration, first_expiration.
  rewrite (payload_tags_strings _ tags Htags), <-omap_as_array, find_tag_named. unfold expiration_ok, first_expiration_tag in *.
  destruct (List.find _ tags) as [t|]; [|done]. destruct (Hexp t eq_refl) as (n & Hn & Hmin).
  rewrite Hn. cbn [fmap option_fmap option_map default from_option]. unfold Datatypes.id.
  assert ((n =? 0) = false) as -> by (apply Z.eqb_neq; unfold MIN_REPRESENTABLE_EXPIRATION in *; lia).
  assert (match (Str <$> t) !! 1%nat with Some value => as_str value | None => Some [] end =
    Some (tag_value t)) as ->.
  { unfold tag_value. rewrite list_lookup_fmap. by destruct (t !! 1%nat). }
  rewrite (proj2 (parse_uint64_Ok _ n) Hn).
  assert ((100 <=? n) = true) as -> by (apply Z.leb_le; unfold MIN_REPRESENTABLE_EXPIRATION in *; lia).
  done.
Qed.

Lemma check_packed_tags_packs v limits p e :
  value_wf true v = true → pack_event v limits = Ok (p, e) → check_packed_tags p v = Ok tt.
Proof.
  intros Hwf H. apply pack_event_packs in H as (id & pk & c & k & tags & H & Hok); [|done].
  pose proof (packs_view _ _ _ _ _ _ _ _ _ Hwf H Hok) as (_ & _ & _ & _ & Hk & He & Hrec).
  destruct H as [_ _ _ _ _ (Htags & _ & Hacc) [Hexp ->] _ _].
  unfold check_packed_tags, foreach_tag. cbv zeta.
  rewrite (walk_tags_list _ _ p _ Hrec), Hk, He, (payload_tags_strings _ tags Htags).
  destruct (carry_tags_accepted limits k pk tags (mkCarried [] None None None) Hacc) as (Hc & Ha & Hr).
  set (st := foldl _ _ _) in *. rewrite check_tags_ok; [|..|done].
  2:{ rewrite Hc. cbn. apply Forall_forall. intros t Ht. rewrite !elem_of_app in Ht.
      unfold added_first, added_last in Ht. destruct Ht as [Ht|[Ht|Ht]]; [|by right|].
      - left. destruct (is_replaceable_kind k); [|by apply elem_of_nil in Ht].
        apply list_elem_of_singleton in Ht. by rewrite orb_true_r.
      - left. destruct (is_param_replaceable_kind k); [|by apply elem_of_nil in Ht].
        apply list_elem_of_singleton in Ht. by rewrite orb_true_r. }
  cbn [stray walk_first_p walk_first_d].
  destruct (first_value_added k (omap pack_own tags)) as [Hp Hd]. rewrite Hp, Hd, Hr.
  rewrite bool_decide_false by (intros Hn; by apply Hn).
  rewrite (strfry_expiration_packs v tags) by done. unfold addresses.
  assert (∀ n, default 0 (if n =? 0 then None else Some n) = n) as Hdef.
  { intros n. destruct (n =? 0) eqn:E; [|done]. by bool_to_prop. }
  destruct (is_replaceable_kind k).
  { cbn [result_bind mbind]. rewrite Hdef, Z.eqb_refl. done. }
  destruct (is_param_replaceable_kind k).
  - rewrite Ha. cbn [address].
    assert (∀ x y : bytes, bool_decide (Some x ≠ Some y) && bool_decide (Some x ≠ Some x) = false)
      as -> by (intros x y; rewrite (bool_decide_false (Some x ≠ Some x)) by tauto;
                apply andb_false_r).
    cbn. by rewrite Hdef, Z.eqb_refl.
  - cbn. by rewrite Hdef, Z.eqb_refl.
Qed.
End check_lemmas.

(** ** Lemmas: the ingest pipeline *)

Section pipeline.
Context {SF : SerdeFloat} {HC : HexCrate} {HX : HexLaws} {SH : Sha256} {SL : Sha256Laws}.
Context {SK : Secp256k1}.

Lemma parse_and_verify_Ok orig limits policy vm vt ids ev :
  parse_and_verify_event_with orig limits policy vm vt ids = Ok ev →
  ∃ e, pack_event orig limits = Ok (packed ev, e) ∧
    (PackedEventView_kind (packed ev) = DELETION_KIND → require_canonical_addresses orig = Ok tt) ∧
    normalize_event_json orig = Ok (json ev) ∧
    (vm = true → (length (json ev) ≤ max_event_size limits)%nat ∧
      verify_nostr_event_with (packed ev) orig ids = Ok tt) ∧
    (vt = true → ∃ p, policy = Some p ∧ verify_event_timestamp (packed ev) p = Ok tt ∧
      (e = 0 ∨ now_secs p < e)).
Proof.
  unfold parse_and_verify_event_with. intros H. destruct (is_object orig); [|done].
  cbn [negb] in H. inv_bind H. destruct (_ && _); [done|]. inv_bind H.
  destruct v0 as [p e]. inv_bind H. inv_bind H. inv_bind H. inv_bind H. inv_bind H.
  simplify_eq/=. exists e. split; [done|]. split.
  { intros Hk. rewrite Hk, Z.eqb_refl in Hv1. by destruct v0. }
  split; [done|]. split.
  - intros ->. unfold verify_event_json_size in Hv3. destruct (_ <? _)%nat eqn:E; [done|].
    apply Nat.ltb_ge in E. by destruct v4.
  - intros ->. inv_bind Hv4. apply ok_or_Ok in Hv6 as ->. inv_bind Hv4.
    exists v5. destruct v6. split_and!; try done. destruct (_ && _) eqn:E; [done|].
    apply andb_false_iff in E as [E|E]; bool_to_prop; [by left|right; lia].
Qed.

Lemma verify_nostr_event_Ok p orig ids :
  verify_nostr_event_with p orig ids = Ok tt →
  (∃ sig, value_get orig "sig" = Some (Str (sig ≫= byte_hex)) ∧ bytes_ok sig ∧
    length sig = 64%nat ∧ verify_sig sig (PackedEventView_id p) (PackedEventView_pubkey p) = Ok true) ∧
  match ids with
  | IdNip01 => verify_id orig (PackedEventView_id p)
  | Nip01OrLegacy => verify_id_allowing_legacy orig (PackedEventView_id p)
  end = Ok tt.
Proof.
  unfold verify_nostr_event_with. intros H. inv_bind H. destruct v. split; [|done].
  inv_bind H. apply ok_or_Ok in Hv0. inv_bind H. unfold json_string in Hv1.
  apply ok_or_Ok in Hv1. destruct v; try done. cbn in Hv1. injection Hv1 as ->.
  destruct (length v0 =? 128)%nat; [|done]. cbn [negb] in H. inv_bind H.
  apply from_lower_hex_array_Ok in Hv1 as (Hok & -> & Hlen). inv_bind H.
  exists v. split_and!; try done. by destruct v0.
Qed.

Lemma verify_id_legacy orig id :
  verify_id orig id = Ok tt → verify_id_allowing_legacy orig id = Ok tt.
Proof.
  unfold verify_id, verify_id_allowing_legacy. intros H. inv_bind H. rewrite Hv. cbn.
  destruct (bool_decide (sha256 v ≠ id)) eqn:E; [done|]. bool_to_prop.
  by rewrite bool_decide_true by (by apply dec_stable).
Qed.

Lemma verify_sig_true sig hash pk :
  verify_sig sig hash pk = Ok true → verify_schnorr sig hash pk = true.
Proof.
  unfold verify_sig. repeat (destruct (_ || _) || destruct (negb _)); try done.
  by intros [= ->].
Qed.

(** strfry's hex reader on the fields ingest requires in lowercase. *)
Lemma strfry_bytes_lower orig key b n :
  value_get orig key = Some (Str (b ≫= byte_hex)) → bytes_ok b → length b = n →
  strfry_bytes orig key n = Ok b.
Proof.
  intros Hv Hb Hn. unfold strfry_bytes, strfry_field, json_string. rewrite Hv. cbn.
  rewrite (from_hex_exact_lower _ b) by (by apply from_lower_hex_exact_Ok). cbn.
  by rewrite Hn, Nat.eqb_refl.
Qed.

Lemma strfry_unsigned_int orig key n :
  value_get orig key = Some (Num (PosInt n)) → strfry_unsigned orig key = Ok n.
Proof. intros Hv. unfold strfry_unsigned, strfry_field. by rewrite Hv. Qed.

(** ** Properties *)

(** C32. strfry's import check accepts every record ingest makes: an event that
    [parse_and_verify_event_with] accepts, verified, passes [verify_strfry_event]
    with the record it was packed into: the same fields, no packed tag the payload
    does not carry, the address, recipient and expiration strfry would pack, the
    id and the signature. *)
Theorem verify_strfry_accepts_ingested orig limits policy vt ids ev :
  value_wf true orig = true →
  parse_and_verify_event_with orig limits policy true vt ids = Ok ev →
  verify_strfry_event (packed ev) orig = Ok tt.
Proof.
  intros Hwf H. apply parse_and_verify_Ok in H as (e & Hp & _ & _ & Hvm & _).
  destruct (Hvm eq_refl) as [_ Hsig]. clear Hvm.
  apply verify_nostr_event_Ok in Hsig as [(sig & Hs & Sok & Slen & Hv) Hid].
  pose proof (check_packed_tags_packs _ _ _ _ Hwf Hp) as Hcheck.
  apply pack_event_packs in Hp as (id & pk & c & k & tags & Hp & Hok); [|done].
  pose proof (packs_view _ _ _ _ _ _ _ _ _ Hwf Hp Hok) as (_ & Eid & Epk & Ec & Ek & _).
  destruct Hp as [(Fid & Iok & Il) (Fpk & Pok & Pl) Fc [Fk _] _ _ _ _ _].
  unfold verify_strfry_event.
  rewrite (strfry_bytes_lower orig "id" id 32), (strfry_bytes_lower orig "pubkey" pk 32),
    (strfry_bytes_lower orig "sig" sig 64), (strfry_unsigned_int orig "kind" k),
    (strfry_unsigned_int orig "created_at" c), Eid, Epk, Ec, Ek by done.
  rewrite Eid, Epk in Hv. rewrite Eid in Hid.
  cbn [mbind result_bind]. rewrite !bool_decide_false, !Z.eqb_refl by tauto. cbn [negb].
  rewrite Hcheck. cbn [mbind result_bind].
  assert (verify_id_allowing_legacy orig id = Ok tt) as -> by (destruct ids; auto using verify_id_legacy).
  cbn [mbind result_bind]. by rewrite Hv.
Qed.

(** C7. Ingest is sound: an event it accepts, verified, is signed by the key in
    its record over the id in its record, that id is the hash of the event's
    NIP-01 preimage (or, where stored events are read, of the legacy one), and
    the JSON kept is within the size limit; with the time check, the event has
    not expired at the policy's clock. *)
Theorem ingest_sound orig limits policy vt ids ev :
  value_wf true orig = true →
  parse_and_verify_event_with orig limits policy true vt ids = Ok ev →
  (∃ sig, value_get orig "sig" = Some (Str (sig ≫= byte_hex)) ∧
    verify_schnorr sig (PackedEventView_id (packed ev)) (PackedEventView_pubkey (packed ev)) = true) ∧
  (event_id_hash orig = Ok (PackedEventView_id (packed ev)) ∨
    ids = Nip01OrLegacy ∧ legacy_event_id_hash orig = Ok (PackedEventView_id (packed ev))) ∧
  (length (json ev) ≤ max_event_size limits)%nat ∧
  (vt = true → ∃ p, policy = Some p ∧
    match expiration_tag orig with Some e => now_secs p < e | None => True end).
Proof.
  intros Hwf H. apply parse_and_verify_Ok in H as (e & Hp & _ & _ & Hvm & Hvt).
  destruct (Hvm eq_refl) as [Hlen Hsig]. clear Hvm.
  apply verify_nostr_event_Ok in Hsig as [(sig & Hs & _ & _ & Hv) Hid].
  split; [exists sig; split; [done|by apply verify_sig_true]|].
  split; [|split; [done|]].
  - unfold event_id_hash, legacy_event_id_hash. destruct ids.
    + left. unfold verify_id in Hid. inv_bind Hid. rewrite Hv0. cbn.
      destruct (bool_decide _) eqn:E; [done|]. bool_to_prop. by rewrite (dec_stable E).
    + unfold verify_id_allowing_legacy in Hid. inv_bind Hid. rewrite Hv0. cbn.
      destruct (bool_decide _) eqn:E; bool_to_prop; [by left; rewrite E|].
      destruct (bool_decide _); [|done]. inv_bind Hid. right. split; [done|].
      unfold legacy_event_id_hash in Hv1. destruct (bool_decide _) eqn:F; [|done].
      bool_to_prop. by subst.
  - intros ->. destruct (Hvt eq_refl) as (p & -> & _ & He). exists p. split; [done|].
    destruct (pack_event_exp _ _ _ _ Hwf Hp) as [-> _]. destruct (e =? 0) eqn:E; [done|].
    bool_to_prop. lia.
Qed.
End pipeline.

(** ** Lemmas: normalization *)

Section normalization.
Context {SF : SerdeFloat}.

(** The object [normalize_event_json] writes. *)
Definition normalized_value (orig : Value) : Value :=
  Object ((λ k, (str k, default Null (value_get orig k))) <$> normalized_keys).

Lemma normalized_keys_sorted orig :
  match normalized_value orig with Object m => keys_sorted (m.*1) = true | _ => False end.
Proof. by vm_compute. Qed.

Lemma normalized_value_get orig k :
  k ∈ normalized_keys → value_get (normalized_value orig) k = Some (default Null (value_get orig k)).
Proof.
  intros Hk. unfold normalized_keys in Hk. rewrite !elem_of_cons in Hk.
  destruct Hk as [->|[->|[->|[->|[->|[->|[->|Hk]]]]]]]; [reflexivity..|by apply elem_of_nil in Hk].
Qed.

Lemma write_entry_key k v :
  k ∈ normalized_keys →
  write_entry Tao (str k, v) = [34] ++ str k ++ [34; 58] ++ write_tao v.
Proof.
  intros Hk. unfold write_entry. cbn [fst snd].
  assert (write_string Tao (str k) = [34] ++ str k ++ [34]) as ->.
  { unfold normalized_keys in Hk. rewrite !elem_of_cons in Hk.
    destruct Hk as [->|[->|[->|[->|[->|[->|[->|Hk]]]]]]]; [by vm_compute..|by apply elem_of_nil in Hk]. }
  by rewrite <-!app_assoc.
Qed.

(** What the steps from index [n] on append. *)
Fixpoint entries (orig : Value) (n : nat) (keys : list string) : bytes :=
  match keys with
  | [] => []
  | k :: keys =>
      (if negb (n =? 0)%nat then str "," else [])
      ++ ([34] ++ str k ++ [34; 58] ++ write_tao (default Null (value_get orig k)))
      ++ entries orig (S n) keys
  end.

Lemma normalize_steps orig keys n acc j :
  try_fold (normalize_step orig) acc (imap (λ i k, (n + i, k))%nat keys) = Ok j →
  Forall (λ k, is_Some (value_get orig k)) keys ∧ j = acc ++ entries orig n keys.
Proof.
  revert n acc. induction keys as [|k keys IH]; intros n acc H.
  - cbn in H. simplify_eq. cbn. by rewrite app_nil_r.
  - rewrite imap_cons in H. cbn [try_fold] in H. inv_bind H. rewrite Nat.add_0_r in Hv.
    unfold normalize_step in Hv. inv_bind Hv. apply ok_or_Ok in Hv0 as Hk.
    assert (v = acc ++ (if negb (n =? 0)%nat then str "," else []) ++ [34] ++ str k ++ [34; 58]
      ++ write_tao v0) as -> by congruence.
    rewrite (imap_ext _ (λ i k, (S n + i, k))%nat) in H by (intros; cbn; f_equal; lia).
    apply IH in H as [Hf ->]. split; [by constructor|]. cbn [entries]. rewrite Hk.
    by rewrite <-!app_assoc.
Qed.

Lemma normalize_event_json_Ok orig j :
  normalize_event_json orig = Ok j →
  Forall (λ k, is_Some (value_get orig k)) normalized_keys ∧ j = write_tao (normalized_value orig).
Proof.
  unfold normalize_event_json. intros H. inv_bind H. injection H as <-.
  apply (normalize_steps orig normalized_keys 0) in Hv as [Hf ->]. split; [done|].
  unfold write_tao, normalized_value at 1.
  rewrite write_object by apply (normalized_keys_sorted orig).
  cbn [fmap list_fmap normalized_keys join_commas entries Nat.eqb negb].
  rewrite !write_entry_key by (unfold normalized_keys; set_solver).
  assert (∀ l, ch "," :: l = str "," ++ l) as Hcomma by done. rewrite !Hcomma.
  rewrite app_nil_l, app_nil_r, <-!app_assoc. done.
Qed.
End normalization.

(** ** Lemmas: the pipeline sees only the seven fields *)

Lemma try_fold_ext {E A B} (f g : A → B → result E A) xs acc :
  (∀ a x, x ∈ xs → f a x = g a x) → try_fold f acc xs = try_fold g acc xs.
Proof.
  revert acc. induction xs as [|x xs IH]; intros acc H; [done|]. cbn.
  rewrite (H acc x) by left. destruct (g acc x); [|done]. cbn. apply IH. intros; apply H; by right.
Qed.

(** Two objects with the same seven fields. *)
Definition same_fields (v w : Value) : Prop :=
  is_object v = true ∧ is_object w = true ∧
  ∀ k, k ∈ normalized_keys → value_get v k = value_get w k.

Section same_fields.
Context {SF : SerdeFloat} {HC : HexCrate} {SH : Sha256} {SK : Secp256k1}.
Context (v w : Value) (Hsame : same_fields v w).

Local Ltac key := apply Hsame; unfold normalized_keys; set_solver.

Lemma pack_event_same limits : pack_event v limits = pack_event w limits.
Proof.
  destruct Hsame as (Hv & Hw & _). unfold pack_event, event_field. rewrite Hv, Hw.
  by rewrite (ltac:(key) : value_get v "id" = value_get w "id"),
    (ltac:(key) : value_get v "pubkey" = value_get w "pubkey"),
    (ltac:(key) : value_get v "created_at" = value_get w "created_at"),
    (ltac:(key) : value_get v "kind" = value_get w "kind"),
    (ltac:(key) : value_get v "content" = value_get w "content"),
    (ltac:(key) : value_get v "tags" = value_get w "tags").
Qed.

Lemma normalize_same : normalize_event_json v = normalize_event_json w.
Proof.
  unfold normalize_event_json. f_equal. apply try_fold_ext. intros a [i k] Hk.
  apply elem_of_lookup_imap in Hk as (j & x & [= -> ->] & Hk).
  unfold normalize_step. apply list_elem_of_lookup_2 in Hk.
  by rewrite (proj2 (proj2 Hsame) x Hk).
Qed.

Lemma id_preimage_same write : id_preimage v write = id_preimage w write.
Proof.
  unfold id_preimage. f_equal. apply try_fold_ext. intros a [k e] Hk.
  assert (k ∈ normalized_keys) as Hk' by (unfold preimage_fields, normalized_keys in *; set_solver).
  by rewrite (proj2 (proj2 Hsame) k Hk').
Qed.

Lemma verify_nostr_event_same p ids :
  verify_nostr_event_with p v ids = verify_nostr_event_with p w ids.
Proof.
  unfold verify_nostr_event_with, verify_id, verify_id_allowing_legacy, legacy_event_id_hash.
  by rewrite !id_preimage_same, (ltac:(key) : value_get v "sig" = value_get w "sig").
Qed.

Lemma parse_and_verify_same limits policy vm vt ids :
  parse_and_verify_event_with v limits policy vm vt ids =
  parse_and_verify_event_with w limits policy vm vt ids.
Proof.
  pose proof (ltac:(key) : value_get v "tags" = value_get w "tags") as Ht.
  pose proof (ltac:(key) : value_get v "kind" = value_get w "kind") as Hk.
  unfold parse_and_verify_event_with.
  rewrite (proj1 Hsame), (proj1 (proj2 Hsame)), pack_event_same, normalize_same.
  assert (deletion_protection v = deletion_protection w) as ->
    by (unfold deletion_protection; by rewrite Ht, Hk).
  assert (expiration_tag v = expiration_tag w) as -> by (unfold expiration_tag; by rewrite Ht).
  assert (require_canonical_addresses v = require_canonical_addresses w) as ->
    by (unfold require_canonical_addresses, payload_tags; by rewrite Ht).
  cbn [negb]. destruct (deletion_protection w); [|done]. cbn [mbind result_bind].
  destruct (_ && _); [done|]. destruct (pack_event w limits) as [[p e]|]; [|done].
  cbn [mbind result_bind]. by rewrite verify_nostr_event_same.
Qed.
End same_fields.

Section reingest.
Context {SF : SerdeFloat} {HC : HexCrate} {HX : HexLaws} {SH : Sha256} {SL : Sha256Laws}.
Context {SK : Secp256k1}.

Lemma tags_value_wf tags :
  value_wf true (tags_value tags) = true →
  value_wf false (tags_value tags) = true ∧ (value_depth (tags_value tags) ≤ 2)%nat.
Proof.
  unfold tags_value. intros H. split.
  - cbn [value_wf] in *. rewrite forallb_forall in *. intros x Hx. specialize (H x Hx).
    apply list_elem_of_In, list_elem_of_fmap in Hx as (t & -> & _).
    cbn [value_wf] in *. rewrite forallb_forall in *. intros y Hy. specialize (H y Hy).
    by apply list_elem_of_In, list_elem_of_fmap in Hy as (s & -> & _).
  - cbn [value_depth]. apply max_list_fmap_lt. intros x (t & -> & _)%list_elem_of_fmap.
    cbn [compose value_depth]. apply le_n_S, max_list_fmap_lt.
    by intros y (s & -> & _)%list_elem_of_fmap.
Qed.

(** The object normalization writes is one the parser reads back. *)
Lemma normalized_value_reads_back orig limits p e sig :
  value_wf true orig = true → pack_event orig limits = Ok (p, e) →
  value_get orig "sig" = Some (Str sig) →
  value_wf false (normalized_value orig) = true ∧ (value_depth (normalized_value orig) ≤ MAX_DEPTH)%nat.
Proof.
  intros Hwf Hp Hsig. apply pack_event_packs in Hp as (id & pk & c & k & tags & Hp & _); [|done].
  destruct Hp as [(Hid & _) (Hpk & _) Hc [Hk _] [s Hcontent] (Htags & _) _ _ _].
  pose proof (value_get_wf true orig) as Wf.
  pose proof (Wf _ _ Hwf Hid) as Wid. pose proof (Wf _ _ Hwf Hpk) as Wpk.
  pose proof (Wf _ _ Hwf Hc) as Wc. pose proof (Wf _ _ Hwf Hk) as Wk.
  pose proof (Wf _ _ Hwf Hcontent) as Wcontent. pose proof (Wf _ _ Hwf Hsig) as Wsig.
  pose proof (Wf _ _ Hwf Htags) as [Wtags Dtags]%tags_value_wf.
  pose proof (normalized_keys_sorted orig) as Hsorted. unfold normalized_value in *.
  assert (forallb utf8_valid (((λ k, (str k, default Null (value_get orig k))) <$> normalized_keys).*1)
    = true) as Hkeys by (by vm_compute).
  cbn [value_wf]. rewrite Hsorted, Hkeys. unfold normalized_keys in *. cbn [fmap list_fmap].
  rewrite Hid, Hpk, Hc, Hk, Hcontent, Hsig, Htags. cbn [default from_option].
  unfold Datatypes.id. split.
  - cbn [forallb snd]. rewrite Wtags. cbn [value_wf] in *.
    by rewrite Wcontent, Wc, Wid, Wk, Wpk, Wsig.
  - set (t := tags_value tags) in *. clearbody t. cbn [value_depth fmap list_fmap snd max_list].
    unfold MAX_DEPTH. cbn. lia.
Qed.

(** C31. Ingest is stable: the JSON it keeps of a verified event parses, and
    ingesting the parsed text under the same settings accepts it again with the
    same record and the same JSON.  So reindexing a stored event rebuilds its
    record, and the stored text still hashes to its id. *)
Theorem ingest_stored_json_again orig limits policy vt ids ev :
  value_wf true orig = true →
  parse_and_verify_event_with orig limits policy true vt ids = Ok ev →
  ∃ v, parse_strict (json ev) = Ok v ∧
    parse_and_verify_event_with v limits policy true vt ids = Ok ev.
Proof.
  intros Hwf H. pose proof H as (e & Hp & _ & Hn & Hvm & _)%parse_and_verify_Ok.
  destruct (Hvm eq_refl) as [_ [(sig & Hsig & _) _]%verify_nostr_event_Ok].
  apply normalize_event_json_Ok in Hn as [Hf ->].
  destruct (normalized_value_reads_back _ _ _ _ _ Hwf Hp Hsig) as [Wn Dn].
  exists (normalized_value orig). split; [by apply parse_strict_written|].
  rewrite <-H. apply parse_and_verify_same. split; [done|]. split.
  { unfold pack_event in Hp. by destruct (is_object orig). }
  intros k Hk. rewrite normalized_value_get by done. rewrite Forall_forall in Hf.
  by destruct (Hf k Hk) as [x ->].
Qed.
End reingest.

(** ** Timestamps *)

Lemma view_created_at_bound p : bytes_ok p → 0 ≤ PackedEventView_created_at p.
Proof.
  intros Hp. unfold PackedEventView_created_at, from_ne_bytes, slice.
  apply from_le_bytes_bound. by apply Forall_take, Forall_drop.
Qed.

Lemma view_created_at_max p : bytes_ok p → PackedEventView_created_at p ≤ U64_MAX.
Proof.
  intros Hp. unfold PackedEventView_created_at, from_ne_bytes, slice.
  set (b := take _ _). assert (bytes_ok b) as Hb by (by apply Forall_take, Forall_drop).
  pose proof (from_le_bytes_bound b Hb) as [_ H].
  assert (length b ≤ 8)%nat as Hl by (unfold b; rewrite length_take; lia).
  assert (256 ^ len b ≤ 256 ^ 8) by (apply Z.pow_le_mono_r; lia).
  unfold U64_MAX. change (2 ^ 64) with (256 ^ 8). lia.
Qed.

(** The timestamp check accepts exactly the events in the window the policy
    describes, with no error from saturating arithmetic: not older than the bound
    for their class (none when [reject_older_than_secs] is 0 for a non-ephemeral
    event), not newer than the clock plus the allowance, and not expired. *)
Theorem verify_event_timestamp_window p policy :
  bytes_ok p → u64_ok (now_secs policy) → u64_ok (reject_newer_than_secs policy) →
  u64_ok (reject_older_than_secs policy) → u64_ok (reject_ephemeral_older_than_secs policy) →
  let ts := PackedEventView_created_at p in
  let now := now_secs policy in
  let exp := PackedEventView_expiration p in
  verify_event_timestamp p policy = Ok tt ↔
  (exp = 1 → now - reject_ephemeral_older_than_secs policy ≤ ts) ∧
  (exp ≠ 1 → reject_older_than_secs policy = 0 ∨ now - reject_older_than_secs policy ≤ ts) ∧
  ts ≤ now + reject_newer_than_secs policy ∧
  (exp ≤ 1 ∨ now < exp).
Proof.
  intros Hp Hnow Hnew Hold Heph. cbv zeta. pose proof (view_created_at_bound p Hp) as Hts.
  pose proof (view_created_at_max p Hp) as Htm. unfold verify_event_timestamp, sat_sub, sat_add.
  unfold u64_ok in *. set (ts := PackedEventView_created_at p) in *. clearbody ts.
  generalize (PackedEventView_expiration p). intros exp. destruct policy as [now new old eph]. cbn in *.
  assert (∀ a b, (a >? b) = (b <? a)) as Hgt by apply Z.gtb_ltb. rewrite !Hgt. clear Hgt.
  set (max_age := if exp =? 1 then eph else if old =? 0 then U64_MAX else old).
  assert (0 ≤ max_age) as Ha by (unfold max_age; repeat case_match; lia).
  assert ((now <? Z.max 0 (now - max_age)) = false) as -> by (apply Z.ltb_ge; lia).
  assert ((Z.min U64_MAX (now + new) <? now) = false) as -> by (apply Z.ltb_ge; lia).
  assert ((ts <? Z.max 0 (now - max_age)) = false ↔
    (exp = 1 → now - eph ≤ ts) ∧ (exp ≠ 1 → old = 0 ∨ now - old ≤ ts)) as Hearly.
  { rewrite Z.ltb_ge. unfold max_age.
    destruct (exp =? 1) eqn:?, (old =? 0) eqn:?; bool_to_prop; lia. }
  destruct (ts <? Z.max 0 (now - max_age)); [split; [by destruct (exp =? 1)|naive_solver]|].
  destruct (Z.min U64_MAX (now + new) <? ts) eqn:E; [bool_to_prop; split; [done|lia]|].
  destruct ((1 <? exp) && (exp <=? now)) eqn:F; bool_to_prop; [split; [done|lia]|].
  assert (exp ≤ 1 ∨ now < exp) by (destruct F; bool_to_prop; lia).
  split; [|done]. intros _. destruct Hearly as [Hearly _]. specialize (Hearly eq_refl). lia.
Qed.

Lemma verify_event_timestamp_window_witness :
  verify_event_timestamp (sample_packed (sample_event (replicate 32 7) []))
    (mkTimestampPolicy 1700000100 900 94608000 60) = Ok tt.
Proof.
  apply (verify_event_timestamp_window (sample_packed (sample_event (replicate 32 7) []))
    (mkTimestampPolicy 1700000100 900 94608000 60)).
  1: { apply (bool_decide_eq_true_1 _). by vm_compute. }
  1-4: unfold u64_ok, U64_MAX; cbn; lia.
  vm_compute. intuition congruence.
Defined.

(** ** Deletion protection *)

Lemma named_inv name v : named name v = true → ∃ rest, v = Array (Str (str name) :: rest).
Proof.
  unfold named. intros H. bool_to_prop. destruct v as [| | | |[|[| | |s| |] a]|]; try done.
  cbn in H. simplify_eq. eauto.
Qed.

Lemma canonical_expiration_spec tag more :
  canonical_expiration (Str (str "expiration") :: tag) more = true ↔
  more = false ∧ ∃ n, u64_ok n ∧ tag = [Str (u64_to_string n)].
Proof.
  unfold canonical_expiration. cbv zeta. rewrite negb_true_iff. split.
  - intros H. repeat (apply orb_false_iff in H as [H ?]). bool_to_prop.
    split; [done|]. destruct tag as [|v [|]]; try done. cbn [lookup list_lookup] in *.
    destruct v; cbn in *; try done.
    match goal with H : is_Some _ |- _ => destruct H as [n Hn] end. exists n.
    pose proof (parse_u64_digits_Some _ _ Hn) as (Hu & _). split; [done|]. do 2 f_equal.
    apply canonical_digits_unique; [|done].
    destruct s as [|d t]; [done|]. exists d, t. split; [done|].
    destruct t as [|d' t]; [by left|right]. intros ->.
    match goal with H : _ ∨ _ |- _ => destruct H as [H|H]; by vm_compute in H end.
  - intros (-> & n & Hn & ->). cbn [lookup list_lookup mbind option_bind as_str default from_option].
    unfold Datatypes.id. rewrite parse_u64_to_string by done.
    pose proof (all_digits_u64_to_string n Hn) as Hd. unfold all_digits in Hd.
    apply andb_prop in Hd as [Hne Hd]. apply negb_true_iff in Hne. rewrite Hne, Hd.
    cbn [length Nat.eqb negb orb]. rewrite bool_decide_true by eauto. cbn [negb].
    rewrite orb_false_r. apply andb_false_iff.
    destruct (u64_to_string_spec n Hn) as (_ & _ & (d & t & -> & [->|Hz]) & _); [by left|right].
    unfold starts_with. change (str "0") with [48]. cbn [strip_prefix]. by rewrite decide_False.
Qed.

(** C36. An event is protected from author deletion exactly when it carries one
    bare [no_delete] tag, at most one expiration, which is then a [u64] in its
    canonical decimal form, and a regular kind. *)
Theorem deletion_protection_spec event :
  deletion_protection event = Ok true ↔
  ∃ tags kind,
    (value_get event "tags" ≫= as_array) = Some tags ∧
    (value_get event "kind" ≫= as_u64) = Some kind ∧
    filter (λ t, named NO_DELETE_TAG t = true) tags = [Array [Str (str NO_DELETE_TAG)]] ∧
    (filter (λ t, named "expiration" t = true) tags = [] ∨
     ∃ n, u64_ok n ∧ filter (λ t, named "expiration" t = true) tags =
       [Array [Str (str "expiration"); Str (u64_to_string n)]]) ∧
    is_replaceable_kind kind = false ∧ is_param_replaceable_kind kind = false ∧
    is_ephemeral_kind kind = false.
Proof.
  unfold deletion_protection. split.
  - destruct (value_get event "tags" ≫= as_array) as [tags|]; [|done].
    destruct (filter (λ t, named NO_DELETE_TAG t = true) tags) as [|marker markers] eqn:Hm; [done|].
    assert (∃ rest, marker = Array (Str (str NO_DELETE_TAG) :: rest)) as [rest ->].
    { apply named_inv. assert (marker ∈ filter (λ t, named NO_DELETE_TAG t = true) tags) as Hin
        by (rewrite Hm; left). by apply list_elem_of_filter in Hin as [Hin _]. }
    cbn [as_array default from_option]. unfold Datatypes.id. destruct (_ || _) eqn:E; [done|].
    bool_to_prop. destruct rest; [|done]. subst markers. intros Hrun. inv_bind Hrun. inv_bind Hrun.
    apply ok_or_Ok in Hv0. destruct (_ || _) eqn:Hk; [done|]. bool_to_prop.
    exists tags, v0. split_and!; try done.
    destruct (filter (λ t, named "expiration" t = true) tags) as [|x xs] eqn:Hx; [by left|right].
    assert (∃ rest, x = Array (Str (str "expiration") :: rest)) as [rest ->].
    { apply named_inv. assert (x ∈ filter (λ t, named "expiration" t = true) tags) as Hin
        by (rewrite Hx; left). by apply list_elem_of_filter in Hin as [Hin _]. }
    cbn [as_array default from_option] in Hv. unfold Datatypes.id in Hv.
    destruct (canonical_expiration _ _) eqn:Hc; [|done].
    apply canonical_expiration_spec in Hc as (Hxs & n & Hn & ->). bool_to_prop. subst xs. eauto.
  - intros (tags & kind & -> & Hk & Hm & Hx & Hr & Hp & He). rewrite Hm. cbn [as_array default from_option].
    unfold Datatypes.id at 1. rewrite bool_decide_true by done. cbn [length Nat.eqb negb orb].
    destruct Hx as [->|(n & Hn & ->)].
    + cbn [mbind result_bind]. rewrite Hk. cbn. by rewrite Hr, Hp, He.
    + cbn [as_array default from_option]. unfold Datatypes.id.
      rewrite (proj2 (canonical_expiration_spec _ _)) by (rewrite bool_decide_true; eauto).
      cbn [mbind result_bind]. rewrite Hk. cbn. by rewrite Hr, Hp, He.
Qed.

(** ** Witnesses *)

(** The sample event with the id and the signature the stand-in hash and
    signature check give it. *)
Definition sample_id : bytes :=
  default [] (result_ok (event_id_hash (sample_event [] []))).
Definition sample_ok : Value :=
  sample_event sample_id (sample_id ++ replicate 32 17).
Definition sample_policy : TimestampPolicy :=
  mkTimestampPolicy 1700000100 900 94608000 60.
Definition sample_parsed : ParsedEvent :=
  default (mkParsedEvent [] []) (result_ok
    (parse_and_verify_event_with sample_ok EventLimits_default (Some sample_policy) true true IdNip01)).

Lemma verify_strfry_accepts_ingested_witness :
  verify_strfry_event (packed sample_parsed) sample_ok = Ok tt.
Proof.
  apply (verify_strfry_accepts_ingested sample_ok EventLimits_default (Some sample_policy) true IdNip01);
    by vm_compute.
Defined.

Lemma ingest_sound_witness :
  (length (json sample_parsed) ≤ max_event_size EventLimits_default)%nat.
Proof.
  apply (ingest_sound sample_ok EventLimits_default (Some sample_policy) true IdNip01);
    by vm_compute.
Defined.

Lemma ingest_stored_json_again_witness :
  ∃ v, parse_strict (json sample_parsed) = Ok v ∧
    parse_and_verify_event_with v EventLimits_default (Some sample_policy) true true IdNip01
      = Ok sample_parsed.
Proof.
  apply (ingest_stored_json_again sample_ok); by vm_compute.
Defined.
