(* ===== verification/Bech32.v ===== *)
(** * NIP-19 public keys: crates/wok-event/src/bech32.rs

    The bech32 checksum and the [npub] coding of a 32-byte public key.  The main
    result is the round trip: [decode_npub] reads what [encode_npub] writes. *)

From S2P Require Import Prelude Bits Json.

Local Open Scope Z_scope.

Definition CHARSET : bytes := str "qpzry9x8gf2tvdw0s3jn54khce6mua7l".
Definition GEN : list Z := [0x3b6a57b2; 0x26508e6d; 0x1ea119fa; 0x3d4233dd; 0x2a1462b3].

(** The inner loop of [polymod]. *)
Definition apply_gen (top chk : Z) : Z :=
  foldl (λ chk '(i, g),
    if Z.land (Z.shiftr top (Z.of_nat i)) 1 =? 1 then Z.lxor chk g else chk)
    chk (imap pair GEN).

Definition polymod_step (chk v : Z) : Z :=
  let top := Z.shiftr chk 25 in
  apply_gen top (Z.lxor (Z.shiftl (Z.land chk 0x1ffffff) 5) v).

Definition polymod (vals : bytes) : Z := foldl polymod_step 1 vals.

(** [iter().position] *)
Fixpoint position (c : Z) (l : bytes) : option nat :=
  match l with
  | [] => None
  | x :: l => if decide (x = c) then Some O else S <$> position c l
  end.

(** [iter().rposition] *)
Fixpoint rposition (c : Z) (l : bytes) : option nat :=
  match l with
  | [] => None
  | x :: l =>
      match rposition c l with
      | Some i => Some (S i)
      | None => if decide (x = c) then Some O else None
      end
  end.

Definition charset_rev (c : Z) : result EventError Z :=
  ok_or (Z.of_nat <$> position c CHARSET) (EventError_msg "invalid bech32 character").

(** Bit regrouping: the accumulator (a [u32], so shifts drop its high bits), the
    number of bits waiting in it and the groups written so far. *)
Record bitbuf : Type := mkBitbuf { acc : Z; bits : Z; out : bytes }.

(** [while bits >= w { bits -= w; out.push((acc >> bits) & (2^w - 1)); }]; each
    iteration takes [w > 0] bits away. *)
Fixpoint flush (w : Z) (fuel : nat) (b : bitbuf) : bitbuf :=
  match fuel with
  | O => b
  | S fuel =>
      if bits b <? w then b
      else
        let n := bits b - w in
        flush w fuel (mkBitbuf (acc b) n (out b ++ [Z.land (Z.shiftr (acc b) n) (Z.ones w)]))
  end.

(** One group of [win] bits in, groups of [wout] bits out. *)
Definition regroup (win wout : Z) (b : bitbuf) (v : Z) : bitbuf :=
  let a := Z.lor (wrap32 (Z.shiftl (acc b) win)) v in
  let n := bits b + win in
  flush wout (Z.to_nat n) (mkBitbuf a n (out b)).

Definition NPUB : bytes := str "npub".

(** The human-readable part in the checksum: its high bits, a zero, its low
    bits. *)
Definition hrp_vals (hrp : bytes) : bytes :=
  ((λ c, Z.shiftr c 5) <$> hrp) ++ [0] ++ ((λ c, Z.land c 31) <$> hrp).

Definition bech32_err : EventError := EventError_msg "invalid bech32".

Definition decode_npub (input : bytes) : result EventError bytes :=
  if (Z.to_nat 5000 <? length input)%nat then Err bech32_err
  else if existsb is_ascii_lowercase input && existsb is_ascii_uppercase input then Err bech32_err
  else
    let lb := to_ascii_lowercase input in
    pos ← ok_or (rposition (ch "1") lb) bech32_err;
    if (pos =? 0)%nat || (length lb <? pos + 7)%nat then Err bech32_err
    else
      let hrp := take pos lb in
      if bool_decide (hrp ≠ NPUB) then Err bech32_err
      else
        data ← try_fold (λ vals c, v ← charset_rev c; Ok (vals ++ [v])) [] (drop (S pos) lb);
        let vals := hrp_vals hrp ++ data in
        if negb (polymod vals =? 1) then Err bech32_err
        else
          let payload := slice (2 * length hrp + 1) (length vals - 6) vals in
          let b := foldl (regroup 5 8) (mkBitbuf 0 0 []) payload in
          if (5 <=? bits b) || negb (Z.land (wrap32 (Z.shiftl (acc b) (8 - bits b))) 0xff =? 0)
          then Err (EventError_msg "convertbits failed")
          else if negb (length (out b) =? 32)%nat
          then Err (EventError_msg "unexpected size from bech32")
          else Ok (out b).

Definition charset_char (v : Z) : Z := default 0 (CHARSET !! Z.to_nat v).

Definition encode_npub (pubkey : bytes) : bytes :=
  let b := foldl (regroup 8 5) (mkBitbuf 0 0 []) pubkey in
  let payload :=
    if bits b >? 0 then out b ++ [Z.land (wrap32 (Z.shiftl (acc b) (5 - bits b))) 31] else out b in
  let checksum := Z.lxor (polymod (hrp_vals NPUB ++ payload ++ replicate 6 0)) 1 in
  str "npub1" ++ (charset_char <$> payload)
    ++ ((λ shift, charset_char (Z.land (Z.shiftr checksum (shift * 5)) 31)) <$> [5; 4; 3; 2; 1; 0]).

(** ** Lemmas: the checksum is linear *)

Lemma apply_gen_lxor top a b : apply_gen top (Z.lxor a b) = Z.lxor (apply_gen top a) b.
Proof.
  unfold apply_gen. generalize (imap pair GEN). intros l. revert a.
  induction l as [|[i g] l IH]; intros a; [done|]. cbn [foldl]. destruct (_ =? 1); [|apply IH].
  rewrite <-IH. f_equal. rewrite !Z.lxor_assoc. f_equal. apply Z.lxor_comm.
Qed.

Lemma apply_gen_bound top a : 0 ≤ a < 2 ^ 30 → 0 ≤ apply_gen top a < 2 ^ 30.
Proof.
  assert (Forall (λ '(_, g), 0 ≤ g < 2 ^ 30) (imap pair GEN)) as Hg by (repeat constructor; lia).
  unfold apply_gen. revert a. induction Hg as [|[i g] l Hg Hl IH]; intros a Ha; [done|].
  cbn [foldl]. destruct (_ =? 1); [|by apply IH]. apply IH. by apply lxor_bound.
Qed.

Lemma polymod_step_bound chk v : 0 ≤ v < 32 → 0 ≤ polymod_step chk v < 2 ^ 30.
Proof.
  intros Hv. unfold polymod_step. cbv zeta. apply apply_gen_bound, lxor_bound; [lia| |lia].
  change 0x1ffffff with (Z.ones 25). rewrite Z.land_ones, Z.shiftl_mul_pow2 by lia.
  pose proof (Z.mod_pos_bound chk (2 ^ 25)). lia.
Qed.

(** Five bits at a time, a value xored in moves up with the checksum until it
    reaches the top five bits. *)
Lemma polymod_step_lxor c d v :
  0 ≤ d < 2 ^ 25 → polymod_step (Z.lxor c d) v = Z.lxor (polymod_step c 0) (Z.lxor (Z.shiftl d 5) v).
Proof.
  intros Hd. unfold polymod_step. cbv zeta.
  rewrite Z.shiftr_lxor, (Z.shiftr_div_pow2 d), (Z.div_small d), Z.lxor_0_r by lia.
  rewrite land_lxor_distr, Z.shiftl_lxor, Z.lxor_0_r.
  change 0x1ffffff with (Z.ones 25). rewrite (Z.land_ones d), (Z.mod_small d) by lia.
  by rewrite Z.lxor_assoc, apply_gen_lxor.
Qed.

Lemma polymod_tail c vs d k :
  0 ≤ d < 2 ^ (5 * Z.of_nat k) → Forall (λ v, 0 ≤ v < 32) vs → (k + length vs ≤ 6)%nat →
  foldl polymod_step (Z.lxor c d) vs =
  Z.lxor (foldl polymod_step c (replicate (length vs) 0)) (foldl (λ d v, d * 2 ^ 5 + v) d vs).
Proof.
  intros Hd Hvs. revert c d k Hd. induction Hvs as [|v vs Hv Hvs IH]; intros c d k Hd Hk; [done|].
  cbn [foldl length replicate] in *.
  assert (2 ^ (5 * Z.of_nat k) ≤ 2 ^ 25) by (apply Z.pow_le_mono_r; lia).
  rewrite polymod_step_lxor, Z.shiftl_mul_pow2, lxor_shifted by lia.
  apply (IH _ _ (S k)); [|lia]. rewrite Nat2Z.inj_succ, Z.mul_succ_r, Z.pow_add_r by lia. lia.
Qed.

(** The six groups of a 30-bit number, high group first. *)
Definition checksum_groups (c : Z) : bytes :=
  (λ shift, Z.land (Z.shiftr c (shift * 5)) 31) <$> [5; 4; 3; 2; 1; 0].

Lemma checksum_groups_ok c : Forall (λ v, 0 ≤ v < 32) (checksum_groups c).
Proof.
  apply Forall_forall. intros v (s & -> & _)%list_elem_of_fmap.
  change 31 with (Z.ones 5). rewrite Z.land_ones by lia. apply Z.mod_pos_bound. lia.
Qed.

Lemma val_checksum_groups c : 0 ≤ c < 2 ^ 30 → val 5 (checksum_groups c) = c.
Proof.
  intros Hc. unfold checksum_groups, val. cbn [fmap list_fmap foldl].
  change 31 with (Z.ones 5). rewrite !Z.land_ones, !Z.shiftr_div_pow2 by lia.
  change (2 ^ (5 * 5)) with 33554432. change (2 ^ (4 * 5)) with 1048576.
  change (2 ^ (3 * 5)) with 32768. change (2 ^ (2 * 5)) with 1024.
  change (2 ^ (1 * 5)) with 32. change (2 ^ (0 * 5)) with 1. change (2 ^ 5) with 32.
  change (2 ^ 30) with 1073741824 in Hc. zlia.
Qed.

Lemma polymod_bound vals : Forall (λ v, 0 ≤ v < 32) vals → vals ≠ [] → 0 ≤ polymod vals < 2 ^ 30.
Proof.
  intros Hv Hne. destruct vals as [|v vals _] using rev_ind; [done|]. unfold polymod.
  rewrite foldl_snoc. apply polymod_step_bound. apply Forall_app in Hv as [_ Hv].
  apply Forall_cons in Hv as [Hv _]. lia.
Qed.

(** Appending the groups of [polymod (vals ++ zeros) ^ 1] makes the checksum 1. *)
Lemma polymod_checksum vals :
  Forall (λ v, 0 ≤ v < 32) vals →
  polymod (vals ++ checksum_groups (Z.lxor (polymod (vals ++ replicate 6 0)) 1)) = 1.
Proof.
  intros Hv. set (p := polymod (vals ++ replicate 6 0)).
  assert (0 ≤ p < 2 ^ 30) as Hp.
  { apply polymod_bound; [|by destruct vals]. apply Forall_app. split; [done|by repeat constructor]. }
  assert (0 ≤ Z.lxor p 1 < 2 ^ 30) as Hx by (apply lxor_bound; lia).
  unfold polymod. rewrite foldl_app, <-(Z.lxor_0_r (foldl polymod_step 1 vals)).
  rewrite (polymod_tail _ _ 0 0); [|done|apply checksum_groups_ok|done].
  fold (val 5 (checksum_groups (Z.lxor p 1))). rewrite val_checksum_groups by done.
  assert (foldl polymod_step (foldl polymod_step 1 vals) (replicate 6 0) = p) as Hfold
    by (unfold p, polymod; by rewrite foldl_app).
  change (length (checksum_groups (Z.lxor p 1))) with 6%nat.
  by rewrite Hfold, <-Z.lxor_assoc, Z.lxor_nilpotent.
Qed.

(** ** Lemmas: regrouping bits *)

(** What is read so far, [N], is what is written followed by the bits that
    wait. *)
Definition holds (w : Z) (N : Z) (b : bitbuf) : Prop :=
  0 ≤ bits b ≤ 32 ∧ Forall (λ v, 0 ≤ v < 2 ^ w) (out b) ∧
  val w (out b) * 2 ^ bits b + acc b mod 2 ^ bits b = N.

Lemma flush_step_holds w N b :
  0 < w → w ≤ bits b → holds w N b →
  holds w N (mkBitbuf (acc b) (bits b - w)
    (out b ++ [Z.land (Z.shiftr (acc b) (bits b - w)) (Z.ones w)])).
Proof.
  intros Hw Hb (Hbits & Hout & HN). unfold holds. cbn [acc bits out].
  rewrite Z.land_ones, Z.shiftr_div_pow2 by lia. set (n := bits b - w).
  replace (bits b) with (n + w) in * by lia. clearbody n.
  assert (0 < 2 ^ w) by (apply Z.pow_pos_nonneg; lia).
  assert (0 < 2 ^ n) by (apply Z.pow_pos_nonneg; lia).
  split; [lia|]. split.
  - apply Forall_app. split; [done|]. constructor; [|constructor]. apply Z.mod_pos_bound. lia.
  - rewrite val_snoc. rewrite <-HN, Z.pow_add_r by lia.
    rewrite (Z.rem_mul_r (acc b) (2 ^ n) (2 ^ w)) by lia. ring.
Qed.

Lemma flush_holds w N fuel b :
  0 < w → bits b < Z.of_nat fuel * w + w → holds w N b →
  let b' := flush w fuel b in
  holds w N b' ∧ bits b' < w ∧ w * len (out b') + bits b' = w * len (out b) + bits b.
Proof.
  intros Hw. revert b. induction fuel as [|fuel IH]; intros b Hf Hb; cbn zeta; cbn [flush].
  - split; [done|]. split; lia.
  - destruct (bits b <? w) eqn:E; bool_to_prop; [done|].
    pose proof (flush_step_holds w N b Hw E Hb) as Hs.
    rewrite Nat2Z.inj_succ, Z.mul_succ_l in Hf.
    destruct (λ Hf2, IH _ Hf2 Hs) as (H1 & H2 & H3); [cbn; lia|]. split; [done|]. split; [done|].
    rewrite H3. cbn [out bits]. rewrite length_app. cbn. lia.
Qed.

Lemma regroup_holds win wout N b v :
  0 < win → 0 < wout → win + wout ≤ 32 → 0 ≤ v < 2 ^ win → bits b < wout → holds wout N b →
  let b' := regroup win wout b v in
  holds wout (N * 2 ^ win + v) b' ∧ bits b' < wout ∧
  wout * len (out b') + bits b' = wout * len (out b) + bits b + win.
Proof.
  intros Hwin Hwout Hmax Hv Hb (Hbits & Hout & HN). unfold regroup.
  set (a := Z.lor _ v). set (n := bits b + win).
  destruct (flush_holds wout (N * 2 ^ win + v) (Z.to_nat n) (mkBitbuf a n (out b))) as (H1 & H2 & H3).
  - done.
  - cbn. unfold n. nia.
  - split; [cbn; lia|]. split; [done|]. cbn [acc bits out].
    assert (a mod 2 ^ n = (acc b mod 2 ^ bits b) * 2 ^ win + v) as ->.
    + unfold a, n, wrap32. rewrite Z.shiftl_mul_pow2 by lia.
      replace (2 ^ 32) with (2 ^ (32 - win) * 2 ^ win) by (rewrite <-Z.pow_add_r by lia; f_equal; lia).
      rewrite Z.mul_mod_distr_r by (apply Z.pow_nonzero; lia). rewrite lor_shifted by lia.
      rewrite Z.pow_add_r, Z.mul_comm by lia.
      assert (0 < 2 ^ win) by (apply Z.pow_pos_nonneg; lia).
      assert (0 < 2 ^ bits b) by (apply Z.pow_pos_nonneg; lia).
      rewrite (Z.mul_comm (2 ^ bits b)).
      rewrite Z.rem_mul_r by lia.
      rewrite (Z.add_comm _ v), (Z.mul_comm (2 ^ win)), Z.mod_add, Z.div_add by lia.
      rewrite Z.mod_small, (Z.div_small v), Z.add_0_l by lia.
      assert (acc b mod 2 ^ (32 - win) mod 2 ^ bits b = acc b mod 2 ^ bits b) as ->; [|lia].
      replace (32 - win) with ((32 - win - bits b) + bits b) by lia.
      rewrite Z.pow_add_r, (Z.mul_comm (2 ^ (32 - win - bits b))) by lia.
      rewrite Z.rem_mul_r by (try apply Z.pow_nonzero; lia || (apply Z.pow_pos_nonneg; lia)).
      rewrite (Z.mul_comm (2 ^ bits b)), Z.mod_add by lia. apply Z.mod_mod. lia.
    + unfold n. rewrite Z.pow_add_r by lia. lia.
  - split; [done|]. split; [done|]. rewrite H3. cbn. lia.
Qed.

Lemma regroup_all win wout vs :
  0 < win → 0 < wout → win + wout ≤ 32 → Forall (λ v, 0 ≤ v < 2 ^ win) vs →
  let b := foldl (regroup win wout) (mkBitbuf 0 0 []) vs in
  holds wout (val win vs) b ∧ bits b < wout ∧ wout * len (out b) + bits b = win * len vs.
Proof.
  intros Hwin Hwout Hmax Hvs. cbn zeta. induction vs as [|v vs IH] using rev_ind.
  - split; [split; [cbn; lia|]; split; [constructor|done]|].
    cbn [foldl bits out length]. lia.
  - apply Forall_app in Hvs as [Hvs [Hv _]%Forall_cons]. rewrite foldl_snoc.
    destruct (IH Hvs) as (H1 & H2 & H3).
    destruct (regroup_holds win wout _ _ v Hwin Hwout Hmax Hv H2 H1) as (G1 & G2 & G3).
    rewrite val_snoc. split; [done|]. split; [done|]. rewrite G3, H3, length_app. cbn. lia.
Qed.

(** ** Lemmas: characters *)

Lemma charset_facts v :
  0 ≤ v < 32 →
  charset_rev (charset_char v) = Ok v ∧ charset_char v ≠ ch "1" ∧
  is_ascii_uppercase (charset_char v) = false ∧ to_ascii_lowercase [charset_char v] = [charset_char v].
Proof.
  intros Hv. pose proof (forall_range (λ v, match charset_rev (charset_char v) with Ok x => x =? v | Err _ => false end
    && bool_decide (charset_char v ≠ ch "1") && negb (is_ascii_uppercase (charset_char v))
    && bool_decide (to_ascii_lowercase [charset_char v] = [charset_char v])) 32
    ltac:(by vm_compute) v Hv) as H.
  cbv beta in H. destruct (charset_rev _) as [x|]; [|done]. bool_to_prop. by subst.
Qed.

Lemma land_wrap32 x n : 0 ≤ n ≤ 32 → Z.land (wrap32 x) (Z.ones n) = x mod 2 ^ n.
Proof.
  intros Hn. rewrite Z.land_ones by lia. unfold wrap32. apply Z.mod_mod_divide.
  exists (2 ^ (32 - n)). rewrite <-Z.pow_add_r by lia. f_equal. lia.
Qed.

(** The payload of an encoded key: its 256 bits and four zero bits, in 52
    groups of five. *)
Lemma encode_npub_payload pk :
  bytes_ok pk → length pk = 32%nat →
  ∃ payload, Forall (λ v, 0 ≤ v < 32) payload ∧ length payload = 52%nat ∧
    val 5 payload = val 8 pk * 16 ∧
    encode_npub pk = str "npub1" ++ (charset_char <$> payload ++
      checksum_groups (Z.lxor (polymod ((hrp_vals NPUB ++ payload) ++ replicate 6 0)) 1)).
Proof.
  intros Hpk Hlen. unfold encode_npub.
  destruct (regroup_all 8 5 pk ltac:(lia) ltac:(lia) ltac:(lia) Hpk) as ((Hb & Ho & HN) & H2 & H3).
  set (b := foldl (regroup 8 5) _ pk) in *. rewrite Hlen in H3.
  assert (bits b = 1) as H1 by lia. rewrite H1 in *.
  assert (length (out b) = 51%nat) as Hl by lia. cbn [Z.gtb Z.compare].
  assert (Z.land (wrap32 (Z.shiftl (acc b) (5 - 1))) 31 = acc b mod 2 * 16) as ->.
  { change 31 with (Z.ones 5). rewrite land_wrap32, Z.shiftl_mul_pow2 by lia.
    change (2 ^ (5 - 1)) with 16. change (2 ^ 5) with 32. zlia. }
  exists (out b ++ [acc b mod 2 * 16]). split_and!.
  - apply Forall_app. split; [done|]. constructor; [zlia|constructor].
  - rewrite length_app, Hl. done.
  - rewrite val_snoc, <-HN. change (2 ^ 1) with 2. lia.
  - rewrite !fmap_app, <-!app_assoc. unfold checksum_groups. by rewrite <-list_fmap_compose.
Qed.

Lemma rposition_last c a b : c ∉ b → rposition c (a ++ c :: b) = Some (length a).
Proof.
  intros Hc. assert (rposition c b = None) as Hn.
  { induction b as [|x b IH]; [done|]. apply not_elem_of_cons in Hc as [Hx Hb]. cbn.
    by rewrite IH, decide_False by done. }
  induction a as [|x a IH]; cbn; [by rewrite Hn, decide_True|]. by rewrite IH.
Qed.

(** Reading the characters of valid groups. *)
Lemma charset_chars vs :
  Forall (λ v, 0 ≤ v < 32) vs →
  (ch "1" ∉ charset_char <$> vs) ∧ existsb is_ascii_uppercase (charset_char <$> vs) = false ∧
  to_ascii_lowercase (charset_char <$> vs) = charset_char <$> vs ∧
  ∀ acc, try_fold (λ vals c, v ← charset_rev c; Ok (vals ++ [v])) acc (charset_char <$> vs) = Ok (acc ++ vs).
Proof.
  induction 1 as [|v vs Hv Hvs IH].
  - split_and!; [apply not_elem_of_nil|done..|]. intros acc. cbn. by rewrite app_nil_r.
  - destruct (charset_facts v Hv) as (H1 & H2 & H3 & H4). destruct IH as (I1 & I2 & I3 & I4).
    rewrite fmap_cons. split_and!.
    + by apply not_elem_of_cons.
    + cbn [existsb]. by rewrite H3, I2.
    + change (to_ascii_lowercase (charset_char v :: (charset_char <$> vs))) with
        (to_ascii_lowercase [charset_char v] ++ to_ascii_lowercase (charset_char <$> vs)).
      by rewrite H4, I3.
    + intros acc. cbn [try_fold]. rewrite H1. cbn [mbind result_bind]. rewrite I4. by rewrite <-app_assoc.
Qed.

(** A text with a valid checksum decodes to its regrouped payload. *)
Lemma decode_npub_text payload cs :
  Forall (λ v, 0 ≤ v < 32) (payload ++ cs) → length cs = 6%nat → (length payload ≤ 1000)%nat →
  polymod (hrp_vals NPUB ++ payload ++ cs) = 1 →
  decode_npub (str "npub1" ++ (charset_char <$> payload ++ cs)) =
  let b := foldl (regroup 5 8) (mkBitbuf 0 0 []) payload in
  if (5 <=? bits b) || negb (Z.land (wrap32 (Z.shiftl (acc b) (8 - bits b))) 0xff =? 0)
  then Err (EventError_msg "convertbits failed")
  else if negb (length (out b) =? 32)%nat then Err (EventError_msg "unexpected size from bech32")
  else Ok (out b).
Proof.
  intros Hvs Hcs Hl Hp. destruct (charset_chars _ Hvs) as (H1 & H2 & H3 & H4).
  assert (length (charset_char <$> payload ++ cs) = length payload + 6)%nat as Hlen
    by (rewrite length_fmap, length_app; lia).
  set (text := charset_char <$> payload ++ cs) in *. unfold decode_npub.
  destruct (_ <? _)%nat eqn:E; [apply Nat.ltb_lt in E; rewrite length_app, Hlen in E; cbn in E; lia|].
  rewrite (existsb_app is_ascii_uppercase), H2, andb_false_r.
  assert (to_ascii_lowercase (str "npub1" ++ text) = NPUB ++ ch "1" :: text) as ->
    by (unfold to_ascii_lowercase in *; by rewrite fmap_app, H3).
  cbv zeta. rewrite rposition_last by done. cbn [ok_or mbind result_bind].
  change (length NPUB) with 4%nat. cbn [Nat.eqb orb].
  assert ((length (NPUB ++ ch "1" :: text) <? 4 + 7)%nat = false) as ->
    by (apply Nat.ltb_ge; rewrite length_app; cbn; lia).
  change (take 4 (NPUB ++ ch "1" :: text)) with NPUB. rewrite bool_decide_false by tauto.
  change (drop 5 (NPUB ++ ch "1" :: text)) with text.
  rewrite H4. cbn [mbind result_bind app]. rewrite Hp. cbn [Z.eqb Pos.eqb negb].
  assert (slice (2 * length NPUB + 1) (length (hrp_vals NPUB ++ payload ++ cs) - 6)
    (hrp_vals NPUB ++ payload ++ cs) = payload) as ->; [|done].
  unfold slice. rewrite !length_app, Hcs. change (length (hrp_vals NPUB)) with 9%nat.
  change (2 * length NPUB + 1)%nat with (length (hrp_vals NPUB)).
  rewrite drop_app_length, take_app_length' by (change (length (hrp_vals NPUB)) with 9%nat; lia). done.
Qed.

(** ** Properties *)

(** C39. [decode_npub] reads back what [encode_npub] writes, for every 32-byte
    public key: the checksum holds, the regrouped bits are the key's and the
    padding is zero. *)
Theorem decode_encode_npub pk :
  bytes_ok pk → length pk = 32%nat → decode_npub (encode_npub pk) = Ok pk.
Proof.
  intros Hpk Hlen. destruct (encode_npub_payload pk Hpk Hlen) as (payload & Hp & Hl & Hval & ->).
  set (cs := checksum_groups _).
  assert (Forall (λ v, 0 ≤ v < 32) (hrp_vals NPUB ++ payload)) as Hall.
  { apply Forall_app. split; [|done]. apply (bool_decide_eq_true_1 _). by vm_compute. }
  rewrite decode_npub_text; [|..|done|lia|].
  2:{ apply Forall_app. split; [done|apply checksum_groups_ok]. }
  2:{ rewrite app_assoc. by apply polymod_checksum. }
  destruct (regroup_all 5 8 payload ltac:(lia) ltac:(lia) ltac:(lia) Hp) as ((Hb & Ho & HN) & H2 & H3).
  cbv zeta. set (b := foldl (regroup 5 8) _ payload) in *. rewrite Hl in H3.
  assert (bits b = 4) as H4 by lia. rewrite H4 in *. assert (length (out b) = 32%nat) as Lo by lia.
  change 0xff with (Z.ones 8). rewrite land_wrap32, Z.shiftl_mul_pow2, Lo by lia.
  rewrite Hval in HN. change (2 ^ 4) with 16 in HN.
  assert (acc b mod 16 = 0 ∧ val 8 (out b) = val 8 pk) as [E1 E2] by zlia.
  assert ((acc b * 2 ^ (8 - 4)) mod 2 ^ 8 = 0) as -> by (change (2 ^ (8 - 4)) with 16; zlia).
  cbn. f_equal. apply (val_inj 8); try done; lia.
Qed.

Lemma decode_encode_npub_witness :
  decode_npub (encode_npub (replicate 32 0xA7)) = Ok (replicate 32 0xA7).
Proof. apply decode_encode_npub; [by apply Forall_replicate|done]. Defined.
