(* ===== verification/NegEncoding.v ===== *)
(** * Negentropy encoding: wok-negentropy's encoding.rs and error.rs

    Reading bytes off a message and the variable-length integers of the
    protocol.  A reader that advances [&mut &[u8]] returns the bytes left. *)

From S2P Require Import Prelude Bits.

Local Open Scope Z_scope.

Inductive NegError : Type := NegMessage (m : text).

Definition NegError_msg (m : string) : NegError := NegMessage (Text m []).

Definition get_byte (encoded : bytes) : result NegError (Z * bytes) :=
  match encoded with
  | [] => Err (NegError_msg "parse ends prematurely")
  | b :: encoded => Ok (b, encoded)
  end.

Definition get_bytes (encoded : bytes) (n : Z) : result NegError (bytes * bytes) :=
  if len encoded <? n then Err (NegError_msg "parse ends prematurely")
  else Ok (take (Z.to_nat n) encoded, drop (Z.to_nat n) encoded).

(** The loop of [decode_varint]; the shift drops the bits above 64. *)
Fixpoint decode_varint_loop (res : Z) (encoded : bytes) : result NegError (Z * bytes) :=
  match encoded with
  | [] => Err (NegError_msg "premature end of varint")
  | byte :: encoded =>
      let res := Z.lor (wrap64 (Z.shiftl res 7)) (Z.land byte 0x7F) in
      if Z.land byte 0x80 =? 0 then Ok (res, encoded)
      else decode_varint_loop res encoded
  end.

Definition decode_varint (encoded : bytes) : result NegError (Z * bytes) :=
  decode_varint_loop 0 encoded.

(** [while n != 0 { o.push(n & 0x7F); n >>= 7; }]; a [u64] has at most ten
    groups of seven bits. *)
Fixpoint varint_groups (fuel : nat) (n : Z) : bytes :=
  match fuel with
  | O => []
  | S fuel =>
      if n =? 0 then [] else Z.land n 0x7F :: varint_groups fuel (Z.shiftr n 7)
  end.

Definition encode_varint (n : Z) : bytes :=
  if n =? 0 then [0]
  else
    let o := rev (varint_groups 10 n) in
    let last := (length o - 1)%nat in
    imap (λ i b, if (i <? last)%nat then Z.lor b 0x80 else b) o.

(** ** Lemmas *)

Lemma varint_groups_spec fuel n :
  0 ≤ n < 2 ^ (7 * Z.of_nat fuel) →
  Forall (λ v, 0 ≤ v < 2 ^ 7) (varint_groups fuel n) ∧
  val 7 (rev (varint_groups fuel n)) = n ∧ (n ≠ 0 → varint_groups fuel n ≠ []).
Proof.
  revert n. induction fuel as [|fuel IH]; intros n Hn.
  - cbn in *. split; [constructor|]. split; [lia|lia].
  - cbn [varint_groups]. destruct (n =? 0) eqn:E; bool_to_prop; [subst; by repeat split|].
    change 0x7F with (Z.ones 7). rewrite Z.land_ones, Z.shiftr_div_pow2 by lia.
    rewrite Nat2Z.inj_succ, Z.mul_succ_r, Z.pow_add_r in Hn by lia.
    destruct (IH (n / 2 ^ 7)) as (H1 & H2 & _).
    { split; [apply Z.div_pos; lia|]. apply Z.div_lt_upper_bound; lia. }
    split; [constructor; [apply Z.mod_pos_bound; lia|done]|]. split; [|done].
    cbn [rev]. rewrite val_snoc, H2. pose proof (Z.div_mod n (2 ^ 7)). lia.
Qed.

Lemma varint_flag_bits b :
  0 ≤ b < 128 →
  Z.land b 0x7F = b ∧ Z.land b 0x80 = 0 ∧
  Z.land (Z.lor b 0x80) 0x7F = b ∧ (Z.land (Z.lor b 0x80) 0x80 =? 0) = false ∧
  byte_ok b ∧ byte_ok (Z.lor b 0x80).
Proof.
  intros Hb. pose proof (forall_range (λ b, (Z.land b 0x7F =? b) && (Z.land b 0x80 =? 0)
    && (Z.land (Z.lor b 0x80) 0x7F =? b) && negb (Z.land (Z.lor b 0x80) 0x80 =? 0)
    && (b <? 256) && (0 <=? Z.lor b 0x80) && (Z.lor b 0x80 <? 256)) 128
    ltac:(by vm_compute) b Hb) as H.
  cbv beta in H. bool_to_prop. unfold byte_ok. split_and!; try done; try lia.
Qed.

(** One group read without loss. *)
Lemma varint_accumulate res v :
  0 ≤ res → 0 ≤ v < 128 → res * 128 + v < 2 ^ 64 →
  Z.lor (wrap64 (Z.shiftl res 7)) v = res * 128 + v.
Proof.
  intros Hr Hv Hb. unfold wrap64. rewrite Z.shiftl_mul_pow2, Z.mod_small by lia.
  by rewrite lor_shifted by lia.
Qed.

Lemma foldl_mono gs d :
  0 ≤ d → Forall (λ v, 0 ≤ v < 2 ^ 7) gs → d ≤ foldl (λ d v, d * 2 ^ 7 + v) d gs.
Proof.
  intros Hd Hg. revert d Hd. induction Hg as [|v gs Hv Hg IH]; intros d Hd; cbn [foldl]; [lia|].
  transitivity (d * 2 ^ 7 + v); [lia|apply IH; lia].
Qed.

Lemma decode_varint_groups gs last res r :
  0 ≤ res → Forall (λ v, 0 ≤ v < 2 ^ 7) gs → 0 ≤ last < 128 →
  foldl (λ d v, d * 2 ^ 7 + v) res (gs ++ [last]) < 2 ^ 64 →
  decode_varint_loop res (((λ b, Z.lor b 0x80) <$> gs) ++ last :: r) =
  Ok (foldl (λ d v, d * 2 ^ 7 + v) res (gs ++ [last]), r).
Proof.
  intros Hr Hg Hl. revert res Hr. induction Hg as [|v gs Hv Hg IH]; intros res Hr Hb.
  - cbn in Hb |- *. destruct (varint_flag_bits last Hl) as (-> & -> & _).
    by rewrite varint_accumulate by lia.
  - cbn [fmap list_fmap app decode_varint_loop]. cbn [app foldl] in Hb.
    destruct (varint_flag_bits v Hv) as (_ & _ & -> & -> & _).
    assert (res * 2 ^ 7 + v < 2 ^ 64).
    { eapply Z.le_lt_trans; [|exact Hb]. apply foldl_mono; [lia|].
      apply Forall_app. split; [done|]. by constructor. }
    rewrite varint_accumulate by lia. change 128 with (2 ^ 7). rewrite IH by (done || lia). done.
Qed.

Lemma encode_varint_shape n :
  u64_ok n →
  ∃ gs last, encode_varint n = ((λ b, Z.lor b 0x80) <$> gs) ++ [last] ∧
    Forall (λ v, 0 ≤ v < 2 ^ 7) gs ∧ 0 ≤ last < 128 ∧ val 7 (gs ++ [last]) = n.
Proof.
  unfold u64_ok, U64_MAX. intros Hn. unfold encode_varint. destruct (n =? 0) eqn:E; bool_to_prop.
  { subst. exists [], 0. repeat split; try done. }
  destruct (varint_groups_spec 10 n) as (H1 & H2 & H3).
  { change (7 * Z.of_nat 10) with 70. assert (2 ^ 64 < 2 ^ 70) by (apply Z.pow_lt_mono_r; lia). lia. }
  specialize (H3 E). apply Forall_rev in H1.
  destruct (rev (varint_groups 10 n)) as [|last gs _] eqn:R using rev_ind.
  { apply (f_equal (@rev Z)) in R. by rewrite rev_involutive in R. }
  apply Forall_app in H1 as [Hg [Hl _]%Forall_cons]. exists gs, last. split_and!; try done; try lia.
  cbv zeta. rewrite imap_app, length_app. cbn [length imap]. f_equal.
  - rewrite (imap_ext _ (const (λ b, Z.lor b 0x80))).
    + apply imap_const.
    + intros i x Hi%lookup_lt_Some. by rewrite (proj2 (Nat.ltb_lt _ _)) by lia.
  - by rewrite (proj2 (Nat.ltb_ge _ _)) by lia.
Qed.

Lemma decode_encode_varint n r :
  u64_ok n → decode_varint (encode_varint n ++ r) = Ok (n, r).
Proof.
  intros Hn. destruct (encode_varint_shape n Hn) as (gs & last & -> & Hg & Hl & Hv).
  unfold decode_varint. rewrite <-app_assoc. change ([last] ++ r) with (last :: r).
  rewrite decode_varint_groups; try done.
  - unfold val in Hv. by rewrite Hv.
  - unfold val in Hv. rewrite Hv. unfold u64_ok, U64_MAX in Hn. lia.
Qed.

Lemma encode_varint_ok n : u64_ok n → bytes_ok (encode_varint n).
Proof.
  intros Hn. destruct (encode_varint_shape n Hn) as (gs & last & -> & Hg & Hl & _).
  apply Forall_app. split.
  - rewrite Forall_fmap. eapply Forall_impl; [exact Hg|]. intros v Hv.
    apply (varint_flag_bits v Hv).
  - constructor; [|constructor]. apply (varint_flag_bits last Hl).
Qed.

Lemma get_bytes_app a r n : n = len a → get_bytes (a ++ r) n = Ok (a, r).
Proof.
  intros ->. unfold get_bytes. rewrite (proj2 (Z.ltb_ge _ _)) by (rewrite length_app; lia).
  by rewrite Nat2Z.id, take_app_length, drop_app_length.
Qed.

Lemma get_bytes_Ok encoded n a r :
  0 ≤ n → get_bytes encoded n = Ok (a, r) → encoded = a ++ r ∧ len a = n.
Proof.
  unfold get_bytes. intros Hn. destruct (_ <? _) eqn:E; [done|]. bool_to_prop.
  intros [= <- <-]. rewrite take_drop, length_take_le by lia. split; [done|lia].
Qed.

Lemma decode_varint_loop_Ok res encoded n r :
  decode_varint_loop res encoded = Ok (n, r) →
  ∃ used, encoded = used ++ r ∧ used ≠ [].
Proof.
  revert res. induction encoded as [|b encoded IH]; intros res; cbn [decode_varint_loop]; [done|].
  destruct (_ =? 0); [intros [= <- <-]; by exists [b]|].
  intros (used & -> & _)%IH. by exists (b :: used).
Qed.

Lemma decode_varint_Ok encoded n r :
  decode_varint encoded = Ok (n, r) → (length r < length encoded)%nat.
Proof.
  intros (used & -> & Hne)%decode_varint_loop_Ok. rewrite length_app.
  destruct used; [done|cbn; lia].
Qed.

(** ** Properties *)

(** A varint reads back: [decode_varint] returns the [u64] that
    [encode_varint] wrote and the bytes after it, and never more than ten bytes
    are used. *)
Theorem varint_roundtrip n r :
  u64_ok n →
  decode_varint (encode_varint n ++ r) = Ok (n, r) ∧ (1 ≤ length (encode_varint n) ≤ 10)%nat.
Proof.
  intros Hn. split; [by apply decode_encode_varint|]. unfold encode_varint.
  destruct (n =? 0) eqn:E; [cbn; lia|]. bool_to_prop. cbv zeta. rewrite length_imap, length_rev.
  assert (∀ fuel n, (length (varint_groups fuel n) ≤ fuel)%nat) as Hl.
  { clear. induction fuel as [|fuel IH]; intros n; cbn [varint_groups]; [done|].
    destruct (n =? 0); cbn [length]; [lia|]. specialize (IH (Z.shiftr n 7)). lia. }
  split; [|apply Hl]. cbn [varint_groups]. rewrite (proj2 (Z.eqb_neq n 0) E). cbn. lia.
Qed.

Lemma varint_roundtrip_witness :
  decode_varint (encode_varint U64_MAX ++ [7]) = Ok (U64_MAX, [7]) ∧
  (1 ≤ length (encode_varint U64_MAX) ≤ 10)%nat.
Proof. apply (varint_roundtrip U64_MAX [7]). by unfold u64_ok, U64_MAX. Defined.
