(* ===== verification/NegTypes.v ===== *)
(** * Negentropy types: wok-negentropy's types.rs

    Items ordered by timestamp and id, bounds between them, and the accumulator
    behind range fingerprints.  The main result is that the accumulator adds
    256-bit integers modulo [2 ^ 256], so a fingerprint does not depend on the
    order of the items and removing an item undoes adding it. *)

From S2P Require Import Prelude Bits Crates NegEncoding.

Local Open Scope Z_scope.

Definition ID_SIZE : nat := 32.
Definition FINGERPRINT_SIZE : nat := 16.
Definition PROTOCOL_VERSION : Z := 0x61.
Definition MAX_U64 : Z := U64_MAX.

Inductive Mode : Type := Skip | Fingerprint | IdList.

#[export] Instance Mode_eq_dec : EqDecision Mode.
Proof. solve_decision. Defined.

(** [mode as u64] *)
Definition Mode_code (m : Mode) : Z :=
  match m with Skip => 0 | Fingerprint => 1 | IdList => 2 end.

Definition Mode_try_from (v : Z) : result NegError Mode :=
  if v =? 0 then Ok Skip
  else if v =? 1 then Ok Fingerprint
  else if v =? 2 then Ok IdList
  else Err (NegError_msg "unexpected mode").

(** ** Items and bounds *)

Record Item : Type := mkItem { timestamp : Z; item_id : bytes }.

#[export] Instance Item_eq_dec : EqDecision Item.
Proof. solve_decision. Defined.

Definition Item_default : Item := mkItem 0 (replicate ID_SIZE 0).

Definition Item_new (timestamp : Z) (id : bytes) : result NegError Item :=
  if negb (length id =? ID_SIZE)%nat then Err (NegError_msg "bad id size for Item")
  else Ok (mkItem timestamp id).

Definition Item_cmp (a b : Item) : comparison :=
  then_with (timestamp a ?= timestamp b) (bytes_cmp (item_id a) (item_id b)).

Record Bound : Type := mkBound { bound_item : Item; id_len : nat }.

#[export] Instance Bound_eq_dec : EqDecision Bound.
Proof. solve_decision. Defined.

Definition Bound_timestamp (timestamp : Z) : Bound :=
  mkBound (mkItem timestamp (replicate ID_SIZE 0)) 0.

Definition Bound_with_id_prefix (timestamp : Z) (id : bytes) : result NegError Bound :=
  if (ID_SIZE <? length id)%nat then Err (NegError_msg "bad id size for Bound")
  else Ok (mkBound (mkItem timestamp (id ++ replicate (ID_SIZE - length id) 0)) (length id)).

Definition Bound_from_item (item : Item) : Bound := mkBound item ID_SIZE.

Definition Bound_default : Bound := Bound_timestamp 0.

Definition Bound_cmp (a b : Bound) : comparison := Item_cmp (bound_item a) (bound_item b).

(** ** The accumulator *)

Abbreviation Accumulator := bytes (only parsing).

Definition Accumulator_default : bytes := replicate ID_SIZE 0.

(** [u64::overflowing_add] *)
Definition overflowing_add (a b : Z) : Z * bool := (wrap64 (a + b), 2 ^ 64 <=? a + b).

(** One iteration of [add_bytes]: the [i]-th word, in place. *)
Definition add_word (other : bytes) (st : bytes * Z) (i : nat) : bytes * Z :=
  let '(buf, curr_carry) := st in
  let orig := from_le_bytes (slice (i * 8) (i * 8 + 8) buf) in
  let other_v := from_le_bytes (slice (i * 8) (i * 8 + 8) other) in
  let '(n1, c1) := overflowing_add orig curr_carry in
  let '(n2, c2) := overflowing_add n1 other_v in
  (take (i * 8) buf ++ to_le_bytes 8 n2 ++ drop (i * 8 + 8) buf, Z.b2z (c1 || c2)).

Definition add_bytes (buf other : bytes) : bytes :=
  fst (foldl (add_word other) (buf, 0) [0; 1; 2; 3]%nat).

Definition add_item (buf : bytes) (item : Item) : bytes := add_bytes buf (item_id item).
Definition add_acc (buf other : bytes) : bytes := add_bytes buf other.

(** [!b] on a byte *)
Definition not8 (b : Z) : Z := 255 - b.

Definition negate (buf : bytes) : bytes :=
  add_bytes (not8 <$> buf) (1 :: replicate 31 0).

Definition sub_bytes (buf other : bytes) : bytes := add_bytes buf (negate other).
Definition sub_item (buf : bytes) (item : Item) : bytes := sub_bytes buf (item_id item).
Definition sub_acc (buf other : bytes) : bytes := sub_bytes buf other.

Section fingerprint.
Context {SH : Sha256}.

Definition get_fingerprint (buf : bytes) (n : Z) : bytes :=
  take FINGERPRINT_SIZE (sha256 (buf ++ encode_varint n)).
End fingerprint.

(** ** Well-formed items and accumulators *)

Definition id_ok (id : bytes) : Prop := length id = ID_SIZE ∧ bytes_ok id.
Definition item_ok (i : Item) : Prop := u64_ok (timestamp i) ∧ id_ok (item_id i).
Definition bound_ok (b : Bound) : Prop :=
  item_ok (bound_item b) ∧ (id_len b ≤ ID_SIZE)%nat ∧
  drop (id_len b) (item_id (bound_item b)) = replicate (ID_SIZE - id_len b) 0.

(** ** Lemmas: the order of items *)

#[export] Instance Item_cmp_total : TotalCmp Item_cmp.
Proof.
  split.
  - intros [t i] [t' i']. unfold Item_cmp. cbn. destruct (t ?= t') eqn:E; cbn.
    + apply Z.compare_eq_iff in E as ->. rewrite (cmp_eq_iff (cmp:=bytes_cmp)). naive_solver.
    + split; [done|]. intros [= -> ->]. by rewrite Z.compare_refl in E.
    + split; [done|]. intros [= -> ->]. by rewrite Z.compare_refl in E.
  - intros [t i] [t' i']. unfold Item_cmp. cbn.
    rewrite (cmp_opp (cmp:=Z.compare) t t'), (cmp_opp (cmp:=bytes_cmp) i i').
    by destruct (t ?= t').
  - intros [t i] [t' i'] [t'' i'']. unfold Item_cmp. cbn.
    destruct (t ?= t') eqn:E1, (t' ?= t'') eqn:E2; cbn; intros H1 H2; try done;
      rewrite ?Z.compare_eq_iff, ?Z.compare_lt_iff in *; subst.
    + rewrite Z.compare_refl. cbn. by eapply cmp_lt_trans.
    + by rewrite (proj2 (Z.compare_lt_iff _ _) E2).
    + by rewrite (proj2 (Z.compare_lt_iff _ _) E1).
    + by rewrite (proj2 (Z.compare_lt_iff t t'')) by lia.
Qed.

Lemma Item_lt_spec a b :
  cmp_lt Item_cmp a b ↔
  timestamp a < timestamp b ∨
  timestamp a = timestamp b ∧ cmp_lt bytes_cmp (item_id a) (item_id b).
Proof.
  unfold cmp_lt, Item_cmp. destruct (timestamp a ?= timestamp b) eqn:E; cbn;
    rewrite ?Z.compare_eq_iff, ?Z.compare_lt_iff, ?Z.compare_gt_iff in E; naive_solver lia.
Qed.

(** ** Lemmas: the accumulator adds *)

Lemma overflowing_add_spec a b :
  0 ≤ a < 2 ^ 64 → 0 ≤ b < 2 ^ 64 →
  let '(n, c) := overflowing_add a b in 0 ≤ n < 2 ^ 64 ∧ n + Z.b2z c * 2 ^ 64 = a + b.
Proof.
  intros Ha Hb. unfold overflowing_add, wrap64. destruct (2 ^ 64 <=? a + b) eqn:E; bool_to_prop; cbn.
  - split; [apply Z.mod_pos_bound; lia|].
    rewrite <-(Z.mod_unique (a + b) (2 ^ 64) 1 (a + b - 2 ^ 64)); lia.
  - split; [apply Z.mod_pos_bound; lia|]. rewrite Z.mod_small; lia.
Qed.

(** The two additions of an iteration never carry twice. *)
Lemma add_word_carry a b c :
  0 ≤ a < 2 ^ 64 → 0 ≤ b < 2 ^ 64 → 0 ≤ c ≤ 1 →
  let '(n1, c1) := overflowing_add a c in
  let '(n2, c2) := overflowing_add n1 b in
  0 ≤ n2 < 2 ^ 64 ∧ n2 + Z.b2z (c1 || c2) * 2 ^ 64 = a + b + c.
Proof.
  intros Ha Hb Hc. pose proof (overflowing_add_spec a c Ha ltac:(lia)) as H1.
  destruct (overflowing_add a c) as [n1 c1]. destruct H1 as [Hn1 H1].
  pose proof (overflowing_add_spec n1 b Hn1 Hb) as H2.
  destruct (overflowing_add n1 b) as [n2 c2]. destruct H2 as [Hn2 H2].
  split; [done|]. destruct c1, c2; cbn in *; lia.
Qed.

Lemma from_le_bytes_app a b :
  from_le_bytes (a ++ b) = from_le_bytes a + 256 ^ len a * from_le_bytes b.
Proof.
  induction a as [|x a IH]; cbn [app from_le_bytes length]; [rewrite Z.pow_0_r; lia|].
  rewrite IH, Nat2Z.inj_succ, Z.pow_succ_r by lia. lia.
Qed.

Lemma le_word_bound b : bytes_ok b → length b = 8%nat → 0 ≤ from_le_bytes b < 2 ^ 64.
Proof. intros Hb Hl. pose proof (from_le_bytes_bound b Hb) as H. by rewrite Hl in H. Qed.

(** A 32-byte buffer as the words before, at and after the [i]-th. *)
Lemma split_word (b : bytes) i :
  length b = 32%nat → (i < 4)%nat →
  b = take (i * 8) b ++ slice (i * 8) (i * 8 + 8) b ++ drop (i * 8 + 8) b ∧
  length (take (i * 8) b) = (i * 8)%nat ∧ length (slice (i * 8) (i * 8 + 8) b) = 8%nat.
Proof.
  intros Hb Hi. unfold slice. replace (i * 8 + 8 - i * 8)%nat with 8%nat by lia.
  rewrite !length_take, length_drop. split; [|lia].
  rewrite <-(drop_drop b 8 (i * 8)), take_drop, take_drop. done.
Qed.

(** After the first [k] words: they hold the low words of the sum, up to the
    carry; the others are unchanged. *)
Definition added (buf0 other : bytes) (k : nat) (st : bytes * Z) : Prop :=
  length st.1 = 32%nat ∧ bytes_ok st.1 ∧ 0 ≤ st.2 ≤ 1 ∧
  drop (k * 8) st.1 = drop (k * 8) buf0 ∧
  from_le_bytes (take (k * 8) st.1) + st.2 * 256 ^ Z.of_nat (k * 8) =
  from_le_bytes (take (k * 8) buf0) + from_le_bytes (take (k * 8) other).

Lemma take_word (b : bytes) k :
  length b = 32%nat → (k < 4)%nat →
  take (S k * 8) b = take (k * 8) b ++ slice (k * 8) (k * 8 + 8) b.
Proof.
  intros Hb Hk. destruct (split_word b k Hb Hk) as (E & L1 & L2).
  rewrite E at 1. rewrite app_assoc, take_app_length'; [done|]. rewrite length_app. lia.
Qed.

Lemma add_word_step buf0 other k st :
  length buf0 = 32%nat → length other = 32%nat → bytes_ok buf0 → bytes_ok other → (k < 4)%nat →
  added buf0 other k st → added buf0 other (S k) (add_word other st k).
Proof.
  intros Hb Ho Bok Ook Hk (Hl & Hok & Hc & Hd & Hs). destruct st as [buf c]. cbn [fst snd] in *.
  assert (slice (k * 8) (k * 8 + 8) buf = slice (k * 8) (k * 8 + 8) buf0) as Hw
    by (unfold slice; by rewrite Hd).
  destruct (split_word buf0 k Hb Hk) as (_ & _ & Lw0).
  destruct (split_word other k Ho Hk) as (_ & _ & Lwo).
  destruct (split_word buf k Hl Hk) as (_ & Lt & _).
  assert (∀ b, bytes_ok b → bytes_ok (slice (k * 8) (k * 8 + 8) b)) as Hsl
    by (intros b Hb'; by apply Forall_take, Forall_drop).
  unfold add_word. rewrite Hw.
  pose proof (add_word_carry (from_le_bytes (slice (k * 8) (k * 8 + 8) buf0))
    (from_le_bytes (slice (k * 8) (k * 8 + 8) other)) c
    (le_word_bound _ (Hsl _ Bok) Lw0) (le_word_bound _ (Hsl _ Ook) Lwo) Hc) as Hsum.
  destruct (overflowing_add _ c) as [n1 c1]. destruct (overflowing_add n1 _) as [n2 c2].
  destruct Hsum as [Hn2 Hsum].
  assert (length (take (k * 8) buf ++ to_le_bytes 8 n2) = (S k * 8)%nat) as Lp
    by (rewrite length_app, length_to_le_bytes; lia).
  split_and!; cbn [fst snd].
  - rewrite !length_app, length_to_le_bytes, length_drop. lia.
  - apply Forall_app; split; [by apply Forall_take|]. apply Forall_app; split; [apply to_le_bytes_ok|].
    by apply Forall_drop.
  - by destruct (c1 || c2).
  - by destruct (c1 || c2).
  - rewrite app_assoc, drop_app_length' by done. replace (S k * 8)%nat with (k * 8 + 8)%nat by lia.
    pose proof (f_equal (drop 8) Hd) as Hd8. by rewrite !drop_drop in Hd8.
  - rewrite app_assoc, take_app_length' by done. rewrite !take_word by done.
    rewrite !from_le_bytes_app, from_to_le_bytes by (change (256 ^ Z.of_nat 8) with (2 ^ 64); lia).
    rewrite Lt, !length_take. rewrite !Nat.min_l by lia.
    replace (Z.of_nat (S k * 8)) with (Z.of_nat (k * 8) + 8) by lia.
    rewrite Z.pow_add_r by lia. change (256 ^ 8) with (2 ^ 64).
    set (P := 256 ^ Z.of_nat (k * 8)) in *. nia.
Qed.

Lemma add_bytes_spec a b :
  length a = 32%nat → length b = 32%nat → bytes_ok a → bytes_ok b →
  length (add_bytes a b) = 32%nat ∧ bytes_ok (add_bytes a b) ∧
  from_le_bytes (add_bytes a b) = (from_le_bytes a + from_le_bytes b) mod 2 ^ 256.
Proof.
  intros La Lb Oa Ob. unfold add_bytes.
  assert (added a b 0 (a, 0)) as H0 by (repeat split; cbn; (done || lia)).
  apply (add_word_step a b 0) in H0; [|done..|lia]. apply (add_word_step a b 1) in H0; [|done..|lia].
  apply (add_word_step a b 2) in H0; [|done..|lia]. apply (add_word_step a b 3) in H0; [|done..|lia].
  cbn [foldl]. destruct (add_word b _ 3) as [buf c]. destruct H0 as (Hl & Hok & Hc & _ & Hs).
  cbn [fst snd] in *. split; [done|]. split; [done|].
  rewrite !take_ge in Hs by lia. change (256 ^ Z.of_nat (4 * 8)) with (2 ^ 256) in Hs.
  pose proof (from_le_bytes_bound buf Hok) as Hb. rewrite Hl in Hb.
  change (256 ^ Z.of_nat 32) with (2 ^ 256) in Hb.
  apply (Z.mod_unique _ _ c); [lia|]. lia.
Qed.

Lemma from_le_bytes_inj a b :
  bytes_ok a → bytes_ok b → length a = length b → from_le_bytes a = from_le_bytes b → a = b.
Proof.
  intros Ha Hb Hl He. rewrite <-(to_from_le_bytes a), <-(to_from_le_bytes b) by done.
  by rewrite Hl, He.
Qed.

Lemma from_le_not8 b : bytes_ok b → from_le_bytes (not8 <$> b) = 256 ^ len b - 1 - from_le_bytes b.
Proof.
  induction 1 as [|x b Hx Hb IH]; [done|]. rewrite fmap_cons. cbn [from_le_bytes length].
  rewrite IH, Nat2Z.inj_succ, Z.pow_succ_r by lia. unfold not8. lia.
Qed.

Lemma id_not8_ok b : id_ok b → id_ok (not8 <$> b).
Proof.
  intros [Hl Hb]. split; [by rewrite length_fmap|]. rewrite Forall_fmap.
  eapply Forall_impl; [exact Hb|]. unfold byte_ok, not8, compose. intros; lia.
Qed.

Lemma add_bytes_ok a b : id_ok a → id_ok b → id_ok (add_bytes a b).
Proof. intros [La Oa] [Lb Ob]. destruct (add_bytes_spec a b La Lb Oa Ob) as (? & ? & _). done. Qed.

Lemma add_bytes_value a b :
  id_ok a → id_ok b →
  from_le_bytes (add_bytes a b) = (from_le_bytes a + from_le_bytes b) mod 2 ^ 256.
Proof. intros [La Oa] [Lb Ob]. by apply add_bytes_spec. Qed.

Lemma id_value_bound a : id_ok a → 0 ≤ from_le_bytes a < 2 ^ 256.
Proof. intros [La Oa]. pose proof (from_le_bytes_bound a Oa) as H. by rewrite La in H. Qed.

Lemma one_ok : id_ok (1 :: replicate 31 0).
Proof. split; [done|]. constructor; [by unfold byte_ok|]. by apply Forall_replicate. Qed.

Lemma negate_ok b : id_ok b → id_ok (negate b).
Proof. intros Hb. unfold negate. apply add_bytes_ok; [by apply id_not8_ok|apply one_ok]. Qed.

Lemma negate_value b : id_ok b → from_le_bytes (negate b) = (- from_le_bytes b) mod 2 ^ 256.
Proof.
  intros Hb. unfold negate. rewrite add_bytes_value; [|by apply id_not8_ok|apply one_ok].
  destruct Hb as [Lb Ob]. rewrite from_le_not8, Lb by done.
  change (256 ^ Z.of_nat ID_SIZE) with (2 ^ 256).
  replace (from_le_bytes (1 :: replicate 31 0)) with 1 by (by vm_compute).
  replace (2 ^ 256 - 1 - from_le_bytes b + 1) with (- from_le_bytes b + 1 * 2 ^ 256) by lia.
  apply Z.mod_add. lia.
Qed.

Lemma sub_add_bytes a b : id_ok a → id_ok b → sub_bytes (add_bytes a b) b = a.
Proof.
  intros Ha Hb. pose proof (add_bytes_ok a b Ha Hb) as Hab. pose proof (negate_ok b Hb) as Hn.
  pose proof (add_bytes_ok _ _ Hab Hn) as Hs. unfold sub_bytes.
  apply from_le_bytes_inj; [apply Hs|apply Ha|by rewrite (proj1 Hs), (proj1 Ha)|].
  rewrite !add_bytes_value, negate_value by done.
  rewrite <-Zplus_mod. replace (from_le_bytes a + from_le_bytes b + - from_le_bytes b)
    with (from_le_bytes a) by lia.
  apply Z.mod_small. by apply id_value_bound.
Qed.

(** The sum of the ids of some items. *)
Definition ids_sum (items : list Item) : Z :=
  foldr (λ i s, from_le_bytes (item_id i) + s) 0 items.

Lemma add_items_ok acc items :
  id_ok acc → Forall item_ok items → id_ok (foldl add_item acc items).
Proof.
  intros Ha Hi. revert acc Ha. induction Hi as [|i items [_ Hi] His IH]; intros acc Ha; [done|].
  cbn. apply IH. by apply add_bytes_ok.
Qed.

Lemma add_items_value acc items :
  id_ok acc → Forall item_ok items →
  from_le_bytes (foldl add_item acc items) = (from_le_bytes acc + ids_sum items) mod 2 ^ 256.
Proof.
  intros Ha Hi. revert acc Ha. induction Hi as [|i items [_ Hi] His IH]; intros acc Ha.
  - cbn. rewrite Z.add_0_r, Z.mod_small; [done|]. by apply id_value_bound.
  - cbn [foldl ids_sum foldr]. rewrite IH by (by apply add_bytes_ok).
    unfold add_item. rewrite add_bytes_value by done. rewrite Zplus_mod_idemp_l.
    fold (ids_sum items). f_equal. lia.
Qed.

Lemma ids_sum_perm items items' : items ≡ₚ items' → ids_sum items = ids_sum items'.
Proof. unfold ids_sum. induction 1; cbn [foldr]; lia. Qed.

Lemma add_items_perm acc items items' :
  id_ok acc → Forall item_ok items → items ≡ₚ items' →
  foldl add_item acc items = foldl add_item acc items'.
Proof.
  intros Ha Hi Hp. assert (Forall item_ok items') as Hi' by (by rewrite <-Hp).
  pose proof (add_items_ok acc items Ha Hi) as Ho. pose proof (add_items_ok acc items' Ha Hi') as Ho'.
  apply from_le_bytes_inj; [apply Ho|apply Ho'|by rewrite (proj1 Ho), (proj1 Ho')|].
  rewrite !add_items_value by done. by rewrite (ids_sum_perm _ _ Hp).
Qed.

Lemma default_acc_ok : id_ok Accumulator_default.
Proof. split; [done|by apply Forall_replicate]. Qed.

(** ** Properties *)

(** C40. The accumulator is a sum: after adding some items it holds the sum of
    their ids and of what it held, modulo [2 ^ 256]; so the order of the items
    does not matter, and subtracting an item undoes adding it. *)
Theorem accumulator_adds acc items items' x :
  id_ok acc → Forall item_ok items → item_ok x →
  from_le_bytes (foldl add_item acc items) = (from_le_bytes acc + ids_sum items) mod 2 ^ 256 ∧
  (items ≡ₚ items' → foldl add_item acc items = foldl add_item acc items') ∧
  sub_item (add_item (foldl add_item acc items) x) x = foldl add_item acc items.
Proof.
  intros Ha Hi [_ Hx]. split; [by apply add_items_value|]. split; [by apply add_items_perm|].
  apply sub_add_bytes; [by apply add_items_ok|done].
Qed.

Lemma accumulator_adds_witness :
  sub_item (add_item (foldl add_item Accumulator_default [mkItem 5 (replicate 32 255)])
    (mkItem 9 (replicate 32 200))) (mkItem 9 (replicate 32 200)) =
  foldl add_item Accumulator_default [mkItem 5 (replicate 32 255)].
Proof.
  assert (∀ t b, u64_ok t → byte_ok b → item_ok (mkItem t (replicate 32 b))) as Hok.
  { intros t b Ht Hb. split; [done|]. split; [done|]. by apply Forall_replicate. }
  apply (accumulator_adds Accumulator_default [mkItem 5 (replicate 32 255)] []
    (mkItem 9 (replicate 32 200))).
  - apply default_acc_ok.
  - constructor; [apply Hok; by vm_compute|constructor].
  - apply Hok; by vm_compute.
Defined.
