(* ===== verification/NegStorage.v ===== *)
(** * Negentropy storage: wok-negentropy's storage.rs and vector.rs

    The [Storage] trait as a class of operations, with what the protocol relies
    on as a class of laws over an abstract sorted list of items; the in-memory
    [Vector] and the [SubRange] view as implementations that satisfy the laws.
    ([&mut self] in the trait is for the node caches of the trees in LMDB; the
    implementations here do not change on reads.) *)

From S2P Require Import Prelude Crates NegEncoding NegTypes.

Local Open Scope Z_scope.

(** ** The trait *)

Class Storage (S : Type) : Type := {
  size : S → result NegError Z;
  get_item : S → nat → result NegError Item;
  iterate : ∀ {A}, S → nat → nat → (A → Item → nat → A * bool) → A → result NegError A;
  find_lower_bound : S → nat → nat → Bound → result NegError nat;
  fingerprint : S → nat → nat → result NegError bytes;
}.

(** Items [items], the first with index [i], until the callback says stop. *)
Fixpoint iterate_items {A} (cb : A → Item → nat → A * bool) (a : A) (items : list Item)
    (i : nat) : A :=
  match items with
  | [] => a
  | item :: items =>
      let '(a, go) := cb a item i in
      if go then iterate_items cb a items (S i) else a
  end.

Section fingerprints.
Context {SH : Sha256}.

(** The fingerprint of some items: their sum and their number, hashed. *)
Definition items_fingerprint (items : list Item) : bytes :=
  get_fingerprint (foldl add_item Accumulator_default items) (len items).
End fingerprints.

Definition item_lt (b : Bound) (i : Item) : bool := bool_decide (cmp_lt Item_cmp i (bound_item b)).

(** The laws: a valid storage holds a strictly increasing list of items and
    answers every question about a range of it; a bad range is an error. *)
Class StorageLaws {SH : Sha256} (S : Type) {ST : Storage S} (valid : S → Prop)
    (contents : S → list Item) : Prop := {
  contents_sorted s : valid s → StronglySorted (cmp_lt Item_cmp) (contents s);
  contents_ok s : valid s → Forall item_ok (contents s);
  size_spec s : valid s → size s = Ok (len (contents s));
  get_item_spec s i item :
    valid s → contents s !! i = Some item → get_item s i = Ok item;
  iterate_spec {A} s b e (cb : A → Item → nat → A * bool) a :
    valid s → (b ≤ e ≤ length (contents s))%nat →
    iterate s b e cb a = Ok (iterate_items cb a (slice b e (contents s)) b);
  find_lower_bound_spec s b e bound :
    valid s → (b ≤ e ≤ length (contents s))%nat →
    find_lower_bound s b e bound =
      Ok (b + partition_point (item_lt bound) (slice b e (contents s)))%nat;
  fingerprint_spec s b e :
    valid s → (b ≤ e ≤ length (contents s))%nat →
    fingerprint s b e = Ok (items_fingerprint (slice b e (contents s)));
}.

(** ** Vector *)

Record Vector : Type := mkVector { items : list Item; sealed : bool }.

Definition Vector_new : Vector := mkVector [] false.

(** [reserved] is whether [try_reserve] got the memory. *)
Definition Vector_insert (reserved : bool) (v : Vector) (created_at : Z) (id : bytes)
    : result NegError Vector :=
  if sealed v then Err (NegError_msg "already sealed")
  else if negb (length id =? ID_SIZE)%nat then Err (NegError_msg "bad id size for added item")
  else if negb reserved then Err (NegError_msg "sync allocation failed")
  else item ← Item_new created_at id; Ok (mkVector (items v ++ [item]) (sealed v)).

(** Two neighbours are equal. *)
Fixpoint has_neighbours (l : list Item) : bool :=
  match l with
  | a :: l' => match l' with
               | b :: _ => bool_decide (a = b) || has_neighbours l'
               | [] => false
               end
  | [] => false
  end.

(** The vector is sealed even when sealing reports a duplicate. *)
Definition Vector_seal (v : Vector) : result NegError unit * Vector :=
  if sealed v then (Err (NegError_msg "already sealed"), v)
  else
    let v := mkVector (slice_sort Item_cmp (items v)) true in
    if has_neighbours (items v) then (Err (NegError_msg "duplicate item inserted"), v)
    else (Ok tt, v).

Definition Vector_unseal (v : Vector) : Vector := mkVector (items v) false.

Definition check_sealed (v : Vector) : result NegError unit :=
  if negb (sealed v) then Err (NegError_msg "not sealed") else Ok tt.

Definition check_bounds (v : Vector) (b e : nat) : result NegError unit :=
  if (e <? b)%nat || (length (items v) <? e)%nat then Err (NegError_msg "bad range") else Ok tt.

Section vector.
Context {SH : Sha256}.

Definition Vector_size (v : Vector) : result NegError Z :=
  _ ← check_sealed v; Ok (len (items v)).

Definition Vector_get_item (v : Vector) (i : nat) : result NegError Item :=
  _ ← check_sealed v;
  _ ← check_bounds v i (i + 1);
  ok_or (items v !! i) (NegError_msg "bad range").

Definition Vector_iterate {A} (v : Vector) (b e : nat) (cb : A → Item → nat → A * bool) (a : A)
    : result NegError A :=
  _ ← check_sealed v;
  _ ← check_bounds v b e;
  Ok (iterate_items cb a (slice b e (items v)) b).

Definition Vector_find_lower_bound (v : Vector) (b e : nat) (bound : Bound)
    : result NegError nat :=
  _ ← check_sealed v;
  _ ← check_bounds v b e;
  Ok (b + partition_point (item_lt bound) (slice b e (items v)))%nat.

Definition Vector_fingerprint (v : Vector) (b e : nat) : result NegError bytes :=
  _ ← check_sealed v;
  _ ← check_bounds v b e;
  let out := foldl add_item Accumulator_default (slice b e (items v)) in
  Ok (get_fingerprint out (Z.of_nat (e - b))).

#[export] Instance Vector_Storage : Storage Vector := {|
  size := Vector_size;
  get_item := Vector_get_item;
  iterate := @Vector_iterate;
  find_lower_bound := Vector_find_lower_bound;
  fingerprint := Vector_fingerprint;
|}.
End vector.

(** ** SubRange *)

Record SubRange (S : Type) : Type := mkSubRange {
  sub_base : S;
  sub_begin : nat;
  sub_size : nat;
}.
Arguments mkSubRange {S}.
Arguments sub_base {S}.
Arguments sub_begin {S}.
Arguments sub_size {S}.

Section subrange.
Context {S : Type} {ST : Storage S}.

Definition SubRange_new (base : S) (lower upper : Bound) : result NegError (SubRange S) :=
  base_size ← size base;
  let base_size := Z.to_nat base_size in
  sub_begin ← (if bool_decide (lower = Bound_timestamp 0) then Ok O
               else find_lower_bound base 0 base_size lower);
  sub_end ← (if bool_decide (upper = Bound_timestamp MAX_U64) then Ok base_size
             else find_lower_bound base sub_begin base_size upper);
  sub_end ← (if negb (sub_end =? base_size)%nat then
               item ← get_item base sub_end;
               if bool_decide (Bound_from_item item = upper) then Ok (sub_end + 1)%nat
               else Ok sub_end
             else Ok sub_end);
  Ok (mkSubRange base sub_begin (sub_end - sub_begin)).

Definition SubRange_size (r : SubRange S) : result NegError Z := Ok (Z.of_nat (sub_size r)).

Definition SubRange_get_item (r : SubRange S) (i : nat) : result NegError Item :=
  get_item (sub_base r) (sub_begin r + i).

Definition SubRange_iterate {A} (r : SubRange S) (b e : nat) (cb : A → Item → nat → A * bool)
    (a : A) : result NegError A :=
  iterate (sub_base r) (sub_begin r + b) (sub_begin r + e)
    (λ a item index, cb a item (index - sub_begin r)%nat) a.

Definition SubRange_find_lower_bound (r : SubRange S) (b e : nat) (bound : Bound)
    : result NegError nat :=
  i ← find_lower_bound (sub_base r) (sub_begin r + b) (sub_begin r + e) bound;
  Ok ((i - sub_begin r) `min` sub_size r)%nat.

Definition SubRange_fingerprint (r : SubRange S) (b e : nat) : result NegError bytes :=
  fingerprint (sub_base r) (sub_begin r + b) (sub_begin r + e).

#[export] Instance SubRange_Storage : Storage (SubRange S) := {|
  size := SubRange_size;
  get_item := SubRange_get_item;
  iterate := @SubRange_iterate;
  find_lower_bound := SubRange_find_lower_bound;
  fingerprint := SubRange_fingerprint;
|}.
End subrange.

(** ** Lemmas: Vector *)

Definition Vector_valid (v : Vector) : Prop :=
  sealed v = true ∧ StronglySorted (cmp_lt Item_cmp) (items v) ∧ Forall item_ok (items v).

Lemma has_neighbours_false l :
  StronglySorted (cmp_le Item_cmp) l →
  has_neighbours l = false ↔ StronglySorted (cmp_lt Item_cmp) l.
Proof.
  intros Hs. induction Hs as [|a l Hs IH Hf]; [split; [constructor|done]|].
  destruct l as [|b l]; [split; [repeat constructor|done]|].
  cbn [has_neighbours]. rewrite orb_false_iff, bool_decide_eq_false, IH. split.
  - intros [Hne Hl]. constructor; [done|].
    assert (cmp_lt Item_cmp a b) as Hab.
    { apply Forall_cons in Hf as [Hab _]. apply cmp_le_lt_eq in Hab as [|]; [done..|apply _]. }
    constructor; [done|]. apply StronglySorted_cons in Hl as [Hb _].
    eapply Forall_impl; [exact Hb|]. intros x Hx. by eapply cmp_lt_trans.
  - intros [Hf' Hl]%StronglySorted_cons. split; [|done]. intros ->.
    apply Forall_cons in Hf' as [Hab _]. unfold cmp_lt in Hab. by rewrite (cmp_refl Item_cmp) in Hab.
Qed.

Lemma check_bounds_Ok v b e :
  (b ≤ e ≤ length (items v))%nat → check_bounds v b e = Ok tt.
Proof.
  intros H. unfold check_bounds.
  by rewrite (proj2 (Nat.ltb_ge _ _)), (proj2 (Nat.ltb_ge _ _)) by lia.
Qed.

#[export] Instance Vector_laws {SH : Sha256} : StorageLaws Vector Vector_valid items.
Proof.
  split.
  - intros v (_ & Hs & _). done.
  - intros v (_ & _ & Hok). done.
  - intros v (Hsl & _). cbn. unfold Vector_size, check_sealed. by rewrite Hsl.
  - intros v i item (Hsl & _) Hi. cbn. unfold Vector_get_item, check_sealed. rewrite Hsl. cbn.
    rewrite check_bounds_Ok by (apply lookup_lt_Some in Hi; lia). cbn. by rewrite Hi.
  - intros A v b e cb a (Hsl & _) Hbe. cbn. unfold Vector_iterate, check_sealed. rewrite Hsl. cbn.
    by rewrite check_bounds_Ok.
  - intros v b e bound (Hsl & _) Hbe. cbn. unfold Vector_find_lower_bound, check_sealed.
    rewrite Hsl. cbn. by rewrite check_bounds_Ok.
  - intros v b e (Hsl & _) Hbe. cbn. unfold Vector_fingerprint, check_sealed. rewrite Hsl. cbn.
    rewrite check_bounds_Ok by done. cbn. unfold items_fingerprint.
    by rewrite length_slice by lia.
Qed.

(** ** Lemmas: what the laws give *)

Section laws.
Context {SH : Sha256} {S : Type} {ST : Storage S} {valid : S → Prop} {contents : S → list Item}.
Context {SL : StorageLaws S valid contents}.

Lemma item_lt_mono s b e bound :
  valid s → ∀ i j x y, (i < j)%nat → slice b e (contents s) !! i = Some x →
  slice b e (contents s) !! j = Some y → item_lt bound y = true → item_lt bound x = true.
Proof.
  intros Hv i j x y Hij Hx Hy H. unfold item_lt in *. bool_to_prop. apply bool_decide_eq_true.
  pose proof (StronglySorted_slice _ b e _ (contents_sorted s Hv)) as Hs.
  assert (cmp_lt Item_cmp x y) as Hxy.
  { by eapply (StronglySorted_lookup _ _ i j). }
  by eapply cmp_lt_trans.
Qed.

(** The index [find_lower_bound] returns: the items of the range before it are
    below the bound, those from it on are not. *)
Lemma find_lower_bound_split s b e bound :
  valid s → (b ≤ e ≤ length (contents s))%nat →
  ∃ k, find_lower_bound s b e bound = Ok k ∧ (b ≤ k ≤ e)%nat ∧
    (∀ j x, (b ≤ j < e)%nat → contents s !! j = Some x →
      cmp_lt Item_cmp x (bound_item bound) ↔ (j < k)%nat).
Proof.
  intros Hv Hbe. rewrite find_lower_bound_spec by done.
  destruct (partition_point_spec (item_lt bound) (slice b e (contents s)) (item_lt_mono s b e bound Hv))
    as [Hle Hk]. rewrite length_slice in Hle by lia.
  eexists. split; [done|]. split; [lia|]. intros j x Hj Hx.
  specialize (Hk (j - b)%nat x). rewrite lookup_slice in Hk by lia.
  replace (b + (j - b))%nat with j in Hk by lia. specialize (Hk Hx). unfold item_lt at 1 in Hk.
  rewrite <-(bool_decide_eq_true (cmp_lt Item_cmp x (bound_item bound))), Hk, bool_decide_eq_true. lia.
Qed.
End laws.

(** ** Lemmas: SubRange *)

Section subrange_laws.
Context {SH : Sha256} {S : Type} {ST : Storage S} {valid : S → Prop} {contents : S → list Item}.
Context {SL : StorageLaws S valid contents}.

Definition SubRange_valid (r : SubRange S) : Prop :=
  valid (sub_base r) ∧ (sub_begin r + sub_size r ≤ length (contents (sub_base r)))%nat.

Definition SubRange_contents (r : SubRange S) : list Item :=
  slice (sub_begin r) (sub_begin r + sub_size r) (contents (sub_base r)).

Lemma length_SubRange r : SubRange_valid r → length (SubRange_contents r) = sub_size r.
Proof. intros [_ H]. unfold SubRange_contents. rewrite length_slice by done. lia. Qed.

Lemma slice_SubRange r b e :
  SubRange_valid r → (e ≤ sub_size r)%nat →
  slice b e (SubRange_contents r) = slice (sub_begin r + b) (sub_begin r + e) (contents (sub_base r)).
Proof. intros [_ H] He. apply slice_slice. lia. Qed.

Lemma iterate_items_shift {A} (cb : A → Item → nat → A * bool) a l i d :
  iterate_items (λ a item index, cb a item (index - d)%nat) a l (d + i) = iterate_items cb a l i.
Proof.
  revert a i. induction l as [|x l IH]; intros a i; [done|]. cbn [iterate_items].
  replace (d + i - d)%nat with i by lia. destruct (cb a x i) as [a' []]; [|done].
  rewrite <-IH. f_equal. lia.
Qed.

#[export] Instance SubRange_laws : StorageLaws (SubRange S) SubRange_valid SubRange_contents.
Proof.
  split.
  - intros r [Hv _]. apply StronglySorted_slice. by apply contents_sorted.
  - intros r [Hv _]. apply Forall_slice. by apply contents_ok.
  - intros r Hr. cbn. unfold SubRange_size. by rewrite length_SubRange.
  - intros r i item [Hv Hl] Hi. cbn. unfold SubRange_get_item.
    apply lookup_slice_Some in Hi as [Hi _]. by apply get_item_spec.
  - intros A r b e cb a Hr Hbe. rewrite length_SubRange in Hbe by done. cbn. unfold SubRange_iterate.
    rewrite iterate_spec by (apply Hr || (destruct Hr; lia)).
    rewrite slice_SubRange by (done || lia). f_equal. apply iterate_items_shift.
  - intros r b e bound Hr Hbe. rewrite length_SubRange in Hbe by done. cbn.
    unfold SubRange_find_lower_bound. rewrite slice_SubRange by (done || lia).
    destruct Hr as [Hv Hl].
    destruct (find_lower_bound_split (sub_base r) (sub_begin r + b) (sub_begin r + e) bound Hv)
      as (k & Hk & Hle & _); [lia|]. rewrite find_lower_bound_spec in Hk |- * by (done || lia).
    cbn. injection Hk as <-. f_equal. lia.
  - intros r b e Hr Hbe. rewrite length_SubRange in Hbe by done. cbn. unfold SubRange_fingerprint.
    rewrite slice_SubRange by (done || lia). destruct Hr as [Hv Hl].
    by rewrite fingerprint_spec by (done || lia).
Qed.
End subrange_laws.

(** ** Lemmas: the ends of a sub-range *)

Lemma zeros_least n (id : bytes) :
  length id = n → bytes_ok id → ¬ cmp_lt bytes_cmp id (replicate n 0).
Proof.
  intros <- Hb. unfold cmp_lt. induction Hb as [|x id Hx Hb IH]; [done|].
  cbn [length replicate slice_cmp]. destruct (x ?= 0) eqn:E; cbn [then_with]; [done| |done].
  unfold byte_ok in Hx. rewrite Z.compare_lt_iff in E. lia.
Qed.

Lemma not_below_zero x : item_ok x → ¬ cmp_lt Item_cmp x (bound_item (Bound_timestamp 0)).
Proof.
  intros [Ht [Hl Hb]] [H|[_ H]]%Item_lt_spec; cbn in H; [unfold u64_ok in Ht; lia|].
  by eapply (zeros_least ID_SIZE).
Qed.

Section subrange_new.
Context {SH : Sha256} {S : Type} {ST : Storage S} {valid : S → Prop} {contents : S → list Item}.
Context {SL : StorageLaws S valid contents}.

Lemma subrange_lower base lower :
  valid base →
  ∃ k, (if bool_decide (lower = Bound_timestamp 0) then Ok O
        else find_lower_bound base 0 (length (contents base)) lower) = Ok k ∧
    (k ≤ length (contents base))%nat ∧
    ∀ j x, contents base !! j = Some x → cmp_lt Item_cmp x (bound_item lower) ↔ (j < k)%nat.
Proof.
  intros Hv. destruct (bool_decide (lower = Bound_timestamp 0)) eqn:E; bool_to_prop.
  - exists O. split; [done|]. split; [lia|]. intros j x Hx. subst. split; [|lia]. intros H. exfalso.
    revert H. apply not_below_zero. pose proof (contents_ok base Hv) as Hok.
    rewrite Forall_forall in Hok. by eapply Hok, list_elem_of_lookup_2.
  - destruct (find_lower_bound_split base 0 (length (contents base)) lower Hv) as (k & Hk & Hle & Hs); [lia|].
    exists k. split; [done|]. split; [lia|]. intros j x Hx. apply Hs; [|done].
    apply lookup_lt_Some in Hx. lia.
Qed.

Lemma subrange_upper base b upper :
  valid base → (b ≤ length (contents base))%nat →
  ∃ k, (if bool_decide (upper = Bound_timestamp MAX_U64) then Ok (length (contents base))
        else find_lower_bound base b (length (contents base)) upper) = Ok k ∧
    (b ≤ k ≤ length (contents base))%nat ∧
    ∀ j x, (b ≤ j)%nat → contents base !! j = Some x →
      (cmp_lt Item_cmp x (bound_item upper) ∨ upper = Bound_timestamp MAX_U64) ↔ (j < k)%nat.
Proof.
  intros Hv Hb. destruct (bool_decide (upper = Bound_timestamp MAX_U64)) eqn:E; bool_to_prop.
  - exists (length (contents base)). split; [done|]. split; [lia|]. intros j x Hj Hx.
    apply lookup_lt_Some in Hx. split; [done|]. by right.
  - destruct (find_lower_bound_split base b (length (contents base)) upper Hv) as (k & Hk & Hle & Hs); [lia|].
    exists k. split; [done|]. split; [lia|]. intros j x Hj Hx. rewrite <-(Hs j x); [tauto| |done].
    apply lookup_lt_Some in Hx. lia.
Qed.

(** The element at the end of a range that equals the upper bound is the only
    one. *)
Lemma subrange_last base b k upper :
  valid base → (b ≤ k ≤ length (contents base))%nat →
  (∀ j x, (b ≤ j)%nat → contents base !! j = Some x →
     (cmp_lt Item_cmp x (bound_item upper) ∨ upper = Bound_timestamp MAX_U64) ↔ (j < k)%nat) →
  ∃ e, (if negb (k =? length (contents base))%nat then
          item ← get_item base k;
          if bool_decide (Bound_from_item item = upper) then Ok (k + 1)%nat else Ok k
        else Ok k) = Ok e ∧ (b ≤ e ≤ length (contents base))%nat ∧
    ∀ j x, (b ≤ j)%nat → contents base !! j = Some x →
      (cmp_lt Item_cmp x (bound_item upper) ∨ upper = Bound_timestamp MAX_U64 ∨
       Bound_from_item x = upper) ↔ (j < e)%nat.
Proof.
  intros Hv Hk Hs.
  assert (∀ j x, (b ≤ j)%nat → contents base !! j = Some x → Bound_from_item x = upper →
    (k ≤ j)%nat → j = k) as Honly.
  { intros j x Hj Hx Hbx Hkj. destruct (decide (j = k)) as [|Hne]; [done|].
    destruct (lookup_lt_is_Some_2 (contents base) k) as [y Hy]; [apply lookup_lt_Some in Hx; lia|].
    enough (k < k)%nat by lia. apply (Hs k y); [lia|done|]. left. subst upper. cbn.
    pose proof (contents_sorted base Hv) as Hsort.
    rewrite <-(take_drop (Datatypes.S k) (contents base)) in Hsort.
    eapply StronglySorted_app_1_elem_of; [exact Hsort|..].
    - eapply (list_elem_of_lookup_2 _ k). by rewrite lookup_take_lt by lia.
    - eapply (list_elem_of_lookup_2 _ (j - Datatypes.S k)%nat). rewrite lookup_drop, <-Hx. f_equal. lia. }
  destruct (k =? length (contents base))%nat eqn:E; cbn [negb].
  - apply Nat.eqb_eq in E. exists k. split; [done|]. split; [done|]. intros j x Hj Hx.
    pose proof (Hs j x Hj Hx) as Hjx. apply lookup_lt_Some in Hx as Hlt.
    assert (j < k)%nat by lia. tauto.
  - apply Nat.eqb_neq in E.
    destruct (lookup_lt_is_Some_2 (contents base) k) as [y Hy]; [lia|].
    rewrite (get_item_spec base k y) by done. cbn [mbind result_bind].
    destruct (bool_decide _) eqn:F; bool_to_prop.
    + exists (k + 1)%nat. split; [done|]. split; [lia|]. intros j x Hj Hx.
      pose proof (Hs j x Hj Hx) as Hjx. pose proof (Honly j x Hj Hx) as Hone.
      destruct (decide (j = k)) as [->|].
      { assert (x = y) as -> by congruence. split; [lia|auto]. }
      split; [|intros; assert (j < k)%nat by lia; tauto].
      intros [H|[H|H]]; [enough (j < k)%nat by lia; tauto..|]. destruct (decide (k ≤ j)%nat); [naive_solver|lia].
    + exists k. split; [done|]. split; [done|]. intros j x Hj Hx.
      pose proof (Hs j x Hj Hx) as Hjx. pose proof (Honly j x Hj Hx) as Hone.
      rewrite <-Hjx. split; [|tauto]. intros [|[|H]]; [tauto..|]. apply Hjx.
      destruct (decide (k ≤ j)%nat) as [Hkj|]; [|lia].
      specialize (Hone H Hkj) as ->. assert (x = y) as -> by congruence. done.
Qed.

(** ** Properties *)

(** A sub-range of a valid storage always opens, is a valid storage itself,
    and holds exactly the items of the base from the lower bound up to the upper
    one, where the bound with the greatest timestamp is no bound and an item that
    is the upper bound itself is included. *)
Theorem SubRange_new_contents base lower upper :
  valid base →
  ∃ r, SubRange_new base lower upper = Ok r ∧ SubRange_valid (valid:=valid) (contents:=contents) r ∧
    ∀ x, x ∈ SubRange_contents (contents:=contents) r ↔
      x ∈ contents base ∧ ¬ cmp_lt Item_cmp x (bound_item lower) ∧
      (cmp_lt Item_cmp x (bound_item upper) ∨ upper = Bound_timestamp MAX_U64 ∨
       Bound_from_item x = upper).
Proof.
  intros Hv. unfold SubRange_new. rewrite size_spec by done. cbn [mbind result_bind].
  rewrite Nat2Z.id. destruct (subrange_lower base lower Hv) as (b & -> & Hb & Hlow).
  cbn [mbind result_bind]. destruct (subrange_upper base b upper Hv Hb) as (k & -> & Hk & Hup).
  cbn [mbind result_bind]. destruct (subrange_last base b k upper Hv Hk Hup) as (e & -> & He & Hend).
  cbn [mbind result_bind]. eexists. split; [done|]. split; [split; cbn; [done|lia]|].
  intros x. unfold SubRange_contents. cbn. replace (b + (e - b))%nat with e by lia.
  rewrite !list_elem_of_lookup. split.
  - intros [i [Hi Hlt]%lookup_slice_Some]. split; [by exists (b + i)%nat|].
    rewrite (Hlow _ _ Hi). split; [lia|]. apply (Hend (b + i)%nat x); [lia|done|lia].
  - intros ([i Hi] & Hnl & Hu). rewrite (Hlow _ _ Hi) in Hnl.
    assert (i < e)%nat by (apply (Hend i x); [lia|done..]).
    exists (i - b)%nat. apply lookup_slice_Some.
    replace (b + (i - b))%nat with i by lia. split; [done|lia].
Qed.
End subrange_new.

(** Filling a vector and sealing it: inserting well-formed items keeps them
    all, sealing succeeds exactly when no item was inserted twice, and then the
    vector is a valid storage of those items. *)
Theorem Vector_seal_valid (l : list Item) :
  Forall item_ok l →
  try_fold (λ v i, Vector_insert true v (timestamp i) (item_id i)) Vector_new l = Ok (mkVector l false) ∧
  let '(r, v) := Vector_seal (mkVector l false) in
  (r = Ok tt ↔ NoDup l) ∧ (NoDup l → Vector_valid v ∧ items v ≡ₚ l).
Proof.
  intros Hok. split.
  - change (mkVector l false) with (mkVector ([] ++ l) false). unfold Vector_new.
    generalize (@nil Item) as acc. induction Hok as [|[t i] l Hi Hl IH]; intros acc.
    + cbn. by rewrite app_nil_r.
    + cbn [try_fold]. unfold Vector_insert at 2. cbn [sealed negb timestamp item_id].
      destruct Hi as [_ [Hlen _]]. cbn in Hlen. unfold Item_new. rewrite Hlen, Nat.eqb_refl. cbn [negb].
      cbn [mbind result_bind items]. rewrite IH, <-app_assoc. done.
  - unfold Vector_seal. cbn [sealed items].
    pose proof (slice_sort_sorted Item_cmp l) as Hs. pose proof (slice_sort_perm Item_cmp l) as Hp.
    pose proof (has_neighbours_false _ Hs) as Hn.
    assert (StronglySorted (cmp_lt Item_cmp) (slice_sort Item_cmp l) ↔ NoDup l) as Hnd.
    { assert (NoDup (slice_sort Item_cmp l) ↔ NoDup l) as <- by (by rewrite Hp). split.
      - intros H. by eapply (strictly_sorted_NoDup Item_cmp).
      - intros H. by apply (sorted_NoDup_lt Item_cmp). }
    destruct (has_neighbours (slice_sort Item_cmp l)).
    + split; [split; [done|]|]; intros H; apply Hnd, Hn in H; done.
    + assert (NoDup l) as H by (by apply Hnd, Hn). split; [done|]. intros _. split; [|done].
      split; [done|]. split; [by apply Hnd|]. cbn. by rewrite Hp.
Qed.

(** ** Witnesses *)

Definition sample_items : list Item := [mkItem 3 (replicate 32 2); mkItem 5 (replicate 32 1)].
Definition sample_vector : Vector := mkVector sample_items true.

Lemma sample_items_ok : Forall item_ok sample_items.
Proof. apply (bool_decide_eq_true_1 _). by vm_compute. Qed.

Lemma sample_vector_valid : Vector_valid sample_vector.
Proof.
  split; [done|]. split; [|apply sample_items_ok].
  repeat constructor.
Qed.

Lemma Vector_seal_valid_witness :
  try_fold (λ v i, Vector_insert true v (timestamp i) (item_id i)) Vector_new sample_items =
    Ok (mkVector sample_items false) ∧
  let '(r, v) := Vector_seal (mkVector sample_items false) in
  (r = Ok tt ↔ NoDup sample_items) ∧ (NoDup sample_items → Vector_valid v ∧ items v ≡ₚ sample_items).
Proof. apply (Vector_seal_valid sample_items), sample_items_ok. Defined.
