(* ===== verification/NegProtocol.v ===== *)
(** * The negentropy protocol: wok-negentropy's protocol.rs

    Range-based set reconciliation: a message is a list of ranges, each with its
    upper bound and a skip, a fingerprint or the ids in it.  The protocol runs
    against the [Storage] interface.  A method that changes [self] returns the
    new state with its result; after an error the session ends. *)

From S2P Require Import Prelude Crates NegEncoding NegTypes NegStorage.

Local Open Scope Z_scope.

Definition MAX_RECONCILE_INPUT_BYTES : Z := 1024 * 1024.
Definition MAX_RECONCILE_WORK : Z := 65536.
Definition BUCKETS : nat := 16.

Record Negentropy (S : Type) : Type := mkNegentropy {
  storage : S;
  frame_size_limit : Z;
  is_initiator : bool;
  last_timestamp_in : Z;
  last_timestamp_out : Z;
  work : Z;
  work_limit : Z;
}.
Arguments mkNegentropy {S}.
Arguments storage {S}.
Arguments frame_size_limit {S}.
Arguments is_initiator {S}.
Arguments last_timestamp_in {S}.
Arguments last_timestamp_out {S}.
Arguments work {S}.
Arguments work_limit {S}.

Section setters.
Context {S : Type}.

Definition set_initiator (n : Negentropy S) : Negentropy S :=
  mkNegentropy (storage n) (frame_size_limit n) true (last_timestamp_in n)
    (last_timestamp_out n) (work n) (work_limit n).
Definition with_timestamp_in (n : Negentropy S) (t : Z) : Negentropy S :=
  mkNegentropy (storage n) (frame_size_limit n) (is_initiator n) t
    (last_timestamp_out n) (work n) (work_limit n).
Definition with_timestamp_out (n : Negentropy S) (t : Z) : Negentropy S :=
  mkNegentropy (storage n) (frame_size_limit n) (is_initiator n) (last_timestamp_in n)
    t (work n) (work_limit n).
Definition with_work (n : Negentropy S) (w : Z) : Negentropy S :=
  mkNegentropy (storage n) (frame_size_limit n) (is_initiator n) (last_timestamp_in n)
    (last_timestamp_out n) w (work_limit n).
(** [self.work += w] *)
Definition add_work (n : Negentropy S) (w : Z) : Negentropy S := with_work n (work n + w).
End setters.

(** The length of the common prefix. *)
Fixpoint shared_prefix (a b : bytes) : nat :=
  match a, b with
  | x :: a, y :: b => if decide (x = y) then S (shared_prefix a b) else O
  | _, _ => O
  end.

Definition get_minimal_bound (prev curr : Item) : Bound :=
  if negb (timestamp curr =? timestamp prev) then Bound_timestamp (timestamp curr)
  else
    let shared := shared_prefix (item_id curr) (item_id prev) in
    match Bound_with_id_prefix (timestamp curr)
            (take ((shared + 1) `min` ID_SIZE)%nat (item_id curr)) with
    | Ok b => b
    | Err _ => Bound_timestamp (timestamp curr)
    end.

Section protocol.
Context {S : Type} {ST : Storage S}.

Definition Negentropy_new (storage : S) (frame_size_limit : Z) : result NegError (Negentropy S) :=
  if negb (frame_size_limit =? 0) && (frame_size_limit <? 4096)
  then Err (NegError_msg "frameSizeLimit too small")
  else Ok (mkNegentropy storage frame_size_limit false 0 0 0 MAX_RECONCILE_WORK).

Definition exceeded_frame_size_limit (n : Negentropy S) (m : Z) : bool :=
  negb (frame_size_limit n =? 0) && (m >? sat_sub (frame_size_limit n) 200).

(** ** Bounds on the wire *)

Definition decode_timestamp_in (n : Negentropy S) (encoded : bytes)
    : result NegError (Z * bytes * Negentropy S) :=
  '(timestamp, encoded) ← decode_varint encoded;
  let timestamp := if timestamp =? 0 then MAX_U64 else timestamp - 1 in
  let timestamp := sat_add U64_MAX timestamp (last_timestamp_in n) in
  let timestamp := if timestamp <? last_timestamp_in n then MAX_U64 else timestamp in
  Ok (timestamp, encoded, with_timestamp_in n timestamp).

Definition decode_bound (n : Negentropy S) (encoded : bytes)
    : result NegError (Bound * bytes * Negentropy S) :=
  '(timestamp, encoded, n) ← decode_timestamp_in n encoded;
  '(id_len, encoded) ← decode_varint encoded;
  '(id, encoded) ← get_bytes encoded id_len;
  bound ← Bound_with_id_prefix timestamp id;
  Ok (bound, encoded, n).

Definition encode_timestamp_out (n : Negentropy S) (timestamp : Z) : bytes * Negentropy S :=
  if timestamp =? MAX_U64 then (encode_varint 0, with_timestamp_out n MAX_U64)
  else
    let delta := sat_sub timestamp (last_timestamp_out n) in
    (encode_varint (delta + 1), with_timestamp_out n timestamp).

Definition encode_bound (n : Negentropy S) (bound : Bound) : bytes * Negentropy S :=
  let '(output, n) := encode_timestamp_out n (timestamp (bound_item bound)) in
  (output ++ encode_varint (Z.of_nat (id_len bound)) ++ take (id_len bound) (item_id (bound_item bound)),
   n).

(** ** Splitting a range *)

(** One bucket: its fingerprint and the bound after it. *)
Definition split_bucket (items_per_bucket buckets_with_extra upper : nat) (upper_bound : Bound)
    (st : bytes * nat * Negentropy S) (i : nat) : result NegError (bytes * nat * Negentropy S) :=
  let '(o, curr, n) := st in
  let bucket_size := (items_per_bucket + if (i <? buckets_with_extra)%nat then 1 else 0)%nat in
  let n := add_work n 2 in
  our_fp ← fingerprint (storage n) curr (curr + bucket_size);
  let curr := (curr + bucket_size)%nat in
  '(next_bound, n) ←
    (if (curr =? upper)%nat then Ok (upper_bound, n)
     else
       let n := add_work n 1 in
       '(prev_item, curr_item) ←
         iterate (storage n) (curr - 1) (curr + 1)
           (λ '(prev_item, curr_item) item index,
              if (index =? curr - 1)%nat then ((item, curr_item), true)
              else ((prev_item, item), true))
           (Item_default, Item_default);
       Ok (get_minimal_bound prev_item curr_item, n));
  let '(b, n) := encode_bound n next_bound in
  Ok (o ++ b ++ encode_varint (Mode_code Fingerprint) ++ our_fp, curr, n).

Definition split_range (n : Negentropy S) (lower upper : nat) (upper_bound : Bound)
    : result NegError (bytes * Negentropy S) :=
  if (upper <? lower)%nat then Err (NegError_msg "negentropy bounds out of order")
  else
    let num_elems := (upper - lower)%nat in
    if (num_elems <? BUCKETS * 2)%nat then
      let '(b, n) := encode_bound n upper_bound in
      let n := add_work n 1 in
      ids ← iterate (storage n) lower upper (λ o item _, (o ++ item_id item, true)) [];
      Ok (b ++ encode_varint (Mode_code IdList) ++ encode_varint (Z.of_nat num_elems) ++ ids, n)
    else
      let items_per_bucket := (num_elems / BUCKETS)%nat in
      let buckets_with_extra := (num_elems mod BUCKETS)%nat in
      '(o, _, n) ← try_fold (split_bucket items_per_bucket buckets_with_extra upper upper_bound)
                     ([], lower, n) (seq 0 BUCKETS);
      Ok (o, n).

Definition initiate (n : Negentropy S) : result NegError (bytes * Negentropy S) :=
  if is_initiator n then Err (NegError_msg "already initiated")
  else
    let n := set_initiator n in
    size ← size (storage n);
    '(o, n) ← split_range n 0 (Z.to_nat size) (Bound_timestamp MAX_U64);
    Ok (PROTOCOL_VERSION :: o, n).
End protocol.

(** ** Reconciliation *)

(** [for _ in 0..num_ids]: each iteration reads [ID_SIZE] bytes or fails, so
    there are no more iterations than bytes. *)
Fixpoint read_ids (fuel : nat) (num_ids : Z) (encoded : bytes) (acc : list bytes)
    : result NegError (list bytes * bytes) :=
  if num_ids <=? 0 then Ok (acc, encoded)
  else
    match fuel with
    | O => Err (NegError_msg "parse ends prematurely")
    | S fuel =>
        '(e, encoded) ← get_bytes encoded (Z.of_nat ID_SIZE);
        read_ids fuel (num_ids - 1) encoded (acc ++ [e])
    end.

Section reconcile.
Context {S : Type} {ST : Storage S}.
(** The order in which a [HashSet] is iterated. *)
Context (hash_order : list bytes → list bytes).

(** The variables of the loop. *)
Record recon : Type := mkRecon {
  r_neg : Negentropy S;
  r_query : bytes;
  r_output : bytes;
  r_prev_bound : Bound;
  r_prev_index : nat;
  r_skip : bool;
  r_have : list bytes;
  r_need : list bytes;
}.

(** What the loop leaves: the reply, the ids found and the state. *)
Definition recon_result : Type := bytes * list bytes * list bytes * Negentropy S.

(** The skip still owed for ranges that matched. *)
Definition owed_skip (n : Negentropy S) (skip : bool) (prev_bound : Bound) : bytes * Negentropy S :=
  if skip then
    let '(b, n) := encode_bound n prev_bound in (b ++ encode_varint (Mode_code Skip), n)
  else ([], n).

(** The rest of the range, as one fingerprint. *)
Definition remaining_range (n : Negentropy S) (index storage_size : nat)
    : result NegError (bytes * Negentropy S) :=
  remaining ← fingerprint (storage n) index storage_size;
  let '(b, n) := encode_bound n (Bound_timestamp MAX_U64) in
  Ok (b ++ encode_varint (Mode_code Fingerprint) ++ remaining, n).

(** A range answered: the bytes to append, whether a skip is owed, the index and
    the query reached, the ids found.  [a_moved] says that the bytes are appended
    to the reply before the frame limit is checked. *)
Record answer : Type := mkAnswer {
  a_neg : Negentropy S;
  a_query : bytes;
  a_out : bytes;
  a_moved : bool;
  a_skip : bool;
  a_upper : nat;
  a_have : list bytes;
  a_need : list bytes;
}.

Definition answer_fingerprint (n : Negentropy S) (query : bytes) (prev_bound curr_bound : Bound)
    (lower upper : nat) (skip : bool) (have need : list bytes) : result NegError answer :=
  '(their_fp, query) ← get_bytes query (Z.of_nat FINGERPRINT_SIZE);
  let n := add_work n 2 in
  our_fp ← fingerprint (storage n) lower upper;
  if bool_decide (their_fp ≠ our_fp) then
    let '(o, n) := owed_skip n skip prev_bound in
    '(s, n) ← split_range n lower upper curr_bound;
    Ok (mkAnswer n query (o ++ s) false false upper have need)
  else Ok (mkAnswer n query [] false true upper have need).

(** The initiator's side of an id list. *)
Definition answer_ids_initiator (n : Negentropy S) (query : bytes) (ids : list bytes)
    (lower upper : nat) (have need : list bytes) : result NegError answer :=
  '(their_elems, have) ←
    iterate (storage n) lower upper (λ '(their_elems, have) item _,
        let k := item_id item in
        if bool_decide (k ∈ their_elems) then ((their_elems ∖ {[k]}, have), true)
        else ((their_elems, have ++ [k]), true))
      (list_to_set ids : gset bytes, have);
  Ok (mkAnswer n query [] false true upper have
        (need ++ hash_order (elements (their_elems : gset bytes)))).

(** The responder's side: its ids in the range, as many as fit the frame. *)
Definition answer_ids_responder (n : Negentropy S) (query : bytes) (prev_bound curr_bound : Bound)
    (lower upper : nat) (skip : bool) (full_len : Z) (have need : list bytes)
    : result NegError answer :=
  let '(o, n) := owed_skip n skip prev_bound in
  let frame_limit := frame_size_limit n in
  '(response_ids, num_response_ids, end_bound, upper) ←
    iterate (storage n) lower upper
      (λ '(response_ids, num_response_ids, end_bound, upper) item index,
         if negb (frame_limit =? 0) && (full_len + len response_ids >? sat_sub frame_limit 200)
         then ((response_ids, num_response_ids, Bound_from_item item, index), false)
         else ((response_ids ++ item_id item, num_response_ids + 1, end_bound, upper), true))
      ([], 0, curr_bound, upper);
  let '(b, n) := encode_bound n end_bound in
  Ok (mkAnswer n query
        (o ++ b ++ encode_varint (Mode_code IdList) ++ encode_varint num_response_ids ++ response_ids)
        true false upper have need).

Definition answer_ids (n : Negentropy S) (query : bytes) (prev_bound curr_bound : Bound)
    (lower upper : nat) (skip : bool) (full_len : Z) (have need : list bytes)
    : result NegError answer :=
  '(num_ids, query) ← decode_varint query;
  '(ids, query) ← read_ids (length query) num_ids query [];
  let n := add_work n 1 in
  if is_initiator n then answer_ids_initiator n query ids lower upper have need
  else answer_ids_responder n query prev_bound curr_bound lower upper skip full_len have need.

(** One iteration of the loop over the ranges of the query. *)
Definition reconcile_step (storage_size : nat) (st : recon)
    : result NegError (recon + recon_result) :=
  let n := r_neg st in
  if bool_decide (r_query st = []) then
    Ok (inr (r_output st, r_have st, r_need st, n))
  else if work n >=? work_limit n then
    let '(o, n) := owed_skip n (r_skip st) (r_prev_bound st) in
    '(rest, n) ← remaining_range n (r_prev_index st) storage_size;
    Ok (inr (r_output st ++ o ++ rest, r_have st, r_need st, n))
  else
    '(curr_bound, query, n) ← decode_bound n (r_query st);
    '(code, query) ← decode_varint query;
    mode ← Mode_try_from code;
    let lower := r_prev_index st in
    let n := add_work n 1 in
    upper ← find_lower_bound (storage n) lower storage_size curr_bound;
    if (upper <? lower)%nat then Err (NegError_msg "negentropy bounds out of order")
    else
      a ← match mode with
          | Skip => Ok (mkAnswer n query [] false true upper (r_have st) (r_need st))
          | Fingerprint =>
              answer_fingerprint n query (r_prev_bound st) curr_bound lower upper
                (r_skip st) (r_have st) (r_need st)
          | IdList =>
              answer_ids n query (r_prev_bound st) curr_bound lower upper
                (r_skip st) (len (r_output st)) (r_have st) (r_need st)
          end;
      let n := a_neg a in
      if exceeded_frame_size_limit n (len (r_output st) + len (a_out a)) then
        '(rest, n) ← remaining_range n (a_upper a) storage_size;
        Ok (inr (r_output st ++ (if a_moved a then a_out a else []) ++ rest,
                 a_have a, a_need a, n))
      else
        Ok (inl (mkRecon n (a_query a) (r_output st ++ a_out a) curr_bound (a_upper a)
                   (a_skip a) (a_have a) (a_need a))).

Definition recon_fuel_error : NegError := NegError_msg "loop fuel".

Definition reconcile_aux (n : Negentropy S) (query : bytes) (have_ids need_ids : list bytes)
    : result NegError recon_result :=
  if len query >? MAX_RECONCILE_INPUT_BYTES then Err (NegError_msg "negentropy message too large")
  else
    let n := with_work (with_timestamp_out (with_timestamp_in n 0) 0) 0 in
    let full_output := [PROTOCOL_VERSION] in
    '(protocol_version, query) ← get_byte query;
    if negb ((0x60 <=? protocol_version) && (protocol_version <=? 0x6F)) then
      Err (NegError_msg "invalid negentropy protocol version byte")
    else if negb (protocol_version =? PROTOCOL_VERSION) then
      if is_initiator n then
        Err (NegMessage (Text "unsupported negentropy protocol version requested{}"
                           [TNum (protocol_version - 0x60)]))
      else Ok (full_output, have_ids, need_ids, n)
    else
      storage_size ← size (storage n);
      let storage_size := Z.to_nat storage_size in
      loop_m (λ st, length (r_query st)) (reconcile_step storage_size) recon_fuel_error
        (mkRecon n query full_output Bound_default 0 false have_ids need_ids).

Definition reconcile (n : Negentropy S) (query : bytes) : result NegError (bytes * Negentropy S) :=
  if is_initiator n then Err (NegError_msg "initiator not asking for have/need IDs")
  else '(output, _, _, n) ← reconcile_aux n query [] []; Ok (output, n).

Definition reconcile_with_ids (n : Negentropy S) (query : bytes) (have_ids need_ids : list bytes)
    : result NegError (option bytes * list bytes * list bytes * Negentropy S) :=
  if negb (is_initiator n) then Err (NegError_msg "non-initiator asking for have/need IDs")
  else
    '(output, have_ids, need_ids, n) ← reconcile_aux n query have_ids need_ids;
    Ok (if (length output =? 1)%nat then None else Some output, have_ids, need_ids, n).
End reconcile.

(** ** Lemmas: bounds on the wire *)

(** The bytes of a bound after one with timestamp [last]. *)
Definition timestamp_bytes (last t : Z) : bytes :=
  if t =? MAX_U64 then encode_varint 0 else encode_varint (sat_sub t last + 1).

Definition bound_bytes (last : Z) (b : Bound) : bytes :=
  timestamp_bytes last (timestamp (bound_item b)) ++ encode_varint (Z.of_nat (id_len b)) ++
  take (id_len b) (item_id (bound_item b)).

Section bounds.
Context {S : Type}.

Lemma encode_bound_eq (n : Negentropy S) b :
  encode_bound n b =
    (bound_bytes (last_timestamp_out n) b, with_timestamp_out n (timestamp (bound_item b))).
Proof.
  unfold encode_bound, encode_timestamp_out, bound_bytes, timestamp_bytes.
  destruct (_ =? MAX_U64) eqn:E; [|done]. bool_to_prop. by rewrite E.
Qed.

Lemma decode_timestamp_bytes (m : Negentropy S) t r :
  u64_ok t → 0 ≤ last_timestamp_in m ≤ t →
  decode_timestamp_in m (timestamp_bytes (last_timestamp_in m) t ++ r) =
    Ok (t, r, with_timestamp_in m t).
Proof.
  intros Ht Hl. unfold timestamp_bytes, decode_timestamp_in, sat_sub.
  assert (MAX_U64 = 2 ^ 64 - 1) as HM by done. unfold u64_ok, U64_MAX in Ht. rewrite HM.
  destruct (t =? 2 ^ 64 - 1) eqn:E; bool_to_prop.
  - rewrite decode_encode_varint by (unfold u64_ok, U64_MAX; lia). cbn [mbind result_bind].
    rewrite Z.eqb_refl. subst t. unfold sat_add. change U64_MAX with (2 ^ 64 - 1).
    rewrite Z.min_l by lia.
    rewrite (proj2 (Z.ltb_ge _ _)) by lia. done.
  - rewrite decode_encode_varint by (unfold u64_ok, U64_MAX; lia). cbn [mbind result_bind].
    rewrite (proj2 (Z.eqb_neq _ _)) by lia.
    rewrite Z.max_r by lia. unfold sat_add. change U64_MAX with (2 ^ 64 - 1).
    rewrite Z.min_r by lia. rewrite (proj2 (Z.ltb_ge _ _)) by lia.
    by replace (t - last_timestamp_in m + 1 - 1 + last_timestamp_in m) with t by lia.
Qed.

Lemma with_id_prefix_bound b :
  bound_ok b →
  Bound_with_id_prefix (timestamp (bound_item b)) (take (id_len b) (item_id (bound_item b))) = Ok b.
Proof.
  intros ((Ht & Hl & Hb) & Hid & Hz). unfold Bound_with_id_prefix.
  rewrite length_take_le by lia.
  rewrite (proj2 (Nat.ltb_ge _ _)) by lia.
  rewrite <- Hz, take_drop. by destruct b as [[t i] l].
Qed.

Lemma decode_bound_bytes (m : Negentropy S) b r :
  bound_ok b → 0 ≤ last_timestamp_in m ≤ timestamp (bound_item b) →
  decode_bound m (bound_bytes (last_timestamp_in m) b ++ r) =
    Ok (b, r, with_timestamp_in m (timestamp (bound_item b))).
Proof.
  intros Hb Hl. unfold decode_bound, bound_bytes. rewrite <- !(assoc_L (++)).
  pose proof Hb as ((Ht & Hlen & _) & Hid & _). unfold ID_SIZE in *.
  rewrite decode_timestamp_bytes by done. cbn [mbind result_bind].
  rewrite decode_encode_varint by (unfold u64_ok, U64_MAX; lia). cbn [mbind result_bind].
  rewrite get_bytes_app by (rewrite length_take_le; lia). cbn [mbind result_bind].
  rewrite with_id_prefix_bound by done. done.
Qed.

(** ** Lemmas: the minimal bound *)

Lemma bytes_cmp_prefix p a b :
  bytes_cmp (p ++ a) (p ++ b) = bytes_cmp a b.
Proof. induction p as [|x p IH]; [done|]. cbn. by rewrite Z.compare_refl. Qed.

Lemma shared_prefix_spec a b :
  length a = length b →
  ∃ p a' b', a = p ++ a' ∧ b = p ++ b' ∧ length p = shared_prefix a b ∧
    match a', b' with
    | x :: _, y :: _ => x ≠ y
    | [], [] => True
    | _, _ => False
    end.
Proof.
  revert b. induction a as [|x a IH]; intros [|y b] Hl; simpl in Hl; try done.
  - exists [], [], []. done.
  - cbn [shared_prefix]. case_decide as Hx.
    + subst y. destruct (IH b) as (p & a' & b' & -> & -> & Hp & H); [lia|].
      exists (x :: p), a', b'. simpl. auto.
    + exists [], (x :: a), (y :: b). auto.
Qed.

End bounds.

(** Lists of ids with heads of one length compare by their heads first. *)
Lemma bytes_cmp_app a a' b b' :
  length a = length b → bytes_cmp (a ++ a') (b ++ b') = then_with (bytes_cmp a b) (bytes_cmp a' b').
Proof.
  revert b. induction a as [|x a IH]; intros [|y b] Hl; simpl in Hl; try done.
  cbn. destruct (x ?= y); cbn; [|done..]. apply IH. lia.
Qed.

(** Two ids, the first smaller: a common prefix and the first byte that differs. *)
Lemma lt_ids_split (a b : bytes) :
  length a = length b → cmp_lt bytes_cmp a b →
  ∃ p x y a' b', a = p ++ x :: a' ∧ b = p ++ y :: b' ∧ x < y ∧ length p = shared_prefix b a.
Proof.
  intros Hl Hlt. destruct (shared_prefix_spec b a) as (p & b' & a' & -> & -> & Hp & Hd); [done|].
  unfold cmp_lt in Hlt. rewrite bytes_cmp_prefix in Hlt.
  destruct a' as [|x a'], b' as [|y b']; try done.
  exists p, x, y, a', b'. split_and!; try done. cbn in Hlt.
  destruct (x ?= y) eqn:E; cbn in Hlt; rewrite ?Z.compare_eq_iff, ?Z.compare_lt_iff in E; [|done|done].
  by subst.
Qed.

(** The bound of a common prefix and the first byte that differs. *)
Lemma minimal_bound_same_time t p x y a b :
  length (p ++ y :: b) = ID_SIZE → length (p ++ x :: a) = ID_SIZE → x < y →
  length p = shared_prefix (p ++ y :: b) (p ++ x :: a) →
  get_minimal_bound (mkItem t (p ++ x :: a)) (mkItem t (p ++ y :: b)) =
    mkBound (mkItem t (p ++ y :: replicate (length b) 0)) (S (length p)).
Proof.
  intros Hy Hx Hlt Hp. unfold get_minimal_bound. cbn [timestamp item_id].
  rewrite Z.eqb_refl. cbn [negb]. rewrite <- Hp.
  rewrite length_app in Hy. simpl in Hy. unfold ID_SIZE in *.
  rewrite Nat.min_l by lia.
  replace (take (length p + 1) (p ++ y :: b)) with (p ++ [y]) by (by rewrite take_app_add).
  unfold Bound_with_id_prefix. rewrite length_app. cbn [length].
  rewrite (proj2 (Nat.ltb_ge _ _)) by (unfold ID_SIZE; lia).
  rewrite <- (assoc_L (++)). f_equal; [|lia]. do 2 f_equal. simpl. do 2 f_equal.
  unfold ID_SIZE. lia.
Qed.

(** A prefix of the two ids, filled up with zeros, does not separate them. *)
Lemma short_bound_useless (p s a b : bytes) n :
  bytes_ok p → bytes_ok a → (length s ≤ length p)%nat →
  (length p + length a = length s + n)%nat →
  cmp_lt bytes_cmp (p ++ a) (s ++ replicate n 0) →
  cmp_lt bytes_cmp (p ++ b) (s ++ replicate n 0).
Proof.
  intros Hp Ha Hs Hl. rewrite <- (take_drop (length s) p), <- !(assoc_L (++)).
  unfold cmp_lt. rewrite !bytes_cmp_app by (rewrite length_take; lia).
  destruct (bytes_cmp (take _ p) s); [|done..]. cbn. intros Hlt.
  exfalso. eapply (zeros_least n (drop (length s) p ++ a)); [| |done].
  - rewrite length_app, length_drop. lia.
  - apply Forall_app. split; [by apply Forall_drop|done].
Qed.

Lemma zeros_ok n : bytes_ok (replicate n 0).
Proof. apply Forall_replicate. unfold byte_ok. lia. Qed.

Lemma Bound_timestamp_ok t : u64_ok t → bound_ok (Bound_timestamp t).
Proof.
  intros Ht. split; [|split; [unfold ID_SIZE; cbn; lia|done]].
  split; [done|]. split; [done|apply zeros_ok].
Qed.

Lemma Bound_timestamp_le t i :
  item_ok i → t ≤ timestamp i → cmp_le Item_cmp (bound_item (Bound_timestamp t)) i.
Proof.
  intros [_ [Hl Hb]] Ht. destruct (decide (cmp_le Item_cmp (bound_item (Bound_timestamp t)) i))
    as [|Hn]; [done|].
  apply cmp_lt_not_le in Hn; [|apply _].
  apply Item_lt_spec in Hn as [Hn|[_ Hn]]; cbn in Hn; [lia|].
  by eapply (zeros_least ID_SIZE) in Hn.
Qed.

(** The minimal bound of two neighbours lies between them. *)
Lemma minimal_bound_between prev curr :
  item_ok prev → item_ok curr → cmp_lt Item_cmp prev curr →
  bound_ok (get_minimal_bound prev curr) ∧
  cmp_lt Item_cmp prev (bound_item (get_minimal_bound prev curr)) ∧
  cmp_le Item_cmp (bound_item (get_minimal_bound prev curr)) curr.
Proof.
  destruct prev as [tp ip], curr as [tc ic]. intros [Htp [Hlp Hbp]] [Htc [Hlc Hbc]] Hlt.
  cbn [timestamp item_id] in *. apply Item_lt_spec in Hlt as [Hlt|[Heq Hlt]];
    cbn [timestamp item_id] in *.
  - unfold get_minimal_bound. cbn [timestamp]. rewrite (proj2 (Z.eqb_neq _ _)) by lia.
    cbn [negb]. split_and!.
    + by apply Bound_timestamp_ok.
    + apply Item_lt_spec. by left.
    + by apply Bound_timestamp_le.
  - subst tc. apply lt_ids_split in Hlt as (p & x & y & a & b & -> & -> & Hxy & Hp); [|congruence].
    rewrite minimal_bound_same_time by done.
    apply Forall_app in Hbp as [Hp1 Ha], Hbc as [_ Hb]. inv Hb. inv Ha.
    rewrite length_app in Hlc. simpl in Hlc. unfold ID_SIZE in Hlc.
    pose proof (zeros_ok (length b)) as Hz.
    split_and!.
    + split; [|split]; cbn; [|unfold ID_SIZE; lia|].
      * split; [done|]. split; [|apply Forall_app; auto]. cbn. rewrite length_app. simpl.
        rewrite length_replicate. unfold ID_SIZE; lia.
      * rewrite drop_app_ge by lia. replace (S (length p) - length p)%nat with 1%nat by lia.
        cbn [drop skipn]. rewrite drop_0. by replace (31 - length p)%nat with (length b) by lia.
    + apply Item_lt_spec. right. split; [done|]. unfold cmp_lt. cbn. rewrite bytes_cmp_prefix.
      cbn. by rewrite (proj2 (Z.compare_lt_iff _ _) Hxy).
    + unfold cmp_le, Item_cmp. cbn. rewrite Z.compare_refl. cbn. rewrite bytes_cmp_prefix. cbn.
      rewrite Z.compare_refl. cbn. intros Hgt. apply (cmp_gt_lt bytes_cmp) in Hgt.
      by eapply (zeros_least (length b)) in Hgt.
Qed.

(** Other bounds between them are not shorter. *)
Lemma minimal_bound_shortest prev curr b :
  item_ok prev → item_ok curr → cmp_lt Item_cmp prev curr → bound_ok b →
  cmp_lt Item_cmp prev (bound_item b) → cmp_le Item_cmp (bound_item b) curr →
  (id_len (get_minimal_bound prev curr) ≤ id_len b)%nat.
Proof.
  destruct prev as [tp ip], curr as [tc ic]. intros [Htp [Hlp Hbp]] [Htc [Hlc Hbc]] Hlt Hb Hpb Hbc'.
  cbn [timestamp item_id] in *. apply Item_lt_spec in Hlt as [Hlt|[Heq Hlt]];
    cbn [timestamp item_id] in *.
  { unfold get_minimal_bound. cbn [timestamp]. rewrite (proj2 (Z.eqb_neq _ _)) by lia. cbn. lia. }
  subst tc. apply lt_ids_split in Hlt as (p & x & y & a & b' & -> & -> & Hxy & Hp); [|congruence].
  rewrite minimal_bound_same_time by done. cbn [id_len].
  destruct (decide (S (length p) ≤ id_len b)%nat) as [|Hn]; [done|exfalso].
  apply (cmp_lt_not_le Item_cmp) in Hpb as Hpb'. destruct b as [[tb ib] k].
  destruct Hb as ((Htb & Hib & Hbb) & Hk & Hz). cbn [bound_item id_len item_id timestamp] in *.
  apply Item_lt_spec in Hpb. cbn [item_id timestamp] in Hpb.
  rewrite <- (take_drop k ib), Hz in Hpb.
  apply cmp_le_lt_eq in Hbc'; [|apply _].
  assert (tb = tp ∧ cmp_le bytes_cmp ib (p ++ y :: b')) as [-> Hle].
  { destruct Hbc' as [H|[= -> ->]].
    - apply Item_lt_spec in H as [H|[? H]]; cbn in *; [lia|].
      split; [done|]. apply cmp_le_lt_eq; [apply _|by left].
    - split; [done|]. by apply (reflexivity (R:=cmp_le bytes_cmp)). }
  destruct Hpb as [?|[_ Hpb]]; [lia|].
  apply Forall_app in Hbp as [? ?].
  assert (length (p ++ x :: a) = ID_SIZE) as Hlen by done. rewrite length_app in Hlen.
  eapply (short_bound_useless _ _ _ (y :: b')) in Hpb;
    [|done|done|rewrite length_take; lia|rewrite length_take; lia].
  rewrite <- Hz, take_drop in Hpb. by apply (cmp_lt_not_le bytes_cmp) in Hpb.
Qed.

(** ** Properties *)

(** Round trip of bounds: a peer whose last decoded timestamp is the last one
    the sender encoded reads back the bound that was written, leaves the bytes
    after it, and is again in step with the sender. *)
Theorem bound_roundtrip {S T} (n : Negentropy S) (m : Negentropy T) b rest :
  bound_ok b → last_timestamp_in m = last_timestamp_out n →
  0 ≤ last_timestamp_out n ≤ timestamp (bound_item b) →
  ∃ m', decode_bound m (fst (encode_bound n b) ++ rest) = Ok (b, rest, m') ∧
        last_timestamp_in m' = last_timestamp_out (snd (encode_bound n b)).
Proof.
  intros Hb Hs Hl. rewrite encode_bound_eq. cbn [fst snd]. rewrite <- Hs in *.
  rewrite decode_bound_bytes by done. by eexists.
Qed.

(** The bound [split_range] writes between two neighbouring items is well
    formed, is above the first and not above the second, and no bound between
    them has a shorter id prefix. *)
Theorem get_minimal_bound_separates prev curr :
  item_ok prev → item_ok curr → cmp_lt Item_cmp prev curr →
  bound_ok (get_minimal_bound prev curr) ∧
  cmp_lt Item_cmp prev (bound_item (get_minimal_bound prev curr)) ∧
  cmp_le Item_cmp (bound_item (get_minimal_bound prev curr)) curr ∧
  ∀ b, bound_ok b → cmp_lt Item_cmp prev (bound_item b) → cmp_le Item_cmp (bound_item b) curr →
       (id_len (get_minimal_bound prev curr) ≤ id_len b)%nat.
Proof.
  intros Hp Hc Hlt. destruct (minimal_bound_between prev curr) as (? & ? & ?); [done..|].
  split_and!; eauto using minimal_bound_shortest.
Qed.

(** ** Witnesses *)

Lemma bound_roundtrip_witness :
  ∃ m', decode_bound (mkNegentropy () 0 false 5 0 0 0)
          (fst (encode_bound (mkNegentropy () 0 false 0 5 0 0) (Bound_from_item (mkItem 9 (replicate 32 7))))
             ++ [1; 2])
        = Ok (Bound_from_item (mkItem 9 (replicate 32 7)), [1; 2], m') ∧
        last_timestamp_in m' = 9.
Proof.
  apply bound_roundtrip; [|done|cbn; lia].
  split; [|split; [cbn; lia|done]]. split; [unfold u64_ok, U64_MAX; cbn; lia|].
  split; [done|]. apply Forall_replicate. unfold byte_ok. lia.
Defined.
