(* ===== verification/NegMessage.v ===== *)
(** * Negentropy messages: what the bytes of protocol.rs mean

    The specification side of the protocol.  A message is a list of ranges; the
    bytes [split_range] and [reconcile] write are the rendering of such a list.
    The file gives the rendering, what a message says about the sender's items,
    and shows that [split_range] renders a partition of its range. *)

From S2P Require Import Prelude Crates NegEncoding NegTypes NegStorage NegProtocol.

Local Open Scope Z_scope.

(** ** Messages *)

Inductive payload : Type :=
| PSkip
| PFingerprint (fp : bytes)
| PIdList (ids : list bytes).

#[export] Instance payload_eq_dec : EqDecision payload.
Proof. solve_decision. Defined.

(** A range reaches from the bound of the range before it (or the least bound)
    to its own. *)
Record range : Type := mkRange { range_upper : Bound; range_payload : payload }.

Definition bound_time (b : Bound) : Z := timestamp (bound_item b).

Definition payload_bytes (p : payload) : bytes :=
  match p with
  | PSkip => encode_varint (Mode_code Skip)
  | PFingerprint fp => encode_varint (Mode_code Fingerprint) ++ fp
  | PIdList ids => encode_varint (Mode_code IdList) ++ encode_varint (len ids) ++ concat ids
  end.

Fixpoint message_bytes (last : Z) (rs : list range) : bytes :=
  match rs with
  | [] => []
  | r :: rs =>
      bound_bytes last (range_upper r) ++ payload_bytes (range_payload r) ++
      message_bytes (bound_time (range_upper r)) rs
  end.

(** Where a message that starts at [lo] ends. *)
Definition last_bound (lo : Bound) (rs : list range) : Bound :=
  foldl (λ _ r, range_upper r) lo rs.

Abbreviation bound_le a b := (cmp_le Item_cmp (bound_item a) (bound_item b)).
Abbreviation below x b := (cmp_lt Item_cmp x (bound_item b)).
Definition max_bound : Bound := Bound_timestamp MAX_U64.

Definition payload_ok (p : payload) : Prop :=
  match p with
  | PSkip => True
  | PFingerprint fp => length fp = FINGERPRINT_SIZE
  | PIdList ids => Forall id_ok ids ∧ u64_ok (len ids)
  end.

(** Bounds that do not decrease and stay below the greatest. *)
Fixpoint message_ok (lo : Bound) (rs : list range) : Prop :=
  match rs with
  | [] => True
  | r :: rs =>
      bound_ok (range_upper r) ∧ bound_le lo (range_upper r) ∧
      bound_le (range_upper r) max_bound ∧ payload_ok (range_payload r) ∧
      message_ok (range_upper r) rs
  end.

(** ** What a message says *)

(** The items from [lo] on and below [hi]. *)
Definition between (X : list Item) (lo hi : Bound) : list Item :=
  filter (λ x, cmp_le Item_cmp (bound_item lo) x ∧ below x hi) X.

Section faithful.
Context {SH : Sha256}.

(** What a range says of the sender's items [X] in it.  A fingerprint speaks for
    them only in an [exact] message. *)
Definition payload_of (exact : Prop) (X : list Item) (lo hi : Bound) (p : payload) : Prop :=
  match p with
  | PSkip => True
  | PFingerprint fp => exact → fp = items_fingerprint (between X lo hi)
  | PIdList ids => ids = item_id <$> between X lo hi
  end.

Fixpoint faithful (exact : Prop) (X : list Item) (lo : Bound) (rs : list range) : Prop :=
  match rs with
  | [] => True
  | r :: rs =>
      payload_of exact X lo (range_upper r) (range_payload r) ∧
      faithful exact X (range_upper r) rs
  end.
End faithful.

(** The payload of the range an item falls in. *)
Fixpoint at_range (rs : list range) (x : Item) : option payload :=
  match rs with
  | [] => None
  | r :: rs => if decide (below x (range_upper r)) then Some (range_payload r) else at_range rs x
  end.

(** The item falls in a range that is still being worked on. *)
Definition open_at (rs : list range) (x : Item) : Prop :=
  ∃ p, at_range rs x = Some p ∧ p ≠ PSkip.

(** [k] is the number of items below the bound. *)
Definition index_of (X : list Item) (b : Bound) (k : nat) : Prop :=
  (k ≤ length X)%nat ∧ ∀ j x, X !! j = Some x → below x b ↔ (j < k)%nat.

(** ** The ranges of a split *)

Section split.
Context {SH : Sha256}.

(** Where bucket [i] starts. *)
Definition bucket_start (lower upper i : nat) : nat :=
  (lower + i * ((upper - lower) / BUCKETS) + i `min` ((upper - lower) mod BUCKETS))%nat.

(** The bound before index [k]. *)
Definition bound_before (X : list Item) (upper : nat) (upper_bound : Bound) (k : nat) : Bound :=
  if (k =? upper)%nat then upper_bound
  else get_minimal_bound (default Item_default (X !! (k - 1)%nat)) (default Item_default (X !! k)).

Definition bucket_range (X : list Item) (lower upper : nat) (upper_bound : Bound) (i : nat) : range :=
  mkRange (bound_before X upper upper_bound (bucket_start lower upper (S i)))
    (PFingerprint (items_fingerprint
       (slice (bucket_start lower upper i) (bucket_start lower upper (S i)) X))).

Definition split_ranges (X : list Item) (lower upper : nat) (upper_bound : Bound) : list range :=
  if (upper - lower <? BUCKETS * 2)%nat
  then [mkRange upper_bound (PIdList (item_id <$> slice lower upper X))]
  else bucket_range X lower upper upper_bound <$> seq 0 BUCKETS.
End split.

(** ** Lemmas: messages *)

Lemma last_bound_app lo rs rs' : last_bound lo (rs ++ rs') = last_bound (last_bound lo rs) rs'.
Proof. apply foldl_app. Qed.

Lemma message_bytes_app lo rs rs' :
  message_bytes (bound_time lo) (rs ++ rs') =
    message_bytes (bound_time lo) rs ++ message_bytes (bound_time (last_bound lo rs)) rs'.
Proof.
  revert lo. induction rs as [|r rs IH]; intros lo; cbn; [done|].
  rewrite IH. by rewrite <- !(assoc_L (++)).
Qed.

Lemma message_ok_app lo rs rs' :
  message_ok lo (rs ++ rs') ↔ message_ok lo rs ∧ message_ok (last_bound lo rs) rs'.
Proof.
  revert lo. induction rs as [|r rs IH]; intros lo; cbn; [naive_solver|].
  rewrite IH. unfold last_bound. cbn. naive_solver.
Qed.

Lemma faithful_app `{Sha256} exact X lo rs rs' :
  faithful exact X lo (rs ++ rs') ↔
  faithful exact X lo rs ∧ faithful exact X (last_bound lo rs) rs'.
Proof.
  revert lo. induction rs as [|r rs IH]; intros lo; cbn; [naive_solver|].
  rewrite IH. unfold last_bound. cbn. naive_solver.
Qed.

Lemma faithful_weaken `{Sha256} (E E' : Prop) X lo rs :
  (E' → E) → faithful E X lo rs → faithful E' X lo rs.
Proof.
  intros HE. revert lo. induction rs as [|r rs IH]; intros lo; cbn [faithful]; [done|].
  intros [Hp Hf]. split; [|by apply IH]. destruct (range_payload r); cbn [payload_of] in *; auto.
Qed.

Lemma at_range_app rs rs' x :
  at_range (rs ++ rs') x = match at_range rs x with Some p => Some p | None => at_range rs' x end.
Proof. induction rs as [|r rs IH]; cbn; [done|]. by case_decide. Qed.

Lemma open_at_app_l rs rs' x : open_at rs x → open_at (rs ++ rs') x.
Proof. intros (p & Hp & Hn). exists p. by rewrite at_range_app, Hp. Qed.

Lemma bound_le_trans a b c : bound_le a b → bound_le b c → bound_le a c.
Proof. apply (transitivity (R:=cmp_le Item_cmp)). Qed.

Lemma below_le x a b : below x a → bound_le a b → below x b.
Proof.
  intros H1 H2. apply (cmp_le_lt_eq Item_cmp) in H2 as [H2|H2].
  - by eapply cmp_lt_trans.
  - unfold cmp_lt in *. congruence.
Qed.

Lemma last_bound_ge lo rs : message_ok lo rs → bound_le lo (last_bound lo rs).
Proof.
  revert lo. induction rs as [|r rs IH]; intros lo; cbn.
  - intros _. by apply (reflexivity (R:=cmp_le Item_cmp)).
  - intros (_ & Hle & _ & _ & Hok). eapply bound_le_trans; [done|]. by apply IH.
Qed.

(** The items below the end of a message are those that fall in a range. *)
Lemma at_range_below lo rs x :
  message_ok lo rs → at_range rs x ≠ None → below x (last_bound lo rs).
Proof.
  revert lo. induction rs as [|r rs IH]; intros lo; cbn; [done|].
  intros (_ & _ & _ & _ & Hok). case_decide as Hx; intros H; [|by apply IH].
  eapply below_le; [done|]. by apply last_bound_ge.
Qed.

Lemma below_at_range lo rs x :
  below x (last_bound lo rs) → ¬ below x lo → at_range rs x ≠ None.
Proof.
  revert lo. induction rs as [|r rs IH]; intros lo; cbn; [done|].
  intros H Hlo. case_decide; [done|]. by eapply IH.
Qed.

(** ** Lemmas: indices and ranges of items *)

Lemma elem_of_between X lo hi x :
  x ∈ between X lo hi ↔ x ∈ X ∧ cmp_le Item_cmp (bound_item lo) x ∧ below x hi.
Proof. unfold between. rewrite list_elem_of_filter. naive_solver. Qed.

Lemma index_of_le X lo hi k l : index_of X lo k → index_of X hi l → bound_le lo hi → (k ≤ l)%nat.
Proof.
  intros [Hk Hx] [Hl Hy] Hle. destruct (decide (k ≤ l)%nat) as [|Hn]; [done|].
  destruct (lookup_lt_is_Some_2 X l) as [x Hlx]; [lia|].
  assert (below x hi) as Hb by (eapply below_le; [|done]; apply (Hx l x); [done|lia]).
  apply (Hy l x Hlx) in Hb. lia.
Qed.

Lemma slice_between X lo hi k l :
  index_of X lo k → index_of X hi l → bound_le lo hi → slice k l X = between X lo hi.
Proof.
  intros Hk Hl Hle. pose proof (index_of_le _ _ _ _ _ Hk Hl Hle) as Hkl.
  destruct Hk as [Hk1 Hk], Hl as [Hl1 Hl].
  unfold between. rewrite <- (slice_full X) at 2.
  rewrite <- (slice_app 0 k (length X)) by lia. rewrite <- (slice_app k l (length X)) by lia.
  rewrite !filter_app.
  rewrite (filter_all _ (slice k l X)), (filter_none _ (slice 0 k X)),
    (filter_none _ (slice l _ X)).
  - by rewrite app_nil_r.
  - intros x (j & Hj)%list_elem_of_lookup [_ Hb]. apply lookup_slice_Some in Hj as [Hj ?].
    apply (Hl _ _ Hj) in Hb. lia.
  - intros x (j & Hj)%list_elem_of_lookup [Hb _]. apply lookup_slice_Some in Hj as [Hj ?].
    apply (cmp_lt_not_le Item_cmp) in Hb; [done|]. apply (Hk _ _ Hj). lia.
  - intros x (j & Hj)%list_elem_of_lookup. apply lookup_slice_Some in Hj as [Hj ?]. split.
    + destruct (decide (cmp_le Item_cmp (bound_item lo) x)) as [|Hn]; [done|].
      apply (cmp_lt_not_le Item_cmp), (Hk _ _ Hj) in Hn. lia.
    + apply (Hl _ _ Hj). lia.
Qed.

Lemma index_of_default X : Forall item_ok X → index_of X Bound_default 0.
Proof.
  intros HX. split; [lia|]. intros j x Hx. split; [|lia].
  intros Hb. by apply not_below_zero in Hb; [|eapply Forall_lookup_1].
Qed.

Lemma below_max x : timestamp x < MAX_U64 → below x max_bound.
Proof. intros H. apply Item_lt_spec. by left. Qed.

Lemma index_of_max X : Forall (λ x, timestamp x < MAX_U64) X → index_of X max_bound (length X).
Proof.
  intros HX. split; [lia|]. intros j x Hx. split; [intros _; by eapply lookup_lt_Some|].
  intros _. apply below_max. by eapply Forall_lookup_1 in HX.
Qed.

Section storage.
Context {SH : Sha256} {S : Type} {ST : Storage S} {valid : S → Prop} {contents : S → list Item}.
Context {SL : StorageLaws S valid contents}.

(** [find_lower_bound] from the index of a lower bound on. *)
Lemma find_lower_bound_index s lo hi k :
  valid s → index_of (contents s) lo k → bound_le lo hi →
  ∃ l, find_lower_bound s k (length (contents s)) hi = Ok l ∧ (k ≤ l)%nat ∧ index_of (contents s) hi l.
Proof.
  intros Hv [Hk Hx] Hle.
  destruct (find_lower_bound_split s k (length (contents s)) hi) as (l & -> & Hl & Hs); [done|lia|].
  exists l. split; [done|]. split; [lia|]. split; [lia|]. intros j x Hj.
  destruct (decide (k ≤ j)%nat) as [|Hn].
  - apply Hs; [|done]. split; [lia|]. by eapply lookup_lt_Some.
  - split; [lia|]. intros _. eapply below_le; [|done]. apply (Hx _ _ Hj). lia.
Qed.

(** The bound [split_range] writes before index [k] has that index. *)
Lemma bound_before_index s upper ub k :
  valid s → index_of (contents s) ub upper → (0 < k ≤ upper)%nat → bound_ok ub →
  bound_ok (bound_before (contents s) upper ub k) ∧
  index_of (contents s) (bound_before (contents s) upper ub k) k.
Proof.
  intros Hv Hu Hk Hub. unfold bound_before. destruct (Nat.eqb_spec k upper) as [->|Hne].
  { by split. }
  destruct Hu as [Hlen _].
  destruct (lookup_lt_is_Some_2 (contents s) (k - 1)) as [p Hp]; [lia|].
  destruct (lookup_lt_is_Some_2 (contents s) k) as [c Hc]; [lia|].
  rewrite Hp, Hc. cbn [default]. unfold Datatypes.id.
  pose proof (contents_sorted s Hv) as Hs. pose proof (contents_ok s Hv) as Ho.
  assert (∀ i j x y, (i < j)%nat → contents s !! i = Some x → contents s !! j = Some y →
            cmp_lt Item_cmp x y) as Hlt.
  { intros i j x y Hij Hx Hy. by eapply (StronglySorted_lookup _ _ i j). }
  destruct (minimal_bound_between p c) as (Hbo & Hpb & Hbc);
    [by eapply Forall_lookup_1|by eapply Forall_lookup_1|by eapply (Hlt (k - 1)%nat k); [lia|..]|].
  split; [done|]. split; [lia|]. intros j x Hx. split.
  - intros Hb. destruct (decide (j < k)%nat) as [|Hn]; [done|exfalso].
    assert (cmp_le Item_cmp c x) as Hcx.
    { apply cmp_le_lt_eq; [apply _|]. destruct (decide (j = k)) as [->|]; [right; congruence|].
      left. eapply (Hlt k j); [lia|done..]. }
    apply (cmp_lt_not_le Item_cmp) in Hb. apply Hb.
    by transitivity c.
  - intros Hj. destruct (decide (j = k - 1)%nat) as [->|]; [congruence|].
    eapply cmp_lt_trans; [|exact Hpb]. eapply (Hlt j (k - 1)%nat); [lia|done..].
Qed.
End storage.

(** ** Lemmas: split_range *)

Lemma bucket_start_0 lower upper : bucket_start lower upper 0 = lower.
Proof. unfold bucket_start. cbn. lia. Qed.

Lemma bucket_start_S lower upper i :
  bucket_start lower upper (S i) =
    (bucket_start lower upper i + ((upper - lower) / BUCKETS +
       if (i <? (upper - lower) mod BUCKETS)%nat then 1 else 0))%nat.
Proof.
  unfold bucket_start. destruct (Nat.ltb_spec i ((upper - lower) mod BUCKETS)); lia.
Qed.

Lemma bucket_start_last lower upper :
  (lower ≤ upper)%nat → bucket_start lower upper BUCKETS = upper.
Proof.
  intros H. unfold bucket_start. pose proof (Nat.div_mod_eq (upper - lower) BUCKETS).
  pose proof (Nat.mod_upper_bound (upper - lower) BUCKETS ltac:(done)). unfold BUCKETS in *. lia.
Qed.

Lemma bucket_start_mono lower upper i j :
  (i ≤ j)%nat → (bucket_start lower upper i ≤ bucket_start lower upper j)%nat.
Proof. intros H. unfold bucket_start. nia. Qed.

Lemma bucket_start_lt lower upper i :
  (BUCKETS * 2 ≤ upper - lower)%nat →
  (bucket_start lower upper i + 2 ≤ bucket_start lower upper (S i))%nat.
Proof.
  intros H. rewrite bucket_start_S.
  assert (2 ≤ (upper - lower) / BUCKETS)%nat; [|lia].
  apply Nat.div_le_lower_bound; [done|]. unfold BUCKETS in *. lia.
Qed.

Section split_range.
Context {SH : Sha256} {S : Type} {ST : Storage S} {valid : S → Prop} {contents : S → list Item}.
Context {SL : StorageLaws S valid contents}.

(** The items on both sides of an index. *)
Lemma iterate_neighbours s k :
  valid s → (0 < k < length (contents s))%nat →
  iterate s (k - 1) (k + 1)
    (λ '(prev_item, curr_item) item index,
       if (index =? k - 1)%nat then ((item, curr_item), true) else ((prev_item, item), true))
    (Item_default, Item_default) =
  Ok (default Item_default (contents s !! (k - 1)%nat), default Item_default (contents s !! k)).
Proof.
  intros Hv Hk. rewrite iterate_spec by (done || lia).
  destruct (lookup_lt_is_Some_2 (contents s) (k - 1)) as [p Hp]; [lia|].
  destruct (lookup_lt_is_Some_2 (contents s) k) as [c Hc]; [lia|].
  rewrite Hp, Hc. cbn [default]. unfold Datatypes.id.
  assert (slice (k - 1) (k + 1) (contents s) = [p; c]) as ->.
  { unfold slice. replace (k + 1 - (k - 1))%nat with 2%nat by lia.
    rewrite (drop_S _ _ _ Hp). replace (Datatypes.S (k - 1)) with k by lia.
    rewrite (drop_S _ _ _ Hc). done. }
  cbn [iterate_items]. rewrite Nat.eqb_refl.
  destruct (Nat.eqb_spec (Datatypes.S (k - 1)) (k - 1)); [lia|]. done.
Qed.

Lemma iterate_ids_all s b e :
  valid s → (b ≤ e ≤ length (contents s))%nat →
  iterate s b e (λ o item _, (o ++ item_id item, true)) [] =
    Ok (concat (item_id <$> slice b e (contents s))).
Proof.
  intros Hv Hbe. rewrite iterate_spec by done. f_equal.
  assert (∀ l i o, iterate_items (λ o item _, (o ++ item_id item, true)) o l i =
            o ++ concat (item_id <$> l)) as H.
  { induction l as [|x l IH]; intros i o; cbn; [by rewrite app_nil_r|].
    rewrite IH. by rewrite <- (assoc_L (++)). }
  by rewrite H.
Qed.

(** One bucket appends one range. *)
Lemma split_bucket_range n lower upper ub i o :
  valid (storage n) → (lower ≤ upper ≤ length (contents (storage n)))%nat →
  (BUCKETS * 2 ≤ upper - lower)%nat → (i < BUCKETS)%nat →
  let r := bucket_range (contents (storage n)) lower upper ub i in
  ∃ w, (work n ≤ w ≤ work n + 3) ∧
    split_bucket ((upper - lower) / BUCKETS) ((upper - lower) mod BUCKETS) upper ub
      (o, bucket_start lower upper i, n) i =
    Ok (o ++ message_bytes (last_timestamp_out n) [r], bucket_start lower upper (Datatypes.S i),
        with_work (with_timestamp_out n (bound_time (range_upper r))) w).
Proof.
  intros Hv Hlu Hn Hi r. unfold split_bucket. rewrite <- bucket_start_S.
  pose proof (bucket_start_lt lower upper i Hn) as Hlt.
  pose proof (bucket_start_mono lower upper (Datatypes.S i) BUCKETS ltac:(lia)) as Hle.
  rewrite bucket_start_last in Hle by lia.
  rewrite fingerprint_spec by (cbn; done || lia). cbn [mbind result_bind storage add_work with_work].
  set (k := bucket_start lower upper (Datatypes.S i)) in *.
  subst r. unfold bucket_range. fold k. cbn [range_upper range_payload message_bytes payload_bytes].
  unfold bound_before. destruct (Nat.eqb_spec k upper) as [Hk|Hk].
  - cbn [mbind result_bind]. rewrite encode_bound_eq. cbn.
    exists (work n + 2). split; [lia|]. by rewrite app_nil_r.
  - rewrite iterate_neighbours by (cbn; done || lia). cbn [mbind result_bind].
    rewrite encode_bound_eq. cbn. exists (work n + 2 + 1). split; [lia|]. by rewrite app_nil_r.
Qed.

Lemma split_buckets_ranges n lower upper ub j :
  valid (storage n) → (lower ≤ upper ≤ length (contents (storage n)))%nat →
  (BUCKETS * 2 ≤ upper - lower)%nat → (j ≤ BUCKETS)%nat →
  let rs := bucket_range (contents (storage n)) lower upper ub <$> seq 0 j in
  ∃ w, (work n ≤ w ≤ work n + 3 * Z.of_nat j) ∧
    try_fold (split_bucket ((upper - lower) / BUCKETS) ((upper - lower) mod BUCKETS) upper ub)
      ([], lower, n) (seq 0 j) =
    Ok (message_bytes (last_timestamp_out n) rs, bucket_start lower upper j,
        with_work (with_timestamp_out n
          (bound_time (last_bound (Bound_timestamp (last_timestamp_out n)) rs))) w).
Proof.
  intros Hv Hlu Hn. induction j as [|j IH]; intros Hj rs.
  - exists (work n). split; [lia|]. cbn. rewrite bucket_start_0. by destruct n.
  - destruct IH as (w & Hw & IH); [lia|]. subst rs. rewrite seq_S, try_fold_app, IH. cbn [mbind result_bind].
    cbn [try_fold].
    edestruct (split_bucket_range (with_work (with_timestamp_out n
      (bound_time (last_bound (Bound_timestamp (last_timestamp_out n))
         (bucket_range (contents (storage n)) lower upper ub <$> seq 0 j)))) w) lower upper ub j)
      as (w' & Hw' & Hstep); [done|done|done|lia|].
    cbn [Nat.add]. rewrite Hstep. cbn [mbind result_bind]. cbn in Hw'.
    exists w'. split; [lia|]. rewrite fmap_app, last_bound_app.
    pose proof (message_bytes_app (Bound_timestamp (last_timestamp_out n))) as Happ.
    cbn [bound_time Bound_timestamp bound_item timestamp] in Happ.
    rewrite Happ. done.
Qed.
End split_range.

Lemma index_lt_bound_le X a b k l :
  index_of X a k → index_of X b l → (k < l)%nat → bound_le a b.
Proof.
  intros [Hk Ha] [Hl Hb] Hlt. destruct (lookup_lt_is_Some_2 X k) as [x Hx]; [lia|].
  apply cmp_le_lt_eq; [apply _|]. left. eapply (cmp_le_lt_trans Item_cmp _ x).
  - destruct (decide (cmp_le Item_cmp (bound_item a) x)) as [|Hn]; [done|].
    apply (cmp_lt_not_le Item_cmp), (Ha _ _ Hx) in Hn. lia.
  - by apply (Hb _ _ Hx).
Qed.

Lemma length_items_fingerprint `{Sha256Laws} items :
  length (items_fingerprint items) = FINGERPRINT_SIZE.
Proof.
  unfold items_fingerprint, get_fingerprint. rewrite length_take, sha256_length. done.
Qed.

Section split_ranges.
Context {SH : Sha256} {SHL : Sha256Laws} {S : Type} {ST : Storage S}.
Context {valid : S → Prop} {contents : S → list Item} {SL : StorageLaws S valid contents}.

(** [split_range] renders the split. *)
Lemma split_range_bytes n lower upper ub :
  valid (storage n) → (lower ≤ upper ≤ length (contents (storage n)))%nat →
  last_bound (Bound_timestamp (last_timestamp_out n))
    (split_ranges (contents (storage n)) lower upper ub) = ub →
  ∃ w, (work n ≤ w ≤ work n + 48) ∧
    split_range n lower upper ub =
    Ok (message_bytes (last_timestamp_out n) (split_ranges (contents (storage n)) lower upper ub),
        with_work (with_timestamp_out n (bound_time ub)) w).
Proof.
  intros Hv Hlu Hlast. unfold split_range, split_ranges in *.
  destruct (Nat.ltb_spec upper lower); [lia|].
  destruct (Nat.ltb_spec (upper - lower) (BUCKETS * 2)) as [Hs|Hs].
  - rewrite encode_bound_eq. rewrite iterate_ids_all by done. cbn [mbind result_bind].
    exists (work n + 1). split; [lia|]. cbn [message_bytes payload_bytes range_upper range_payload].
    rewrite length_fmap, length_slice by lia. by rewrite app_nil_r.
  - destruct (split_buckets_ranges n lower upper ub BUCKETS) as (w & Hw & ->); [done..|].
    cbn [mbind result_bind]. exists w. split; [unfold BUCKETS in Hw; lia|]. by rewrite Hlast.
Qed.

Lemma slice_ids_ok s b e : valid s → Forall id_ok (item_id <$> slice b e (contents s)).
Proof.
  intros Hv. apply Forall_fmap. eapply Forall_impl; [apply Forall_slice, contents_ok, Hv|].
  by intros x [_ H].
Qed.

(** The first [j] buckets. *)
Lemma bucket_ranges_ok exact s lo ub lower upper j :
  valid s → index_of (contents s) lo lower → index_of (contents s) ub upper →
  (BUCKETS * 2 ≤ upper - lower)%nat →
  bound_ok ub → bound_le ub max_bound → (j ≤ BUCKETS)%nat →
  let rs := bucket_range (contents s) lower upper ub <$> seq 0 j in
  message_ok lo rs ∧ faithful exact (contents s) lo rs ∧
  index_of (contents s) (last_bound lo rs) (bucket_start lower upper j).
Proof.
  intros Hv Hlo Hub Hn Hok Hmax. induction j as [|j IH]; intros Hj rs.
  { cbn. by rewrite bucket_start_0. }
  destruct IH as (Hm & Hf & Hi); [lia|]. subst rs. rewrite seq_S, fmap_app.
  rewrite message_ok_app, faithful_app, last_bound_app.
  cbn [fmap list_fmap Nat.add message_ok faithful].
  pose proof (bucket_start_lt lower upper j Hn) as Hlt.
  pose proof (bucket_start_mono lower upper (Datatypes.S j) BUCKETS Hj) as Hle.
  pose proof (bucket_start_mono lower upper 0 j ltac:(lia)) as Hge. rewrite bucket_start_0 in Hge.
  rewrite bucket_start_last in Hle by lia.
  destruct (bound_before_index s upper ub (bucket_start lower upper (Datatypes.S j)))
    as [Hbok Hbi]; [done|done|lia|done|].
  assert (bound_le (last_bound lo (bucket_range (contents s) lower upper ub <$> seq 0 j))
            (bound_before (contents s) upper ub (bucket_start lower upper (Datatypes.S j)))) as Hstep
    by (eapply index_lt_bound_le; [done..|lia]).
  assert (bound_le (bound_before (contents s) upper ub (bucket_start lower upper (Datatypes.S j))) ub)
    as Hbub.
  { unfold bound_before in *. destruct (Nat.eqb_spec (bucket_start lower upper (Datatypes.S j)) upper).
    - by apply (reflexivity (R:=cmp_le Item_cmp)).
    - eapply index_lt_bound_le; [done..|lia]. }
  split_and!; try done.
  - by eapply bound_le_trans.
  - apply length_items_fingerprint.
  - intros _. cbn. by rewrite (slice_between _ _ _ _ _ Hi Hbi).
Qed.

Lemma last_bound_split X lo lower upper ub :
  (lower ≤ upper)%nat → last_bound lo (split_ranges X lower upper ub) = ub.
Proof.
  intros Hle. unfold split_ranges. destruct (_ <? _)%nat; [done|].
  change (seq 0 BUCKETS) with (seq 0 16). rewrite (seq_S 15), fmap_app, last_bound_app. cbn.
  unfold bound_before. change 16%nat with BUCKETS. by rewrite bucket_start_last, Nat.eqb_refl by done.
Qed.

(** A split of the range from [lo] to [ub] is well formed, says what the range
    holds, ends at [ub] and leaves all of it open. *)
Lemma split_ranges_ok exact s lo ub lower upper :
  valid s → index_of (contents s) lo lower → index_of (contents s) ub upper → bound_le lo ub →
  bound_ok ub → bound_le ub max_bound →
  let rs := split_ranges (contents s) lower upper ub in
  message_ok lo rs ∧ faithful exact (contents s) lo rs ∧ (∀ lo, last_bound lo rs = ub) ∧
  Forall (λ r, range_payload r ≠ PSkip) rs.
Proof.
  intros Hv Hlo Hub Hle Hok Hmax rs.
  assert (∀ lo, last_bound lo rs = ub) as Hlast
    by (intros lo'; by eapply last_bound_split, index_of_le).
  subst rs. unfold split_ranges in *.
  destruct (Nat.ltb_spec (upper - lower) (BUCKETS * 2)) as [Hs|Hs].
  - pose proof (proj1 Hub). split_and!; cbn; try done.
    + split_and!; try done; [by apply slice_ids_ok|].
      rewrite length_fmap, length_slice by lia. unfold u64_ok, U64_MAX, BUCKETS in *. lia.
    + by rewrite (slice_between _ _ _ _ _ Hlo Hub).
    + by constructor.
  - destruct (bucket_ranges_ok exact s lo ub lower upper BUCKETS) as (Hm & Hf & _); [done..|].
    split_and!; try done. apply Forall_fmap, Forall_true. done.
Qed.
End split_ranges.

(** ** Lemmas: reading a message *)

Lemma encode_varint_nonempty n : encode_varint n ≠ [].
Proof.
  unfold encode_varint. destruct (n =? 0) eqn:E; [done|]. bool_to_prop.
  change (varint_groups 10 n) with
    (if n =? 0 then [] else Z.land n 0x7F :: varint_groups 9 (Z.shiftr n 7)).
  rewrite (proj2 (Z.eqb_neq _ _)) by done. generalize (varint_groups 9 (Z.shiftr n 7)). intros l H.
  apply (f_equal length) in H. rewrite length_imap, length_rev in H. done.
Qed.

Lemma message_bytes_nil last rs : message_bytes last rs = [] → rs = [].
Proof.
  destruct rs as [|r rs]; [done|]. cbn. unfold bound_bytes, timestamp_bytes. intros H.
  apply app_nil in H as [H _]. apply app_nil in H as [H _].
  destruct (_ =? _); by apply encode_varint_nonempty in H.
Qed.

Definition payload_mode (p : payload) : Mode :=
  match p with PSkip => Skip | PFingerprint _ => Fingerprint | PIdList _ => IdList end.

(** What follows the mode of a range. *)
Definition payload_rest (p : payload) : bytes :=
  match p with
  | PSkip => []
  | PFingerprint fp => fp
  | PIdList ids => encode_varint (len ids) ++ concat ids
  end.

Lemma payload_bytes_eq p : payload_bytes p = encode_varint (Mode_code (payload_mode p)) ++ payload_rest p.
Proof. by destruct p; cbn [payload_bytes payload_mode payload_rest]; rewrite ?app_nil_r. Qed.

Lemma decode_mode m r : decode_varint (encode_varint (Mode_code m) ++ r) = Ok (Mode_code m, r).
Proof. apply decode_encode_varint. unfold u64_ok, U64_MAX. destruct m; cbn; lia. Qed.

Lemma Mode_try_from_code m : Mode_try_from (Mode_code m) = Ok m.
Proof. by destruct m. Qed.

Lemma read_ids_concat fuel ids r acc :
  Forall id_ok ids → (length ids ≤ fuel)%nat →
  read_ids fuel (len ids) (concat ids ++ r) acc = Ok (acc ++ ids, r).
Proof.
  intros Hids. revert fuel acc. induction Hids as [|id ids [Hl _] _ IH]; intros fuel acc Hf.
  - destruct fuel; cbn; by rewrite app_nil_r.
  - destruct fuel as [|fuel]; [cbn in Hf; lia|]. cbn [concat]. rewrite <- (assoc_L (++)).
    unfold read_ids; fold read_ids. rewrite (proj2 (Z.leb_gt _ _)) by (cbn; lia).
    rewrite get_bytes_app by (rewrite Hl; done). cbn [mbind result_bind].
    replace (len (id :: ids) - 1) with (len ids) by (cbn; lia).
    rewrite IH by (cbn in Hf; lia). by rewrite <- (assoc_L (++)).
Qed.

Lemma length_concat_ids ids : Forall id_ok ids → (length ids ≤ length (concat ids))%nat.
Proof.
  induction 1 as [|id ids [Hl _] _ IH]; cbn; [lia|]. rewrite length_app, Hl. unfold ID_SIZE. lia.
Qed.

(** ** Lemmas: sizes *)

Lemma length_varint_groups fuel n : (length (varint_groups fuel n) ≤ fuel)%nat.
Proof.
  revert n. induction fuel as [|fuel IH]; intros n; cbn; [lia|].
  destruct (n =? 0); cbn; [lia|]. specialize (IH (Z.shiftr n 7)). lia.
Qed.

Lemma length_encode_varint n : (length (encode_varint n) ≤ 10)%nat.
Proof.
  unfold encode_varint. destruct (n =? 0); cbn [length]; [lia|].
  rewrite length_imap, length_rev. apply length_varint_groups.
Qed.

Lemma length_small_varint n : 0 ≤ n ≤ 32 → length (encode_varint n) = 1%nat.
Proof.
  intros Hn. pose proof (forall_range (λ n, (length (encode_varint n) =? 1)%nat) 33
    ltac:(by vm_compute) n ltac:(lia)) as H. by apply Nat.eqb_eq in H.
Qed.

Lemma length_bound_bytes last b : (id_len b ≤ ID_SIZE)%nat → (length (bound_bytes last b) ≤ 43)%nat.
Proof.
  unfold ID_SIZE. intros Hl. unfold bound_bytes, timestamp_bytes.
  rewrite !length_app, (length_small_varint (Z.of_nat _)), length_take by lia.
  destruct (_ =? _); [|pose proof (length_encode_varint (sat_sub (timestamp (bound_item b)) last + 1))];
    cbn; lia.
Qed.

Lemma length_message_bytes c last rs :
  Forall (λ r, (id_len (range_upper r) ≤ ID_SIZE)%nat ∧
               (length (payload_bytes (range_payload r)) ≤ c)%nat) rs →
  (length (message_bytes last rs) ≤ (43 + c) * length rs)%nat.
Proof.
  intros Hc. revert last. induction Hc as [|r rs [Hb Hr] _ IH]; intros last; [cbn; lia|].
  cbn [message_bytes length]. rewrite !length_app.
  pose proof (length_bound_bytes last _ Hb). specialize (IH (bound_time (range_upper r))). lia.
Qed.

Lemma minimal_bound_id_len p c : (id_len (get_minimal_bound p c) ≤ ID_SIZE)%nat.
Proof.
  unfold get_minimal_bound, Bound_with_id_prefix. destruct (negb _); [cbn; lia|].
  destruct (Nat.ltb_spec ID_SIZE (length (take ((shared_prefix (item_id c) (item_id p) + 1) `min` ID_SIZE)
    (item_id c)))); cbn [id_len Bound_timestamp]; unfold ID_SIZE in *; lia.
Qed.

Lemma length_concat_eq ids : Forall id_ok ids → length (concat ids) = (32 * length ids)%nat.
Proof.
  induction 1 as [|id ids [Hl _] _ IH]; [done|]. cbn [concat length]. rewrite length_app, IH, Hl.
  unfold ID_SIZE. lia.
Qed.

(** What a split can add to a message. *)
Lemma length_split_ranges `{Sha256Laws} X last lower upper ub :
  (upper ≤ length X)%nat → Forall item_ok X → (id_len ub ≤ ID_SIZE)%nat →
  (length (message_bytes last (split_ranges X lower upper ub)) ≤ 1037)%nat.
Proof.
  intros Hu HX Hb. unfold split_ranges.
  destruct (Nat.ltb_spec (upper - lower) (BUCKETS * 2)) as [Hs|Hs].
  - assert (upper - lower < 32)%nat as Hs' by (unfold BUCKETS in Hs; lia).
    cbn [message_bytes payload_bytes range_upper range_payload]. rewrite !length_app.
    rewrite length_concat_eq, !length_fmap, !length_slice; [|lia|].
    + rewrite !length_small_varint by (cbn; lia). pose proof (length_bound_bytes last ub Hb). cbn. lia.
    + apply Forall_fmap. eapply Forall_impl; [by apply Forall_slice|]. by intros x [_ ?].
  - pose proof (length_message_bytes 17 last (bucket_range X lower upper ub <$> seq 0 BUCKETS)) as Hl.
    rewrite length_fmap, length_seq in Hl. etrans; [apply Hl|unfold BUCKETS; lia].
    apply Forall_fmap, Forall_true. intros i. cbn [compose range_payload range_upper bucket_range payload_bytes].
    rewrite length_app, length_items_fingerprint, length_small_varint by (cbn; lia). split; [|done].
    unfold bound_before. destruct (_ =? _)%nat; [done|apply minimal_bound_id_len].
Qed.
