(* ===== verification/NegReconcile.v ===== *)
(** * Negentropy reconciliation: what reconcile of protocol.rs achieves

    One call of [reconcile] or [reconcile_with_ids] on a well-formed message
    answers it; a session of calls finds the ids that one side has and the other
    lacks.  Both are shown against the [Storage] interface, so they hold of every
    storage that satisfies its laws. *)

From S2P Require Import Prelude Crates NegEncoding NegTypes NegStorage NegProtocol NegMessage.

Local Open Scope Z_scope.

(** The timestamps a session can cover: the greatest one is the end of the last
    range. *)
Definition timely (x : Item) : Prop := timestamp x < MAX_U64.

(** An id names one item among both sides' items. *)
Definition ids_unique (X Y : list Item) : Prop :=
  ∀ x y, x ∈ X ++ Y → y ∈ X ++ Y → item_id x = item_id y → x = y.

(** Room for the largest answer to a range, 1081 bytes, beside the 200 bytes that
    [reconcile_aux] keeps free. *)
Definition FRAME_SLACK : Z := 1281.

Section no_collision.
Context {SH : Sha256}.

(** No two different ranges of the two sides have one fingerprint. *)
Definition no_collision (X Y : list Item) : Prop :=
  ∀ lo hi, items_fingerprint (between X lo hi) = items_fingerprint (between Y lo hi) →
           between X lo hi = between Y lo hi.
End no_collision.

(** ** Lemmas: the closures of an id list *)

Lemma iterate_initiator (l : list Item) (T : gset bytes) have i :
  NoDup (item_id <$> l) →
  iterate_items (λ '(their_elems, have) item _,
      let k := item_id item in
      if bool_decide (k ∈ their_elems) then ((their_elems ∖ {[k]}, have), true)
      else ((their_elems, have ++ [k]), true)) (T, have) l i =
  (T ∖ list_to_set (item_id <$> l), have ++ filter (.∉ T) (item_id <$> l)).
Proof.
  revert T have i. induction l as [|x l IH]; intros T have i; cbn [fmap list_fmap].
  { intros _. cbn. f_equal; [set_solver|by rewrite app_nil_r]. }
  intros [Hx Hnd]%NoDup_cons. cbn [iterate_items].
  destruct (bool_decide _) eqn:E; [apply bool_decide_eq_true in E|apply bool_decide_eq_false in E];
    rewrite IH by done; cbn [list_to_set].
  - rewrite filter_cons_False by naive_solver. f_equal; [set_solver|]. f_equal.
    apply filter_ext_in. intros k Hk. set_solver.
  - rewrite filter_cons_True by done. rewrite <- (assoc_L (++)). f_equal. set_solver.
Qed.

(** The responder's ids: all of them, or as many as fill the frame. *)
Lemma iterate_responder fl full_len curr upper (l : list Item) lower resp num :
  Forall (λ x, length (item_id x) = ID_SIZE) l →
  ∃ m, (m ≤ length l)%nat ∧
    iterate_items
      (λ '(response_ids, num_response_ids, end_bound, upper) item index,
         if negb (fl =? 0) && (full_len + len response_ids >? sat_sub fl 200)
         then ((response_ids, num_response_ids, Bound_from_item item, index), false)
         else ((response_ids ++ item_id item, num_response_ids + 1, end_bound, upper), true))
      (resp, num, curr, upper) l lower =
    (resp ++ concat (item_id <$> take m l), num + Z.of_nat m,
     default curr (Bound_from_item <$> l !! m), if (m =? length l)%nat then upper else (lower + m)%nat) ∧
    ((m < length l)%nat → fl ≠ 0 ∧ full_len + len (resp ++ concat (item_id <$> take m l)) > sat_sub fl 200).
Proof.
  intros Hl. revert lower resp num. induction Hl as [|x l Hx _ IH]; intros lower resp num.
  { exists 0%nat. split; [done|]. split; [|cbn; lia]. cbn. by rewrite app_nil_r, Z.add_0_r. }
  cbn [iterate_items].
  destruct (negb (fl =? 0) && (full_len + len resp >? sat_sub fl 200)) eqn:E.
  - exists 0%nat. split; [lia|]. cbn [take firstn fmap list_fmap concat].
    rewrite app_nil_r, Nat.add_0_r, Z.add_0_r. split; [done|]. intros _.
    apply andb_true_iff in E as [E1%negb_true_iff%Z.eqb_neq E2%Z.gtb_lt]. split; [done|lia].
  - destruct (IH (S lower) (resp ++ item_id x) (num + 1)) as (m & Hm & Hit & Hfull).
    exists (S m). split; [cbn; lia|]. cbn [take firstn fmap list_fmap concat] in *.
    rewrite <- (assoc_L (++)) in Hfull, Hit. split; [|intros ?; apply Hfull; cbn in *; lia].
    rewrite Hit. replace (num + Z.of_nat (S m)) with (num + 1 + Z.of_nat m) by lia.
    by replace (lower + S m)%nat with (S lower + m)%nat by lia.
Qed.

(** ** One call *)

Section call.
Context {SH : Sha256} {SHL : Sha256Laws} {S : Type} {ST : Storage S}.
Context {valid : S → Prop} {contents : S → list Item} {SL : StorageLaws S valid contents}.
Context (hash_order : list bytes → list bytes) (hash_order_perm : ∀ l, hash_order l ≡ₚ l).

(** The receiver [n0], whose items are [Y]; the sender's items [X]; the ids known
    before the call; the items [old] that need no more work. *)
Context (n0 : Negentropy S) (X : list Item) (exact : Prop) (old : Item → Prop).
Context (have0 need0 : list bytes).
Local Abbreviation Y := (contents (storage n0)).
Context (n0_valid : valid (storage n0)) (Y_size : u64_ok (len Y)) (Y_timely : Forall timely Y).
Context (XY_unique : ids_unique X Y) (XY_collision : exact → no_collision X Y).

(** The item is on both sides or on none, or has been reported. *)
Definition done (have need : list bytes) (x : Item) : Prop :=
  (x ∈ X ↔ x ∈ Y) ∨ old x ∨ (x ∈ Y ∧ item_id x ∈ have) ∨ (x ∈ X ∧ item_id x ∈ need).

(** What is reported is right. *)
Definition sound (have need : list bytes) : Prop :=
  (∀ id, id ∈ have → id ∈ have0 ∨ (∃ x, x ∈ Y ∧ (x ∉ X) ∧ item_id x = id)) ∧
  (∀ id, id ∈ need → id ∈ need0 ∨ (∃ x, x ∈ X ∧ (x ∉ Y) ∧ item_id x = id)).

(** The part of the state a call does not change. *)
Definition same_session (n : Negentropy S) : Prop :=
  storage n = storage n0 ∧ frame_size_limit n = frame_size_limit n0 ∧
  is_initiator n = is_initiator n0 ∧ work_limit n = work_limit n0.

(** The frame limit did not shorten the reply.  A range answered takes less than
    [FRAME_SLACK] bytes, so a reply that leaves as many free was not cut. *)
Definition uncut (out : list range) : Prop :=
  frame_size_limit n0 = 0 ∨
  len (PROTOCOL_VERSION :: message_bytes 0 out) + FRAME_SLACK ≤ frame_size_limit n0.

(** Only the initiator reports ids. *)
Definition kept (have need : list bytes) : Prop :=
  is_initiator n0 = false → have = have0 ∧ need = need0.

(** A reply: it says what [Y] holds, and every item is open in it or done. *)
Definition reply_ok (out : list range) (have need : list bytes) : Prop :=
  message_ok Bound_default out ∧
  faithful (uncut out) Y Bound_default out ∧
  (exact → ∀ x, item_ok x → timely x → open_at out x ∨ done have need x) ∧
  sound have need ∧ kept have need.

(** The loop: [out] is written, [rest] is to be read. *)
Record loop_ok (st : recon (S:=S)) (rest out : list range) : Prop := {
  l_session : same_session (r_neg st);
  l_query : r_query st = message_bytes (last_timestamp_in (r_neg st)) rest;
  l_in : last_timestamp_in (r_neg st) = bound_time (r_prev_bound st);
  l_rest : message_ok (r_prev_bound st) rest;
  l_rest_faithful : faithful exact X (r_prev_bound st) rest;
  l_prev : bound_ok (r_prev_bound st) ∧ bound_le (r_prev_bound st) max_bound;
  l_index : index_of Y (r_prev_bound st) (r_prev_index st);
  l_output : r_output st = PROTOCOL_VERSION :: message_bytes 0 out;
  l_out : last_timestamp_out (r_neg st) = bound_time (last_bound Bound_default out);
  l_out_ok : message_ok Bound_default out;
  l_out_faithful : faithful True Y Bound_default out;
  l_out_le : bound_le (last_bound Bound_default out) (r_prev_bound st);
  l_skip : r_skip st = false → last_bound Bound_default out = r_prev_bound st;
  l_done : exact → ∀ x, item_ok x → timely x → below x (r_prev_bound st) →
           open_at out x ∨ done (r_have st) (r_need st) x;
  l_todo : exact → ∀ x, item_ok x → timely x → ¬ below x (r_prev_bound st) →
           open_at rest x ∨ done (r_have st) (r_need st) x;
  l_sound : sound (r_have st) (r_need st);
  l_kept : kept (r_have st) (r_need st);
}.

(** One range answered with the ranges [app]. *)
Record answer_ok (st : recon (S:=S)) (curr : Bound) (rest out : list range) (a : answer (S:=S))
    (app : list range) : Prop := {
  a_session : same_session (a_neg a);
  a_in : last_timestamp_in (a_neg a) = bound_time curr;
  a_rest : a_query a = message_bytes (bound_time curr) rest;
  a_bytes : a_out a = message_bytes (bound_time (last_bound Bound_default out)) app;
  a_last : last_timestamp_out (a_neg a) = bound_time (last_bound Bound_default (out ++ app));
  a_ok : message_ok Bound_default (out ++ app);
  a_faithful : faithful True Y Bound_default (out ++ app);
  a_le : bound_le (last_bound Bound_default (out ++ app)) curr;
  a_in_range : (a_upper a ≤ length Y)%nat;
  a_cut : a_moved a = true → index_of Y (last_bound Bound_default (out ++ app)) (a_upper a);
  a_small : a_moved a = false → (length (a_out a) ≤ 1081)%nat;
  a_whole : exceeded_frame_size_limit (a_neg a) (len (r_output st) + len (a_out a)) = false →
            index_of Y curr (a_upper a) ∧
            (a_skip a = false → last_bound Bound_default (out ++ app) = curr);
  a_grows : r_have st ⊆ a_have a ∧ r_need st ⊆ a_need a;
  a_open : exact → ∀ x, item_ok x → timely x → ¬ below x (r_prev_bound st) →
           below x (last_bound Bound_default (out ++ app)) → open_at (out ++ app) x;
  a_done : exact → a_skip a = true → ∀ x, item_ok x → timely x →
           ¬ below x (r_prev_bound st) → below x curr → done (a_have a) (a_need a) x;
  a_sound : sound (a_have a) (a_need a);
  a_kept : kept (a_have a) (a_need a);
}.

Lemma done_mono have need have' need' x :
  have ⊆ have' → need ⊆ need' → done have need x → done have' need' x.
Proof. unfold done. intros H1 H2. naive_solver. Qed.

(** The skip owed, if any, brings the reply up to the previous bound. *)
Definition skip_ranges (st : recon (S:=S)) : list range :=
  if r_skip st then [mkRange (r_prev_bound st) PSkip] else [].

Lemma owed_skip_bytes st rest out (n : Negentropy S) :
  loop_ok st rest out → last_timestamp_out n = last_timestamp_out (r_neg st) →
  owed_skip n (r_skip st) (r_prev_bound st) =
    (message_bytes (bound_time (last_bound Bound_default out)) (skip_ranges st),
     with_timestamp_out n (bound_time (r_prev_bound st))).
Proof.
  intros Hl Hn. unfold owed_skip, skip_ranges. destruct (r_skip st) eqn:Hs.
  - rewrite encode_bound_eq, Hn, (l_out _ _ _ Hl). done.
  - cbn. rewrite <- (l_skip _ _ _ Hl Hs), <- (l_out _ _ _ Hl), <- Hn. by destruct n.
Qed.

Lemma skip_ranges_ok st rest out :
  loop_ok st rest out →
  message_ok Bound_default (out ++ skip_ranges st) ∧
  faithful True Y Bound_default (out ++ skip_ranges st) ∧
  last_bound Bound_default (out ++ skip_ranges st) = r_prev_bound st.
Proof.
  intros Hl. rewrite message_ok_app, faithful_app, last_bound_app.
  pose proof (l_out_ok _ _ _ Hl). pose proof (l_out_faithful _ _ _ Hl).
  pose proof (l_out_le _ _ _ Hl). destruct (l_prev _ _ _ Hl).
  unfold skip_ranges. destruct (r_skip st) eqn:Hs; cbn; [done|].
  by rewrite (l_skip _ _ _ Hl Hs).
Qed.

Lemma length_skip_ranges st rest out last :
  loop_ok st rest out → (length (message_bytes last (skip_ranges st)) ≤ 44)%nat.
Proof.
  intros Hl. unfold skip_ranges. destruct (r_skip st); cbn [message_bytes]; [|cbn; lia].
  rewrite !length_app. pose proof (length_bound_bytes last _ (proj1 (proj2 (proj1 (l_prev _ _ _ Hl))))). cbn. lia.
Qed.

(** Beyond what is written, the ranges appended decide. *)
Lemma open_at_past out app x :
  message_ok Bound_default out → ¬ below x (last_bound Bound_default out) →
  below x (last_bound (last_bound Bound_default out) app) →
  Forall (λ r, range_payload r ≠ PSkip) app → open_at (out ++ app) x.
Proof.
  intros Hok Hx Hb Happ. unfold open_at. rewrite at_range_app.
  destruct (at_range out x) as [p|] eqn:E.
  { destruct Hx. eapply at_range_below; [done|]. by rewrite E. }
  pose proof (below_at_range _ app x Hb Hx) as Hn. clear - Hn Happ.
  induction Happ as [|r app Hr _ IH]; cbn in *; [done|]. case_decide; [eauto|by apply IH].
Qed.

(** An answer that writes nothing and closes the range. *)
Lemma closed_answer st r rest out n upper have need query :
  loop_ok st (r :: rest) out → same_session n →
  last_timestamp_in n = bound_time (range_upper r) →
  last_timestamp_out n = last_timestamp_out (r_neg st) →
  query = message_bytes (bound_time (range_upper r)) rest →
  index_of Y (range_upper r) upper →
  r_have st ⊆ have → r_need st ⊆ need → sound have need → kept have need →
  (exact → ∀ x, item_ok x → timely x → ¬ below x (r_prev_bound st) → below x (range_upper r) →
     done have need x) →
  answer_ok st (range_upper r) rest out (mkAnswer n query [] false true upper have need) [].
Proof.
  intros Hl Hn Hin Hout Hq Hi Hh Hnd Hs Hk Hd.
  destruct (l_rest _ _ _ Hl) as (_ & Hle & _).
  split; cbn [a_neg a_query a_out a_moved a_skip a_upper a_have a_need]; rewrite ?app_nil_r; try done.
  - by rewrite Hout, (l_out _ _ _ Hl).
  - apply (l_out_ok _ _ _ Hl).
  - apply (l_out_faithful _ _ _ Hl).
  - eapply bound_le_trans; [apply (l_out_le _ _ _ Hl)|done].
  - apply Hi.
  - intros _. cbn. lia.
  - intros _ x _ _ Hx Hb. destruct Hx. eapply below_le; [done|apply (l_out_le _ _ _ Hl)].
  - intros He _. by apply Hd.
Qed.

(** An answer that writes the owed skip and new ranges. *)
Lemma written_answer st r rest out n query new e bs moved upper :
  loop_ok st (r :: rest) out → same_session n →
  last_timestamp_in n = bound_time (range_upper r) →
  query = message_bytes (bound_time (range_upper r)) rest →
  message_ok (r_prev_bound st) new →
  faithful True Y (r_prev_bound st) new →
  Forall (λ r, range_payload r ≠ PSkip) new →
  last_bound (r_prev_bound st) new = e → bound_le e (range_upper r) →
  last_timestamp_out n = bound_time e →
  bs = message_bytes (bound_time (last_bound Bound_default out)) (skip_ranges st) ++
       message_bytes (bound_time (r_prev_bound st)) new →
  (upper ≤ length Y)%nat →
  (moved = true → index_of Y e upper) →
  (moved = false → (length (message_bytes (bound_time (r_prev_bound st)) new) ≤ 1037)%nat) →
  (exceeded_frame_size_limit n (len (r_output st) + len bs) = false →
     index_of Y (range_upper r) upper ∧ e = range_upper r) →
  answer_ok st (range_upper r) rest out
    (mkAnswer n query bs moved false upper (r_have st) (r_need st)) (skip_ranges st ++ new).
Proof.
  intros Hl Hn Hin Hq Hok Hf Hns He Hle Hout Hbs Hu Hcut Hsmall Hex.
  destruct (skip_ranges_ok _ _ _ Hl) as (Hok' & Hf' & Hlast').
  assert (last_bound Bound_default (out ++ skip_ranges st ++ new) = e) as Hlast
    by (by rewrite (assoc_L (++)), last_bound_app, Hlast').
  split; cbn [a_neg a_query a_out a_moved a_skip a_upper a_have a_need]; try done.
  - rewrite Hbs, message_bytes_app. by rewrite <- last_bound_app, Hlast'.
  - by rewrite Hlast.
  - rewrite (assoc_L (++)), message_ok_app, Hlast'. done.
  - rewrite (assoc_L (++)), faithful_app, Hlast'. done.
  - by rewrite Hlast.
  - intros H. rewrite Hlast. by apply Hcut.
  - intros H. rewrite Hbs, length_app. pose proof (length_skip_ranges _ _ _
      (bound_time (last_bound Bound_default out)) Hl). specialize (Hsmall H). lia.
  - intros H. rewrite Hlast. by destruct (Hex H).
  - intros _ x _ _ Hx Hb. rewrite Hlast in Hb. rewrite (assoc_L (++)).
    apply open_at_past; try done; by rewrite Hlast', ?He.
  - apply (l_sound _ _ _ Hl).
  - apply (l_kept _ _ _ Hl).
Qed.

(** The state in which a range is answered. *)
Definition entry (st : recon (S:=S)) (curr : Bound) : Negentropy S :=
  add_work (with_timestamp_in (r_neg st) (bound_time curr)) 1.

Lemma same_session_set n w t :
  same_session n → same_session (with_work (with_timestamp_out n t) w).
Proof. done. Qed.

Lemma entry_session st rest out curr : loop_ok st rest out → same_session (entry st curr).
Proof. intros Hl. apply (l_session _ _ _ Hl). Qed.

Lemma answer_skip_ok st r rest out upper :
  loop_ok st (r :: rest) out → range_payload r = PSkip → index_of Y (range_upper r) upper →
  answer_ok st (range_upper r) rest out
    (mkAnswer (entry st (range_upper r)) (message_bytes (bound_time (range_upper r)) rest) []
       false true upper (r_have st) (r_need st)) [].
Proof.
  intros Hl Hp Hi. apply closed_answer; try done.
  - by eapply entry_session.
  - apply (l_sound _ _ _ Hl).
  - apply (l_kept _ _ _ Hl).
  - intros He x Hx Ht Hlo Hhi. destruct (l_todo _ _ _ Hl He x Hx Ht Hlo) as [(p & Hat & Hn)|]; [|done].
    cbn in Hat. rewrite decide_True in Hat by done. congruence.
Qed.

Lemma not_below x b : ¬ below x b → cmp_le Item_cmp (bound_item b) x.
Proof.
  intros H. destruct (decide (cmp_le Item_cmp (bound_item b) x)) as [|Hn]; [done|].
  by apply (cmp_lt_not_le Item_cmp) in Hn.
Qed.

Lemma answer_fingerprint_ok st r fp rest out upper :
  loop_ok st (r :: rest) out → range_payload r = PFingerprint fp →
  index_of Y (range_upper r) upper → (r_prev_index st ≤ upper)%nat →
  ∃ a app,
    answer_fingerprint (entry st (range_upper r))
      (fp ++ message_bytes (bound_time (range_upper r)) rest)
      (r_prev_bound st) (range_upper r) (r_prev_index st) upper (r_skip st)
      (r_have st) (r_need st) = Ok a ∧ answer_ok st (range_upper r) rest out a app.
Proof.
  intros Hl Hp Hi Hle. unfold answer_fingerprint.
  destruct (l_rest _ _ _ Hl) as (Hbok & Hble & Hbmax & Hpok & _). rewrite Hp in Hpok.
  destruct (l_session _ _ _ Hl) as (Hst & Hfl & Hini & Hwl).
  rewrite get_bytes_app by (rewrite Hpok; done). cbn [mbind result_bind].
  pose proof (proj1 Hi) as Hulen.
  rewrite fingerprint_spec by (cbn; rewrite ?Hst; done || lia). cbn [mbind result_bind].
  cbn [storage add_work with_work entry with_timestamp_in]. rewrite Hst.
  case_bool_decide as Hfp.
  - rewrite (owed_skip_bytes _ _ _ _ Hl) by done.
    destruct (split_ranges_ok True (storage n0) (r_prev_bound st)
      (range_upper r) (r_prev_index st) upper) as (Hok & Hf & Hlast & Hns);
      [done|apply (l_index _ _ _ Hl)|done..|].
    match goal with |- context [split_range ?n _ _ _] => set (m := n) end.
    assert (storage m = storage n0) as Hm by done.
    destruct (split_range_bytes m (r_prev_index st) upper (range_upper r)) as (w & Hw & Hsplit);
      rewrite ?Hm; [done|lia|apply Hlast|].
    rewrite Hm in Hsplit. rewrite Hsplit. cbn [mbind result_bind]. eexists _, _. split; [done|].
    eapply written_answer; try done; rewrite ?Hlast; try done.
    intros _. apply length_split_ranges; [done|by apply contents_ok|apply Hbok].
  - eexists _, []. split; [done|]. apply closed_answer; try done.
    + apply (l_sound _ _ _ Hl).
    + apply (l_kept _ _ _ Hl).
    + intros He x Hx Ht Hlo Hhi. left.
      assert (fp = items_fingerprint (slice (r_prev_index st) upper Y)) as -> by tauto.
      destruct (l_rest_faithful _ _ _ Hl) as [Hpay _]. rewrite Hp in Hpay. cbn [payload_of] in Hpay.
      rewrite (slice_between _ _ _ _ _ (l_index _ _ _ Hl) Hi) in Hpay by done.
      pose proof (XY_collision He _ _ (eq_sym (Hpay He))) as Hbt.
      assert (x ∈ between X (r_prev_bound st) (range_upper r) ↔
              x ∈ between Y (r_prev_bound st) (range_upper r)) as Hxy by (by rewrite Hbt).
      rewrite !elem_of_between in Hxy.
      apply not_below in Hlo. tauto.
Qed.

Lemma slice_ids_nodup b e : NoDup (item_id <$> slice b e Y).
Proof.
  apply NoDup_fmap_2_strong.
  - intros x y Hx Hy Hxy. apply XY_unique; [| |done]; apply elem_of_app; right;
      [apply list_elem_of_lookup in Hx as [i Hi]|apply list_elem_of_lookup in Hy as [i Hi]];
      apply lookup_slice_Some in Hi as [Hi _]; by eapply list_elem_of_lookup_2.
  - apply (strictly_sorted_NoDup Item_cmp), StronglySorted_slice, contents_sorted, n0_valid.
Qed.

(** The initiator reports exactly the differences in the range. *)
Lemma initiator_reports st r ids rest out upper :
  loop_ok st (r :: rest) out → range_payload r = PIdList ids → index_of Y (range_upper r) upper →
  let ours := item_id <$> slice (r_prev_index st) upper Y in
  let have := r_have st ++ filter (.∉ (list_to_set ids : gset bytes)) ours in
  let need := r_need st ++ hash_order (elements ((list_to_set ids : gset bytes) ∖ list_to_set ours)) in
  sound have need ∧
  ∀ x, item_ok x → timely x → ¬ below x (r_prev_bound st) → below x (range_upper r) → done have need x.
Proof.
  intros Hl Hp Hi ours have need.
  destruct (l_rest _ _ _ Hl) as (_ & Hble & _).
  destruct (l_rest_faithful _ _ _ Hl) as [Hpay _]. rewrite Hp in Hpay. cbn [payload_of] in Hpay.
  assert (ours = item_id <$> between Y (r_prev_bound st) (range_upper r)) as Hours
    by (unfold ours; by rewrite (slice_between _ _ _ _ _ (l_index _ _ _ Hl) Hi)).
  assert (∀ id, id ∈ have ↔ id ∈ r_have st ∨ id ∈ ours ∧ id ∉ ids) as Hhave.
  { intros id. unfold have. rewrite elem_of_app, list_elem_of_filter, elem_of_list_to_set. tauto. }
  assert (∀ id, id ∈ need ↔ id ∈ r_need st ∨ id ∈ ids ∧ id ∉ ours) as Hneed.
  { intros id. unfold need. rewrite elem_of_app, hash_order_perm, elem_of_elements, elem_of_difference,
      !elem_of_list_to_set. tauto. }
  assert (∀ x, x ∈ X → (item_id x ∈ ours ↔ x ∈ between Y (r_prev_bound st) (range_upper r))) as HX.
  { intros x Hx. rewrite Hours, list_elem_of_fmap. split; [|by eauto].
    intros (y & Hxy & Hy). assert (x = y) as ->; [|done].
    apply XY_unique; [apply elem_of_app; by left|apply elem_of_app; right; by apply elem_of_between in Hy as [? _]|done]. }
  assert (∀ y, y ∈ Y → (item_id y ∈ ids ↔ y ∈ between X (r_prev_bound st) (range_upper r))) as HY.
  { intros y Hy. rewrite Hpay, list_elem_of_fmap. split; [|by eauto].
    intros (x & Hxy & Hx). assert (y = x) as ->; [|done].
    apply XY_unique; [apply elem_of_app; by right|apply elem_of_app; left; by apply elem_of_between in Hx as [? _]|done]. }
  split.
  - destruct (l_sound _ _ _ Hl) as [Hs1 Hs2]. split; intros id; rewrite ?Hhave, ?Hneed.
    + intros [?|[Hid Hn]]; [by apply Hs1|]. right. rewrite Hours in Hid.
      apply list_elem_of_fmap in Hid as (y & -> & Hy). pose proof Hy as (HyY & ? & ?)%elem_of_between.
      exists y. split_and!; [done| |done]. intros HyX. apply Hn, HY; [done|]. by apply elem_of_between.
    + intros [?|[Hid Hn]]; [by apply Hs2|]. right. rewrite Hpay in Hid.
      apply list_elem_of_fmap in Hid as (x & -> & Hx). pose proof Hx as (HxX & ? & ?)%elem_of_between.
      exists x. split_and!; [done| |done]. intros HxY. apply Hn, HX; [done|]. by apply elem_of_between.
  - intros x Hx Ht Hlo%not_below Hhi. unfold done. rewrite Hhave, Hneed.
    destruct (decide (x ∈ X)) as [HxX|HxX], (decide (x ∈ Y)) as [HxY|HxY]; [by left| | |by left].
    + right; right; right. split; [done|]. right. split.
      * rewrite Hpay. apply list_elem_of_fmap. exists x. by rewrite elem_of_between.
      * rewrite HX by done. by intros [? _]%elem_of_between.
    + right; right; left. split; [done|]. right. split.
      * rewrite Hours. apply list_elem_of_fmap. exists x. by rewrite elem_of_between.
      * rewrite HY by done. by intros [? _]%elem_of_between.
Qed.

Lemma answer_ids_initiator_ok st r ids rest out upper n :
  loop_ok st (r :: rest) out → range_payload r = PIdList ids →
  index_of Y (range_upper r) upper → (r_prev_index st ≤ upper)%nat →
  same_session n → is_initiator n = true → last_timestamp_in n = bound_time (range_upper r) →
  last_timestamp_out n = last_timestamp_out (r_neg st) →
  ∃ a app,
    answer_ids_initiator hash_order n (message_bytes (bound_time (range_upper r)) rest) ids
      (r_prev_index st) upper (r_have st) (r_need st) = Ok a ∧
    answer_ok st (range_upper r) rest out a app.
Proof.
  intros Hl Hp Hi Hle Hn Htrue Hin Hout. unfold answer_ids_initiator.
  destruct (initiator_reports _ _ _ _ _ _ Hl Hp Hi) as [Hs Hd].
  pose proof (proj1 Hi) as Hulen. pose proof Hn as (Hst & _ & Hini & _).
  rewrite iterate_spec by (rewrite Hst; done || lia). rewrite Hst.
  rewrite iterate_initiator by apply slice_ids_nodup. cbn [mbind result_bind].
  eexists _, []. split; [done|]. apply closed_answer; try done; [set_solver..|].
  intros Hf. congruence.
Qed.

Lemma Bound_from_item_ok x : item_ok x → bound_ok (Bound_from_item x).
Proof.
  intros Hx. split; [done|]. split; [cbn; lia|]. cbn [Bound_from_item id_len bound_item].
  rewrite drop_ge by (destruct Hx as [_ [-> _]]; done). done.
Qed.

Lemma index_of_item k x : Y !! k = Some x → index_of Y (Bound_from_item x) k.
Proof.
  intros Hx. split; [apply lookup_lt_Some in Hx; lia|]. intros j y Hy.
  pose proof (contents_sorted _ n0_valid) as Hs. split.
  - intros Hb. destruct (decide (j < k)%nat) as [|Hn]; [done|exfalso].
    destruct (decide (j = k)) as [->|].
    + simplify_eq. by apply (irreflexivity (cmp_lt Item_cmp)) in Hb.
    + assert (cmp_lt Item_cmp x y) by (eapply (StronglySorted_lookup _ _ k j); [done|lia|done..]).
      apply (irreflexivity (cmp_lt Item_cmp) x). by transitivity y.
  - intros Hj. by eapply (StronglySorted_lookup _ _ j k).
Qed.

(** Where the responder's id list ends. *)
Lemma responder_end lo hi lower upper m :
  index_of Y lo lower → index_of Y hi upper → bound_le lo hi → bound_ok hi →
  bound_le hi max_bound → (m ≤ upper - lower)%nat →
  let e := default hi (Bound_from_item <$> slice lower upper Y !! m) in
  bound_ok e ∧ bound_le lo e ∧ bound_le e hi ∧ index_of Y e (lower + m) ∧
  (m = (upper - lower)%nat → e = hi).
Proof.
  intros Hlo Hhi Hle Hok Hmax Hm e. pose proof (index_of_le _ _ _ _ _ Hlo Hhi Hle).
  pose proof (proj1 Hhi). subst e.
  destruct (decide (m = upper - lower)%nat) as [->|Hne].
  - rewrite lookup_ge_None_2 by (rewrite length_slice; lia). cbn.
    replace (lower + (upper - lower))%nat with upper by lia.
    by split_and!.
  - destruct (lookup_lt_is_Some_2 Y (lower + m)) as [x Hx]; [lia|].
    rewrite lookup_slice, Hx by lia. cbn.
    assert (item_ok x) as Hxok by (eapply Forall_lookup_1; [by apply contents_ok|done]).
    split_and!; [by apply Bound_from_item_ok| | |by apply index_of_item|lia].
    + apply not_below. intros Hb. apply (proj2 Hlo _ _ Hx) in Hb. lia.
    + apply cmp_le_lt_eq; [apply _|]. left. apply (proj2 Hhi _ _ Hx). lia.
Qed.

Lemma answer_ids_responder_ok st r ids rest out upper n :
  loop_ok st (r :: rest) out → range_payload r = PIdList ids →
  index_of Y (range_upper r) upper → (r_prev_index st ≤ upper)%nat →
  same_session n → last_timestamp_in n = bound_time (range_upper r) →
  last_timestamp_out n = last_timestamp_out (r_neg st) →
  ∃ a app,
    answer_ids_responder n (message_bytes (bound_time (range_upper r)) rest) (r_prev_bound st)
      (range_upper r) (r_prev_index st) upper (r_skip st) (len (r_output st))
      (r_have st) (r_need st) = Ok a ∧
    answer_ok st (range_upper r) rest out a app.
Proof.
  intros Hl Hp Hi Hle Hn Hin Hout. unfold answer_ids_responder.
  destruct (l_rest _ _ _ Hl) as (Hbok & Hble & Hbmax & _).
  pose proof (proj1 Hi) as Hulen. pose proof Hn as (Hst & Hfl & _ & _).
  rewrite (owed_skip_bytes _ _ _ _ Hl) by done. cbn [storage with_timestamp_out frame_size_limit].
  rewrite iterate_spec by (rewrite Hst; done || lia). rewrite Hst, Hfl.
  destruct (iterate_responder (frame_size_limit n0) (len (r_output st)) (range_upper r) upper
    (slice (r_prev_index st) upper Y) (r_prev_index st) [] 0) as (m & Hm & Hit & Hfull).
  { apply Forall_slice. eapply Forall_impl; [by apply contents_ok|]. by intros x [_ [? _]]. }
  rewrite length_slice in Hm, Hit, Hfull by lia. rewrite Hit. cbn [mbind result_bind app].
  destruct (responder_end (r_prev_bound st) (range_upper r) (r_prev_index st) upper m)
    as (Heok & Hloe & Hehi & Hei & Hewhole); [apply (l_index _ _ _ Hl)|done..|].
  set (e := default (range_upper r) _) in *. rewrite encode_bound_eq.
  assert (take m (slice (r_prev_index st) upper Y) = between Y (r_prev_bound st) e) as Htake.
  { rewrite <- (slice_between _ _ _ _ _ (l_index _ _ _ Hl) Hei) by done.
    unfold slice. rewrite take_take. f_equal. lia. }
  rewrite Htake in *. set (resp := item_id <$> between Y (r_prev_bound st) e) in *.
  assert (len resp = Z.of_nat m) as Hlen.
  { unfold resp. rewrite length_fmap, <- Htake, length_take, length_slice by lia. lia. }
  assert (u64_ok (len resp)) as Hu64 by (unfold u64_ok in *; lia).
  assert (Forall id_ok resp) as Hids.
  { unfold resp. rewrite <- Htake. apply Forall_fmap, Forall_take.
    eapply Forall_impl; [apply Forall_slice, contents_ok, n0_valid|]. by intros x [_ ?]. }
  eexists _, _. split; [done|].
  eapply (written_answer _ _ _ _ _ _ [mkRange e (PIdList resp)]); try done.
  - cbn [message_ok range_upper range_payload payload_ok]. split_and!; try done.
    by eapply bound_le_trans.
  - by constructor.
  - cbn [message_bytes payload_bytes range_upper range_payload]. by rewrite app_nil_r, Hlen.
  - destruct (m =? upper - r_prev_index st)%nat eqn:E; [done|]. lia.
  - intros _. destruct (Nat.eqb_spec m (upper - r_prev_index st)) as [Hm'|]; [|done].
    assert (upper = (r_prev_index st + m)%nat) as Hup by lia. rewrite Hup at 1. done.
  - intros Hex. destruct (decide (m = upper - r_prev_index st)%nat) as [Heq|Hne].
    + rewrite Heq, Nat.eqb_refl. split; [done|]. by apply Hewhole.
    + exfalso. destruct Hfull as [Hz Hlong]; [lia|].
      unfold exceeded_frame_size_limit in Hex. cbn [frame_size_limit with_timestamp_out] in Hex.
      rewrite Hfl in Hex. apply andb_false_iff in Hex as [Hex|Hex].
      * by apply negb_false_iff, Z.eqb_eq in Hex.
      * rewrite Z.gtb_ltb in Hex. apply Z.ltb_ge in Hex. rewrite !length_app in Hex. rewrite app_nil_l in Hlong. lia.
Qed.

Lemma answer_ids_ok st r ids rest out upper :
  loop_ok st (r :: rest) out → range_payload r = PIdList ids →
  index_of Y (range_upper r) upper → (r_prev_index st ≤ upper)%nat →
  ∃ a app,
    answer_ids hash_order (entry st (range_upper r))
      (payload_rest (PIdList ids) ++ message_bytes (bound_time (range_upper r)) rest)
      (r_prev_bound st) (range_upper r) (r_prev_index st) upper (r_skip st) (len (r_output st))
      (r_have st) (r_need st) = Ok a ∧ answer_ok st (range_upper r) rest out a app.
Proof.
  intros Hl Hp Hi Hle. unfold answer_ids. cbn [payload_rest]. rewrite <- (assoc_L (++)).
  destruct (l_rest _ _ _ Hl) as (_ & _ & _ & Hpok & _). rewrite Hp in Hpok. destruct Hpok as [Hids Hlen].
  rewrite decode_encode_varint by done. cbn [mbind result_bind].
  rewrite read_ids_concat; [|done|]; cycle 1.
  { rewrite length_app. pose proof (length_concat_ids ids Hids). lia. }
  cbn [mbind result_bind app]. destruct (is_initiator _) eqn:Hini.
  - by eapply answer_ids_initiator_ok; [..|apply (l_session _ _ _ Hl)| | |].
  - by eapply answer_ids_responder_ok; [..|apply (l_session _ _ _ Hl)| |].
Qed.

(** The bytes of the next range. *)
Lemma read_range st r rest out :
  loop_ok st (r :: rest) out →
  r_query st ≠ [] ∧
  ∃ bs, decode_bound (r_neg st) (r_query st) =
          Ok (range_upper r, bs, with_timestamp_in (r_neg st) (bound_time (range_upper r))) ∧
        decode_varint bs = Ok (Mode_code (payload_mode (range_payload r)),
          payload_rest (range_payload r) ++ message_bytes (bound_time (range_upper r)) rest).
Proof.
  intros Hl. rewrite (l_query _ _ _ Hl). split; [by intros ?%message_bytes_nil|].
  destruct (l_rest _ _ _ Hl) as (Hbok & Hble & _). cbn [message_bytes].
  rewrite decode_bound_bytes; [|done|]; cycle 1.
  { rewrite (l_in _ _ _ Hl). destruct (l_prev _ _ _ Hl) as [[[[Ht _] _] _] _]. split; [done|].
    apply (cmp_le_lt_eq Item_cmp) in Hble as [Hlt|Heq]; unfold bound_time; [|by rewrite Heq].
    apply Item_lt_spec in Hlt. lia. }
  eexists. split; [done|]. rewrite payload_bytes_eq, <- (assoc_L (++)). apply decode_mode.
Qed.

(** The rest of the items as one fingerprint. *)
Lemma remaining_range_bytes n k :
  same_session n → (k ≤ length Y)%nat →
  remaining_range n k (length Y) =
    Ok (message_bytes (last_timestamp_out n)
          [mkRange max_bound (PFingerprint (items_fingerprint (slice k (length Y) Y)))],
        with_timestamp_out n MAX_U64).
Proof.
  intros (Hst & _) Hk. unfold remaining_range. rewrite fingerprint_spec by (rewrite Hst; done || lia).
  cbn [mbind result_bind]. rewrite encode_bound_eq, Hst.
  cbn [message_bytes payload_bytes range_upper range_payload]. by rewrite app_nil_r.
Qed.

(** A reply that covers the rest with one fingerprint. *)
Lemma remaining_reply_ok out k have need :
  message_ok Bound_default out → faithful True Y Bound_default out →
  bound_le (last_bound Bound_default out) max_bound →
  (uncut (out ++ [mkRange max_bound (PFingerprint (items_fingerprint (slice k (length Y) Y)))]) →
     index_of Y (last_bound Bound_default out) k) →
  (exact → ∀ x, item_ok x → timely x → below x (last_bound Bound_default out) →
     open_at out x ∨ done have need x) →
  sound have need → kept have need →
  reply_ok (out ++ [mkRange max_bound (PFingerprint (items_fingerprint (slice k (length Y) Y)))])
    have need.
Proof.
  intros Hok Hf Hle Hi Hd Hs Hk. split; [|split; [|split]].
  - rewrite message_ok_app. split; [done|]. cbn [message_ok range_upper range_payload payload_ok].
    split_and!; try done; [by apply Bound_timestamp_ok|apply length_items_fingerprint].
  - rewrite faithful_app. split; [by apply (faithful_weaken True)|].
    cbn [faithful range_upper range_payload payload_of].
    split; [|done]. intros Hz. f_equal.
    apply slice_between; [by apply Hi|apply index_of_max, Y_timely|done].
  - intros He x Hx Ht. destruct (decide (below x (last_bound Bound_default out))) as [Hb|Hb].
    + destruct (Hd He x Hx Ht Hb); [left; by apply open_at_app_l|by right].
    + left. apply open_at_past; [done..|by apply below_max|]. by repeat constructor.
  - done.
Qed.

(** What a step leaves. *)
Definition step_ok (st : recon (S:=S)) (r : recon (S:=S) + recon_result (S:=S)) : Prop :=
  match r with
  | inl st' =>
      (∃ rest out, loop_ok st' rest out) ∧ (length (r_query st') < length (r_query st))%nat
  | inr (output, have, need, n) =>
      same_session n ∧
      ∃ out, output = PROTOCOL_VERSION :: message_bytes 0 out ∧ reply_ok out have need
  end.

Lemma message_bytes_snoc out rs :
  message_bytes 0 (out ++ rs) =
    message_bytes 0 out ++ message_bytes (bound_time (last_bound Bound_default out)) rs.
Proof. apply (message_bytes_app Bound_default). Qed.

(** Out of work. *)
Lemma step_out_of_work st rest out :
  loop_ok st rest out →
  ∃ res, (let '(o, n) := owed_skip (r_neg st) (r_skip st) (r_prev_bound st) in
          '(rem, n) ← remaining_range n (r_prev_index st) (length Y);
          Ok (inr (r_output st ++ o ++ rem, r_have st, r_need st, n))) = Ok res ∧ step_ok st res.
Proof.
  intros Hl. rewrite (owed_skip_bytes _ _ _ _ Hl) by done.
  destruct (skip_ranges_ok _ _ _ Hl) as (Hok & Hf & Hlast). destruct (l_prev _ _ _ Hl) as [_ Hmax].
  rewrite remaining_range_bytes; [|apply (l_session _ _ _ Hl)|apply (l_index _ _ _ Hl)].
  cbn [mbind result_bind]. eexists. split; [done|]. split; [apply (l_session _ _ _ Hl)|].
  exists ((out ++ skip_ranges st) ++
    [mkRange max_bound (PFingerprint (items_fingerprint (slice (r_prev_index st) (length Y) Y)))]).
  split.
  - rewrite (l_output _ _ _ Hl), message_bytes_snoc, Hlast, message_bytes_snoc.
    by rewrite <- app_comm_cons, <- !(assoc_L (++)).
  - apply remaining_reply_ok; rewrite ?Hlast; try done.
    + intros _. apply (l_index _ _ _ Hl).
    + intros He x Hx Ht Hb. destruct (l_done _ _ _ Hl He x Hx Ht Hb); [left|by right].
      by apply open_at_app_l.
    + apply (l_sound _ _ _ Hl).
    + apply (l_kept _ _ _ Hl).
Qed.

(** The frame is full: the answer is dropped, or was already appended. *)
Lemma step_full st r rest out a app :
  loop_ok st (r :: rest) out → answer_ok st (range_upper r) rest out a app →
  exceeded_frame_size_limit (a_neg a) (len (r_output st) + len (a_out a)) = true →
  ∃ res, ('(rem, n) ← remaining_range (a_neg a) (a_upper a) (length Y);
          Ok (inr (r_output st ++ (if a_moved a then a_out a else []) ++ rem,
                   a_have a, a_need a, n))) = Ok res ∧ step_ok st res.
Proof.
  intros Hl Ha Hex. pose proof (a_session _ _ _ _ _ _ Ha) as Hses.
  rewrite remaining_range_bytes; [|done|apply (a_in_range _ _ _ _ _ _ Ha)].
  cbn [mbind result_bind]. eexists. split; [done|]. split; [done|].
  set (fin := mkRange max_bound _).
  assert (frame_size_limit n0 ≠ 0) as Hfl.
  { destruct Hses as (_ & <- & _). unfold exceeded_frame_size_limit in Hex.
    apply andb_true_iff in Hex as [Hex _]. by apply negb_true_iff, Z.eqb_neq in Hex. }
  destruct (l_rest _ _ _ Hl) as (_ & Hble & Hbmax & _).
  destruct (a_grows _ _ _ _ _ _ Ha) as [Hh Hn].
  assert (bytes_fin : ∀ l, message_bytes l [fin] = message_bytes MAX_U64 [fin]) by done.
  exists ((if a_moved a then out ++ app else out) ++ [fin]). split.
  - rewrite message_bytes_snoc, (l_output _ _ _ Hl), (bytes_fin (last_timestamp_out (a_neg a))).
    destruct (a_moved a); [|by rewrite (bytes_fin (bound_time (last_bound Bound_default out)))].
    rewrite (bytes_fin (bound_time (last_bound Bound_default (out ++ app)))).
    rewrite (a_bytes _ _ _ _ _ _ Ha), message_bytes_snoc. by rewrite <- app_comm_cons, <- !(assoc_L (++)).
  - apply remaining_reply_ok; try done; destruct (a_moved a) eqn:Hmv.
    + apply (a_ok _ _ _ _ _ _ Ha).
    + apply (l_out_ok _ _ _ Hl).
    + apply (a_faithful _ _ _ _ _ _ Ha).
    + apply (l_out_faithful _ _ _ Hl).
    + eapply bound_le_trans; [apply (a_le _ _ _ _ _ _ Ha)|done].
    + eapply bound_le_trans; [apply (l_out_le _ _ _ Hl)|]. by eapply bound_le_trans.
    + intros _. by apply (a_cut _ _ _ _ _ _ Ha).
    + intros [?|Hlen]; [done|exfalso]. rewrite message_bytes_snoc, app_comm_cons in Hlen.
      rewrite <- (l_output _ _ _ Hl), length_app in Hlen.
      pose proof (a_small _ _ _ _ _ _ Ha Hmv). apply andb_true_iff in Hex as [_ Hex%Z.gtb_lt].
      destruct Hses as (_ & Hfle & _). rewrite Hfle in Hex. unfold sat_sub, FRAME_SLACK in *. lia.
    + intros He x Hx Ht Hb. destruct (decide (below x (r_prev_bound st))) as [Hp|Hp].
      * destruct (l_done _ _ _ Hl He x Hx Ht Hp); [left; by apply open_at_app_l|right].
        by eapply done_mono.
      * left. by apply (a_open _ _ _ _ _ _ Ha).
    + intros He x Hx Ht Hb. destruct (l_done _ _ _ Hl He x Hx Ht); [|by left|right; by eapply done_mono].
      eapply below_le; [done|apply (l_out_le _ _ _ Hl)].
    + apply (a_sound _ _ _ _ _ _ Ha).
    + apply (a_sound _ _ _ _ _ _ Ha).
    + apply (a_kept _ _ _ _ _ _ Ha).
    + apply (a_kept _ _ _ _ _ _ Ha).
Qed.

(** The answer fits: the next range. *)
Lemma step_next st r rest out a app :
  loop_ok st (r :: rest) out → answer_ok st (range_upper r) rest out a app →
  exceeded_frame_size_limit (a_neg a) (len (r_output st) + len (a_out a)) = false →
  loop_ok (mkRecon (a_neg a) (a_query a) (r_output st ++ a_out a) (range_upper r) (a_upper a)
             (a_skip a) (a_have a) (a_need a)) rest (out ++ app).
Proof.
  intros Hl Ha Hex. destruct (l_rest _ _ _ Hl) as (Hbok & Hble & Hbmax & _ & Hrest).
  destruct (a_whole _ _ _ _ _ _ Ha Hex) as [Hi Hlast]. destruct (a_grows _ _ _ _ _ _ Ha) as [Hh Hn].
  split; cbn [r_neg r_query r_output r_prev_bound r_prev_index r_skip r_have r_need];
    try by eapply Ha.
  - rewrite (a_in _ _ _ _ _ _ Ha). apply (a_rest _ _ _ _ _ _ Ha).
  - done.
  - apply (l_rest_faithful _ _ _ Hl).
  - done.
  - rewrite (l_output _ _ _ Hl), message_bytes_snoc, (a_bytes _ _ _ _ _ _ Ha). done.
  - intros He x Hx Ht Hb. destruct (decide (below x (r_prev_bound st))) as [Hp|Hp].
    + destruct (l_done _ _ _ Hl He x Hx Ht Hp); [left; by apply open_at_app_l|right].
      by eapply done_mono.
    + destruct (a_skip a) eqn:Hs; [right; by apply (a_done _ _ _ _ _ _ Ha)|left].
      apply (a_open _ _ _ _ _ _ Ha); try done. by rewrite Hlast.
  - intros He x Hx Ht Hb. destruct (l_todo _ _ _ Hl He x Hx Ht) as [Ho|].
    + intros Hp. destruct Hb. by eapply below_le.
    + left. destruct Ho as (p & Hp & Hns). cbn in Hp. rewrite decide_False in Hp by done. by exists p.
    + right. by eapply done_mono.
Qed.

(** The range at the head of the message is answered. *)
Lemma answer_range st r rest out upper :
  loop_ok st (r :: rest) out → index_of Y (range_upper r) upper → (r_prev_index st ≤ upper)%nat →
  let query := payload_rest (range_payload r) ++ message_bytes (bound_time (range_upper r)) rest in
  ∃ a app,
    match payload_mode (range_payload r) with
    | Skip =>
        Ok (mkAnswer (entry st (range_upper r)) query [] false true upper (r_have st) (r_need st))
    | Fingerprint =>
        answer_fingerprint (entry st (range_upper r)) query (r_prev_bound st) (range_upper r)
          (r_prev_index st) upper (r_skip st) (r_have st) (r_need st)
    | IdList =>
        answer_ids hash_order (entry st (range_upper r)) query (r_prev_bound st) (range_upper r)
          (r_prev_index st) upper (r_skip st) (len (r_output st)) (r_have st) (r_need st)
    end = Ok a ∧ answer_ok st (range_upper r) rest out a app.
Proof.
  intros Hl Hi Hle query. unfold query. destruct (range_payload r) as [|fp|ids] eqn:Hp.
  - eexists _, _. split; [done|]. by apply answer_skip_ok.
  - by apply answer_fingerprint_ok.
  - by apply answer_ids_ok.
Qed.

Lemma reconcile_step_ok st rest out :
  loop_ok st rest out →
  ∃ res, reconcile_step hash_order (length Y) st = Ok res ∧ step_ok st res.
Proof.
  intros Hl. unfold reconcile_step. destruct rest as [|r rest].
  - pose proof (l_query _ _ _ Hl) as Hq. cbn in Hq. rewrite bool_decide_eq_true_2 by done.
    eexists. split; [done|]. split; [apply (l_session _ _ _ Hl)|]. exists out.
    split; [apply (l_output _ _ _ Hl)|]. split; [apply (l_out_ok _ _ _ Hl)|].
    split; [apply (faithful_weaken True); [done|apply (l_out_faithful _ _ _ Hl)]|].
    split; [|split; [apply (l_sound _ _ _ Hl)|apply (l_kept _ _ _ Hl)]].
    intros He x Hx Ht. destruct (decide (below x (r_prev_bound st))) as [Hb|Hb].
    + by apply (l_done _ _ _ Hl).
    + destruct (l_todo _ _ _ Hl He x Hx Ht Hb) as [(p & ? & _)|]; [done|by right].
  - destruct (read_range _ _ _ _ Hl) as (Hne & bs & Hdec & Hmode).
    rewrite bool_decide_eq_false_2 by done.
    destruct (work (r_neg st) >=? work_limit (r_neg st)); [by eapply step_out_of_work|].
    rewrite Hdec. cbn [mbind result_bind]. rewrite Hmode. cbn [mbind result_bind].
    rewrite Mode_try_from_code. cbn [mbind result_bind]. fold (entry st (range_upper r)).
    destruct (l_rest _ _ _ Hl) as (_ & Hble & _).
    assert (storage (entry st (range_upper r)) = storage n0) as -> by apply (l_session _ _ _ Hl).
    destruct (find_lower_bound_index (storage n0) (r_prev_bound st) (range_upper r) (r_prev_index st))
      as (upper & -> & Hle & Hi); [done|apply (l_index _ _ _ Hl)|done|]. cbn [mbind result_bind].
    destruct (Nat.ltb_spec upper (r_prev_index st)); [lia|].
    destruct (answer_range _ _ _ _ _ Hl Hi Hle) as (a & app & -> & Ha). cbn [mbind result_bind].
    destruct (exceeded_frame_size_limit _ _) eqn:Hex; [by eapply step_full|].
    eexists. split; [done|]. split; [eexists _, _; by eapply step_next|].
    cbn [r_query]. rewrite (a_rest _ _ _ _ _ _ Ha), (l_query _ _ _ Hl). cbn [message_bytes].
    rewrite !length_app. pose proof (encode_varint_nonempty (Z.of_nat (id_len (range_upper r)))) as Hv.
    unfold bound_bytes. rewrite !length_app. destruct (encode_varint (Z.of_nat _)); [done|cbn; lia].
Qed.

(** The loop ends with a reply. *)
Lemma reconcile_loop_ok st rest out :
  loop_ok st rest out →
  ∃ output have need n,
    loop_m (λ st, length (r_query st)) (reconcile_step hash_order (length Y)) recon_fuel_error st =
      Ok (output, have, need, n) ∧
    step_ok st (inr (output, have, need, n)).
Proof.
  intros Hl.
  destruct (loop_m_total (λ st, length (r_query st)) (reconcile_step hash_order (length Y))
    (λ st, ∃ rest out, loop_ok st rest out) (λ res, ∀ st, step_ok st (inr res)) recon_fuel_error st)
    as ([[[output have] need] n] & Hres & Hok).
  - intros s (rest' & out' & Hs). destruct (reconcile_step_ok _ _ _ Hs) as ([s'|res] & -> & Hok).
    + eexists. split; [done|]. cbn. apply Hok.
    + eexists. split; [done|]. cbn. intros st'. apply Hok.
  - eauto.
  - eexists _, _, _, _. split; [done|]. apply Hok.
Qed.

(** A call on a well-formed message that says what the sender holds returns a
    reply. *)
Lemma reconcile_aux_ok rs :
  message_ok Bound_default rs → faithful exact X Bound_default rs →
  len (PROTOCOL_VERSION :: message_bytes 0 rs) ≤ MAX_RECONCILE_INPUT_BYTES →
  (exact → ∀ x, item_ok x → timely x → open_at rs x ∨ done have0 need0 x) →
  ∃ out have need n,
    reconcile_aux hash_order n0 (PROTOCOL_VERSION :: message_bytes 0 rs) have0 need0 =
      Ok (PROTOCOL_VERSION :: message_bytes 0 out, have, need, n) ∧
    same_session n ∧ reply_ok out have need.
Proof.
  intros Hok Hf Hlen Hopen. unfold reconcile_aux.
  rewrite Z.gtb_ltb, (proj2 (Z.ltb_ge _ _)) by done. cbn [get_byte mbind result_bind].
  change (negb ((0x60 <=? PROTOCOL_VERSION) && (PROTOCOL_VERSION <=? 0x6F))) with false.
  change (negb (PROTOCOL_VERSION =? PROTOCOL_VERSION)) with false. cbv beta iota.
  rewrite size_spec by done. cbn [mbind result_bind]. rewrite Nat2Z.id.
  cbn [storage with_work with_timestamp_out with_timestamp_in].
  match goal with |- context [loop_m _ _ _ ?s] => assert (loop_ok s rs []) as Hl end.
  { split; cbn [r_neg r_query r_output r_prev_bound r_prev_index r_skip r_have r_need]; try done.
    - split; [by apply Bound_timestamp_ok|]. apply cmp_le_lt_eq; [apply _|]. left. by apply below_max.
    - apply index_of_default, contents_ok, n0_valid.
    - intros _ x Hx _ Hb. by apply not_below_zero in Hb.
    - intros He x Hx Ht _. by apply Hopen.
    - split; auto. }
  destruct (reconcile_loop_ok _ _ _ Hl) as (output & have & need & n & -> & Hses & out & -> & Hr).
  by eexists _, _, _, _.
Qed.
End call.

(** ** Sessions *)

Section sessions.
Context {SH : Sha256} {SHL : Sha256Laws} (hash_order : list bytes → list bytes).

Section initiate.
Context {S : Type} {ST : Storage S}.
Context {valid : S → Prop} {contents : S → list Item} {SL : StorageLaws S valid contents}.

(** The first message speaks for all of the initiator's items. *)
Lemma initiate_ok n :
  valid (storage n) → Forall timely (contents (storage n)) →
  is_initiator n = false → last_timestamp_out n = 0 →
  ∃ rs n', initiate n = Ok (PROTOCOL_VERSION :: message_bytes 0 rs, n') ∧
    message_ok Bound_default rs ∧ faithful True (contents (storage n)) Bound_default rs ∧
    (∀ x, item_ok x → timely x → open_at rs x) ∧ (length (message_bytes 0 rs) ≤ 1037)%nat ∧
    storage n' = storage n ∧ frame_size_limit n' = frame_size_limit n ∧ is_initiator n' = true ∧
    work_limit n' = work_limit n.
Proof.
  intros Hv Ht Hi Hout. unfold initiate. rewrite Hi. cbn [storage set_initiator].
  rewrite size_spec by done. cbn [mbind result_bind]. rewrite Nat2Z.id. fold max_bound.
  destruct (split_ranges_ok True (storage n) Bound_default max_bound 0 (length (contents (storage n))))
    as (Hok & Hf & Hlast & Hns); [done|by apply index_of_default, contents_ok|by apply index_of_max| |
    by apply Bound_timestamp_ok|by apply (reflexivity (R:=cmp_le Item_cmp))|].
  { apply cmp_le_lt_eq; [apply _|]. left. by apply below_max. }
  destruct (split_range_bytes (set_initiator n) 0 (length (contents (storage n))) max_bound)
    as (w & _ & Hsplit); [done|cbn [storage set_initiator]; lia|apply Hlast|].
  rewrite Hsplit. cbn [mbind result_bind storage set_initiator last_timestamp_out]. rewrite Hout.
  eexists _, _. split; [done|]. split_and!; try done.
  - intros x Hx Htx. apply (open_at_past [] _ x); [done|by apply not_below_zero| |done].
    rewrite Hlast. by apply below_max.
  - apply length_split_ranges; [done|by apply contents_ok|cbn; lia].
Qed.
End initiate.

Context {SA SB : Type} {STA : Storage SA} {STB : Storage SB}.

(** A session: the responder answers, the initiator reads the answer and sends
    the next message, until it has nothing more to ask.  The trace holds every
    message after the first with the frame limit of its sender. *)
Inductive session : Negentropy SA → Negentropy SB → bytes → list bytes → list bytes →
    list (Z * bytes) → list bytes → list bytes → Prop :=
| session_last a b msg have need reply b' have' need' a' :
    reconcile hash_order b msg = Ok (reply, b') →
    reconcile_with_ids hash_order a reply have need = Ok (None, have', need', a') →
    session a b msg have need [(frame_size_limit b, reply)] have' need'
| session_round a b msg have need reply b' msg' have' need' a' tr have'' need'' :
    reconcile hash_order b msg = Ok (reply, b') →
    reconcile_with_ids hash_order a reply have need = Ok (Some msg', have', need', a') →
    session a' b' msg' have' need' tr have'' need'' →
    session a b msg have need
      ((frame_size_limit b, reply) :: (frame_size_limit a, msg') :: tr) have'' need''.

(** A message that the frame limit did not shorten. *)
Definition clear_of_frame (m : Z * bytes) : Prop := fst m = 0 ∨ len (snd m) + FRAME_SLACK ≤ fst m.

Context {validA : SA → Prop} {contentsA : SA → list Item} {SLA : StorageLaws SA validA contentsA}.
Context {validB : SB → Prop} {contentsB : SB → list Item} {SLB : StorageLaws SB validB contentsB}.
Context (hash_order_perm : ∀ l, hash_order l ≡ₚ l).
Context (A B : list Item) (A_size : u64_ok (len A)) (B_size : u64_ok (len B)).
Context (A_timely : Forall timely A) (B_timely : Forall timely B) (AB_unique : ids_unique A B).

(** The two ends of a session over the items [A] and [B]. *)
Definition initiator_of (a : Negentropy SA) : Prop :=
  validA (storage a) ∧ contentsA (storage a) = A ∧ is_initiator a = true.
Definition responder_of (b : Negentropy SB) : Prop :=
  validB (storage b) ∧ contentsB (storage b) = B ∧ is_initiator b = false.

(** Nothing is left to find out about the item. *)
Definition settled (have need : list bytes) (x : Item) : Prop :=
  (x ∈ A ↔ x ∈ B) ∨ (x ∈ A ∧ item_id x ∈ have) ∨ (x ∈ B ∧ item_id x ∈ need).

(** What has been reported is a difference. *)
Definition reported (have need : list bytes) : Prop :=
  (∀ id, id ∈ have → ∃ x, x ∈ A ∧ (x ∉ B) ∧ item_id x = id) ∧
  (∀ id, id ∈ need → ∃ x, x ∈ B ∧ (x ∉ A) ∧ item_id x = id).

(** A message under way from the owner of [X]; [exact] when no message so far was
    shortened. *)
Definition under_way (exact : Prop) (X : list Item) (msg : bytes) (have need : list bytes) : Prop :=
  ∃ rs, msg = PROTOCOL_VERSION :: message_bytes 0 rs ∧ message_ok Bound_default rs ∧
    faithful exact X Bound_default rs ∧
    (exact → ∀ x, item_ok x → timely x → open_at rs x ∨ settled have need x) ∧
    reported have need.

Lemma under_way_start rs exact :
  message_ok Bound_default rs → faithful True A Bound_default rs →
  (∀ x, item_ok x → timely x → open_at rs x) →
  under_way exact A (PROTOCOL_VERSION :: message_bytes 0 rs) [] [].
Proof.
  intros Hok Hf Hopen. exists rs.
  split_and!; try done; [by apply (faithful_weaken True)|by left; apply Hopen|].
  by split; intros id ?%not_elem_of_nil.
Qed.

Lemma ids_unique_sym X Y : ids_unique X Y → ids_unique Y X.
Proof. intros H x y. rewrite !elem_of_app. intros Hx Hy. apply H; rewrite elem_of_app; tauto. Qed.

Lemma reconcile_aux_short {S} `{Storage S} (n : Negentropy S) query have need res :
  reconcile_aux hash_order n query have need = Ok res → len query ≤ MAX_RECONCILE_INPUT_BYTES.
Proof. unfold reconcile_aux. rewrite Z.gtb_ltb. destruct (Z.ltb_spec MAX_RECONCILE_INPUT_BYTES (len query)); [done|lia]. Qed.

Lemma responder_round exact b msg have need reply b' :
  responder_of b → under_way exact A msg have need → (exact → no_collision A B) →
  reconcile hash_order b msg = Ok (reply, b') →
  responder_of b' ∧ frame_size_limit b' = frame_size_limit b ∧
  under_way (exact ∧ clear_of_frame (frame_size_limit b, reply)) B reply have need.
Proof.
  intros (Hv & Hc & Hi) (rs & -> & Hok & Hf & Hopen & Hrep) Hcoll Hr. unfold reconcile in Hr. rewrite Hi in Hr.
  destruct (reconcile_aux _ _ _ _ _) as [[[[o h] nd] n]|] eqn:Haux; [|done].
  cbn [mbind result_bind] in Hr. injection Hr as <- <-.
  pose proof (reconcile_aux_short _ _ _ _ _ Haux) as Hlen.
  destruct (reconcile_aux_ok hash_order hash_order_perm b A exact (settled have need) [] [])
    with (rs := rs) as (out & h' & nd' & n' & Haux' & (Hst & Hfl & Hini & _) & Hro & Hrf & Hropen & _ & Hkept);
    rewrite ?Hc; try done.
  { intros He x Hx Ht. destruct (Hopen He x Hx Ht); [by left|right]. right; by left. }
  rewrite Haux' in Haux. injection Haux as <- <- <- <-.
  destruct (Hkept Hi) as [-> ->]. split; [by unfold responder_of; rewrite Hst, Hini|]. split; [done|].
  exists out. split; [done|]. split; [done|]. rewrite Hc in *. split; [|split; [|done]].
  - eapply faithful_weaken; [|exact Hrf]. by intros [_ ?].
  - intros [He _] x Hx Ht. destruct (Hropen He x Hx Ht) as [|[?|[?|[[_ Hn]|[_ Hn]]]]];
      [by left|right; left; by rewrite <- Hc|by right|by apply not_elem_of_nil in Hn..].
Qed.

Lemma initiator_round exact a reply have need next have' need' a' :
  initiator_of a → under_way exact B reply have need → (exact → no_collision A B) →
  reconcile_with_ids hash_order a reply have need = Ok (next, have', need', a') →
  initiator_of a' ∧ frame_size_limit a' = frame_size_limit a ∧
  match next with
  | None => reported have' need' ∧
            (exact → ∀ x, item_ok x → timely x → settled have' need' x)
  | Some msg => under_way (exact ∧ clear_of_frame (frame_size_limit a, msg)) A msg have' need'
  end.
Proof.
  intros (Hv & Hc & Hi) (rs & -> & Hok & Hf & Hopen & Hrep) Hcoll Hr.
  unfold reconcile_with_ids in Hr. rewrite Hi in Hr. cbn [negb] in Hr.
  destruct (reconcile_aux _ _ _ _ _) as [[[[o h] nd] n]|] eqn:Haux; [|done].
  cbn [mbind result_bind] in Hr. injection Hr as Hnext <- <- <-.
  pose proof (reconcile_aux_short _ _ _ _ _ Haux) as Hlen.
  destruct (reconcile_aux_ok hash_order hash_order_perm a B exact (λ _, False) have need)
    with (rs := rs) as (out & h' & nd' & n' & Haux' & (Hst & Hfl & Hini & _) & Hro & Hrf & Hropen & Hsound & _);
    rewrite ?Hc; try done.
  { by apply ids_unique_sym. }
  { intros He lo hi Heq. symmetry. by apply Hcoll. }
  { intros He x Hx Ht. unfold done. rewrite Hc. destruct (Hopen He x Hx Ht) as [|[?|[?|?]]]; tauto. }
  rewrite Haux' in Haux. injection Haux as <- <- <- <-. rewrite Hc in *.
  split; [by unfold initiator_of; rewrite Hst, Hini|]. split; [done|].
  assert (reported h' nd') as Hrep'.
  { destruct Hrep as [Hr1 Hr2], Hsound as [Hs1 Hs2]. rewrite Hc in *.
    split; intros id Hid; [destruct (Hs1 id Hid)|destruct (Hs2 id Hid)]; auto. }
  assert (exact → ∀ x, item_ok x → timely x → open_at out x ∨ settled h' nd' x) as Hset.
  { intros He x Hx Ht. destruct (Hropen He x Hx Ht) as [|[?|[?|[?|?]]]]; rewrite ?Hc in *;
      unfold settled; tauto. }
  rewrite <- Hnext. cbn [length]. destruct (Nat.eqb_spec (S (length (message_bytes 0 out))) 1) as [Hnil|Hne].
  - split; [done|]. assert (message_bytes 0 out = []) as ->%message_bytes_nil
      by (apply nil_length_inv; lia).
    intros He x Hx Ht. destruct (Hset He x Hx Ht) as [(p & ? & _)|]; done.
  - exists out. split_and!; try done; [|by intros [He _]; apply Hset].
    eapply faithful_weaken; [|exact Hrf]. by intros [_ ?].
Qed.

(** Along a session. *)
Lemma session_exact exact a b msg have need tr have' need' :
  initiator_of a → responder_of b → under_way exact A msg have need → (exact → no_collision A B) →
  session a b msg have need tr have' need' →
  reported have' need' ∧
  (exact → Forall clear_of_frame tr → ∀ x, item_ok x → timely x → settled have' need' x).
Proof.
  intros Ha Hb Hu Hcoll Hs. revert exact Ha Hb Hu Hcoll.
  induction Hs as [a b msg have need reply b' have' need' a' Hr Hw
                  |a b msg have need reply b' msg' have' need' a' tr have'' need'' Hr Hw Hs IH];
    intros exact Ha Hb Hu Hcoll;
    destruct (responder_round _ _ _ _ _ _ _ Hb Hu Hcoll Hr) as (Hb' & _ & Hu1);
    (destruct (initiator_round _ _ _ _ _ _ _ _ _ Ha Hu1 ltac:(tauto) Hw) as (Ha' & _ & Hu2)).
  - destruct Hu2 as [Hrep Hset]. split; [done|]. intros He [Hc _]%Forall_cons. by apply Hset.
  - destruct (IH _ Ha' Hb' Hu2 ltac:(tauto)) as [Hrep Hset]. split; [done|].
    intros He [Hc1 [Hc2 Hc3]%Forall_cons]%Forall_cons. by apply Hset.
Qed.
End sessions.

Section session_property.
Context {SH : Sha256} {SHL : Sha256Laws} (hash_order : list bytes → list bytes).
Context {SA SB : Type} {STA : Storage SA} {STB : Storage SB}.
Context {validA : SA → Prop} {contentsA : SA → list Item} {SLA : StorageLaws SA validA contentsA}.
Context {validB : SB → Prop} {contentsB : SB → list Item} {SLB : StorageLaws SB validB contentsB}.

(** C5. Reconciliation is right.  A session between two peers, each over any storage
    that satisfies the laws, reports as [have] only ids of items the initiator
    holds and the responder does not, and as [need] only the reverse.  When no
    message was shortened by a frame limit and no two ranges collide, it reports
    all of them.  Ids are unique and timestamps are below the greatest one, which
    stands for infinity in the protocol. *)
Theorem session_finds_differences sa sb la lb a0 b0 a msg tr have need :
  (∀ l, hash_order l ≡ₚ l) → validA sa → validB sb →
  u64_ok (len (contentsA sa)) → u64_ok (len (contentsB sb)) →
  Forall timely (contentsA sa) → Forall timely (contentsB sb) →
  ids_unique (contentsA sa) (contentsB sb) →
  Negentropy_new sa la = Ok a0 → Negentropy_new sb lb = Ok b0 → initiate a0 = Ok (msg, a) →
  session hash_order a b0 msg [] [] tr have need →
  reported (contentsA sa) (contentsB sb) have need ∧
  (no_collision (contentsA sa) (contentsB sb) → Forall clear_of_frame tr →
   (∀ id, id ∈ have ↔ ∃ x, x ∈ contentsA sa ∧ (x ∉ contentsB sb) ∧ item_id x = id) ∧
   (∀ id, id ∈ need ↔ ∃ x, x ∈ contentsB sb ∧ (x ∉ contentsA sa) ∧ item_id x = id)).
Proof.
  intros Hperm Hva Hvb Hsa Hsb Hta Htb Hun Ha Hb Hinit Hs.
  unfold Negentropy_new in Ha, Hb. destruct (_ && _) in Ha; [done|]. destruct (_ && _) in Hb; [done|].
  injection Ha as <-. injection Hb as <-.
  edestruct (initiate_ok (contents:=contentsA) (mkNegentropy sa la false 0 0 0 MAX_RECONCILE_WORK))
    as (rs & a' & Hinit' & Hok & Hf & Hopen & _ & Hst & _ & Hini & _); [done..|].
  rewrite Hinit' in Hinit. injection Hinit as <- <-. cbn [storage] in *.
  pose proof (under_way_start (contentsA sa) (contentsB sb) rs) as Hu.
  pose proof (session_exact hash_order (validA:=validA) (validB:=validB) Hperm _ _ Hsa Hsb Hta Htb Hun) as Hex.
  assert (initiator_of (validA:=validA) (contentsA:=contentsA) (contentsA sa) a') as Hia
    by (unfold initiator_of; by rewrite Hst).
  assert (responder_of (validB:=validB) (contentsB:=contentsB) (contentsB sb)
    (mkNegentropy sb lb false 0 0 0 MAX_RECONCILE_WORK)) as Hrb by done.
  destruct (Hex False _ _ _ _ _ _ _ _ Hia Hrb (Hu False Hok Hf Hopen) (λ F, False_ind _ F) Hs) as [Hrep _].
  split; [done|]. intros Hcoll Hclear.
  destruct (Hex True _ _ _ _ _ _ _ _ Hia Hrb (Hu True Hok Hf Hopen) (λ _, Hcoll) Hs) as [_ Hset].
  destruct Hrep as [Hr1 Hr2].
  pose proof (contents_ok sa Hva) as Hoka. pose proof (contents_ok sb Hvb) as Hokb.
  rewrite Forall_forall in Hoka, Hokb, Hta, Htb.
  split; intros id; (split; [auto|]); intros (x & Hx & Hn & <-).
  - destruct (Hset I Hclear x) as [?|[[_ ?]|[? _]]]; [by apply Hoka|by apply Hta|tauto..].
  - destruct (Hset I Hclear x) as [?|[[? _]|[_ ?]]]; [by apply Hokb|by apply Htb|tauto..].
Qed.
End session_property.

(** ** Witnesses *)

Definition left_items : list Item := [mkItem 3 (replicate 32 2); mkItem 5 (replicate 32 1)].
Definition right_items : list Item := [mkItem 5 (replicate 32 1); mkItem 9 (replicate 32 4)].
Definition left_vector : Vector := mkVector left_items true.
Definition right_vector : Vector := mkVector right_items true.

Lemma left_valid : Vector_valid left_vector.
Proof.
  split; [done|]. split; [repeat constructor|]. apply (bool_decide_eq_true_1 _). by vm_compute.
Qed.

Lemma right_valid : Vector_valid right_vector.
Proof.
  split; [done|]. split; [repeat constructor|]. apply (bool_decide_eq_true_1 _). by vm_compute.
Qed.

Lemma sample_unique : ids_unique left_items right_items.
Proof.
  intros x y Hx Hy. unfold left_items, right_items in *. cbn in Hx, Hy.
  rewrite !elem_of_cons in Hx, Hy. destruct_or!; subst; cbn; intros H; try done;
    try (apply not_elem_of_nil in Hx; done); try (apply not_elem_of_nil in Hy; done).
Qed.

(** The parts of a two-item list. *)
Lemma between_pair a b lo hi : between [a; b] lo hi ∈ [[]; [a]; [b]; [a; b]].
Proof.
  unfold between. rewrite !filter_cons, filter_nil. repeat case_decide; set_solver.
Qed.

Lemma sample_no_collision : no_collision left_items right_items.
Proof.
  intros lo hi. pose proof (between_pair (mkItem 3 (replicate 32 2)) (mkItem 5 (replicate 32 1)) lo hi) as H1.
  pose proof (between_pair (mkItem 5 (replicate 32 1)) (mkItem 9 (replicate 32 4)) lo hi) as H2.
  change (between left_items lo hi ∈ [[]; [mkItem 3 (replicate 32 2)]; [mkItem 5 (replicate 32 1)]; left_items]) in H1.
  change (between right_items lo hi ∈ [[]; [mkItem 5 (replicate 32 1)]; [mkItem 9 (replicate 32 4)]; right_items]) in H2.
  assert (Forall (λ l, Forall (λ r, bool_decide (items_fingerprint l = items_fingerprint r) = true → l = r)
      [[]; [mkItem 5 (replicate 32 1)]; [mkItem 9 (replicate 32 4)]; right_items])
    [[]; [mkItem 3 (replicate 32 2)]; [mkItem 5 (replicate 32 1)]; left_items]) as Hall
    by (repeat constructor; vm_compute; try discriminate; reflexivity).
  intros Heq. rewrite Forall_forall in Hall. specialize (Hall _ H1). rewrite Forall_forall in Hall.
  by apply (Hall _ H2), bool_decide_eq_true.
Qed.

Definition left_peer : Negentropy Vector := mkNegentropy left_vector 8192 false 0 0 0 MAX_RECONCILE_WORK.
Definition right_peer : Negentropy Vector := mkNegentropy right_vector 8192 false 0 0 0 MAX_RECONCILE_WORK.

(** The left peer finds the item only it has and the one it lacks. *)
Lemma session_finds_differences_witness :
  ∃ a msg tr have need,
    initiate left_peer = Ok (msg, a) ∧
    session (λ l, l) a right_peer msg [] [] tr have need ∧
    Forall clear_of_frame tr ∧
    (∀ id, id ∈ have ↔ ∃ x, x ∈ left_items ∧ (x ∉ right_items) ∧ item_id x = id) ∧
    (∀ id, id ∈ need ↔ ∃ x, x ∈ right_items ∧ (x ∉ left_items) ∧ item_id x = id).
Proof.
  destruct (initiate left_peer) as [[msg a]|e] eqn:Hi; [|by vm_compute in Hi].
  destruct (reconcile (λ l, l) right_peer msg) as [[reply b']|e] eqn:Hr;
    [|vm_compute in Hi; injection Hi as <- <-; by vm_compute in Hr].
  destruct (reconcile_with_ids (λ l, l) a reply [] []) as [[[[[m|] h] n] a']|e] eqn:Hw;
    try (vm_compute in Hi; injection Hi as <- <-; vm_compute in Hr; injection Hr as <- <-;
         by vm_compute in Hw).
  assert (session (λ l, l) a right_peer msg [] [] [(8192, reply)] h n) as Hs
    by (by eapply (session_last _ _ right_peer)).
  assert (Forall clear_of_frame [(8192, reply)]) as Hc.
  { constructor; [|constructor]. right. vm_compute in Hi. injection Hi as <- <-.
    vm_compute in Hr. injection Hr as <- <-. vm_compute. discriminate. }
  exists a, msg, [(8192, reply)], h, n. split; [done|]. split; [done|]. split; [done|].
  destruct (session_finds_differences (λ l, l) left_vector right_vector 8192 8192 left_peer right_peer a msg
    [(8192, reply)] h n) as [_ Hall];
    [done|apply left_valid|apply right_valid|by vm_compute|by vm_compute|by repeat constructor..
    |apply sample_unique|done|done|done|exact Hs|].
  apply Hall; [apply sample_no_collision|exact Hc].
Defined.
