(* ===== verification/NegBounds.v ===== *)
(** * Negentropy limits: what one call of protocol.rs may cost

    Whatever bytes the peer sends, a reply fits the frame limit and the storage
    work of a call stays within a constant of its ceiling. *)

From S2P Require Import Prelude Crates NegEncoding NegTypes NegStorage NegProtocol NegMessage NegReconcile.

Local Open Scope Z_scope.

(** The most one range adds to the work: a search, a fingerprint and a split. *)
Definition WORK_SLACK : Z := 51.

Section limits.
Context {SH : Sha256} {SHL : Sha256Laws} {S : Type} {ST : Storage S}.
Context {valid : S → Prop} {contents : S → list Item} {SL : StorageLaws S valid contents}.
Context (hash_order : list bytes → list bytes).
Context (n0 : Negentropy S) (n0_valid : valid (storage n0)).
Local Abbreviation Y := (contents (storage n0)).
Local Abbreviation fl := (frame_size_limit n0).
Context (fl_ok : fl = 0 ∨ 4096 ≤ fl).

Definition within (st : recon (S:=S)) : Prop :=
  same_session n0 (r_neg st) ∧ (r_prev_index st ≤ length Y)%nat ∧
  (id_len (r_prev_bound st) ≤ ID_SIZE)%nat ∧
  (fl ≠ 0 → len (r_output st) ≤ sat_sub fl 200) ∧
  work (r_neg st) < work_limit n0 + WORK_SLACK.

(** What a call returns. *)
Definition fits (res : recon_result (S:=S)) : Prop :=
  let '(output, _, _, n) := res in
  (fl ≠ 0 → len output ≤ fl) ∧ work n < work_limit n0 + WORK_SLACK.

(** ** Lemmas *)

Lemma owed_skip_size (n : Negentropy S) skip b :
  (id_len b ≤ ID_SIZE)%nat →
  ∃ o t, owed_skip n skip b = (o, with_timestamp_out n t) ∧ len o ≤ 44.
Proof.
  intros Hb. unfold owed_skip. destruct skip.
  - rewrite encode_bound_eq. eexists _, _. split; [done|]. rewrite length_app.
    pose proof (length_bound_bytes (last_timestamp_out n) b Hb). cbn. lia.
  - exists [], (last_timestamp_out n). split; [by destruct n|]. cbn. lia.
Qed.

Lemma remaining_size n k :
  same_session n0 n → (k ≤ length Y)%nat →
  ∃ rem, remaining_range n k (length Y) = Ok (rem, with_timestamp_out n MAX_U64) ∧ len rem ≤ 60.
Proof.
  intros Hn Hk. rewrite (remaining_range_bytes (valid:=valid) n0) by done. eexists. split; [done|].
  cbn [message_bytes payload_bytes range_upper range_payload].
  rewrite !length_app, length_items_fingerprint, length_small_varint by (cbn; lia).
  pose proof (length_bound_bytes (last_timestamp_out n) max_bound ltac:(cbn; lia)). cbn. lia.
Qed.

Lemma iterate_responder_size full_len curr upper (l : list Item) lower resp num :
  Forall item_ok l → fl ≠ 0 → full_len + len resp ≤ sat_sub fl 200 + 32 →
  full_len + len (iterate_items
      (λ '(response_ids, num_response_ids, end_bound, upper) item index,
         if negb (fl =? 0) && (full_len + len response_ids >? sat_sub fl 200)
         then ((response_ids, num_response_ids, Bound_from_item item, index), false)
         else ((response_ids ++ item_id item, num_response_ids + 1, end_bound, upper), true))
      (resp, num, curr, upper) l lower).1.1.1 ≤ sat_sub fl 200 + 32.
Proof.
  intros Hl Hz. revert lower resp num. induction Hl as [|x l [_ [Hx _]] _ IH]; intros lower resp num Hr; [done|].
  cbn [iterate_items]. rewrite (proj2 (Z.eqb_neq _ _) Hz). cbn [negb andb].
  destruct (full_len + len resp >? sat_sub fl 200) eqn:E; [done|].
  rewrite (proj2 (Z.eqb_neq _ _) Hz) in IH. cbn [negb andb] in IH. apply IH.
  rewrite Z.gtb_ltb in E. apply Z.ltb_ge in E. rewrite length_app, Hx. unfold ID_SIZE. lia.
Qed.

Lemma split_range_size n lower upper ub :
  same_session n0 n → (lower ≤ upper ≤ length Y)%nat → (id_len ub ≤ ID_SIZE)%nat →
  ∃ o w t, split_range n lower upper ub = Ok (o, with_work (with_timestamp_out n t) w) ∧
    len o ≤ 1037 ∧ work n ≤ w ≤ work n + 48.
Proof.
  intros (Hst & _) Hlu Hub.
  destruct (split_range_bytes n lower upper ub) as (w & Hw & ->); rewrite ?Hst;
    [done|done|apply last_bound_split; lia|].
  eexists _, _, _. split; [done|]. split; [|done].
  pose proof (length_split_ranges Y (last_timestamp_out n) lower upper ub ltac:(lia)
    (contents_ok _ n0_valid) Hub). lia.
Qed.

(** What the answer to a range may be. *)
Definition answer_within (st : recon (S:=S)) (a : answer (S:=S)) : Prop :=
  same_session n0 (a_neg a) ∧ (a_upper a ≤ length Y)%nat ∧
  work (a_neg a) < work_limit n0 + WORK_SLACK ∧
  (a_moved a = true → fl ≠ 0 → len (r_output st) + len (a_out a) ≤ sat_sub fl 200 + 130).

Lemma fingerprint_within st n query curr upper a :
  within st → same_session n0 n → work n ≤ work_limit n0 →
  (r_prev_index st ≤ upper ≤ length Y)%nat → (id_len curr ≤ ID_SIZE)%nat →
  answer_fingerprint n query (r_prev_bound st) curr (r_prev_index st) upper (r_skip st)
    (r_have st) (r_need st) = Ok a →
  answer_within st a.
Proof.
  intros (_ & _ & Hp & _ & _) Hn Hw Hu Hc. unfold answer_fingerprint. intros H.
  inv_bind H. destruct v as [fp q]. inv_bind H. case_bool_decide.
  - destruct (owed_skip_size (add_work n 2) (r_skip st) (r_prev_bound st) Hp) as (o & t & Ho & _).
    rewrite Ho in H.
    destruct (split_range_size (with_timestamp_out (add_work n 2) t) (r_prev_index st) upper curr)
      as (s & w & t' & Hs & _ & Hws); [done..|].
    rewrite Hs in H. cbn [mbind result_bind] in H. injection H as <-. cbn in Hws.
    split_and!; try done; cbn; [lia|]. unfold WORK_SLACK. lia.
  - injection H as <-. split_and!; try done; cbn; [lia|]. unfold WORK_SLACK. lia.
Qed.

Lemma ids_within st n query curr upper a :
  within st → same_session n0 n → work n ≤ work_limit n0 →
  (r_prev_index st ≤ upper ≤ length Y)%nat → (id_len curr ≤ ID_SIZE)%nat →
  answer_ids hash_order n query (r_prev_bound st) curr (r_prev_index st) upper (r_skip st)
    (len (r_output st)) (r_have st) (r_need st) = Ok a →
  answer_within st a.
Proof.
  intros (_ & _ & Hp & Hout & _) Hn Hw Hu Hc. unfold answer_ids. intros H.
  inv_bind H. destruct v as [num q]. inv_bind H. destruct v as [ids q'].
  destruct (is_initiator _).
  - unfold answer_ids_initiator in H. inv_bind H. destruct v as [te h]. injection H as <-.
    split_and!; try done; cbn; [lia|]. unfold WORK_SLACK. lia.
  - unfold answer_ids_responder in H.
    destruct (owed_skip_size (add_work n 1) (r_skip st) (r_prev_bound st) Hp) as (o & t & Ho & Hos).
    rewrite Ho in H. destruct Hn as (Hst & Hfl & Hni & Hwl).
    cbn [storage add_work with_work with_timestamp_out frame_size_limit] in H.
    rewrite iterate_spec in H by (rewrite Hst; done). rewrite Hst, Hfl in H.
    cbn [mbind result_bind] in H.
    pose proof (iterate_responder_size (len (r_output st)) curr upper
      (slice (r_prev_index st) upper Y) (r_prev_index st) [] 0
      (Forall_slice _ _ _ _ (contents_ok _ n0_valid))) as Hsize.
    destruct (iterate_responder fl (len (r_output st)) curr upper (slice (r_prev_index st) upper Y)
      (r_prev_index st) [] 0) as (m & Hm & Hit & _).
    { eapply Forall_impl; [apply Forall_slice, contents_ok, n0_valid|]. by intros x [_ [? _]]. }
    rewrite Hit in H, Hsize. rewrite length_slice in Hm, H by lia. cbn [fst] in Hsize.
    rewrite encode_bound_eq in H. injection H as <-. split_and!; try done; cbn [a_upper a_neg a_out a_moved].
    + destruct (Nat.eqb_spec m (upper - r_prev_index st)); lia.
    + cbn. unfold WORK_SLACK. lia.
    + intros _ Hz. specialize (Hsize Hz). specialize (Hout Hz). rewrite !length_app in *.
      match goal with |- context [bound_bytes ?l ?b] => pose proof (length_bound_bytes l b) as Hb end.
      assert (length (bound_bytes _ _) ≤ 43)%nat as Hb' by (apply Hb; destruct (_ !! m); [cbn; lia|done]).
      pose proof (length_encode_varint (0 + Z.of_nat m)).
      cbn [length Nat.add] in *. rewrite length_app. lia.
Qed.

Lemma decode_bound_id_len (n : Negentropy S) q b q' n' :
  decode_bound n q = Ok (b, q', n') →
  (id_len b ≤ ID_SIZE)%nat ∧ ∃ t, n' = with_timestamp_in n t.
Proof.
  unfold decode_bound, decode_timestamp_in. intros H.
  inv_bind H. destruct v as [[t q1] n1]. inv_bind Hv. destruct v as [t0 q0]. injection Hv as _ _ <-.
  inv_bind H. destruct v as [k q2]. inv_bind H. destruct v as [id q3].
  inv_bind H. injection H as <- _ <-. unfold Bound_with_id_prefix in Hv2.
  destruct (Nat.ltb_spec ID_SIZE (length id)); [done|]. injection Hv2 as <-. cbn [id_len].
  split; [lia|by eexists].
Qed.

(** The answer to any range stays within the limits. *)
Lemma answer_within_ok st curr mode n query upper a :
  within st → same_session n0 n → work n ≤ work_limit n0 →
  (r_prev_index st ≤ upper ≤ length Y)%nat → (id_len curr ≤ ID_SIZE)%nat →
  match mode with
  | Skip => Ok (mkAnswer n query [] false true upper (r_have st) (r_need st))
  | Fingerprint =>
      answer_fingerprint n query (r_prev_bound st) curr (r_prev_index st) upper (r_skip st)
        (r_have st) (r_need st)
  | IdList =>
      answer_ids hash_order n query (r_prev_bound st) curr (r_prev_index st) upper (r_skip st)
        (len (r_output st)) (r_have st) (r_need st)
  end = Ok a →
  answer_within st a.
Proof.
  intros Hst Hn Hw Hu Hc. destruct mode.
  - intros [= <-]. split_and!; try done; cbn; [lia|unfold WORK_SLACK; lia].
  - by eapply fingerprint_within.
  - by eapply ids_within.
Qed.

Lemma reconcile_step_within st r :
  within st → reconcile_step hash_order (length Y) st = Ok r →
  match r with inl st' => within st' | inr res => fits res end.
Proof.
  intros Hw. pose proof Hw as (Hn & Hi & Hp & Hout & Hwork). unfold reconcile_step.
  case_bool_decide as Hq.
  { intros [= <-]. split; [|done]. intros Hz. specialize (Hout Hz). unfold sat_sub in Hout. lia. }
  destruct (work (r_neg st) >=? work_limit (r_neg st)) eqn:E.
  - destruct (owed_skip_size (r_neg st) (r_skip st) (r_prev_bound st) Hp) as (o & t & -> & Ho).
    destruct (remaining_size (with_timestamp_out (r_neg st) t) (r_prev_index st)) as (rem & -> & Hrem);
      [done..|]. cbn [mbind result_bind]. intros [= <-]. split; [|done].
    intros Hz. specialize (Hout Hz). rewrite !length_app. unfold sat_sub in Hout. lia.
  - rewrite Z.geb_leb in E. apply Z.leb_gt in E. intros H. inv_bind H. destruct v as [[curr q] n].
    apply decode_bound_id_len in Hv as [Hc [t ->]].
    inv_bind H. destruct v as [code q']. inv_bind H. inv_bind H.
    pose proof Hn as (Hst & Hfl & Hini & Hwl).
    cbn [storage add_work with_work with_timestamp_in] in Hv1. rewrite Hst in Hv1.
    destruct (find_lower_bound_split (storage n0) (r_prev_index st) (length Y) curr)
      as (k & Hk & Hkr & _); [done|lia|]. rewrite Hk in Hv1. injection Hv1 as <-.
    destruct (_ <? _)%nat; [done|]. inv_bind H.
    apply answer_within_ok in Hv1 as (Hna & Hua & Hwa & Hmv); [|done|done|cbn; lia|lia|done].
    destruct (exceeded_frame_size_limit _ _) eqn:Hex.
    + destruct (remaining_size (a_neg v0) (a_upper v0)) as (rem & Hr & Hrem); [done..|].
      rewrite Hr in H. cbn [mbind result_bind] in H. injection H as <-. split; [|done].
      intros Hz. specialize (Hout Hz). rewrite !length_app. unfold sat_sub in *.
      destruct (a_moved v0); [specialize (Hmv eq_refl Hz)|cbn]; lia.
    + injection H as <-. split_and!; try done. cbn [r_output]. intros Hz.
      unfold exceeded_frame_size_limit in Hex. destruct Hna as (_ & Hfa & _). rewrite Hfa in Hex.
      rewrite (proj2 (Z.eqb_neq _ _) Hz) in Hex. cbn [negb andb] in Hex.
      rewrite Z.gtb_ltb in Hex. apply Z.ltb_ge in Hex. rewrite length_app. lia.
Qed.

Lemma reconcile_aux_fits query have need output have' need' n :
  0 ≤ work_limit n0 →
  reconcile_aux hash_order n0 query have need = Ok (output, have', need', n) →
  (fl ≠ 0 → len output ≤ fl) ∧ work n < work_limit n0 + WORK_SLACK.
Proof.
  intros Hwl. unfold reconcile_aux. destruct (_ >? _); [done|]. intros H.
  inv_bind H. destruct v as [version q].
  assert (fits ([PROTOCOL_VERSION], have, need,
    with_work (with_timestamp_out (with_timestamp_in n0 0) 0) 0)) as Hfirst.
  { split; [intros Hz; cbn; lia|cbn; unfold WORK_SLACK; lia]. }
  destruct (negb _); [done|]. destruct (negb (version =? _)).
  { destruct (is_initiator _); [done|]. injection H as <- <- <- <-. apply Hfirst. }
  rewrite size_spec in H by done. cbn [mbind result_bind] in H. rewrite Nat2Z.id in H.
  eapply (loop_m_rule _ _ within fits) in H; [exact H|..].
  - intros s s' Hs Hstep. by apply (reconcile_step_within s (inl s')).
  - intros s a Hs Hstep. by apply (reconcile_step_within s (inr a)).
  - split_and!; try done; cbn; [lia|lia| |unfold WORK_SLACK; lia].
    intros Hz. unfold sat_sub. lia.
Qed.

(** C30. Limits of a call: on any message whatever, a call that returns has written
    no more than the frame limit allows, and has done less storage work than its
    ceiling plus what one range costs. *)
Theorem reconcile_within_limits query have need output have' need' n :
  0 ≤ work_limit n0 →
  reconcile_aux hash_order n0 query have need = Ok (output, have', need', n) →
  (fl ≠ 0 → len output ≤ fl) ∧ work n < work_limit n0 + WORK_SLACK.
Proof. apply reconcile_aux_fits. Qed.
End limits.

(** ** Sessions *)

Section drive.
Context {SH : Sha256} {SHL : Sha256Laws} (hash_order : list bytes → list bytes).
Context {SA SB : Type} {STA : Storage SA} {STB : Storage SB}.

(** At most [fuel] rounds of a session. *)
Fixpoint drive (fuel : nat) (a : Negentropy SA) (b : Negentropy SB) (msg : bytes)
    (have need : list bytes) : result NegError (option (list bytes * list bytes)) :=
  match fuel with
  | O => Ok None
  | Datatypes.S fuel =>
      '(reply, b) ← reconcile hash_order b msg;
      '(next, have, need, a) ← reconcile_with_ids hash_order a reply have need;
      match next with
      | None => Ok (Some (have, need))
      | Some msg => drive fuel a b msg have need
      end
  end.

Context {validA : SA → Prop} {contentsA : SA → list Item} {SLA : StorageLaws SA validA contentsA}.
Context {validB : SB → Prop} {contentsB : SB → list Item} {SLB : StorageLaws SB validB contentsB}.
Context (hash_order_perm : ∀ l, hash_order l ≡ₚ l).
Context (A B : list Item) (A_size : u64_ok (len A)) (B_size : u64_ok (len B)).
Context (A_timely : Forall timely A) (B_timely : Forall timely B) (AB_unique : ids_unique A B).

(** A limit that keeps every message readable for the peer. *)
Definition readable_limit (l : Z) : Prop := 4096 ≤ l ≤ MAX_RECONCILE_INPUT_BYTES.

Lemma responder_succeeds b msg have need :
  responder_of (validB:=validB) (contentsB:=contentsB) B b → under_way A B False A msg have need →
  readable_limit (frame_size_limit b) → 0 ≤ work_limit b → len msg ≤ MAX_RECONCILE_INPUT_BYTES →
  ∃ reply b', reconcile hash_order b msg = Ok (reply, b') ∧
    len reply ≤ MAX_RECONCILE_INPUT_BYTES ∧ work_limit b' = work_limit b.
Proof.
  intros (Hv & Hc & Hi) (rs & -> & Hok & Hf & _ & _) [Hl1 Hl2] Hw Hlen.
  destruct (reconcile_aux_ok hash_order hash_order_perm b A False (λ _, False) [] [])
    with (rs := rs) as (out & h & nd & n & Haux & (_ & _ & _ & Hwl) & _); rewrite ?Hc; try done.
  destruct (reconcile_aux_fits hash_order b Hv (or_intror Hl1) _ _ _ _ _ _ _ Hw Haux) as [Hfit _].
  unfold reconcile. rewrite Hi, Haux. cbn [mbind result_bind]. eexists _, _. split; [done|].
  split; [lia|done].
Qed.

Lemma initiator_succeeds a reply have need :
  initiator_of (validA:=validA) (contentsA:=contentsA) A a → under_way A B False B reply have need →
  readable_limit (frame_size_limit a) → 0 ≤ work_limit a → len reply ≤ MAX_RECONCILE_INPUT_BYTES →
  ∃ next have' need' a', reconcile_with_ids hash_order a reply have need = Ok (next, have', need', a') ∧
    work_limit a' = work_limit a ∧
    match next with Some m => len m ≤ MAX_RECONCILE_INPUT_BYTES | None => True end.
Proof.
  intros (Hv & Hc & Hi) (rs & -> & Hok & Hf & _ & _) [Hl1 Hl2] Hw Hlen.
  destruct (reconcile_aux_ok hash_order hash_order_perm a B False (λ _, False) have need)
    with (rs := rs) as (out & h & nd & n & Haux & (_ & _ & _ & Hwl) & _); rewrite ?Hc; try done.
  { by apply ids_unique_sym. }
  destruct (reconcile_aux_fits hash_order a Hv (or_intror Hl1) _ _ _ _ _ _ _ Hw Haux) as [Hfit _].
  unfold reconcile_with_ids. rewrite Hi, Haux. cbn [negb mbind result_bind]. eexists _, _, _, _.
  split; [done|]. split; [done|]. destruct (_ =? _)%nat; [done|]. lia.
Qed.

Lemma drive_succeeds fuel a b msg have need :
  initiator_of (validA:=validA) (contentsA:=contentsA) A a →
  responder_of (validB:=validB) (contentsB:=contentsB) B b →
  under_way A B False A msg have need →
  readable_limit (frame_size_limit a) → readable_limit (frame_size_limit b) →
  0 ≤ work_limit a → 0 ≤ work_limit b → len msg ≤ MAX_RECONCILE_INPUT_BYTES →
  ∃ r, drive fuel a b msg have need = Ok r.
Proof.
  revert a b msg have need. induction fuel as [|fuel IH]; intros a b msg have need Ha Hb Hu Hla Hlb Hwa Hwb Hlen.
  { by eexists. }
  destruct (responder_succeeds b msg have need) as (reply & b' & Hr & Hrl & Hwb'); [done..|].
  destruct (responder_round hash_order hash_order_perm A B B_size B_timely AB_unique False
    b msg have need reply b' Hb Hu (λ F, False_ind _ F) Hr) as (Hb' & Hlb' & (rs & Hu')).
  assert (under_way A B False B reply have need) as Hu1.
  { exists rs. destruct Hu' as (? & ? & Hf & ? & ?). split_and!; try done. by eapply faithful_weaken; [|exact Hf]. }
  destruct (initiator_succeeds a reply have need) as (next & h & nd & a' & Hw & Hwa' & Hnext); [done..|].
  destruct (initiator_round hash_order hash_order_perm A B A_size A_timely AB_unique False
    a reply have need next h nd a' Ha Hu1 (λ F, False_ind _ F) Hw) as (Ha' & Hla' & Hu2).
  cbn [drive]. rewrite Hr. cbn [mbind result_bind]. rewrite Hw. cbn [mbind result_bind].
  destruct next as [m|]; [|by eexists]. apply IH; rewrite ?Hla', ?Hlb', ?Hwa', ?Hwb'; try done.
  destruct Hu2 as (rs' & ? & ? & Hf & ? & ?). exists rs'. split_and!; try done.
  by eapply faithful_weaken; [|exact Hf].
Qed.
End drive.

Section drive_property.
Context {SH : Sha256} {SHL : Sha256Laws} (hash_order : list bytes → list bytes).
Context {SA SB : Type} {STA : Storage SA} {STB : Storage SB}.
Context {validA : SA → Prop} {contentsA : SA → list Item} {SLA : StorageLaws SA validA contentsA}.
Context {validB : SB → Prop} {contentsB : SB → list Item} {SLB : StorageLaws SB validB contentsB}.

(** C10. No call of a session fails: with frame limits that keep every message
    within what a peer reads, the first message is written and any number of
    rounds after it run without an error, whatever items the two sides hold, with
    unique ids and timestamps below the greatest one. *)
Theorem session_never_fails sa sb la lb a0 b0 fuel :
  (∀ l, hash_order l ≡ₚ l) → validA sa → validB sb →
  u64_ok (len (contentsA sa)) → u64_ok (len (contentsB sb)) →
  Forall timely (contentsA sa) → Forall timely (contentsB sb) →
  ids_unique (contentsA sa) (contentsB sb) → readable_limit la → readable_limit lb →
  Negentropy_new sa la = Ok a0 → Negentropy_new sb lb = Ok b0 →
  ∃ msg a r, initiate a0 = Ok (msg, a) ∧ drive hash_order fuel a b0 msg [] [] = Ok r.
Proof.
  intros Hperm Hva Hvb Hsa Hsb Hta Htb Hun Hla Hlb Ha Hb.
  unfold Negentropy_new in Ha, Hb. destruct (_ && _) in Ha; [done|]. destruct (_ && _) in Hb; [done|].
  injection Ha as <-. injection Hb as <-.
  edestruct (initiate_ok (contents:=contentsA) (mkNegentropy sa la false 0 0 0 MAX_RECONCILE_WORK))
    as (rs & a' & Hinit & Hok & Hf & Hopen & Hlen & Hst & Hfl & Hini & Hwl); [done..|].
  cbn [storage frame_size_limit work_limit] in *.
  destruct (drive_succeeds hash_order (validA:=validA) (validB:=validB) Hperm (contentsA sa) (contentsB sb)
    Hsa Hsb Hta Htb Hun fuel a' (mkNegentropy sb lb false 0 0 0 MAX_RECONCILE_WORK)
    (PROTOCOL_VERSION :: message_bytes 0 rs) [] []) as [r Hr]; rewrite ?Hfl, ?Hwl; try done.
  - unfold initiator_of. by rewrite Hst.
  - by apply under_way_start.
  - unfold MAX_RECONCILE_INPUT_BYTES. cbn [length]. lia.
  - by eexists _, _, _.
Qed.
End drive_property.

(** ** Witnesses *)

Lemma reconcile_within_limits_witness :
  match reconcile_aux (λ l, l) left_peer (PROTOCOL_VERSION :: message_bytes 0 [mkRange max_bound (PIdList [])])
          [] [] with
  | Ok (output, _, _, n) => (8192 ≠ 0 → len output ≤ 8192) ∧ work n < MAX_RECONCILE_WORK + WORK_SLACK
  | Err _ => False
  end.
Proof.
  destruct (reconcile_aux _ _ _ _ _) as [[[[output have] need] n]|] eqn:H; [|by vm_compute in H].
  apply (reconcile_within_limits (valid:=Vector_valid) (contents:=items) (λ l, l) left_peer left_valid) in H;
    [exact H|by right|done].
Defined.

Lemma session_never_fails_witness :
  ∃ msg a r, initiate left_peer = Ok (msg, a) ∧ drive (λ l, l) 5 a right_peer msg [] [] = Ok r.
Proof.
  apply (session_never_fails (λ l, l) left_vector right_vector 8192 8192 left_peer right_peer);
    [done|apply left_valid|apply right_valid|by vm_compute|by vm_compute|by repeat constructor..
    |apply sample_unique|by vm_compute|by vm_compute|done|done].
Defined.
