(* ===== verification/DbKeys.v ===== *)
(** * Database keys: crates/wok-db/src/{error,comparators,schema}.rs and the
    codec of rocks/mod.rs

    The tables of the database, the comparators that order their keys, and the
    encoding of a logical key with its duplicate as one byte string whose plain
    byte order is the order of the table.  A position [at] in a byte string that
    is read from the front is the suffix that is left; native byte order is
    little endian, as on the platforms the relay is built for. *)

From S2P Require Import Prelude Json.

Local Open Scope Z_scope.

(** ** error.rs *)

Inductive DbError : Type :=
| Lmdb (rc : Z) (m : text)
| DbMessage (m : text)
| DbEvent (e : EventError).

Definition DbError_msg (m : string) : DbError := DbMessage (Text m []).

(** ** comparators.rs *)

(** [bytes] has eight bytes or more: the source panics on fewer. *)
Definition u64_from_ne (b : bytes) : Z := from_ne_bytes (take 8 b).

Definition u64_from_ne_checked (b : bytes) : result DbError Z :=
  if decide (length b = 8%nat) then Ok (u64_from_ne b)
  else Err (DbError_msg "u64 key/value has unexpected length (corrupt index?)").

(** [k.split_at(k.len() - n)] *)
Definition split_tail (n : nat) (k : bytes) : bytes * bytes :=
  (take (length k - n) k, drop (length k - n) k).

Definition make_key_string_u64 (s : bytes) (n : Z) : bytes := s ++ to_ne_bytes n.

Definition parse_key_string_u64 (k : bytes) : result DbError (bytes * Z) :=
  if decide (length k < 8)%nat then Err (DbError_msg "StringUint64 key too short to parse")
  else let '(s, n) := split_tail 8 k in Ok (s, u64_from_ne n).

Definition make_key_u64_u64 (n1 n2 : Z) : bytes := to_ne_bytes n1 ++ to_ne_bytes n2.

Definition parse_key_u64_u64 (k : bytes) : result DbError (Z * Z) :=
  if decide (length k = 16%nat) then
    Ok (u64_from_ne (slice 0 8 k), u64_from_ne (slice 8 16 k))
  else Err (DbError_msg "Uint64Uint64 key too short/long to parse").

Definition make_key_string_u64_u64 (s : bytes) (n1 n2 : Z) : bytes :=
  s ++ to_ne_bytes n1 ++ to_ne_bytes n2.

Definition parse_key_string_u64_u64 (k : bytes) : result DbError (bytes * Z * Z) :=
  if decide (length k < 16)%nat then
    Err (DbError_msg "StringUint64Uint64 key too short to parse")
  else let '(s, rest) := split_tail 16 k in
       Ok (s, u64_from_ne (slice 0 8 rest), u64_from_ne (slice 8 16 rest)).

Definition cmp_memn (a b : bytes) : comparison :=
  let n := Nat.min (length a) (length b) in
  match bytes_cmp (take n a) (take n b) with
  | Eq => Nat.compare (length a) (length b)
  | o => o
  end.

Definition cmp_string_u64 (a b : bytes) : comparison :=
  match bool_decide (8 ≤ length a)%nat, bool_decide (8 ≤ length b)%nat with
  | false, false => cmp_memn a b
  | false, true => Lt
  | true, false => Gt
  | true, true =>
      let '(a_s, a_n) := split_tail 8 a in
      let '(b_s, b_n) := split_tail 8 b in
      match cmp_memn a_s b_s with
      | Eq => u64_from_ne a_n ?= u64_from_ne b_n
      | o => o
      end
  end.

Definition cmp_u64_u64 (a b : bytes) : comparison :=
  match bool_decide (length a = 16)%nat, bool_decide (length b = 16)%nat with
  | false, false => cmp_memn a b
  | false, true => Lt
  | true, false => Gt
  | true, true =>
      match u64_from_ne (slice 0 8 a) ?= u64_from_ne (slice 0 8 b) with
      | Eq => u64_from_ne (slice 8 16 a) ?= u64_from_ne (slice 8 16 b)
      | o => o
      end
  end.

Definition cmp_string_u64_u64 (a b : bytes) : comparison :=
  match bool_decide (16 ≤ length a)%nat, bool_decide (16 ≤ length b)%nat with
  | false, false => cmp_memn a b
  | false, true => Lt
  | true, false => Gt
  | true, true =>
      let '(a_s, a_n) := split_tail 16 a in
      let '(b_s, b_n) := split_tail 16 b in
      match cmp_memn a_s b_s with
      | Eq =>
          match u64_from_ne (slice 0 8 a_n) ?= u64_from_ne (slice 0 8 b_n) with
          | Eq => u64_from_ne (slice 8 16 a_n) ?= u64_from_ne (slice 8 16 b_n)
          | o => o
          end
      | o => o
      end
  end.

(** ** schema.rs *)

Definition MDB_REVERSEKEY : Z := 0x02.
Definition MDB_DUPSORT : Z := 0x04.
Definition MDB_INTEGERKEY : Z := 0x08.
Definition MDB_DUPFIXED : Z := 0x10.
Definition MDB_INTEGERDUP : Z := 0x20.
Definition MDB_CREATE : Z := 0x40000.

Variant ComparatorKind : Type :=
| CmpDefault | StringUint64 | Uint64Uint64 | StringUint64Uint64.

#[export] Instance ComparatorKind_eq_dec : EqDecision ComparatorKind.
Proof. solve_decision. Defined.

Record DbiSpec : Type := mkDbiSpec {
  dbi_name : string;
  dbi_flags : Z;
  dbi_comparator : ComparatorKind;
}.

Definition DUP : Z := Z.lor (Z.lor (Z.lor MDB_CREATE MDB_DUPSORT) MDB_INTEGERDUP) MDB_DUPFIXED.
Definition INT : Z := Z.lor MDB_CREATE MDB_INTEGERKEY.
Definition DUP_INTKEY : Z := Z.lor DUP MDB_INTEGERKEY.

Definition DBI_EVENT : string := "rasgueadb_defaultDb__Event".
Definition DBI_EVENT_PAYLOAD : string := "rasgueadb_defaultDb__EventPayload".

Definition dbi_specs : list DbiSpec := [
  mkDbiSpec "rasgueadb_defaultDb__Meta" INT CmpDefault;
  mkDbiSpec "rasgueadb_defaultDb__NegentropyFilter" INT CmpDefault;
  mkDbiSpec DBI_EVENT INT CmpDefault;
  mkDbiSpec "rasgueadb_defaultDb__Event__id" DUP StringUint64;
  mkDbiSpec "rasgueadb_defaultDb__Event__pubkeyKind" DUP StringUint64Uint64;
  mkDbiSpec "rasgueadb_defaultDb__Event__tag" DUP StringUint64;
  mkDbiSpec "rasgueadb_defaultDb__Event__deletion" DUP CmpDefault;
  mkDbiSpec "rasgueadb_defaultDb__Event__replace" DUP CmpDefault;
  mkDbiSpec "rasgueadb_defaultDb__Event__created_at" DUP_INTKEY CmpDefault;
  mkDbiSpec "rasgueadb_defaultDb__Event__pubkey" DUP StringUint64;
  mkDbiSpec "rasgueadb_defaultDb__Event__replaceDeletion" DUP CmpDefault;
  mkDbiSpec "rasgueadb_defaultDb__Event__kind" DUP Uint64Uint64;
  mkDbiSpec "rasgueadb_defaultDb__Event__expiration" DUP_INTKEY CmpDefault;
  mkDbiSpec "rasgueadb_defaultDb__CompressionDictionary" INT CmpDefault;
  mkDbiSpec DBI_EVENT_PAYLOAD INT CmpDefault;
  mkDbiSpec "negentropy" (Z.lor MDB_CREATE MDB_REVERSEKEY) CmpDefault;
  mkDbiSpec "wok_Event__search" DUP CmpDefault;
  mkDbiSpec "wok_VanishPubkey" MDB_CREATE CmpDefault;
  mkDbiSpec "wok_Moderation" MDB_CREATE CmpDefault;
  mkDbiSpec "wok_State" MDB_CREATE CmpDefault;
  mkDbiSpec "wok_Event__tagKind" DUP StringUint64Uint64;
  mkDbiSpec "wok_Event__tagKindBuild" MDB_CREATE CmpDefault ].

(** ** rocks/mod.rs *)

Definition COVER_DBI : Z := 23.

(** [format!("rocksdb: {e}")] *)
Definition rocks_err (e : text) : DbError := DbMessage (Text "rocksdb: {e}" [e]).
Definition rocks_msg (e : string) : DbError := rocks_err (Text e []).

Definition validate_dbi (dbi : Z) : result DbError unit :=
  if dbi =? COVER_DBI then Err (rocks_msg "covering index is absent in the coverless layout")
  else Ok tt.

(** The table numbers are the positions in [dbi_specs], from one; the source
    panics on another number, for which the model has a table without flags. *)
Definition spec (dbi : Z) : DbiSpec :=
  default (mkDbiSpec "" 0 CmpDefault)
    (dbi_specs !! (if dbi =? COVER_DBI then 9%nat else Z.to_nat (dbi - 1))).

Definition combined (dbi : Z) : bool := (dbi =? 3) || (dbi =? 15).

Definition COMBINED : string := "wok_events_combined_v1".
Definition COVERING : string := "wok_pubkey_covering_v1".
Definition HEAD_CF : string := "wok_author_frontiers_v1".

Definition cf_name (dbi : Z) : string :=
  if combined dbi then COMBINED
  else if dbi =? COVER_DBI then COVERING
  else dbi_name (spec dbi).

Definition physical_cf_names : list string :=
  ["default"; COMBINED] ++ [HEAD_CF] ++
  (dbi_name <$>
    filter (λ s, dbi_name s ≠ DBI_EVENT ∧ dbi_name s ≠ DBI_EVENT_PAYLOAD) dbi_specs).

(** [spec(dbi).flags & f != 0] *)
Definition has_flag (dbi f : Z) : bool := negb (Z.land (dbi_flags (spec dbi)) f =? 0).

Definition reversed (dbi : Z) : bool := has_flag dbi MDB_DUPSORT.

(** [!b] of a byte *)
Definition not8 (b : Z) : Z := 255 - b.

(** The loop pops from the end: [rev_prefix] is [out] from its last byte. *)
Fixpoint successor_loop (rev_prefix : bytes) : option bytes :=
  match rev_prefix with
  | [] => None
  | b :: out => if b =? 255 then successor_loop out else Some (rev (b + 1 :: out))
  end.

Definition successor (prefix : bytes) : option bytes := successor_loop (rev prefix).

Definition escape_byte (b : Z) : bytes := if b =? 0 then [0; 255] else [b].

Definition escape (raw : bytes) : bytes := (raw ≫= escape_byte) ++ [0; 0].

Fixpoint unescape (out raw : bytes) : result DbError (bytes * bytes) :=
  match raw with
  | [] => Err (rocks_msg "unterminated escaped key")
  | b :: raw =>
      if negb (b =? 0) then unescape (out ++ [b]) raw
      else match raw with
           | [] => Err (rocks_msg "truncated escaped key")
           | c :: raw =>
               if c =? 0 then Ok (out, raw)
               else if c =? 255 then unescape (out ++ [0]) raw
               else Err (rocks_msg "invalid escaped key")
           end
  end.

Definition key_ints (c : ComparatorKind) : nat :=
  match c with
  | StringUint64 => 1
  | StringUint64Uint64 | Uint64Uint64 => 2
  | CmpDefault => 0
  end.

(** [u64::from_ne_bytes(n).to_be_bytes()] of each chunk of eight *)
Fixpoint chunks_be (n : nat) (b : bytes) : bytes :=
  match n with
  | O => []
  | S n => to_be_bytes 8 (from_ne_bytes (take 8 b)) ++ chunks_be n (drop 8 b)
  end.

Definition key_prefix (dbi : Z) (key : bytes) : bytes :=
  let s := spec dbi in
  let ints := key_ints (dbi_comparator s) in
  if negb (ints =? 0)%nat then
    let valid := bool_decide (ints * 8 ≤ length key)%nat &&
      (bool_decide (dbi_comparator s ≠ Uint64Uint64) || bool_decide (length key = 16%nat)) in
    let '(head, tail) := split_tail (ints * 8) key in
    if negb valid then 0 :: escape key
    else 1 :: (if decide (dbi_comparator s ≠ Uint64Uint64) then escape head else [])
           ++ chunks_be ints tail
  else if has_flag dbi MDB_INTEGERKEY then
    if decide (length key = 8%nat) then 1 :: to_be_bytes 8 (from_ne_bytes key)
    else 0 :: escape key
  else if has_flag dbi MDB_REVERSEKEY then escape (rev key)
  else escape key.

Definition encode_dup (dbi : Z) (dup : option bytes) : bytes :=
  match dup with
  | None => []
  | Some v =>
      if has_flag dbi MDB_INTEGERDUP && bool_decide (length v = 8%nat) then
        1 :: to_be_bytes 8 (from_ne_bytes v)
      else (if has_flag dbi MDB_INTEGERDUP then [0] else []) ++ escape v
  end.

Definition encode (dbi : Z) (key : bytes) (dup : option bytes) : bytes :=
  let out := key_prefix dbi key ++ encode_dup dbi dup in
  if reversed dbi then not8 <$> out else out.

(** [raw.get(at..at + 8)], read big endian and written in native order *)
Definition take_u64 (e : string) (raw : bytes) : result DbError (bytes * bytes) :=
  if decide (8 ≤ length raw)%nat then
    Ok (to_ne_bytes (from_be_bytes (take 8 raw)), drop 8 raw)
  else Err (rocks_msg e).

Fixpoint take_ints (n : nat) (key raw : bytes) : result DbError (bytes * bytes) :=
  match n with
  | O => Ok (key, raw)
  | S n =>
      '(b, raw) ← take_u64 "truncated integer key" raw;
      take_ints n (key ++ b) raw
  end.

Definition decode_key (dbi : Z) (raw : bytes) : result DbError (bytes * bytes) :=
  let s := spec dbi in
  let ints := key_ints (dbi_comparator s) in
  if negb (ints =? 0)%nat || has_flag dbi MDB_INTEGERKEY then
    match raw with
    | [] => Err (rocks_msg "empty key")
    | valid :: raw =>
        if valid =? 0 then unescape [] raw
        else if valid =? 1 then
          '(key, raw) ← (if negb (ints =? 0)%nat &&
                             bool_decide (dbi_comparator s ≠ Uint64Uint64)
                         then unescape [] raw else Ok ([], raw));
          take_ints (Nat.max ints 1) key raw
        else Err (rocks_msg "invalid key header")
    end
  else
    '(key, raw) ← unescape [] raw;
    Ok (if has_flag dbi MDB_REVERSEKEY then rev key else key, raw).

Definition decode_dup (dbi : Z) (raw value : bytes) : result DbError (bytes * bytes) :=
  if has_flag dbi MDB_DUPSORT then
    if has_flag dbi MDB_INTEGERDUP then
      match raw with
      | [] => Err (rocks_msg "missing duplicate header")
      | valid :: raw =>
          if valid =? 0 then unescape [] raw
          else if valid =? 1 then take_u64 "truncated duplicate" raw
          else Err (rocks_msg "invalid duplicate header")
      end
    else unescape [] raw
  else Ok (value, raw).

Definition decode (dbi : Z) (raw value : bytes) : result DbError (bytes * bytes) :=
  let raw := if reversed dbi then not8 <$> raw else raw in
  '(key, raw) ← decode_key dbi raw;
  '(val, raw) ← decode_dup dbi raw value;
  if decide (raw = []) then Ok (key, val) else Err (rocks_msg "trailing key bytes").

(** The two components of an event under one key. *)
Record EventRecord : Type := mkEventRecord {
  r_packed : option bytes;
  r_payload : option bytes;
}.

Definition EventRecord_default : EventRecord := mkEventRecord None None.

Definition part (raw : bytes) : result DbError (option bytes * bytes) :=
  if decide (length raw < 4)%nat then Err (rocks_msg "short combined record")
  else
    let n := from_le_bytes (take 4 raw) in
    let raw := drop 4 raw in
    if n =? U32_MAX then Ok (None, raw)
    else if len raw <? n then Err (rocks_msg "short combined component")
    else Ok (Some (take (Z.to_nat n) raw), drop (Z.to_nat n) raw).

Definition parts (raw : bytes) : result DbError (option bytes * option bytes) :=
  '(a, raw) ← part raw;
  '(b, raw) ← part raw;
  if decide (raw = []) then Ok (a, b) else Err (rocks_msg "trailing combined bytes").

Definition EventRecord_decode (raw : bytes) : result DbError EventRecord :=
  '(packed, payload) ← parts raw; Ok (mkEventRecord packed payload).

(** [v.len() as u32] *)
Definition encode_part (v : option bytes) : bytes :=
  match v with
  | None => to_le_bytes 4 U32_MAX
  | Some v => to_le_bytes 4 (wrap32 (len v)) ++ v
  end.

Definition EventRecord_encode (r : EventRecord) : bytes :=
  encode_part (r_packed r) ++ encode_part (r_payload r).
