(* ===== verification/Search.v ===== *)
(** * Search text: the terms of wok-db's search.rs

    How a text is cut into normalized terms, which of them an event is indexed
    by, and how a NIP-50 query is read.  The tables behind Rust's [char] methods
    are the class [UnicodeChars]. *)

From S2P Require Import Prelude Utf8 DbKeys.

Local Open Scope Z_scope.

Definition MAX_INDEXED_TERM_BYTES : nat := 64.
Definition MAX_SEARCH_QUERY_BYTES : Z := 1024.
Definition MAX_SEARCH_TERMS : nat := 16.
Definition MAX_INDEXED_UNIQUE_TERMS : nat := 256.
Definition TERM_PREFIX : Z := 1.

(** [char::is_alphanumeric], [char::is_whitespace] and [char::to_lowercase]. *)
Class UnicodeChars : Type := {
  is_alphanumeric : Z → bool;
  is_whitespace : Z → bool;
  to_lowercase : Z → list Z;
}.


Record SearchQuery : Type := mkSearchQuery {
  terms : list bytes;
  phrase_terms : list bytes;
  phrase : bytes;
}.

(** A [HashSet<String>]. *)
Abbreviation SearchTermSet := (gset bytes).

Section search.
Context {UC : UnicodeChars}.

(** ** Terms *)

(** The closure [finish]: report the word, if there is one. *)
Definition finish {S} (f : S → option bytes → S * bool) (s : S) (current : bytes) : S * bool :=
  match current with
  | [] => (s, true)
  | _ => f s (if (length current <=? MAX_INDEXED_TERM_BYTES)%nat then Some current else None)
  end.

Fixpoint for_each_term_loop {S} (f : S → option bytes → S * bool) (s : S) (current : bytes)
    (cs : list Z) : S * bool :=
  match cs with
  | [] => finish f s current
  | c :: cs =>
      if is_alphanumeric c then
        for_each_term_loop f s (current ++ from_chars (to_lowercase c)) cs
      else
        let '(s, more) := finish f s current in
        if more then for_each_term_loop f s [] cs else (s, false)
  end.

Definition for_each_term {S} (f : S → option bytes → S * bool) (s : S) (text : bytes) : S * bool :=
  for_each_term_loop f s [] (chars text).

Definition normalize_search_terms_with_overflow (text : bytes) : list bytes * bool :=
  fst (for_each_term (λ '(terms, overflow) term,
         match term with
         | Some term => ((terms ++ [term], overflow), true)
         | None => ((terms, true), true)
         end) ([], false) text).

Definition normalize_search_terms (text : bytes) : list bytes :=
  fst (normalize_search_terms_with_overflow text).

Fixpoint for_each_document_term {S} (f : S → option bytes → S * bool) (s : S)
    (document : list bytes) : S :=
  match document with
  | [] => s
  | text :: document =>
      let '(s, more) := for_each_term f s text in
      if negb more then s
      else let '(s, more) := f s None in
           if negb more then s else for_each_document_term f s document
  end.

Definition indexed_term (terms : SearchTermSet) (term : option bytes) : SearchTermSet * bool :=
  let terms :=
    match term with
    | Some term => if bool_decide (term ∈ terms) then terms else {[term]} ∪ terms
    | None => terms
    end in
  (terms, (size terms <? MAX_INDEXED_UNIQUE_TERMS)%nat).

Definition indexed_terms (document : list bytes) : SearchTermSet :=
  for_each_document_term indexed_term ∅ document.

Definition search_term_set (content : bytes) : SearchTermSet := indexed_terms [content].

Definition term_key (term : bytes) : bytes := TERM_PREFIX :: term.

(** ** Queries *)

(** [str::split_whitespace] *)
Fixpoint split_whitespace_loop (current : bytes) (cs : list Z) : list bytes :=
  match cs with
  | [] => match current with [] => [] | _ => [current] end
  | c :: cs =>
      if is_whitespace c then
        match current with
        | [] => split_whitespace_loop [] cs
        | _ => current :: split_whitespace_loop [] cs
        end
      else split_whitespace_loop (current ++ from_chars [c]) cs
  end.

Definition split_whitespace (s : bytes) : list bytes := split_whitespace_loop [] (chars s).

(** A word is searched for unless it is a [key:value] extension. *)
Definition free_word (word : bytes) : bool :=
  match split_once (ch ":") word with
  | None => true
  | Some (key, value) => bool_decide (key = []) || bool_decide (value = [])
  end.

(** [join] with a space *)
Fixpoint join_space (l : list bytes) : bytes :=
  match l with
  | [] => []
  | [x] => x
  | x :: l => x ++ ch " " :: join_space l
  end.

Definition parse_search_query (input : bytes) : result DbError SearchQuery :=
  if len input >? MAX_SEARCH_QUERY_BYTES then
    Err (DbMessage (Text "search query exceeds {MAX_SEARCH_QUERY_BYTES} bytes"
                      [TNum MAX_SEARCH_QUERY_BYTES]))
  else
    let free_text := join_space (filter free_word (split_whitespace input)) in
    let '(ordered, term_overflow) := normalize_search_terms_with_overflow free_text in
    if term_overflow then
      Err (DbMessage (Text "search term exceeds {MAX_INDEXED_TERM_BYTES} bytes"
                        [TNum (Z.of_nat MAX_INDEXED_TERM_BYTES)]))
    else if bool_decide (ordered = []) then
      Err (DbError_msg "search query has no searchable terms")
    else if (MAX_SEARCH_TERMS <? length ordered)%nat then
      Err (DbMessage (Text "search query exceeds {MAX_SEARCH_TERMS} terms"
                        [TNum (Z.of_nat MAX_SEARCH_TERMS)]))
    else
      Ok (mkSearchQuery (vec_dedup (slice_sort bytes_cmp ordered)) ordered (join_space ordered)).
End search.

(** ** Reference definitions *)

(** Feed a list to a callback until it says stop. *)
Fixpoint feed {S A} (f : S → A → S * bool) (s : S) (l : list A) : S * bool :=
  match l with
  | [] => (s, true)
  | x :: l => let '(s, more) := f s x in if more then feed f s l else (s, false)
  end.

(** The elements of a list that are not in [seen], each once, in order. *)
Fixpoint fresh (seen : SearchTermSet) (l : list bytes) : list bytes :=
  match l with
  | [] => []
  | t :: l => if bool_decide (t ∈ seen) then fresh seen l else t :: fresh ({[t]} ∪ seen) l
  end.

Definition somes : list (option bytes) → list bytes := omap (λ o, o).

Section lemmas.
Context {UC : UnicodeChars}.

(** The words of a text, [None] for one that is too long. *)
Definition word (current : bytes) : list (option bytes) :=
  match current with
  | [] => []
  | _ => [if (length current <=? MAX_INDEXED_TERM_BYTES)%nat then Some current else None]
  end.

Fixpoint words (current : bytes) (cs : list Z) : list (option bytes) :=
  match cs with
  | [] => word current
  | c :: cs =>
      if is_alphanumeric c then words (current ++ from_chars (to_lowercase c)) cs
      else word current ++ words [] cs
  end.

(** ** Lemmas *)

Lemma feed_app {S A} (f : S → A → S * bool) s l k :
  feed f s (l ++ k) = let '(s, more) := feed f s l in if more then feed f s k else (s, false).
Proof.
  revert s. induction l as [|x l IH]; intros s; cbn; [done|].
  destruct (f s x) as [s' []]; [apply IH|done].
Qed.

Lemma finish_feed {S} (f : S → option bytes → S * bool) s current :
  finish f s current = feed f s (word current).
Proof. destruct current; cbn; [done|]. by destruct (f _ _) as [s' []]. Qed.

Lemma for_each_term_loop_feed {S} (f : S → option bytes → S * bool) s current cs :
  for_each_term_loop f s current cs = feed f s (words current cs).
Proof.
  revert s current. induction cs as [|c cs IH]; intros s current; cbn; [apply finish_feed|].
  destruct (is_alphanumeric c); [apply IH|].
  rewrite finish_feed, feed_app. destruct (feed f s (word current)) as [s' []]; [apply IH|done].
Qed.

Lemma for_each_term_feed {S} (f : S → option bytes → S * bool) s text :
  for_each_term f s text = feed f s (words [] (chars text)).
Proof. apply for_each_term_loop_feed. Qed.

Lemma for_each_document_term_feed {S} (f : S → option bytes → S * bool) s document :
  for_each_document_term f s document =
    fst (feed f s (document ≫= λ text, words [] (chars text) ++ [None])).
Proof.
  revert s. induction document as [|text document IH]; intros s; [done|].
  cbn [for_each_document_term]. rewrite bind_cons, <- (assoc_L (++)), !feed_app, for_each_term_feed.
  destruct (feed f s (words [] (chars text))) as [s' []]; cbn [negb fst feed app]; [|done].
  destruct (f s' None) as [s'' []]; cbn [negb fst]; [|done]. apply IH.
Qed.

Lemma normalize_terms_words text :
  normalize_search_terms text = somes (words [] (chars text)).
Proof.
  unfold normalize_search_terms, normalize_search_terms_with_overflow. rewrite for_each_term_feed.
  assert (∀ l ts o, fst (fst (feed (λ '(terms, overflow) term,
      match term with
      | Some term => ((terms ++ [term], overflow), true)
      | None => ((terms, true), true)
      end) (ts, o) l)) = ts ++ somes l) as H.
  { induction l as [|[t|] l IH]; intros ts o; cbn; [by rewrite app_nil_r| |].
    - rewrite IH. by rewrite <- (assoc_L (++)).
    - apply IH. }
  by rewrite H.
Qed.

(** Taking terms up to the limit takes the first that are new. *)
Lemma feed_indexed_term T l :
  (size T < MAX_INDEXED_UNIQUE_TERMS)%nat →
  fst (feed indexed_term T l) =
    T ∪ list_to_set (take (MAX_INDEXED_UNIQUE_TERMS - size T) (fresh T (somes l))).
Proof.
  revert T. induction l as [|[t|] l IH]; intros T HT.
  - cbn. rewrite take_nil. set_solver.
  - change (somes (Some t :: l)) with (t :: somes l). cbn [fresh feed indexed_term].
    destruct (bool_decide (t ∈ T)) eqn:E; bool_to_prop.
    + rewrite (proj2 (Nat.ltb_lt _ _) HT). by apply IH.
    + assert (size ({[t]} ∪ T) = S (size T)) as Hs by (rewrite size_union, size_singleton by set_solver; lia).
      rewrite Hs. destruct (MAX_INDEXED_UNIQUE_TERMS - size T)%nat as [|k] eqn:Hk; [lia|].
      cbn [take firstn list_to_set]. destruct (Nat.ltb_spec (S (size T)) MAX_INDEXED_UNIQUE_TERMS).
      * rewrite IH by lia. rewrite Hs. replace (MAX_INDEXED_UNIQUE_TERMS - S (size T))%nat with k by lia.
        set_solver.
      * assert (k = 0%nat) as -> by lia. cbn. set_solver.
  - change (somes (None :: l)) with (somes l). cbn [feed]. unfold indexed_term at 1.
    rewrite (proj2 (Nat.ltb_lt _ _) HT). by apply IH.
Qed.

Lemma size_list_to_set_le (l : list bytes) : (size (list_to_set l : SearchTermSet) ≤ length l)%nat.
Proof.
  induction l as [|x l IH]; cbn [list_to_set length]; [rewrite size_empty; lia|].
  rewrite size_union_alt, size_singleton.
  pose proof (subseteq_size ((list_to_set l : SearchTermSet) ∖ {[x]}) (list_to_set l) ltac:(set_solver)). lia.
Qed.

(** C35. The terms an event is indexed by are the first [MAX_INDEXED_UNIQUE_TERMS]
    distinct normalized terms of its text, in document order, so a stored event and
    a live one match the same searches and one event adds at most that many
    postings. *)
Theorem indexed_terms_first_distinct document :
  indexed_terms document =
    list_to_set (take MAX_INDEXED_UNIQUE_TERMS (fresh ∅ (document ≫= normalize_search_terms))) ∧
  (size (indexed_terms document) ≤ MAX_INDEXED_UNIQUE_TERMS)%nat.
Proof.
  assert (somes (document ≫= λ text, words [] (chars text) ++ [None]) =
          document ≫= normalize_search_terms) as Ho.
  { induction document as [|text document IH]; [done|].
    rewrite !bind_cons. unfold somes in *. rewrite !omap_app, IH, normalize_terms_words. cbn. by rewrite app_nil_r. }
  assert (indexed_terms document =
    list_to_set (take MAX_INDEXED_UNIQUE_TERMS (fresh ∅ (document ≫= normalize_search_terms)))) as Heq.
  { unfold indexed_terms. rewrite for_each_document_term_feed, feed_indexed_term, Ho.
    - rewrite size_empty, Nat.sub_0_r. set_solver.
    - rewrite size_empty. unfold MAX_INDEXED_UNIQUE_TERMS. lia. }
  split; [done|]. rewrite Heq. etrans; [apply size_list_to_set_le|]. rewrite length_take. lia.
Qed.
End lemmas.
