(* ===== verification/BTreeMap.v ===== *)
(** * BTreeMap: the ordered map of Rust's standard library

    A list of entries in strictly increasing order of their keys, with the
    operations the program uses. *)

From S2P Require Import Prelude.

Section btree.
Context {K V : Type} (cmp : K → K → comparison).

(** [BTreeMap::insert] *)
Fixpoint bt_insert (m : list (K * V)) (k : K) (v : V) : list (K * V) :=
  match m with
  | [] => [(k, v)]
  | (k', v') :: m' =>
      match cmp k k' with
      | Lt => (k, v) :: m
      | Eq => (k, v) :: m'
      | Gt => (k', v') :: bt_insert m' k v
      end
  end.

(** [BTreeMap::get] *)
Fixpoint bt_get (m : list (K * V)) (k : K) : option V :=
  match m with
  | [] => None
  | (k', v) :: m => match cmp k k' with Eq => Some v | _ => bt_get m k end
  end.

(** [BTreeMap::contains_key] *)
Definition bt_contains_key (m : list (K * V)) (k : K) : bool :=
  match bt_get m k with Some _ => true | None => false end.

(** [get_mut] followed by an update of the value, when there is one *)
Definition bt_update (f : V → V) (m : list (K * V)) (k : K) : list (K * V) :=
  (λ '(k', v), (k', match cmp k k' with Eq => f v | _ => v end)) <$> m.

Definition bt_sorted (m : list (K * V)) : Prop := StronglySorted (cmp_lt cmp) (m.*1).

(** ** Lemmas *)

Context `{!TotalCmp cmp}.

Lemma bt_insert_keys m k v k' : k' ∈ (bt_insert m k v).*1 → k' = k ∨ k' ∈ m.*1.
Proof.
  induction m as [|[a b] m IH]; cbn; [set_solver|].
  destruct (cmp k a); cbn; set_solver.
Qed.

Lemma bt_insert_sorted m k v : bt_sorted m → bt_sorted (bt_insert m k v).
Proof.
  unfold bt_sorted. induction m as [|[a b] m IH]; cbn; [by repeat constructor|].
  intros [Hs Hf]%StronglySorted_inv. destruct (cmp k a) eqn:E; cbn.
  - apply cmp_eq_iff in E as ->. by constructor.
  - constructor; [by constructor|]. constructor; [done|].
    eapply Forall_impl; [exact Hf|]. intros x Hx. by eapply cmp_lt_trans.
  - constructor; [by apply IH|]. apply Forall_forall. intros x [-> |Hx]%bt_insert_keys.
    + by apply (cmp_gt_lt cmp).
    + by eapply Forall_forall in Hf.
Qed.

Lemma bt_get_insert m k v k' :
  bt_get (bt_insert m k v) k' = match cmp k' k with Eq => Some v | _ => bt_get m k' end.
Proof.
  induction m as [|[a b] m IH]; cbn; [done|]. destruct (cmp k a) eqn:E; cbn.
  - apply cmp_eq_iff in E as ->. by destruct (cmp k' a).
  - done.
  - rewrite IH. destruct (cmp k' k) eqn:E'; [|done..].
    apply cmp_eq_iff in E' as ->. by rewrite E.
Qed.

Lemma bt_get_elem m k v : bt_sorted m → bt_get m k = Some v ↔ (k, v) ∈ m.
Proof.
  unfold bt_sorted. induction m as [|[a b] m IH]; cbn; [set_solver|].
  intros [Hs Hf]%StronglySorted_inv. rewrite elem_of_cons, <- (IH Hs).
  destruct (cmp k a) eqn:E.
  - apply cmp_eq_iff in E as ->. split; [intros [= ->]; by left|].
    intros [[= ->]|Hm]; [done|]. apply IH in Hm; [|done].
    eapply Forall_forall in Hf; [|by apply (list_elem_of_fmap_2' fst _ (a, v))].
    by apply (irreflexivity (cmp_lt cmp)) in Hf.
  - split; [by right|]. intros [[= -> ->]|?]; [|done]. by rewrite (cmp_refl cmp) in E.
  - split; [by right|]. intros [[= -> ->]|?]; [|done]. by rewrite (cmp_refl cmp) in E.
Qed.

Lemma bt_update_keys f m k : (bt_update f m k).*1 = m.*1.
Proof. unfold bt_update. rewrite <- list_fmap_compose. apply list_fmap_ext. by intros i [a b] _. Qed.

Lemma bt_get_update f m k k' :
  bt_get (bt_update f m k) k' = match cmp k k' with Eq => f <$> bt_get m k' | _ => bt_get m k' end.
Proof.
  induction m as [|[a b] m IH]; cbn; [by destruct (cmp k k')|].
  destruct (cmp k' a) eqn:E.
  - apply cmp_eq_iff in E as ->. by destruct (cmp k a).
  - apply IH.
  - apply IH.
Qed.

Lemma bt_filter_sorted (P : K * V → Prop) `{!∀ x, Decision (P x)} m : bt_sorted m → bt_sorted (filter P m).
Proof.
  unfold bt_sorted. induction m as [|[a b] m IH]; [done|]. cbn [fmap list_fmap].
  intros [Hs Hf]%StronglySorted_inv. rewrite filter_cons. case_decide; [|by apply IH].
  cbn [fmap list_fmap]. constructor; [by apply IH|]. apply Forall_forall.
  intros x ([k v] & -> & Hx)%list_elem_of_fmap. apply list_elem_of_filter in Hx as [_ Hx].
  eapply Forall_forall in Hf; [done|]. by apply (list_elem_of_fmap_2' fst _ (k, v)).
Qed.
End btree.
