(* ===== verification/Filter.v ===== *)
(** * Filters: wok-query's filter.rs and subid.rs

    Reading a NIP-01 filter from JSON, checking it against the relay's rules and
    matching it against a packed event.  The main result says that the compiled
    filter matches an event exactly when the JSON it was read from does. *)

From S2P Require Import Prelude Utf8 BTreeMap Json Crates Kinds Packed Search DbKeys.

Local Open Scope Z_scope.

(** ** Errors and subscription ids *)

Inductive FilterLimit : Type :=
| TagsPerFilter | AndEntries | KindsPerFilter | AllowedKinds | AuthorOrTag | ScopedFilters.

Inductive QueryError : Type :=
| QMessage (m : text)
| QUnsupported (m : text)
| QLimit (l : FilterLimit) (m : text).

Definition QueryError_msg (m : string) : QueryError := QMessage (Text m []).
Definition QueryError_fmt (m : string) (args : list text) : QueryError := QMessage (Text m args).
Definition QueryError_limit (l : FilterLimit) (m : string) : QueryError := QLimit l (Text m []).

Definition query_broken_limit (e : QueryError) : option FilterLimit :=
  match e with QLimit l _ => Some l | QMessage _ | QUnsupported _ => None end.

Definition reason_prefix (e : QueryError) : string :=
  match e with QMessage _ | QLimit _ _ => "invalid" | QUnsupported _ => "unsupported" end.

(** [Display] *)
Definition QueryError_text (e : QueryError) : text :=
  match e with QMessage m | QUnsupported m | QLimit _ m => m end.
Definition EventError_text (e : EventError) : text :=
  match e with Message m | Restricted m | Limit _ m => m end.
Definition DbError_text (e : DbError) : text :=
  match e with
  | Lmdb rc m => Text "lmdb error {0}: {1}" [TNum rc; m]
  | DbMessage m => m
  | DbEvent e => EventError_text e
  end.

Record SubId : Type := mkSubId { inner : bytes }.

#[export] Instance SubId_eq_dec : EqDecision SubId.
Proof. solve_decision. Defined.
#[export] Instance SubId_countable : Countable SubId.
Proof. apply (inj_countable' inner mkSubId). by intros []. Defined.

Definition SubId_new (val : bytes) : result QueryError SubId :=
  if bool_decide (val = []) || (MAX_SUBID_CHARS <? length (chars val))%nat
  then Err (QueryError_msg "invalid subscription id length")
  else Ok (mkSubId val).

(** ** Sets of values *)

Record FilterSetBytes : Type := mkFilterSetBytes {
  fsb_items : list bytes;
  fsb_originals : list (bytes * bytes);
}.

Record FilterSetUint : Type := mkFilterSetUint { fsu_items : list Z }.

Definition USIZE_MAX : Z := U64_MAX.

Section sets.
Context {HC : HexCrate} {SH : Sha256}.

(** One element of the array. *)
Definition filter_item (hex_decode : bool) (min_size max_size : Z)
    (st : list bytes * list (bytes * bytes)) (i : Value)
    : result QueryError (list bytes * list (bytes * bytes)) :=
  let '(items, originals) := st in
  s ← ok_or (as_str i) (QueryError_msg "filter item not a string");
  bs ← (if hex_decode
        then map_err (λ e, QMessage (EventError_text e)) (from_lower_hex_exact s)
        else Ok s);
  if len bs <? min_size then Err (QueryError_msg "filter item too small")
  else if len bs >? max_size then Err (QueryError_msg "filter item too large")
  else if (MAX_INDEXED_TAG_VAL_SIZE <? length bs)%nat then
    let hashed := indexed_tag_value bs in
    Ok (items ++ [hashed], bt_insert bytes_cmp originals hashed bs)
  else Ok (items ++ [bs], originals).

(** The bytes the filter gave for an item. *)
Definition original_of (originals : list (bytes * bytes)) (item : bytes) : bytes :=
  default item (bt_get bytes_cmp originals item).

Definition FilterSetBytes_parse (arr : Value) (hex_decode : bool) (min_size max_size : Z)
    : result QueryError FilterSetBytes :=
  arr ← ok_or (as_array arr) (QueryError_msg "not an array");
  '(items, originals) ← try_fold (filter_item hex_decode min_size max_size) ([], []) arr;
  let items := vec_dedup (slice_sort bytes_cmp items) in
  let total := foldr Z.add 0 ((λ item, len (original_of originals item)) <$> items) in
  if total >? 65535 then Err (QueryError_msg "total filter items too large")
  else Ok (mkFilterSetBytes items originals).

Definition FilterSetBytes_parse_tag_values (arr : Value) : result QueryError FilterSetBytes :=
  FilterSetBytes_parse arr false 0 USIZE_MAX.
End sets.

(** [items[n]]; the program asks only within the size *)
Definition FilterSetBytes_at (s : FilterSetBytes) (n : nat) : bytes := default [] (fsb_items s !! n).
Definition FilterSetBytes_original (s : FilterSetBytes) (n : nat) : bytes :=
  original_of (fsb_originals s) (FilterSetBytes_at s n).
Definition FilterSetBytes_size (s : FilterSetBytes) : nat := length (fsb_items s).

Definition is_found (r : nat + nat) : bool := match r with inl _ => true | inr _ => false end.

Definition FilterSetBytes_does_match (s : FilterSetBytes) (candidate : bytes) : bool :=
  is_found (binary_search_by (λ item, bytes_cmp item candidate) (fsb_items s)).

Definition FilterSetBytes_remove_all (s excluded : FilterSetBytes) : FilterSetBytes :=
  mkFilterSetBytes
    (filter (λ item, FilterSetBytes_does_match excluded item = false) (fsb_items s))
    (filter (λ e, FilterSetBytes_does_match excluded e.1 = false) (fsb_originals s)).

Definition kind_item (items : list Z) (i : Value) : result QueryError (list Z) :=
  n ← ok_or (as_u64 i) (QueryError_msg "kind not an unsigned integer");
  if n >? U16_MAX then Err (QueryError_msg "kind must be between 0 and 65535")
  else Ok (items ++ [n]).

Definition FilterSetUint_parse (arr : Value) : result QueryError FilterSetUint :=
  arr ← ok_or (as_array arr) (QueryError_msg "not an array");
  items ← try_fold kind_item [] arr;
  Ok (mkFilterSetUint (vec_dedup (slice_sort Z.compare items))).

Definition FilterSetUint_size (s : FilterSetUint) : nat := length (fsu_items s).

Definition FilterSetUint_does_match (s : FilterSetUint) (candidate : Z) : bool :=
  is_found (binary_search_by (λ item, item ?= candidate) (fsu_items s)).

(** ** Filters *)

Abbreviation tag_sets := (list (Z * FilterSetBytes)).

Record NostrFilter : Type := mkNostrFilter {
  f_ids : option FilterSetBytes;
  f_authors : option FilterSetBytes;
  f_kinds : option FilterSetUint;
  f_tags : tag_sets;
  f_and_tags : tag_sets;
  f_search : option SearchQuery;
  f_since : Z;
  f_until : Z;
  f_limit : Z;
  never_match : bool;
  index_only_scans : bool;
}.

Definition empty_filter : NostrFilter :=
  mkNostrFilter None None None [] [] None 0 U64_MAX U64_MAX false false.

Definition set_ids (f : NostrFilter) (s : FilterSetBytes) : NostrFilter :=
  mkNostrFilter (Some s) (f_authors f) (f_kinds f) (f_tags f) (f_and_tags f) (f_search f)
    (f_since f) (f_until f) (f_limit f) (never_match f) (index_only_scans f).
Definition set_authors (f : NostrFilter) (s : FilterSetBytes) : NostrFilter :=
  mkNostrFilter (f_ids f) (Some s) (f_kinds f) (f_tags f) (f_and_tags f) (f_search f)
    (f_since f) (f_until f) (f_limit f) (never_match f) (index_only_scans f).
Definition set_kinds (f : NostrFilter) (s : FilterSetUint) : NostrFilter :=
  mkNostrFilter (f_ids f) (f_authors f) (Some s) (f_tags f) (f_and_tags f) (f_search f)
    (f_since f) (f_until f) (f_limit f) (never_match f) (index_only_scans f).
Definition set_tags (f : NostrFilter) (t : tag_sets) : NostrFilter :=
  mkNostrFilter (f_ids f) (f_authors f) (f_kinds f) t (f_and_tags f) (f_search f)
    (f_since f) (f_until f) (f_limit f) (never_match f) (index_only_scans f).
Definition set_and_tags (f : NostrFilter) (t : tag_sets) : NostrFilter :=
  mkNostrFilter (f_ids f) (f_authors f) (f_kinds f) (f_tags f) t (f_search f)
    (f_since f) (f_until f) (f_limit f) (never_match f) (index_only_scans f).
Definition set_search (f : NostrFilter) (q : SearchQuery) : NostrFilter :=
  mkNostrFilter (f_ids f) (f_authors f) (f_kinds f) (f_tags f) (f_and_tags f) (Some q)
    (f_since f) (f_until f) (f_limit f) (never_match f) (index_only_scans f).
Definition set_since (f : NostrFilter) (t : Z) : NostrFilter :=
  mkNostrFilter (f_ids f) (f_authors f) (f_kinds f) (f_tags f) (f_and_tags f) (f_search f)
    t (f_until f) (f_limit f) (never_match f) (index_only_scans f).
Definition set_until (f : NostrFilter) (t : Z) : NostrFilter :=
  mkNostrFilter (f_ids f) (f_authors f) (f_kinds f) (f_tags f) (f_and_tags f) (f_search f)
    (f_since f) t (f_limit f) (never_match f) (index_only_scans f).
Definition set_limit (f : NostrFilter) (n : Z) : NostrFilter :=
  mkNostrFilter (f_ids f) (f_authors f) (f_kinds f) (f_tags f) (f_and_tags f) (f_search f)
    (f_since f) (f_until f) n (never_match f) (index_only_scans f).
Definition set_never_match (f : NostrFilter) : NostrFilter :=
  mkNostrFilter (f_ids f) (f_authors f) (f_kinds f) (f_tags f) (f_and_tags f) (f_search f)
    (f_since f) (f_until f) (f_limit f) true (index_only_scans f).
Definition set_index_only (f : NostrFilter) (b : bool) : NostrFilter :=
  mkNostrFilter (f_ids f) (f_authors f) (f_kinds f) (f_tags f) (f_and_tags f) (f_search f)
    (f_since f) (f_until f) (f_limit f) (never_match f) b.

(** ** Parsing *)

Section parse.
Context {HC : HexCrate} {SH : Sha256} {UC : UnicodeChars}.

(** The error of a nested parser, with the key it was reading. *)
Definition parsing (what : text) {A} (r : result QueryError A) : result QueryError A :=
  map_err (λ e, QueryError_fmt "error parsing {}: {}" [what; QueryError_text e]) r.

(** An array for the key: [None] for an empty one. *)
Definition array_of (v : Value) (e : QueryError) : result QueryError (option (list Value)) :=
  match v with
  | Array [] => Ok None
  | Array a => Ok (Some a)
  | _ => Err e
  end.

(** [k.len() == 2] with a letter after the sign. *)
Definition tag_letter (k : bytes) : option Z :=
  match k with
  | [_; c] => if is_ascii_alphabetic c then Some c else None
  | _ => None
  end.

(** The values of a tag filter: [p] and [e] hold hex. *)
Definition parse_tag_set (tag : Z) (v : Value) : result QueryError FilterSetBytes :=
  if bool_decide (tag = ch "p") || bool_decide (tag = ch "e")
  then FilterSetBytes_parse v true 32 32
  else FilterSetBytes_parse_tag_values v.

(** One key of the filter object; the number counts the major fields. *)
Definition parse_key (st : NostrFilter * Z) (kv : bytes * Value) : result QueryError (NostrFilter * Z) :=
  let '(f, num_major_non_tag) := st in
  let '(k, v) := kv in
  if bool_decide (k = str "ids") then
    a ← array_of v (QueryError_msg "ids not an array");
    match a with
    | None => Ok (set_never_match f, num_major_non_tag)
    | Some _ =>
        s ← parsing (TBytes (str "ids")) (FilterSetBytes_parse v true 32 32);
        Ok (set_ids f s, num_major_non_tag + 1)
    end
  else if bool_decide (k = str "authors") then
    a ← array_of v (QueryError_msg "authors not an array");
    match a with
    | None => Ok (set_never_match f, num_major_non_tag)
    | Some _ =>
        s ← parsing (TBytes (str "authors")) (FilterSetBytes_parse v true 32 32);
        Ok (set_authors f s, num_major_non_tag + 1)
    end
  else if bool_decide (k = str "kinds") then
    a ← array_of v (QueryError_msg "kinds not an array");
    match a with
    | None => Ok (set_never_match f, num_major_non_tag)
    | Some _ =>
        s ← parsing (TBytes (str "kinds")) (FilterSetUint_parse v);
        Ok (set_kinds f s, num_major_non_tag + 1)
    end
  else if bool_decide (head k = Some (ch "#")) then
    match tag_letter k with
    | None => Err (QUnsupported (Text "unindexed tag filter" []))
    | Some tag =>
        a ← array_of v (QueryError_fmt "{k} not an array" [TBytes k]);
        match a with
        | None => Ok (set_never_match f, num_major_non_tag)
        | Some _ =>
            s ← parsing (TBytes k) (parse_tag_set tag v);
            Ok (set_tags f (bt_insert Z.compare (f_tags f) tag s), num_major_non_tag)
        end
    end
  else if bool_decide (head k = Some (ch "&")) then
    match tag_letter k with
    | None => Err (QUnsupported (Text "unindexed AND tag filter" []))
    | Some tag =>
        a ← array_of v (QueryError_fmt "{k} not an array" [TBytes k]);
        match a with
        | None => Err (QueryError_fmt "{k} array must not be empty" [TBytes k])
        | Some _ =>
            s ← parsing (TBytes k) (parse_tag_set tag v);
            Ok (set_and_tags f (bt_insert Z.compare (f_and_tags f) tag s), num_major_non_tag)
        end
    end
  else if bool_decide (k = str "since") then
    n ← ok_or (as_u64 v) (QueryError_msg "error parsing since");
    Ok (set_since f n, num_major_non_tag)
  else if bool_decide (k = str "until") then
    n ← ok_or (as_u64 v) (QueryError_msg "error parsing until");
    Ok (set_until f n, num_major_non_tag)
  else if bool_decide (k = str "limit") then
    n ← ok_or (as_u64 v) (QueryError_msg "error parsing limit");
    Ok (set_limit f n, num_major_non_tag)
  else if bool_decide (k = str "search") then
    query ← ok_or (as_str v) (QueryError_msg "search not a string");
    q ← map_err (λ e, QueryError_fmt "error parsing search: {error}" [DbError_text e])
          (parse_search_query query);
    Ok (set_search f q, num_major_non_tag + 1)
  else Err (QUnsupported (Text "unrecognised filter item: {k}" [TBytes k])).

(** The alternatives of a tag without those that are required anyway. *)
Definition drop_required (tags : tag_sets) (entry : Z * FilterSetBytes) : tag_sets :=
  bt_update Z.compare (λ alternatives, FilterSetBytes_remove_all alternatives entry.2) tags entry.1.

(** The letters used by either kind of tag filter. *)
Definition tag_key_count (f : NostrFilter) : nat :=
  length (remove_dups ((f_tags f).*1 ++ (f_and_tags f).*1)).

Definition and_entry_count (f : NostrFilter) : nat :=
  foldr Nat.add 0%nat ((λ e, FilterSetBytes_size e.2) <$> f_and_tags f).

(** The filter asks for the empty [d]. *)
Definition empty_d (f : NostrFilter) : bool :=
  match bt_get Z.compare (f_tags f) (ch "d") with
  | Some values => FilterSetBytes_does_match values []
  | None => false
  end.

Definition NostrFilter_parse (filter_obj : Value) (max_filter_limit : Z)
    (max_tags_per_filter max_and_entries : nat) : result QueryError NostrFilter :=
  match filter_obj with
  | Object obj =>
      '(f, num_major_non_tag) ← try_fold parse_key (empty_filter, 0) obj;
      let tags := foldl drop_required (f_tags f) (f_and_tags f) in
      let f := set_tags f (filter (λ e, (0 < FilterSetBytes_size e.2)%nat) tags) in
      let count := tag_key_count f in
      if (max_tags_per_filter <? count)%nat
      then Err (QueryError_limit TagsPerFilter "too many tags in filter")
      else if (max_and_entries <? and_entry_count f)%nat
      then Err (QueryError_limit AndEntries "too many AND entries in filter")
      else
        let f := if f_limit f >? max_filter_limit then set_limit f max_filter_limit else f in
        let num_major := num_major_non_tag + Z.of_nat count in
        Ok (set_index_only f
              (bool_decide (f_and_tags f = []) && negb (empty_d f)
               && ((num_major <=? 1)
                   || ((num_major =? 2) && bool_decide (is_Some (f_authors f))
                       && bool_decide (is_Some (f_kinds f))))))
  | _ => Err (QueryError_msg "provided filter is not an object")
  end.
End parse.

(** ** Matching *)

Section matching.
Context {SH : Sha256}.

Definition does_match_times (f : NostrFilter) (created : Z) : bool :=
  (f_since f <=? created) && (created <=? f_until f).

(** [foreach_filter_tag] looking for a tag, stopping at the first. *)
Definition has_filter_tag (test : Z → bytes → bool) (ev : PackedEventView) : bool :=
  foreach_filter_tag (λ found name val, if test name val then (true, false) else (found, true))
    false ev.

Definition does_match_without_search (f : NostrFilter) (ev : PackedEventView) : bool :=
  if never_match f || negb (does_match_times f (PackedEventView_created_at ev)) then false
  else
    match f_ids f with
    | Some ids => FilterSetBytes_does_match ids (PackedEventView_id ev)
    | None => true
    end &&
    match f_authors f with
    | Some authors => FilterSetBytes_does_match authors (PackedEventView_pubkey ev)
    | None => true
    end &&
    match f_kinds f with
    | Some kinds => FilterSetUint_does_match kinds (PackedEventView_kind ev)
    | None => true
    end &&
    forallb (λ '(tag, filt),
      has_filter_tag (λ name val, (name =? tag) && FilterSetBytes_does_match filt val) ev) (f_tags f) &&
    forallb (λ '(tag, required),
      forallb (λ value,
        has_filter_tag (λ name candidate, (name =? tag) && bool_decide (candidate = value)) ev)
        (fsb_items required)) (f_and_tags f).

Definition NostrFilter_does_match (f : NostrFilter) (ev : PackedEventView) : bool :=
  match f_search f with Some _ => false | None => does_match_without_search f ev end.

Definition does_match_with_search_terms (f : NostrFilter) (ev : PackedEventView)
    (search_terms : option SearchTermSet) : bool :=
  if negb (does_match_without_search f ev) then false
  else
    match f_search f with
    | None => true
    | Some query =>
        match search_terms with
        | None => false
        | Some search_terms => forallb (λ term, bool_decide (term ∈ search_terms)) (terms query)
        end
    end.

Definition is_full_db_query (f : NostrFilter) : bool :=
  negb (never_match f) && bool_decide (f_ids f = None) && bool_decide (f_authors f = None)
  && bool_decide (f_kinds f = None) && bool_decide (f_tags f = []) && bool_decide (f_and_tags f = [])
  && bool_decide (f_search f = None).
End matching.

(** ** Groups of filters *)

Record NostrFilterGroup : Type := mkFilterGroup {
  g_filters : list NostrFilter;
  never_matching : nat;
}.

Definition FilterGroup_default : NostrFilterGroup := mkFilterGroup [] 0.

Section group.
Context {HC : HexCrate} {SH : Sha256} {UC : UnicodeChars}.

Definition add_filter (max_filter_limit : Z) (max_tags max_and_entries : nat)
    (fg : NostrFilterGroup) (item : Value) : result QueryError NostrFilterGroup :=
  f ← NostrFilter_parse item max_filter_limit max_tags max_and_entries;
  Ok (if never_match f then mkFilterGroup (g_filters fg) (S (never_matching fg))
      else mkFilterGroup (g_filters fg ++ [f]) (never_matching fg)).

Definition from_req (arr : list Value) (max_filter_limit : Z) (max_tags max_and_entries : nat)
    : result QueryError NostrFilterGroup :=
  if (length arr <? 3)%nat then Err (QueryError_msg "too small")
  else try_fold (add_filter max_filter_limit max_tags max_and_entries) FilterGroup_default (drop 2 arr).

Definition from_value (filter : Value) (max_filter_limit : Z) (max_tags max_and_entries : nat)
    : result QueryError NostrFilterGroup :=
  match filter with
  | Array a => try_fold (add_filter max_filter_limit max_tags max_and_entries) FilterGroup_default a
  | _ => add_filter max_filter_limit max_tags max_and_entries FilterGroup_default filter
  end.

Definition group_does_match (fg : NostrFilterGroup) (ev : PackedEventView) : bool :=
  existsb (λ f, NostrFilter_does_match f ev) (g_filters fg).

Definition group_does_match_with_search_terms (fg : NostrFilterGroup) (ev : PackedEventView)
    (search_terms : option SearchTermSet) : bool :=
  existsb (λ f, does_match_with_search_terms f ev search_terms) (g_filters fg).

Definition group_requires_content (fg : NostrFilterGroup) : bool :=
  existsb (λ f, bool_decide (is_Some (f_search f))) (g_filters fg).

Definition group_size (fg : NostrFilterGroup) : nat := length (g_filters fg).

Definition group_is_full_db_query (fg : NostrFilterGroup) : bool :=
  match g_filters fg with [f] => is_full_db_query f | _ => false end.
End group.

(** ** The relay's rules *)

Record FilterValidator : Type := mkFilterValidator {
  max_kinds_per_filter : Z;
  allowed_kinds : gset Z;
  require_author_or_tag : bool;
  require_scoped_filters : bool;
}.

(** The set has exactly one value. *)
Definition is_single (s : option FilterSetBytes) : bool :=
  match s with Some s => (FilterSetBytes_size s =? 1)%nat | None => false end.

Definition check_allowed (v : FilterValidator) (_ : ()) (k : Z) : result QueryError () :=
  if bool_decide (k ∈ allowed_kinds v) then Ok ()
  else Err (QLimit AllowedKinds (Text "kind not allowed: {k}" [TNum k])).

Definition validate_filter (v : FilterValidator) (_ : ()) (f : NostrFilter) : result QueryError () :=
  _ ← match f_kinds f with
      | Some kinds =>
          if negb (max_kinds_per_filter v =? 0)
             && (Z.of_nat (FilterSetUint_size kinds) >? max_kinds_per_filter v)
          then Err (QLimit KindsPerFilter (Text "too many kinds in filter: {}"
                      [TNum (Z.of_nat (FilterSetUint_size kinds))]))
          else if bool_decide (allowed_kinds v = ∅) then Ok ()
          else try_fold (check_allowed v) () (fsu_items kinds)
      | None => Ok ()
      end;
  if require_scoped_filters v && bool_decide (f_ids f = None) && bool_decide (f_authors f = None)
     && bool_decide (f_tags f = []) && bool_decide (f_and_tags f = [])
  then Err (QueryError_limit ScopedFilters "filter must name ids, authors or a tag")
  else if require_author_or_tag v then
    let has_author := is_single (f_authors f) in
    let has_p := is_single (bt_get Z.compare (f_tags f) (ch "p")) in
    let has_and_p := is_single (bt_get Z.compare (f_and_tags f) (ch "p")) in
    let has_e := is_single (bt_get Z.compare (f_tags f) (ch "e")) in
    let has_and_e := is_single (bt_get Z.compare (f_and_tags f) (ch "e")) in
    if negb has_author && negb has_p && negb has_e && negb has_and_p && negb has_and_e
    then Err (QueryError_limit AuthorOrTag "filter must have exactly one author, p tag, or e tag")
    else Ok ()
  else Ok ().

Definition FilterValidator_validate (v : FilterValidator) (fg : NostrFilterGroup)
    : result QueryError () :=
  try_fold (validate_filter v) () (g_filters fg).
