(* ===== verification/FilterSpec.v ===== *)
(** * What a filter matches

    The meaning of a filter, stated on its JSON, and the proof that the compiled
    filter of Filter.v matches exactly that: hex and tag values are found in the
    form the packed event holds them, required values are not asked for twice,
    and the sorted sets are searched correctly. *)

From S2P Require Import Prelude Utf8 BTreeMap Json Crates Kinds Packed EventParse Search Filter.

Local Open Scope Z_scope.

(** ** The meaning of a filter *)

Section meaning.
Context {HC : HexCrate} {SH : Sha256}.

(** The event has the tag [tag] with the value [s]. *)
Definition has_tag (ev : PackedEventView) (tag : Z) (s : bytes) : Prop :=
  (tag, packed_value tag s) ∈ filter_tags ev.

(** The value is required by the filter's [&tag] anyway. *)
Definition required (obj : list (bytes * Value)) (tag : Z) (s : bytes) : Prop :=
  ∃ a s', ([ch "&"; tag], Array a) ∈ obj ∧ Str s' ∈ a ∧ packed_value tag s' = packed_value tag s.

(** What one entry of the filter object asks of an event. *)
Definition entry_matches (obj : list (bytes * Value)) (ev : PackedEventView)
    (k : bytes) (v : Value) : Prop :=
  (k = str "ids" → ∃ a, v = Array a ∧ Str (PackedEventView_id ev ≫= byte_hex) ∈ a) ∧
  (k = str "authors" → ∃ a, v = Array a ∧ Str (PackedEventView_pubkey ev ≫= byte_hex) ∈ a) ∧
  (k = str "kinds" → ∃ a, v = Array a ∧ Num (PosInt (PackedEventView_kind ev)) ∈ a) ∧
  (k = str "since" → ∃ t, v = Num (PosInt t) ∧ t ≤ PackedEventView_created_at ev) ∧
  (k = str "until" → ∃ t, v = Num (PosInt t) ∧ PackedEventView_created_at ev ≤ t) ∧
  (∀ tag, k = [ch "#"; tag] → ∃ a, v = Array a ∧ a ≠ [] ∧
     ((∀ s, Str s ∈ a → required obj tag s) ∨
      ∃ s, Str s ∈ a ∧ ¬ required obj tag s ∧ has_tag ev tag s)) ∧
  (∀ tag, k = [ch "&"; tag] → ∃ a, v = Array a ∧ ∀ s, Str s ∈ a → has_tag ev tag s).

Definition filter_object_matches (obj : list (bytes * Value)) (ev : PackedEventView) : Prop :=
  ∀ k v, (k, v) ∈ obj → entry_matches obj ev k v.
End meaning.

(** A set as parsing leaves it. *)
Definition set_ok (s : FilterSetBytes) : Prop := StronglySorted (cmp_lt bytes_cmp) (fsb_items s).
Definition kinds_ok (s : FilterSetUint) : Prop := StronglySorted (cmp_lt Z.compare) (fsu_items s).

(** ** Sets *)

Lemma is_found_spec {A} (cmp : A → A → comparison) `{!TotalCmp cmp} l c :
  StronglySorted (cmp_lt cmp) l →
  is_found (binary_search_by (λ x, cmp x c) l) = true ↔ c ∈ l.
Proof.
  intros Hl. rewrite <- (binary_search_mem cmp l c Hl). unfold is_found.
  destruct binary_search_by; naive_solver.
Qed.

Lemma FilterSetBytes_does_match_spec s c :
  set_ok s → FilterSetBytes_does_match s c = true ↔ c ∈ fsb_items s.
Proof. apply is_found_spec, _. Qed.

Lemma FilterSetUint_does_match_spec s c :
  kinds_ok s → FilterSetUint_does_match s c = true ↔ c ∈ fsu_items s.
Proof. apply is_found_spec, _. Qed.

Lemma remove_all_spec s r x :
  set_ok r → x ∈ fsb_items (FilterSetBytes_remove_all s r) ↔ x ∈ fsb_items s ∧ x ∉ fsb_items r.
Proof.
  intros Hr. cbn. rewrite list_elem_of_filter, <- (FilterSetBytes_does_match_spec r x Hr).
  destruct FilterSetBytes_does_match; naive_solver.
Qed.

Lemma StronglySorted_filter {A} (R : relation A) (P : A → Prop) `{!∀ x, Decision (P x)} l :
  StronglySorted R l → StronglySorted R (filter P l).
Proof.
  induction 1 as [|x l Hl IH Hx]; [constructor|]. rewrite filter_cons. case_decide; [|done].
  constructor; [done|]. apply Forall_forall. intros y [_ Hy]%list_elem_of_filter.
  by eapply Forall_forall in Hx.
Qed.

Lemma remove_all_ok s r : set_ok s → set_ok (FilterSetBytes_remove_all s r).
Proof. apply StronglySorted_filter. Qed.

Section parsing_sets.
Context {HC : HexCrate} {SH : Sha256} {HL : HexLaws}.

(** How an element of the array becomes an item. *)
Definition item_of (hex : bool) (mn mx : Z) (i : Value) (x : bytes) : Prop :=
  ∃ s b, i = Str s ∧ (if hex then from_lower_hex_exact s = Ok b else b = s) ∧
    mn ≤ len b ≤ mx ∧ x = indexed_tag_value b.

Lemma filter_item_Ok hex mn mx items0 orig0 i items orig :
  filter_item hex mn mx (items0, orig0) i = Ok (items, orig) →
  ∃ x, items = items0 ++ [x] ∧ item_of hex mn mx i x.
Proof.
  unfold filter_item. intros H. inv_bind H. apply ok_or_Ok in Hv. inv_bind H.
  assert (if hex then from_lower_hex_exact v = Ok v0 else v0 = v) as Hb.
  { destruct hex; [|congruence]. by destruct from_lower_hex_exact; simplify_eq/=. }
  destruct i; simplify_eq/=. destruct (len v0 <? mn) eqn:E1; [done|].
  destruct (len v0 >? mx) eqn:E2; [done|]. unfold indexed_tag_value in H.
  exists (indexed_tag_value v0). split; [|exists v, v0; split_and!; try done; lia].
  unfold indexed_tag_value. destruct (Nat.ltb_spec MAX_INDEXED_TAG_VAL_SIZE (length v0)).
  - rewrite (proj2 (Nat.leb_gt _ _)) in H |- * by done. by simplify_eq.
  - rewrite (proj2 (Nat.leb_le _ _)) by done. by simplify_eq.
Qed.

Lemma filter_items_Ok hex mn mx a items0 orig0 items orig :
  try_fold (filter_item hex mn mx) (items0, orig0) a = Ok (items, orig) →
  ∃ xs, items = items0 ++ xs ∧ Forall2 (item_of hex mn mx) a xs.
Proof.
  revert items0 orig0. induction a as [|i a IH]; intros items0 orig0 H; cbn in H.
  - simplify_eq. exists []. by rewrite app_nil_r.
  - inv_bind H. destruct v as [items1 orig1].
    apply filter_item_Ok in Hv as (x & -> & Hx). apply IH in H as (xs & -> & Hxs).
    exists (x :: xs). rewrite <- app_assoc. split; [done|by constructor].
Qed.

Lemma FilterSetBytes_parse_Ok v hex mn mx s :
  FilterSetBytes_parse v hex mn mx = Ok s →
  ∃ a xs, v = Array a ∧ Forall2 (item_of hex mn mx) a xs ∧
    set_ok s ∧ ∀ x, x ∈ fsb_items s ↔ x ∈ xs.
Proof.
  unfold FilterSetBytes_parse. intros H. inv_bind H. apply ok_or_Ok in Hv.
  destruct v; simplify_eq/=. inv_bind H. destruct v as [items orig].
  apply filter_items_Ok in Hv as (xs & -> & Hxs).
  destruct (_ >? _) in H; [done|]. simplify_eq. exists v0, xs. split_and!; try done.
  - apply slice_sort_dedup_sorted, _.
  - intros x. cbn. by rewrite elem_of_slice_sort_dedup.
Qed.
End parsing_sets.

Section parsed_sets.
Context {HC : HexCrate} {SH : Sha256} {HL : HexLaws}.

Lemma Forall2_elem_of_r {A B} (P : A → B → Prop) l k y :
  Forall2 P l k → y ∈ k → ∃ x, x ∈ l ∧ P x y.
Proof.
  intros H [i Hi]%list_elem_of_lookup. destruct (Forall2_lookup_r _ _ _ _ _ H Hi) as (x & Hx & ?).
  exists x. split; [by eapply list_elem_of_lookup_2|done].
Qed.

Lemma Forall2_elem_of_l {A B} (P : A → B → Prop) l k x :
  Forall2 P l k → x ∈ l → ∃ y, y ∈ k ∧ P x y.
Proof.
  intros H [i Hi]%list_elem_of_lookup. destruct (Forall2_lookup_l _ _ _ _ _ H Hi) as (y & Hy & ?).
  exists y. split; [by eapply list_elem_of_lookup_2|done].
Qed.

Lemma indexed_tag_value_short b :
  (length b ≤ MAX_INDEXED_TAG_VAL_SIZE)%nat → indexed_tag_value b = b.
Proof. intros H. unfold indexed_tag_value. by rewrite (proj2 (Nat.leb_le _ _)). Qed.

Lemma item_of_hex32 i x :
  item_of true 32 32 i x ↔ bytes_ok x ∧ length x = 32%nat ∧ i = Str (x ≫= byte_hex).
Proof.
  assert (∀ b : bytes, length b = 32%nat → indexed_tag_value b = b) as Hshort.
  { intros b Hb. apply indexed_tag_value_short. rewrite Hb. unfold MAX_INDEXED_TAG_VAL_SIZE. lia. }
  unfold item_of. split.
  - intros (s & b & -> & [Hb ->]%from_lower_hex_exact_Ok & Hl & ->).
    rewrite Hshort by lia. split_and!; [done|lia|done].
  - intros (Hx & Hl & ->). exists (x ≫= byte_hex), x. split_and!; [done| |lia..|by rewrite Hshort].
    by apply from_lower_hex_exact_Ok.
Qed.

(** A set of ids or keys holds exactly the ids given in hex. *)
Lemma hex_set_Ok v s :
  FilterSetBytes_parse v true 32 32 = Ok s →
  ∃ a, v = Array a ∧ set_ok s ∧ Forall (λ x, length x = 32%nat) (fsb_items s) ∧
    (∀ x, x ∈ fsb_items s ↔ bytes_ok x ∧ length x = 32%nat ∧ Str (x ≫= byte_hex) ∈ a) ∧
    (a ≠ [] → fsb_items s ≠ []).
Proof.
  intros (a & xs & -> & HF & Hok & Hin)%FilterSetBytes_parse_Ok.
  assert (∀ x, x ∈ fsb_items s ↔ bytes_ok x ∧ length x = 32%nat ∧ Str (x ≫= byte_hex) ∈ a) as Hx.
  { intros x. rewrite Hin. split.
    - intros Hx. destruct (Forall2_elem_of_r _ _ _ _ HF Hx) as (i & Hi & (Hb & Hl & ->)%item_of_hex32).
      done.
    - intros (Hb & Hl & Hs). destruct (Forall2_elem_of_l _ _ _ _ HF Hs) as (y & Hy & (? & ? & E)%item_of_hex32).
      injection E as E. apply hex_inj in E as ->; done. }
  exists a. split_and!; [done..| |done|].
  - apply Forall_forall. intros x (_ & ? & _)%Hx. done.
  - intros Ha E. destruct HF; [done|].
    eapply (not_elem_of_nil y). rewrite <- E, Hin. set_solver.
Qed.

(** The set of a tag filter holds exactly the packed form of its values. *)
Lemma tag_set_Ok tag v s :
  parse_tag_set tag v = Ok s →
  ∃ a, v = Array a ∧ set_ok s ∧
    (∀ x, x ∈ fsb_items s ↔ ∃ raw, Str raw ∈ a ∧ x = packed_value tag raw) ∧
    (∀ i, i ∈ a → ∃ raw, i = Str raw) ∧
    (a ≠ [] → fsb_items s ≠ []).
Proof.
  intros H.
  assert (∃ hex mn mx, FilterSetBytes_parse v hex mn mx = Ok s ∧
    ∀ i x, item_of hex mn mx i x → ∃ raw, i = Str raw ∧ x = packed_value tag raw)
    as (hex & mn & mx & (a & xs & -> & HF & Hok & Hin)%FilterSetBytes_parse_Ok & Hitem).
  { unfold parse_tag_set in H. unfold packed_value, fixed_size_name.
    rewrite orb_comm in H. destruct (_ || _).
    - exists true, 32, 32. split; [done|]. intros i x (Hx & Hl & ->)%item_of_hex32.
      eexists. split; [done|].
      rewrite <- hex_encode_spec, hex_decode_encode by done. done.
    - exists false, 0, USIZE_MAX. split; [done|]. intros i x (raw & b & -> & -> & _ & ->). eauto. }
  exists a. split_and!; [done..| | |].
  - intros x. rewrite Hin. split.
    + intros Hx. destruct (Forall2_elem_of_r _ _ _ _ HF Hx) as (i & Hi & (raw & -> & ->)%Hitem). eauto.
    + intros (raw & Hraw & ->).
      by destruct (Forall2_elem_of_l _ _ _ _ HF Hraw) as (y & Hy & (raw' & [= <-] & ->)%Hitem).
  - intros i Hi. destruct (Forall2_elem_of_l _ _ _ _ HF Hi) as (y & Hy & (raw' & -> & _)%Hitem). eauto.
  - intros Ha E. destruct HF; [done|].
    eapply (not_elem_of_nil y). rewrite <- E, Hin. set_solver.
Qed.

Lemma kind_items_Ok a items0 items :
  try_fold kind_item items0 a = Ok items →
  ∃ xs, items = items0 ++ xs ∧ a = (λ n, Num (PosInt n)) <$> xs ∧ Forall (λ n, n ≤ U16_MAX) xs.
Proof.
  revert items0. induction a as [|i a IH]; intros items0 H; cbn in H.
  - simplify_eq. exists []. by rewrite app_nil_r.
  - inv_bind H. unfold kind_item in Hv. inv_bind Hv. apply ok_or_Ok in Hv0.
    destruct (v0 >? U16_MAX) eqn:E; simplify_eq/=.
    apply IH in H as (xs & -> & -> & HF). exists (v0 :: xs). rewrite <- app_assoc.
    split_and!; [done| |constructor; [lia|done]]. cbn. f_equal.
    destruct i as [| |[]| | |]; by simplify_eq/=.
Qed.

Lemma kind_set_Ok v s :
  FilterSetUint_parse v = Ok s →
  ∃ a, v = Array a ∧ kinds_ok s ∧ Forall (λ n, n ≤ U16_MAX) (fsu_items s) ∧
    (∀ n, n ∈ fsu_items s ↔ Num (PosInt n) ∈ a) ∧ (a ≠ [] → fsu_items s ≠ []).
Proof.
  unfold FilterSetUint_parse. intros H. inv_bind H. apply ok_or_Ok in Hv.
  destruct v; simplify_eq/=. inv_bind H. apply kind_items_Ok in Hv as (xs & -> & -> & HF).
  simplify_eq. eexists. split; [done|]. cbn.
  assert (∀ n, n ∈ vec_dedup (slice_sort Z.compare xs) ↔ n ∈ xs) as Hin
    by (intros; by rewrite elem_of_slice_sort_dedup).
  split_and!.
  - apply slice_sort_dedup_sorted, _.
  - apply Forall_forall. intros n Hn%Hin. by eapply Forall_forall in HF.
  - intros n. rewrite Hin, list_elem_of_fmap. split; [eauto|]. by intros (m & [= ->] & ?).
  - intros Ha E. destruct xs as [|n xs]; [done|]. apply (not_elem_of_nil n). rewrite <- E, Hin. set_solver.
Qed.
End parsed_sets.

(** ** Matching *)

(** A compiled filter: sorted sets, none of them empty. *)
Record filter_ok (f : NostrFilter) : Prop := {
  ok_ids s : f_ids f = Some s →
    set_ok s ∧ Forall (λ x, length x = 32%nat) (fsb_items s) ∧ fsb_items s ≠ [];
  ok_authors s : f_authors f = Some s →
    set_ok s ∧ Forall (λ x, length x = 32%nat) (fsb_items s) ∧ fsb_items s ≠ [];
  ok_kinds s : f_kinds f = Some s →
    kinds_ok s ∧ Forall (λ n, n ≤ U16_MAX) (fsu_items s) ∧ fsu_items s ≠ [];
  ok_tags_sorted : bt_sorted Z.compare (f_tags f);
  ok_tags tag s : (tag, s) ∈ f_tags f →
    is_ascii_alphabetic tag = true ∧ set_ok s ∧ fsb_items s ≠ [];
  ok_and_sorted : bt_sorted Z.compare (f_and_tags f);
  ok_and tag s : (tag, s) ∈ f_and_tags f →
    is_ascii_alphabetic tag = true ∧ set_ok s ∧ fsb_items s ≠ [];
}.

(** What the fields other than the tags ask of an event. *)
Record plain_match (f : NostrFilter) (ev : PackedEventView) : Prop := {
  pm_never : never_match f = false;
  pm_since : f_since f ≤ PackedEventView_created_at ev;
  pm_until : PackedEventView_created_at ev ≤ f_until f;
  pm_ids s : f_ids f = Some s → PackedEventView_id ev ∈ fsb_items s;
  pm_authors s : f_authors f = Some s → PackedEventView_pubkey ev ∈ fsb_items s;
  pm_kinds s : f_kinds f = Some s → PackedEventView_kind ev ∈ fsu_items s;
}.

Record tags_match (f : NostrFilter) (ev : PackedEventView) : Prop := {
  tm_tags tag s : (tag, s) ∈ f_tags f → ∃ x, x ∈ fsb_items s ∧ (tag, x) ∈ filter_tags ev;
  tm_and tag s x : (tag, s) ∈ f_and_tags f → x ∈ fsb_items s → (tag, x) ∈ filter_tags ev;
}.

Lemma walk_list_find (test : Z → bytes → bool) l :
  walk_list (λ found name val _, if test name val then (true, false) else (found, true)) false l = true
  ↔ ∃ n v, (n, v) ∈ l ∧ test n v = true.
Proof.
  induction l as [|[n v] l IH]; cbn; [split; [done|]; intros (? & ? & ?%elem_of_nil & _); done|].
  destruct (test n v) eqn:E; cbn; [split; [|done]; set_solver|].
  rewrite IH. split.
  - intros (n' & v' & ? & ?). exists n', v'. set_solver.
  - intros (n' & v' & [[= -> ->]|?]%elem_of_cons & ?); [congruence|]. eauto.
Qed.

Lemma has_filter_tag_spec test ev l :
  record_tags ev l →
  has_filter_tag test ev = true ↔ ∃ n v, (n, v) ∈ filter_tags ev ∧ test n v = true.
Proof.
  intros Hl. unfold has_filter_tag. rewrite (foreach_filter_tag_list _ _ _ _ Hl), (filter_tags_own _ _ Hl).
  apply walk_list_find.
Qed.

Lemma tags_match_spec f ev l :
  filter_ok f → record_tags ev l →
  forallb (λ '(tag, filt),
    has_filter_tag (λ name val, (name =? tag) && FilterSetBytes_does_match filt val) ev) (f_tags f) &&
  forallb (λ '(tag, required),
    forallb (λ value,
      has_filter_tag (λ name candidate, (name =? tag) && bool_decide (candidate = value)) ev)
      (fsb_items required)) (f_and_tags f) = true ↔ tags_match f ev.
Proof.
  intros Hok Hl. rewrite andb_true_iff, !forallb_forall.
  assert (∀ tag s, (tag, s) ∈ f_tags f →
    has_filter_tag (λ name val, (name =? tag) && FilterSetBytes_does_match s val) ev = true ↔
    ∃ x, x ∈ fsb_items s ∧ (tag, x) ∈ filter_tags ev) as Htags.
  { intros tag s Hin. rewrite (has_filter_tag_spec _ _ _ Hl).
    destruct (ok_tags _ Hok _ _ Hin) as (_ & Hs & _). split.
    - intros (n & v & Hv & [-> %Z.eqb_eq Hm]%andb_true_iff). exists v.
      by rewrite <- FilterSetBytes_does_match_spec.
    - intros (x & Hx & Hin'). exists tag, x. split; [done|].
      by rewrite Z.eqb_refl, (proj2 (FilterSetBytes_does_match_spec s x Hs)). }
  assert (∀ tag x,
    has_filter_tag (λ name candidate, (name =? tag) && bool_decide (candidate = x)) ev = true ↔
    (tag, x) ∈ filter_tags ev) as Hand.
  { intros tag x. rewrite (has_filter_tag_spec _ _ _ Hl). split.
    - by intros (n & v & Hv & [-> %Z.eqb_eq -> %bool_decide_eq_true]%andb_true_iff).
    - intros Hin. exists tag, x. by rewrite Z.eqb_refl, bool_decide_true. }
  split.
  - intros [H1 H2]. split.
    + intros tag s Hin. apply Htags; [done|]. apply (H1 (tag, s)). by apply list_elem_of_In.
    + intros tag s x Hin Hx. apply Hand. apply list_elem_of_In in Hin. apply H2 in Hin.
      rewrite forallb_forall in Hin. by apply Hin, list_elem_of_In.
  - intros Hm. split.
    + intros [tag s] Hin%list_elem_of_In. by apply Htags, (tm_tags f ev).
    + intros [tag s] Hin%list_elem_of_In. apply forallb_forall. intros x Hx%list_elem_of_In.
      apply Hand. by eapply tm_and.
Qed.

Lemma does_match_spec f ev l :
  filter_ok f → record_tags ev l →
  does_match_without_search f ev = true ↔ plain_match f ev ∧ tags_match f ev.
Proof.
  intros Hok Hl. rewrite <- (tags_match_spec f ev l Hok Hl).
  unfold does_match_without_search, does_match_times.
  rewrite <- !andb_assoc. set (T := forallb _ (f_tags f) && _). clearbody T.
  assert (∀ o c, (∀ s, o = Some s → set_ok s) →
    match o with Some s => FilterSetBytes_does_match s c | None => true end = true ↔
    ∀ s, o = Some s → c ∈ fsb_items s) as Hset.
  { intros [s|] c Hs; [|done]. rewrite FilterSetBytes_does_match_spec by auto. naive_solver. }
  assert (match f_kinds f with
    | Some s => FilterSetUint_does_match s (PackedEventView_kind ev) | None => true end = true ↔
    ∀ s, f_kinds f = Some s → PackedEventView_kind ev ∈ fsu_items s) as Hk.
  { destruct (f_kinds f) as [s|] eqn:E; [|done].
    destruct (ok_kinds _ Hok _ E) as [Hs _]. rewrite FilterSetUint_does_match_spec by done. naive_solver. }
  assert (∀ s, f_ids f = Some s → set_ok s) as Hi by (intros s Hs; by apply (ok_ids _ Hok)).
  assert (∀ s, f_authors f = Some s → set_ok s) as Ha by (intros s Hs; by apply (ok_authors _ Hok)).
  specialize (Hset (f_ids f) (PackedEventView_id ev) Hi) as Hset1.
  specialize (Hset (f_authors f) (PackedEventView_pubkey ev) Ha) as Hset2.
  destruct (_ || _) eqn:E.
  - split; [done|]. intros [[Hn Hs Hu] _]. rewrite Hn in E. lia.
  - rewrite !andb_true_iff, Hset1, Hset2, Hk.
    apply orb_false_iff in E as [En Et]. split.
    + intros (? & ? & ? & ?). split; [|done]. split; try done; lia.
    + by intros [[] ?].
Qed.

(** ** Reading the keys *)

Section reading.
Context {HC : HexCrate} {SH : Sha256} {UC : UnicodeChars} {HL : HexLaws}.

(** Keys whose empty array makes the filter match nothing. *)
Definition list_key (k : bytes) : Prop :=
  k = str "ids" ∨ k = str "authors" ∨ k = str "kinds" ∨ ∃ tag, k = [ch "#"; tag].

(** What accepting a key does to the filter. *)
Inductive key_read (f : NostrFilter) : bytes → Value → NostrFilter → Prop :=
| read_empty k : list_key k → key_read f k (Array []) (set_never_match f)
| read_ids a s : a ≠ [] → FilterSetBytes_parse (Array a) true 32 32 = Ok s →
    key_read f (str "ids") (Array a) (set_ids f s)
| read_authors a s : a ≠ [] → FilterSetBytes_parse (Array a) true 32 32 = Ok s →
    key_read f (str "authors") (Array a) (set_authors f s)
| read_kinds a s : a ≠ [] → FilterSetUint_parse (Array a) = Ok s →
    key_read f (str "kinds") (Array a) (set_kinds f s)
| read_tag tag a s : is_ascii_alphabetic tag = true → a ≠ [] →
    parse_tag_set tag (Array a) = Ok s →
    key_read f [ch "#"; tag] (Array a) (set_tags f (bt_insert Z.compare (f_tags f) tag s))
| read_and tag a s : is_ascii_alphabetic tag = true → a ≠ [] →
    parse_tag_set tag (Array a) = Ok s →
    key_read f [ch "&"; tag] (Array a) (set_and_tags f (bt_insert Z.compare (f_and_tags f) tag s))
| read_since n : key_read f (str "since") (Num (PosInt n)) (set_since f n)
| read_until n : key_read f (str "until") (Num (PosInt n)) (set_until f n)
| read_limit n : key_read f (str "limit") (Num (PosInt n)) (set_limit f n)
| read_search s q : key_read f (str "search") (Str s) (set_search f q).

Lemma array_of_Ok v e a :
  array_of v e = Ok a →
  (v = Array [] ∧ a = None) ∨ ∃ l, l ≠ [] ∧ v = Array l ∧ a = Some l.
Proof.
  destruct v as [| | | |[|x l]|]; cbn; intros [= <-]; [by left|]. right. by exists (x :: l).
Qed.

Lemma parsing_Ok what A (r : result QueryError A) x : parsing what r = Ok x ↔ r = Ok x.
Proof. unfold parsing. destruct r; cbn; naive_solver. Qed.

Lemma tag_letter_Some c k tag :
  head k = Some c → tag_letter k = Some tag → k = [c; tag] ∧ is_ascii_alphabetic tag = true.
Proof.
  destruct k as [|? [|d [|]]]; cbn; try done. intros [= ->].
  destruct (is_ascii_alphabetic d) eqn:E; [|done]. naive_solver.
Qed.

Lemma as_u64_Some v n : as_u64 v = Some n → v = Num (PosInt n).
Proof. destruct v as [| |[]| | |]; cbn; naive_solver. Qed.

Lemma parse_key_Ok f n k v f' n' :
  parse_key (f, n) (k, v) = Ok (f', n') → key_read f k v f'.
Proof.
  unfold parse_key. intros H.
  repeat match type of H with
  | (if bool_decide ?P then _ else _) = _ =>
      destruct (bool_decide_reflect P) as [Hk|_]; [try subst k|]
  end; try done.
  1-3: inv_bind H; destruct (array_of_Ok _ _ _ Hv) as [[-> ->]|(l & Hl & -> & ->)];
    [simplify_eq; constructor; unfold list_key; naive_solver|];
    inv_bind H; apply parsing_Ok in Hv0; simplify_eq; by constructor.
  1-2: destruct (tag_letter k) as [tag|] eqn:Et; [|done];
    destruct (tag_letter_Some _ _ _ Hk Et) as [-> Ha];
    inv_bind H; destruct (array_of_Ok _ _ _ Hv) as [[-> ->]|(l & Hl & -> & ->)];
    [|inv_bind H; apply parsing_Ok in Hv0; simplify_eq; by constructor];
    [simplify_eq; constructor; unfold list_key; naive_solver || done].
  1-3: inv_bind H; apply ok_or_Ok, as_u64_Some in Hv as ->; simplify_eq; constructor.
  inv_bind H. apply ok_or_Ok in Hv. inv_bind H. simplify_eq.
  destruct v; simplify_eq/=. constructor.
Qed.
End reading.

(** Two keys that differ as constants. *)
Ltac key_clash :=
  match goal with
  | H : ?a = ?b :> list Z |- _ => exfalso; vm_compute in H; discriminate H
  end.

Section invariant.
Context {HC : HexCrate} {SH : Sha256} {HL : HexLaws}.

(** A record that a view accepts. *)
Definition record_ok (ev : PackedEventView) : Prop :=
  bytes_ok ev ∧ (PACKED_HEADER_LEN ≤ length ev)%nat.

Definition plain_entry (ev : PackedEventView) (k : bytes) (v : Value) : Prop :=
  (k = str "ids" → ∃ a, v = Array a ∧ Str (PackedEventView_id ev ≫= byte_hex) ∈ a) ∧
  (k = str "authors" → ∃ a, v = Array a ∧ Str (PackedEventView_pubkey ev ≫= byte_hex) ∈ a) ∧
  (k = str "kinds" → ∃ a, v = Array a ∧ Num (PosInt (PackedEventView_kind ev)) ∈ a) ∧
  (k = str "since" → ∃ t, v = Num (PosInt t) ∧ t ≤ PackedEventView_created_at ev) ∧
  (k = str "until" → ∃ t, v = Num (PosInt t) ∧ PackedEventView_created_at ev ≤ t) ∧
  (∀ tag, k = [ch "#"; tag] → v ≠ Array []).

(** The key's field still has its default. *)
Definition fresh (f : NostrFilter) (k : bytes) : Prop :=
  (k = str "ids" → f_ids f = None) ∧ (k = str "authors" → f_authors f = None) ∧
  (k = str "kinds" → f_kinds f = None) ∧ (k = str "since" → f_since f = 0) ∧
  (k = str "until" → f_until f = U64_MAX) ∧
  (∀ tag, k = [ch "#"; tag] → bt_get Z.compare (f_tags f) tag = None) ∧
  (∀ tag, k = [ch "&"; tag] → bt_get Z.compare (f_and_tags f) tag = None).

Lemma record_ok_fields ev :
  record_ok ev →
  bytes_ok (PackedEventView_id ev) ∧ length (PackedEventView_id ev) = 32%nat ∧
  bytes_ok (PackedEventView_pubkey ev) ∧ length (PackedEventView_pubkey ev) = 32%nat ∧
  u64_ok (PackedEventView_created_at ev).
Proof.
  intros [Hb Hl]. unfold PACKED_HEADER_LEN in Hl.
  unfold PackedEventView_id, PackedEventView_pubkey, PackedEventView_created_at.
  rewrite !length_slice by lia. split_and!; try done; try by apply Forall_slice.
  pose proof (from_le_bytes_bound (slice 64 72 ev) (Forall_slice _ _ _ _ Hb)) as Hbound.
  rewrite length_slice in Hbound by lia. change (256 ^ _) with (U64_MAX + 1) in Hbound.
  unfold from_ne_bytes, u64_ok. lia.
Qed.

Lemma fresh_read f k v f' k' :
  key_read f k v f' → k' ≠ k → fresh f k' → fresh f' k'.
Proof.
  intros Hr Hne (? & ? & ? & ? & ? & Ht & Ha).
  destruct Hr; unfold fresh; cbn; split_and!; try done; intros tag' ->; rewrite (bt_get_insert Z.compare).
  - destruct (tag' ?= tag) eqn:E; [|by apply Ht..]. apply Z.compare_eq in E as ->. done.
  - destruct (tag' ?= tag) eqn:E; [|by apply Ha..]. apply Z.compare_eq in E as ->. done.
Qed.

Lemma hex_set_mem a s x :
  FilterSetBytes_parse (Array a) true 32 32 = Ok s → bytes_ok x → length x = 32%nat →
  x ∈ fsb_items s ↔ ∃ a', Array a = Array a' ∧ Str (x ≫= byte_hex) ∈ a'.
Proof.
  intros (a' & [= <-] & _ & _ & Hin & _)%hex_set_Ok Hb Hl. rewrite Hin. naive_solver.
Qed.

Lemma kind_set_mem a s n :
  FilterSetUint_parse (Array a) = Ok s →
  n ∈ fsu_items s ↔ ∃ a', Array a = Array a' ∧ Num (PosInt n) ∈ a'.
Proof. intros (a' & [= <-] & _ & _ & Hin & _)%kind_set_Ok. rewrite Hin. naive_solver. Qed.

(** Entries of no concern to the plain fields. *)
Lemma plain_entry_other ev k v :
  k ∉ str <$> ["ids"; "authors"; "kinds"; "since"; "until"]%string →
  (∀ tag, k = [ch "#"; tag] → v ≠ Array []) → plain_entry ev k v.
Proof. intros Hk Ht. unfold plain_entry. split_and!; try done; intros ->; exfalso; apply Hk; set_solver. Qed.

Lemma plain_entry_ids ev a s :
  FilterSetBytes_parse (Array a) true 32 32 = Ok s →
  bytes_ok (PackedEventView_id ev) → length (PackedEventView_id ev) = 32%nat →
  plain_entry ev (str "ids") (Array a) ↔ PackedEventView_id ev ∈ fsb_items s.
Proof.
  intros H Hb Hl. rewrite (hex_set_mem _ _ _ H) by done. unfold plain_entry.
  split; [intros [He _]; by apply He|]. intros ?. split_and!; try done; intros; key_clash.
Qed.

Lemma plain_entry_authors ev a s :
  FilterSetBytes_parse (Array a) true 32 32 = Ok s →
  bytes_ok (PackedEventView_pubkey ev) → length (PackedEventView_pubkey ev) = 32%nat →
  plain_entry ev (str "authors") (Array a) ↔ PackedEventView_pubkey ev ∈ fsb_items s.
Proof.
  intros H Hb Hl. rewrite (hex_set_mem _ _ _ H) by done. unfold plain_entry.
  split; [intros (_ & He & _); by apply He|]. intros ?. split_and!; try done; intros; key_clash.
Qed.

Lemma plain_entry_kinds ev a s :
  FilterSetUint_parse (Array a) = Ok s →
  plain_entry ev (str "kinds") (Array a) ↔ PackedEventView_kind ev ∈ fsu_items s.
Proof.
  intros H. rewrite (kind_set_mem _ _ _ H). unfold plain_entry.
  split; [intros (_ & _ & He & _); by apply He|]. intros ?. split_and!; try done; intros; key_clash.
Qed.

Lemma plain_entry_since ev n :
  plain_entry ev (str "since") (Num (PosInt n)) ↔ n ≤ PackedEventView_created_at ev.
Proof.
  unfold plain_entry. split.
  - intros (_ & _ & _ & He & _). destruct He as (t & [= <-] & ?); done.
  - intros ?. split_and!; try done; try (intros; key_clash). eauto.
Qed.

Lemma plain_entry_until ev n :
  plain_entry ev (str "until") (Num (PosInt n)) ↔ PackedEventView_created_at ev ≤ n.
Proof.
  unfold plain_entry. split.
  - intros (_ & _ & _ & _ & He & _). destruct He as (t & [= <-] & ?); done.
  - intros ?. split_and!; try done; try (intros; key_clash). eauto.
Qed.

Lemma plain_read f k v f' ev :
  record_ok ev → fresh f k → key_read f k v f' →
  plain_match f' ev ↔ plain_match f ev ∧ plain_entry ev k v.
Proof.
  intros Hev (Hi & Ha & Hk & Hs & Hu & _) Hr.
  destruct (record_ok_fields ev Hev) as (Bi & Li & Bp & Lp & Uc1 & Uc2).
  destruct Hr as [k Hlist|a s ? H|a s ? H|a s ? H|tag a s ? ? H|tag a s ? ? H|n|n|n|q s].
  - split; [intros []; done|]. intros [_ (He1 & He2 & He3 & _ & _ & He6)]. exfalso.
    destruct Hlist as [-> |[-> |[-> |[tag ->]]]].
    + by destruct (He1 eq_refl) as (? & [= <-] & ?%elem_of_nil).
    + by destruct (He2 eq_refl) as (? & [= <-] & ?%elem_of_nil).
    + by destruct (He3 eq_refl) as (? & [= <-] & ?%elem_of_nil).
    + by apply (He6 tag).
  - specialize (Hi eq_refl).
    rewrite (plain_entry_ids ev a s H Bi Li). split; [intros []|intros [[] ?]].
    + split; [split; cbn in *; try done; congruence|]. by eauto.
    + split; cbn; try done. naive_solver.
  - specialize (Ha eq_refl).
    rewrite (plain_entry_authors ev a s H Bp Lp). split; [intros []|intros [[] ?]].
    + split; [split; cbn in *; try done; congruence|]. by eauto.
    + split; cbn; try done. naive_solver.
  - specialize (Hk eq_refl).
    rewrite (plain_entry_kinds ev a s H). split; [intros []|intros [[] ?]].
    + split; [split; cbn in *; try done; congruence|]. by eauto.
    + split; cbn; try done. naive_solver.
  - split; [intros []; split; [done|]|intros [[] _]; done].
    apply plain_entry_other; [by apply (bool_decide_unpack _); vm_compute|]. intros tag' _ [= ->]. done.
  - split; [intros []; split; [done|]|intros [[] _]; done].
    apply plain_entry_other; [by apply (bool_decide_unpack _); vm_compute|]. intros tag' E. key_clash.
  - specialize (Hs eq_refl).
    rewrite plain_entry_since. split; [intros []|intros [[] ?]].
    + split; [split; cbn in *; try done; lia|]. by eauto.
    + split; cbn; try done.
  - specialize (Hu eq_refl).
    rewrite plain_entry_until. split; [intros []|intros [[] ?]].
    + split; [split; cbn in *; try done; lia|]. by eauto.
    + split; cbn; try done.
  - split; [intros []; split; [done|]|intros [[] _]; done].
    apply plain_entry_other; [by apply (bool_decide_unpack _); vm_compute|]. intros tag' E. key_clash.
  - split; [intros []; split; [done|]|intros [[] _]; done].
    apply plain_entry_other; [by apply (bool_decide_unpack _); vm_compute|]. intros tag' E. key_clash.
Qed.
End invariant.

(** ** The whole object *)

Section object.
Context {HC : HexCrate} {SH : Sha256} {UC : UnicodeChars} {HL : HexLaws}.

Lemma ok_read f k v f' : filter_ok f → key_read f k v f' → filter_ok f'.
Proof.
  intros Hok Hr.
  destruct Hr as [k Hlist|a s ? H|a s ? H|a s ? H|tag a s ? ? H|tag a s ? ? H|n|n|n|q s];
    destruct Hok; split; cbn; try done.
  - intros ? [= <-]. apply hex_set_Ok in H. naive_solver.
  - intros ? [= <-]. apply hex_set_Ok in H. naive_solver.
  - intros ? [= <-]. apply kind_set_Ok in H. naive_solver.
  - by apply (bt_insert_sorted Z.compare).
  - intros tag' s' Hin. apply (bt_get_elem Z.compare) in Hin; [|by apply (bt_insert_sorted Z.compare)].
    rewrite (bt_get_insert Z.compare) in Hin. destruct (tag' ?= tag) eqn:E.
    + apply Z.compare_eq in E as ->. simplify_eq. apply tag_set_Ok in H. naive_solver.
    + apply (bt_get_elem Z.compare) in Hin; eauto.
    + apply (bt_get_elem Z.compare) in Hin; eauto.
  - by apply (bt_insert_sorted Z.compare).
  - intros tag' s' Hin. apply (bt_get_elem Z.compare) in Hin; [|by apply (bt_insert_sorted Z.compare)].
    rewrite (bt_get_insert Z.compare) in Hin. destruct (tag' ?= tag) eqn:E.
    + apply Z.compare_eq in E as ->. simplify_eq. apply tag_set_Ok in H. naive_solver.
    + apply (bt_get_elem Z.compare) in Hin; eauto.
    + apply (bt_get_elem Z.compare) in Hin; eauto.
Qed.

(** The entry gives the values [s] for the tag, after the sign [c]. *)
Definition gives (c tag : Z) (s : FilterSetBytes) (kv : bytes * Value) : Prop :=
  ∃ a, kv = ([c; tag], Array a) ∧ a ≠ [] ∧ parse_tag_set tag (Array a) = Ok s.

Lemma not_gives c tag s k v : k ≠ [c; tag] ∨ v = Array [] → ¬ gives c tag s (k, v).
Proof. intros H (a & E & Ha & _). naive_solver. Qed.

(** Reading a key adds its values and keeps the others. *)
Lemma gives_insert c (m : list (Z * FilterSetBytes)) t a s' tag s :
  bt_get Z.compare m t = None → a ≠ [] → parse_tag_set t (Array a) = Ok s' →
  bt_get Z.compare (bt_insert Z.compare m t s') tag = Some s ↔
  bt_get Z.compare m tag = Some s ∨ gives c tag s ([c; t], Array a).
Proof.
  intros Ht Ha H. rewrite (bt_get_insert Z.compare). destruct (Z.compare_spec tag t) as [-> |E|E].
  - rewrite Ht. split.
    + intros [= ->]. right. by exists a.
    + intros [?|(a' & [= <-] & _ & H')]; [done|congruence].
  - split; [by left|]. intros [?|(a' & [= -> _] & _)]; [done|lia].
  - split; [by left|]. intros [?|(a' & [= -> _] & _)]; [done|lia].
Qed.

Ltac other_key :=
  split; [by left|]; intros [?|[]%not_gives]; [done|];
  first [by right | left; let E := fresh in intros E; vm_compute in E; discriminate E].

Lemma tags_read f k v f' tag s :
  fresh f k → key_read f k v f' →
  bt_get Z.compare (f_tags f') tag = Some s ↔
  bt_get Z.compare (f_tags f) tag = Some s ∨ gives (ch "#") tag s (k, v).
Proof.
  intros (_ & _ & _ & _ & _ & Ht & _) Hr. destruct Hr; try other_key.
  by apply gives_insert; [apply Ht|..].
Qed.

Lemma and_read f k v f' tag s :
  fresh f k → key_read f k v f' →
  bt_get Z.compare (f_and_tags f') tag = Some s ↔
  bt_get Z.compare (f_and_tags f) tag = Some s ∨ gives (ch "&") tag s (k, v).
Proof.
  intros (_ & _ & _ & _ & _ & _ & Ha) Hr. destruct Hr; try other_key.
  by apply gives_insert; [apply Ha|..].
Qed.

(** What the loop has built after the entries [l]. *)
Record parsed (l : list (bytes * Value)) (f : NostrFilter) : Prop := {
  p_ok : filter_ok f;
  p_plain ev : record_ok ev → plain_match f ev ↔ ∀ k v, (k, v) ∈ l → plain_entry ev k v;
  p_tags tag s : bt_get Z.compare (f_tags f) tag = Some s ↔ ∃ kv, kv ∈ l ∧ gives (ch "#") tag s kv;
  p_and tag s : bt_get Z.compare (f_and_tags f) tag = Some s ↔ ∃ kv, kv ∈ l ∧ gives (ch "&") tag s kv;
  p_hash tag v : ([ch "#"; tag], v) ∈ l → v = Array [] ∨ ∃ s, gives (ch "#") tag s ([ch "#"; tag], v);
  p_amp tag v : ([ch "&"; tag], v) ∈ l → ∃ s, gives (ch "&") tag s ([ch "&"; tag], v);
  p_fresh k : k ∉ l.*1 → fresh f k;
  p_search : is_Some (f_search f) ↔ str "search" ∈ l.*1;
}.

Lemma empty_parsed : parsed [] empty_filter.
Proof.
  split.
  - split; cbn; try done; try apply SSorted_nil; by intros ? ? ?%elem_of_nil.
  - intros ev Hev. destruct (record_ok_fields ev Hev) as (_ & _ & _ & _ & Hc).
    split; [intros _ k v ?%elem_of_nil; done|]. intros _. by split; try done; apply Hc.
  - intros tag s. split; [done|]. by intros (kv & ?%elem_of_nil & _).
  - intros tag s. split; [done|]. by intros (kv & ?%elem_of_nil & _).
  - by intros tag v ?%elem_of_nil.
  - by intros tag v ?%elem_of_nil.
  - done.
  - split; [by intros []|by intros ?%elem_of_nil].
Qed.

Lemma search_read f k v f' :
  key_read f k v f' → is_Some (f_search f') ↔ is_Some (f_search f) ∨ k = str "search".
Proof.
  intros Hr. destruct Hr as [k Hl| | | | | | | | |]; try (split; [by left|]; intros [?|E]; [done|key_clash]).
  - split; [by left|]. intros [?| ->]; [done|]. destruct Hl as [E|[E|[E|[tag E]]]]; key_clash.
  - split; [by right|]. by eexists.
Qed.

Lemma key_read_tag f k v f' tag :
  key_read f k v f' →
  (k = [ch "#"; tag] → v = Array [] ∨ ∃ s, gives (ch "#") tag s (k, v)) ∧
  (k = [ch "&"; tag] → ∃ s, gives (ch "&") tag s (k, v)).
Proof.
  intros Hr. destruct Hr as [k Hl|a s ? H|a s ? H|a s ? H|t a s ? ? H|t a s ? ? H|n|n|n|q s];
    (split; intros E; [try key_clash|try key_clash]).
  - by left.
  - exfalso. destruct Hl as [-> |[-> |[-> |[tag' ->]]]]; key_clash.
  - right. injection E as ->. by exists s, a.
  - injection E as ->. by exists s, a.
Qed.

Lemma parsed_read l f k v f' :
  parsed l f → k ∉ l.*1 → key_read f k v f' → parsed (l ++ [(k, v)]) f'.
Proof.
  intros [Hok Hplain Htags Hand Hhash Hamp Hfresh Hsearch] Hk Hr. pose proof (Hfresh k Hk) as Hf.
  split.
  - by eapply ok_read.
  - intros ev Hev. rewrite (plain_read _ _ _ _ _ Hev Hf Hr), (Hplain ev Hev). set_solver.
  - intros tag s. rewrite (tags_read _ _ _ _ _ _ Hf Hr), Htags. set_solver.
  - intros tag s. rewrite (and_read _ _ _ _ _ _ Hf Hr), Hand. set_solver.
  - intros tag w [?|[= <- <-]%list_elem_of_singleton]%elem_of_app; [by apply Hhash|].
    by apply (key_read_tag _ _ _ _ tag Hr).
  - intros tag w [?|[= <- <-]%list_elem_of_singleton]%elem_of_app; [by apply Hamp|].
    by apply (key_read_tag _ _ _ _ tag Hr).
  - intros k'. rewrite fmap_app, not_elem_of_app. intros [Hk' Hne].
    apply (fresh_read _ _ _ _ _ Hr); [set_solver|by apply Hfresh].
  - rewrite (search_read _ _ _ _ Hr), Hsearch, fmap_app. set_solver.
Qed.

Lemma parse_keys_parsed l l' f n f' n' :
  NoDup ((l ++ l').*1) → parsed l f →
  try_fold parse_key (f, n) l' = Ok (f', n') → parsed (l ++ l') f'.
Proof.
  revert l f n. induction l' as [|[k v] l' IH]; intros l f n Hnd Hp H; cbn in H.
  - simplify_eq. by rewrite app_nil_r.
  - change (parse_key (f, n) (k, v) ≫= (λ a, try_fold parse_key a l') = Ok (f', n')) in H.
    inv_bind H. destruct v0 as [f1 n1]. apply parse_key_Ok in Hv.
    rewrite (cons_middle (k, v)), app_assoc in *. eapply IH; [done| |done].
    eapply parsed_read; [done| |done].
    rewrite !fmap_app, <- app_assoc in Hnd. apply NoDup_app in Hnd as (_ & Hd & _).
    intros Hin. apply (Hd k Hin). set_solver.
Qed.
End object.

(** ** Required values *)

Lemma bt_get_drop_required (tags ands : tag_sets) tag :
  bt_sorted Z.compare ands →
  bt_get Z.compare (foldl drop_required tags ands) tag =
  (λ s, match bt_get Z.compare ands tag with
        | Some r => FilterSetBytes_remove_all s r
        | None => s
        end) <$> bt_get Z.compare tags tag.
Proof.
  unfold bt_sorted. revert tags. induction ands as [|[t r] ands IH]; intros tags; cbn.
  { by destruct bt_get. }
  intros [Hs Hf]%StronglySorted_inv. rewrite IH by done. unfold drop_required at 1. cbn.
  rewrite (bt_get_update Z.compare). rewrite (Z.compare_antisym t tag).
  destruct (Z.compare_spec t tag) as [-> |E|E]; cbn; [|done..].
  destruct (bt_get Z.compare ands tag) eqn:E; [|by destruct (bt_get Z.compare tags tag)].
  apply (bt_get_elem Z.compare) in E; [|done].
  eapply Forall_forall in Hf; [|by apply (list_elem_of_fmap_2' fst _ (tag, f))].
  by apply (irreflexivity (cmp_lt Z.compare)) in Hf.
Qed.

Lemma drop_required_sorted (tags ands : tag_sets) :
  bt_sorted Z.compare tags → bt_sorted Z.compare (foldl drop_required tags ands).
Proof.
  revert tags. induction ands as [|e ands IH]; intros tags H; cbn; [done|].
  apply IH. unfold bt_sorted, drop_required in *. by rewrite bt_update_keys.
Qed.

(** The filter with the alternatives that are left. *)
Definition without_required (f : NostrFilter) : NostrFilter :=
  set_tags f (filter (λ e, (0 < FilterSetBytes_size e.2)%nat)
    (foldl drop_required (f_tags f) (f_and_tags f))).

Definition is_required (f : NostrFilter) (tag : Z) (x : bytes) : Prop :=
  ∃ r, bt_get Z.compare (f_and_tags f) tag = Some r ∧ x ∈ fsb_items r.

Lemma without_required_tags f tag s :
  filter_ok f →
  (tag, s) ∈ f_tags (without_required f) ↔
  fsb_items s ≠ [] ∧ ∃ s0, bt_get Z.compare (f_tags f) tag = Some s0 ∧
    s = match bt_get Z.compare (f_and_tags f) tag with
        | Some r => FilterSetBytes_remove_all s0 r
        | None => s0
        end.
Proof.
  intros Hok. cbn. rewrite list_elem_of_filter.
  rewrite <- (bt_get_elem Z.compare) by apply drop_required_sorted, Hok.
  rewrite bt_get_drop_required by apply Hok. rewrite fmap_Some. unfold FilterSetBytes_size. cbn.
  assert ((0 < length (fsb_items s))%nat ↔ fsb_items s ≠ []) as -> by (destruct (fsb_items s); cbn; naive_solver lia).
  done.
Qed.

Lemma left_over f tag s0 x :
  filter_ok f → bt_get Z.compare (f_tags f) tag = Some s0 →
  x ∈ fsb_items (match bt_get Z.compare (f_and_tags f) tag with
                 | Some r => FilterSetBytes_remove_all s0 r
                 | None => s0
                 end) ↔ x ∈ fsb_items s0 ∧ ¬ is_required f tag x.
Proof.
  intros Hok Hs. unfold is_required. destruct (bt_get _ (f_and_tags f) tag) as [r|] eqn:E; [|naive_solver].
  apply (bt_get_elem Z.compare) in E; [|apply Hok].
  rewrite remove_all_spec by apply (ok_and _ Hok _ _ E). naive_solver.
Qed.

Lemma without_required_ok f : filter_ok f → filter_ok (without_required f).
Proof.
  intros Hok. pose proof (λ t s, without_required_tags f t s Hok) as Ht.
  split; try apply Hok.
  - apply (bt_filter_sorted Z.compare), drop_required_sorted, Hok.
  - intros tag s [Hne (s0 & Hs0 & ->)]%Ht.
    apply (bt_get_elem Z.compare) in Hs0; [|apply Hok].
    destruct (ok_tags _ Hok _ _ Hs0) as (Ha & Hs & _). split_and!; [done| |done].
    destruct bt_get; [by apply remove_all_ok|done].
Qed.

Lemma without_required_match f ev :
  filter_ok f →
  tags_match (without_required f) ev ↔
  (∀ tag s, bt_get Z.compare (f_tags f) tag = Some s →
     (∀ x, x ∈ fsb_items s → is_required f tag x) ∨
     ∃ x, x ∈ fsb_items s ∧ ¬ is_required f tag x ∧ (tag, x) ∈ filter_tags ev) ∧
  (∀ tag s x, bt_get Z.compare (f_and_tags f) tag = Some s → x ∈ fsb_items s →
     (tag, x) ∈ filter_tags ev).
Proof.
  intros Hok. pose proof (λ t s, without_required_tags f t s Hok) as Ht.
  pose proof (λ tag s x, left_over f tag s x Hok) as Hleft. split.
  - intros [Htags Hand]. split.
    + intros tag s Hs.
      set (s' := match bt_get Z.compare (f_and_tags f) tag with
                 | Some r => FilterSetBytes_remove_all s r | None => s end).
      destruct (decide (fsb_items s' = [])) as [E|Hne].
      * left. intros x Hx. destruct (bt_get Z.compare (f_and_tags f) tag) as [r|] eqn:Er.
        -- exists r. split; [done|]. destruct (decide (x ∈ fsb_items r)) as [|Hn]; [done|].
           exfalso. apply (not_elem_of_nil x). rewrite <- E. apply remove_all_spec; [|done].
           apply (bt_get_elem Z.compare) in Er; [|apply Hok]. apply (ok_and _ Hok _ _ Er).
        -- exfalso. apply (not_elem_of_nil x). by rewrite <- E.
      * right. destruct (Htags tag s') as (x & Hx & Hin); [apply Ht; eauto|].
        apply (Hleft tag s x Hs) in Hx as [Hx Hn]. eauto.
    + intros tag s x Hs. apply Hand. by apply (bt_get_elem Z.compare); [apply Hok|].
  - intros [Htags Hand]. split.
    + intros tag s [Hne (s0 & Hs0 & ->)]%Ht. destruct (Htags tag s0 Hs0) as [Hall|(x & Hx & Hn & Hin)].
      * exfalso. apply Hne. apply elem_of_nil_inv. intros x Hx.
        apply (Hleft tag s0 x Hs0) in Hx as [Hx Hn]. by apply Hn, Hall.
      * exists x. split; [|done]. by apply (Hleft tag s0 x Hs0).
    + intros tag s x Hin. apply Hand. by apply (bt_get_elem Z.compare); [apply Hok|].
Qed.

(** ** From the JSON to the compiled filter *)

Section compiled.
Context {HC : HexCrate} {SH : Sha256} {UC : UnicodeChars} {HL : HexLaws}.

(** The limit and the scan flag have no part in matching. *)
Lemma finish_ok f n b (c : bool) :
  filter_ok f → filter_ok (set_index_only (if c then set_limit f n else f) b).
Proof. intros []. by destruct c; split. Qed.

Lemma finish_plain f n b (c : bool) ev :
  plain_match (set_index_only (if c then set_limit f n else f) b) ev ↔ plain_match f ev.
Proof. destruct c; (split; intros []; by split). Qed.

Lemma finish_tags f n b (c : bool) ev :
  tags_match (set_index_only (if c then set_limit f n else f) b) ev ↔ tags_match f ev.
Proof. destruct c; (split; intros []; by split). Qed.

Lemma keys_NoDup obj : value_wf true (Object obj) = true → NoDup (obj.*1).
Proof.
  cbn. intros H. rewrite !andb_true_iff in H. destruct H as [[H _] _].
  eapply (strictly_sorted_NoDup bytes_cmp), keys_sorted_strongly, H.
Qed.

Lemma NostrFilter_parse_Ok obj max_limit max_tags max_and f :
  value_wf true (Object obj) = true →
  NostrFilter_parse (Object obj) max_limit max_tags max_and = Ok f →
  ∃ f0, parsed obj f0 ∧ filter_ok f ∧ f_limit f ≤ max_limit ∧
    (tag_key_count f ≤ max_tags)%nat ∧ (and_entry_count f ≤ max_and)%nat ∧
    ∀ ev, (plain_match f ev ↔ plain_match f0 ev) ∧
          (tags_match f ev ↔ tags_match (without_required f0) ev).
Proof.
  intros Hwf H. unfold NostrFilter_parse in H. inv_bind H. destruct v as [f0 n].
  apply (parse_keys_parsed []) in Hv; [|by apply keys_NoDup|apply empty_parsed].
  fold (without_required f0) in H. exists f0. split; [done|].
  destruct (Nat.ltb_spec max_tags (tag_key_count (without_required f0))); [done|].
  destruct (Nat.ltb_spec max_and (and_entry_count (without_required f0))); [done|].
  injection H as <-. split_and!.
  - apply finish_ok, without_required_ok, Hv.
  - cbn. destruct (_ >? _) eqn:E; cbn; lia.
  - by destruct (_ >? _).
  - by destruct (_ >? _).
  - intros ev. rewrite finish_plain, finish_tags. split; [|done]. split; intros []; by split.
Qed.

Lemma required_spec obj f tag s :
  parsed obj f → is_required f tag (packed_value tag s) ↔ required obj tag s.
Proof.
  intros Hp. unfold is_required, required. split.
  - intros (r & (kv & Hin & a & -> & Ha & Hr)%(p_and _ _ Hp) & Hx).
    apply tag_set_Ok in Hr as (a' & [= <-] & _ & Hr & _). apply Hr in Hx as (raw & Hraw & E).
    by exists a, raw.
  - intros (a & s' & Hin & Hs' & E).
    destruct (p_amp _ _ Hp _ _ Hin) as (r & Hg). exists r. split.
    + apply (p_and _ _ Hp). eauto.
    + destruct Hg as (a' & [= <-] & _ & Hr). apply tag_set_Ok in Hr as (a' & [= <-] & _ & Hr & _).
      apply Hr. by exists s'.
Qed.

(** The alternatives of the filter and those of its object agree. *)
Lemma alternatives_spec obj f ev :
  parsed obj f →
  (∀ tag s, bt_get Z.compare (f_tags f) tag = Some s →
     (∀ x, x ∈ fsb_items s → is_required f tag x) ∨
     ∃ x, x ∈ fsb_items s ∧ ¬ is_required f tag x ∧ (tag, x) ∈ filter_tags ev) ↔
  (∀ tag a, ([ch "#"; tag], Array a) ∈ obj → a ≠ [] →
     (∀ s, Str s ∈ a → required obj tag s) ∨
     ∃ s, Str s ∈ a ∧ ¬ required obj tag s ∧ has_tag ev tag s).
Proof.
  intros Hp. pose proof (λ tag s, required_spec obj f tag s Hp) as Hreq.
  assert (∀ tag a s, parse_tag_set tag (Array a) = Ok s →
    ((∀ x, x ∈ fsb_items s → is_required f tag x) ∨
     ∃ x, x ∈ fsb_items s ∧ ¬ is_required f tag x ∧ (tag, x) ∈ filter_tags ev) ↔
    ((∀ s, Str s ∈ a → required obj tag s) ∨
     ∃ s, Str s ∈ a ∧ ¬ required obj tag s ∧ has_tag ev tag s)) as Hone.
  { intros tag a s (a' & [= <-] & _ & Hin & _)%tag_set_Ok. unfold has_tag. split.
    - intros [H|(x & (raw & Hraw & ->)%Hin & Hn & Hx)]; [left; intros raw Hraw|right; exists raw].
      + apply Hreq, H, Hin. eauto.
      + by rewrite <- Hreq.
    - intros [H|(raw & Hraw & Hn & Hx)]; [left; intros x (raw & Hraw & ->)%Hin|].
      + by apply Hreq, H.
      + right. exists (packed_value tag raw). rewrite Hreq, Hin. eauto. }
  split.
  - intros H tag a Hin Ha. destruct (p_hash _ _ Hp _ _ Hin) as [[= ->]|[s Hg]]; [done|].
    assert (bt_get Z.compare (f_tags f) tag = Some s) as Hs by (apply (p_tags _ _ Hp); eauto).
    destruct Hg as (a' & [= <-] & _ & Hs'). by apply (Hone _ _ _ Hs'), H.
  - intros H tag s (kv & Hin & a & -> & Ha & Hs)%(p_tags _ _ Hp). by apply (Hone _ _ _ Hs), H.
Qed.

Lemma requirements_spec obj f ev :
  parsed obj f →
  (∀ tag s x, bt_get Z.compare (f_and_tags f) tag = Some s → x ∈ fsb_items s →
     (tag, x) ∈ filter_tags ev) ↔
  (∀ tag a s, ([ch "&"; tag], Array a) ∈ obj → Str s ∈ a → has_tag ev tag s).
Proof.
  intros Hp. unfold has_tag. split.
  - intros H tag a raw Hin Hraw. destruct (p_amp _ _ Hp _ _ Hin) as [s Hg].
    apply (H tag s); [apply (p_and _ _ Hp); eauto|].
    destruct Hg as (a1 & [= <-] & _ & (a2 & [= <-] & _ & Hs & _)%tag_set_Ok). apply Hs. eauto.
  - intros H tag s x (kv & Hin & a & -> & Ha & (a' & [= <-] & _ & Hs & _)%tag_set_Ok)%(p_and _ _ Hp) Hx.
    apply Hs in Hx as (raw & Hraw & ->). by eapply H.
Qed.

Lemma object_matches_split obj f ev :
  parsed obj f →
  filter_object_matches obj ev ↔
  (∀ k v, (k, v) ∈ obj → plain_entry ev k v) ∧
  (∀ tag a, ([ch "#"; tag], Array a) ∈ obj → a ≠ [] →
     (∀ s, Str s ∈ a → required obj tag s) ∨
     ∃ s, Str s ∈ a ∧ ¬ required obj tag s ∧ has_tag ev tag s) ∧
  (∀ tag a s, ([ch "&"; tag], Array a) ∈ obj → Str s ∈ a → has_tag ev tag s).
Proof.
  intros Hp. unfold filter_object_matches, entry_matches, plain_entry. split.
  - intros H. split_and!.
    + intros k v Hin. destruct (H k v Hin) as (? & ? & ? & ? & ? & Ht & _). split_and!; try done.
      intros tag E Ev. destruct (Ht tag E) as (a & Ea & Hne & _). congruence.
    + intros tag a Hin Ha. destruct (H _ _ Hin) as (_ & _ & _ & _ & _ & Ht & _).
      by destruct (Ht tag eq_refl) as (a' & [= <-] & _ & ?).
    + intros tag a s Hin Hs. destruct (H _ _ Hin) as (_ & _ & _ & _ & _ & _ & Ht).
      destruct (Ht tag eq_refl) as (a' & [= <-] & ?). auto.
  - intros (Hplain & Htags & Hand) k v Hin. destruct (Hplain k v Hin) as (? & ? & ? & ? & ? & Ht).
    split_and!; try done.
    + intros tag ->. specialize (Ht tag eq_refl).
      destruct (p_hash _ _ Hp _ _ Hin) as [->|(s & a & [= ->] & Ha & _)]; [done|]. eauto 10.
    + intros tag ->. destruct (p_amp _ _ Hp _ _ Hin) as (s & a & [= ->] & Ha & _). eauto.
Qed.

Lemma parse_matches obj max_limit max_tags max_and f ev l :
  value_wf true (Object obj) = true →
  NostrFilter_parse (Object obj) max_limit max_tags max_and = Ok f →
  record_ok ev → record_tags ev l →
  does_match_without_search f ev = true ↔ filter_object_matches obj ev.
Proof.
  intros Hwf Hf Hev Hl.
  destruct (NostrFilter_parse_Ok _ _ _ _ _ Hwf Hf) as (f0 & Hp & Hok & _ & _ & _ & Hm).
  destruct (Hm ev) as [Hplain Htags].
  rewrite (does_match_spec f ev l Hok Hl), Hplain, Htags, without_required_match by apply Hp.
  rewrite (p_plain _ _ Hp ev Hev), (alternatives_spec obj f0 ev Hp), (requirements_spec obj f0 ev Hp).
  by rewrite (object_matches_split obj f0 ev Hp).
Qed.

Lemma parse_search obj max_limit max_tags max_and f :
  value_wf true (Object obj) = true →
  NostrFilter_parse (Object obj) max_limit max_tags max_and = Ok f →
  is_Some (f_search f) ↔ str "search" ∈ obj.*1.
Proof.
  intros Hwf H. unfold NostrFilter_parse in H. inv_bind H. destruct v as [f0 n].
  apply (parse_keys_parsed []) in Hv; [|by apply keys_NoDup|apply empty_parsed].
  destruct (_ <? _)%nat in H; [done|]. destruct (_ <? _)%nat in H; [done|]. injection H as <-.
  rewrite <- (p_search _ _ Hv). cbn. by destruct (_ >? _).
Qed.

(** ** Groups *)

Definition group_ok (fg : NostrFilterGroup) : Prop := Forall filter_ok (g_filters fg).

Lemma add_filter_spec max_limit max_tags max_and fg item fg' :
  value_wf true item = true → add_filter max_limit max_tags max_and fg item = Ok fg' →
  (group_ok fg → group_ok fg') ∧
  ∀ ev l, record_ok ev → record_tags ev l →
    group_does_match fg' ev = true ↔ group_does_match fg ev = true ∨
      ∃ obj, item = Object obj ∧ (str "search" ∉ obj.*1) ∧ filter_object_matches obj ev.
Proof.
  intros Hwf H. unfold add_filter in H. inv_bind H. rename v into f. injection H as <-.
  destruct item as [| | | | |obj]; try done.
  destruct (NostrFilter_parse_Ok _ _ _ _ _ Hwf Hv) as (_ & _ & Hok & _).
  split; [intros Hg; destruct (never_match f); [done|]; apply Forall_app; split; [done|by constructor]|].
  intros ev l Hev Hl. pose proof (parse_matches _ _ _ _ _ _ _ Hwf Hv Hev Hl) as Hm.
  pose proof (parse_search _ _ _ _ _ Hwf Hv) as Hs.
  assert (NostrFilter_does_match f ev = true ↔
    ∃ obj', Object obj = Object obj' ∧ (str "search" ∉ obj'.*1) ∧ filter_object_matches obj' ev) as Hf.
  { unfold NostrFilter_does_match. destruct (f_search f) as [q|]; (split; [|intros (? & [= <-] & Hn & Ho)]).
    - done.
    - by destruct Hn; apply Hs.
    - intros Hd. exists obj. split_and!; [done| |by apply Hm]. by intros [? ?]%Hs.
    - by apply Hm. }
  unfold group_does_match. destruct (never_match f) eqn:En.
  - cbn. rewrite <- Hf. split; [by left|]. intros [?|Hd]; [done|]. exfalso.
    unfold NostrFilter_does_match, does_match_without_search in Hd. rewrite En in Hd. by destruct (f_search f).
  - cbn. rewrite existsb_app, orb_true_iff. cbn. by rewrite orb_false_r, Hf.
Qed.

Lemma add_filters_spec max_limit max_tags max_and items fg fg' :
  Forall (λ v, value_wf true v = true) items →
  try_fold (add_filter max_limit max_tags max_and) fg items = Ok fg' →
  (group_ok fg → group_ok fg') ∧
  ∀ ev l, record_ok ev → record_tags ev l →
    group_does_match fg' ev = true ↔ group_does_match fg ev = true ∨
      ∃ obj, Object obj ∈ items ∧ (str "search" ∉ obj.*1) ∧ filter_object_matches obj ev.
Proof.
  intros Hwf. revert fg. induction Hwf as [|v items Hv _ IH]; intros fg H; cbn in H.
  { injection H as <-. split; [done|]. intros ev l _ _. split; [by left|].
    by intros [?|(? & ?%elem_of_nil & _)]. }
  inv_bind H. apply add_filter_spec in Hv0 as [Hg1 Hm1]; [|done]. apply IH in H as [Hg Hm].
  split; [auto|]. intros ev l Hev Hl. rewrite (Hm ev l Hev Hl), (Hm1 ev l Hev Hl). split.
  - intros [[?|(obj & -> & ?)]|(obj & ? & ?)]; [by left| |]; right; exists obj; (split; [|done]);
      [by left|by right].
  - intros [?|(obj & [<- |?]%elem_of_cons & ?)]; [by left; left|left; right|right]; eauto.
Qed.
End compiled.

(** ** The relay's rules *)

(** The set gives exactly one value. *)
Definition one_value (s : option FilterSetBytes) : Prop :=
  ∃ s' x, s = Some s' ∧ fsb_items s' = [x].

(** The filter breaks the rule behind the limit. *)
Definition breaks (v : FilterValidator) (f : NostrFilter) (l : FilterLimit) : Prop :=
  match l with
  | KindsPerFilter => ∃ s, f_kinds f = Some s ∧ max_kinds_per_filter v ≠ 0 ∧
      max_kinds_per_filter v < Z.of_nat (length (fsu_items s))
  | AllowedKinds => ∃ s k, f_kinds f = Some s ∧ allowed_kinds v ≠ ∅ ∧
      k ∈ fsu_items s ∧ k ∉ allowed_kinds v
  | ScopedFilters => require_scoped_filters v = true ∧
      f_ids f = None ∧ f_authors f = None ∧ f_tags f = [] ∧ f_and_tags f = []
  | AuthorOrTag => require_author_or_tag v = true ∧ ¬ one_value (f_authors f) ∧
      ∀ tag, tag = ch "p" ∨ tag = ch "e" →
        ¬ one_value (bt_get Z.compare (f_tags f) tag) ∧
        ¬ one_value (bt_get Z.compare (f_and_tags f) tag)
  | TagsPerFilter | AndEntries => False
  end.

Lemma is_single_spec s : is_single s = true ↔ one_value s.
Proof.
  unfold is_single, one_value, FilterSetBytes_size. destruct s as [s|]; [|split; [done|naive_solver]].
  split.
  - destruct (fsb_items s) as [|x [|y l]] eqn:E; cbn; try done. intros _. by exists s, x.
  - intros (s' & x & [= <-] & E). by rewrite E.
Qed.

Lemma check_allowed_spec v ks :
  match try_fold (check_allowed v) () ks with
  | Ok _ => ∀ k, k ∈ ks → k ∈ allowed_kinds v
  | Err e => query_broken_limit e = Some AllowedKinds ∧ ∃ k, k ∈ ks ∧ k ∉ allowed_kinds v
  end.
Proof.
  induction ks as [|k ks IH]; [by intros k ?%elem_of_nil|]. cbn [try_fold].
  unfold check_allowed at 2. case_bool_decide as Hk; cbn [mbind result_bind].
  - destruct try_fold as [[]|e].
    + intros k' [-> |?]%elem_of_cons; [done|]. by apply IH.
    + destruct IH as (? & k' & ? & ?). split; [done|]. exists k'. split; [by right|done].
  - split; [done|]. exists k. split; [by left|done].
Qed.

(** The rules on kinds. *)
Lemma validate_kinds_spec v f :
  match match f_kinds f with
        | Some kinds =>
            if negb (max_kinds_per_filter v =? 0)
               && (Z.of_nat (FilterSetUint_size kinds) >? max_kinds_per_filter v)
            then Err (QLimit KindsPerFilter (Text "too many kinds in filter: {}"
                        [TNum (Z.of_nat (FilterSetUint_size kinds))]))
            else if bool_decide (allowed_kinds v = ∅) then Ok ()
            else try_fold (check_allowed v) () (fsu_items kinds)
        | None => Ok ()
        end with
  | Ok _ => ¬ breaks v f KindsPerFilter ∧ ¬ breaks v f AllowedKinds
  | Err e => ∃ l, query_broken_limit e = Some l ∧ breaks v f l
  end.
Proof.
  destruct (f_kinds f) as [s|] eqn:Ek; cbn -[try_fold]; [|naive_solver]. unfold FilterSetUint_size.
  destruct (_ && _) eqn:E; cbn -[try_fold].
  - exists KindsPerFilter. split; [done|]. exists s. split; [done|]. lia.
  - assert (¬ breaks v f KindsPerFilter).
    { intros (s' & Hs' & ? & ?). simplify_eq. lia. }
    case_bool_decide; [split; [done|]; intros (? & ? & ? & ? & _); done|].
    pose proof (check_allowed_spec v (fsu_items s)) as Hc. destruct try_fold as [[]|e].
    + split; [done|]. intros (s' & k & ? & _ & Hk & Hn). simplify_eq. by apply Hn, Hc.
    + destruct Hc as (He & k & Hk & Hn). exists AllowedKinds. split; [done|]. exists s, k. done.
Qed.

Lemma scoped_spec v f :
  require_scoped_filters v && bool_decide (f_ids f = None) && bool_decide (f_authors f = None)
    && bool_decide (f_tags f = []) && bool_decide (f_and_tags f = []) = true ↔
  breaks v f ScopedFilters.
Proof. cbn. rewrite !andb_true_iff, !bool_decide_eq_true. naive_solver. Qed.

Lemma author_or_tag_spec v f :
  require_author_or_tag v = true →
  negb (is_single (f_authors f)) && negb (is_single (bt_get Z.compare (f_tags f) (ch "p")))
    && negb (is_single (bt_get Z.compare (f_tags f) (ch "e")))
    && negb (is_single (bt_get Z.compare (f_and_tags f) (ch "p")))
    && negb (is_single (bt_get Z.compare (f_and_tags f) (ch "e"))) = true ↔
  breaks v f AuthorOrTag.
Proof.
  intros Hr. assert (∀ s, negb (is_single s) = true ↔ ¬ one_value s) as Hs.
  { intros s. rewrite <- is_single_spec. destruct is_single; naive_solver. }
  unfold breaks. rewrite !andb_true_iff, !Hs.
  split; [|by intros (_ & ? & Ht); split_and!; try apply Ht; auto].
  intros ((((? & ?) & ?) & ?) & ?). split_and!; [done..|]. by intros tag [-> | ->].
Qed.

Lemma validate_filter_spec v f :
  match validate_filter v () f with
  | Ok _ => ∀ l, ¬ breaks v f l
  | Err e => ∃ l, query_broken_limit e = Some l ∧ breaks v f l
  end.
Proof.
  unfold validate_filter. pose proof (validate_kinds_spec v f) as Hk. revert Hk.
  match goal with |- match ?m with _ => _ end → _ => destruct m as [[]|e] end; [|done].
  intros [Hk1 Hk2]. cbn. pose proof (scoped_spec v f) as Hs.
  destruct (_ && _) in Hs |- *; [exists ScopedFilters; split; [done|by apply Hs]|].
  assert (¬ breaks v f ScopedFilters) by (intros ?%Hs; done).
  destruct (require_author_or_tag v) eqn:Hr.
  - pose proof (author_or_tag_spec v f Hr) as Ha.
    destruct (_ && _) in Ha |- *; [exists AuthorOrTag; split; [done|by apply Ha]|].
    intros []; try done; [by intros []..|]. by intros ?%Ha.
  - intros []; try done; [by intros []..|]. intros [? _]. congruence.
Qed.

(** ** Properties *)

Section properties.
Context {HC : HexCrate} {SH : Sha256} {UC : UnicodeChars} {HL : HexLaws}.

(** C4. A compiled filter matches a stored event exactly when every entry of the
    JSON object it was read from does: ids and authors are found by their hex,
    kinds by their number, times within bounds, [#x] by one of its values that
    [&x] does not require anyway, and [&x] by all of its values; an empty list
    matches nothing. *)
Theorem filter_matches_its_object obj max_limit max_tags max_and f ev l :
  value_wf true (Object obj) = true →
  NostrFilter_parse (Object obj) max_limit max_tags max_and = Ok f →
  record_ok ev → record_tags ev l →
  does_match_without_search f ev = true ↔ filter_object_matches obj ev.
Proof.
  apply parse_matches.
Qed.

(** A compiled filter is well formed: its sets are sorted without repeats and
    none is empty, ids and authors have 32 bytes, kinds fit 16 bits, tags are
    letters in order, and the limits on the number of tags, of required values
    and of results hold. *)
Theorem compiled_filter_well_formed obj max_limit max_tags max_and f :
  value_wf true (Object obj) = true →
  NostrFilter_parse (Object obj) max_limit max_tags max_and = Ok f →
  filter_ok f ∧ f_limit f ≤ max_limit ∧
  (tag_key_count f ≤ max_tags)%nat ∧ (and_entry_count f ≤ max_and)%nat.
Proof.
  intros Hwf Hf. by destruct (NostrFilter_parse_Ok _ _ _ _ _ Hwf Hf) as (f0 & _ & ? & ? & ? & ? & _).
Qed.

(** C29. The filters of a REQ match an event exactly when one of its filter
    objects does and asks for no search; filters that can match nothing, which
    the group leaves out, make no difference. *)
Theorem req_matches_one_of_its_filters arr max_limit max_tags max_and fg ev l :
  Forall (λ v, value_wf true v = true) arr →
  from_req arr max_limit max_tags max_and = Ok fg → record_ok ev → record_tags ev l →
  group_does_match fg ev = true ↔
    ∃ obj, Object obj ∈ drop 2 arr ∧ (str "search" ∉ obj.*1) ∧ filter_object_matches obj ev.
Proof.
  intros Hwf H Hev Hl. unfold from_req in H. destruct (_ <? _)%nat; [done|].
  apply add_filters_spec in H as [_ Hm]; [|by apply Forall_drop].
  rewrite (Hm ev l Hev Hl). split; [|by right]. by intros [?|?].
Qed.
End properties.

(** C33. Validation accepts a group exactly when none of its filters breaks a
    rule of the relay, and a refusal names a rule that one of them breaks. *)
Theorem validation_names_the_broken_rule v fg :
  match FilterValidator_validate v fg with
  | Ok _ => ∀ f l, f ∈ g_filters fg → ¬ breaks v f l
  | Err e => ∃ f l, f ∈ g_filters fg ∧ breaks v f l ∧ query_broken_limit e = Some l
  end.
Proof.
  unfold FilterValidator_validate. induction (g_filters fg) as [|f fs IH]; [by intros f l ?%elem_of_nil|].
  cbn [try_fold]. pose proof (validate_filter_spec v f) as Hf.
  destruct (validate_filter v () f) as [[]|e]; cbn [mbind result_bind].
  - destruct try_fold as [[]|e].
    + intros f' l [-> |?]%elem_of_cons; [apply Hf|by apply IH].
    + destruct IH as (f' & l & ? & ? & ?). exists f', l. split_and!; [by right|done..].
  - destruct Hf as (l & ? & ?). exists f, l. split_and!; [by left|done..].
Qed.

(** ** Witnesses *)

(** ASCII letters and digits, a model of the Unicode tables for examples. *)
#[local] Instance ascii_chars : UnicodeChars := {|
  is_alphanumeric c := is_ascii_alphabetic c || ((48 <=? c) && (c <=? 57));
  is_whitespace c := c =? 32;
  to_lowercase c := [if (65 <=? c) && (c <=? 90) then c + 32 else c];
|}.

(** [{"#t":["nostr","wok"],"&t":["wok"],"kinds":[1],"since":1000}] *)
Definition sample_filter : list (bytes * Value) :=
  [(str "#t", Array [Str (str "nostr"); Str (str "wok")]);
   (str "&t", Array [Str (str "wok")]);
   (str "kinds", Array [Num (PosInt 1)]);
   (str "since", Num (PosInt 1000))].

Definition compiled_sample : NostrFilter :=
  default empty_filter (result_ok (NostrFilter_parse (Object sample_filter) 500 3 16)).

(** A note of kind 1 with the tags [t] "nostr" and [t] "wok". *)
Definition sample_tags : list PackedEventTag :=
  [(ch "t", str "nostr"); (ch "t", str "wok")].
Definition sample_record : PackedEventView :=
  replicate 32 1 ++ replicate 32 2 ++ to_ne_bytes 2000 ++ to_ne_bytes 1 ++ to_ne_bytes 0
    ++ encode_tags sample_tags.

Lemma filter_matches_its_object_witness :
  does_match_without_search compiled_sample sample_record = true ∧
  filter_object_matches sample_filter sample_record.
Proof.
  assert (does_match_without_search compiled_sample sample_record = true) as H by by vm_compute.
  split; [done|].
  apply (filter_matches_its_object sample_filter 500 3 16 compiled_sample sample_record sample_tags).
  - by vm_compute.
  - by vm_compute.
  - split; [|by vm_compute; lia]. apply (bool_decide_unpack _). by vm_compute.
  - split; [|by vm_compute]. repeat constructor; by vm_compute.
  - done.
Defined.

Lemma compiled_filter_well_formed_witness :
  filter_ok compiled_sample ∧ f_limit compiled_sample ≤ 500 ∧
  (tag_key_count compiled_sample ≤ 3)%nat ∧ (and_entry_count compiled_sample ≤ 16)%nat.
Proof. apply (compiled_filter_well_formed sample_filter 500 3 16 compiled_sample); by vm_compute. Defined.

(** A REQ with a filter that matches nothing and the sample filter. *)
Definition sample_req : list Value :=
  [Str (str "REQ"); Str (str "feed"); Object [(str "ids", Array [])]; Object sample_filter].

Definition sample_group : NostrFilterGroup :=
  default FilterGroup_default (result_ok (from_req sample_req 500 3 16)).

Lemma req_matches_one_of_its_filters_witness :
  group_does_match sample_group sample_record = true ∧
  ∃ obj, Object obj ∈ drop 2 sample_req ∧ (str "search" ∉ obj.*1) ∧ filter_object_matches obj sample_record.
Proof.
  assert (group_does_match sample_group sample_record = true) as H by by vm_compute.
  split; [done|].
  apply (req_matches_one_of_its_filters sample_req 500 3 16 sample_group sample_record sample_tags).
  - repeat constructor; by vm_compute.
  - by vm_compute.
  - split; [|by vm_compute; lia]. apply (bool_decide_unpack _). by vm_compute.
  - split; [|by vm_compute]. repeat constructor; by vm_compute.
  - done.
Defined.
