(* ===== verification/Pending.v ===== *)
(** * Live matches waiting for a subscription's history: wok-query's pending.rs

    The bounded buffer of a subscription whose history is still being sent.
    Stored events are dropped together when they stop fitting, ephemeral events
    oldest first.  Sizes are [usize], kept modulo 2^64 as a release build does. *)

From S2P Require Import Prelude.

Local Open Scope Z_scope.

(** A Rust panic: an [expect] that fails or an index out of range. *)
Variant Panic : Type := Panicked.

Definition expect {A} (o : option A) : result Panic A := ok_or o Panicked.

Definition STORED_ENTRY_BYTES : Z := 16.
Definition EPHEMERAL_ENTRY_OVERHEAD : Z := 64.
Definition PENDING_USIZE_MAX : Z := U64_MAX.

(** [usize::saturating_add] *)
Definition saturating_add (a b : Z) : Z := Z.min (a + b) PENDING_USIZE_MAX.

Record HeldEvent : Type := mkHeldEvent { held_packed : bytes; held_json : bytes }.

Inductive PendingEvent : Type :=
| Stored (lev_id : Z)
| Ephemeral (event : HeldEvent).

Definition PendingEvent_cost (e : PendingEvent) : Z :=
  match e with
  | Stored _ => STORED_ENTRY_BYTES
  | Ephemeral event =>
      saturating_add (len (held_packed event) + len (held_json event)) EPHEMERAL_ENTRY_OVERHEAD
  end.

Definition is_stored (e : PendingEvent) : bool :=
  match e with Stored _ => true | Ephemeral _ => false end.

Record PendingBuffer : Type := mkPendingBuffer {
  pb_events : list PendingEvent;
  pb_bytes : Z;
  pb_stored : nat;
  pb_limit : Z;
  live_from : Z;
  stored_overflowed : bool;
}.

Definition PendingBuffer_new (live_from limit : Z) : PendingBuffer :=
  mkPendingBuffer [] 0 0 limit live_from false.

Definition PendingBuffer_len (b : PendingBuffer) : nat := length (pb_events b).

Definition fits (b : PendingBuffer) (cost : Z) : bool :=
  (pb_limit b =? 0) || (saturating_add (pb_bytes b) cost <=? pb_limit b).

Definition push (b : PendingBuffer) (event : PendingEvent) : PendingBuffer :=
  mkPendingBuffer (pb_events b ++ [event]) (wrap64 (pb_bytes b + PendingEvent_cost event))
    (pb_stored b + (if is_stored event then 1 else 0))%nat (pb_limit b) (live_from b)
    (stored_overflowed b).

Definition drop_stored (b : PendingBuffer) : PendingBuffer :=
  mkPendingBuffer (filter (λ e, is_stored e = false) (pb_events b))
    (wrap64 (pb_bytes b - Z.of_nat (pb_stored b) * STORED_ENTRY_BYTES)) 0 (pb_limit b)
    (live_from b) true.

Definition push_stored (b : PendingBuffer) (lev_id : Z) : PendingBuffer * bool :=
  if stored_overflowed b then (b, false)
  else
    let event := Stored lev_id in
    if fits b (PendingEvent_cost event) then (push b event, false)
    else (drop_stored b, true).

(** The loop that makes room: each iteration takes one event. *)
Definition make_room_step (cost : Z) (st : PendingBuffer * Z)
    : result Panic (PendingBuffer * Z + PendingBuffer * Z) :=
  let '(b, dropped) := st in
  if fits b cost then Ok (inr (b, dropped))
  else
    match pb_events b with
    | [] => Err Panicked
    | oldest :: events =>
        Ok (inl (mkPendingBuffer events (wrap64 (pb_bytes b - PendingEvent_cost oldest))
                   (pb_stored b) (pb_limit b) (live_from b) (stored_overflowed b), dropped + 1))
    end.

Definition make_room (b : PendingBuffer) (cost : Z) : result Panic (PendingBuffer * Z) :=
  loop_m (λ st, length (pb_events st.1)) (make_room_step cost) Panicked (b, 0).

Definition push_ephemeral (b : PendingBuffer) (event : HeldEvent)
    : result Panic (PendingBuffer * Z * bool) :=
  let event := Ephemeral event in
  let cost := PendingEvent_cost event in
  if negb (pb_limit b =? 0) && (cost >? pb_limit b) then Ok (b, 1, false)
  else
    let overflowed := negb (fits b cost) && negb (pb_stored b =? 0)%nat in
    let b := if overflowed then drop_stored b else b in
    '(b, dropped) ← make_room b cost;
    Ok (push b event, dropped, overflowed).

(** ** Specification *)

Definition total_cost (l : list PendingEvent) : Z := foldr Z.add 0 (PendingEvent_cost <$> l).

Definition stored_part (l : list PendingEvent) : list PendingEvent :=
  filter (λ e, is_stored e = true) l.
Definition ephemeral_part (l : list PendingEvent) : list PendingEvent :=
  filter (λ e, is_stored e = false) l.

(** The counters agree with the events, and the bound holds.  A limit of zero
    means none, and one of [usize::MAX] cannot be exceeded by a saturating sum. *)
Record buffer_ok (b : PendingBuffer) : Prop := {
  bo_limit : 0 ≤ pb_limit b ≤ PENDING_USIZE_MAX;
  bo_bytes : pb_bytes b = wrap64 (total_cost (pb_events b));
  bo_stored : pb_stored b = length (stored_part (pb_events b));
  bo_bound : 0 < pb_limit b < PENDING_USIZE_MAX → total_cost (pb_events b) ≤ pb_limit b;
  bo_overflowed : stored_overflowed b = true → stored_part (pb_events b) = [];
}.

(** What can be pushed, and pushing it; the number counts dropped ephemerals. *)
Variant push_op : Type := PushStored (lev_id : Z) | PushEphemeral (event : HeldEvent).

Definition op_event (op : push_op) : PendingEvent :=
  match op with PushStored lev_id => Stored lev_id | PushEphemeral event => Ephemeral event end.

Definition run_push (st : PendingBuffer * Z) (op : push_op) : result Panic (PendingBuffer * Z) :=
  let '(b, dropped) := st in
  match op with
  | PushStored lev_id => Ok ((push_stored b lev_id).1, dropped)
  | PushEphemeral event =>
      '(b, d, _) ← push_ephemeral b event;
      Ok (b, dropped + d)
  end.

(** An event that the bound can never hold. *)
Definition too_large (limit : Z) (e : PendingEvent) : bool :=
  negb (limit =? 0) && (PendingEvent_cost e >? limit).

(** ** Lemmas *)

Lemma total_cost_app l k : total_cost (l ++ k) = total_cost l + total_cost k.
Proof. unfold total_cost. induction l as [|e l IH]; cbn in *; lia. Qed.

Lemma PendingEvent_cost_range e : 0 ≤ PendingEvent_cost e ≤ PENDING_USIZE_MAX.
Proof.
  destruct e; cbn; unfold STORED_ENTRY_BYTES, saturating_add, EPHEMERAL_ENTRY_OVERHEAD,
    PENDING_USIZE_MAX, U64_MAX; lia.
Qed.

Lemma total_cost_nonneg l : 0 ≤ total_cost l.
Proof.
  unfold total_cost. induction l as [|e l IH]; cbn in *; [lia|].
  pose proof (PendingEvent_cost_range e). lia.
Qed.

Lemma total_cost_split l :
  total_cost l = total_cost (ephemeral_part l) + Z.of_nat (length (stored_part l)) * STORED_ENTRY_BYTES.
Proof.
  unfold ephemeral_part, stored_part. induction l as [|e l IH]; [done|].
  rewrite !filter_cons. change (total_cost (e :: l)) with (PendingEvent_cost e + total_cost l).
  destruct e; cbn [is_stored]; repeat case_decide; try done; cbn [length].
  - rewrite IH. cbn. unfold STORED_ENTRY_BYTES. lia.
  - change (total_cost (Ephemeral event :: ?k)) with (PendingEvent_cost (Ephemeral event) + total_cost k).
    rewrite IH. lia.
Qed.

Lemma wrap64_wrap_add a b : wrap64 (wrap64 a + b) = wrap64 (a + b).
Proof. unfold wrap64. by rewrite Z.add_mod_idemp_l. Qed.

Lemma wrap64_wrap_sub a b : wrap64 (wrap64 a - b) = wrap64 (a - b).
Proof. unfold wrap64. by rewrite Zminus_mod_idemp_l. Qed.

Lemma wrap64_small a : 0 ≤ a ≤ PENDING_USIZE_MAX → wrap64 a = a.
Proof. intros H. unfold wrap64, PENDING_USIZE_MAX, U64_MAX in *. apply Z.mod_small. lia. Qed.

(** A bounded buffer fits what its limit allows. *)
Lemma fits_bounded b cost :
  pb_bytes b = wrap64 (total_cost (pb_events b)) →
  0 < pb_limit b < PENDING_USIZE_MAX → total_cost (pb_events b) ≤ pb_limit b → 0 ≤ cost →
  fits b cost = true ↔ total_cost (pb_events b) + cost ≤ pb_limit b.
Proof.
  intros Hb Hl Ht Hc. pose proof (total_cost_nonneg (pb_events b)). unfold fits, saturating_add.
  rewrite Hb, wrap64_small by lia. rewrite orb_true_iff. lia.
Qed.

Lemma filter_app_single (P : PendingEvent → Prop) `{!∀ x, Decision (P x)} l e :
  filter P (l ++ [e]) = filter P l ++ (if decide (P e) then [e] else []).
Proof. by rewrite filter_app. Qed.

Lemma push_ok b e :
  buffer_ok b → fits b (PendingEvent_cost e) = true →
  (stored_overflowed b = true → is_stored e = false) → buffer_ok (push b e).
Proof.
  intros [Hl Hb Hs Ht Ho] Hf He. pose proof (PendingEvent_cost_range e). split; cbn -[total_cost stored_part]; try done.
  - rewrite Hb, wrap64_wrap_add, total_cost_app. cbn. f_equal. lia.
  - unfold stored_part. rewrite filter_app_single, length_app. fold (stored_part (pb_events b)).
    rewrite Hs. by destruct e.
  - intros Hl'. rewrite total_cost_app. cbn. apply fits_bounded in Hf; [lia|auto..|lia].
  - intros Ho'. unfold stored_part. rewrite filter_app_single. fold (stored_part (pb_events b)).
    rewrite (Ho Ho'). specialize (He Ho'). by destruct e.
Qed.

Lemma stored_of_ephemeral l : stored_part (ephemeral_part l) = [].
Proof.
  apply filter_none. intros e [He _]%list_elem_of_filter. by rewrite He.
Qed.

Lemma drop_stored_ok b : buffer_ok b → buffer_ok (drop_stored b).
Proof.
  intros [Hl Hb Hs Ht Ho]. pose proof (total_cost_split (pb_events b)) as Hc.
  fold (ephemeral_part (pb_events b)). split; cbn -[total_cost stored_part]; try done; fold (ephemeral_part (pb_events b)).
  - rewrite Hb, wrap64_wrap_sub, Hs. f_equal. lia.
  - by rewrite stored_of_ephemeral.
  - intros Hl'. specialize (Ht Hl'). unfold STORED_ENTRY_BYTES in Hc. lia.
  - intros _. apply stored_of_ephemeral.
Qed.

(** The buffer after [n] of the oldest events went. *)
Definition without_oldest (n : nat) (b b' : PendingBuffer) : Prop :=
  (n ≤ length (pb_events b))%nat ∧ pb_events b' = drop n (pb_events b) ∧
  pb_bytes b' = wrap64 (total_cost (pb_events b')) ∧ pb_stored b' = pb_stored b ∧
  pb_limit b' = pb_limit b ∧ stored_overflowed b' = stored_overflowed b.

Lemma without_oldest_ok n b b' :
  buffer_ok b → n = 0%nat ∨ pb_stored b = 0%nat → without_oldest n b b' → buffer_ok b'.
Proof.
  intros [Hl Hb Hs Ht Ho] Hn (Hle & He & Hb' & Hs' & Hl' & Ho').
  assert (total_cost (pb_events b) = total_cost (take n (pb_events b)) + total_cost (pb_events b')) as Hc.
  { by rewrite He, <- total_cost_app, take_drop. }
  pose proof (total_cost_nonneg (take n (pb_events b))).
  assert (stored_part (pb_events b') = stored_part (pb_events b)) as Hsp.
  { destruct Hn as [-> |Hn]; [by rewrite He|]. rewrite Hn in Hs. symmetry in Hs.
    apply nil_length_inv in Hs. rewrite Hs.
    apply filter_none. intros e Hin Hst. apply (not_elem_of_nil e). rewrite <- Hs.
    apply list_elem_of_filter. split; [done|]. rewrite He in Hin.
    rewrite <- (take_drop n (pb_events b)). apply elem_of_app. by right. }
  split; rewrite ?Hl', ?Ho', ?Hsp, ?Hs'; try done. intros Hlim. specialize (Ht Hlim). lia.
Qed.

Lemma make_room_spec b cost :
  buffer_ok b → 0 ≤ cost → pb_limit b = 0 ∨ cost ≤ pb_limit b →
  fits b cost = true ∨ pb_stored b = 0%nat →
  ∃ b' n, make_room b cost = Ok (b', Z.of_nat n) ∧ without_oldest n b b' ∧ fits b' cost = true ∧
    (n = 0%nat ∨ pb_stored b = 0%nat) ∧ (fits b cost = true → n = 0%nat).
Proof.
  intros Hok Hc Hlim Hf. unfold make_room.
  destruct (loop_m_total (λ st, length (pb_events st.1)) (make_room_step cost)
    (λ st, ∃ n, st.2 = Z.of_nat n ∧ without_oldest n b st.1 ∧ (n = 0%nat ∨ pb_stored b = 0%nat) ∧
       (fits b cost = true → st.1 = b ∧ n = 0%nat))
    (λ st, ∃ n, st.2 = Z.of_nat n ∧ without_oldest n b st.1 ∧ fits st.1 cost = true ∧
       (n = 0%nat ∨ pb_stored b = 0%nat) ∧ (fits b cost = true → n = 0%nat)) Panicked (b, 0))
    as ([b' d] & -> & n & Hd & H); [| |cbn in Hd, H; subst d; by exists b', n].
  2: { exists 0%nat. split_and!; try done; [|by left]. split_and!; try done; [lia|]. apply Hok. }
  intros [b1 d] (n & Hd & Hw & Hn & Hfit). unfold make_room_step. cbn [fst snd] in *. subst d.
  destruct (fits b1 cost) eqn:Hf1; [eexists; split; [done|]; exists n; split_and!; try done; by intros [_ ?]%Hfit|].
  assert (fits b cost = false) as Hfb.
  { destruct (fits b cost) eqn:E; [|done]. destruct Hfit as [-> _]; congruence. }
  pose proof (without_oldest_ok _ _ _ Hok Hn Hw) as Hok1.
  destruct Hw as (Hle & He & Hb & Hs & Hl & Ho).
  destruct (pb_events b1) as [|oldest events] eqn:Ee.
  { exfalso. unfold fits, saturating_add in Hf1. rewrite Hb, Hl in Hf1.
    change (wrap64 (total_cost [])) with 0 in Hf1. lia. }
  eexists. split; [done|]. cbn. split; [|lia]. exists (S n). rewrite Hfb.
  split_and!; [lia| |right; destruct Hf; [congruence|done]|done].
  assert (drop (S n) (pb_events b) = events) as Hd.
  { rewrite <- Nat.add_1_r, <- drop_drop, <- He. done. }
  assert (n < length (pb_events b))%nat.
  { apply (f_equal length) in He. rewrite length_drop in He. cbn in He. lia. }
  split_and!; cbn -[total_cost]; try done.
  rewrite Hb, wrap64_wrap_sub. f_equal. cbn. unfold total_cost. lia.
Qed.

(** What a push of an ephemeral event does: it returns, and either only the event
    itself is dropped, or stored events and then the oldest give way to it. *)
Lemma push_ephemeral_spec b event :
  buffer_ok b →
  ∃ b' d o, push_ephemeral b event = Ok (b', d, o) ∧ buffer_ok b' ∧ pb_limit b' = pb_limit b ∧
    if too_large (pb_limit b) (Ephemeral event) then b' = b ∧ d = 1 ∧ o = false
    else ∃ n, d = Z.of_nat n ∧
      (n ≤ length (if o then ephemeral_part (pb_events b) else pb_events b))%nat ∧
      pb_events b' = drop n (if o then ephemeral_part (pb_events b) else pb_events b) ++ [Ephemeral event] ∧
      stored_overflowed b' = stored_overflowed b || o ∧
      (o = true ∨ n = 0%nat ∨ stored_part (pb_events b) = []) ∧
      (pb_limit b = 0 → n = 0%nat ∧ o = false).
Proof.
  intros Hok. unfold push_ephemeral, too_large. set (cost := PendingEvent_cost (Ephemeral event)).
  pose proof (PendingEvent_cost_range (Ephemeral event)) as Hc. fold cost in Hc.
  destruct (_ && _) eqn:Hbig; [by exists b, 1, false|].
  assert (pb_limit b = 0 ∨ cost ≤ pb_limit b) as Hlim by lia.
  set (o := negb (fits b cost) && negb (pb_stored b =? 0)%nat).
  assert (buffer_ok (if o then drop_stored b else b)) as Hok1
    by (destruct o; [by apply drop_stored_ok|done]).
  destruct (make_room_spec _ cost Hok1) as (b' & n & -> & Hw & Hfit & Hn & Hn0); [lia| | |].
  { by destruct o. }
  { unfold o. destruct (fits b cost) eqn:E; cbn; [by left|].
    destruct (Nat.eqb_spec (pb_stored b) 0); cbn; by right. }
  pose proof (without_oldest_ok _ _ _ Hok1 Hn Hw) as Hok'.
  destruct Hw as (Hle & He & _ & _ & Hl & Ho).
  cbn [mbind result_bind]. exists (push b' (Ephemeral event)), (Z.of_nat n), o. split; [done|].
  split; [by apply push_ok|]. split; [cbn; rewrite Hl; by destruct o|].
  exists n. split; [done|]. split_and!.
  - by destruct o.
  - cbn. rewrite He. by destruct o.
  - cbn. rewrite Ho. destruct o; cbn; by rewrite ?orb_true_r, ?orb_false_r.
  - destruct o eqn:Eo; [by left|]. right. destruct Hn as [?|Hn]; [by left|right].
    rewrite (bo_stored _ Hok) in Hn. by apply nil_length_inv.
  - intros Hz. assert (fits b cost = true) as Hfb by (unfold fits; rewrite Hz; done).
    assert (o = false) as Eo by (unfold o; rewrite Hfb; done). rewrite Eo in Hn0. auto.
Qed.

Lemma push_stored_spec b lev_id :
  buffer_ok b →
  let '(b', o) := push_stored b lev_id in
  buffer_ok b' ∧ pb_limit b' = pb_limit b ∧
  stored_overflowed b' = stored_overflowed b || o ∧
  pb_events b' = (if o then ephemeral_part (pb_events b)
                  else if stored_overflowed b then pb_events b
                  else pb_events b ++ [Stored lev_id]) ∧
  (pb_limit b = 0 → o = false).
Proof.
  intros Hok. unfold push_stored. destruct (stored_overflowed b) eqn:Ho.
  - by split_and!.
  - destruct (fits b (PendingEvent_cost (Stored lev_id))) eqn:Hf.
    + split_and!; [apply push_ok; [done..|congruence]|done|by cbn; rewrite Ho|done|done].
    + split_and!; [by apply drop_stored_ok|done|done|done|].
      intros Hz. unfold fits in Hf. by rewrite Hz in Hf.
Qed.

(** What a buffer holds after the pushes [ops]. *)
Record held (limit : Z) (ops : list push_op) (b : PendingBuffer) (dropped : Z) : Prop := {
  h_ok : buffer_ok b;
  h_limit : pb_limit b = limit;
  h_order : pb_events b `sublist_of` (op_event <$> ops);
  h_stored : stored_part (pb_events b) =
    if stored_overflowed b then [] else stored_part (op_event <$> ops);
  h_ephemeral : ∃ lost,
    filter (λ e, too_large limit e = false) (ephemeral_part (op_event <$> ops)) =
      lost ++ ephemeral_part (pb_events b) ∧
    dropped = len lost + len (filter (λ e, too_large limit e = true) (ephemeral_part (op_event <$> ops)));
  h_unbounded : limit = 0 → pb_events b = op_event <$> ops ∧ stored_overflowed b = false;
}.

Lemma ephemeral_of_ephemeral l : ephemeral_part (ephemeral_part l) = ephemeral_part l.
Proof. apply filter_all. by intros e [He _]%list_elem_of_filter. Qed.

Lemma no_stored_ephemeral l : stored_part l = [] → ephemeral_part l = l.
Proof.
  intros H. apply filter_all. intros e He. destruct (is_stored e) eqn:E; [|done].
  exfalso. apply (not_elem_of_nil e). rewrite <- H. by apply list_elem_of_filter.
Qed.

Lemma no_stored_drop n l : stored_part l = [] → stored_part (drop n l) = [].
Proof.
  intros H. apply filter_none. intros e He Hs. apply (not_elem_of_nil e). rewrite <- H.
  apply list_elem_of_filter. split; [done|]. rewrite <- (take_drop n l). apply elem_of_app. by right.
Qed.

(** The oldest events that give way are ephemeral. *)
Lemma ephemeral_drop (o : bool) n l :
  o = true ∨ n = 0%nat ∨ stored_part l = [] →
  ephemeral_part (drop n (if o then ephemeral_part l else l)) = drop n (ephemeral_part l).
Proof.
  intros [-> |[-> |Hl]].
  - apply no_stored_ephemeral, no_stored_drop, stored_of_ephemeral.
  - rewrite !drop_0. destruct o; [apply ephemeral_of_ephemeral|done].
  - rewrite (no_stored_ephemeral l Hl). assert ((if o then l else l) = l) as -> by by destruct o.
    by apply no_stored_ephemeral, no_stored_drop.
Qed.

Lemma held_stored limit ops b dropped lev_id :
  held limit ops b dropped → held limit (ops ++ [PushStored lev_id]) (push_stored b lev_id).1 dropped.
Proof.
  intros [Hok Hl Ho Hs (lost & He & Hd) Hu]. pose proof (push_stored_spec b lev_id Hok) as H.
  destruct (push_stored b lev_id) as [b' o]. destruct H as (Hok' & Hl' & Hov & Hev & Hz). cbn [fst].
  assert (ephemeral_part (op_event <$> ops ++ [PushStored lev_id]) = ephemeral_part (op_event <$> ops)) as Hep.
  { unfold ephemeral_part. rewrite fmap_app, filter_app. apply app_nil_r. }
  assert (ephemeral_part (pb_events b') = ephemeral_part (pb_events b)) as Hep'.
  { rewrite Hev. destruct o; [apply ephemeral_of_ephemeral|]. destruct (stored_overflowed b); [done|].
    unfold ephemeral_part. rewrite filter_app. apply app_nil_r. }
  split; [done|congruence| | | |].
  - rewrite fmap_app, Hev. destruct o; [|destruct (stored_overflowed b)].
    + apply sublist_inserts_r. transitivity (pb_events b); [apply sublist_filter|done].
    + by apply sublist_inserts_r.
    + by apply sublist_app.
  - rewrite Hov, Hev. destruct o; [rewrite orb_true_r; apply stored_of_ephemeral|].
    rewrite orb_false_r. destruct (stored_overflowed b); [done|].
    unfold stored_part in *. by rewrite fmap_app, !filter_app, Hs.
  - exists lost. by rewrite Hep, Hep'.
  - intros Hz'. destruct (Hu Hz') as [Hall Hno]. specialize (Hz (eq_trans Hl Hz')) as ->.
    by rewrite fmap_app, Hov, Hev, Hno, Hall.
Qed.

Lemma held_ephemeral limit ops b dropped event :
  held limit ops b dropped →
  ∃ b' d o, push_ephemeral b event = Ok (b', d, o) ∧
    held limit (ops ++ [PushEphemeral event]) b' (dropped + d).
Proof.
  intros [Hok Hl Ho Hs (lost & He & Hd) Hu].
  destruct (push_ephemeral_spec b event Hok) as (b' & d & o & Hp & Hok' & Hl' & H).
  exists b', d, o. split; [done|]. rewrite Hl in H.
  assert (∀ l, ephemeral_part (l ++ [Ephemeral event]) = ephemeral_part l ++ [Ephemeral event]) as Hep.
  { intros l. unfold ephemeral_part. by rewrite filter_app. }
  assert (∀ l, stored_part (l ++ [Ephemeral event]) = stored_part l) as Hsp'.
  { intros l. unfold stored_part. rewrite filter_app. apply app_nil_r. }
  assert (stored_part (op_event <$> ops ++ [PushEphemeral event]) = stored_part (op_event <$> ops)) as Hsp
    by (rewrite fmap_app; apply Hsp').
  destruct (too_large limit (Ephemeral event)) eqn:Hbig.
  - destruct H as (-> & -> & ->). split; [done..| | | |].
    + rewrite fmap_app. by apply sublist_inserts_r.
    + by rewrite Hsp.
    + exists lost. rewrite fmap_app. cbn [op_event fmap list_fmap].
      rewrite Hep, !filter_app, !filter_cons, !filter_nil, Hbig.
      rewrite decide_False, decide_True, app_nil_r, length_app by done. cbn [length].
      split; [done|]. lia.
    + intros ->. by unfold too_large in Hbig.
  - destruct H as (n & -> & Hn & Hev & Hov & Hcase & Hz). split; [done|congruence| | | |].
    + rewrite fmap_app, Hev. apply sublist_app; [|done]. etrans; [apply sublist_drop|].
      destruct o; [|done]. etrans; [apply sublist_filter|done].
    + rewrite Hsp, Hov, Hev, Hsp'. destruct o.
      * rewrite orb_true_r. apply no_stored_drop, stored_of_ephemeral.
      * rewrite orb_false_r, <- Hs. destruct Hcase as [?|[-> |Hc]]; [done|done|].
        by rewrite Hc, no_stored_drop.
    + exists (lost ++ take n (ephemeral_part (pb_events b))).
      rewrite fmap_app. cbn [op_event fmap list_fmap].
      rewrite Hep, !filter_app, !filter_cons, !filter_nil, Hbig.
      rewrite decide_True, decide_False by done.
      rewrite app_nil_r, He, Hev, Hep, (ephemeral_drop _ _ _ Hcase), <- !app_assoc.
      rewrite (app_assoc (take n _)), take_drop. split; [done|].
      rewrite length_app, length_take, Hd. destruct Hcase as [-> |[-> |Hc]]; [lia|lia|].
      rewrite (no_stored_ephemeral _ Hc) in *. destruct o; lia.
    + intros Hz'. destruct (Hu Hz') as [Hall Hno]. destruct Hz as [-> ->]; [congruence|].
      by rewrite fmap_app, Hov, Hev, Hno, Hall.
Qed.

(** ** Properties *)

(** C21. Whatever is pushed into a new buffer, it never panics and holds, in the
    order they arrived, all stored events, or none once they overflowed; the
    newest of the ephemeral events that are not larger than the bound, with as
    many reported dropped as are missing; never more bytes than the bound; and
    everything when there is no bound. *)
Theorem pending_buffer_history live limit ops :
  0 ≤ limit ≤ PENDING_USIZE_MAX →
  ∃ b dropped, try_fold run_push (PendingBuffer_new live limit, 0) ops = Ok (b, dropped) ∧
    held limit ops b dropped.
Proof.
  intros Hlim.
  assert (∀ ops1 ops2 b dropped, held limit ops1 b dropped →
    ∃ b' dropped', try_fold run_push (b, dropped) ops2 = Ok (b', dropped') ∧
      held limit (ops1 ++ ops2) b' dropped') as H.
  { intros ops1 ops2. revert ops1. induction ops2 as [|op ops2 IH]; intros ops1 b dropped Hb.
    - exists b, dropped. by rewrite app_nil_r.
    - rewrite (cons_middle op), app_assoc. destruct op as [lev_id|event]; cbn.
      + by apply IH, held_stored.
      + destruct (held_ephemeral _ _ _ _ event Hb) as (b' & d & o & -> & Hb'). cbn. by apply IH. }
  apply (H []). split; [|done..|by exists []|done].
  split; cbn; try done; lia.
Qed.

(** ** Witnesses *)

(** Room for two stored events and an ephemeral one of 100 bytes. *)
Definition sample_ops : list push_op :=
  [PushEphemeral (mkHeldEvent [] (replicate 100 120)); PushStored 1;
   PushEphemeral (mkHeldEvent [] (replicate 900 121)); PushStored 2;
   PushEphemeral (mkHeldEvent [] (replicate 100 122))].

Lemma pending_buffer_history_witness :
  ∃ b dropped, try_fold run_push (PendingBuffer_new 7 200, 0) sample_ops = Ok (b, dropped) ∧
    held 200 sample_ops b dropped ∧ dropped = 2 ∧ stored_overflowed b = true ∧
    PendingBuffer_len b = 1%nat.
Proof.
  assert (0 ≤ 200 ≤ PENDING_USIZE_MAX) as Hlim by (unfold PENDING_USIZE_MAX, U64_MAX; lia).
  destruct (pending_buffer_history 7 200 sample_ops Hlim) as (b & dropped & H & Hheld).
  exists b, dropped. split; [done|]. split; [done|]. vm_compute in H. by simplify_eq.
Defined.
