(* ===== verification/Monitor.v ===== *)
(** * Live subscriptions: wok-query's monitor.rs

    The inverted index of the open subscriptions.  Each filter is posted under
    the keys of one of its dimensions; an event is matched in full only against
    the subscriptions found under the event's own keys.  Subscriptions sit in
    numbered slots; postings and slots point at each other so that adding and
    removing costs only the subscription's keys.  Every [expect] and index that
    can fail is a [Panic] of the model. *)

From S2P Require Import Prelude BTreeMap Json Kinds Packed Search Filter Pending.

Local Open Scope Z_scope.

(** ** Subscriptions *)

Record Subscription : Type := mkSubscription {
  conn_id : Z;
  sub_id : SubId;
  filter_group : NostrFilterGroup;
  count_only : bool;
  latest_event_id : Z;
  generation : Z;
  auth_challenged : bool;
}.

Definition Subscription_new (conn_id : Z) (sub_id : SubId) (filter_group : NostrFilterGroup)
    (count_only : bool) : Subscription :=
  mkSubscription conn_id sub_id filter_group count_only U64_MAX 0 false.

Definition set_latest (s : Subscription) (n : Z) : Subscription :=
  mkSubscription (conn_id s) (sub_id s) (filter_group s) (count_only s) n (generation s)
    (auth_challenged s).

Record Recipient : Type := mkRecipient {
  r_conn_id : Z;
  r_sub_id : SubId;
  r_pending : bool;
  r_generation : Z;
}.

Record Monitored : Type := mkMonitored {
  m_sub : Subscription;
  m_pending : option PendingBuffer;
}.

(** ** Postings and keys *)

Record Posting : Type := mkPosting { p_slot : nat; p_nth : nat; p_kinds : Z }.

Definition kind_bit (kind : Z) : Z :=
  Z.shiftl 1 (Z.shiftr (wrap64 (kind * 0x9E3779B97F4A7C15)) 58).

Definition kind_mask (f : NostrFilter) : Z :=
  match f_kinds f with
  | None => U64_MAX
  | Some kinds => foldl (λ mask kind, Z.lor mask (kind_bit kind)) 0 (fsu_items kinds)
  end.

Inductive Key : Type :=
| KId (id : bytes)
| KAuthor (pk : bytes)
| KTag (name : Z) (value : bytes)
| KKind (kind : Z)
| KAny.

#[export] Instance Key_eq_dec : EqDecision Key.
Proof. solve_decision. Defined.

(** [v[i]] and [v[i] = x] *)
Definition vec_get {A} (l : list A) (i : nat) : result Panic A := expect (l !! i).
Definition vec_set {A} (l : list A) (i : nat) (x : A) : result Panic (list A) :=
  if (i <? length l)%nat then Ok (<[i := x]> l) else Err Panicked.

(** [usize] subtraction of what was added before *)
Definition usize_sub (a b : nat) : result Panic nat :=
  if (b <=? a)%nat then Ok (a - b)%nat else Err Panicked.

Definition key32 (b : bytes) : result Panic bytes :=
  if (length b =? 32)%nat then Ok b else Err Panicked.

Definition position (n : nat) : result Panic nat :=
  if Z.of_nat n <? 2 ^ 32 then Ok n else Err Panicked.

(** The first entry with the least size, as [min_by_key] picks it. *)
Definition smaller_set (best e : Z * FilterSetBytes) : Z * FilterSetBytes :=
  if (FilterSetBytes_size e.2 <? FilterSetBytes_size best.2)%nat then e else best.

(** The keys [for_each_key] calls its closure with. *)
Definition for_each_key (f : NostrFilter) : result Panic (list Key) :=
  match f_ids f, f_authors f, f_and_tags f, f_tags f, f_kinds f with
  | Some ids, _, _, _, _ => Ok (KId <$> fsb_items ids)
  | None, Some authors, _, _, _ => Ok (KAuthor <$> fsb_items authors)
  | None, None, (name, values) :: _, _, _ =>
      value ← vec_get (fsb_items values) 0;
      Ok [KTag (wrap8 name) value]
  | None, None, [], e :: tags, _ =>
      let '(name, values) := foldl smaller_set e tags in
      Ok (KTag (wrap8 name) <$> fsb_items values)
  | None, None, [], [], Some kinds => Ok (KKind <$> fsu_items kinds)
  | None, None, [], [], None => Ok [KAny]
  end.

(** ** The index *)

Record Index : Type := mkIndex {
  ix_ids : gmap bytes (list Posting);
  ix_authors : gmap bytes (list Posting);
  ix_tags : list (gmap bytes (list Posting));
  ix_tag_postings : nat;
  ix_kinds : gmap Z (list Posting);
  ix_any : list Posting;
}.

Definition Index_new : Index := mkIndex ∅ ∅ (replicate 256 ∅) 0 ∅ [].

Section buckets.
Context {K : Type} `{Countable K}.

(** [entry(key).or_default().push(posting)]; the length of the bucket after *)
Definition push_to (m : gmap K (list Posting)) (k : K) (p : Posting) : gmap K (list Posting) * nat :=
  let bucket := default [] (m !! k) ++ [p] in (<[k := bucket]> m, length bucket).
End buckets.

(** [bucket.push(posting); position(bucket.len() - 1)] for each kind of key *)
Definition Index_push (ix : Index) (key : Key) (posting : Posting) : result Panic (Index * nat) :=
  match key with
  | KId id =>
      id ← key32 id;
      let '(m, n) := push_to (ix_ids ix) id posting in
      at_ ← position (n - 1);
      Ok (mkIndex m (ix_authors ix) (ix_tags ix) (ix_tag_postings ix) (ix_kinds ix) (ix_any ix), at_)
  | KAuthor pk =>
      pk ← key32 pk;
      let '(m, n) := push_to (ix_authors ix) pk posting in
      at_ ← position (n - 1);
      Ok (mkIndex (ix_ids ix) m (ix_tags ix) (ix_tag_postings ix) (ix_kinds ix) (ix_any ix), at_)
  | KTag name value =>
      values ← vec_get (ix_tags ix) (Z.to_nat name);
      let '(m, n) := push_to values value posting in
      tags ← vec_set (ix_tags ix) (Z.to_nat name) m;
      at_ ← position (n - 1);
      Ok (mkIndex (ix_ids ix) (ix_authors ix) tags (ix_tag_postings ix + 1)%nat (ix_kinds ix)
            (ix_any ix), at_)
  | KKind kind =>
      let '(m, n) := push_to (ix_kinds ix) kind posting in
      at_ ← position (n - 1);
      Ok (mkIndex (ix_ids ix) (ix_authors ix) (ix_tags ix) (ix_tag_postings ix) m (ix_any ix), at_)
  | KAny =>
      let any := ix_any ix ++ [posting] in
      at_ ← position (length any - 1);
      Ok (mkIndex (ix_ids ix) (ix_authors ix) (ix_tags ix) (ix_tag_postings ix) (ix_kinds ix) any, at_)
  end.

(** [Vec::swap_remove]: the last element takes the place of the removed one. *)
Definition vec_swap_remove {A} (l : list A) (i : nat) : result Panic (list A) :=
  match last l with
  | Some x => if (i <? length l)%nat then Ok (take (length l - 1) (<[i := x]> l)) else Err Panicked
  | None => Err Panicked
  end.

Definition swap_remove (bucket : list Posting) (at_ : nat) (places : list (list nat))
    : result Panic (list Posting * list (list nat) * bool) :=
  bucket ← vec_swap_remove bucket at_;
  places ← match bucket !! at_ with
           | Some moved =>
               row ← vec_get places (p_slot moved);
               row ← vec_set row (p_nth moved) at_;
               vec_set places (p_slot moved) row
           | None => Ok places
           end;
  Ok (bucket, places, bool_decide (bucket = [])).

Section remove_from.
Context {K : Type} `{Countable K}.

Definition remove_from (m : gmap K (list Posting)) (k : K) (at_ : nat) (places : list (list nat))
    : result Panic (gmap K (list Posting) * list (list nat)) :=
  bucket ← expect (m !! k);
  '(bucket, places, empty) ← swap_remove bucket at_ places;
  Ok (if empty : bool then delete k m else <[k := bucket]> m, places).
End remove_from.

Definition Index_remove (ix : Index) (key : Key) (at_ : nat) (places : list (list nat))
    : result Panic (Index * list (list nat)) :=
  match key with
  | KId id =>
      '(m, places) ← remove_from (ix_ids ix) id at_ places;
      Ok (mkIndex m (ix_authors ix) (ix_tags ix) (ix_tag_postings ix) (ix_kinds ix) (ix_any ix), places)
  | KAuthor pk =>
      '(m, places) ← remove_from (ix_authors ix) pk at_ places;
      Ok (mkIndex (ix_ids ix) m (ix_tags ix) (ix_tag_postings ix) (ix_kinds ix) (ix_any ix), places)
  | KTag name value =>
      n ← usize_sub (ix_tag_postings ix) 1;
      values ← vec_get (ix_tags ix) (Z.to_nat name);
      '(m, places) ← remove_from values value at_ places;
      tags ← vec_set (ix_tags ix) (Z.to_nat name) m;
      Ok (mkIndex (ix_ids ix) (ix_authors ix) tags n (ix_kinds ix) (ix_any ix), places)
  | KKind kind =>
      '(m, places) ← remove_from (ix_kinds ix) kind at_ places;
      Ok (mkIndex (ix_ids ix) (ix_authors ix) (ix_tags ix) (ix_tag_postings ix) m (ix_any ix), places)
  | KAny =>
      '(any, places, _) ← swap_remove (ix_any ix) at_ places;
      Ok (mkIndex (ix_ids ix) (ix_authors ix) (ix_tags ix) (ix_tag_postings ix) (ix_kinds ix) any, places)
  end.

Section lookup.
Context {S : Type} (add : S → list Posting → result Panic S).

Definition found (s : S) (bucket : option (list Posting)) : result Panic S :=
  match bucket with Some bucket => add s bucket | None => Ok s end.

(** One tag of the event; the tags map of the byte is always there. *)
Definition lookup_tag (ix : Index) (r : result Panic S) (name : Z) (value : bytes)
    : result Panic S * bool :=
  (s ← r;
   values ← vec_get (ix_tags ix) (Z.to_nat (wrap8 name));
   if bool_decide (values = ∅) then Ok s else found s (values !! value), true).

Definition Index_lookup (ix : Index) (packed : PackedEventView) (s : S) : result Panic S :=
  s ← (if bool_decide (ix_ids ix = ∅) then Ok s else found s (ix_ids ix !! PackedEventView_id packed));
  s ← (if bool_decide (ix_authors ix = ∅) then Ok s
       else found s (ix_authors ix !! PackedEventView_pubkey packed));
  s ← (if (ix_tag_postings ix =? 0)%nat then Ok s
       else foreach_filter_tag (lookup_tag ix) (Ok s) packed);
  s ← (if bool_decide (ix_kinds ix = ∅) then Ok s
       else found s (ix_kinds ix !! PackedEventView_kind packed));
  found s (Some (ix_any ix)).
End lookup.

(** ** The monitors *)

Record ActiveMonitors : Type := mkActiveMonitors {
  am_conns : gmap Z (gmap SubId nat);
  am_slots : list (option Monitored);
  am_places : list (list nat);
  am_free : list nat;
  am_index : Index;
  am_search : Index;
  am_seen : list Z;
  am_pass : Z;
  am_candidates : list nat;
  am_max_subs : nat;
  am_content_subscriptions : nat;
}.

Definition ActiveMonitors_new (max_subs : nat) : ActiveMonitors :=
  mkActiveMonitors ∅ [] [] [] Index_new Index_new [] 0 [] max_subs 0.

Definition set_conns (m : ActiveMonitors) (conns : gmap Z (gmap SubId nat)) : ActiveMonitors :=
  mkActiveMonitors conns (am_slots m) (am_places m) (am_free m) (am_index m) (am_search m)
    (am_seen m) (am_pass m) (am_candidates m) (am_max_subs m) (am_content_subscriptions m).
Definition set_slots (m : ActiveMonitors) (slots : list (option Monitored)) : ActiveMonitors :=
  mkActiveMonitors (am_conns m) slots (am_places m) (am_free m) (am_index m) (am_search m)
    (am_seen m) (am_pass m) (am_candidates m) (am_max_subs m) (am_content_subscriptions m).
Definition set_free (m : ActiveMonitors) (free : list nat) : ActiveMonitors :=
  mkActiveMonitors (am_conns m) (am_slots m) (am_places m) free (am_index m) (am_search m)
    (am_seen m) (am_pass m) (am_candidates m) (am_max_subs m) (am_content_subscriptions m).
Definition set_max_subs (m : ActiveMonitors) (max_subs : nat) : ActiveMonitors :=
  mkActiveMonitors (am_conns m) (am_slots m) (am_places m) (am_free m) (am_index m) (am_search m)
    (am_seen m) (am_pass m) (am_candidates m) max_subs (am_content_subscriptions m).
(** the indexes, the places and the count of content subscriptions *)
Definition set_indexed (m : ActiveMonitors) (index search : Index) (places : list (list nat))
    (content : nat) : ActiveMonitors :=
  mkActiveMonitors (am_conns m) (am_slots m) places (am_free m) index search
    (am_seen m) (am_pass m) (am_candidates m) (am_max_subs m) content.
(** the last pass over the candidates *)
Definition set_pass (m : ActiveMonitors) (seen : list Z) (pass : Z) (candidates : list nat)
    : ActiveMonitors :=
  mkActiveMonitors (am_conns m) (am_slots m) (am_places m) (am_free m) (am_index m) (am_search m)
    seen pass candidates (am_max_subs m) (am_content_subscriptions m).

Definition ActiveMonitors_is_empty (m : ActiveMonitors) : bool := bool_decide (am_conns m = ∅).

(** The slot of a subscription. *)
Definition slot_of (m : ActiveMonitors) (conn_id : Z) (sub_id : SubId) : option nat :=
  am_conns m !! conn_id ≫= (.!! sub_id).

Definition b2n (b : bool) : nat := if b then 1 else 0.

Definition has_search (f : NostrFilter) : bool := bool_decide (is_Some (f_search f)).

(** The indexes and the places, which installing and removing postings change. *)
Abbreviation postings := (Index * Index * list (list nat))%type.

(** One posting of the slot. *)
Definition install_key (slot : nat) (search : bool) (kinds : Z) (st : postings) (key : Key)
    : result Panic postings :=
  let '(index, search_index, places) := st in
  row ← vec_get places slot;
  nth ← position (length row);
  '(ix, at_) ← Index_push (if search then search_index else index) key (mkPosting slot nth kinds);
  places ← vec_set places slot (row ++ [at_]);
  Ok (if search then (index, ix, places) else (ix, search_index, places)).

Definition install_filter (slot : nat) (st : postings) (f : NostrFilter) : result Panic postings :=
  keys ← for_each_key f;
  try_fold (install_key slot (has_search f) (kind_mask f)) st keys.

Definition install (m : ActiveMonitors) (slot : nat) : result Panic ActiveMonitors :=
  entry ← vec_get (am_slots m) slot;
  entry ← expect entry;
  let fg := filter_group (m_sub entry) in
  _ ← vec_get (am_places m) slot;
  '(index, search, places) ← try_fold (install_filter slot) (am_index m, am_search m, am_places m)
                               (g_filters fg);
  Ok (set_indexed m index search places (am_content_subscriptions m + b2n (group_requires_content fg))%nat).

Definition uninstall_key (slot : nat) (search : bool) (st : postings * nat) (key : Key)
    : result Panic (postings * nat) :=
  let '((index, search_index, places), nth) := st in
  row ← vec_get places slot;
  at_ ← vec_get row nth;
  '(ix, places) ← Index_remove (if search then search_index else index) key at_ places;
  Ok (if search then (index, ix, places) else (ix, search_index, places), S nth).

Definition uninstall_filter (slot : nat) (st : postings * nat) (f : NostrFilter)
    : result Panic (postings * nat) :=
  keys ← for_each_key f;
  try_fold (uninstall_key slot (has_search f)) st keys.

Definition uninstall (m : ActiveMonitors) (slot : nat) : result Panic (ActiveMonitors * Monitored) :=
  entry ← vec_get (am_slots m) slot;
  entry ← expect entry;
  slots ← vec_set (am_slots m) slot None;
  let fg := filter_group (m_sub entry) in
  content ← usize_sub (am_content_subscriptions m) (b2n (group_requires_content fg));
  '(index, search, places, _) ← try_fold (uninstall_filter slot)
                                  ((am_index m, am_search m, am_places m), 0%nat) (g_filters fg);
  places ← vec_set places slot [];
  Ok (set_indexed (set_slots m slots) index search places content, entry).

Definition allocate (m : ActiveMonitors) : result Panic (ActiveMonitors * nat) :=
  match last (am_free m) with
  | Some slot => Ok (set_free m (take (length (am_free m) - 1) (am_free m)), slot)
  | None =>
      slot ← position (length (am_slots m));
      Ok (mkActiveMonitors (am_conns m) (am_slots m ++ [None]) (am_places m ++ [[]]) (am_free m)
            (am_index m) (am_search m) (am_seen m ++ [0]) (am_pass m) (am_candidates m)
            (am_max_subs m) (am_content_subscriptions m), slot)
  end.

Definition release (m : ActiveMonitors) (slot : nat) : result Panic ActiveMonitors :=
  '(m, _) ← uninstall m slot;
  Ok (set_free m (am_free m ++ [slot])).

Definition insert_sub (m : ActiveMonitors) (sub : Subscription) (pending : option PendingBuffer)
    : result Panic ActiveMonitors :=
  '(m, slot) ← match slot_of m (conn_id sub) (sub_id sub) with
               | Some slot =>
                   '(m, _) ← uninstall m slot;
                   Ok (m, slot)
               | None =>
                   '(m, slot) ← allocate m;
                   let subs := default ∅ (am_conns m !! conn_id sub) in
                   Ok (set_conns m (<[conn_id sub := <[sub_id sub := slot]> subs]> (am_conns m)), slot)
               end;
  slots ← vec_set (am_slots m) slot (Some (mkMonitored sub pending));
  install (set_slots m slots) slot.

Definition add_sub (m : ActiveMonitors) (sub : Subscription) : result Panic (ActiveMonitors * bool) :=
  let open := am_conns m !! conn_id sub in
  let replacing := match open with
                   | Some conn => bool_decide (is_Some (conn !! sub_id sub))
                   | None => false
                   end in
  let count := match open with Some conn => size conn | None => 0%nat end in
  if negb replacing && (am_max_subs m <=? count)%nat then Ok (m, false)
  else
    m ← insert_sub m sub None;
    Ok (m, true).

Definition add_pending (m : ActiveMonitors) (sub : Subscription) (buffer : PendingBuffer)
    : result Panic ActiveMonitors :=
  insert_sub m sub (Some buffer).

Definition remove_sub (m : ActiveMonitors) (conn_id : Z) (sub_id : SubId)
    : result Panic ActiveMonitors :=
  match am_conns m !! conn_id with
  | None => Ok m
  | Some subs =>
      match subs !! sub_id with
      | None => Ok m
      | Some slot =>
          let subs := delete sub_id subs in
          let conns := if bool_decide (subs = ∅) then delete conn_id (am_conns m)
                       else <[conn_id := subs]> (am_conns m) in
          release (set_conns m conns) slot
      end
  end.

(** The order in which a [HashMap] is iterated, which the program does not fix. *)
Class HashOrder : Type := {
  conn_order : gmap Z (gmap SubId nat) → list (gmap SubId nat);
  sub_order : gmap SubId nat → list nat;
}.
Class HashOrderLaws `{!HashOrder} : Prop := {
  conn_order_perm m : conn_order m ≡ₚ (map_to_list m).*2;
  sub_order_perm m : sub_order m ≡ₚ (map_to_list m).*2;
}.

Section iterate.
Context {HO : HashOrder}.

(** The connection, id, generation and reason of a refused subscription. *)
Abbreviation Refused R := (Z * SubId * Z * R)%type.

Definition collect_refused {R} (m : ActiveMonitors) (refusal : Subscription → option R)
    (refused : list (Refused R)) (slot : nat) : result Panic (list (Refused R)) :=
  entry ← vec_get (am_slots m) slot;
  match entry with
  | None => Ok refused
  | Some entry =>
      let sub := m_sub entry in
      Ok (match refusal sub with
          | Some reason => refused ++ [(conn_id sub, sub_id sub, generation sub, reason)]
          | None => refused
          end)
  end.

Definition remove_refused {R} (m : ActiveMonitors) (refusal : Subscription → option R)
    : result Panic (ActiveMonitors * list (Refused R)) :=
  refused ← try_fold (collect_refused m refusal) [] (conn_order (am_conns m) ≫= sub_order);
  m ← try_fold (λ m '(conn_id, sub_id, _, _), remove_sub m conn_id sub_id) m refused;
  Ok (m, refused).

Definition close_conn (m : ActiveMonitors) (conn_id : Z) : result Panic ActiveMonitors :=
  match am_conns m !! conn_id with
  | None => Ok m
  | Some subs => try_fold release (set_conns m (delete conn_id (am_conns m))) (sub_order subs)
  end.
End iterate.

(** ** Entries *)

Definition am_entry (m : ActiveMonitors) (conn_id : Z) (sub_id : SubId)
    : result Panic (option Monitored) :=
  match slot_of m conn_id sub_id with
  | None => Ok None
  | Some slot => vec_get (am_slots m) slot
  end.

Definition subscription (m : ActiveMonitors) (conn_id : Z) (sub_id : SubId)
    : result Panic (option Subscription) :=
  entry ← am_entry m conn_id sub_id;
  Ok (option_map m_sub entry).

Definition pending_generation (m : ActiveMonitors) (conn_id : Z) (sub_id : SubId)
    : result Panic (option Z) :=
  entry ← am_entry m conn_id sub_id;
  Ok (match entry with
      | Some entry => option_map (λ _, generation (m_sub entry)) (m_pending entry)
      | None => None
      end).

(** Write through [entry_mut]. *)
Definition set_entry (m : ActiveMonitors) (conn_id : Z) (sub_id : SubId) (entry : Monitored)
    : result Panic ActiveMonitors :=
  match slot_of m conn_id sub_id with
  | None => Ok m
  | Some slot => slots ← vec_set (am_slots m) slot (Some entry); Ok (set_slots m slots)
  end.

(** [pending_mut] with what its caller does to the buffer it returns. *)
Definition pending_mut (m : ActiveMonitors) (conn_id : Z) (sub_id : SubId)
    (update : PendingBuffer → PendingBuffer) : result Panic ActiveMonitors :=
  entry ← am_entry m conn_id sub_id;
  match entry with
  | Some (mkMonitored sub (Some buffer)) =>
      set_entry m conn_id sub_id (mkMonitored sub (Some (update buffer)))
  | _ => Ok m
  end.

Definition finish_pending (m : ActiveMonitors) (conn_id : Z) (sub_id : SubId) (gen delivered : Z)
    : result Panic (ActiveMonitors * option PendingBuffer) :=
  entry ← am_entry m conn_id sub_id;
  match entry with
  | None => Ok (m, None)
  | Some entry =>
      let sub := m_sub entry in
      if negb (generation sub =? gen) then Ok (m, None)
      else
        match m_pending entry with
        | None => Ok (m, None)
        | Some buffer =>
            m ← set_entry m conn_id sub_id
                  (mkMonitored (set_latest sub (Z.max (latest_event_id sub) delivered)) None);
            Ok (m, Some buffer)
        end
  end.

(** ** Matching an event *)

Definition am_requires_content (m : ActiveMonitors) : bool :=
  negb (am_content_subscriptions m =? 0)%nat.

(** The closure of [collect]: the slots seen in this pass, and the candidates. *)
Definition add_posting (pass kind : Z) (st : list Z * list nat) (posting : Posting)
    : result Panic (list Z * list nat) :=
  if Z.land (p_kinds posting) kind =? 0 then Ok st
  else
    let '(seen, candidates) := st in
    last_pass ← vec_get seen (p_slot posting);
    if last_pass =? pass then Ok (seen, candidates)
    else
      seen ← vec_set seen (p_slot posting) pass;
      Ok (seen, candidates ++ [p_slot posting]).

Definition add_bucket (pass kind : Z) (st : list Z * list nat) (bucket : list Posting)
    : result Panic (list Z * list nat) :=
  try_fold (add_posting pass kind) st bucket.

Definition collect (m : ActiveMonitors) (packed : PackedEventView) (search_only : bool)
    : result Panic ActiveMonitors :=
  let pass := wrap64 (am_pass m + 1) in
  let add := add_bucket pass (kind_bit (PackedEventView_kind packed)) in
  st ← (if search_only then Ok (am_seen m, [])
        else Index_lookup add (am_index m) packed (am_seen m, []));
  '(seen, candidates) ← Index_lookup add (am_search m) packed st;
  Ok (set_pass m seen pass candidates).

Definition recipient_of (entry : Monitored) : Recipient :=
  mkRecipient (conn_id (m_sub entry)) (sub_id (m_sub entry))
    (bool_decide (is_Some (m_pending entry))) (generation (m_sub entry)).

(** One candidate. *)
Definition process_slot (lev_id : option Z) (packed : PackedEventView)
    (search_terms : option SearchTermSet) (st : list (option Monitored) * list Recipient)
    (slot : nat) : result Panic (list (option Monitored) * list Recipient) :=
  let '(slots, recipients) := st in
  entry ← vec_get slots slot;
  entry ← expect entry;
  let sub := m_sub entry in
  if match lev_id with Some lev_id => lev_id <=? latest_event_id sub | None => false end
  then Ok (slots, recipients)
  else if group_does_match_with_search_terms (filter_group sub) packed search_terms then
    let entry' := match lev_id with
                  | Some lev_id => mkMonitored (set_latest sub lev_id) (m_pending entry)
                  | None => entry
                  end in
    slots ← vec_set slots slot (Some entry');
    Ok (slots, recipients ++ [recipient_of entry'])
  else Ok (slots, recipients).

(** By connection, then subscription id. *)
Definition recipient_cmp (a b : Recipient) : comparison :=
  match r_conn_id a ?= r_conn_id b with
  | Eq => bytes_cmp (inner (r_sub_id a)) (inner (r_sub_id b))
  | c => c
  end.

Definition process_inner (m : ActiveMonitors) (lev_id : option Z) (packed : PackedEventView)
    (search_terms : option SearchTermSet) : result Panic (ActiveMonitors * list Recipient) :=
  m ← collect m packed false;
  '(slots, recipients) ← try_fold (process_slot lev_id packed search_terms)
                           (am_slots m, []) (am_candidates m);
  Ok (set_slots m slots, slice_sort recipient_cmp recipients).

Definition process (m : ActiveMonitors) (lev_id : Z) (packed : PackedEventView)
    (search_terms : option SearchTermSet) : result Panic (ActiveMonitors * list Recipient) :=
  process_inner m (Some lev_id) packed search_terms.

Definition process_ephemeral (m : ActiveMonitors) (packed : PackedEventView)
    (search_terms : option SearchTermSet) : result Panic (ActiveMonitors * list Recipient) :=
  process_inner m None packed search_terms.

(** The candidate has a search filter whose other conditions match. *)
Definition wants_content (packed : PackedEventView) (m : ActiveMonitors) (found : bool) (slot : nat)
    : result Panic bool :=
  if found then Ok true
  else
    entry ← vec_get (am_slots m) slot;
    Ok (match entry with
        | Some entry => existsb (λ f, has_search f && does_match_without_search f packed)
                          (g_filters (filter_group (m_sub entry)))
        | None => false
        end).

Definition event_requires_content (m : ActiveMonitors) (packed : PackedEventView)
    : result Panic (ActiveMonitors * bool) :=
  if negb (am_requires_content m) then Ok (m, false)
  else
    m ← collect m packed true;
    b ← try_fold (wants_content packed m) false (am_candidates m);
    Ok (m, b).
