(* ===== verification/MonitorIndex.v ===== *)
(** * The index of the monitors and the slots point at each other

    What adding and removing one posting does to the index of Monitor.v, and the
    link it keeps: every installed key of a slot is found at the place the slot
    records, and every posting of a bucket is an installed key. *)

From S2P Require Import Prelude BTreeMap Json Kinds Packed Search Filter Pending Monitor.

Local Open Scope Z_scope.

(** ** Buckets *)

(** The postings under a key. *)
Definition bucket (ix : Index) (k : Key) : list Posting :=
  match k with
  | KId id => default [] (ix_ids ix !! id)
  | KAuthor pk => default [] (ix_authors ix !! pk)
  | KTag name value =>
      if 0 <=? name then default [] (ix_tags ix !! Z.to_nat name ≫= (.!! value)) else []
  | KKind kind => default [] (ix_kinds ix !! kind)
  | KAny => ix_any ix
  end.

Definition is_tag (k : Key) : bool := match k with KTag _ _ => true | _ => false end.

(** The keys filters have: 32 bytes for ids and authors, a byte for tag names. *)
Definition key_ok (k : Key) : Prop :=
  match k with
  | KId b | KAuthor b => length b = 32%nat
  | KTag name _ => 0 ≤ name < 256
  | KKind _ | KAny => True
  end.

Definition index_wf (ix : Index) : Prop := length (ix_tags ix) = 256%nat.

(** What [Vec::swap_remove] leaves. *)
Definition swap_removed {A} (l : list A) (i : nat) : list A :=
  match last l with Some x => take (length l - 1) (<[i := x]> l) | None => [] end.

(** The moved posting's slot learns its new place. *)
Definition relocate (moved : option Posting) (at_ : nat) (places : list (list nat))
    : list (list nat) :=
  match moved with
  | Some q => alter (λ row, <[p_nth q := at_]> row) (p_slot q) places
  | None => places
  end.

Definition place (places : list (list nat)) (i n : nat) : option nat := places !! i ≫= (.!! n).

Lemma lookup_swap_removed {A} (l : list A) i j :
  (i < length l)%nat →
  swap_removed l i !! j =
    if decide (S j < length l)%nat
    then if decide (j = i) then last l else l !! j
    else None.
Proof.
  intros Hi. unfold swap_removed. destruct (last l) as [x|] eqn:Hx.
  2: { apply last_None in Hx as ->. cbn in Hi. lia. }
  destruct (decide (S j < length l)%nat) as [Hj|Hj].
  - rewrite lookup_take_lt by lia. destruct (decide (j = i)) as [-> |Hne].
    + by apply list_lookup_insert_eq.
    + by apply list_lookup_insert_ne.
  - apply lookup_ge_None_2. rewrite length_take, length_insert. lia.
Qed.

Lemma length_swap_removed {A} (l : list A) i :
  (i < length l)%nat → length (swap_removed l i) = (length l - 1)%nat.
Proof.
  intros Hi. unfold swap_removed. destruct (last l) as [x|] eqn:Hx.
  - rewrite length_take, length_insert. lia.
  - apply last_None in Hx as ->. done.
Qed.

Lemma vec_swap_remove_Ok {A} (l : list A) i :
  (i < length l)%nat → vec_swap_remove l i = Ok (swap_removed l i).
Proof.
  intros Hi. unfold vec_swap_remove, swap_removed. destruct (last l) as [x|] eqn:Hx.
  - by rewrite (proj2 (Nat.ltb_lt _ _)).
  - apply last_None in Hx as ->. cbn in Hi. lia.
Qed.

Lemma vec_get_Ok {A} (l : list A) i x : l !! i = Some x → vec_get l i = Ok x.
Proof. intros H. unfold vec_get, expect. by rewrite H. Qed.

Lemma vec_set_Ok {A} (l : list A) i x :
  (i < length l)%nat → vec_set l i x = Ok (<[i := x]> l).
Proof. intros H. unfold vec_set. by rewrite (proj2 (Nat.ltb_lt _ _)). Qed.

Lemma position_Ok n : Z.of_nat n < 2 ^ 32 → position n = Ok n.
Proof. intros H. unfold position. by rewrite (proj2 (Z.ltb_lt _ _)). Qed.

Lemma alter_insert_row (places : list (list nat)) i row (g : list nat → list nat) :
  places !! i = Some row → alter g i places = <[i := g row]> places.
Proof. intros H. rewrite list_insert_alter. apply list_alter_ext; [naive_solver|done]. Qed.

Lemma swap_remove_Ok b at_ places :
  (at_ < length b)%nat →
  (∀ q, swap_removed b at_ !! at_ = Some q → is_Some (place places (p_slot q) (p_nth q))) →
  swap_remove b at_ places =
    Ok (swap_removed b at_, relocate (swap_removed b at_ !! at_) at_ places,
        bool_decide (swap_removed b at_ = [])).
Proof.
  intros Hat Hq. unfold swap_remove. rewrite vec_swap_remove_Ok by done. cbn [mbind result_bind].
  destruct (swap_removed b at_ !! at_) as [q|] eqn:Eq; [|done].
  destruct (Hq q eq_refl) as (v & (row & Hrow & Hv)%bind_Some).
  rewrite (vec_get_Ok _ _ _ Hrow). cbn [mbind result_bind].
  rewrite vec_set_Ok by by eapply lookup_lt_Some. cbn [mbind result_bind].
  rewrite vec_set_Ok by by eapply lookup_lt_Some. cbn [mbind result_bind relocate].
  by rewrite (alter_insert_row _ _ _ _ Hrow).
Qed.

(** ** One posting *)

Section maps.
Context {K : Type} `{Countable K}.

Lemma push_to_spec (m : gmap K (list Posting)) k p m' n :
  push_to m k p = (m', n) →
  (n - 1)%nat = length (default [] (m !! k)) ∧ m' !! k = Some (default [] (m !! k) ++ [p]) ∧
  ∀ k', k' ≠ k → m' !! k' = m !! k'.
Proof.
  intros [= <- <-]. rewrite length_app. cbn. split_and!; [lia|by rewrite lookup_insert_eq|].
  intros k' Hk. by rewrite lookup_insert_ne.
Qed.

Lemma remove_from_spec (m : gmap K (list Posting)) k at_ places :
  (at_ < length (default [] (m !! k)))%nat →
  (∀ q, swap_removed (default [] (m !! k)) at_ !! at_ = Some q →
     is_Some (place places (p_slot q) (p_nth q))) →
  ∃ m', remove_from m k at_ places =
      Ok (m', relocate (swap_removed (default [] (m !! k)) at_ !! at_) at_ places) ∧
    default [] (m' !! k) = swap_removed (default [] (m !! k)) at_ ∧
    ∀ k', k' ≠ k → m' !! k' = m !! k'.
Proof.
  destruct (m !! k) as [b|] eqn:Hk; cbn; [|lia]. intros Hat Hq.
  unfold remove_from. rewrite Hk. cbn. rewrite swap_remove_Ok by done. cbn [mbind result_bind].
  eexists. split; [done|]. case_bool_decide as Hb.
  - rewrite lookup_delete_eq, Hb. split; [done|]. intros k' ?. by rewrite lookup_delete_ne.
  - rewrite lookup_insert_eq. split; [done|]. intros k' ?. by rewrite lookup_insert_ne.
Qed.
End maps.

Definition same_buckets_but (k : Key) (ix ix' : Index) : Prop :=
  ∀ k', k' ≠ k → bucket ix' k' = bucket ix k'.

Lemma tag_bucket ix name value :
  0 ≤ name → bucket ix (KTag name value) = default [] (ix_tags ix !! Z.to_nat name ≫= (.!! value)).
Proof. intros H. cbn. by rewrite (proj2 (Z.leb_le 0 name)). Qed.

(** Buckets after one map of the tags changed under one value. *)
Lemma tag_buckets_update ix ids authors n kinds any name value values m :
  0 ≤ name → ix_tags ix !! Z.to_nat name = Some values →
  ids = ix_ids ix → authors = ix_authors ix → kinds = ix_kinds ix → any = ix_any ix →
  (∀ v, v ≠ value → m !! v = values !! v) →
  let ix' := mkIndex ids authors (<[Z.to_nat name := m]> (ix_tags ix)) n kinds any in
  bucket ix' (KTag name value) = default [] (m !! value) ∧
  same_buckets_but (KTag name value) ix ix'.
Proof.
  intros Hn Hv -> -> -> -> Hm. pose proof (lookup_lt_Some _ _ _ Hv) as Hlt. split.
  - rewrite tag_bucket by done. cbn. by rewrite list_lookup_insert_eq.
  - intros [id|pk|name' value'|kind|] Hne; try done.
    destruct (decide (0 ≤ name')) as [Hn'|Hn'].
    2: { cbn. by rewrite (proj2 (Z.leb_gt 0 name')) by lia. }
    rewrite !tag_bucket by done. cbn. destruct (decide (name' = name)) as [-> |Hname].
    + rewrite list_lookup_insert_eq, Hv by done. cbn. rewrite Hm; [done|]. naive_solver.
    + by rewrite list_lookup_insert_ne by lia.
Qed.

Lemma Index_push_spec ix k p :
  index_wf ix → key_ok k → Z.of_nat (length (bucket ix k)) < 2 ^ 32 →
  ∃ ix', Index_push ix k p = Ok (ix', length (bucket ix k)) ∧ index_wf ix' ∧
    bucket ix' k = bucket ix k ++ [p] ∧ same_buckets_but k ix ix' ∧
    ix_tag_postings ix' = (ix_tag_postings ix + b2n (is_tag k))%nat.
Proof.
  intros Hwf Hk Hlen. destruct k as [id|pk|name value|kind|]; cbn [Index_push key_ok] in *.
  - unfold key32. rewrite Hk. cbn [Nat.eqb mbind result_bind].
    destruct (push_to _ _ _) as [m n] eqn:E. apply push_to_spec in E as (-> & Hm & Hother).
    rewrite position_Ok by done. cbn [mbind result_bind]. eexists. split; [done|].
    split_and!; [done|cbn; by rewrite Hm| |cbn; lia].
    intros [id'|?|?|?|] Hne; try done. cbn. rewrite Hother; [done|naive_solver].
  - unfold key32. rewrite Hk. cbn [Nat.eqb mbind result_bind].
    destruct (push_to _ _ _) as [m n] eqn:E. apply push_to_spec in E as (-> & Hm & Hother).
    rewrite position_Ok by done. cbn [mbind result_bind]. eexists. split; [done|].
    split_and!; [done|cbn; by rewrite Hm| |cbn; lia].
    intros [|pk'|?|?|] Hne; try done. cbn. rewrite Hother; [done|naive_solver].
  - destruct (lookup_lt_is_Some_2 (ix_tags ix) (Z.to_nat name)) as [values Hv]; [rewrite Hwf; lia|].
    rewrite (vec_get_Ok _ _ _ Hv). cbn [mbind result_bind].
    destruct (push_to _ _ _) as [m n] eqn:E. apply push_to_spec in E as (-> & Hm & Hother).
    assert (default [] (values !! value) = bucket ix (KTag name value)) as Hb
      by (rewrite tag_bucket, Hv by lia; done).
    rewrite vec_set_Ok by by eapply lookup_lt_Some. cbn [mbind result_bind].
    rewrite Hb in Hm |- *. rewrite position_Ok by done. cbn [mbind result_bind].
    eexists. split; [done|].
    destruct (tag_buckets_update ix (ix_ids ix) (ix_authors ix) (ix_tag_postings ix + 1) (ix_kinds ix)
      (ix_any ix) name value values m) as [H1 H2]; try done; [lia|].
    split_and!; [unfold index_wf; cbn; by rewrite length_insert|by rewrite H1, Hm|done|done].
  - destruct (push_to _ _ _) as [m n] eqn:E. apply push_to_spec in E as (-> & Hm & Hother).
    rewrite position_Ok by done. cbn [mbind result_bind]. eexists. split; [done|].
    split_and!; [done|cbn; by rewrite Hm| |cbn; lia].
    intros [|?|?|kind'|] Hne; try done. cbn. rewrite Hother; [done|naive_solver].
  - rewrite length_app. cbn [length]. replace (length (ix_any ix) + 1 - 1)%nat with (length (ix_any ix)) by lia.
    rewrite position_Ok by done. cbn [mbind result_bind]. eexists. split; [done|].
    split_and!; [done|done| |cbn; lia]. by intros [].
Qed.

Lemma Index_remove_spec ix k at_ places :
  index_wf ix → key_ok k → (at_ < length (bucket ix k))%nat →
  (is_tag k = true → (0 < ix_tag_postings ix)%nat) →
  (∀ q, swap_removed (bucket ix k) at_ !! at_ = Some q → is_Some (place places (p_slot q) (p_nth q))) →
  ∃ ix', Index_remove ix k at_ places =
      Ok (ix', relocate (swap_removed (bucket ix k) at_ !! at_) at_ places) ∧ index_wf ix' ∧
    bucket ix' k = swap_removed (bucket ix k) at_ ∧ same_buckets_but k ix ix' ∧
    ix_tag_postings ix = (ix_tag_postings ix' + b2n (is_tag k))%nat.
Proof.
  intros Hwf Hk Hat Htag Hq. destruct k as [id|pk|name value|kind|]; cbn [Index_remove key_ok] in *.
  - destruct (remove_from_spec (ix_ids ix) id at_ places) as (m & -> & Hm & Hother); [done..|].
    cbn [mbind result_bind]. eexists. split; [done|].
    split_and!; [done|done| |cbn; lia].
    intros [id'|?|?|?|] Hne; try done. cbn. rewrite Hother; [done|naive_solver].
  - destruct (remove_from_spec (ix_authors ix) pk at_ places) as (m & -> & Hm & Hother); [done..|].
    cbn [mbind result_bind]. eexists. split; [done|].
    split_and!; [done|done| |cbn; lia].
    intros [|pk'|?|?|] Hne; try done. cbn. rewrite Hother; [done|naive_solver].
  - destruct (lookup_lt_is_Some_2 (ix_tags ix) (Z.to_nat name)) as [values Hv]; [rewrite Hwf; lia|].
    specialize (Htag eq_refl). unfold usize_sub. rewrite (proj2 (Nat.leb_le _ _)) by lia.
    cbn [mbind result_bind]. rewrite (vec_get_Ok _ _ _ Hv). cbn [mbind result_bind].
    assert (default [] (values !! value) = bucket ix (KTag name value)) as Hb
      by (rewrite tag_bucket, Hv by lia; done).
    destruct (remove_from_spec values value at_ places) as (m & -> & Hm & Hother); [by rewrite Hb..|].
    cbn [mbind result_bind]. rewrite vec_set_Ok by by eapply lookup_lt_Some. cbn [mbind result_bind].
    rewrite Hb in *. eexists. split; [done|].
    destruct (tag_buckets_update ix (ix_ids ix) (ix_authors ix) (ix_tag_postings ix - 1) (ix_kinds ix)
      (ix_any ix) name value values m) as [H1 H2]; try done; [lia|].
    split_and!; [unfold index_wf; cbn; by rewrite length_insert|by rewrite H1, Hm|done|cbn; lia].
  - destruct (remove_from_spec (ix_kinds ix) kind at_ places) as (m & -> & Hm & Hother); [done..|].
    cbn [mbind result_bind]. eexists. split; [done|].
    split_and!; [done|done| |cbn; lia].
    intros [|?|?|kind'|] Hne; try done. cbn. rewrite Hother; [done|naive_solver].
  - rewrite swap_remove_Ok by done. cbn [mbind result_bind]. eexists. split; [done|].
    split_and!; [done|done| |cbn; lia]. by intros [].
Qed.

(** ** The link *)

(** An installed key: of a search filter or not, and with its kind mask. *)
Abbreviation installed := (bool * Key * Z)%type.

Definition ix_of (st : postings) (search : bool) : Index := if search then st.1.2 else st.1.1.

Definition set_ix (st : postings) (search : bool) (ix : Index) (places : list (list nat)) : postings :=
  if search then (st.1.1, ix, places) else (ix, st.1.2, places).

(** The number of installed tag keys of an index. *)
Definition tag_keys (inst : gmap (nat * nat) installed) (search : bool) : nat :=
  size (filter (λ e : (nat * nat) * installed, e.2.1.1 = search ∧ is_tag e.2.1.2 = true) inst).

Record linked (st : postings) (inst : gmap (nat * nat) installed) : Prop := {
  l_wf search : index_wf (ix_of st search);
  l_place i n search k mask : inst !! (i, n) = Some (search, k, mask) →
    key_ok k ∧ ∃ at_, place st.2 i n = Some at_ ∧
      bucket (ix_of st search) k !! at_ = Some (mkPosting i n mask);
  l_posting search k at_ p : bucket (ix_of st search) k !! at_ = Some p →
    inst !! (p_slot p, p_nth p) = Some (search, k, p_kinds p) ∧
    place st.2 (p_slot p) (p_nth p) = Some at_;
  l_tags search : ix_tag_postings (ix_of st search) = tag_keys inst search;
}.

Lemma ix_of_set st search ix places : ix_of (set_ix st search ix places) search = ix.
Proof. by destruct search. Qed.

Lemma ix_of_set_ne st search search' ix places :
  search' ≠ search → ix_of (set_ix st search ix places) search' = ix_of st search'.
Proof. by destruct search, search'. Qed.

Lemma places_set st search ix places : (set_ix st search ix places).2 = places.
Proof. by destruct search. Qed.

(** Buckets of both indexes after one of them changed under one key. *)
Lemma bucket_set st search search' ix places k k' :
  same_buckets_but k (ix_of st search) ix → (search', k') ≠ (search, k) →
  bucket (ix_of (set_ix st search ix places) search') k' = bucket (ix_of st search') k'.
Proof.
  intros Hsame Hne. destruct (decide (search' = search)) as [-> |Hs].
  - rewrite ix_of_set. apply Hsame. naive_solver.
  - by rewrite ix_of_set_ne.
Qed.

Lemma tag_keys_insert inst i n search k mask search' :
  inst !! (i, n) = None →
  tag_keys (<[(i, n) := (search, k, mask)]> inst) search' =
    (tag_keys inst search' + b2n (bool_decide (search' = search) && is_tag k))%nat.
Proof.
  intros Hn. unfold tag_keys. destruct (decide (search = search' ∧ is_tag k = true)) as [[-> Ht]|Hne].
  - rewrite map_filter_insert_True by done. rewrite map_size_insert_None.
    + rewrite bool_decide_true, Ht by done. cbn. lia.
    + apply map_lookup_filter_None. by left.
  - rewrite map_filter_insert_False, delete_id by done.
    case_bool_decide; cbn; [|lia]. destruct (is_tag k) eqn:E; cbn; [naive_solver|lia].
Qed.

Lemma tag_keys_delete inst i n search k mask search' :
  inst !! (i, n) = Some (search, k, mask) →
  tag_keys inst search' =
    (tag_keys (delete (i, n) inst) search' + b2n (bool_decide (search' = search) && is_tag k))%nat.
Proof.
  intros Hn. rewrite <- (insert_delete_id inst (i, n) _ Hn) at 1.
  apply tag_keys_insert, lookup_delete_eq.
Qed.

Lemma place_append places i row at_ j m :
  places !! i = Some row →
  place (<[i := row ++ [at_]]> places) j m =
    if decide ((j, m) = (i, length row)) then Some at_ else place places j m.
Proof.
  intros Hrow. pose proof (lookup_lt_Some _ _ _ Hrow) as Hlt. unfold place.
  destruct (decide (j = i)) as [-> |Hj].
  - rewrite list_lookup_insert_eq, Hrow by done. cbn.
    destruct (Nat.lt_trichotomy m (length row)) as [Hm|[-> |Hm]].
    + rewrite lookup_app_l, decide_False by (done || naive_solver lia). done.
    + by rewrite lookup_app_r, Nat.sub_diag, decide_True by done.
    + rewrite decide_False by naive_solver lia.
      rewrite !lookup_ge_None_2; [done|lia|rewrite length_app; cbn; lia].
  - rewrite list_lookup_insert_ne by done. by rewrite decide_False by naive_solver.
Qed.

(** Adding a posting at the end of its bucket and its place at the end of its row
    keeps the link. *)
Lemma linked_push st inst i row search k mask ix :
  linked st inst → key_ok k → st.2 !! i = Some row → inst !! (i, length row) = None →
  index_wf ix → bucket ix k = bucket (ix_of st search) k ++ [mkPosting i (length row) mask] →
  same_buckets_but k (ix_of st search) ix →
  ix_tag_postings ix = (ix_tag_postings (ix_of st search) + b2n (is_tag k))%nat →
  linked (set_ix st search ix (<[i := row ++ [length (bucket (ix_of st search) k)]]> st.2))
    (<[(i, length row) := (search, k, mask)]> inst).
Proof.
  intros [Hwf Hplace Hpost Htags] Hk Hrow Hnone Hwf' Hbk Hsame Htp.
  set (at_ := length (bucket (ix_of st search) k)). pose proof (bucket_set st search) as Hbs. split.
  - intros search'. destruct (decide (search' = search)) as [-> |?]; [by rewrite ix_of_set|].
    by rewrite ix_of_set_ne.
  - intros j m search' k' mask'. rewrite places_set, (place_append _ _ _ _ _ _ Hrow).
    destruct (decide ((j, m) = (i, length row))) as [E|Hne].
    + injection E as -> ->. rewrite lookup_insert_eq. intros [= <- <- <-].
      split; [done|]. exists at_. split; [done|]. rewrite ix_of_set, Hbk. unfold at_.
      by rewrite lookup_app_r, Nat.sub_diag.
    + rewrite lookup_insert_ne by congruence. intros H. destruct (Hplace _ _ _ _ _ H) as (? & a & Ha & Hba).
      split; [done|]. exists a. split; [done|].
      destruct (decide ((search', k') = (search, k))) as [[= -> ->]|Hne']; [|by rewrite (Hbs _ _ _ _ _ Hsame Hne')].
      rewrite ix_of_set, Hbk. by apply lookup_app_l_Some.
  - intros search' k' a p. rewrite places_set, (place_append _ _ _ _ _ _ Hrow).
    assert (bucket (ix_of st search') k' !! a = Some p →
      <[(i, length row) := (search, k, mask)]> inst !! (p_slot p, p_nth p) = Some (search', k', p_kinds p) ∧
      (if decide ((p_slot p, p_nth p) = (i, length row)) then Some at_
       else place st.2 (p_slot p) (p_nth p)) = Some a) as Hold.
    { intros H. destruct (Hpost _ _ _ _ H) as [Hi Hp].
      assert ((p_slot p, p_nth p) ≠ (i, length row)) by (intros E; rewrite E in Hi; congruence).
      by rewrite lookup_insert_ne, decide_False by done. }
    destruct (decide ((search', k') = (search, k))) as [[= -> ->]|Hne']; [|by rewrite (Hbs _ _ _ _ _ Hsame Hne')].
    rewrite ix_of_set, Hbk. intros [H|(Hle & H)]%lookup_app_Some; [by apply Hold|].
    apply list_lookup_singleton_Some in H as [Ha <-]. cbn [p_slot p_nth p_kinds].
    rewrite lookup_insert_eq, decide_True by done. split; [done|]. f_equal. unfold at_. lia.
  - intros search'. rewrite tag_keys_insert by done. rewrite <- Htags.
    destruct (decide (search' = search)) as [-> |?].
    + by rewrite ix_of_set, bool_decide_true, Htp.
    + rewrite ix_of_set_ne, bool_decide_false by done. cbn. lia.
Qed.

(** Installing one key adds its posting. *)
Lemma install_key_spec st inst i search mask k row :
  linked st inst → key_ok k → st.2 !! i = Some row → inst !! (i, length row) = None →
  Z.of_nat (length row) < 2 ^ 32 → Z.of_nat (length (bucket (ix_of st search) k)) < 2 ^ 32 →
  ∃ st' at_, install_key i search mask st k = Ok st' ∧
    linked st' (<[(i, length row) := (search, k, mask)]> inst) ∧
    st'.2 = <[i := row ++ [at_]]> st.2 ∧
    ∀ search' k', (length (bucket (ix_of st' search') k') ≤ length (bucket (ix_of st search') k') + 1)%nat.
Proof.
  intros Hlink Hk Hrow Hnone Hn Hb.
  destruct (Index_push_spec (ix_of st search) k (mkPosting i (length row) mask) (l_wf _ _ Hlink search) Hk Hb)
    as (ix & Hpush & Hwf' & Hbk & Hsame & Htp).
  set (at_ := length (bucket (ix_of st search) k)) in *.
  exists (set_ix st search ix (<[i := row ++ [at_]]> st.2)), at_. split_and!.
  - unfold install_key. destruct st as [[index sindex] places]. cbn in Hrow.
    pose proof (lookup_lt_Some _ _ _ Hrow) as Hlt.
    rewrite (vec_get_Ok _ _ _ Hrow). cbn [mbind result_bind]. rewrite position_Ok by done.
    cbn [mbind result_bind]. change (if search then sindex else index) with (ix_of (index, sindex, places) search).
    rewrite Hpush. cbn [mbind result_bind]. rewrite vec_set_Ok by done. by destruct search.
  - by apply linked_push.
  - apply places_set.
  - intros search' k'. destruct (decide ((search', k') = (search, k))) as [[= -> ->]|Hne'].
    + rewrite ix_of_set, Hbk, length_app. cbn. lia.
    + rewrite (bucket_set _ _ _ _ _ _ _ Hsame Hne'). lia.
Qed.

(** ** Removing a posting *)

Lemma place_relocate places q a j m :
  is_Some (place places (p_slot q) (p_nth q)) →
  place (relocate (Some q) a places) j m =
    if decide ((j, m) = (p_slot q, p_nth q)) then Some a else place places j m.
Proof.
  intros (v & (row & Hrow & Hv)%bind_Some). unfold place. cbn. rewrite list_lookup_alter.
  destruct (decide (p_slot q = j)) as [<- |Hj].
  - rewrite Hrow. cbn. rewrite list_lookup_insert. case_decide as E1; case_decide as E2; try done.
    + destruct E1 as [<- _]. by destruct E2.
    + injection E2 as ->. destruct E1. split; [done|by eapply lookup_lt_Some].
  - by rewrite decide_False by naive_solver.
Qed.

(** The posting that takes the place of the removed one, and where it was. *)
Lemma moved_posting st inst search k at_ q :
  linked st inst → (at_ < length (bucket (ix_of st search) k))%nat →
  swap_removed (bucket (ix_of st search) k) at_ !! at_ = Some q →
  (S at_ < length (bucket (ix_of st search) k))%nat ∧
  inst !! (p_slot q, p_nth q) = Some (search, k, p_kinds q) ∧
  place st.2 (p_slot q) (p_nth q) = Some (length (bucket (ix_of st search) k) - 1)%nat.
Proof.
  intros Hlink Hat. rewrite lookup_swap_removed by done.
  case_decide as Hlt; [|done]. rewrite decide_True by done. rewrite last_lookup. intros Hq.
  split; [done|]. replace (length (bucket (ix_of st search) k) - 1)%nat
    with (pred (length (bucket (ix_of st search) k))) by lia.
  by apply (l_posting _ _ Hlink).
Qed.

(** Where the places are after a removal: the moved posting knows its new place,
    the others keep theirs. *)
Lemma place_after_remove st inst search k at_ j m :
  linked st inst → (at_ < length (bucket (ix_of st search) k))%nat →
  let b := bucket (ix_of st search) k in
  place (relocate (swap_removed b at_ !! at_) at_ st.2) j m =
    if decide (inst !! (j, m) ≫= (λ e, Some (e.1.1, e.1.2)) = Some (search, k) ∧
               place st.2 j m = Some (length b - 1)%nat ∧ (S at_ < length b)%nat)
    then Some at_ else place st.2 j m.
Proof.
  intros Hlink Hat b. destruct (swap_removed b at_ !! at_) as [q|] eqn:Eq.
  - destruct (moved_posting _ _ _ _ _ _ Hlink Hat Eq) as (Hlt & Hq & Hpl).
    rewrite place_relocate by by rewrite Hpl. fold b in Hlt, Hpl.
    case_decide as E1; case_decide as E2; try done.
    + injection E1 as -> ->. destruct E2. by rewrite Hq.
    + destruct E2 as (Hi & Hp & _). exfalso. apply E1.
      apply bind_Some in Hi as ([[s' k'] mask] & Hi & [= -> ->]).
      destruct (l_place _ _ Hlink _ _ _ _ _ Hi) as (_ & a & Ha & Hba).
      destruct (l_place _ _ Hlink _ _ _ _ _ Hq) as (_ & a' & Ha' & Hba').
      assert (a = a') as -> by congruence. rewrite Hba in Hba'. injection Hba' as -> ->. done.
  - cbn. case_decide as E; [|done]. destruct E as (_ & _ & Hlt). exfalso.
    rewrite lookup_swap_removed, decide_True, decide_True, last_lookup in Eq by done.
    apply lookup_ge_None in Eq. fold b in Hat. lia.
Qed.

Section remove.
Context (st : postings) (inst : gmap (nat * nat) installed) (i n at_ : nat) (search : bool)
  (k : Key) (mask : Z) (ix : Index).
Hypothesis Hlink : linked st inst.
Hypothesis Hinst : inst !! (i, n) = Some (search, k, mask).
Hypothesis Hat : place st.2 i n = Some at_.
Local Abbreviation b := (bucket (ix_of st search) k).
Local Abbreviation places := (relocate (swap_removed b at_ !! at_) at_ st.2).

Lemma removed_at : b !! at_ = Some (mkPosting i n mask).
Proof using Hlink Hinst Hat.
  destruct (l_place _ _ Hlink _ _ _ _ _ Hinst) as (_ & a & Ha & Hb). by simplify_eq.
Qed.

Lemma removed_lt : (at_ < length b)%nat.
Proof using Hlink Hinst Hat. eapply lookup_lt_Some, removed_at. Qed.

(** A key of the same bucket that is not removed. *)
Lemma kept_in_bucket j m mask' a :
  (j, m) ≠ (i, n) → inst !! (j, m) = Some (search, k, mask') → place st.2 j m = Some a →
  ∃ a', place places j m = Some a' ∧ swap_removed b at_ !! a' = Some (mkPosting j m mask').
Proof using Hlink Hinst Hat.
  intros Hne Hj Ha. pose proof removed_at as Hr. pose proof removed_lt as Hlt.
  destruct (l_place _ _ Hlink _ _ _ _ _ Hj) as (_ & a0 & Ha0 & Hb).
  assert (a0 = a) as -> by congruence. pose proof (lookup_lt_Some _ _ _ Hb) as Hab.
  assert (a ≠ at_) by (intros ->; congruence).
  rewrite (place_after_remove st inst search k at_ j m Hlink Hlt).
  rewrite Hj, Ha. case_decide as E.
  - destruct E as (_ & Ea & HS). exists at_. split; [done|].
    rewrite lookup_swap_removed, !decide_True, last_lookup by done.
    injection Ea as Ea. rewrite <- Hb. f_equal. lia.
  - exists a. split; [done|]. rewrite lookup_swap_removed by done.
    rewrite decide_True; [by rewrite decide_False|].
    destruct (decide (S at_ < length b)%nat); [|lia].
    destruct (decide (a = length b - 1)%nat) as [-> |]; [|lia]. by destruct E.
Qed.

(** A posting left in the bucket. *)
Lemma left_in_bucket a p :
  swap_removed b at_ !! a = Some p →
  (p_slot p, p_nth p) ≠ (i, n) ∧ inst !! (p_slot p, p_nth p) = Some (search, k, p_kinds p) ∧
  place places (p_slot p) (p_nth p) = Some a.
Proof using Hlink Hinst Hat.
  intros H. pose proof removed_at as Hr. pose proof removed_lt as Hlt.
  rewrite lookup_swap_removed in H by done. case_decide as HS; [|done].
  assert (∃ a0, b !! a0 = Some p ∧ a0 ≠ at_ ∧ (if decide (a = at_) then a0 = (length b - 1)%nat else a0 = a))
    as (a0 & Ha0 & Hne & Hcase).
  { case_decide as E; [subst a|exists a; done].
    rewrite last_lookup in H. exists (pred (length b)). split; [done|]. lia. }
  destruct (l_posting _ _ Hlink _ _ _ _ Ha0) as [Hi Hp].
  assert ((p_slot p, p_nth p) ≠ (i, n)) as Hd by (intros E; injection E as E1 E2; rewrite E1, E2 in Hp; congruence).
  split; [done|]. split; [done|].
  rewrite (place_after_remove st inst search k at_ _ _ Hlink Hlt), Hi, Hp.
  clear H. destruct (decide (a = at_)) as [-> |Ea]; subst a0; case_decide as E; try done.
  - by destruct E.
  - destruct E as (_ & [= ->] & ?). lia.
Qed.

Lemma linked_remove :
  index_wf ix → bucket ix k = swap_removed b at_ → same_buckets_but k (ix_of st search) ix →
  ix_tag_postings (ix_of st search) = (ix_tag_postings ix + b2n (is_tag k))%nat →
  linked (set_ix st search ix places) (delete (i, n) inst).
Proof using Hlink Hinst Hat.
  intros Hwf Hbk Hsame Htp. pose proof removed_lt as Hlt.
  pose proof (λ s k', bucket_set st search s ix places k k' Hsame) as Hbs. split.
  - intros search'. destruct (decide (search' = search)) as [-> |?]; [by rewrite ix_of_set|].
    rewrite ix_of_set_ne by done. apply (l_wf _ _ Hlink).
  - intros j m search' k' mask' [Hne Hj]%lookup_delete_Some. rewrite places_set.
    destruct (l_place _ _ Hlink _ _ _ _ _ Hj) as (Hk & a & Ha & Hb). split; [done|].
    destruct (decide ((search', k') = (search, k))) as [[= -> ->]|Hne'].
    + rewrite ix_of_set, Hbk. by eapply kept_in_bucket.
    + exists a. rewrite Hbs by done. split; [|done].
      rewrite (place_after_remove st inst search k at_ _ _ Hlink Hlt), Hj.
      by rewrite decide_False by naive_solver.
  - intros search' k' a p. rewrite places_set.
    destruct (decide ((search', k') = (search, k))) as [[= -> ->]|Hne'].
    + rewrite ix_of_set, Hbk. intros (Hne & Hi & Hp)%left_in_bucket. by rewrite lookup_delete_ne.
    + rewrite Hbs by done. intros H. destruct (l_posting _ _ Hlink _ _ _ _ H) as [Hi Hp].
      rewrite lookup_delete_ne by (intros E; rewrite E in Hinst; naive_solver). split; [done|].
      rewrite (place_after_remove st inst search k at_ _ _ Hlink Hlt), Hi.
      by rewrite decide_False by naive_solver.
  - intros search'. pose proof (l_tags _ _ Hlink search') as Ht.
    rewrite (tag_keys_delete _ _ _ _ _ _ search' Hinst) in Ht.
    destruct (decide (search' = search)) as [-> |?].
    + rewrite ix_of_set. rewrite bool_decide_true in Ht by done. cbn in Ht. lia.
    + rewrite ix_of_set_ne by done. rewrite bool_decide_false in Ht by done. cbn in Ht. lia.
Qed.
End remove.

(** The rows keep their lengths. *)
Definition same_rows (places places' : list (list nat)) : Prop :=
  length <$> places' = length <$> places.

Lemma relocate_rows moved at_ places : same_rows places (relocate moved at_ places).
Proof.
  destruct moved as [q|]; [|done]. apply list_eq. intros i. rewrite !list_lookup_fmap. cbn.
  rewrite list_lookup_alter. case_decide as E; [subst i|done].
  destruct (places !! p_slot q); [|done]. cbn. by rewrite length_insert.
Qed.

(** Removing an installed key takes its posting away. *)
Lemma uninstall_key_spec st inst i n search k mask :
  linked st inst → inst !! (i, n) = Some (search, k, mask) →
  ∃ st', uninstall_key i search (st, n) k = Ok (st', S n) ∧
    linked st' (delete (i, n) inst) ∧ same_rows st.2 st'.2 ∧
    ∀ search' k', (length (bucket (ix_of st' search') k') ≤ length (bucket (ix_of st search') k'))%nat.
Proof.
  intros Hlink Hinst. destruct (l_place _ _ Hlink _ _ _ _ _ Hinst) as (Hk & at_ & Hat & Hb).
  pose proof (removed_lt _ _ _ _ _ _ _ _ Hlink Hinst Hat) as Hlt.
  destruct (Index_remove_spec (ix_of st search) k at_ st.2) as (ix & Hrem & Hwf & Hbk & Hsame & Htp);
    [apply (l_wf _ _ Hlink)|done|done| | |].
  { intros Ht. rewrite (l_tags _ _ Hlink), (tag_keys_delete _ _ _ _ _ _ search Hinst).
    rewrite bool_decide_true, Ht by done. cbn. lia. }
  { intros q Hq. destruct (moved_posting _ _ _ _ _ _ Hlink Hlt Hq) as (_ & _ & ->). done. }
  set (moved := swap_removed (bucket (ix_of st search) k) at_ !! at_) in *.
  exists (set_ix st search ix (relocate moved at_ st.2)). split_and!.
  - unfold uninstall_key. destruct st as [[index sindex] places]. cbn in Hat.
    apply bind_Some in Hat as (row & Hrow & Ha).
    rewrite (vec_get_Ok _ _ _ Hrow). cbn [mbind result_bind]. rewrite (vec_get_Ok _ _ _ Ha).
    cbn [mbind result_bind]. change (if search then sindex else index) with (ix_of (index, sindex, places) search).
    cbn [snd] in Hrem. rewrite Hrem. by destruct search.
  - by apply (linked_remove _ _ _ _ _ _ _ mask).
  - rewrite places_set. apply relocate_rows.
  - intros search' k'. destruct (decide ((search', k') = (search, k))) as [[= -> ->]|Hne'].
    + rewrite ix_of_set, Hbk, length_swap_removed by done. lia.
    + by rewrite (bucket_set _ _ _ _ _ _ _ Hsame Hne').
Qed.

(** ** All keys of a slot *)

Definition install_one (i : nat) (st : postings) (e : installed) : result Panic postings :=
  install_key i e.1.1 e.2 st e.1.2.

Definition uninstall_one (i : nat) (st : postings * nat) (e : installed) : result Panic (postings * nat) :=
  uninstall_key i e.1.1 st e.1.2.

(** Every bucket has room for [n] more postings. *)
Definition room (st : postings) (n : nat) : Prop :=
  ∀ search k, Z.of_nat (length (bucket (ix_of st search) k) + n) ≤ 2 ^ 32.

Lemma install_keys_spec ks st inst i row :
  linked st inst → Forall (λ e, key_ok e.1.2) ks → st.2 !! i = Some row →
  (∀ n, (length row ≤ n)%nat → inst !! (i, n) = None) → room st (length ks) →
  Z.of_nat (length row + length ks) ≤ 2 ^ 32 →
  ∃ st' inst', try_fold (install_one i) st ks = Ok st' ∧ linked st' inst' ∧
    (∀ j n, inst' !! (j, n) =
       if decide (j = i ∧ (length row ≤ n)%nat) then ks !! (n - length row)%nat else inst !! (j, n)) ∧
    length st'.2 = length st.2 ∧ ∀ j, j ≠ i → st'.2 !! j = st.2 !! j.
Proof.
  revert st inst row. induction ks as [|[[search k] mask] ks IH]; intros st inst row Hlink Hks Hrow Hnone Hroom Hn.
  - exists st, inst. split_and!; try done. intros j n. case_decide as E; [|done].
    destruct E as [-> ?]. by rewrite lookup_nil, Hnone.
  - apply Forall_cons in Hks as [Hk Hks]. cbn in Hk. cbn [length] in *.
    destruct (install_key_spec st inst i search mask k row) as (st1 & at_ & H1 & Hlink1 & Hpl & Hb1);
      [done|done|done|by apply Hnone|lia|specialize (Hroom search k); lia|].
    pose proof (lookup_lt_Some _ _ _ Hrow) as Hlt.
    destruct (IH st1 (<[(i, length row) := (search, k, mask)]> inst) (row ++ [at_]))
      as (st' & inst' & Hfold & Hlink' & Hinst & Hlen & Hrows); try done.
    + by rewrite Hpl, list_lookup_insert_eq.
    + intros n. rewrite length_app. cbn. intros Hle. rewrite lookup_insert_ne by (injection; lia).
      apply Hnone. lia.
    + intros s' k'. specialize (Hroom s' k'). specialize (Hb1 s' k'). lia.
    + rewrite length_app. cbn. lia.
    + exists st', inst'. split_and!; [|done| | |].
      * cbn [try_fold]. unfold install_one at 2. cbn [fst snd]. rewrite H1. exact Hfold.
      * intros j n. rewrite Hinst, length_app. cbn [length].
        destruct (decide (j = i ∧ (length row ≤ n)%nat)) as [[-> Hle]|Hd].
        -- destruct (decide (n = length row)) as [-> |Hne].
           ++ rewrite decide_False by lia. by rewrite lookup_insert_eq, Nat.sub_diag.
           ++ rewrite decide_True by lia. replace (n - length row)%nat with (S (n - (length row + 1))) by lia. done.
        -- rewrite decide_False by lia. rewrite lookup_insert_ne by (injection; lia). done.
      * by rewrite Hlen, Hpl, length_insert.
      * intros j Hj. rewrite Hrows, Hpl by done. by apply list_lookup_insert_ne.
Qed.

Lemma uninstall_keys_spec ks st inst i n0 :
  linked st inst → (∀ m, inst !! (i, n0 + m)%nat = ks !! m) →
  ∃ st' inst', try_fold (uninstall_one i) (st, n0) ks = Ok (st', n0 + length ks)%nat ∧ linked st' inst' ∧
    (∀ j n, inst' !! (j, n) = if decide (j = i ∧ (n0 ≤ n)%nat) then None else inst !! (j, n)) ∧
    same_rows st.2 st'.2 ∧
    ∀ search k, (length (bucket (ix_of st' search) k) ≤ length (bucket (ix_of st search) k))%nat.
Proof.
  revert st inst n0. induction ks as [|[[search k] mask] ks IH]; intros st inst n0 Hlink Hks.
  - exists st, inst. rewrite Nat.add_0_r. split_and!; try done. intros j n. case_decide as E; [|done].
    destruct E as [-> ?]. specialize (Hks (n - n0)%nat).
    by replace (n0 + (n - n0))%nat with n in Hks by lia.
  - pose proof (Hks 0%nat) as H0. rewrite Nat.add_0_r in H0. cbn in H0.
    destruct (uninstall_key_spec st inst i n0 search k mask Hlink H0) as (st1 & H1 & Hlink1 & Hr1 & Hb1).
    destruct (IH st1 (delete (i, n0) inst) (S n0) Hlink1) as (st' & inst' & Hfold & Hlink' & Hinst & Hr & Hb).
    { intros m. rewrite lookup_delete_ne by (injection; lia). specialize (Hks (S m)). by rewrite <- Nat.add_succ_comm in Hks. }
    exists st', inst'. split_and!; [|done| | |].
    + cbn [try_fold]. unfold uninstall_one at 2. cbn [fst snd length]. rewrite H1. cbn [mbind result_bind].
      rewrite Hfold. by rewrite <- Nat.add_succ_comm.
    + intros j n. rewrite Hinst. destruct (decide ((j, n) = (i, n0))) as [[= -> ->]|Hne].
      * rewrite lookup_delete_eq. by rewrite decide_False, decide_True by lia.
      * rewrite lookup_delete_ne by done. assert (j ≠ i ∨ n ≠ n0) by (destruct (decide (j = i)); [right; congruence|by left]).
        repeat case_decide; try done; exfalso; lia.
    + unfold same_rows in *. congruence.
    + intros s' k'. specialize (Hb1 s' k'). specialize (Hb s' k'). lia.
Qed.

(** A slot without installed keys can forget its places. *)
Lemma linked_clear st inst i :
  linked st inst → (∀ n, inst !! (i, n) = None) →
  linked (st.1, <[i := []]> st.2) inst.
Proof.
  intros [Hwf Hplace Hpost Htags] Hnone.
  assert (∀ j n, j ≠ i → place (<[i := []]> st.2) j n = place st.2 j n) as Hp.
  { intros j n Hj. unfold place. by rewrite list_lookup_insert_ne. }
  split; [done| | |done].
  - intros j n search k mask Hj. destruct (Hplace _ _ _ _ _ Hj) as (? & a & ? & ?). split; [done|].
    exists a. cbn. rewrite Hp; [done|]. intros ->. by rewrite Hnone in Hj.
  - intros search k a p H. destruct (Hpost _ _ _ _ H) as [Hi ?]. split; [done|]. cbn.
    rewrite Hp; [done|]. intros E. rewrite E, Hnone in Hi. done.
Qed.
