(* ===== verification/MonitorSpec.v ===== *)
(** * The monitors as a map from subscription ids to subscriptions

    The consistency of slots, index and connections, that every operation of
    Monitor.v keeps it without panicking, and what each operation does to the
    map from connection and subscription id to the open subscription. *)

From S2P Require Import Prelude BTreeMap Json Crates Kinds Packed EventParse Search Filter FilterSpec Pending Monitor MonitorIndex.

Local Open Scope Z_scope.

(** ** The invariant *)

Definition filter_keys (f : NostrFilter) : list Key :=
  match for_each_key f with Ok ks => ks | Err _ => [] end.

(** The keys a group is installed under, in order. *)
Definition group_keys (fg : NostrFilterGroup) : list installed :=
  g_filters fg ≫= λ f, (λ k, (has_search f, k, kind_mask f)) <$> filter_keys f.

Definition slot_keys (slots : list (option Monitored)) (i : nat) : list installed :=
  match slots !! i with
  | Some (Some entry) => group_keys (filter_group (m_sub entry))
  | _ => []
  end.

Definition needs_content (o : option Monitored) : bool :=
  match o with Some entry => group_requires_content (filter_group (m_sub entry)) | None => false end.

Definition content_count (slots : list (option Monitored)) : nat :=
  length (filter (λ o, needs_content o = true) slots).

(** The indexes and the places of the monitors. *)
Definition am_postings (m : ActiveMonitors) : postings := (am_index m, am_search m, am_places m).

(** Everything agrees, except that the connections and the free list may not yet,
    or no longer, know the slots in [holes]. *)
Record consistent_but (holes : gset nat) (m : ActiveMonitors) : Prop := {
  c_places : length (am_places m) = length (am_slots m);
  c_seen_len : length (am_seen m) = length (am_slots m);
  c_conns c s i : slot_of m c s = Some i → i ∉ holes →
    ∃ entry, am_slots m !! i = Some (Some entry) ∧ conn_id (m_sub entry) = c ∧ sub_id (m_sub entry) = s;
  c_group i entry : am_slots m !! i = Some (Some entry) → group_ok (filter_group (m_sub entry));
  c_slots i entry : am_slots m !! i = Some (Some entry) → i ∉ holes →
    slot_of m (conn_id (m_sub entry)) (sub_id (m_sub entry)) = Some i;
  c_nonempty c subs : am_conns m !! c = Some subs → subs ≠ ∅;
  c_free_nodup : NoDup (am_free m);
  c_free i : i ∈ am_free m ↔ am_slots m !! i = Some None ∧ i ∉ holes;
  c_rows i : am_slots m !! i = Some None → am_places m !! i = Some [];
  c_linked : ∃ inst, linked (am_postings m) inst ∧
    ∀ i n, inst !! (i, n) = slot_keys (am_slots m) i !! n;
  c_content : am_content_subscriptions m = content_count (am_slots m);
  c_seen : Forall (λ s, s ≤ am_pass m) (am_seen m);
  c_pass : 0 ≤ am_pass m;
}.

Abbreviation consistent := (consistent_but ∅).

(** The open subscription with an id. *)
Definition view (m : ActiveMonitors) (c : Z) (s : SubId) : option Monitored :=
  match slot_of m c s with
  | Some i => match am_slots m !! i with Some o => o | None => None end
  | None => None
  end.

(** ** Keys of filters *)

Lemma wrap8_range n : 0 ≤ wrap8 n < 256.
Proof. unfold wrap8. by apply Z.mod_pos_bound. Qed.

Lemma for_each_key_ok f :
  filter_ok f → for_each_key f = Ok (filter_keys f) ∧ Forall key_ok (filter_keys f).
Proof.
  intros Hok. unfold filter_keys, for_each_key.
  destruct (f_ids f) as [ids|] eqn:Ei.
  { split; [done|]. destruct (ok_ids _ Hok _ Ei) as (_ & H & _).
    apply Forall_fmap. eapply Forall_impl; [exact H|done]. }
  destruct (f_authors f) as [authors|] eqn:Ea.
  { split; [done|]. destruct (ok_authors _ Hok _ Ea) as (_ & H & _).
    apply Forall_fmap. eapply Forall_impl; [exact H|done]. }
  destruct (f_and_tags f) as [|[name values] ands] eqn:En.
  2: { destruct (ok_and _ Hok name values) as (_ & _ & Hne); [rewrite En; by left|].
    destruct (fsb_items values) as [|v vs]; [done|]. cbn. split; [done|].
    constructor; [apply wrap8_range|done]. }
  destruct (f_tags f) as [|e tags].
  2: { destruct (foldl smaller_set e tags) as [name values]. split; [done|].
    apply Forall_fmap, Forall_true. intros v. apply wrap8_range. }
  destruct (f_kinds f); (split; [done|]); [by apply Forall_fmap, Forall_true|by constructor].
Qed.

Lemma group_keys_ok fg : group_ok fg → Forall (λ e : installed, key_ok e.1.2) (group_keys fg).
Proof.
  intros H. unfold group_keys. apply Forall_bind. eapply Forall_impl; [exact H|]. intros f Hf.
  apply Forall_fmap. by apply for_each_key_ok.
Qed.

Lemma try_fold_fmap {E A B C} (g : A → C → result E A) (h : B → C) st l :
  try_fold g st (h <$> l) = try_fold (λ st x, g st (h x)) st l.
Proof.
  revert st. induction l as [|x l IH]; intros st; [done|]. cbn. destruct (g st (h x)); cbn; [|done]. apply IH.
Qed.

Lemma install_filters_keys fg i st :
  group_ok fg → try_fold (install_filter i) st (g_filters fg) = try_fold (install_one i) st (group_keys fg).
Proof.
  unfold group_ok, group_keys. intros H. revert st. induction H as [|f fs Hf _ IH]; intros st; [done|].
  cbn [try_fold]. rewrite bind_cons, try_fold_app. unfold install_filter at 2.
  rewrite (proj1 (for_each_key_ok f Hf)). cbn [mbind result_bind]. rewrite try_fold_fmap.
  change (λ st x, install_one i st (has_search f, x, kind_mask f)) with (install_key i (has_search f) (kind_mask f)).
  destruct (try_fold _ st (filter_keys f)) as [st'|]; [|done]. apply IH.
Qed.

Lemma uninstall_filters_keys fg i st :
  group_ok fg → try_fold (uninstall_filter i) st (g_filters fg) = try_fold (uninstall_one i) st (group_keys fg).
Proof.
  unfold group_ok, group_keys. intros H. revert st. induction H as [|f fs Hf _ IH]; intros st; [done|].
  cbn [try_fold]. rewrite bind_cons, try_fold_app. unfold uninstall_filter at 2.
  rewrite (proj1 (for_each_key_ok f Hf)). cbn [mbind result_bind]. rewrite try_fold_fmap.
  change (λ st x, uninstall_one i st (has_search f, x, kind_mask f)) with (uninstall_key i (has_search f)).
  destruct (try_fold _ st (filter_keys f)) as [st'|]; [|done]. apply IH.
Qed.

(** ** Taking a subscription out of its slot and putting one in *)

Lemma content_count_insert slots i x y :
  slots !! i = Some x →
  (content_count (<[i := y]> slots) + b2n (needs_content x) =
   content_count slots + b2n (needs_content y))%nat.
Proof.
  intros Hx. pose proof (lookup_lt_Some _ _ _ Hx) as Hlt.
  rewrite insert_take_drop by done.
  assert (content_count slots = content_count (take i slots ++ x :: drop (S i) slots)) as ->
    by by rewrite take_drop_middle.
  unfold content_count. rewrite !filter_app, !filter_cons, !length_app.
  destruct (needs_content x), (needs_content y); repeat case_decide; cbn; try done; lia.
Qed.

Lemma slot_keys_insert slots i o j :
  (i < length slots)%nat →
  slot_keys (<[i := o]> slots) j =
    if decide (j = i)
    then match o with Some entry => group_keys (filter_group (m_sub entry)) | None => [] end
    else slot_keys slots j.
Proof.
  intros Hlt. unfold slot_keys. destruct (decide (j = i)) as [-> |Hj].
  - rewrite list_lookup_insert_eq by done. by destruct o.
  - by rewrite list_lookup_insert_ne.
Qed.

Lemma same_rows_lookup places places' i row :
  same_rows places places' → places !! i = Some row → ∃ row', places' !! i = Some row' ∧ length row' = length row.
Proof.
  intros H Hi. apply (f_equal (.!! i)) in H. rewrite !list_lookup_fmap, Hi in H. cbn in H.
  apply fmap_Some in H as (row' & ? & ?). eauto.
Qed.

(** [uninstall] leaves the slot empty and installed nowhere. *)
Lemma uninstall_spec holes m i entry :
  consistent_but holes m → am_slots m !! i = Some (Some entry) →
  ∃ ix sx places content,
    let m' := set_indexed (set_slots m (<[i := None]> (am_slots m))) ix sx places content in
    uninstall m i = Ok (m', entry) ∧ consistent_but ({[i]} ∪ holes) m' ∧
    ∀ n, room (am_postings m) n → room (am_postings m') n.
Proof.
  intros Hm Hi. pose proof (lookup_lt_Some _ _ _ Hi) as Hlt.
  pose proof (c_group _ _ Hm _ _ Hi) as Hg. destruct (c_linked _ _ Hm) as (inst & Hlink & Hinst).
  destruct (uninstall_keys_spec (group_keys (filter_group (m_sub entry))) (am_postings m) inst i 0)
    as (st & inst' & Hfold & Hlink' & Hinst' & Hrows & Hb); [done| |].
  { intros n. rewrite Hinst. unfold slot_keys. by rewrite Hi. }
  pose proof (content_count_insert (am_slots m) i (Some entry) None Hi) as Hcount.
  rewrite <- (c_content _ _ Hm) in Hcount. cbn [needs_content] in Hcount.
  destruct st as [[ix sx] places]. cbn [snd fst] in Hrows.
  assert (length places = length (am_places m)) as Hlen.
  { apply (f_equal length) in Hrows. by rewrite !length_fmap in Hrows. }
  exists ix, sx, (<[i := []]> places), (content_count (<[i := None]> (am_slots m))). split_and!.
  - unfold uninstall. rewrite (vec_get_Ok _ _ _ Hi). cbn [mbind result_bind expect ok_or].
    rewrite vec_set_Ok by done. cbn [mbind result_bind]. unfold usize_sub.
    rewrite (proj2 (Nat.leb_le _ _)) by (cbn in Hcount; lia). cbn [mbind result_bind].
    rewrite (uninstall_filters_keys _ _ _ Hg). unfold am_postings in Hfold. rewrite Hfold.
    cbn [mbind result_bind]. rewrite vec_set_Ok by (rewrite Hlen, (c_places _ _ Hm); done).
    cbn [mbind result_bind]. do 4 f_equal. cbn in Hcount. lia.
  - apply (linked_clear _ _ i) in Hlink'; [|intros n; rewrite Hinst'; by rewrite decide_True by lia].
    destruct Hm as [Hpl Hsl Hconns Hgroup Hslots Hne Hnd Hfree Hrow _ _ Hseen Hpass].
    split; cbn; rewrite ?length_insert; try done.
    + by rewrite Hlen.
    + intros c s j Hj Hd. destruct (Hconns c s j Hj) as (e & He & ?); [set_solver|].
      exists e. split; [|done]. rewrite list_lookup_insert_ne by set_solver. done.
    + intros j e. rewrite list_lookup_insert_Some. intros [(_ & [=] & _)|[_ He]]. by eapply Hgroup.
    + intros j e. rewrite list_lookup_insert_Some. intros [(_ & [=] & _)|[_ He]] Hd.
      apply Hslots; [done|set_solver].
    + intros j. rewrite Hfree, list_lookup_insert_Some. split.
      * intros [Hj Hd]. assert (i ≠ j) by (intros ->; congruence). split; [by right|set_solver].
      * intros [[(<- & _)|[? ?]] Hd]; [set_solver|]. split; [done|set_solver].
    + intros j. rewrite list_lookup_insert_Some. intros [(<- & _)|[Hd Hj]].
      * apply list_lookup_insert_eq. by rewrite Hlen, Hpl.
      * rewrite list_lookup_insert_ne by done.
        destruct (same_rows_lookup _ _ _ _ Hrows (Hrow _ Hj)) as (row' & Hr' & Hl').
        by apply nil_length_inv in Hl' as ->.
    + exists inst'. split; [done|]. intros j n. rewrite Hinst', slot_keys_insert by done.
      destruct (decide (j = i)) as [-> |Hd]; [by rewrite decide_True by lia|].
      rewrite decide_False by naive_solver. apply Hinst.
  - intros n Hroom search k. specialize (Hb search k). specialize (Hroom search k).
    destruct search; cbn in *; lia.
Qed.

(** Filling an empty slot that the connections already point to. *)
Lemma install_spec holes m i entry :
  consistent_but ({[i]} ∪ holes) m → i ∉ holes → am_slots m !! i = Some None →
  group_ok (filter_group (m_sub entry)) →
  room (am_postings m) (length (group_keys (filter_group (m_sub entry)))) →
  (∀ c s, slot_of m c s = Some i ↔ c = conn_id (m_sub entry) ∧ s = sub_id (m_sub entry)) →
  ∃ ix sx places content,
    let m' := set_indexed (set_slots m (<[i := Some entry]> (am_slots m))) ix sx places content in
    install (set_slots m (<[i := Some entry]> (am_slots m))) i = Ok m' ∧ consistent_but holes m'.
Proof.
  intros Hm Hhole Hi Hg Hroom Hkey. pose proof (lookup_lt_Some _ _ _ Hi) as Hlt.
  destruct (c_linked _ _ Hm) as (inst & Hlink & Hinst). pose proof (c_rows _ _ Hm _ Hi) as Hrow.
  set (ks := group_keys (filter_group (m_sub entry))) in *.
  destruct (install_keys_spec ks (am_postings m) inst i [])
    as (st & inst' & Hfold & Hlink' & Hinst' & Hlen & Hrows); [done|by apply group_keys_ok|done| |done| |].
  { intros n _. rewrite Hinst. unfold slot_keys. by rewrite Hi. }
  { specialize (Hroom false KAny). cbn [length]. lia. }
  pose proof (content_count_insert (am_slots m) i None (Some entry) Hi) as Hcount.
  rewrite <- (c_content _ _ Hm) in Hcount. cbn [needs_content b2n] in Hcount.
  destruct st as [[ix sx] places]. cbn [snd fst am_postings] in Hlen, Hrows.
  exists ix, sx, places, (content_count (<[i := Some entry]> (am_slots m))). split.
  - unfold install. cbn [am_slots set_slots]. rewrite (vec_get_Ok _ i (Some entry)) by by apply list_lookup_insert_eq.
    cbn [mbind result_bind expect ok_or am_places set_slots]. rewrite (vec_get_Ok _ _ _ Hrow). cbn [mbind result_bind].
    rewrite (install_filters_keys _ _ _ Hg). unfold am_postings in Hfold. cbn [am_index am_search am_places set_slots].
    unfold ks in Hfold. rewrite Hfold. cbn [mbind result_bind am_content_subscriptions set_slots].
    do 2 f_equal. lia.
  - destruct Hm as [Hpl Hsl Hconns Hgroup Hslots Hne Hnd Hfree Hrow' _ _ Hseen Hpass].
    split; cbn; rewrite ?length_insert; try done.
    + by rewrite Hlen.
    + intros c s j Hj Hd. destruct (decide (j = i)) as [-> |Hji].
      * apply Hkey in Hj as [-> ->]. exists entry. split; [by apply list_lookup_insert_eq|done].
      * rewrite list_lookup_insert_ne by done. apply Hconns; [done|set_solver].
    + intros j e. rewrite list_lookup_insert_Some. intros [(<- & [= <-] & _)|[_ He]]; [done|by eapply Hgroup].
    + intros j e. rewrite list_lookup_insert_Some. intros [(<- & [= <-] & _)|[Hji He]] Hd.
      * by apply Hkey.
      * apply Hslots; [done|set_solver].
    + intros j. rewrite Hfree, list_lookup_insert_Some. split.
      * intros [Hj Hd]. split; [right; set_solver|set_solver].
      * intros [[(_ & [=] & _)|[? ?]] Hd]. split; [done|set_solver].
    + intros j. rewrite list_lookup_insert_Some. intros [(_ & [=] & _)|[Hd Hj]]. rewrite Hrows by done. by apply Hrow'.
    + exists inst'. split; [done|]. intros j n. rewrite Hinst', slot_keys_insert by done. cbn [length].
      destruct (decide (j = i)) as [-> |Hd].
      * by rewrite decide_True, Nat.sub_0_r by lia.
      * rewrite decide_False by naive_solver. apply Hinst.
Qed.

(** The connections do not point to a free slot. *)
Lemma free_slot_unused holes m c s i :
  consistent_but holes m → am_slots m !! i = Some None → i ∉ holes → slot_of m c s ≠ Some i.
Proof.
  intros Hm Hi Hd Hs. destruct (c_conns _ _ Hm _ _ _ Hs Hd) as (e & He & _). congruence.
Qed.

Lemma slot_of_insert m c s i c' s' :
  slot_of (set_conns m (<[c := <[s := i]> (default ∅ (am_conns m !! c))]> (am_conns m))) c' s' =
    if decide (c' = c ∧ s' = s) then Some i else slot_of m c' s'.
Proof.
  unfold slot_of. cbn. destruct (decide (c' = c)) as [-> |Hc].
  - rewrite lookup_insert_eq. cbn. destruct (decide (s' = s)) as [-> |Hs].
    + by rewrite lookup_insert_eq, decide_True.
    + rewrite lookup_insert_ne, decide_False by naive_solver. by destruct (am_conns m !! c); cbn.
  - by rewrite lookup_insert_ne, decide_False by naive_solver.
Qed.

Lemma place_grow places j n : place (places ++ [[]]) j n = place places j n.
Proof.
  unfold place. destruct (decide (j < length places)%nat) as [Hj|Hj]; [by rewrite lookup_app_l|].
  rewrite (lookup_ge_None_2 places) by lia. rewrite lookup_app_r by lia.
  by destruct (j - length places)%nat as [|[]].
Qed.

Lemma linked_grow st inst : linked st inst → linked (st.1, st.2 ++ [[]]) inst.
Proof.
  intros [Hwf Hplace Hpost Htags]. split; [done| | |done].
  - intros j n search k mask Hj. cbn. rewrite place_grow. by apply Hplace.
  - intros search k a p H. cbn. rewrite place_grow. by apply Hpost.
Qed.

Lemma slot_keys_grow slots j : slot_keys (slots ++ [None]) j = slot_keys slots j.
Proof.
  unfold slot_keys. destruct (decide (j < length slots)%nat) as [Hj|Hj]; [by rewrite lookup_app_l|].
  rewrite (lookup_ge_None_2 slots) by lia. rewrite lookup_app_r by lia.
  by destruct (j - length slots)%nat as [|[]].
Qed.

(** Taking the last free slot. *)
Lemma pop_free_spec m free i :
  consistent m → am_free m = free ++ [i] →
  consistent_but {[i]} (set_free m free) ∧ am_slots m !! i = Some None.
Proof.
  intros [Hpl Hsl Hconns Hgroup Hslots Hne Hnd Hfree Hrow Hlink Hcont Hseen Hpass] Hf.
  rewrite Hf in *. apply NoDup_app in Hnd as (Hnd & Hdisj & _).
  split; [|apply Hfree; set_solver]. split; cbn; try done.
  - intros c s j Hj _. apply (Hconns c s j Hj). set_solver.
  - intros j e He _. apply Hslots; [done|set_solver].
  - intros j. split.
    + intros Hj. assert (j ∈ free ++ [i]) as [Hs _]%Hfree by set_solver. split; [done|].
      rewrite not_elem_of_singleton. intros ->. apply (Hdisj i Hj). set_solver.
    + intros [Hj Hd]. assert (j ∈ free ++ [i]) by (apply Hfree; set_solver). set_solver.
Qed.

(** A slot more. *)
Definition grow (m : ActiveMonitors) : ActiveMonitors :=
  mkActiveMonitors (am_conns m) (am_slots m ++ [None]) (am_places m ++ [[]]) (am_free m)
    (am_index m) (am_search m) (am_seen m ++ [0]) (am_pass m) (am_candidates m)
    (am_max_subs m) (am_content_subscriptions m).

Lemma grow_spec m : consistent m → consistent_but {[length (am_slots m)]} (grow m).
Proof.
  intros [Hpl Hsl Hconns Hgroup Hslots Hne Hnd Hfree Hrow (inst & Hlink & Hinst) Hcont Hseen Hpass].
  set (i := length (am_slots m)).
  assert (∀ j o, (am_slots m ++ [None]) !! j = Some o → j ≠ i → am_slots m !! j = Some o) as Hold.
  { intros j o [?|(Hle & Hj)]%lookup_app_Some Hd; [done|].
    apply list_lookup_singleton_Some in Hj as [Hj _]. unfold i in Hd. lia. }
  assert (∀ j o, am_slots m !! j = Some o → (am_slots m ++ [None]) !! j = Some o) as Hnew
    by (intros; by apply lookup_app_l_Some).
  split; cbn; rewrite ?length_app; cbn; try done; try lia.
  - intros c s j Hj Hd. destruct (Hconns c s j Hj) as (e & He & ?); [set_solver|]. eauto.
  - intros j e He. destruct (decide (j = i)) as [-> |Hd]; [|eauto].
    rewrite list_lookup_middle in He by done. done.
  - intros j e He Hd. apply Hslots; [apply Hold; [done|set_solver]|set_solver].
  - intros j. rewrite Hfree. split.
    + intros [Hj _]. split; [by apply Hnew|]. apply lookup_lt_Some in Hj.
      rewrite not_elem_of_singleton. unfold i. lia.
    + intros [Hj Hd]. split; [|set_solver]. apply Hold; [done|set_solver].
  - intros j Hj. destruct (decide (j = i)) as [-> |Hd].
    + unfold i. rewrite <- Hpl. by apply list_lookup_middle.
    + apply lookup_app_l_Some, Hrow. by apply Hold.
  - exists inst. split; [by apply (linked_grow (am_postings m))|]. intros j n. by rewrite slot_keys_grow.
  - unfold content_count. rewrite filter_app, filter_cons, filter_nil, decide_False, app_nil_r by done.
    exact Hcont.
  - apply Forall_app. split; [done|]. by constructor.
Qed.

(** Reserving a slot: the last free one, or a new one. *)
Lemma allocate_spec m :
  consistent m → Z.of_nat (length (am_slots m)) < 2 ^ 32 →
  ∃ m' i, allocate m = Ok (m', i) ∧ consistent_but {[i]} m' ∧ am_slots m' !! i = Some None ∧
    am_conns m' = am_conns m ∧ am_max_subs m' = am_max_subs m ∧
    (∀ j, j ≠ i → am_slots m' !! j = am_slots m !! j) ∧ (∀ e, am_slots m !! i ≠ Some (Some e)) ∧
    ix_of (am_postings m') = ix_of (am_postings m).
Proof.
  intros Hm Hn. unfold allocate. destruct (last (am_free m)) as [i|] eqn:Hlast.
  - apply last_Some in Hlast as [free Hf]. destruct (pop_free_spec m free i Hm Hf) as [Hm' Hi].
    rewrite Hf, length_app, take_app_length' by (cbn; lia).
    exists (set_free m free), i. split_and!; try done. intros e. by rewrite Hi.
  - rewrite position_Ok by done. cbn [mbind result_bind]. exists (grow m), (length (am_slots m)).
    split; [done|]. split; [by apply grow_spec|]. split; [by apply list_lookup_middle|].
    split_and!; try done; [|intros e; by rewrite lookup_ge_None_2].
    intros j Hj. cbn. destruct (decide (j < length (am_slots m))%nat).
    + by rewrite lookup_app_l.
    + rewrite !lookup_ge_None_2; [done|lia|]. rewrite length_app. cbn. lia.
Qed.

(** ** Adding subscriptions *)

(** The numbers of the slots and of the postings stay below 2^32. *)
Definition room_for (m : ActiveMonitors) (sub : Subscription) : Prop :=
  room (am_postings m) (length (group_keys (filter_group sub))) ∧
  Z.of_nat (length (am_slots m)) < 2 ^ 32.

(** Pointing a new id to the reserved slot. *)
Lemma reserve_spec m c s i :
  consistent_but {[i]} m → slot_of m c s = None →
  consistent_but {[i]} (set_conns m (<[c := <[s := i]> (default ∅ (am_conns m !! c))]> (am_conns m))).
Proof.
  intros [Hpl Hsl Hconns Hgroup Hslots Hne Hnd Hfree Hrow Hlink Hcont Hseen Hpass] Hnone.
  split; cbn; try done.
  - intros c' s' j. rewrite slot_of_insert. case_decide; [intros [= <-]; set_solver|]. apply Hconns.
  - intros j e He Hd. rewrite slot_of_insert. specialize (Hslots _ _ He Hd).
    case_decide as E; [|done]. destruct E as [E1 E2]. rewrite E1, E2 in Hslots. congruence.
  - intros c' subs. rewrite lookup_insert_Some. intros [[-> <-]|[_ ?]]; [|by eapply Hne].
    apply insert_non_empty.
Qed.

(** Putting the subscription into its reserved slot. *)
Lemma fill_spec m i sub pending :
  consistent_but {[i]} m → am_slots m !! i = Some None → group_ok (filter_group sub) →
  room (am_postings m) (length (group_keys (filter_group sub))) →
  (∀ c s, slot_of m c s = Some i ↔ c = conn_id sub ∧ s = sub_id sub) →
  ∃ m', (slots ← vec_set (am_slots m) i (Some (mkMonitored sub pending));
         install (set_slots m slots) i) = Ok m' ∧ consistent m' ∧ am_max_subs m' = am_max_subs m ∧
    ∀ c s, view m' c s =
      if decide (c = conn_id sub ∧ s = sub_id sub) then Some (mkMonitored sub pending) else view m c s.
Proof.
  intros Hm Hi Hg Hroom Hkey. pose proof (lookup_lt_Some _ _ _ Hi) as Hlt.
  destruct (install_spec ∅ m i (mkMonitored sub pending)) as (ix & sx & places & content & H & Hm');
    [by rewrite union_empty_r_L|set_solver|done..|].
  rewrite vec_set_Ok by done. cbn [mbind result_bind]. eexists. split; [exact H|]. split; [done|]. split; [done|].
  intros c s. unfold view. change (slot_of (set_indexed _ _ _ _ _) c s) with (slot_of m c s). cbn.
  destruct (slot_of m c s) as [j|] eqn:Ej.
  - destruct (decide (j = i)) as [-> |Hj].
    + apply Hkey in Ej as [-> ->]. by rewrite list_lookup_insert_eq, decide_True.
    + rewrite list_lookup_insert_ne, decide_False; [done| |done].
      intros E. apply Hkey in E. congruence.
  - rewrite decide_False; [done|]. intros E. apply Hkey in E. congruence.
Qed.

(** A new generation takes over the slot of the one it replaces. *)
Lemma replace_spec m i sub pending :
  consistent m → group_ok (filter_group sub) →
  room (am_postings m) (length (group_keys (filter_group sub))) →
  slot_of m (conn_id sub) (sub_id sub) = Some i →
  ∃ m', insert_sub m sub pending = Ok m' ∧ consistent m' ∧ am_max_subs m' = am_max_subs m ∧
    ∀ c s, view m' c s =
      if decide (c = conn_id sub ∧ s = sub_id sub) then Some (mkMonitored sub pending) else view m c s.
Proof.
  intros Hm Hg Hroom Hs. unfold insert_sub. rewrite Hs.
  destruct (c_conns _ _ Hm _ _ _ Hs) as (old & Hold & Hc & Hsub); [set_solver|].
  pose proof (lookup_lt_Some _ _ _ Hold) as Hlt.
  destruct (uninstall_spec ∅ m i old Hm Hold) as (ix & sx & places & content & -> & Hm1 & Hroom1).
  rewrite union_empty_r_L in Hm1. cbn [mbind result_bind].
  edestruct (fill_spec _ i sub pending Hm1) as (m' & H & ? & ? & Hview);
    [by apply list_lookup_insert_eq|done|by apply Hroom1| |].
  { intros c s. split.
    - intros Hcs. destruct (c_conns _ _ Hm c s i Hcs) as (e & He & ? & ?); [set_solver|]. naive_solver.
    - by intros [-> ->]. }
  exists m'. split; [exact H|]. split_and!; try done. intros c s. rewrite Hview.
  case_decide as E; [done|]. unfold view. cbn. change (slot_of (set_indexed _ _ _ _ _) c s) with (slot_of m c s).
  destruct (slot_of m c s) as [j|] eqn:Ej; [|done]. destruct (decide (j = i)) as [-> |Hj].
  - destruct (c_conns _ _ Hm c s i Ej) as (e & He & <- & <-); [set_solver|]. naive_solver.
  - by rewrite list_lookup_insert_ne.
Qed.

Lemma insert_sub_spec m sub pending :
  consistent m → group_ok (filter_group sub) → room_for m sub →
  ∃ m', insert_sub m sub pending = Ok m' ∧ consistent m' ∧ am_max_subs m' = am_max_subs m ∧
    ∀ c s, view m' c s =
      if decide (c = conn_id sub ∧ s = sub_id sub) then Some (mkMonitored sub pending) else view m c s.
Proof.
  intros Hm Hg [Hroom Hlen].
  destruct (slot_of m (conn_id sub) (sub_id sub)) as [i|] eqn:Hs; [by eapply replace_spec|].
  unfold insert_sub. rewrite Hs.
  destruct (allocate_spec m Hm Hlen) as (m1 & i & -> & Hm1 & Hi & Hc1 & Hmax & Hsame & Hempty & Hix).
  cbn [mbind result_bind].
  assert (∀ c s, slot_of m1 c s = slot_of m c s) as Hso by (intros; unfold slot_of; by rewrite Hc1).
  assert (∀ c s j, slot_of m c s = Some j → j ≠ i) as Hunused.
  { intros c s j Hj ->. destruct (c_conns _ _ Hm c s i Hj) as (e & He & _); [set_solver|].
    by apply Hempty in He. }
  assert (slot_of m1 (conn_id sub) (sub_id sub) = None) as Hs1 by by rewrite Hso.
  edestruct (fill_spec _ i sub pending (reserve_spec m1 (conn_id sub) (sub_id sub) i Hm1 Hs1))
    as (m' & H & ? & Hmax' & Hview); [done|done| | |].
  { intros s k. change (ix_of (am_postings (set_conns m1 ?c))) with (ix_of (am_postings m1)).
    rewrite Hix. apply Hroom. }
  { intros c s. rewrite slot_of_insert. case_decide as E; [done|]. rewrite Hso. split; [|done].
    by intros ?%Hunused. }
  exists m'. split; [exact H|]. split_and!; [done|by rewrite Hmax'|]. intros c s. rewrite Hview.
  case_decide as E; [done|]. unfold view. rewrite slot_of_insert, decide_False by done. rewrite Hso. cbn.
  destruct (slot_of m c s) as [j|] eqn:Ej; [|done]. rewrite Hsame; [done|by eapply Hunused].
Qed.

(** ** Removing subscriptions *)

(** Freeing a slot that the connections no longer point to. *)
Lemma release_spec holes m i entry :
  consistent_but ({[i]} ∪ holes) m → i ∉ holes → am_slots m !! i = Some (Some entry) →
  (∀ c s, slot_of m c s ≠ Some i) →
  ∃ m', release m i = Ok m' ∧ consistent_but holes m' ∧ am_slots m' = <[i := None]> (am_slots m) ∧
    am_conns m' = am_conns m ∧ am_max_subs m' = am_max_subs m.
Proof.
  intros Hm Hhole Hi Hunused. pose proof (lookup_lt_Some _ _ _ Hi) as Hlt.
  assert (i ∉ am_free m) as Hnf by (rewrite (c_free _ _ Hm); set_solver).
  destruct (uninstall_spec _ m i entry Hm Hi) as (ix & sx & places & content & Hun & Hm' & _).
  unfold release. rewrite Hun. cbn [mbind result_bind]. eexists. split; [done|]. split; [|done].
  rewrite union_assoc_L, union_idemp_L in Hm'.
  destruct Hm' as [Hpl Hsl Hconns Hgroup Hslots Hne Hnd Hfree Hrow Hlink Hcont Hseen Hpass].
  split; try done.
  - intros c s j Hj Hd. apply (Hconns c s j Hj). assert (j ≠ i); [|set_solver].
    intros ->. by apply (Hunused c s).
  - intros j e He Hd. apply (Hslots j e He). cbn in He. apply list_lookup_insert_Some in He as [(_ & [=] & _)|[? _]].
    set_solver.
  - cbn. apply NoDup_app. split_and!; [done|set_solver|apply NoDup_singleton].
  - intros j. cbn in *. rewrite elem_of_app, Hfree, list_elem_of_singleton. destruct (decide (j = i)) as [-> |Hj].
    + rewrite list_lookup_insert_eq by done. set_solver.
    + set_solver.
Qed.

Lemma slot_of_delete m c s subs c' s' :
  am_conns m !! c = Some subs →
  slot_of (set_conns m (if bool_decide (delete s subs = ∅) then delete c (am_conns m)
                        else <[c := delete s subs]> (am_conns m))) c' s' =
    if decide (c' = c ∧ s' = s) then None else slot_of m c' s'.
Proof.
  intros Hc. unfold slot_of. cbn. destruct (decide (c' = c)) as [-> |Hd].
  - assert ((if bool_decide (delete s subs = ∅) then delete c (am_conns m)
             else <[c := delete s subs]> (am_conns m)) !! c ≫= (.!! s') = delete s subs !! s') as ->.
    { case_bool_decide as E; [by rewrite lookup_delete_eq, E, lookup_empty|by rewrite lookup_insert_eq]. }
    rewrite Hc. cbn. destruct (decide (s' = s)) as [-> |Hs].
    + by rewrite lookup_delete_eq, decide_True.
    + by rewrite lookup_delete_ne, decide_False by naive_solver.
  - rewrite (decide_False (P := c' = c ∧ s' = s)) by naive_solver.
    case_bool_decide; [by rewrite lookup_delete_ne|by rewrite lookup_insert_ne].
Qed.

(** Forgetting ids leaves their slots as holes. *)
Lemma forget_spec m conns holes :
  consistent m → (∀ c subs, conns !! c = Some subs → subs ≠ ∅) →
  (∀ c s i, slot_of m c s = Some i →
     slot_of (set_conns m conns) c s = if decide (i ∈ holes) then None else Some i) →
  (∀ c s, slot_of m c s = None → slot_of (set_conns m conns) c s = None) →
  (∀ i, i ∈ holes → ∃ e, am_slots m !! i = Some (Some e)) →
  consistent_but holes (set_conns m conns).
Proof.
  intros [Hpl Hsl Hconns Hgroup Hslots Hne Hnd Hfree Hrow Hlink Hcont Hseen Hpass] Hne' Hso Hno Hocc.
  split; try done.
  - intros c s i Hi Hd. apply Hconns; [|set_solver].
    destruct (slot_of m c s) as [j|] eqn:Ej; [|by rewrite (Hno _ _ Ej) in Hi].
    rewrite (Hso _ _ _ Ej) in Hi. by case_decide.
  - intros i e He Hd. rewrite (Hso _ _ i) by (apply Hslots; [done|set_solver]). by rewrite decide_False.
  - intros i. cbn. rewrite Hfree. split.
    + intros [Hi _]. split; [done|]. intros (e & He)%Hocc. congruence.
    + intros [Hi _]. split; [done|set_solver].
Qed.

Lemma slot_of_inj m c s c' s' i :
  consistent m → slot_of m c s = Some i → slot_of m c' s' = Some i → c' = c ∧ s' = s.
Proof.
  intros Hm H H'. destruct (c_conns _ _ Hm _ _ _ H) as (e & He & <- & <-); [set_solver|].
  destruct (c_conns _ _ Hm _ _ _ H') as (e' & He' & <- & <-); [set_solver|]. by simplify_eq.
Qed.

Lemma remove_sub_spec m c s :
  consistent m →
  ∃ m', remove_sub m c s = Ok m' ∧ consistent m' ∧ am_max_subs m' = am_max_subs m ∧
    ∀ c' s', view m' c' s' = if decide (c' = c ∧ s' = s) then None else view m c' s'.
Proof.
  intros Hm. unfold remove_sub. destruct (am_conns m !! c) as [subs|] eqn:Hc.
  2: { exists m. split_and!; try done. intros c' s'. case_decide as E; [|done].
    destruct E as [-> ->]. unfold view, slot_of. by rewrite Hc. }
  destruct (subs !! s) as [i|] eqn:Hs.
  2: { exists m. split_and!; try done. intros c' s'. case_decide as E; [|done].
    destruct E as [-> ->]. unfold view, slot_of. by rewrite Hc; cbn; rewrite Hs. }
  set (conns := if bool_decide (delete s subs = ∅) then _ else _).
  assert (slot_of m c s = Some i) as Hso by (unfold slot_of; by rewrite Hc).
  destruct (c_conns _ _ Hm _ _ _ Hso) as (e & He & Hec & Hes); [set_solver|].
  assert (∀ c' s', slot_of (set_conns m conns) c' s' = if decide (c' = c ∧ s' = s) then None else slot_of m c' s')
    as Hso' by (intros; by apply slot_of_delete).
  destruct (release_spec ∅ (set_conns m conns) i e) as (m' & -> & Hm' & Hslots & Hconns & Hmax); try done.
  - rewrite union_empty_r_L. apply forget_spec; [done| | | |].
    + intros c' subs'. unfold conns. case_bool_decide.
      * intros [_ ?]%lookup_delete_Some. by eapply c_nonempty.
      * intros [[_ <-]|[_ ?]]%lookup_insert_Some; [done|by eapply c_nonempty].
    + intros c' s' j Hj. rewrite Hso'. repeat case_decide; try done; exfalso.
      * destruct H as [-> ->]. set_solver.
      * assert (j = i) as -> by set_solver. by apply H, (slot_of_inj m c s c' s' i).
    + intros c' s' Hn. rewrite Hso'. by case_decide.
    + intros j ->%elem_of_singleton. eauto.
  - intros c' s'. rewrite Hso'. case_decide as E; [done|]. intros Hi.
    by apply E, (slot_of_inj m c s c' s' i).
  - exists m'. split_and!; try done. intros c' s'. unfold view.
    assert (slot_of m' c' s' = slot_of (set_conns m conns) c' s') as -> by (unfold slot_of; by rewrite Hconns).
    rewrite Hso', Hslots. case_decide as E; [done|]. cbn. destruct (slot_of m c' s') as [j|] eqn:Ej; [|done].
    rewrite list_lookup_insert_ne; [done|]. intros <-. by apply E, (slot_of_inj m c s c' s' i).
Qed.

(** Freeing several slots that the connections no longer point to. *)
Lemma release_all_spec l m :
  NoDup l → consistent_but (list_to_set l) m → (∀ i, i ∈ l → ∃ e, am_slots m !! i = Some (Some e)) →
  (∀ i c s, i ∈ l → slot_of m c s ≠ Some i) →
  ∃ m', try_fold release m l = Ok m' ∧ consistent m' ∧ am_conns m' = am_conns m ∧
    am_max_subs m' = am_max_subs m ∧ ∀ j, j ∉ l → am_slots m' !! j = am_slots m !! j.
Proof.
  revert m. induction l as [|i l IH]; intros m Hnd Hm Hocc Hunused; [by exists m|].
  apply NoDup_cons in Hnd as [Hi Hnd]. destruct (Hocc i) as [e He]; [by left|].
  destruct (release_spec (list_to_set l) m i e) as (m1 & H1 & Hm1 & Hs1 & Hc1 & Hx1);
    [done|set_solver|done|intros; apply Hunused; by left|].
  destruct (IH m1 Hnd Hm1) as (m' & H & Hm' & Hc & Hx & Hs).
  - intros j Hj. destruct (Hocc j) as [e' He']; [by right|]. exists e'. rewrite Hs1.
    rewrite list_lookup_insert_ne by set_solver. done.
  - intros j c s Hj. unfold slot_of. rewrite Hc1. apply Hunused. by right.
  - exists m'. cbn [try_fold]. rewrite H1. split; [done|]. split_and!; [done|congruence|congruence|].
    intros j Hj. rewrite Hs by set_solver. rewrite Hs1. apply list_lookup_insert_ne. set_solver.
Qed.

Lemma view_slot m c s e :
  consistent m → view m c s = Some e →
  conn_id (m_sub e) = c ∧ sub_id (m_sub e) = s ∧
  ∃ i, slot_of m c s = Some i ∧ am_slots m !! i = Some (Some e).
Proof.
  intros Hm. unfold view. destruct (slot_of m c s) as [i|] eqn:Hi; [|done].
  destruct (c_conns _ _ Hm _ _ _ Hi) as (e' & He' & ? & ?); [set_solver|].
  rewrite He'. intros [= ->]. eauto.
Qed.

Section hash_order.
Context {HO : HashOrder} {HOL : HashOrderLaws}.

Lemma elem_of_sub_order subs i : i ∈ sub_order subs ↔ ∃ s, subs !! s = Some i.
Proof.
  rewrite (sub_order_perm subs), list_elem_of_fmap. split.
  - intros ([s j] & -> & Hs%elem_of_map_to_list). by exists s.
  - intros (s & Hs). exists (s, i). by rewrite elem_of_map_to_list.
Qed.

Lemma sub_order_nodup m c subs :
  consistent m → am_conns m !! c = Some subs → NoDup (sub_order subs).
Proof.
  intros Hm Hc. rewrite (sub_order_perm subs). apply NoDup_fmap_2_strong; [|apply NoDup_map_to_list].
  intros [s i] [s' i'] Hs%elem_of_map_to_list Hs'%elem_of_map_to_list E. cbn in E. subst i'.
  destruct (slot_of_inj m c s c s' i Hm) as [_ ->]; [unfold slot_of; by rewrite Hc..|done].
Qed.

Lemma slot_of_close m c c' s :
  slot_of (set_conns m (delete c (am_conns m))) c' s = if decide (c' = c) then None else slot_of m c' s.
Proof.
  unfold slot_of. cbn. case_decide as E; [subst; by rewrite lookup_delete_eq|by rewrite lookup_delete_ne].
Qed.

Lemma close_conn_spec m c :
  consistent m →
  ∃ m', close_conn m c = Ok m' ∧ consistent m' ∧ am_max_subs m' = am_max_subs m ∧
    ∀ c' s, view m' c' s = if decide (c' = c) then None else view m c' s.
Proof.
  intros Hm. unfold close_conn. destruct (am_conns m !! c) as [subs|] eqn:Hc.
  2: { exists m. split_and!; try done. intros c' s. case_decide as E; [|done]. subst.
    unfold view, slot_of. by rewrite Hc. }
  assert (∀ i, i ∈ sub_order subs ↔ ∃ s, slot_of m c s = Some i) as Hin.
  { intros i. rewrite elem_of_sub_order. unfold slot_of. by rewrite Hc. }
  assert (∀ c' s i, slot_of m c' s = Some i → i ∈ sub_order subs ↔ c' = c) as Hof.
  { intros c' s i Hi. rewrite Hin. split; [|intros ->; eauto].
    intros (s' & Hs'). by destruct (slot_of_inj m c s' c' s i Hm Hs' Hi). }
  destruct (release_all_spec (sub_order subs) (set_conns m (delete c (am_conns m))))
    as (m' & -> & Hm' & Hconns & Hmax & Hslots).
  - by eapply sub_order_nodup.
  - apply forget_spec; [done| | | |].
    + intros c' subs' [_ ?]%lookup_delete_Some. by eapply c_nonempty.
    + intros c' s i Hi. rewrite slot_of_close. pose proof (Hof _ _ _ Hi).
      repeat case_decide; set_solver.
    + intros c' s Hn. rewrite slot_of_close. by case_decide.
    + intros i [s Hs]%elem_of_list_to_set%Hin.
      destruct (c_conns _ _ Hm _ _ _ Hs) as (e & He & _); [set_solver|]. eauto.
  - intros i [s Hs]%Hin. destruct (c_conns _ _ Hm _ _ _ Hs) as (e & He & _); [set_solver|]. eauto.
  - intros i c' s Hi. rewrite slot_of_close. case_decide as E; [done|]. intros Hs. by apply E, (Hof _ _ _ Hs).
  - exists m'. split_and!; try done. intros c' s. unfold view.
    assert (slot_of m' c' s = slot_of (set_conns m (delete c (am_conns m))) c' s) as ->
      by (unfold slot_of; by rewrite Hconns).
    rewrite slot_of_close. case_decide as E; [done|]. destruct (slot_of m c' s) as [j|] eqn:Ej; [|done].
    rewrite Hslots; [done|]. by rewrite (Hof _ _ _ Ej).
Qed.

(** ** Refusing subscriptions *)

Lemma all_slots m i :
  consistent m → i ∈ conn_order (am_conns m) ≫= sub_order ↔ ∃ c s, slot_of m c s = Some i.
Proof.
  intros Hm. rewrite list_elem_of_bind. split.
  - intros (subs & [s Hs]%elem_of_sub_order & Hsubs).
    rewrite conn_order_perm, list_elem_of_fmap in Hsubs.
    destruct Hsubs as ([c subs'] & -> & Hc%elem_of_map_to_list). exists c, s. unfold slot_of. by rewrite Hc.
  - intros (c & s & (subs & Hc & Hs)%bind_Some). exists subs. rewrite elem_of_sub_order. split; [by exists s|].
    rewrite conn_order_perm, list_elem_of_fmap. exists (c, subs). by rewrite elem_of_map_to_list.
Qed.

Lemma collect_refused_spec {R} m (refusal : Subscription → option R) l acc :
  consistent m → (∀ i, i ∈ l → ∃ e, am_slots m !! i = Some (Some e)) →
  ∃ refused, try_fold (collect_refused m refusal) acc l = Ok (acc ++ refused) ∧
    ∀ c s g r, (c, s, g, r) ∈ refused ↔ ∃ i e, i ∈ l ∧ am_slots m !! i = Some (Some e) ∧
      refusal (m_sub e) = Some r ∧ c = conn_id (m_sub e) ∧ s = sub_id (m_sub e) ∧ g = generation (m_sub e).
Proof.
  intros Hm. revert acc. induction l as [|i l IH]; intros acc Hl.
  { exists []. rewrite app_nil_r. split; [done|]. intros c s g r. split; [by intros ?%elem_of_nil|].
    by intros (i & e & ?%elem_of_nil & _). }
  destruct (Hl i) as [e He]; [by left|]. cbn [try_fold]. unfold collect_refused at 2.
  rewrite (vec_get_Ok _ _ _ He). cbn [mbind result_bind].
  set (here := match refusal (m_sub e) with
               | Some reason => [(conn_id (m_sub e), sub_id (m_sub e), generation (m_sub e), reason)]
               | None => [] end).
  destruct (IH (acc ++ here)) as (refused & H & Hin); [intros j Hj; apply Hl; by right|].
  exists (here ++ refused). split.
  - rewrite app_assoc, <- H. unfold here. destruct (refusal (m_sub e)); [done|]. by rewrite app_nil_r.
  - intros c s g r. rewrite elem_of_app, Hin. split.
    + intros [Hh|(j & e' & ? & ?)]; [|exists j, e'; split; [by right|done]].
      exists i, e. split; [by left|]. unfold here in Hh. destruct (refusal (m_sub e)) as [r'|]; [|by apply elem_of_nil in Hh].
      apply list_elem_of_singleton in Hh. by simplify_eq.
    + intros (j & e' & [-> |Hj]%elem_of_cons & He' & Hr & -> & -> & ->).
      * left. simplify_eq. unfold here. rewrite Hr. by left.
      * right. eauto 10.
Qed.

Lemma remove_all_refused_spec {R} (refused : list (Z * SubId * Z * R)) m :
  consistent m →
  ∃ m', try_fold (λ m '(conn_id, sub_id, _, _), remove_sub m conn_id sub_id) m refused = Ok m' ∧
    consistent m' ∧ am_max_subs m' = am_max_subs m ∧
    ∀ c s, view m' c s =
      if decide ((c, s) ∈ (λ x : Z * SubId * Z * R, x.1.1) <$> refused) then None else view m c s.
Proof.
  revert m. induction refused as [|[[[c0 s0] g0] r0] l IH]; intros m Hm.
  { by exists m. }
  destruct (remove_sub_spec m c0 s0 Hm) as (m1 & H1 & Hm1 & Hx1 & Hv1).
  destruct (IH m1 Hm1) as (m' & H & Hm' & Hx & Hv).
  exists m'. cbn [try_fold]. rewrite H1. cbn [mbind result_bind]. split; [done|].
  split_and!; [done|congruence|]. intros c s. rewrite Hv, Hv1, fmap_cons. cbn [fst].
  destruct (decide (c = c0 ∧ s = s0)) as [[-> ->]|Hne].
  - rewrite (decide_True (P := _ ∈ _ :: _)) by by left. by case_decide.
  - destruct (decide ((c, s) ∈ _ <$> l)) as [Hin|Hn].
    + by rewrite decide_True by by right.
    + rewrite decide_False; [done|]. intros [[= -> ->]|?]%elem_of_cons; [by destruct Hne|done].
Qed.

(** Exactly the open subscriptions that the refusal gives a reason for go, and
    they are reported. *)
Lemma remove_refused_spec {R} m (refusal : Subscription → option R) :
  consistent m →
  ∃ m' refused, remove_refused m refusal = Ok (m', refused) ∧ consistent m' ∧
    am_max_subs m' = am_max_subs m ∧
    (∀ c s g r, (c, s, g, r) ∈ refused ↔
       ∃ e, view m c s = Some e ∧ refusal (m_sub e) = Some r ∧ g = generation (m_sub e)) ∧
    ∀ c s, view m' c s = match view m c s with
                         | Some e => match refusal (m_sub e) with Some _ => None | None => Some e end
                         | None => None
                         end.
Proof.
  intros Hm. unfold remove_refused.
  destruct (collect_refused_spec m refusal (conn_order (am_conns m) ≫= sub_order) [] Hm)
    as (refused & Hcol & Hin).
  { intros i (c & s & Hi)%all_slots; [|done].
    destruct (c_conns _ _ Hm _ _ _ Hi) as (e & He & _); [set_solver|]. eauto. }
  rewrite Hcol. cbn [mbind result_bind app].
  destruct (remove_all_refused_spec refused m Hm) as (m' & -> & Hm' & Hmax & Hv).
  assert (∀ c s g r, (c, s, g, r) ∈ refused ↔
    ∃ e, view m c s = Some e ∧ refusal (m_sub e) = Some r ∧ g = generation (m_sub e)) as Hr.
  { intros c s g r. rewrite Hin. split.
    - intros (i & e & Hi & He & Hr & -> & -> & ->). exists e. split_and!; try done.
      unfold view. rewrite (c_slots _ _ Hm _ _ He) by set_solver. by rewrite He.
    - intros (e & Hv' & Hr & ->). destruct (view_slot _ _ _ _ Hm Hv') as (<- & <- & i & Hi & He).
      exists i, e. split_and!; try done. apply all_slots; eauto. }
  exists m', refused. split; [done|]. split_and!; try done. intros c s. rewrite Hv.
  destruct (decide _) as [Hd|Hd].
  - apply list_elem_of_fmap in Hd as ([[[c' s'] g] r] & [= -> ->] & (e & -> & -> & _)%Hr). done.
  - destruct (view m c s) as [e|] eqn:Ev; [|done]. destruct (refusal (m_sub e)) as [r|] eqn:Er; [|done].
    exfalso. apply Hd. apply list_elem_of_fmap. exists (c, s, generation (m_sub e), r). split; [done|].
    apply Hr. eauto.
Qed.
End hash_order.

(** ** Changing an entry in place *)

(** The new entry has the same id and filters. *)
Definition same_identity (e e' : Monitored) : Prop :=
  conn_id (m_sub e') = conn_id (m_sub e) ∧ sub_id (m_sub e') = sub_id (m_sub e) ∧
  filter_group (m_sub e') = filter_group (m_sub e).

(** Slots that hold the same ids and filters. *)
Definition same_identities (slots slots' : list (option Monitored)) : Prop :=
  ∀ i, match slots !! i, slots' !! i with
       | Some (Some e), Some (Some e') => same_identity e e'
       | o, o' => o = o'
       end.

Lemma same_identities_content slots slots' :
  same_identities slots slots' → content_count slots' = content_count slots.
Proof.
  unfold content_count. revert slots'. induction slots as [|o slots IH]; intros slots' H.
  - specialize (H 0%nat) as H0. destruct slots' as [|[e|] slots']; [done|done|done].
  - specialize (H 0%nat) as H0. destruct slots' as [|o' slots']; [by destruct o|].
    assert (needs_content o' = needs_content o) as Ho.
    { cbn in H0. destruct o as [e|], o' as [e'|]; try done. destruct H0 as (_ & _ & Hg). cbn. by rewrite Hg. }
    rewrite !filter_cons, Ho. assert (same_identities slots slots') as Hs by (intros i; apply (H (S i))).
    specialize (IH _ Hs). case_decide; cbn; lia.
Qed.

Lemma same_identities_keys slots slots' i :
  same_identities slots slots' → slot_keys slots' i = slot_keys slots i.
Proof.
  intros H. specialize (H i). unfold slot_keys.
  destruct (slots !! i) as [[e|]|], (slots' !! i) as [[e'|]|]; simplify_eq; try done.
  destruct H as (_ & _ & Hg). by rewrite Hg.
Qed.

Lemma same_identities_length slots slots' :
  same_identities slots slots' → length slots' = length slots.
Proof.
  intros H. apply Nat.le_antisymm; apply Nat.nlt_ge; intros Hlt.
  - apply lookup_lt_is_Some_2 in Hlt as Hs. destruct Hs as [o' Ho']. specialize (H (length slots)).
    rewrite lookup_ge_None_2, Ho' in H by lia. done.
  - apply lookup_lt_is_Some_2 in Hlt as Hs. destruct Hs as [o Ho]. specialize (H (length slots')).
    rewrite Ho, (lookup_ge_None_2 slots') in H by lia. by destruct o.
Qed.

Lemma same_identities_consistent m slots :
  consistent m → same_identities (am_slots m) slots → consistent (set_slots m slots).
Proof.
  intros [Hpl Hsl Hconns Hgroup Hslots Hne Hnd Hfree Hrow (inst & Hlink & Hinst) Hcont Hseen Hpass] Hs.
  assert (∀ i e', slots !! i = Some (Some e') → ∃ e, am_slots m !! i = Some (Some e) ∧ same_identity e e') as Hback.
  { intros i e' He'. specialize (Hs i). rewrite He' in Hs.
    destruct (am_slots m !! i) as [[e|]|]; try done. eauto. }
  assert (∀ i, slots !! i = Some None ↔ am_slots m !! i = Some None) as Hnone.
  { intros i. specialize (Hs i). destruct (am_slots m !! i) as [[e|]|], (slots !! i) as [[e'|]|]; naive_solver. }
  pose proof (same_identities_length _ _ Hs) as Hlen.
  split; cbn -[content_count]; rewrite ?Hlen; try done.
  - intros c s i Hi Hd. destruct (Hconns c s i Hi Hd) as (e & He & <- & <-). specialize (Hs i). rewrite He in Hs.
    destruct (slots !! i) as [[e'|]|]; try done. exists e'. destruct Hs as (-> & -> & _). done.
  - intros i e' (e & He & _ & _ & ->)%Hback. by eapply Hgroup.
  - intros i e' (e & He & -> & -> & _)%Hback. by apply Hslots.
  - intros i. by rewrite Hfree, Hnone.
  - intros i Hi%Hnone. by apply Hrow.
  - exists inst. split; [done|]. intros i n. by rewrite (same_identities_keys _ _ _ Hs).
  - by rewrite (same_identities_content _ _ Hs).
Qed.

Lemma update_slot_identities slots i e e' :
  slots !! i = Some (Some e) → same_identity e e' → same_identities slots (<[i := Some e']> slots).
Proof.
  intros Hi He j. destruct (decide (j = i)) as [-> |Hj].
  - rewrite Hi, list_lookup_insert_eq by by eapply lookup_lt_Some. done.
  - rewrite list_lookup_insert_ne by done. by destruct (slots !! j) as [[]|].
Qed.

(** Writing to an entry changes that entry alone. *)
Lemma set_entry_spec m c s e e' :
  consistent m → view m c s = Some e → same_identity e e' →
  ∃ m', set_entry m c s e' = Ok m' ∧ consistent m' ∧ am_max_subs m' = am_max_subs m ∧
    ∀ c' s', view m' c' s' = if decide (c' = c ∧ s' = s) then Some e' else view m c' s'.
Proof.
  intros Hm Hv He. destruct (view_slot _ _ _ _ Hm Hv) as (_ & _ & i & Hi & Hsl).
  unfold set_entry. rewrite Hi, vec_set_Ok by by eapply lookup_lt_Some. cbn [mbind result_bind].
  eexists. split; [done|]. split; [by eapply same_identities_consistent, update_slot_identities|].
  split; [done|]. intros c' s'. unfold view. change (slot_of (set_slots _ _) c' s') with (slot_of m c' s'). cbn.
  destruct (slot_of m c' s') as [j|] eqn:Ej.
  - destruct (decide (j = i)) as [-> |Hj].
    + destruct (slot_of_inj m c s c' s' i Hm Hi Ej) as [-> ->].
      by rewrite list_lookup_insert_eq, decide_True by (done || by eapply lookup_lt_Some).
    + rewrite list_lookup_insert_ne, decide_False by naive_solver. done.
  - rewrite decide_False by naive_solver. done.
Qed.

Lemma am_entry_view m c s : consistent m → am_entry m c s = Ok (view m c s).
Proof.
  intros Hm. unfold am_entry, view. destruct (slot_of m c s) as [i|] eqn:Hi; [|done].
  destruct (c_conns _ _ Hm _ _ _ Hi) as (e & He & _); [set_solver|]. by rewrite (vec_get_Ok _ _ _ He), He.
Qed.

(** A pending subscription of the generation turns live, its buffer is handed
    back and its cursor covers what was delivered; nothing else changes. *)
Lemma finish_pending_spec m c s gen delivered :
  consistent m →
  ∃ m' b, finish_pending m c s gen delivered = Ok (m', b) ∧ consistent m' ∧ am_max_subs m' = am_max_subs m ∧
    b = match view m c s with
        | Some e => if generation (m_sub e) =? gen then m_pending e else None
        | None => None
        end ∧
    ∀ c' s', view m' c' s' =
      match b, view m c s with
      | Some _, Some e =>
          if decide (c' = c ∧ s' = s)
          then Some (mkMonitored (set_latest (m_sub e) (Z.max (latest_event_id (m_sub e)) delivered)) None)
          else view m c' s'
      | _, _ => view m c' s'
      end.
Proof.
  intros Hm. unfold finish_pending. rewrite (am_entry_view _ _ _ Hm). cbn [mbind result_bind].
  destruct (view m c s) as [e|] eqn:Hv; [|by exists m, None].
  destruct (generation (m_sub e) =? gen); cbn [negb]; [|by exists m, None].
  destruct (m_pending e) as [b|] eqn:Hp; [|by exists m, None].
  destruct (set_entry_spec m c s e (mkMonitored (set_latest (m_sub e) (Z.max (latest_event_id (m_sub e)) delivered)) None))
    as (m' & -> & Hm' & Hmax & Hview); [done..|].
  exists m', (Some b). split; [done|]. by split_and!.
Qed.

Lemma pending_mut_spec m c s update :
  consistent m →
  ∃ m', pending_mut m c s update = Ok m' ∧ consistent m' ∧ am_max_subs m' = am_max_subs m ∧
    ∀ c' s', view m' c' s' =
      if decide (c' = c ∧ s' = s)
      then match view m c s with
           | Some e => Some (mkMonitored (m_sub e) (update <$> m_pending e))
           | None => None
           end
      else view m c' s'.
Proof.
  intros Hm. unfold pending_mut. rewrite (am_entry_view _ _ _ Hm). cbn [mbind result_bind].
  destruct (view m c s) as [[sub [b|]]|] eqn:Hv.
  - destruct (set_entry_spec m c s _ (mkMonitored sub (Some (update b))) Hm Hv) as (m' & -> & ? & ? & Hview); [done|].
    exists m'. by split_and!.
  - exists m. split_and!; try done. intros c' s'. case_decide as E; [|done]. by destruct E as [-> ->].
  - exists m. split_and!; try done. intros c' s'. case_decide as E; [|done]. by destruct E as [-> ->].
Qed.
