(* ===== verification/MonitorMatch.v ===== *)
(** * Matching an event against the monitors

    The candidates that [collect] takes from the index include every open
    subscription that matches, so that [process] delivers to exactly those. *)

From S2P Require Import Prelude BTreeMap Json Crates Kinds Packed EventParse Search Filter FilterSpec Pending Monitor MonitorIndex MonitorSpec.

Local Open Scope Z_scope.

(** The keys an event is looked up under. *)
Definition event_key (ev : PackedEventView) (k : Key) : Prop :=
  match k with
  | KId id => id = PackedEventView_id ev
  | KAuthor pk => pk = PackedEventView_pubkey ev
  | KTag name value => ∃ n, (n, value) ∈ filter_tags ev ∧ name = wrap8 n
  | KKind kind => kind = PackedEventView_kind ev
  | KAny => True
  end.

(** The event's kind may be one the posting takes. *)
Definition takes_kind (mask : Z) (ev : PackedEventView) : Prop :=
  Z.land mask (kind_bit (PackedEventView_kind ev)) ≠ 0.

(** ** The kind masks *)

Lemma kind_bit_pow kind : ∃ j, 0 ≤ j < 64 ∧ kind_bit kind = 2 ^ j.
Proof.
  unfold kind_bit. set (h := wrap64 _). exists (Z.shiftr h 58).
  assert (0 ≤ h < 2 ^ 64) as Hh by (unfold h, wrap64; by apply Z.mod_pos_bound).
  rewrite Z.shiftl_mul_pow2, Z.mul_1_l by (apply Z.shiftr_nonneg; lia). split; [|done].
  rewrite Z.shiftr_div_pow2 by lia. split; [apply Z.div_pos; lia|].
  apply Z.div_lt_upper_bound; lia.
Qed.

Lemma land_bit mask kind :
  Z.land mask (kind_bit kind) ≠ 0 ↔ ∃ j, kind_bit kind = 2 ^ j ∧ 0 ≤ j ∧ Z.testbit mask j = true.
Proof.
  destruct (kind_bit_pow kind) as (j & Hj & E). rewrite E. split.
  - intros H. exists j. split; [done|]. split; [lia|]. destruct (Z.testbit mask j) eqn:Hb; [done|].
    destruct H. apply Z.bits_inj'. intros n Hn. rewrite Z.land_spec, Z.bits_0.
    destruct (decide (n = j)) as [-> |Hne]; [by rewrite Hb|]. rewrite Z.pow2_bits_false by done.
    apply andb_false_r.
  - intros (i & Ei & Hi & Hb) H0. apply Z.pow_inj_r in Ei as <-; [|lia..].
    apply (f_equal (λ z, Z.testbit z j)) in H0. rewrite Z.land_spec, Hb, Z.pow2_bits_true, Z.bits_0 in H0 by lia. done.
Qed.

Lemma foldl_lor_kinds ks mask j :
  Z.testbit (foldl (λ mask kind, Z.lor mask (kind_bit kind)) mask ks) j = true ↔
  Z.testbit mask j = true ∨ ∃ kind, kind ∈ ks ∧ Z.testbit (kind_bit kind) j = true.
Proof.
  revert mask. induction ks as [|k ks IH]; intros mask; cbn.
  - split; [by left|]. by intros [?|(? & ?%elem_of_nil & _)].
  - rewrite IH, Z.lor_spec, orb_true_iff. split.
    + intros [[?|?]|(k' & ? & ?)]; [by left|right; exists k; split; [by left|done]|].
      right. exists k'. split; [by right|done].
    + intros [?|(k' & [-> |?]%elem_of_cons & ?)]; [by left; left|by left; right|]. right. eauto.
Qed.

(** The mask of a filter takes every kind the filter does. *)
Lemma kind_mask_takes f ev : plain_match f ev → takes_kind (kind_mask f) ev.
Proof.
  intros Hm. unfold takes_kind, kind_mask. apply land_bit.
  destruct (kind_bit_pow (PackedEventView_kind ev)) as (j & Hj & E). exists j. split; [done|]. split; [lia|].
  destruct (f_kinds f) as [ks|] eqn:Ek.
  - apply foldl_lor_kinds. right. exists (PackedEventView_kind ev). split; [by eapply pm_kinds|].
    rewrite E. apply Z.pow2_bits_true. lia.
  - change U64_MAX with (Z.ones 64). apply Z.ones_spec_low. lia.
Qed.

(** ** The keys of a matching filter *)

Lemma smaller_set_elem e l : foldl smaller_set e l ∈ e :: l.
Proof.
  revert e. induction l as [|e' l IH]; intros e; cbn; [by left|].
  specialize (IH (smaller_set e e')). apply elem_of_cons in IH as [-> |?]; [|by right; right].
  unfold smaller_set. destruct (_ <? _)%nat; [right; by left|by left].
Qed.

(** An event the filter matches has one of its keys. *)
Lemma filter_keys_complete f ev :
  filter_ok f → plain_match f ev → tags_match f ev → ∃ k, k ∈ filter_keys f ∧ event_key ev k.
Proof.
  intros Hok Hp Ht. unfold filter_keys, for_each_key.
  destruct (f_ids f) as [ids|] eqn:Ei.
  { exists (KId (PackedEventView_id ev)). split; [|done]. apply list_elem_of_fmap_2. by eapply pm_ids. }
  destruct (f_authors f) as [authors|] eqn:Ea.
  { exists (KAuthor (PackedEventView_pubkey ev)). split; [|done]. apply list_elem_of_fmap_2. by eapply pm_authors. }
  destruct (f_and_tags f) as [|[name values] ands] eqn:En.
  2: { assert ((name, values) ∈ f_and_tags f) as Hin by (rewrite En; by left).
    destruct (ok_and _ Hok _ _ Hin) as (_ & _ & Hne).
    pose proof (λ x, tm_and _ _ Ht name values x Hin) as Hall.
    destruct (fsb_items values) as [|v vs]; [done|]. cbn. exists (KTag (wrap8 name) v). split; [by left|].
    exists name. split; [|done]. apply Hall. by left. }
  destruct (f_tags f) as [|e tags] eqn:Et.
  2: { destruct (foldl smaller_set e tags) as [name values] eqn:Ef.
    assert ((name, values) ∈ f_tags f) as Hin by (rewrite Et, <- Ef; apply smaller_set_elem).
    destruct (tm_tags _ _ Ht _ _ Hin) as (x & Hx & Hev).
    exists (KTag (wrap8 name) x). split; [by apply list_elem_of_fmap_2|]. by exists name. }
  destruct (f_kinds f) as [ks|] eqn:Ek.
  - exists (KKind (PackedEventView_kind ev)). split; [|done]. apply list_elem_of_fmap_2. by eapply pm_kinds.
  - exists KAny. split; [by left|done].
Qed.

(** ** Collecting candidates *)

(** A pass: its number, and the event's kind bit and the number of slots. *)
Section pass.
Context (pass kind : Z) (n : nat).

(** The slots seen in this pass are the candidates, each once. *)
Record scanned (st : list Z * list nat) : Prop := {
  s_len : length st.1 = n;
  s_nodup : NoDup st.2;
  s_seen i : i ∈ st.2 ↔ st.1 !! i = Some pass;
  s_max : Forall (λ s, s ≤ pass) st.1;
}.

(** The postings in [B] whose kinds take the event add their slots. *)
Definition adds (B : Posting → Prop) (st st' : list Z * list nat) : Prop :=
  scanned st' ∧ ∀ i, i ∈ st'.2 ↔ i ∈ st.2 ∨ ∃ p, B p ∧ p_slot p = i ∧ Z.land (p_kinds p) kind ≠ 0.

Lemma adds_none (B : Posting → Prop) st : scanned st → (∀ p, ¬ B p) → adds B st st.
Proof. intros Hs HB. split; [done|]. intros i. split; [by left|]. intros [?|(p & ? & _)]; [done|]. by destruct (HB p). Qed.

Lemma adds_trans B1 B2 st1 st2 st3 :
  adds B1 st1 st2 → adds B2 st2 st3 → adds (λ p, B1 p ∨ B2 p) st1 st3.
Proof. intros [_ H1] [Hs H2]. split; [done|]. intros i. rewrite H2, H1. naive_solver. Qed.

Lemma adds_ext (B1 B2 : Posting → Prop) st st' : (∀ p, B1 p ↔ B2 p) → adds B1 st st' → adds B2 st st'.
Proof. intros HB [Hs H]. split; [done|]. intros i. rewrite H. by setoid_rewrite HB. Qed.

Lemma add_posting_spec st p :
  scanned st → (p_slot p < n)%nat →
  ∃ st', add_posting pass kind st p = Ok st' ∧ adds (λ q, q = p) st st'.
Proof.
  intros Hs Hp. unfold add_posting. destruct (Z.eqb_spec (Z.land (p_kinds p) kind) 0) as [E|E].
  { exists st. split; [done|]. split; [done|]. intros i. split; [by left|].
    intros [?|(q & -> & _ & ?)]; done. }
  destruct st as [seen candidates]. destruct Hs as [Hlen Hnd Hseen Hmax]. cbn in *.
  destruct (lookup_lt_is_Some_2 seen (p_slot p)) as [last Hlast]; [by rewrite Hlen|].
  rewrite (vec_get_Ok _ _ _ Hlast). cbn [mbind result_bind].
  destruct (Z.eqb_spec last pass) as [-> |Hne].
  - eexists. split; [done|]. split; [done|]. cbn. intros i. split; [by left|].
    intros [?|(q & -> & <- & _)]; [done|]. by apply Hseen.
  - rewrite vec_set_Ok by by rewrite Hlen. cbn [mbind result_bind]. eexists. split; [done|].
    assert (∀ i, i ∈ candidates ++ [p_slot p] ↔ <[p_slot p := pass]> seen !! i = Some pass) as Hseen'.
    { intros i. rewrite elem_of_app, list_elem_of_singleton, Hseen. destruct (decide (i = p_slot p)) as [-> |Hi].
      - rewrite list_lookup_insert_eq by by rewrite Hlen. naive_solver.
      - rewrite list_lookup_insert_ne by done. naive_solver. }
    split; [split; cbn|]; try done.
    + by rewrite length_insert.
    + apply NoDup_app. split_and!; [done| |apply NoDup_singleton]. intros i Hi ->%list_elem_of_singleton.
      apply Hseen in Hi. congruence.
    + by apply Forall_insert.
    + cbn. intros i. rewrite elem_of_app, list_elem_of_singleton. split.
      * intros [?| ->]; [by left|]. right. exists p. done.
      * intros [?|(q & -> & <- & _)]; [by left|by right].
Qed.

Lemma add_bucket_spec b st :
  scanned st → Forall (λ p, (p_slot p < n)%nat) b →
  ∃ st', add_bucket pass kind st b = Ok st' ∧ adds (.∈ b) st st'.
Proof.
  unfold add_bucket. intros Hs Hb. revert st Hs. induction Hb as [|p b Hp _ IH]; intros st Hs.
  - exists st. split; [done|]. apply adds_none; [done|]. apply not_elem_of_nil.
  - destruct (add_posting_spec st p Hs Hp) as (st1 & H1 & Ha1). cbn [try_fold]. rewrite H1. cbn [mbind result_bind].
    destruct (IH st1 (proj1 Ha1)) as (st' & H & Ha). exists st'. split; [done|].
    eapply adds_ext; [|by eapply adds_trans]. intros q. cbn. by rewrite elem_of_cons.
Qed.

(** ** Looking up an event *)

(** Every posting's slot exists. *)
Definition slots_below (ix : Index) : Prop := ∀ k p, p ∈ bucket ix k → (p_slot p < n)%nat.

Lemma found_spec ix k o st :
  scanned st → slots_below ix → default [] o = bucket ix k →
  ∃ st', found (add_bucket pass kind) st o = Ok st' ∧ adds (.∈ bucket ix k) st st'.
Proof.
  intros Hs Hix Hk. rewrite <- Hk. destruct o as [b|]; cbn.
  - apply add_bucket_spec; [done|]. apply Forall_forall. intros p Hp. apply (Hix k). by rewrite <- Hk.
  - exists st. split; [done|]. apply adds_none; [done|]. apply not_elem_of_nil.
Qed.

Lemma lookup_tag_spec ix st name value :
  scanned st → slots_below ix → index_wf ix →
  ∃ st', lookup_tag (add_bucket pass kind) ix (Ok st) name value = (Ok st', true) ∧
    adds (.∈ bucket ix (KTag (wrap8 name) value)) st st'.
Proof.
  intros Hs Hix Hwf. pose proof (wrap8_range name) as Hr. unfold lookup_tag. cbn [mbind result_bind].
  destruct (lookup_lt_is_Some_2 (ix_tags ix) (Z.to_nat (wrap8 name))) as [values Hv]; [rewrite Hwf; lia|].
  rewrite (vec_get_Ok _ _ _ Hv). cbn [mbind result_bind].
  destruct (found_spec ix (KTag (wrap8 name) value) (values !! value) st Hs Hix) as (st' & H & Ha).
  { rewrite tag_bucket, Hv by lia. done. }
  exists st'. split; [|done]. case_bool_decide as E; [|by rewrite H].
  rewrite E, lookup_empty in H. cbn in H. by rewrite H.
Qed.

Lemma lookup_tags_spec ix tags st :
  scanned st → slots_below ix → index_wf ix →
  ∃ st', walk_list (λ r name value _, lookup_tag (add_bucket pass kind) ix r name value) (Ok st) tags = Ok st' ∧
    adds (λ p, ∃ name value, (name, value) ∈ tags ∧ p ∈ bucket ix (KTag (wrap8 name) value)) st st'.
Proof.
  intros Hs Hix Hwf. revert st Hs. induction tags as [|[name value] tags IH]; intros st Hs.
  - exists st. split; [done|]. apply adds_none; [done|]. by intros p (? & ? & ?%elem_of_nil & _).
  - destruct (lookup_tag_spec ix st name value Hs Hix Hwf) as (st1 & H1 & Ha1).
    cbn [walk_list]. rewrite H1. destruct (IH st1 (proj1 Ha1)) as (st' & H & Ha).
    exists st'. split; [done|]. eapply adds_ext; [|by eapply adds_trans]. intros p. cbn. split.
    + intros [Hp|(nm & v & Hin & Hp)]; [exists name, value; split; [by left|done]|].
      exists nm, v. split; [by right|done].
    + intros (nm & v & [[= -> ->]|Hin]%elem_of_cons & Hp); [by left|right; eauto].
Qed.

Lemma skip_empty {K} `{Countable K} (m : gmap K (list Posting)) k (st : list Z * list nat) :
  (if bool_decide (m = ∅) then Ok st else found (add_bucket pass kind) st (m !! k)) =
  found (add_bucket pass kind) st (m !! k).
Proof. case_bool_decide as E; [|done]. by rewrite E, lookup_empty. Qed.
End pass.

(** Looking an event up visits exactly the buckets of its keys. *)
Lemma Index_lookup_spec pass kind n ix ev tags st :
  record_tags ev tags → scanned pass n st → slots_below n ix → index_wf ix →
  (ix_tag_postings ix = 0%nat → ∀ name value, bucket ix (KTag name value) = []) →
  ∃ st', Index_lookup (add_bucket pass kind) ix ev st = Ok st' ∧
    adds pass kind n (λ p, ∃ k, event_key ev k ∧ p ∈ bucket ix k) st st'.
Proof.
  intros Htags Hs Hix Hwf Hzero. unfold Index_lookup. rewrite !skip_empty.
  destruct (found_spec pass kind n ix (KId (PackedEventView_id ev)) _ st Hs Hix eq_refl) as (st1 & H1 & A1).
  rewrite H1. cbn [mbind result_bind]. rewrite skip_empty.
  destruct (found_spec pass kind n ix (KAuthor (PackedEventView_pubkey ev)) _ st1 (proj1 A1) Hix eq_refl) as (st2 & H2 & A2).
  rewrite H2. cbn [mbind result_bind].
  assert (∃ st3, (if (ix_tag_postings ix =? 0)%nat then Ok st2
      else foreach_filter_tag (lookup_tag (add_bucket pass kind) ix) (Ok st2) ev) = Ok st3 ∧
    adds pass kind n (λ p, ∃ name value, (name, value) ∈ filter_tags ev ∧ p ∈ bucket ix (KTag (wrap8 name) value)) st2 st3)
    as (st3 & H3 & A3).
  { destruct (Nat.eqb_spec (ix_tag_postings ix) 0) as [E|_].
    - exists st2. split; [done|]. apply adds_none; [apply A2|]. intros p (name & value & _ & Hp).
      by rewrite Hzero in Hp by done; apply elem_of_nil in Hp.
    - rewrite (foreach_filter_tag_list _ _ _ _ Htags), (filter_tags_own _ _ Htags).
      apply lookup_tags_spec; [apply A2|done..]. }
  rewrite H3. cbn [mbind result_bind]. rewrite skip_empty.
  destruct (found_spec pass kind n ix (KKind (PackedEventView_kind ev)) _ st3 (proj1 A3) Hix eq_refl) as (st4 & H4 & A4).
  rewrite H4. cbn [mbind result_bind].
  destruct (found_spec pass kind n ix KAny (Some (ix_any ix)) st4 (proj1 A4) Hix eq_refl) as (st5 & H5 & A5).
  exists st5. split; [done|].
  eapply adds_ext; [|exact (adds_trans _ _ _ _ _ _ _ _ (adds_trans _ _ _ _ _ _ _ _
    (adds_trans _ _ _ _ _ _ _ _ (adds_trans _ _ _ _ _ _ _ _ A1 A2) A3) A4) A5)].
  intros p. cbn. split.
  - intros [[[[Hp|Hp]|(name & value & Hin & Hp)]|Hp]|Hp].
    + by exists (KId (PackedEventView_id ev)).
    + by exists (KAuthor (PackedEventView_pubkey ev)).
    + exists (KTag (wrap8 name) value). split; [by exists name|done].
    + by exists (KKind (PackedEventView_kind ev)).
    + by exists KAny.
  - intros ([id|pk|name value|k|] & Hk & Hp); cbn in Hk.
    + subst. by do 4 left.
    + subst. do 3 left. by right.
    + destruct Hk as (nm & Hin & ->). do 2 left. right. eauto.
    + subst. left. by right.
    + by right.
Qed.

(** ** The candidates of an event *)

Section consistent.
Context (m : ActiveMonitors) (Hm : consistent m).

Lemma posting_slot search k p :
  p ∈ bucket (ix_of (am_postings m) search) k →
  slot_keys (am_slots m) (p_slot p) !! p_nth p = Some (search, k, p_kinds p).
Proof using Hm.
  intros [a Ha]%list_elem_of_lookup. destruct (c_linked _ _ Hm) as (inst & Hlink & Hinst).
  rewrite <- Hinst. by apply (l_posting _ _ Hlink _ _ _ _ Ha).
Qed.

Lemma key_posting i e : e ∈ slot_keys (am_slots m) i →
  ∃ p, p ∈ bucket (ix_of (am_postings m) e.1.1) e.1.2 ∧ p_slot p = i ∧ p_kinds p = e.2.
Proof using Hm.
  intros [n Hn]%list_elem_of_lookup. destruct (c_linked _ _ Hm) as (inst & Hlink & Hinst).
  rewrite <- Hinst in Hn. destruct e as [[search k] mask].
  destruct (l_place _ _ Hlink _ _ _ _ _ Hn) as (_ & a & _ & Ha). eexists.
  split; [by eapply list_elem_of_lookup_2|]. done.
Qed.

Lemma postings_below search : slots_below (length (am_slots m)) (ix_of (am_postings m) search).
Proof using Hm.
  intros k p Hp%posting_slot. unfold slot_keys in Hp.
  destruct (am_slots m !! p_slot p) eqn:E; [by eapply lookup_lt_Some|done].
Qed.

Lemma no_tag_postings search name value :
  ix_tag_postings (ix_of (am_postings m) search) = 0%nat →
  bucket (ix_of (am_postings m) search) (KTag name value) = [].
Proof using Hm.
  destruct (c_linked _ _ Hm) as (inst & Hlink & _). rewrite (l_tags _ _ Hlink). unfold tag_keys.
  intros Hz%map_size_empty_inv. apply elem_of_nil_inv. intros p [a Ha]%list_elem_of_lookup.
  destruct (l_posting _ _ Hlink _ _ _ _ Ha) as [Hi _].
  assert (filter (λ e : (nat * nat) * installed, e.2.1.1 = search ∧ is_tag e.2.1.2 = true) inst
    !! (p_slot p, p_nth p) = Some (search, KTag name value, p_kinds p)) as Hf
    by by apply map_lookup_filter_Some.
  by rewrite Hz, lookup_empty in Hf.
Qed.

Lemma collect_spec ev tags search_only :
  record_tags ev tags → am_pass m < U64_MAX →
  ∃ seen candidates, let m' := set_pass m seen (am_pass m + 1) candidates in
    collect m ev search_only = Ok m' ∧ consistent m' ∧ NoDup candidates ∧
    ∀ i, i ∈ candidates ↔ ∃ search k mask, (search, k, mask) ∈ slot_keys (am_slots m) i ∧
      (search_only = true → search = true) ∧ event_key ev k ∧ takes_kind mask ev.
Proof using Hm.
  intros Htags Hpass. pose proof (c_pass _ _ Hm) as Hp0.
  assert (wrap64 (am_pass m + 1) = am_pass m + 1) as Hwrap
    by (unfold wrap64; apply Z.mod_small; unfold U64_MAX in Hpass; lia).
  set (pass := am_pass m + 1). set (kind := kind_bit (PackedEventView_kind ev)). set (n := length (am_slots m)).
  assert (scanned pass n (am_seen m, [])) as Hs0.
  { split; cbn; [apply (c_seen_len _ _ Hm)|constructor| |].
    - intros i. split; [by intros ?%elem_of_nil|]. intros Hi. exfalso.
      apply list_elem_of_lookup_2 in Hi. pose proof (proj1 (Forall_forall _ _) (c_seen _ _ Hm) _ Hi). unfold pass in *. lia.
    - eapply Forall_impl; [apply (c_seen _ _ Hm)|]. cbn. unfold pass. lia. }
  destruct (c_linked _ _ Hm) as (inst & Hlink & _).
  assert (∀ search st, scanned pass n st → ∃ st',
    Index_lookup (add_bucket pass kind) (ix_of (am_postings m) search) ev st = Ok st' ∧
    adds pass kind n (λ p, ∃ k, event_key ev k ∧ p ∈ bucket (ix_of (am_postings m) search) k) st st') as Hlook.
  { intros search st Hs. eapply Index_lookup_spec; try done; [apply postings_below|apply (l_wf _ _ Hlink)|].
    intros Hz name value. by apply no_tag_postings. }
  assert (∃ st1, (if search_only then Ok (am_seen m, [])
      else Index_lookup (add_bucket pass kind) (am_index m) ev (am_seen m, [])) = Ok st1 ∧
    adds pass kind n (λ p, search_only = false ∧ ∃ k, event_key ev k ∧ p ∈ bucket (am_index m) k) (am_seen m, []) st1)
    as (st1 & H1 & A1).
  { destruct search_only.
    - exists (am_seen m, []). split; [done|]. apply adds_none; [done|naive_solver].
    - destruct (Hlook false _ Hs0) as (st1 & H1 & A1). exists st1. split; [done|].
      eapply adds_ext; [|exact A1]. intros p. cbn. naive_solver. }
  destruct (Hlook true st1 (proj1 A1)) as ([seen candidates] & H2 & A2).
  pose proof (adds_trans _ _ _ _ _ _ _ _ A1 A2) as [[Hlen Hnd _ Hmax] Hin]. cbn in Hlen, Hnd, Hmax, Hin.
  exists seen, candidates. split_and!; [|..|done|].
  - unfold collect. rewrite Hwrap. fold pass kind. rewrite H1. cbn [mbind result_bind].
    change (am_search m) with (ix_of (am_postings m) true). by rewrite H2.
  - destruct Hm. split; try done. cbn. lia.
  - intros i. rewrite Hin. split.
    + intros [?%elem_of_nil|(p & [[-> (k & Hk & Hp)]|(k & Hk & Hp)] & <- & Ht)]; [done| |].
      * exists false, k, (p_kinds p). split; [eapply list_elem_of_lookup_2, (posting_slot false), Hp|done].
      * exists true, k, (p_kinds p). split; [eapply list_elem_of_lookup_2, (posting_slot true), Hp|done].
    + intros (search & k & mask & Hin' & Hso & Hk & Ht). right.
      destruct (key_posting _ _ Hin') as (p & Hp & <- & Hmask). cbn in Hp, Hmask. exists p.
      split; [|by rewrite Hmask]. destruct search; [right|left]; [by exists k|].
      split; [|by exists k]. destruct search_only; [|done]. by specialize (Hso eq_refl).
Qed.
End consistent.

(** ** Delivery *)

Section delivery.
Context {SH : Sha256}.

(** A subscription gets the event: it has not passed it already, and a filter of
    its group matches. *)
Definition delivers (lev_id : option Z) (ev : PackedEventView) (terms : option SearchTermSet)
    (e : Monitored) : bool :=
  match lev_id with Some lev_id => latest_event_id (m_sub e) <? lev_id | None => true end &&
  group_does_match_with_search_terms (filter_group (m_sub e)) ev terms.

(** The cursor of a subscription that got a stored event. *)
Definition advance (lev_id : option Z) (e : Monitored) : Monitored :=
  match lev_id with
  | Some lev_id => mkMonitored (set_latest (m_sub e) lev_id) (m_pending e)
  | None => e
  end.

Definition delivered (lev_id : option Z) (ev : PackedEventView) (terms : option SearchTermSet)
    (e : Monitored) : Monitored :=
  if delivers lev_id ev terms e then advance lev_id e else e.

(** The recipient in a slot, when its subscription gets the event. *)
Definition slot_recipient (lev_id : option Z) (ev : PackedEventView) (terms : option SearchTermSet)
    (slots : list (option Monitored)) (i : nat) : option Recipient :=
  match slots !! i with
  | Some (Some e) => if delivers lev_id ev terms e then Some (recipient_of e) else None
  | _ => None
  end.

Lemma recipient_of_advance lev_id e : recipient_of (advance lev_id e) = recipient_of e.
Proof. by destruct lev_id. Qed.

Lemma process_slot_spec lev_id ev terms slots rs i e :
  slots !! i = Some (Some e) →
  process_slot lev_id ev terms (slots, rs) i =
    Ok (<[i := Some (delivered lev_id ev terms e)]> slots,
        rs ++ option_list (slot_recipient lev_id ev terms slots i)).
Proof.
  intros Hi. pose proof (lookup_lt_Some _ _ _ Hi) as Hlt.
  unfold process_slot, delivered, slot_recipient, delivers. rewrite Hi, (vec_get_Ok _ _ _ Hi).
  cbn [mbind result_bind expect ok_or].
  assert (match lev_id with Some lev_id => lev_id <=? latest_event_id (m_sub e) | None => false end =
    negb match lev_id with Some lev_id => latest_event_id (m_sub e) <? lev_id | None => true end) as ->.
  { destruct lev_id; [|done]. by rewrite Z.leb_antisym. }
  destruct (match lev_id with Some _ => _ | None => _ end); cbn [negb andb].
  - destruct (group_does_match_with_search_terms _ _ _).
    + rewrite vec_set_Ok by done. cbn [mbind result_bind].
      change (match lev_id with Some lev_id0 => mkMonitored (set_latest (m_sub e) lev_id0) (m_pending e) | None => e end)
        with (advance lev_id e). by rewrite recipient_of_advance.
    + by rewrite list_insert_id, app_nil_r.
  - by rewrite list_insert_id, app_nil_r.
Qed.

Lemma process_slots_spec lev_id ev terms l slots rs :
  NoDup l → (∀ i, i ∈ l → ∃ e, slots !! i = Some (Some e)) →
  ∃ slots', try_fold (process_slot lev_id ev terms) (slots, rs) l =
      Ok (slots', rs ++ omap (slot_recipient lev_id ev terms slots) l) ∧
    ∀ i, slots' !! i = match slots !! i with
                       | Some (Some e) => Some (Some (if decide (i ∈ l) then delivered lev_id ev terms e else e))
                       | o => o
                       end.
Proof.
  revert slots rs. induction l as [|i l IH]; intros slots rs Hnd Hocc.
  { exists slots. rewrite app_nil_r. split; [done|]. intros i. destruct (slots !! i) as [[]|]; done. }
  apply NoDup_cons in Hnd as [Hi Hnd]. destruct (Hocc i) as [e He]; [by left|].
  cbn [try_fold]. rewrite (process_slot_spec _ _ _ _ _ _ _ He). cbn [mbind result_bind].
  pose proof (lookup_lt_Some _ _ _ He) as Hlt.
  destruct (IH (<[i := Some (delivered lev_id ev terms e)]> slots)
    (rs ++ option_list (slot_recipient lev_id ev terms slots i)) Hnd) as (slots' & -> & Hs).
  { intros j Hj. destruct (Hocc j) as [e' He']; [by right|]. exists e'.
    rewrite list_lookup_insert_ne by set_solver. done. }
  exists slots'. split.
  - rewrite <- app_assoc. do 3 f_equal. cbn.
    assert (omap (slot_recipient lev_id ev terms (<[i := Some (delivered lev_id ev terms e)]> slots)) l =
      omap (slot_recipient lev_id ev terms slots) l) as ->.
    { clear -Hi. induction l as [|j l IH]; [done|]. cbn.
      rewrite IH by set_solver. unfold slot_recipient. by rewrite list_lookup_insert_ne by set_solver. }
    by destruct (slot_recipient _ _ _ _ i).
  - intros j. rewrite Hs. destruct (decide (j = i)) as [-> |Hj].
    + rewrite list_lookup_insert_eq, He by done. by rewrite decide_False, decide_True by set_solver.
    + rewrite list_lookup_insert_ne by done. destruct (slots !! j) as [[e'|]|]; [|done..].
      by rewrite (decide_ext (j ∈ i :: l) (j ∈ l)) by set_solver.
Qed.
End delivery.

(** ** The order of the recipients *)

Definition recipient_key (r : Recipient) : Z * bytes := (r_conn_id r, inner (r_sub_id r)).

Definition key_cmp (a b : Z * bytes) : comparison :=
  then_with (a.1 ?= b.1) (bytes_cmp a.2 b.2).

#[export] Instance key_cmp_total : TotalCmp key_cmp.
Proof.
  unfold key_cmp, then_with. split.
  - intros [a x] [b y]. cbn. destruct (Z.compare_spec a b) as [-> |E|E].
    + rewrite (cmp_eq_iff (cmp := bytes_cmp)). naive_solver.
    + split; [done|]. intros [= -> ->]. lia.
    + split; [done|]. intros [= -> ->]. lia.
  - intros [a x] [b y]. cbn. rewrite (Z.compare_antisym b a), (cmp_opp (cmp := bytes_cmp) y x).
    destruct (b ?= a), (bytes_cmp y x); done.
  - intros [a x] [b y] [c z]. cbn.
    destruct (Z.compare_spec a b) as [-> |E1|E1], (Z.compare_spec b c) as [-> |E2|E2]; try done.
    + apply (cmp_lt_trans (cmp := bytes_cmp)).
    + by rewrite (proj2 (Z.compare_lt_iff a c)).
    + by rewrite (proj2 (Z.compare_lt_iff a c)) by lia.
Qed.

Lemma recipient_cmp_key a b : recipient_cmp a b = key_cmp (recipient_key a) (recipient_key b).
Proof. unfold recipient_cmp, key_cmp, then_with. cbn. by destruct (_ ?= _). Qed.

Lemma recipient_le_key a b :
  cmp_le recipient_cmp a b ↔ cmp_le key_cmp (recipient_key a) (recipient_key b).
Proof. unfold cmp_le. by rewrite recipient_cmp_key. Qed.

#[export] Instance recipient_le_trans : Transitive (cmp_le recipient_cmp).
Proof. intros a b c. rewrite !recipient_le_key. apply (cmp_le_preorder key_cmp). Qed.

#[export] Instance recipient_le_total : Total (cmp_le recipient_cmp).
Proof. intros a b. rewrite !recipient_le_key. apply (cmp_le_total key_cmp). Qed.

Lemma recipients_perm l : slice_sort recipient_cmp l ≡ₚ l.
Proof. apply merge_sort_Permutation. Qed.

Lemma recipients_sorted l :
  NoDup (recipient_key <$> l) → StronglySorted (cmp_lt recipient_cmp) (slice_sort recipient_cmp l).
Proof.
  intros Hnd. assert (NoDup (recipient_key <$> slice_sort recipient_cmp l)) as Hnd'.
  { by rewrite recipients_perm. }
  assert (StronglySorted (cmp_le recipient_cmp) (slice_sort recipient_cmp l)) as Hs.
  { apply StronglySorted_merge_sort; apply _. }
  clear Hnd. induction Hs as [|r l' Hs IH Hle]; [constructor|]. cbn in Hnd'.
  apply NoDup_cons in Hnd' as [Hr Hnd']. constructor; [by apply IH|].
  apply Forall_forall. intros r' Hr'. eapply Forall_forall in Hle; [|done].
  apply recipient_le_key, (cmp_le_lt_eq key_cmp) in Hle as [Hlt|E].
  - unfold cmp_lt in *. by rewrite recipient_cmp_key.
  - exfalso. apply Hr. rewrite E. by apply list_elem_of_fmap_2.
Qed.

Section process.
Context {SH : Sha256} (m : ActiveMonitors) (Hm : consistent m).

Lemma view_of_slot i e :
  am_slots m !! i = Some (Some e) → view m (conn_id (m_sub e)) (sub_id (m_sub e)) = Some e.
Proof using Hm. intros He. unfold view. rewrite (c_slots _ _ Hm _ _ He) by set_solver. by rewrite He. Qed.

(** The slots of the recipients, once each. *)
Lemma recipients_nodup lev_id ev terms l :
  NoDup l → NoDup (recipient_key <$> omap (slot_recipient lev_id ev terms (am_slots m)) l).
Proof using Hm.
  assert (∀ i r, slot_recipient lev_id ev terms (am_slots m) i = Some r →
    slot_of m (r_conn_id r) (r_sub_id r) = Some i) as Hslot.
  { intros i r. unfold slot_recipient. destruct (am_slots m !! i) as [[e|]|] eqn:He; [|done..].
    destruct (delivers _ _ _ _); [|done]. intros [= <-]. apply (c_slots _ _ Hm _ _ He). set_solver. }
  induction l as [|i l IH]; intros Hnd; [constructor|]. apply NoDup_cons in Hnd as [Hi Hnd]. cbn.
  destruct (slot_recipient lev_id ev terms (am_slots m) i) as [r|] eqn:Er; [|by apply IH].
  cbn. apply NoDup_cons. split; [|by apply IH].
  intros (r' & Ek & (j & Hj & Er')%list_elem_of_omap)%list_elem_of_fmap. apply Hi.
  apply Hslot in Er, Er'. unfold recipient_key in Ek. injection Ek as Ec Es.
  assert (r_sub_id r = r_sub_id r') as Es' by (destruct (r_sub_id r), (r_sub_id r'); cbn in Es; congruence).
  rewrite Ec, Es' in Er. rewrite Er in Er'. by injection Er' as ->.
Qed.

(** A matching subscription is a candidate. *)
Lemma matching_key fg ev tags f :
  group_ok fg → record_tags ev tags → f ∈ g_filters fg → does_match_without_search f ev = true →
  ∃ k, (has_search f, k, kind_mask f) ∈ group_keys fg ∧ event_key ev k ∧ takes_kind (kind_mask f) ev.
Proof.
  intros Hok Htags Hf Hmatch. pose proof (proj1 (Forall_forall _ _) Hok f Hf) as Hfok.
  apply (does_match_spec f ev tags Hfok Htags) in Hmatch as [Hp Ht].
  destruct (filter_keys_complete f ev Hfok Hp Ht) as (k & Hk & Hev). exists k.
  split; [|split; [done|by apply kind_mask_takes]].
  unfold group_keys. apply list_elem_of_bind. exists f. split; [|done]. apply list_elem_of_fmap_2 with (f := λ k, (has_search f, k, kind_mask f)). done.
Qed.

Lemma delivers_candidate lev_id ev tags terms i e (candidates : list nat) :
  record_tags ev tags →
  (∀ i, i ∈ candidates ↔ ∃ search k mask, (search, k, mask) ∈ slot_keys (am_slots m) i ∧
     (false = true → search = true) ∧ event_key ev k ∧ takes_kind mask ev) →
  am_slots m !! i = Some (Some e) → delivers lev_id ev terms e = true → i ∈ candidates.
Proof using Hm.
  intros Htags Hin He [_ Hd]%andb_true_iff. apply Hin.
  unfold group_does_match_with_search_terms in Hd. apply existsb_exists in Hd as (f & Hf%list_elem_of_In & Hd).
  unfold does_match_with_search_terms in Hd.
  destruct (does_match_without_search f ev) eqn:Hm'; [|done].
  destruct (matching_key _ ev tags f (c_group _ _ Hm _ _ He) Htags Hf Hm') as (k & Hk & Hev & Ht).
  exists (has_search f), k, (kind_mask f). split; [|done]. unfold slot_keys. by rewrite He.
Qed.

Lemma process_inner_spec lev_id ev tags terms :
  record_tags ev tags → am_pass m < U64_MAX →
  ∃ m' rs, process_inner m lev_id ev terms = Ok (m', rs) ∧ consistent m' ∧
    am_pass m' = am_pass m + 1 ∧ am_max_subs m' = am_max_subs m ∧
    (∀ r, r ∈ rs ↔ ∃ c s e, view m c s = Some e ∧ delivers lev_id ev terms e = true ∧ r = recipient_of e) ∧
    StronglySorted (cmp_lt recipient_cmp) rs ∧
    ∀ c s, view m' c s = delivered lev_id ev terms <$> view m c s.
Proof using Hm.
  intros Htags Hpass.
  destruct (collect_spec m Hm ev tags false Htags Hpass) as (seen & cands & Hcol & Hm1 & Hnd & Hin).
  unfold process_inner. rewrite Hcol. cbn [mbind result_bind am_slots am_candidates set_pass].
  assert (∀ i, i ∈ cands → ∃ e, am_slots m !! i = Some (Some e)) as Hocc.
  { intros i (search & k & mask & Hk & _)%Hin. unfold slot_keys in Hk.
    destruct (am_slots m !! i) as [[e|]|]; [by eexists|by apply elem_of_nil in Hk..]. }
  destruct (process_slots_spec lev_id ev terms cands (am_slots m) [] Hnd Hocc) as (slots' & -> & Hslots).
  cbn [mbind result_bind app].
  assert (∀ i e, am_slots m !! i = Some (Some e) → slots' !! i = Some (Some (delivered lev_id ev terms e))) as Hdel.
  { intros i e He. rewrite Hslots, He. case_decide as Hc; [done|]. unfold delivered.
    destruct (delivers lev_id ev terms e) eqn:Ed; [|done]. by destruct Hc; eapply delivers_candidate. }
  eexists _, _. split; [done|]. split_and!; try done.
  - apply same_identities_consistent; [done|]. intros i. cbn.
    destruct (am_slots m !! i) as [[e|]|] eqn:He; [|by rewrite Hslots, He..].
    rewrite (Hdel _ _ He). unfold delivered. destruct (delivers _ _ _ _), lev_id; done.
  - intros r. rewrite recipients_perm, list_elem_of_omap. split.
    + intros (i & Hi & Hr). unfold slot_recipient in Hr. destruct (am_slots m !! i) as [[e|]|] eqn:He; [|done..].
      destruct (delivers lev_id ev terms e) eqn:Ed; [|done]. injection Hr as <-.
      exists (conn_id (m_sub e)), (sub_id (m_sub e)), e. split; [by apply (view_of_slot i)|done].
    + intros (c & s & e & Hv & Hd & ->). destruct (view_slot _ _ _ _ Hm Hv) as (_ & _ & i & _ & He).
      exists i. split; [by eapply delivers_candidate|]. unfold slot_recipient. by rewrite He, Hd.
  - by apply recipients_sorted, recipients_nodup.
  - intros c s. unfold view. change (slot_of (set_slots _ _) c s) with (slot_of m c s).
    destruct (slot_of m c s) as [i|] eqn:Hi; [|done].
    destruct (c_conns _ _ Hm _ _ _ Hi) as (e & He & _); [set_solver|]. cbn. by rewrite He, (Hdel _ _ He).
Qed.
End process.

(** ** Whether the event's content is needed *)

Section content.
Context {SH : Sha256} (m : ActiveMonitors) (Hm : consistent m).

(** A search filter of the subscription matches but for its search. *)
Definition searches (ev : PackedEventView) (e : Monitored) : bool :=
  existsb (λ f, has_search f && does_match_without_search f ev) (g_filters (filter_group (m_sub e))).

Lemma wants_content_fold ev m' l :
  (∀ i, i ∈ l → ∃ e, am_slots m' !! i = Some (Some e)) →
  ∃ b, try_fold (wants_content ev m') false l = Ok b ∧
    (b = true ↔ ∃ i e, i ∈ l ∧ am_slots m' !! i = Some (Some e) ∧ searches ev e = true).
Proof.
  assert (∀ l, try_fold (wants_content ev m') true l = Ok true) as Htrue by (intros k; by induction k).
  induction l as [|i l IH]; intros Hocc.
  { exists false. split; [done|]. split; [done|]. by intros (i & e & ?%elem_of_nil & _). }
  destruct (Hocc i) as [e He]; [by left|]. cbn [try_fold]. unfold wants_content at 2.
  rewrite (vec_get_Ok _ _ _ He). cbn [mbind result_bind]. fold (searches ev e).
  destruct (searches ev e) eqn:Es.
  - exists true. split; [apply Htrue|]. split; [|done]. intros _. exists i, e. split; [by left|done].
  - destruct IH as (b & -> & Hb); [intros j Hj; apply Hocc; by right|]. exists b. split; [done|]. rewrite Hb. split.
    + intros (j & e' & ? & ?). exists j, e'. split; [by right|done].
    + intros (j & e' & [-> |?]%elem_of_cons & He' & Hs); [|eauto]. congruence.
Qed.

Lemma no_content_no_search c s e ev :
  am_content_subscriptions m = 0%nat → view m c s = Some e → searches ev e = false.
Proof using Hm.
  intros Hz Hv. destruct (view_slot _ _ _ _ Hm Hv) as (_ & _ & i & _ & He).
  rewrite (c_content _ _ Hm) in Hz. apply nil_length_inv in Hz.
  destruct (searches ev e) eqn:Es; [|done]. exfalso. apply (not_elem_of_nil (Some e)). rewrite <- Hz.
  apply list_elem_of_filter. split; [|by eapply list_elem_of_lookup_2]. cbn. unfold group_requires_content.
  apply existsb_exists in Es as (f & Hf & [Hs _]%andb_true_iff). apply existsb_exists. by exists f.
Qed.

Lemma event_requires_content_spec ev tags :
  record_tags ev tags → am_pass m < U64_MAX →
  ∃ m' b, event_requires_content m ev = Ok (m', b) ∧ consistent m' ∧
    am_pass m' ≤ am_pass m + 1 ∧ am_max_subs m' = am_max_subs m ∧ (∀ c s, view m' c s = view m c s) ∧
    (b = true ↔ ∃ c s e, view m c s = Some e ∧ searches ev e = true).
Proof using Hm.
  intros Htags Hpass. unfold event_requires_content, am_requires_content. rewrite negb_involutive.
  destruct (Nat.eqb_spec (am_content_subscriptions m) 0) as [Hz|_].
  { exists m, false. split_and!; try done; [lia|]. split; [done|]. intros (c & s & e & Hv & Hs).
    by rewrite (no_content_no_search _ _ _ _ Hz Hv) in Hs. }
  destruct (collect_spec m Hm ev tags true Htags Hpass) as (seen & cands & Hcol & Hm1 & Hnd & Hin).
  rewrite Hcol. cbn [mbind result_bind].
  destruct (wants_content_fold ev (set_pass m seen (am_pass m + 1) cands) cands) as (b & Hb & Hspec).
  { intros i (search & k & mask & Hk & _)%Hin. unfold slot_keys in Hk. cbn.
    destruct (am_slots m !! i) as [[e|]|]; [by eexists|by apply elem_of_nil in Hk..]. }
  cbn [am_candidates set_pass]. rewrite Hb. cbn [mbind result_bind]. eexists _, b. split; [done|].
  split_and!; try done. rewrite Hspec. split.
  - intros (i & e & _ & He & Hs). exists (conn_id (m_sub e)), (sub_id (m_sub e)), e.
    split; [by apply (view_of_slot m Hm i)|done].
  - intros (c & s & e & Hv & Hs). destruct (view_slot _ _ _ _ Hm Hv) as (_ & _ & i & _ & He).
    exists i, e. split; [|done]. apply existsb_exists in Hs as Hf.
    destruct Hf as (f & Hf%list_elem_of_In & [Hsearch Hmatch]%andb_true_iff).
    destruct (matching_key _ ev tags f (c_group _ _ Hm _ _ He) Htags Hf Hmatch) as (k & Hk & Hev & Ht).
    apply Hin. exists (has_search f), k, (kind_mask f). split; [unfold slot_keys; by rewrite He|]. by rewrite Hsearch.
Qed.
End content.
