(* ===== verification/MonitorOps.v ===== *)
(** * What the monitors promise

    The operations of ActiveMonitors as one step function, the map from ids to
    open subscriptions that they implement, and the invariant of every state
    they reach. *)

From S2P Require Import Prelude BTreeMap Json Crates Kinds Packed EventParse Search Filter FilterSpec Pending Monitor MonitorIndex MonitorSpec MonitorMatch.

Local Open Scope Z_scope.

(** ** Operations and their specification *)

Inductive monitor_op : Type :=
| OpSetMax (max_subs : nat)
| OpAdd (sub : Subscription)
| OpAddPending (sub : Subscription) (buffer : PendingBuffer)
| OpRemove (c : Z) (s : SubId)
| OpRefuse (refusal : Subscription → option text)
| OpClose (c : Z)
| OpPending (c : Z) (s : SubId) (update : PendingBuffer → PendingBuffer)
| OpFinish (c : Z) (s : SubId) (gen delivered : Z)
| OpProcess (lev_id : option Z) (ev : PackedEventView) (terms : option SearchTermSet)
| OpContent (ev : PackedEventView).

(** The open subscriptions by connection and id. *)
Abbreviation open_subs := (Z → SubId → option Monitored).

(** The cap allows a new id on the connection. *)
Definition below_cap (max : nat) (v : open_subs) (c : Z) : Prop :=
  ∃ ids : gset SubId, (∀ s, s ∈ ids ↔ is_Some (v c s)) ∧ (size ids < max)%nat.

(** [v'] is [v] with the subscription opened, or replaced. *)
Definition opens (sub : Subscription) (pending : option PendingBuffer) (v v' : open_subs) : Prop :=
  ∀ c s, v' c s = if decide (c = conn_id sub ∧ s = sub_id sub) then Some (mkMonitored sub pending) else v c s.

Section spec.
Context {HO : HashOrder} {SH : Sha256}.

Definition run_op (m : ActiveMonitors) (op : monitor_op) : result Panic ActiveMonitors :=
  match op with
  | OpSetMax n => Ok (set_max_subs m n)
  | OpAdd sub => '(m, _) ← add_sub m sub; Ok m
  | OpAddPending sub buffer => add_pending m sub buffer
  | OpRemove c s => remove_sub m c s
  | OpRefuse refusal => '(m, _) ← remove_refused m refusal; Ok m
  | OpClose c => close_conn m c
  | OpPending c s update => pending_mut m c s update
  | OpFinish c s gen delivered => '(m, _) ← finish_pending m c s gen delivered; Ok m
  | OpProcess lev_id ev terms => '(m, _) ← process_inner m lev_id ev terms; Ok m
  | OpContent ev => '(m, _) ← event_requires_content m ev; Ok m
  end.

(** What the program gives the operations: parsed filters, stored records, and
    fewer than 2^32 postings and 2^64 events. *)
Definition admissible (m : ActiveMonitors) (op : monitor_op) : Prop :=
  match op with
  | OpAdd sub | OpAddPending sub _ => group_ok (filter_group sub) ∧ room_for m sub
  | OpProcess _ ev _ | OpContent ev => (∃ tags, record_tags ev tags) ∧ am_pass m < U64_MAX
  | _ => True
  end.

(** What an operation does to the open subscriptions. *)
Definition spec_op (max : nat) (op : monitor_op) (v v' : open_subs) : Prop :=
  match op with
  | OpSetMax _ | OpContent _ => ∀ c s, v' c s = v c s
  | OpAdd sub =>
      ((is_Some (v (conn_id sub) (sub_id sub)) ∨ below_cap max v (conn_id sub)) ∧ opens sub None v v') ∨
      (v (conn_id sub) (sub_id sub) = None ∧ ¬ below_cap max v (conn_id sub) ∧ ∀ c s, v' c s = v c s)
  | OpAddPending sub buffer => opens sub (Some buffer) v v'
  | OpRemove c0 s0 => ∀ c s, v' c s = if decide (c = c0 ∧ s = s0) then None else v c s
  | OpRefuse refusal => ∀ c s, v' c s =
      match v c s with
      | Some e => match refusal (m_sub e) with Some _ => None | None => Some e end
      | None => None
      end
  | OpClose c0 => ∀ c s, v' c s = if decide (c = c0) then None else v c s
  | OpPending c0 s0 update => ∀ c s, v' c s =
      if decide (c = c0 ∧ s = s0)
      then (λ e, mkMonitored (m_sub e) (update <$> m_pending e)) <$> v c s
      else v c s
  | OpFinish c0 s0 gen delivered => ∀ c s, v' c s =
      match v c s with
      | Some e =>
          if decide (c = c0 ∧ s = s0 ∧ generation (m_sub e) = gen ∧ is_Some (m_pending e))
          then Some (mkMonitored (set_latest (m_sub e) (Z.max (latest_event_id (m_sub e)) delivered)) None)
          else Some e
      | None => None
      end
  | OpProcess lev_id ev terms => ∀ c s, v' c s = delivered lev_id ev terms <$> v c s
  end.

(** One operation between states. *)
Definition monitor_step (m m' : ActiveMonitors) : Prop :=
  ∃ op, admissible m op ∧ run_op m op = Ok m'.
End spec.

(** ** Lemmas *)

Lemma open_ids m c :
  consistent m →
  ∃ ids : gset SubId, (∀ s, s ∈ ids ↔ is_Some (view m c s)) ∧
    size ids = match am_conns m !! c with Some conn => size conn | None => 0%nat end.
Proof.
  intros Hm. exists (match am_conns m !! c with Some conn => dom conn | None => ∅ end). split.
  - intros s. assert (is_Some (view m c s) ↔ is_Some (slot_of m c s)) as ->.
    { unfold view. destruct (slot_of m c s) as [i|] eqn:Hi; [|done].
      destruct (c_conns _ _ Hm _ _ _ Hi) as (e & He & _); [set_solver|]. rewrite He. done. }
    unfold slot_of. destruct (am_conns m !! c) as [conn|]; cbn; [by rewrite elem_of_dom|].
    split; [set_solver|]. by intros [].
  - destruct (am_conns m !! c); [apply size_dom|apply size_empty].
Qed.

Lemma below_cap_spec m c max :
  consistent m →
  below_cap max (view m) c ↔
    (match am_conns m !! c with Some conn => size conn | None => 0 end < max)%nat.
Proof.
  intros Hm. destruct (open_ids m c Hm) as (ids & Hids & <-). unfold below_cap. split; [|eauto].
  intros (ids' & Hids' & Hlt). assert (ids' = ids) as -> by (apply set_eq; intros s; by rewrite Hids, Hids').
  done.
Qed.

Lemma add_sub_spec m sub :
  consistent m → group_ok (filter_group sub) → room_for m sub →
  ∃ m' b, add_sub m sub = Ok (m', b) ∧ consistent m' ∧ am_max_subs m' = am_max_subs m ∧
    (b = true → (is_Some (view m (conn_id sub) (sub_id sub)) ∨
                 below_cap (am_max_subs m) (view m) (conn_id sub)) ∧ opens sub None (view m) (view m')) ∧
    (b = false → view m (conn_id sub) (sub_id sub) = None ∧
                 ¬ below_cap (am_max_subs m) (view m) (conn_id sub) ∧ m' = m).
Proof.
  intros Hm Hg Hroom. destruct (insert_sub_spec m sub None Hm Hg Hroom) as (m' & Hins & Hm' & Hmax & Hv).
  assert (match am_conns m !! conn_id sub with Some conn => bool_decide (is_Some (conn !! sub_id sub)) | None => false end
    = bool_decide (is_Some (view m (conn_id sub) (sub_id sub)))) as Hrep.
  { unfold view. destruct (slot_of m (conn_id sub) (sub_id sub)) as [i|] eqn:Hi.
    - destruct (c_conns _ _ Hm _ _ _ Hi) as (e & He & _); [set_solver|]. rewrite He.
      apply bind_Some in Hi as (conn & -> & Hs). rewrite Hs. by rewrite !bool_decide_true by done.
    - assert (bool_decide (is_Some (None : option Monitored)) = false) as ->
        by (apply bool_decide_false; by intros []).
      unfold slot_of in Hi. destruct (am_conns m !! conn_id sub); [|done]. cbn in Hi. rewrite Hi.
      by rewrite bool_decide_false by by intros []. }
  pose proof (below_cap_spec m (conn_id sub) (am_max_subs m) Hm) as Hcap. unfold add_sub. rewrite Hrep.
  set (count := match am_conns m !! conn_id sub with Some conn => size conn | None => 0%nat end) in *.
  case_bool_decide as Hopen; cbn [negb andb].
  - rewrite Hins. cbn [mbind result_bind]. exists m', true. split_and!; try done. intros _. split; [by left|done].
  - destruct (Nat.leb_spec (am_max_subs m) count) as [Hle|Hlt].
    + exists m, false. split_and!; try done. intros _. split_and!; [|rewrite Hcap; lia|done].
      destruct (view m (conn_id sub) (sub_id sub)); [by destruct Hopen|done].
    + rewrite Hins. cbn [mbind result_bind]. exists m', true. split_and!; try done. intros _. split; [right; by apply Hcap|done].
Qed.

Lemma new_bucket max search k : bucket (ix_of (am_postings (ActiveMonitors_new max)) search) k = [].
Proof.
  assert (ix_of (am_postings (ActiveMonitors_new max)) search = Index_new) as -> by by destruct search.
  destruct k as [id|pk|name value|kind|]; cbn -[replicate]; rewrite ?lookup_empty; try done.
  destruct (0 <=? name); [|done]. destruct (replicate 256 ∅ !! Z.to_nat name) as [values|] eqn:E; [|done].
  apply lookup_replicate in E as [-> _]. cbn. by rewrite lookup_empty.
Qed.

Lemma new_consistent max : consistent (ActiveMonitors_new max).
Proof.
  split; try done.
  - constructor.
  - intros i. cbn. split; [by intros ?%elem_of_nil|]. by intros [? _].
  - exists ∅. split; [|intros i n; by rewrite lookup_empty]. split.
    + by intros [].
    + intros i n search k mask. by rewrite lookup_empty.
    + intros search k a p. by rewrite new_bucket.
    + intros search. unfold tag_keys. rewrite map_filter_empty, map_size_empty. by destruct search.
Qed.

Section ops.
Context {HO : HashOrder} {HOL : HashOrderLaws} {SH : Sha256}.

(** Every admissible operation returns, keeps the monitors consistent, and does
    what the specification says. *)
Lemma run_op_spec m op :
  consistent m → admissible m op →
  ∃ m', run_op m op = Ok m' ∧ consistent m' ∧ spec_op (am_max_subs m) op (view m) (view m').
Proof.
  intros Hm Ha. destruct op as [n|sub|sub buffer|c s|refusal|c|c s update|c s gen delivered|lev_id ev terms|ev];
    cbn [run_op admissible spec_op] in *.
  - exists (set_max_subs m n). split; [done|]. split; [by destruct Hm|done].
  - destruct Ha as [Hg Hroom]. destruct (add_sub_spec m sub Hm Hg Hroom) as (m' & b & -> & Hm' & _ & Ht & Hf).
    cbn [mbind result_bind]. exists m'. split; [done|]. split; [done|]. destruct b; [left; by apply Ht|right].
    destruct (Hf eq_refl) as (? & ? & ->). done.
  - destruct Ha as [Hg Hroom]. destruct (insert_sub_spec m sub (Some buffer) Hm Hg Hroom) as (m' & H & ? & _ & ?).
    by exists m'.
  - destruct (remove_sub_spec m c s Hm) as (m' & ? & ? & _ & ?). by exists m'.
  - destruct (remove_refused_spec m refusal Hm) as (m' & refused & -> & ? & _ & _ & ?). by exists m'.
  - destruct (close_conn_spec m c Hm) as (m' & ? & ? & _ & ?). by exists m'.
  - destruct (pending_mut_spec m c s update Hm) as (m' & ? & ? & _ & Hv). exists m'. split_and!; try done.
    intros c' s'. rewrite Hv. case_decide as E; [|done]. destruct E as [-> ->]. by destruct (view m c s).
  - destruct (finish_pending_spec m c s gen delivered Hm) as (m' & b & -> & ? & _ & -> & Hv).
    exists m'. split_and!; try done. intros c' s'. rewrite Hv.
    destruct (decide (c' = c ∧ s' = s)) as [[-> ->]|Hne].
    + destruct (view m c s) as [e|]; [|done]. destruct (Z.eqb_spec (generation (m_sub e)) gen) as [E|E].
      * destruct (m_pending e); [by rewrite decide_True by eauto|].
        rewrite decide_False; [done|]. intros (_ & _ & _ & []). done.
      * rewrite decide_False; [done|]. by intros (_ & _ & ? & _).
    + destruct (view m c' s') as [e|] eqn:E'; [rewrite (decide_False (P := c' = c ∧ s' = s ∧ _ ∧ _)) by naive_solver|];
        destruct (view m c s) as [e0|]; try done; destruct (_ =? _); try done; by destruct (m_pending e0).
  - destruct Ha as [(tags & Htags) Hpass].
    destruct (process_inner_spec m Hm lev_id ev tags terms Htags Hpass) as (m' & rs & -> & ? & _ & _ & _ & _ & ?).
    by exists m'.
  - destruct Ha as [(tags & Htags) Hpass].
    destruct (event_requires_content_spec m Hm ev tags Htags Hpass) as (m' & b & -> & ? & _ & _ & ? & _).
    by exists m'.
Qed.

(** ** Properties *)

(** C2. Delivering an event to the live subscriptions finds exactly the open
    subscriptions that have not passed the event and whose filters match it, as
    matching every subscription in full would: each gets it once, in the order of
    connection and id, its cursor moves to the event, and nothing else changes. *)
Theorem process_delivers_to_matching m lev_id ev tags terms :
  consistent m → record_tags ev tags → am_pass m < U64_MAX →
  ∃ m' rs, process_inner m lev_id ev terms = Ok (m', rs) ∧ consistent m' ∧
    (∀ r, r ∈ rs ↔ ∃ c s e, view m c s = Some e ∧ delivers lev_id ev terms e = true ∧ r = recipient_of e) ∧
    StronglySorted (cmp_lt recipient_cmp) rs ∧
    ∀ c s, view m' c s = delivered lev_id ev terms <$> view m c s.
Proof.
  intros Hm Htags Hpass.
  destruct (process_inner_spec m Hm lev_id ev tags terms Htags Hpass) as (m' & rs & ? & ? & _ & _ & ? & ? & ?).
  by exists m', rs.
Qed.

(** C6. The monitors implement a map from connection and subscription id to the
    open subscription: every operation on consistent monitors returns without a
    panic, leaves them consistent, and changes the map as specified, the cap on
    subscriptions per connection included. *)
Theorem monitors_implement_a_map m op :
  consistent m → admissible m op →
  ∃ m', run_op m op = Ok m' ∧ consistent m' ∧ spec_op (am_max_subs m) op (view m) (view m').
Proof. apply run_op_spec. Qed.

(** C20. In every state that operations reach from new monitors, the index holds
    exactly the keys of the open subscriptions, each posting where its slot says,
    and the slots, the free list and the connections agree. *)
Theorem reachable_monitors_consistent max m :
  rtc monitor_step (ActiveMonitors_new max) m → consistent m.
Proof.
  intros H. remember (ActiveMonitors_new max) as m0 eqn:E.
  assert (consistent m0) as Hm0 by (subst; apply new_consistent). clear E.
  induction H as [m|m1 m2 m3 (op & Ha & Hop) _ IH]; [done|]. apply IH.
  destruct (run_op_spec m1 op Hm0 Ha) as (m' & Hop' & Hm' & _). congruence.
Qed.

(** The monitors ask for an event's content exactly when an open subscription
    has a search filter whose other conditions match the event. *)
Theorem content_asked_when_searched m ev tags :
  consistent m → record_tags ev tags → am_pass m < U64_MAX →
  ∃ m' b, event_requires_content m ev = Ok (m', b) ∧ consistent m' ∧
    (∀ c s, view m' c s = view m c s) ∧
    (b = true ↔ ∃ c s e f, view m c s = Some e ∧ f ∈ g_filters (filter_group (m_sub e)) ∧
       is_Some (f_search f) ∧ does_match_without_search f ev = true).
Proof.
  intros Hm Htags Hpass.
  destruct (event_requires_content_spec m Hm ev tags Htags Hpass) as (m' & b & ? & ? & _ & _ & ? & Hb).
  exists m', b. split_and!; try done. rewrite Hb. unfold searches. split.
  - intros (c & s & e & ? & (f & ?%list_elem_of_In & [?%bool_decide_eq_true ?]%andb_true_iff)%existsb_exists).
    by exists c, s, e, f.
  - intros (c & s & e & f & ? & Hf & ? & Hm'). exists c, s, e. split; [done|]. apply existsb_exists. exists f.
    unfold has_search. rewrite bool_decide_true, Hm' by done. by rewrite <- list_elem_of_In.
Qed.
End ops.

(** ** Witnesses *)

(** Hash maps iterated in the order of their keys' encoding. *)
#[local] Instance key_order : HashOrder := {|
  conn_order m := (map_to_list m).*2;
  sub_order m := (map_to_list m).*2;
|}.
#[local] Instance key_order_laws : HashOrderLaws.
Proof. by split. Qed.

(** Connection 7 is subscribed to notes tagged "wok". *)
Definition sample_sub : Subscription :=
  mkSubscription 7 (mkSubId (str "feed")) (mkFilterGroup [compiled_sample] 0) false 10 1 false.

Definition state_after (m : ActiveMonitors) (op : monitor_op) : ActiveMonitors :=
  match run_op m op with Ok m => m | Err _ => m end.

Definition one_sub : ActiveMonitors := state_after (ActiveMonitors_new 4) (OpAdd sample_sub).

Lemma sample_admissible : admissible (ActiveMonitors_new 4) (OpAdd sample_sub).
Proof.
  split.
  - constructor; [|done].
    by destruct (NostrFilter_parse_Ok (UC := ascii_chars) sample_filter 500 3 16 compiled_sample eq_refl eq_refl)
      as (_ & _ & ? & _).
  - split; [|by vm_compute]. intros search k. rewrite new_bucket.
    assert (length (group_keys (filter_group sample_sub)) = 1%nat) as -> by by vm_compute. done.
Qed.

Lemma one_sub_consistent :
  consistent one_sub ∧ run_op (ActiveMonitors_new 4) (OpAdd sample_sub) = Ok one_sub.
Proof.
  destruct (run_op_spec _ _ (new_consistent 4) sample_admissible) as (m' & H & Hm' & _).
  unfold one_sub, state_after. by rewrite H.
Qed.

Lemma sample_record_tags : record_tags sample_record sample_tags.
Proof. split; [|by vm_compute]. repeat constructor; by vm_compute. Qed.

Lemma process_delivers_to_matching_witness :
  ∃ m' rs, process_inner one_sub (Some 11) sample_record None = Ok (m', rs) ∧ consistent m' ∧
    (∀ r, r ∈ rs ↔ ∃ c s e, view one_sub c s = Some e ∧
       delivers (Some 11) sample_record None e = true ∧ r = recipient_of e) ∧
    StronglySorted (cmp_lt recipient_cmp) rs ∧
    (∀ c s, view m' c s = delivered (Some 11) sample_record None <$> view one_sub c s) ∧
    rs = [mkRecipient 7 (mkSubId (str "feed")) false 1].
Proof.
  destruct (process_delivers_to_matching one_sub (Some 11) sample_record sample_tags None)
    as (m' & rs & H & ? & ? & ? & ?); [apply one_sub_consistent|apply sample_record_tags|by vm_compute|].
  exists m', rs. do 5 (split; [assumption|]).
  assert (snd <$> result_ok (process_inner one_sub (Some 11) sample_record None) =
    Some [mkRecipient 7 (mkSubId (str "feed")) false 1]) as Hrs by by vm_compute.
  rewrite H in Hrs. by injection Hrs.
Defined.

Lemma monitors_implement_a_map_witness :
  ∃ m', run_op one_sub (OpRemove 7 (mkSubId (str "feed"))) = Ok m' ∧ consistent m' ∧
    spec_op (am_max_subs one_sub) (OpRemove 7 (mkSubId (str "feed"))) (view one_sub) (view m').
Proof.
  apply (monitors_implement_a_map one_sub (OpRemove 7 (mkSubId (str "feed")))); [apply one_sub_consistent|done].
Defined.

Lemma reachable_monitors_consistent_witness : consistent one_sub.
Proof.
  apply (reachable_monitors_consistent 4), rtc_once. exists (OpAdd sample_sub).
  split; [apply sample_admissible|apply one_sub_consistent].
Defined.

Lemma content_asked_when_searched_witness :
  ∃ m' b, event_requires_content one_sub sample_record = Ok (m', b) ∧ consistent m' ∧
    (∀ c s, view m' c s = view one_sub c s) ∧
    (b = true ↔ ∃ c s e f, view one_sub c s = Some e ∧ f ∈ g_filters (filter_group (m_sub e)) ∧
       is_Some (f_search f) ∧ does_match_without_search f sample_record = true).
Proof.
  apply (content_asked_when_searched one_sub sample_record sample_tags);
    [apply one_sub_consistent|apply sample_record_tags|by vm_compute].
Defined.
