(* ===== verification/WsFrame.v ===== *)
(** * WebSocket frames: crates/wok-ws/src/frame.rs

    The RFC 6455 frame codec with RFC 7692 permessage-deflate: the parser and
    assembler of the read half, the serializer of the write half, the contexts
    that inflate and deflate messages, and the deadlines of a read.  A method
    that changes [self] returns the new state with its result; after an error
    the connection is closed, so an error carries no state.

    [flate2] and [bytes] are not part of the repository: what the code uses of
    them are the classes [Flate2] and [BytesMut].  Clock readings and the data a
    read returns are arguments. *)

From S2P Require Import Prelude Utf8.

Local Open Scope Z_scope.

Definition OP_CONT : Z := 0x0.
Definition OP_TEXT : Z := 0x1.
Definition OP_BINARY : Z := 0x2.
Definition OP_CLOSE : Z := 0x8.
Definition OP_PING : Z := 0x9.
Definition OP_PONG : Z := 0xA.

Definition CLOSE_PROTOCOL_ERROR : Z := 1002.
Definition CLOSE_INVALID_DATA : Z := 1007.
Definition CLOSE_TOO_BIG : Z := 1009.

(** The chunks of four, then the remainder. *)
Fixpoint apply_mask (mask payload : bytes) : bytes :=
  match payload with
  | a :: b :: c :: d :: rest => zip_with Z.lxor [a; b; c; d] mask ++ apply_mask mask rest
  | remainder => zip_with Z.lxor remainder mask
  end.

Inductive WsError : Type :=
| Io (e : string)
| Eof
| Timeout (e : string)
| Protocol (e : string)
| InvalidData (e : string)
| MessageTooLarge
| Inflate (e : string)
| Deflate (e : string).

Definition close_code (e : WsError) : option Z :=
  match e with
  | Protocol _ => Some CLOSE_PROTOCOL_ERROR
  | InvalidData _ | Inflate _ => Some CLOSE_INVALID_DATA
  | MessageTooLarge => Some CLOSE_TOO_BIG
  | Io _ | Eof | Timeout _ | Deflate _ => None
  end.

Variant MessageKind : Type := MText | MBinary.

Inductive WsEvent : Type :=
| Message (k : MessageKind) (payload : bytes)
| Ping (payload : bytes)
| Pong (payload : bytes)
| Close (payload : bytes).

(** ** flate2

    A call consumes a prefix of the input and writes at most [room] bytes:
    [(state, consumed, written, error)].  The counters [total_in] and
    [total_out] are the sums of what calls consumed and wrote. *)
Class Flate2 : Type := {
  Decompress : Type;
  Decompress_new : Decompress;
  Decompress_reset : Decompress → Decompress;
  decompress_step : Decompress → bytes → nat → Decompress * nat * bytes * option string;
  Compress : Type;
  Compress_new : Z → Compress;
  Compress_reset : Compress → Compress;
  compress_step : Compress → bytes → nat → Compress * nat * bytes * option string;
}.

Definition DEFAULT_LEVEL : Z := 1.

Definition WINDOW : Z := 2 ^ 15.

(** The empty stored block a sync flush ends with, less its first byte. *)
Definition SYNC_MARKER : bytes := [0x00; 0x00; 0xff; 0xff].

Section deflate.
Context `{FL : Flate2}.

Record InflateCtx : Type := mkInflateCtx {
  i_takeover : bool;
  i_inner : option Decompress;
  i_history : bytes;
  i_head : Z;
  i_used : bool;
}.

Definition InflateCtx_new (takeover : bool) : InflateCtx :=
  mkInflateCtx takeover None [] 0 false.

(** One call of the decompressor.  The state is the decompressor, the bytes of
    the input consumed so far and the output. *)
Definition inflate_step (input : bytes) (max_out : Z) (st : Decompress * nat * bytes)
    : result WsError (Decompress * nat * bytes + Decompress * bytes) :=
  let '(inner, consumed, out) := st in
  let room := Z.min (sat_sub (max_out + 1) (len out)) (32 * 1024) in
  let '(inner, n, written, error) :=
    decompress_step inner (drop consumed input) (Z.to_nat room) in
  let out := out ++ written in
  match error with
  | Some e => Err (Inflate e)
  | None =>
      if max_out <? len out then Err MessageTooLarge
      else if negb (n =? 0)%nat || negb (length written =? 0)%nat
      then Ok (inl (inner, (consumed + n)%nat, out))
      else Ok (inr (inner, out))
  end.

(** Every call that goes on consumes input or writes output, of which there is
    at most [max_out]. *)
Definition inflate_into (inner : Decompress) (input out : bytes) (max_out : Z)
    : result WsError (Decompress * bytes) :=
  loop_m (λ st, (length input - st.1.2) + (Z.to_nat (max_out + 1) - length st.2))%nat
    (inflate_step input max_out) (Inflate "unreachable") (inner, 0%nat, out).

(** [[T]::rotate_left] *)
Definition rotate_left {A} (n : nat) (l : list A) : list A := drop n l ++ take n l.

(** The loop over the part of [data] the history has no free room for. *)
Fixpoint remember_wrap (fuel : nat) (history : bytes) (head : Z) (data : bytes)
    : bytes * Z :=
  match fuel with
  | O => (history, head)
  | S fuel =>
      match data with
      | [] => (history, head)
      | _ =>
          let n := Z.min (WINDOW - head) (len data) in
          let history := take (Z.to_nat head) history ++ take (Z.to_nat n) data
                         ++ drop (Z.to_nat (head + n)) history in
          remember_wrap fuel history ((head + n) mod WINDOW) (drop (Z.to_nat n) data)
      end
  end.

Definition remember (c : InflateCtx) (data : bytes) : InflateCtx :=
  let '(data, history, head) :=
    if WINDOW <=? len data
    then (drop (Z.to_nat (len data - WINDOW)) data, [], 0)
    else (data, i_history c, i_head c) in
  let fill := Z.min (WINDOW - len history) (len data) in
  let history := history ++ take (Z.to_nat fill) data in
  let data := drop (Z.to_nat fill) data in
  let '(history, head) := remember_wrap (length data) history head data in
  mkInflateCtx (i_takeover c) (i_inner c) history head (i_used c).

(** A stored block: its header, its length and the complement, the bytes. *)
Definition stored_block (history : bytes) (head : Z) : bytes :=
  let n := len history mod 2 ^ 16 in
  [0] ++ to_le_bytes 2 n ++ to_le_bytes 2 (65535 - n)
    ++ drop (Z.to_nat head) history ++ take (Z.to_nat head) history.

(** The decompressor for the next message: the current one, reset when each
    message stands alone, or a new one the history is replayed into. *)
Definition inflater_inner (c : InflateCtx) : result WsError Decompress :=
  match i_inner c with
  | Some inner => Ok (if i_takeover c then inner else Decompress_reset inner)
  | None =>
      match i_history c with
      | [] => Ok Decompress_new
      | history =>
          '(inner, replayed) ←
            inflate_into Decompress_new (stored_block history (i_head c)) [] WINDOW;
          if (length replayed =? length history)%nat then Ok inner
          else Err (Inflate "history replay")
      end
  end.

Definition decompress (c : InflateCtx) (payload : bytes) (max_out : Z)
    : result WsError (InflateCtx * bytes) :=
  inner ← inflater_inner c;
  '(inner, out) ← inflate_into inner (payload ++ SYNC_MARKER) [] max_out;
  let c := mkInflateCtx (i_takeover c) (Some inner) (i_history c) (i_head c) true in
  Ok (if i_takeover c then remember c out else c, out).

Definition InflateCtx_release_idle (c : InflateCtx) : InflateCtx :=
  match i_used c, i_inner c with
  | false, Some _ =>
      mkInflateCtx (i_takeover c) None (rotate_left (Z.to_nat (i_head c)) (i_history c)) 0 false
  | _, inner => mkInflateCtx (i_takeover c) inner (i_history c) (i_head c) false
  end.

Record DeflateCtx : Type := mkDeflateCtx {
  d_takeover : bool;
  d_level : Z;
  d_inner : option Compress;
  d_used : bool;
}.

Definition DeflateCtx_with_level (takeover : bool) (level : Z) : DeflateCtx :=
  mkDeflateCtx takeover level None false.

Definition DeflateCtx_new (takeover : bool) : DeflateCtx :=
  DeflateCtx_with_level takeover DEFAULT_LEVEL.

(** [out.ends_with(suffix)] *)
Definition ends_with (s suffix : bytes) : bool := starts_with (rev s) (rev suffix).

(** [Vec::reserve]: nothing while the spare capacity is enough, else at least
    twice the capacity. *)
Definition vec_reserve (cap length additional : Z) : Z :=
  if additional <=? cap - length then cap else Z.max (cap * 2) (length + additional).

(** One call of the compressor.  The state is the compressor, the bytes of the
    message consumed so far, the output and its vector's capacity. *)
Definition deflate_step (msg : bytes) (st : Compress * nat * bytes * Z)
    : result WsError (Compress * nat * bytes * Z + Compress * bytes) :=
  let '(inner, consumed, out, cap) := st in
  let cap := if cap - len out <? 64 then vec_reserve cap (len out) (32 * 1024) else cap in
  let '(inner, n, written, error) :=
    compress_step inner (drop consumed msg) (Z.to_nat (cap - len out)) in
  match error with
  | Some e => Err (Deflate e)
  | None =>
      let out := out ++ written in
      let all_consumed := ((consumed + n) =? length msg)%nat in
      let progressed := negb (n =? 0)%nat || negb (length written =? 0)%nat in
      if all_consumed && ends_with out SYNC_MARKER then Ok (inr (inner, out))
      else if negb progressed && all_consumed then Ok (inr (inner, out))
      else Ok (inl (inner, (consumed + n)%nat, out, cap))
  end.

(** [fuel] bounds the number of calls; the source has no bound of its own. *)
Definition compress (fuel : nat) (c : DeflateCtx) (msg : bytes)
    : result WsError (DeflateCtx * bytes) :=
  let inner :=
    match d_inner c with
    | Some inner => if d_takeover c then inner else Compress_reset inner
    | None => Compress_new (d_level c)
    end in
  '(inner, out) ← loop (deflate_step msg) (Deflate "out of fuel") fuel
                   (inner, 0%nat, [], len msg / 2 + 64);
  if len out <? 4 then Err (Deflate "short compressed block")
  else Ok (mkDeflateCtx (d_takeover c) (d_level c) (Some inner) true,
           take (length out - 4) out).

Definition DeflateCtx_release_idle (c : DeflateCtx) : DeflateCtx :=
  mkDeflateCtx (d_takeover c) (d_level c) (if d_used c then d_inner c else None) false.
End deflate.

Global Arguments InflateCtx {FL}.
Global Arguments DeflateCtx {FL}.

(** ** The [bytes] crate: the capacity of a [BytesMut]

    [bytes_with_capacity n] is the capacity a new buffer for [n] bytes gets,
    [bytes_reserve cap length n] the capacity after [reserve(n)]. *)
Class BytesMut : Type := {
  bytes_with_capacity : Z → Z;
  bytes_reserve : Z → Z → Z → Z;
}.

Variant Role : Type := Server | Client.

Definition READ_IDLE : Z := 1024.
Definition READ_CHUNK : Z := 16 * 1024.

Record RawFrame : Type := mkRawFrame {
  fin : bool;
  rsv1 : bool;
  opcode : Z;
  payload : bytes;
}.

Definition close_code_allowed (code : Z) : bool :=
  (1000 <=? code) && (code <=? 1003) || (1007 <=? code) && (code <=? 1014)
  || (3000 <=? code) && (code <=? 4999).

Definition check_close (payload : bytes) : result WsError () :=
  match payload with
  | [] => Ok ()
  | [_] => Err (Protocol "1-byte close body")
  | hi :: lo :: reason =>
      if negb (close_code_allowed (from_be_bytes [hi; lo]))
      then Err (Protocol "close status code not allowed")
      else if negb (utf8_valid reason) then Err (InvalidData "close reason not UTF-8")
      else Ok ()
  end.

Definition MAX_INFLATE_RATIO : Z := 32.
Definition INFLATE_ENVELOPE : Z := 64 * 1024.

Definition inflate_allowance (max_message : Z) : Z := max_message / 2 + INFLATE_ENVELOPE.

Definition inflate_limit (wire_len max_message : Z) : Z :=
  Z.min (Z.max (sat_mul U64_MAX wire_len MAX_INFLATE_RATIO) (inflate_allowance max_message))
    max_message.

(** [b & bit != 0] *)
Definition has_bit (b bit : Z) : bool := negb (Z.land b bit =? 0).

Section frames.
Context `{FL : Flate2} `{BM : BytesMut}.

(** [buf] is the unread bytes and [cap] the buffer's capacity. *)
Record WsParser : Type := mkWsParser {
  max_message : Z;
  buf : bytes;
  cap : Z;
  read_filled : bool;
  grown : bool;
  frag_opcode : option Z;
  frag_rsv1 : bool;
  frag : bytes;
  completed : Z;
  inflater : option InflateCtx;
  role : Role;
}.

Definition WsParser_with_role (max_message : Z) (inflater : option InflateCtx) (role : Role)
    : WsParser :=
  mkWsParser max_message [] (bytes_with_capacity READ_IDLE) false false None false [] 0
    inflater role.

Definition WsParser_new (max_message : Z) (inflater : option InflateCtx) : WsParser :=
  WsParser_with_role max_message inflater Server.

(** Updates of the fields the methods assign. *)
Definition set_buf (p : WsParser) (b : bytes) (c : Z) : WsParser :=
  mkWsParser (max_message p) b c (read_filled p) (grown p) (frag_opcode p)
    (frag_rsv1 p) (frag p) (completed p) (inflater p) (role p).
Definition set_frag (p : WsParser) (op : option Z) (r : bool) (f : bytes) : WsParser :=
  mkWsParser (max_message p) (buf p) (cap p) (read_filled p) (grown p) op
    r f (completed p) (inflater p) (role p).
Definition set_completed (p : WsParser) (c : Z) : WsParser :=
  mkWsParser (max_message p) (buf p) (cap p) (read_filled p) (grown p) (frag_opcode p)
    (frag_rsv1 p) (frag p) c (inflater p) (role p).
Definition set_inflater (p : WsParser) (i : option InflateCtx) : WsParser :=
  mkWsParser (max_message p) (buf p) (cap p) (read_filled p) (grown p) (frag_opcode p)
    (frag_rsv1 p) (frag p) (completed p) i (role p).
Definition set_grown (p : WsParser) (filled g : bool) : WsParser :=
  mkWsParser (max_message p) (buf p) (cap p) filled g (frag_opcode p)
    (frag_rsv1 p) (frag p) (completed p) (inflater p) (role p).

Definition assembly_pending (p : WsParser) : bool :=
  match buf p, frag_opcode p with [], None => false | _, _ => true end.

Definition WsParser_release_idle (p : WsParser) : WsParser :=
  set_inflater p (InflateCtx_release_idle <$> inflater p).

(** [BytesMut::advance] gives up the bytes' capacity with them. *)
Definition advance (p : WsParser) (n : nat) : WsParser :=
  set_buf p (drop n (buf p)) (cap p - Z.of_nat n).

(** The mask and the payload of a frame of [n] bytes whose header ends at [off];
    [None] while they are not all there. *)
Definition frame_payload (b : bytes) (masked : bool) (off n : nat) : option (bytes * nat) :=
  if masked then
    if (length b <? off + 4 + n)%nat then None
    else Some (apply_mask (slice off (off + 4) b) (slice (off + 4) (off + 4 + n) b),
               off + 4 + n)%nat
  else
    if (length b <? off + n)%nat then None
    else Some (slice off (off + n) b, off + n)%nat.

(** The length of a frame and where the length field ends. *)
Definition frame_length (b : bytes) (b1 : Z) : result WsError (option (Z * nat)) :=
  let n := Z.land b1 0x7F in
  if n =? 126 then
    if (length b <? 4)%nat then Ok None
    else Ok (Some (from_be_bytes (slice 2 4 b), 4%nat))
  else if n =? 127 then
    if (length b <? 10)%nat then Ok None
    else
      let n := from_be_bytes (slice 2 10 b) in
      if has_bit n (2 ^ 63) then Err (Protocol "2^63 length") else Ok (Some (n, 10%nat))
  else Ok (Some (n, 2%nat)).

(** The frame at the front of [b] and the bytes it takes. *)
Definition parse_frame (p : WsParser) (b : bytes) : result WsError (option (RawFrame * nat)) :=
  match b with
  | b0 :: b1 :: _ =>
      let fin := has_bit b0 0x80 in
      let rsv1 := has_bit b0 0x40 in
      let rsv2 := has_bit b0 0x20 in
      let rsv3 := has_bit b0 0x10 in
      let opcode := Z.land b0 0x0F in
      if rsv2 || rsv3 then Err (Protocol "RSV2/RSV3 set")
      else if rsv1 && bool_decide (inflater p = None)
      then Err (Protocol "RSV1 set without negotiated extension")
      else if rsv1 && ((opcode =? OP_CONT) || (0x8 <=? opcode))
      then Err (Protocol "RSV1 set on a control or continuation frame")
      else
        let masked := has_bit b1 0x80 in
        match role p, masked with
        | Server, false => Err (Protocol "client frame not masked")
        | Client, true => Err (Protocol "server frame masked")
        | _, _ =>
            length ← frame_length b b1;
            match length with
            | None => Ok None
            | Some (n, off) =>
                if (0x8 <=? opcode) && negb fin
                then Err (Protocol "fragmented control frame")
                else if (0x8 <=? opcode) && (125 <? n)
                then Err (Protocol "control frame too large")
                else if max_message p <? n then Err MessageTooLarge
                else
                  match frame_payload b masked off (Z.to_nat n) with
                  | None => Ok None
                  | Some (payload, n) => Ok (Some (mkRawFrame fin rsv1 opcode payload, n))
                  end
            end
        end
  | _ => Ok None
  end.

Definition try_parse_frame (p : WsParser) : result WsError (option (RawFrame * WsParser)) :=
  frame ← parse_frame p (buf p);
  Ok (match frame with Some (frame, n) => Some (frame, advance p n) | None => None end).

Definition maybe_inflate (p : WsParser) (rsv1 : bool) (payload : bytes)
    : result WsError (WsParser * bytes) :=
  if rsv1 then
    let max := inflate_limit (len payload) (max_message p) in
    match inflater p with
    | Some d =>
        '(d, out) ← decompress d payload max;
        Ok (set_inflater p (Some d), out)
    | None => Err (Protocol "RSV1 without extension")
    end
  else Ok (p, payload).

Definition kind_of (opcode : Z) : MessageKind :=
  if opcode =? OP_TEXT then MText else MBinary.

Definition handle_frame (p : WsParser) (frame : RawFrame)
    : result WsError (WsParser * option WsEvent) :=
  if opcode frame =? OP_PING then Ok (p, Some (Ping (payload frame)))
  else if opcode frame =? OP_PONG then Ok (p, Some (Pong (payload frame)))
  else if opcode frame =? OP_CLOSE then
    _ ← check_close (payload frame);
    Ok (p, Some (Close (payload frame)))
  else if (opcode frame =? OP_TEXT) || (opcode frame =? OP_BINARY) then
    match frag_opcode p with
    | Some _ => Err (Protocol "new message during fragmented message")
    | None =>
        if fin frame then
          '(p, out) ← maybe_inflate p (rsv1 frame) (payload frame);
          Ok (p, Some (Message (kind_of (opcode frame)) out))
        else
          let p := set_frag p (Some (opcode frame)) (rsv1 frame) (payload frame) in
          if max_message p <? len (frag p) then Err MessageTooLarge else Ok (p, None)
    end
  else if opcode frame =? OP_CONT then
    match frag_opcode p with
    | None => Err (Protocol "continuation without message")
    | Some op =>
        let p := set_frag p (Some op) (frag_rsv1 p) (frag p ++ payload frame) in
        if max_message p <? len (frag p) then Err MessageTooLarge
        else if fin frame then
          let message := frag p in
          let p := set_frag p None (frag_rsv1 p) [] in
          '(p, out) ← maybe_inflate p (frag_rsv1 p) message;
          Ok (p, Some (Message (kind_of op) out))
        else Ok (p, None)
    end
  else Err (Protocol "unknown opcode").

(** What an event counts towards a decoding budget. *)
Definition event_bytes (e : WsEvent) : Z :=
  match e with Message _ payload => len payload | _ => 0 end.

(** One frame of the decoding loop: the parser, the events and the bytes decoded
    so far. *)
Definition drain_step (budget : Z) (st : WsParser * list WsEvent * Z)
    : result WsError (WsParser * list WsEvent * Z + WsParser * list WsEvent * Z) :=
  let '(p, events, decoded) := st in
  frame ← try_parse_frame p;
  match frame with
  | None => Ok (inr (p, events, decoded))
  | Some (frame, p) =>
      '(p, event) ← handle_frame p frame;
      let p :=
        match frag_opcode p with
        | None => set_completed p (wrap64 (completed p + 1))
        | Some _ => p
        end in
      let '(events, decoded) :=
        match event with
        | Some ev => (events ++ [ev], sat_add U64_MAX decoded (event_bytes ev))
        | None => (events, decoded)
        end in
      if budget <=? decoded then Ok (inr (p, events, decoded))
      else Ok (inl (p, events, decoded))
  end.

(** A frame takes at least two bytes off the buffer. *)
Definition drain_events_into (p : WsParser) (events : list WsEvent) (budget : Z)
    : result WsError (WsParser * list WsEvent) :=
  '(p, events, _) ← loop_m (λ st, length (buf st.1.1)) (drain_step budget) (Protocol "unreachable")
                     (p, events, 0);
  Ok (p, events).

Definition feed (p : WsParser) (data : bytes) : result WsError (WsParser * list WsEvent) :=
  let p := set_buf p (buf p ++ data)
             (if len data <=? cap p - len (buf p) then cap p
              else bytes_reserve (cap p) (len (buf p)) (len data)) in
  drain_events_into p [] U64_MAX.

(** ** The write half *)

Record WsEncoder : Type := mkWsEncoder {
  deflater : option DeflateCtx;
  e_role : Role;
  mask_counter : Z;
}.

Definition WsEncoder_with_role (deflater : option DeflateCtx) (role : Role) : WsEncoder :=
  mkWsEncoder deflater role 0x9e3779b9.

Definition WsEncoder_new (deflater : option DeflateCtx) : WsEncoder :=
  WsEncoder_with_role deflater Server.

(** The xorshift step on the [u32] counter. *)
Definition next_mask (x : Z) : Z :=
  let x := Z.lxor x (wrap32 (Z.shiftl x 13)) in
  let x := Z.lxor x (Z.shiftr x 17) in
  Z.lxor x (wrap32 (Z.shiftl x 5)).

Definition encode_frame (e : WsEncoder) (fin rsv1 : bool) (opcode : Z) (payload out : bytes)
    : WsEncoder * bytes :=
  let b0 := Z.lor (Z.lor (if fin then 0x80 else 0) (if rsv1 then 0x40 else 0)) opcode in
  let out := out ++ [b0] in
  let mask_bit := match e_role e with Server => 0 | Client => 0x80 end in
  let n := len payload in
  let out :=
    if n <? 126 then out ++ [Z.lor mask_bit n]
    else if n <=? 0xFFFF then out ++ [Z.lor mask_bit 126] ++ to_be_bytes 2 n
    else out ++ [Z.lor mask_bit 127] ++ to_be_bytes 8 n in
  match e_role e with
  | Client =>
      let x := next_mask (mask_counter e) in
      let mask := to_be_bytes 4 x in
      (mkWsEncoder (deflater e) (e_role e) x, out ++ mask ++ apply_mask mask payload)
  | Server => (e, out ++ payload)
  end.

Definition encode_message_into (fuel : nat) (e : WsEncoder) (kind : MessageKind)
    (payload out : bytes) : result WsError (WsEncoder * bytes) :=
  let opcode := match kind with MText => OP_TEXT | MBinary => OP_BINARY end in
  match deflater e with
  | Some d =>
      '(d, compressed) ← compress fuel d payload;
      Ok (encode_frame (mkWsEncoder (Some d) (e_role e) (mask_counter e)) true true opcode
            compressed out)
  | None => Ok (encode_frame e true false opcode payload out)
  end.

Definition encode_message (fuel : nat) (e : WsEncoder) (kind : MessageKind) (payload : bytes)
    : result WsError (WsEncoder * bytes) :=
  encode_message_into fuel e kind payload [].

Definition WsEncoder_release_idle (e : WsEncoder) : WsEncoder :=
  mkWsEncoder (DeflateCtx_release_idle <$> deflater e) (e_role e) (mask_counter e).

Definition encode_control (e : WsEncoder) (opcode : Z) (payload : bytes) : WsEncoder * bytes :=
  encode_frame e true false opcode payload [].

Definition encode_close (e : WsEncoder) (code : Z) : WsEncoder * bytes :=
  encode_control e OP_CLOSE (to_be_bytes 2 code).

(** ** Deadlines and reads

    An [Instant] and a [Duration] are nanoseconds.  [now] is what
    [Instant::now()] reads. *)

Record ReadDeadlines : Type := mkReadDeadlines {
  gap : option Z;
  message : option Z;
  gap_at : option Z;
  message_at : option Z;
  paused_at : option Z;
}.

Definition ReadDeadlines_new (gap message : option Z) : ReadDeadlines :=
  mkReadDeadlines gap message None None None.

Definition pause (d : ReadDeadlines) (now : Z) : ReadDeadlines :=
  mkReadDeadlines (gap d) (message d) None (message_at d)
    (Some (default now (paused_at d))).

Definition resume (d : ReadDeadlines) (now : Z) : ReadDeadlines :=
  match paused_at d with
  | Some at_ =>
      mkReadDeadlines (gap d) (message d) (gap_at d)
        ((λ m, m + (now - at_)) <$> message_at d) None
  | None => d
  end.

Definition next (d : ReadDeadlines) (pending : bool) (now : Z)
    : ReadDeadlines * option (Z * string) :=
  if negb pending then (d, None)
  else
    let gap_at' := match gap d with Some g => Some (default (now + g) (gap_at d)) | None => gap_at d end in
    let message_at' :=
      match message d with Some m => Some (default (now + m) (message_at d)) | None => message_at d end in
    (mkReadDeadlines (gap d) (message d) gap_at' message_at' (paused_at d),
     match (_ ← gap d; gap_at'), (_ ← message d; message_at') with
     | Some g, Some m => if m <? g then Some (m, "message read timeout"%string)
                         else Some (g, "frame read timeout"%string)
     | Some g, None => Some (g, "frame read timeout"%string)
     | None, Some m => Some (m, "message read timeout"%string)
     | None, None => None
     end).

Definition decoded (d : ReadDeadlines) (pending read completed : bool) (now : Z)
    : ReadDeadlines :=
  if negb pending then mkReadDeadlines (gap d) (message d) None None (paused_at d)
  else
    mkReadDeadlines (gap d) (message d)
      (if read then (λ g, now + g) <$> gap d else gap_at d)
      (if completed || bool_decide (message_at d = None)
       then (λ m, now + m) <$> message d else message_at d)
      (paused_at d).

(** One read of the stream: the clock before it, the clock at each poll that
    found nothing to read, when there was something, what the read returns, and
    the clock once its bytes are decoded. *)
Record Read : Type := mkRead {
  r_before : Z;
  r_polls : list Z;
  r_ready : Z;
  r_data : string + bytes;
  r_after : Z;
}.

Definition shrink (p : WsParser) : WsParser :=
  match buf p with
  | [] => if negb (read_filled p) && grown p
          then set_grown (set_buf p [] (bytes_with_capacity READ_IDLE)) (read_filled p) false
          else p
  | _ => p
  end.

(** Make room for the next read. *)
Definition reserve_read (p : WsParser) : WsParser :=
  let want := if read_filled p then READ_CHUNK else READ_IDLE in
  if cap p - len (buf p) <? want / 2 then
    let p := set_grown p (read_filled p)
      (grown p || negb (length (buf p) =? 0)%nat || (READ_IDLE <? want)) in
    set_buf p (buf p) (bytes_reserve (cap p) (len (buf p)) want)
  else p.

(** tokio's [timeout_at]: each poll polls the read first, and the timer only when
    the read has nothing.  So a poll that comes late still returns what has
    arrived meanwhile. *)
Definition timeout_at (deadline : Z) (r : Read) : bool := existsb (λ at_, deadline <=? at_) (r_polls r).

(** The bytes one read of the loop appends to the buffer. *)
Definition read_once (p : WsParser) (deadlines : ReadDeadlines) (r : Read)
    : result WsError (WsParser * ReadDeadlines) :=
  let '(deadlines, deadline) := next deadlines (assembly_pending p) (r_before r) in
  let p := reserve_read p in
  let room := cap p - len (buf p) in
  _ ← match deadline with
      | Some (at_, e) => if timeout_at at_ r then Err (Timeout e) else Ok ()
      | None => Ok ()
      end;
  match r_data r with
  | inl e => Err (Io e)
  | inr [] => Err Eof
  | inr data =>
      Ok (set_grown (set_buf p (buf p ++ data) (cap p)) (room <=? len data) (grown p), deadlines)
  end.

(** The reads after the first decoding; [None] when the stream has no more reads
    to offer and the future is still pending. *)
Fixpoint read_loop (p : WsParser) (deadlines : ReadDeadlines) (reads : list Read)
    : result WsError (option (WsParser * list WsEvent * ReadDeadlines * list Read)) :=
  match reads with
  | [] => Ok None
  | r :: reads =>
      '(p, deadlines) ← read_once p deadlines r;
      let before := completed p in
      '(p, events) ← drain_events_into p [] (max_message p);
      let p := shrink p in
      let deadlines :=
        decoded deadlines (assembly_pending p) true (negb (completed p =? before)) (r_after r) in
      match events with
      | [] => read_loop p deadlines reads
      | _ => Ok (Some (p, events, deadlines, reads))
      end
  end.

Definition read_events_into (p : WsParser) (deadlines : ReadDeadlines) (now : Z)
    (reads : list Read)
    : result WsError (option (WsParser * list WsEvent * ReadDeadlines * list Read)) :=
  let before := completed p in
  '(p, events) ← drain_events_into p [] (max_message p);
  match events with
  | [] => read_loop p deadlines reads
  | _ =>
      Ok (Some (p, events,
            decoded deadlines (assembly_pending p) false (negb (completed p =? before)) now,
            reads))
  end.
End frames.
