(* ===== verification/WsFlate.v ===== *)
(** * What the WebSocket codec relies on of flate2

    The documented behaviour of a raw deflate stream (RFC 1951) and of its
    streaming interface: [FlateStates] names the states of a stream, [Flate2Laws]
    says how calls change them.  A compressor that only writes stored blocks, and
    the decompressor that reads them, satisfy it. *)

From S2P Require Import Prelude Utf8 WsFrame.

Local Open Scope Z_scope.

(** The last [n] elements of a list. *)
Definition last_n {A} (n : Z) (l : list A) : list A := drop (length l - Z.to_nat n) l.

(** The states of a stream, as an interface to the state of the library.

    - [decoding d i o w]: the decompressor [d], given the input [i] and no more,
      writes [o] and is then between blocks with the window [w], the last 32 KiB
      of its output.
    - [deflated w z m]: behind the window [w], [z] is a compressed form of [m].
    - [idle c w]: the compressor [c] owes no output and has the window [w].
    - [compressing c w m k out]: from a compressor that was idle with the window
      [w], calls with a sync flush on the message [m] have led to [c]; they
      consumed [k] bytes of the message and wrote [out]. *)
Class FlateStates `{FL : Flate2} : Type := {
  decoding : Decompress → bytes → bytes → bytes → Prop;
  deflated : bytes → bytes → bytes → Prop;
  idle : Compress → bytes → Prop;
  compressing : Compress → bytes → bytes → nat → bytes → Prop;
}.

(** The flush of [m] is complete: what was written is all of it, ends with the
    empty stored block of a sync flush, and the next message can follow. *)
Definition flush_complete `{FS : FlateStates} (c : Compress) (w m out : bytes) : Prop :=
  compressing c w m (length m) out ∧ (∃ z, out = z ++ SYNC_MARKER) ∧
  deflated w out m ∧ idle c (last_n WINDOW (w ++ m)).

(** What zlib's manual, whose interface flate2 and its backends keep, says of a
    stream.  Decompression goes on while there is input and room; a call without
    progress means that nothing is left.  Compression with a sync flush is
    called again with more room, more than six bytes of it, until the flush is
    complete; until then each call makes progress, and what is written is finite
    in size.  How much a call consumes and writes, and how often it is called,
    is up to the library; nothing is said of a flush without input, nor of calls
    after a flush is complete, where the backends differ. *)
Class Flate2Laws `{FS : FlateStates} : Prop := {
  decoding_new : decoding Decompress_new [] [] [];
  decoding_reset d : decoding (Decompress_reset d) [] [] [];
  decoding_step d i o w room :
    decoding d i o w → (0 < room)%nat →
    ∃ d' n o1 o2, decompress_step d i room = (d', n, o1, None)
      ∧ (n ≤ length i)%nat ∧ o = o1 ++ o2 ∧ (length o1 ≤ room)%nat
      ∧ decoding d' (drop n i) o2 w ∧ (n = 0%nat → o1 = [] → i = [] ∧ o = []);
  decoding_stored d w h :
    decoding d [] [] w → len h ≤ 65535 →
    decoding d (stored_block h 0) h (last_n WINDOW (w ++ h));
  decoding_deflated d w z m :
    decoding d [] [] w → deflated w z m → decoding d z m (last_n WINDOW (w ++ m));
  deflated_longer x w z m : deflated w z m → deflated (x ++ w) z m;
  idle_new level : idle (Compress_new level) [];
  idle_reset c : idle (Compress_reset c) [];
  compressing_start c w m : idle c w → m ≠ [] → compressing c w m 0 [];
  compressing_step c w m k out room :
    compressing c w m k out → (k = length m → ¬ flush_complete c w m out) → (6 < room)%nat →
    ∃ c' n z, compress_step c (drop k m) room = (c', n, z, None)
      ∧ (k + n ≤ length m)%nat ∧ (length z ≤ room)%nat ∧ (n ≠ 0%nat ∨ z ≠ [])
      ∧ compressing c' w m (k + n) (out ++ z);
  compressing_bound w m :
    ∃ bound, ∀ c k out, compressing c w m k out → (length out ≤ bound)%nat;
}.

(** ** Stored blocks *)

(** The contents of a sequence of stored blocks. *)
Fixpoint read_stored (fuel : nat) (b : bytes) : option bytes :=
  match fuel, b with
  | _, [] => Some []
  | S fuel, h :: l0 :: l1 :: n0 :: n1 :: rest =>
      let n := from_le_bytes [l0; l1] in
      if (h =? 0) && (from_le_bytes [n0; n1] =? 65535 - n) && (0 <=? n) && (n <=? len rest)
      then (app (take (Z.to_nat n) rest)) <$> read_stored fuel (drop (Z.to_nat n) rest)
      else None
  | _, _ => None
  end.

Definition stored_contents (b : bytes) : option bytes := read_stored (length b) b.

(** A message in stored blocks, then the empty one of a sync flush. *)
Definition BLOCK : nat := 255.

Fixpoint stored_blocks (fuel : nat) (m : bytes) : bytes :=
  match fuel, m with
  | S fuel, _ :: _ => stored_block (take BLOCK m) 0 ++ stored_blocks fuel (drop BLOCK m)
  | _, _ => []
  end.

Definition stored_deflate (m : bytes) : bytes := stored_blocks (length m) m ++ 0 :: SYNC_MARKER.

(** The decompressor keeps the input of unfinished blocks and the output it had
    no room for.  The compressor keeps the output; a call first writes what is
    left of it, and when there is none, a flush, also one without input. *)
#[export] Instance stored_flate : Flate2 := {|
  Decompress := bytes * bytes;
  Decompress_new := ([], []);
  Decompress_reset _ := ([], []);
  decompress_step d i room :=
    match stored_contents (d.1 ++ i) with
    | Some x => ([], drop room (d.2 ++ x), length i, take room (d.2 ++ x), None)
    | None => (d.1 ++ i, drop room d.2, length i, take room d.2, None)
    end;
  Compress := bytes;
  Compress_new _ := [];
  Compress_reset _ := [];
  compress_step c m room :=
    match c with
    | [] => let out := stored_deflate m in (drop room out, length m, take room out, None)
    | _ => (drop room c, 0%nat, take room c, None)
    end;
|}.

(** A buffer whose capacity is what was asked for. *)
#[export] Instance exact_bytes : BytesMut := {|
  bytes_with_capacity n := n;
  bytes_reserve cap n more := Z.max cap (n + more);
|}.

Lemma read_stored_fuel f g b x : read_stored f b = Some x → (f ≤ g)%nat → read_stored g b = Some x.
Proof.
  revert g b x. induction f as [|f IH]; intros [|g] [|h [|l0 [|l1 [|n0 [|n1 r]]]]] x H Hg;
    simpl in *; try done; try lia.
  destruct (_ && _); [|done]. apply fmap_Some in H as (y & Hy & ->).
  by rewrite (IH g _ y) by (done || lia).
Qed.

Lemma read_stored_app f g a b x y :
  read_stored f a = Some x → read_stored g b = Some y → read_stored (f + g) (a ++ b) = Some (x ++ y).
Proof.
  intros Ha Hb. revert a x Ha. induction f as [|f IH]; intros a x Ha.
  { destruct a; simplify_eq/=. done. }
  destruct a as [|h [|l0 [|l1 [|n0 [|n1 r]]]]]; simplify_eq; try done.
  { rewrite app_nil_l. simpl in Ha. simplify_eq. by apply (read_stored_fuel g); [|lia]. }
  simpl in Ha |- *.
  revert Ha. destruct ((h =? 0) && _ && _) eqn:Hh; simpl; [|done].
  destruct (Z.leb_spec (l0 + 256 * (l1 + 256 * 0)) (len r)) as [Hl|]; [|done].
  rewrite (proj2 (Z.leb_le _ _)) by (rewrite length_app; lia).
  intros Ha. apply fmap_Some in Ha as (x' & Hx & ->).
  assert (Z.to_nat (l0 + 256 * (l1 + 256 * 0)) ≤ length r)%nat by (bool_to_prop; lia).
  rewrite take_app_le, drop_app_le by done. rewrite (IH _ x') by done. simpl.
  by rewrite app_assoc.
Qed.

Lemma stored_contents_app a b x y :
  stored_contents a = Some x → stored_contents b = Some y → stored_contents (a ++ b) = Some (x ++ y).
Proof.
  intros Ha Hb. unfold stored_contents. rewrite length_app. by apply read_stored_app.
Qed.

Lemma stored_contents_block h : len h ≤ 65535 → stored_contents (stored_block h 0) = Some h.
Proof.
  intros Hh. unfold stored_contents, stored_block.
  rewrite Z.mod_small by lia.
  assert (from_le_bytes (to_le_bytes 2 (len h)) = len h) as H1 by (apply from_to_le_bytes; lia).
  assert (from_le_bytes (to_le_bytes 2 (65535 - len h)) = 65535 - len h) as H2
    by (apply from_to_le_bytes; lia).
  pose proof (length_to_le_bytes 2 (len h)) as L1.
  pose proof (length_to_le_bytes 2 (65535 - len h)) as L2.
  destruct (to_le_bytes 2 (len h)) as [|a0 [|a1 [|]]]; try done.
  destruct (to_le_bytes 2 (65535 - len h)) as [|b0 [|b1 [|]]]; try done.
  apply (read_stored_fuel 1); [|simpl; lia].
  change (drop (Z.to_nat 0) h ++ take (Z.to_nat 0) h) with (h ++ []). rewrite app_nil_r.
  simpl in H1, H2 |- *. rewrite H1, H2, Nat2Z.id, take_ge, drop_ge by lia.
  rewrite Z.eqb_refl, !(proj2 (Z.leb_le _ _)) by lia. simpl. by rewrite app_nil_r.
Qed.

Lemma stored_contents_blocks fuel m : (length m ≤ fuel)%nat → stored_contents (stored_blocks fuel m) = Some m.
Proof.
  revert m. induction fuel as [|fuel IH]; intros [|b m] Hf; simpl in Hf; try done; [lia|].
  cbn [stored_blocks]. rewrite <-(take_drop BLOCK (b :: m)) at 3. apply stored_contents_app.
  - apply stored_contents_block. rewrite length_take. unfold BLOCK. lia.
  - apply IH. rewrite length_drop. unfold BLOCK. simpl length. lia.
Qed.

Lemma stored_contents_deflate m : stored_contents (stored_deflate m) = Some m.
Proof.
  rewrite <-(app_nil_r m) at 2. unfold stored_deflate. apply stored_contents_app; [|done].
  by apply stored_contents_blocks.
Qed.

(** A message is all consumed by the first call, or not at all. *)
#[export] Instance stored_states : FlateStates (FL := stored_flate) := {|
  decoding (d : @Decompress stored_flate) i o _ := ∃ x, stored_contents (d.1 ++ i) = Some x ∧ o = d.2 ++ x;
  deflated _ z m := stored_contents z = Some m;
  idle (c : @Compress stored_flate) _ := c = [];
  compressing (c : @Compress stored_flate) _ m k out := m ≠ [] ∧
    (k = 0%nat ∧ out = [] ∧ c = [] ∨ k = length m ∧ out ++ c = stored_deflate m);
|}.

Lemma stored_complete (c : @Compress stored_flate) w m out : m ≠ [] → out ++ c = stored_deflate m → c = [] →
  flush_complete (FL := stored_flate) c w m out.
Proof.
  intros Hm Hout ->. split_and!; [by split; [|right]| |by rewrite app_nil_r in Hout; subst out; apply stored_contents_deflate|done].
  rewrite app_nil_r in Hout. subst out. exists (stored_blocks (length m) m ++ [0]). unfold stored_deflate.
  by rewrite <-app_assoc.
Qed.

Lemma take_nonempty {A} n (l : list A) : (0 < n)%nat → l ≠ [] → take n l ≠ [].
Proof. destruct n, l; simpl; [lia|lia|done|done]. Qed.

Lemma stored_compressing_step (c : @Compress stored_flate) w m k out room :
  compressing c w m k out → (k = length m → ¬ flush_complete c w m out) → (6 < room)%nat →
  ∃ c' n z, compress_step c (drop k m) room = (c', n, z, None)
    ∧ (k + n ≤ length m)%nat ∧ (length z ≤ room)%nat ∧ (n ≠ 0%nat ∨ z ≠ [])
    ∧ compressing c' w m (k + n) (out ++ z).
Proof.
  intros [Hm [(-> & -> & ->)|[-> Hout]]] Hnot Hroom.
  - rewrite drop_0. eexists _, (length m), _. split; [done|]. split; [lia|]. split; [rewrite length_take; lia|].
    split; [left; by destruct m|]. split; [done|right]. split; [done|]. apply take_drop.
  - destruct c as [|b c].
    { destruct (Hnot eq_refl). by apply stored_complete. }
    eexists _, 0%nat, _. split; [done|]. split; [lia|]. split; [rewrite length_take; lia|].
    split; [right; apply take_nonempty; [lia|done]|]. split; [done|right]. split; [lia|].
    by rewrite <-app_assoc, take_drop.
Qed.

#[export] Instance stored_flate_laws : Flate2Laws (FL := stored_flate).
Proof.
  split.
  - by exists [].
  - intros d. by exists [].
  - intros [b pend] i o w room (x & Hx & ->) Hr. simpl in *. rewrite Hx.
    eexists ([], drop room (pend ++ x)), (length i), (take room (pend ++ x)), (drop room (pend ++ x)).
    split; [done|]. split; [done|]. split; [by rewrite take_drop|].
    split; [rewrite length_take; lia|]. split.
    { exists []. simpl. by rewrite drop_all, app_nil_r. }
    intros Hi Ho. split; [by apply nil_length_inv|].
    destruct (pend ++ x); [done|]. by destruct room; [lia|].
  - intros [b pend] w h (x & Hx & Hn) Hh. simpl in *. symmetry in Hn. apply app_nil in Hn as [-> ->].
    exists h. split; [|done]. rewrite app_nil_r in Hx.
    by apply (stored_contents_app _ _ [] h), stored_contents_block.
  - intros [b pend] w z m (x & Hx & Hn) Hz. simpl in *. symmetry in Hn. apply app_nil in Hn as [-> ->].
    exists m. split; [|done]. rewrite app_nil_r in Hx. by apply (stored_contents_app _ _ [] m).
  - done.
  - done.
  - done.
  - intros c w m -> Hm. split; [done|by left].
  - apply stored_compressing_step.
  - intros w m. exists (length (stored_deflate m)). intros c k out [_ [(_ & -> & _)|[_ <-]]]; [simpl; lia|].
    rewrite length_app. lia.
Qed.

(** A connection without the extension never calls the library. *)
Definition no_flate : Flate2 := {|
  Decompress := unit;
  Decompress_new := tt;
  Decompress_reset d := d;
  decompress_step d _ _ := (d, 0%nat, [], None);
  Compress := unit;
  Compress_new _ := tt;
  Compress_reset c := c;
  compress_step c _ _ := (c, 0%nat, [], None);
|}.
