(* ===== verification/WsFrameSpec.v ===== *)
(** * WebSocket frames: what the codec of frame.rs guarantees

    Bytes cut at any point give the events of the whole; what one endpoint
    encodes the other decodes, compressed or not and whenever either drops its
    idle contexts; what a connection can make the parser hold is bounded. *)

From S2P Require Import Prelude Utf8 Bits WsFrame WsFlate.

Local Open Scope Z_scope.

(** ** Frames *)

(** The role at the other end of the connection. *)
Definition peer (r : Role) : Role := match r with Server => Client | Client => Server end.

(** A frame the parser [p] can receive: its limits and the flags its opcode
    allows. *)
Definition frame_fits `{FL : Flate2} (p : WsParser) (f r : bool) (op : Z) (pl : bytes) : Prop :=
  0 ≤ op < 16 ∧ len pl ≤ max_message p ∧ len pl < 2 ^ 63
  ∧ (r = true → inflater p ≠ None ∧ op ≠ OP_CONT ∧ op < 8)
  ∧ (8 ≤ op → f = true ∧ len pl ≤ 125).

Lemma apply_mask_length mask pl : length mask = 4%nat → length (apply_mask mask pl) = length pl.
Proof.
  intros Hm. destruct mask as [|m0 [|m1 [|m2 [|m3 [|]]]]]; simplify_eq/=.
  assert (∀ n pl, (length pl ≤ n)%nat → length (apply_mask [m0; m1; m2; m3] pl) = length pl) as H.
  { induction n as [|n IH]; intros [|a [|b [|c [|d r]]]] Hn; simpl in *; try done; try lia.
    rewrite IH; lia. }
  by apply (H (length pl)).
Qed.

Lemma apply_mask_involutive mask pl :
  length mask = 4%nat → apply_mask mask (apply_mask mask pl) = pl.
Proof.
  intros Hm. destruct mask as [|m0 [|m1 [|m2 [|m3 [|]]]]]; simplify_eq/=.
  assert (∀ n pl, (length pl ≤ n)%nat →
    apply_mask [m0; m1; m2; m3] (apply_mask [m0; m1; m2; m3] pl) = pl) as H.
  { assert (∀ a b, Z.lxor (Z.lxor a b) b = a) as Hx.
    { intros a b. by rewrite Z.lxor_assoc, Z.lxor_nilpotent, Z.lxor_0_r. }
    induction n as [|n IH]; intros [|a [|b [|c [|d r]]]] Hn; simpl in *; try lia;
      rewrite ?Hx; try done. rewrite IH by lia. done. }
  by apply (H (length pl)).
Qed.

Lemma has_bit_b0 (f r : bool) op :
  0 ≤ op < 16 →
  let b0 := Z.lor (Z.lor (if f then 0x80 else 0) (if r then 0x40 else 0)) op in
  has_bit b0 0x80 = f ∧ has_bit b0 0x40 = r ∧ has_bit b0 0x20 = false
  ∧ has_bit b0 0x10 = false ∧ Z.land b0 0x0F = op.
Proof.
  intros Hop. assert (op ∈ seqZ 0 16) as Hin by (apply elem_of_seqZ; lia).
  revert Hin. apply (Forall_forall (λ op,
    let b0 := Z.lor (Z.lor (if f then 0x80 else 0) (if r then 0x40 else 0)) op in
    has_bit b0 0x80 = f ∧ has_bit b0 0x40 = r ∧ has_bit b0 0x20 = false
    ∧ has_bit b0 0x10 = false ∧ Z.land b0 0x0F = op)).
  destruct f, r; repeat constructor.
Qed.

Lemma has_bit_b1 (m : bool) n :
  0 ≤ n < 128 →
  let b1 := Z.lor (if m then 0x80 else 0) n in has_bit b1 0x80 = m ∧ Z.land b1 0x7F = n.
Proof.
  intros Hn. assert (n ∈ seqZ 0 128) as Hin by (apply elem_of_seqZ; lia).
  revert Hin. apply (Forall_forall (λ n,
    let b1 := Z.lor (if m then 0x80 else 0) n in has_bit b1 0x80 = m ∧ Z.land b1 0x7F = n)).
  destruct m; repeat constructor.
Qed.
Local Arguments to_be_bytes : simpl never.

(** The bytes [encode_frame] appends. *)
Lemma encode_frame_out `{FL : Flate2} e f r op pl out :
  encode_frame e f r op pl out =
    ((encode_frame e f r op pl []).1, out ++ (encode_frame e f r op pl []).2).
Proof.
  unfold encode_frame. destruct (e_role e); simpl; repeat case_match; simpl;
    by rewrite <-?app_assoc.
Qed.

(** The length field and the mask and payload of an encoded frame. *)
Definition length_field (m : bool) (n : Z) : bytes :=
  if n <? 126 then [Z.lor (if m then 0x80 else 0) n]
  else if n <=? 0xFFFF then [Z.lor (if m then 0x80 else 0) 126] ++ to_be_bytes 2 n
  else [Z.lor (if m then 0x80 else 0) 127] ++ to_be_bytes 8 n.

Definition is_client (r : Role) : bool := match r with Server => false | Client => true end.

Definition frame_body `{FL : Flate2} (e : WsEncoder) (pl : bytes) : bytes :=
  match e_role e with
  | Client => let mask := to_be_bytes 4 (next_mask (mask_counter e)) in
              mask ++ apply_mask mask pl
  | Server => pl
  end.

Lemma encode_frame_shape `{FL : Flate2} e f r op pl :
  (encode_frame e f r op pl []).2 =
    (Z.lor (Z.lor (if f then 0x80 else 0) (if r then 0x40 else 0)) op
       :: length_field (is_client (e_role e)) (len pl)) ++ frame_body e pl.
Proof.
  unfold encode_frame, length_field, frame_body.
  destruct (e_role e); cbn -[to_be_bytes]; repeat case_match;
    cbn -[to_be_bytes]; by rewrite <-?app_assoc.
Qed.

Lemma frame_payload_encoded `{FL : Flate2} e pl h rest :
  frame_payload (h ++ frame_body e pl ++ rest) (is_client (e_role e)) (length h) (length pl) =
    Some (pl, length (h ++ frame_body e pl)).
Proof.
  unfold frame_payload, frame_body. destruct (e_role e); cbn [is_client].
  - rewrite (proj2 (Nat.ltb_ge _ _)) by (rewrite !length_app; lia).
    rewrite length_app. unfold slice. rewrite drop_app_length.
    replace (length h + length pl - length h)%nat with (length pl) by lia.
    by rewrite take_app_length.
  - pose proof (length_to_be_bytes 4 (next_mask (mask_counter e))) as Hm.
    set (mask := to_be_bytes 4 _) in *. clearbody mask.
    rewrite (proj2 (Nat.ltb_ge _ _)) by (rewrite !length_app, apply_mask_length; lia).
    rewrite !length_app, apply_mask_length by done. unfold slice.
    rewrite <-Nat.add_assoc, <-!drop_drop, drop_app_length, <-!app_assoc.
    replace (length h + 4 - length h)%nat with (length mask) by lia.
    replace (length h + (4 + length pl) - (length h + 4))%nat
      with (length (apply_mask mask pl)) by (rewrite apply_mask_length; lia).
    rewrite take_app_length. rewrite <-Hm, drop_app_length, take_app_length.
    by rewrite apply_mask_involutive.
Qed.

Lemma frame_length_encoded (m : bool) n b0 rest :
  0 ≤ n < 2 ^ 63 →
  ∃ x l, length_field m n = x :: l ∧ has_bit x 0x80 = m
    ∧ frame_length (b0 :: length_field m n ++ rest) x = Ok (Some (n, S (length (length_field m n)))).
Proof.
  intros Hn. unfold length_field, frame_length.
  destruct (Z.ltb_spec n 126).
  { destruct (has_bit_b1 m n) as [H1 H2]; [lia|]. eexists _, []. split; [done|].
    split; [done|]. rewrite H2.
    destruct (Z.eqb_spec n 126), (Z.eqb_spec n 127); try lia. done. }
  destruct (Z.leb_spec n 0xFFFF).
  - destruct (has_bit_b1 m 126) as [H1 H2]; [lia|].
    assert (from_be_bytes (to_be_bytes 2 n) = n) as Hf by (apply from_to_be_bytes; lia).
    revert Hf. generalize (length_to_be_bytes 2 n). generalize (to_be_bytes 2 n).
    intros [|x0 [|x1 [|]]] Hl Hf; simplify_eq/=. eexists _, _. do 2 (split; [done|]).
    by rewrite H2.
  - destruct (has_bit_b1 m 127) as [H1 H2]; [lia|].
    assert (from_be_bytes (to_be_bytes 8 n) = n) as Hf by (apply from_to_be_bytes; lia).
    revert Hf. generalize (length_to_be_bytes 8 n). generalize (to_be_bytes 8 n).
    intros bs Hl Hf. eexists _, _. do 2 (split; [done|]).
    rewrite H2. change (127 =? 126) with false. change (127 =? 127) with true. cbv iota.
    rewrite (proj2 (Nat.ltb_ge _ _)) by (simpl; rewrite length_app; lia).
    change (slice 2 10 (b0 :: ([_] ++ bs) ++ rest)) with (take 8 (bs ++ rest)).
    rewrite take_app_length' by lia. rewrite Hf.
    unfold has_bit. rewrite Z.land_comm, <-(Z.mul_1_l (2 ^ 63)), land_shifted by lia.
    by rewrite length_app, Hl.
Qed.

Section frames.
Context `{FL : Flate2} `{BM : BytesMut}.

(** The parser reads a frame its peer encoded off the front of its buffer. *)
Lemma parse_encoded e f r op pl rest p :
  role p = peer (e_role e) → frame_fits p f r op pl →
  parse_frame p ((encode_frame e f r op pl []).2 ++ rest) =
    Ok (Some (mkRawFrame f r op pl, length (encode_frame e f r op pl []).2)).
Proof.
  intros Hr (Hop & Hmax & H63 & Hrsv & Hctl).
  destruct (has_bit_b0 f r op Hop) as (B1 & B2 & B3 & B4 & B5).
  set (b0 := Z.lor _ op) in *.
  destruct (frame_length_encoded (is_client (e_role e)) (len pl) b0 (frame_body e pl ++ rest))
    as (b1 & l & HL & B6 & HF); [lia|].
  pose proof (frame_payload_encoded e pl
    (b0 :: length_field (is_client (e_role e)) (len pl)) rest) as HP.
  rewrite encode_frame_shape. fold b0. rewrite <-app_assoc, <-!app_comm_cons.
  rewrite <-!app_comm_cons in HP.
  unfold parse_frame. rewrite HL at 1. cbn [app]. rewrite B1, B2, B3, B4, B5, B6. cbn [orb].
  assert (r && bool_decide (inflater p = None) = false) as ->.
  { destruct r; [|done]. destruct Hrsv as (? & _); [done|]. by rewrite bool_decide_false. }
  assert (r && ((op =? OP_CONT) || (8 <=? op)) = false) as ->.
  { destruct r; [|done]. destruct Hrsv as (_ & H0 & H8); [done|]. simpl.
    by rewrite (proj2 (Z.eqb_neq _ _) H0), (proj2 (Z.leb_gt _ _) H8). }
  assert ((8 <=? op) && negb f = false) as ->.
  { destruct (Z.leb_spec 8 op); [|done]. by destruct Hctl as [-> _]. }
  assert ((8 <=? op) && (125 <? len pl) = false) as Hc.
  { destruct (Z.leb_spec 8 op); [|done]. destruct Hctl as [_ ?]; [done|].
    by apply Z.ltb_ge. }
  rewrite HF. cbn [mbind result_bind]. rewrite Hc, (proj2 (Z.ltb_ge _ _) Hmax), Nat2Z.id.
  rewrite length_cons in HP. rewrite HP, Hr. by destruct (e_role e).
Qed.

(** More bytes at the end change nothing about a frame already there. *)
Lemma frame_length_app b b1 x :
  frame_length b b1 ≠ Ok None → frame_length (b ++ x) b1 = frame_length b b1.
Proof.
  unfold frame_length. rewrite length_app.
  destruct (_ =? 126); [|destruct (_ =? 127); [|done]].
  - destruct (Nat.ltb_spec (length b) 4); [done|]. intros _.
    by rewrite (proj2 (Nat.ltb_ge _ _)), slice_app_le by lia.
  - destruct (Nat.ltb_spec (length b) 10); [done|]. intros _.
    by rewrite (proj2 (Nat.ltb_ge _ _)), slice_app_le by lia.
Qed.

Lemma frame_payload_app b m off n x r :
  frame_payload b m off n = Some r → frame_payload (b ++ x) m off n = Some r.
Proof.
  unfold frame_payload. rewrite length_app. destruct m.
  - destruct (Nat.ltb_spec (length b) (off + 4 + n)); [done|]. intros <-.
    by rewrite (proj2 (Nat.ltb_ge _ _)), !slice_app_le by lia.
  - destruct (Nat.ltb_spec (length b) (off + n)); [done|]. intros <-.
    by rewrite (proj2 (Nat.ltb_ge _ _)), !slice_app_le by lia.
Qed.

Lemma parse_frame_app p b x :
  parse_frame p b ≠ Ok None → parse_frame p (b ++ x) = parse_frame p b.
Proof.
  unfold parse_frame. destruct b as [|b0 [|b1 b]]; [done..|].
  rewrite <-!app_comm_cons. repeat (case_match; [done|]).
  intros Hne.
  assert (frame_length (b0 :: b1 :: b) b1 ≠ Ok None ∨ role p = Server ∧ has_bit b1 0x80 = false
    ∨ role p = Client ∧ has_bit b1 0x80 = true) as Hcase.
  { destruct (frame_length _ _) as [[|]|]; [by left| |by left].
    destruct (role p), (has_bit b1 0x80); try (by destruct Hne); eauto. }
  destruct Hcase as [HF|[[-> ->]|[-> ->]]]; [|done..].
  pose proof (frame_length_app _ _ x HF) as HF'. rewrite <-!app_comm_cons in HF'.
  rewrite HF'. destruct (frame_length _ _) as [[[n off]|]|e]; [|done..].
  revert Hne. cbn [mbind result_bind]. repeat (case_match; [done|]).
  destruct (frame_payload (b0 :: b1 :: b) _ _ _) as [[pl k]|] eqn:HP.
  - apply (frame_payload_app _ _ _ _ x) in HP. rewrite <-!app_comm_cons in HP. by rewrite HP.
  - destruct (role p), (has_bit b1 0x80); repeat (case_match; [done|]);
      first [done | by intros []].
Qed.

(** What the parser found: a frame within its limit, all of it there, or fewer
    bytes than the largest frame has. *)
Lemma frame_length_off b b1 k off :
  (2 ≤ length b)%nat → frame_length b b1 = Ok (Some (k, off)) → (2 ≤ off ≤ 10 ∧ off ≤ length b)%nat.
Proof.
  unfold frame_length. intros Hb. destruct (_ =? 126); [|destruct (_ =? 127)].
  - destruct (Nat.ltb_spec (length b) 4); intros; simplify_eq; lia.
  - destruct (Nat.ltb_spec (length b) 10); [done|].
    destruct (has_bit _ _); intros; simplify_eq; lia.
  - intros; simplify_eq; lia.
Qed.

Lemma frame_payload_len b m off n pl t :
  frame_payload b m off n = Some (pl, t) → (off ≤ t ≤ length b ∧ length pl = n)%nat.
Proof.
  unfold frame_payload. destruct m.
  - destruct (Nat.ltb_spec (length b) (off + 4 + n)); [done|]. intros [= <- <-].
    split; [lia|]. rewrite apply_mask_length; rewrite length_slice; lia.
  - destruct (Nat.ltb_spec (length b) (off + n)); [done|]. intros [= <- <-].
    split; [lia|]. rewrite length_slice; lia.
Qed.

Lemma frame_length_None b b1 : frame_length b b1 = Ok None → (length b < 10)%nat.
Proof.
  unfold frame_length. destruct (_ =? 126); [|destruct (_ =? 127)]; [..|done].
  - destruct (Nat.ltb_spec (length b) 4); intros; [lia|done].
  - destruct (Nat.ltb_spec (length b) 10); intros; [lia|]. by destruct (has_bit _ _).
Qed.

Lemma frame_payload_None b m off n : frame_payload b m off n = None → (length b < off + 4 + n)%nat.
Proof.
  unfold frame_payload. destruct m.
  - destruct (Nat.ltb_spec (length b) (off + 4 + n)); [lia|done].
  - destruct (Nat.ltb_spec (length b) (off + n)); [lia|done].
Qed.

Lemma parse_frame_inv p b o :
  parse_frame p b = Ok o →
  (length b < 2)%nat ∧ o = None ∨
  (2 ≤ length b)%nat ∧ ∃ b1 m, frame_length b b1 = Ok None ∧ o = None ∨
    ∃ k off, frame_length b b1 = Ok (Some (k, off)) ∧ k ≤ max_message p
      ∧ frame_payload b m off (Z.to_nat k) = (λ '(fr, n), (payload fr, n)) <$> o.
Proof.
  unfold parse_frame. destruct b as [|b0 [|b1 b]];
    [intros [= <-]; left; simpl; split; [lia|done]..|].
  repeat (case_match; [done|]). intros Ho. right. split; [simpl; lia|].
  exists b1, (has_bit b1 0x80).
  destruct (frame_length (b0 :: b1 :: b) b1) as [[[k off]|]|];
    [|left; destruct (role p), (has_bit b1 0x80); by simplify_eq/=
     |by destruct (role p), (has_bit b1 0x80)].
  right. exists k, off. cbn [mbind result_bind] in Ho.
  destruct (frame_payload (b0 :: b1 :: b) _ _ _) as [[pl n]|];
    repeat case_match; simplify_eq; bool_to_prop; eauto 10.
Qed.

Lemma parse_frame_size p b fr n :
  parse_frame p b = Ok (Some (fr, n)) → (2 ≤ n ≤ length b)%nat.
Proof.
  intros H. destruct (parse_frame_inv _ _ _ H)
    as [[_ ?]|(Hb & b1 & m & [[_ ?]|(k & off & HF & Hk & HP)])]; [done..|].
  apply frame_length_off in HF; [|done]. apply frame_payload_len in HP. lia.
Qed.

Lemma parse_frame_limit p b fr n :
  0 ≤ max_message p → parse_frame p b = Ok (Some (fr, n)) → len (payload fr) ≤ max_message p.
Proof.
  intros Hmax H. destruct (parse_frame_inv _ _ _ H)
    as [[_ ?]|(Hb & b1 & m & [[_ ?]|(k & off & HF & Hk & HP)])]; [done..|].
  apply frame_payload_len in HP. lia.
Qed.

Lemma parse_frame_None p b :
  0 ≤ max_message p → parse_frame p b = Ok None → len b < max_message p + 14.
Proof.
  intros Hmax H. destruct (parse_frame_inv _ _ _ H)
    as [[? _]|(Hb & b1 & m & [[HF _]|(k & off & HF & Hk & HP)])]; [lia|..].
  - apply frame_length_None in HF. lia.
  - apply frame_length_off in HF; [|done]. apply frame_payload_None in HP. lia.
Qed.

(** Handling a frame does not look at the buffer. *)
Lemma handle_frame_buf p fr b c :
  handle_frame (set_buf p b c) fr = ('(p', ev) ← handle_frame p fr; Ok (set_buf p' b c, ev)).
Proof.
  unfold handle_frame, maybe_inflate. simpl.
  destruct (frag_opcode p); repeat (case_match; try done); simpl;
    try (destruct (check_close _); done);
    by destruct (decompress _ _ _) as [[]|].
Qed.

(** The inflater refuses to write more than its limit. *)
Lemma inflate_into_bound inner input out m inner' out' :
  len out ≤ m → inflate_into inner input out m = Ok (inner', out') → len out' ≤ m.
Proof.
  intros Hm H. apply (loop_m_rule _ _ (λ st, len st.2 ≤ m) (λ r, len r.2 ≤ m)) in H;
    [done| | |done]; intros [[d k] o] r Ho Hs; unfold inflate_step in Hs;
    destruct (decompress_step _ _ _) as [[[d' n] w] [e|]]; try done;
    repeat case_match; bool_to_prop; simplify_eq/=; lia.
Qed.

Lemma decompress_bound c pl m c' out :
  0 ≤ m → decompress c pl m = Ok (c', out) → len out ≤ m.
Proof.
  unfold decompress. intros Hm H. inv_bind H. inv_bind H. destruct v0 as [d o]. simplify_eq.
  eapply inflate_into_bound; [|done]. simpl. lia.
Qed.

Lemma inflate_limit_bounds n m : 0 ≤ m → 0 ≤ inflate_limit n m ≤ m.
Proof.
  intros Hm. unfold inflate_limit, inflate_allowance, INFLATE_ENVELOPE.
  pose proof (Z.div_pos m 2). lia.
Qed.

Lemma maybe_inflate_spec p r pl p' out :
  0 ≤ max_message p → len pl ≤ max_message p → maybe_inflate p r pl = Ok (p', out) →
  (∃ i, p' = set_inflater p i) ∧ len out ≤ max_message p.
Proof.
  unfold maybe_inflate. intros Hm Hl H. destruct r.
  - destruct (inflater p) as [d|]; [|done]. inv_bind H. destruct v as [d' o]. simplify_eq.
    split; [by eexists|]. pose proof (inflate_limit_bounds (len pl) (max_message p)).
    apply decompress_bound in Hv; lia.
  - simplify_eq. split; [exists (inflater p'); by destruct p'|done].
Qed.

(** The payload an event carries. *)
Definition event_payload (e : WsEvent) : bytes :=
  match e with Message _ b | Ping b | Pong b | Close b => b end.

(** What the limits promise of a parser: its fragments fit the limit. *)
Definition parser_ok (p : WsParser) : Prop :=
  0 ≤ max_message p ∧ len (frag p) ≤ max_message p.

Lemma handle_frame_spec p fr p' ev :
  parser_ok p → len (payload fr) ≤ max_message p → handle_frame p fr = Ok (p', ev) →
  max_message p' = max_message p ∧ buf p' = buf p ∧ parser_ok p'
  ∧ ∀ e, ev = Some e → len (event_payload e) ≤ max_message p.
Proof.
  unfold handle_frame. intros [Hm Hf] Hl H.
  repeat case_match; bool_to_prop; simplify_eq/=; try (by repeat split; [..|intros; simplify_eq]).
  - inv_bind H. simplify_eq. by repeat split; [..|intros; simplify_eq].
  - inv_bind H. destruct v as [q o]. simplify_eq.
    apply maybe_inflate_spec in Hv as [[i ->] Ho]; [|done..].
    by repeat split; [..|intros; simplify_eq].
  - inv_bind H. destruct v as [q o]. simplify_eq.
    apply maybe_inflate_spec in Hv as [[i ->] Ho]; [|done..].
    repeat split; simpl; try done. by intros; simplify_eq.
Qed.

(** ** Draining the buffer *)

(** One frame: the parser after it and the event it completed. *)
Definition frame_step (p : WsParser) : result WsError (option (WsParser * option WsEvent)) :=
  frame ← parse_frame p (buf p);
  match frame with
  | None => Ok None
  | Some (frame, n) =>
      '(p, event) ← handle_frame (advance p n) frame;
      Ok (Some (match frag_opcode p with
                | None => set_completed p (wrap64 (completed p + 1))
                | Some _ => p
                end, event))
  end.

Definition opt_events (o : option WsEvent) : list WsEvent :=
  match o with Some e => [e] | None => [] end.

Definition total_bytes (evs : list WsEvent) : Z := foldr (λ e n, event_bytes e + n) 0 evs.

(** Bytes of messages a parser decoded, as the budget counts them. *)
Definition count_decoded (dec : Z) (o : option WsEvent) : Z :=
  match o with Some e => sat_add U64_MAX dec (event_bytes e) | None => dec end.

Lemma drain_step_eq bud p ev dec :
  drain_step bud (p, ev, dec) =
    (r ← frame_step p;
     Ok (match r with
         | None => inr (p, ev, dec)
         | Some (p', o) =>
             (if bud <=? count_decoded dec o then inr else inl)
               (p', ev ++ opt_events o, count_decoded dec o)
         end)).
Proof.
  unfold drain_step, frame_step, try_parse_frame.
  destruct (parse_frame p (buf p)) as [[[fr n]|]|e]; simpl; [|done..].
  destruct (handle_frame (advance p n) fr) as [[p' [e|]]|]; simpl; [..|done];
    rewrite ?app_nil_r; by destruct (bud <=? _).
Qed.

Lemma frame_step_spec p p' o :
  parser_ok p → frame_step p = Ok (Some (p', o)) →
  parser_ok p' ∧ max_message p' = max_message p ∧ (length (buf p') + 2 ≤ length (buf p))%nat
  ∧ ∀ e, o = Some e → len (event_payload e) ≤ max_message p.
Proof.
  unfold frame_step. intros Hp H. inv_bind H. destruct v as [[fr n]|]; [|done].
  pose proof (parse_frame_size _ _ _ _ Hv) as Hn.
  apply parse_frame_limit in Hv as Hl; [|by destruct Hp].
    inv_bind H. destruct v as [q ev].
  apply handle_frame_spec in Hv0 as (Hm & Hb & Hq & He); [|done..]. simpl in Hb.
  assert ((length (buf q) + 2 ≤ length (buf p))%nat) by (rewrite Hb, length_drop; lia).
  destruct (frag_opcode q); by simplify_eq.
Qed.

(** The parser [q] is [p] with the bytes [x] behind its own; capacities differ. *)
Definition ext (x : bytes) (p q : WsParser) : Prop := ∃ c, q = set_buf p (buf p ++ x) c.

Lemma frame_step_ext x p q :
  ext x p q →
  match frame_step p with
  | Ok None => True
  | Ok (Some (p', o)) => ∃ q', ext x p' q' ∧ frame_step q = Ok (Some (q', o))
  | Err e => frame_step q = Err e
  end.
Proof.
  intros [c ->]. unfold frame_step. simpl.
  change (parse_frame (set_buf p (buf p ++ x) c)) with (parse_frame p).
  destruct (parse_frame p (buf p)) as [[[fr n]|]|e] eqn:HP; simpl; [|done|].
  - rewrite parse_frame_app, HP by (by rewrite HP). simpl.
    apply parse_frame_size in HP. unfold advance. simpl. rewrite !handle_frame_buf.
    destruct (handle_frame p fr) as [[p' o]|e]; simpl; [|done].
    rewrite drop_app_le by lia. destruct (frag_opcode p'); eexists; (split; [by eexists|done]).
  - by rewrite parse_frame_app, HP by (by rewrite HP).
Qed.

Lemma frame_step_None p : frame_step p = Ok None ↔ parse_frame p (buf p) = Ok None.
Proof.
  unfold frame_step. destruct (parse_frame p (buf p)) as [[[fr n]|]|e]; simpl; [|done..].
  destruct (handle_frame _ _) as [[]|]; simpl; by split.
Qed.

Definition drain (bud : Z) (st : WsParser * list WsEvent * Z)
    : result WsError (WsParser * list WsEvent * Z) :=
  loop_m (λ st, length (buf st.1.1)) (drain_step bud) (Protocol "unreachable") st.

Lemma drain_unfold bud p ev dec :
  parser_ok p →
  drain bud (p, ev, dec) =
    (r ← frame_step p;
     match r with
     | None => Ok (p, ev, dec)
     | Some (p', o) =>
         (if bud <=? count_decoded dec o then Ok else drain bud)
           (p', ev ++ opt_events o, count_decoded dec o)
     end).
Proof.
  intros Hp. unfold drain at 1.
  rewrite (loop_m_unfold _ _ (λ st, parser_ok st.1.1)); [..|done].
  - rewrite drain_step_eq. destruct (frame_step p) as [[[p' o]|]|]; simpl; [|done..].
    by destruct (bud <=? _).
  - intros [[q evs] d] [[q' evs'] d'] Hq. rewrite drain_step_eq.
    destruct (frame_step q) as [[[q'' o]|]|] eqn:Hs; simpl; [|done..].
    destruct (bud <=? _); intros; simplify_eq/=.
    apply frame_step_spec in Hs as (? & ? & ? & ?); [|done]. split; [done|lia].
Qed.

(** Draining without a budget: the events before the buffer holds no whole frame,
    or before an error. *)
Inductive drains : WsParser → list WsEvent → result WsError WsParser → Prop :=
| drains_stop p : frame_step p = Ok None → drains p [] (Ok p)
| drains_err p e : frame_step p = Err e → drains p [] (Err e)
| drains_frame p p' o evs r :
    frame_step p = Ok (Some (p', o)) → drains p' evs r → drains p (opt_events o ++ evs) r.

Lemma drains_total p : parser_ok p → ∃ evs r, drains p evs r.
Proof.
  remember (length (buf p)) as n eqn:Hn. revert p Hn.
  induction (lt_wf n) as [n _ IH]. intros p -> Hp.
  destruct (frame_step p) as [[[p' o]|]|e] eqn:Hs; [|by eexists _, _; constructor..].
  destruct (frame_step_spec _ _ _ Hp Hs) as (Hp' & _ & Hl & _).
  destruct (IH (length (buf p'))) with (p := p') as (evs & r & Hd); [lia|done..|].
  eexists _, _. by eapply drains_frame.
Qed.

Lemma drains_fun p evs r evs' r' : drains p evs r → drains p evs' r' → evs = evs' ∧ r = r'.
Proof.
  intros H. revert evs' r'. induction H as [p Hs|p e Hs|p p' o evs r Hs H IH]; intros evs' r' H'.
  - by inversion H'; simplify_eq; split; congruence.
  - by inversion H'; simplify_eq; split; congruence.
  - clear H. inversion H' as [|? ? Hs'|? ? ? ? ? Hs' H2]; simplify_eq; [congruence..|].
    rewrite Hs in Hs'. simplify_eq. by destruct (IH _ _ H2) as [-> ->].
Qed.

Lemma drains_spec p evs r :
  parser_ok p → drains p evs r →
  Forall (λ e, len (event_payload e) ≤ max_message p) evs
  ∧ 2 * len evs ≤ len (buf p)
  ∧ ∀ p', r = Ok p' →
      parser_ok p' ∧ max_message p' = max_message p ∧ frame_step p' = Ok None
      ∧ 2 * len evs + len (buf p') ≤ len (buf p).
Proof.
  intros Hp H. revert Hp. induction H as [p Hs|p e Hs|p p' o evs r Hs H IH]; intros Hp.
  - split; [done|]. split; [simpl; lia|]. intros p' [= <-]. simpl. repeat split; try done; try apply Hp; lia.
  - split; [done|]. split; [simpl; lia|]. done.
  - destruct (frame_step_spec _ _ _ Hp Hs) as (Hp' & Hm & Hl & Ho).
    destruct (IH Hp') as (HF & Hn & Hr). rewrite Hm in HF, Hr.
    destruct o as [e|]; simpl opt_events; rewrite ?app_nil_l.
    + rewrite length_app. simpl length. split; [constructor; eauto|]. split; [lia|].
      intros q Hq. destruct (Hr q Hq) as (? & ? & ? & ?). repeat split; try done; try lia; apply H0.
    + split; [done|]. split; [lia|]. intros q Hq.
      destruct (Hr q Hq) as (? & ? & ? & ?). repeat split; try done; try lia; apply H0.
Qed.

Lemma drains_ext x p q evs r :
  drains p evs r → ext x p q →
  match r with
  | Err e => drains q evs (Err e)
  | Ok p' => ∃ q', ext x p' q' ∧ ∀ evs' r', drains q' evs' r' → drains q (evs ++ evs') r'
  end.
Proof.
  intros H. revert q. induction H as [p Hs|p e Hs|p p' o evs r Hs H IH]; intros q Hq;
    pose proof (frame_step_ext _ _ _ Hq) as Hx; rewrite Hs in Hx.
  - by exists q.
  - by constructor.
  - destruct Hx as (q' & Hq' & Hs'). specialize (IH _ Hq'). destruct r as [p''|e].
    + destruct IH as (q'' & ? & IH). exists q''. split; [done|]. intros evs' r' Hd.
      rewrite <-app_assoc. eapply drains_frame; eauto.
    + eapply drains_frame; eauto.
Qed.

Lemma event_bytes_le e : 0 ≤ event_bytes e ≤ len (event_payload e).
Proof. destruct e; simpl; lia. Qed.

Lemma total_bytes_bound m evs :
  Forall (λ e, len (event_payload e) ≤ m) evs → 0 ≤ total_bytes evs ≤ m * len evs.
Proof.
  induction 1 as [|e evs He _ IH]; simpl length; simpl total_bytes; [simpl; lia|].
  pose proof (event_bytes_le e). lia.
Qed.

Lemma total_bytes_app a b : total_bytes (a ++ b) = total_bytes a + total_bytes b.
Proof. induction a as [|e a IH]; simpl; lia. Qed.

(** A budget that is not reached has no effect. *)
Lemma drain_drains p evs r ev dec :
  drains p evs r → parser_ok p → 0 ≤ dec → dec + total_bytes evs < U64_MAX →
  drain U64_MAX (p, ev, dec) =
    match r with
    | Ok p' => Ok (p', ev ++ evs, dec + total_bytes evs)
    | Err e => Err e
    end.
Proof.
  intros H. revert ev dec.
  induction H as [p Hs|p e Hs|p p' o evs r Hs H IH]; intros ev dec Hp Hd Hlt;
    rewrite drain_unfold, Hs by done; simpl.
  - by rewrite app_nil_r, Z.add_0_r.
  - done.
  - destruct (frame_step_spec _ _ _ Hp Hs) as (Hp' & Hm & Hl & Ho).
    destruct (drains_spec _ _ _ Hp' H) as (HF & _ & _). apply total_bytes_bound in HF.
    rewrite total_bytes_app in Hlt.
    assert (count_decoded dec o = dec + total_bytes (opt_events o)) as Hc.
    { destruct o as [e|]; simpl in *; [|lia]. unfold sat_add. lia. }
    assert (0 ≤ total_bytes (opt_events o)).
    { destruct o as [e|]; simpl; [|lia]. pose proof (event_bytes_le e). lia. }
    rewrite Hc, (proj2 (Z.leb_gt _ _)) by lia.
    rewrite IH by (done || lia). destruct r; [|done].
    rewrite <-app_assoc, total_bytes_app. do 2 f_equal. lia.
Qed.

(** Too few bytes for the decoding budget of [feed] to run out. *)
Definition small (p : WsParser) (n : Z) : Prop := (len (buf p) + n) * max_message p < U64_MAX.

Definition grow (p : WsParser) (data : bytes) : WsParser :=
  set_buf p (buf p ++ data)
    (if len data <=? cap p - len (buf p) then cap p
     else bytes_reserve (cap p) (len (buf p)) (len data)).

Lemma ext_grow p data : ext data p (grow p data).
Proof. by eexists. Qed.

Lemma feed_drains p data evs r :
  parser_ok p → small p (len data) → drains (grow p data) evs r →
  feed p data = match r with Ok p' => Ok (p', evs) | Err e => Err e end.
Proof.
  intros Hp Hs Hd. unfold feed, drain_events_into. fold (grow p data).
  change (loop_m _ _ _ (grow p data, [], 0)) with (drain U64_MAX (grow p data, [], 0)).
  assert (parser_ok (grow p data)) as Hp' by done.
  destruct (drains_spec _ _ _ Hp' Hd) as (HF & Hl & _). apply total_bytes_bound in HF.
  unfold small in Hs. simpl in HF, Hl. rewrite length_app in Hl.
  rewrite (drain_drains _ _ _ _ _ Hd Hp').
  - by destruct r.
  - lia.
  - destruct Hp as [Hm _]. nia.
Qed.

(** Two parsers alike but for the capacity of their buffers. *)
Definition same_parser (p q : WsParser) : Prop := set_buf p (buf p) 0 = set_buf q (buf q) 0.

#[local] Instance same_parser_equiv : Equivalence same_parser.
Proof. split; unfold same_parser; congruence. Qed.

Definition same_outcome (r s : result WsError (WsParser * list WsEvent)) : Prop :=
  match r, s with
  | Ok (p, e), Ok (q, f) => same_parser p q ∧ e = f
  | Err e, Err f => e = f
  | _, _ => False
  end.

Lemma ext_same x p q q' : ext x p q → same_parser q q' → ext x p q'.
Proof.
  intros [c ->] Hs. exists (cap q'). unfold same_parser in Hs. destruct q'. simpl in *.
  unfold set_buf in *. simpl in *. congruence.
Qed.

Lemma ext_app x y p q q' : ext x p q → ext y q q' → ext (x ++ y) p q'.
Proof. intros [c ->] [c' ->]. exists c'. simpl. by rewrite app_assoc. Qed.

Lemma ext_inj x p q q' : ext x p q → ext x p q' → same_parser q q'.
Proof. by intros [c ->] [c' ->]. Qed.

Lemma ext_nil_same p q : ext [] p q ↔ same_parser p q.
Proof.
  split.
  - intros [c ->]. unfold same_parser. simpl. by rewrite app_nil_r.
  - intros H. apply (ext_same _ _ p); [|done]. exists (cap p). rewrite app_nil_r. by destruct p.
Qed.

(** Drains of parsers alike are alike. *)
Lemma drains_same p q evs r :
  drains p evs r → same_parser p q →
  ∃ r', drains q evs r' ∧
    match r, r' with
    | Ok p', Ok q' => same_parser p' q' | Err e, Err f => e = f | _, _ => False
    end.
Proof.
  intros Hd Hq%ext_nil_same. pose proof (drains_ext _ _ _ _ _ Hd Hq) as Hx.
  destruct r as [p'|e]; [|by exists (Err e)].
  destruct Hx as (q' & Hq' & Hx). exists (Ok q'). split; [|by apply ext_nil_same].
  rewrite <-(app_nil_r evs). apply Hx. constructor. apply frame_step_None.
  destruct Hq' as [c ->]. simpl. rewrite app_nil_r.
  assert (frame_step p' = Ok None) as Hn by (clear -Hd; remember (Ok p') as r; induction Hd; simplify_eq; auto).
  by apply frame_step_None in Hn.
Qed.

(** Feeding chunk after chunk. *)
Definition feed_all (p : WsParser) (chunks : list bytes) : result WsError (WsParser * list WsEvent) :=
  try_fold (λ '(p, evs) data, '(p, new) ← feed p data; Ok (p, evs ++ new)) (p, []) chunks.

Lemma feed_all_drains chunks p ev q evs r :
  parser_ok p → small p (len (concat chunks)) → chunks ≠ [] ∨ frame_step p = Ok None →
  ext (concat chunks) p q → drains q evs r →
  match try_fold (λ '(p, evs) data, '(p, new) ← feed p data; Ok (p, evs ++ new)) (p, ev) chunks with
  | Ok (p', ev') => ev' = ev ++ evs ∧ ∃ q', r = Ok q' ∧ same_parser p' q'
  | Err e => r = Err e
  end.
Proof.
  revert p ev evs r q. induction chunks as [|c cs IH]; intros p ev evs r q Hp Hsm Hne Hq Hd.
  - destruct Hne as [?|Hn]; [done|]. simpl in *. apply ext_nil_same in Hq.
    destruct (drains_same _ _ _ _ (drains_stop _ Hn) Hq) as ([q'|e] & Hd' & Hs); [|done].
    destruct (drains_fun _ _ _ _ _ Hd Hd') as [-> ->]. rewrite app_nil_r. eauto.
  - simpl concat in Hsm, Hq. rewrite length_app, Nat2Z.inj_add in Hsm.
    assert (ext (concat cs) (grow p c) q) as Hq1.
    { destruct Hq as [k ->]. exists k. simpl. by rewrite app_assoc. }
    destruct (drains_total (grow p c)) as (evs1 & r1 & Hd1); [done|].
    assert (small p (len c)) as Hsm1 by (unfold small in *; destruct Hp; nia).
    pose proof (drains_ext _ _ _ _ _ Hd1 Hq1) as Hx. cbn [try_fold].
    rewrite (feed_drains _ _ _ _ Hp Hsm1 Hd1). destruct r1 as [p1|e]; simpl.
    + destruct Hx as (q1 & Hq' & Hx).
      assert (parser_ok (grow p c)) as Hg by done.
      destruct (drains_spec _ _ _ Hg Hd1) as (_ & _ & Hr1).
      destruct (Hr1 p1 eq_refl) as (Hp1 & Hm1 & Hn1 & Hl1).
      destruct (drains_total q1) as (evs2 & r2 & Hd2).
      { by destruct Hq' as [k ->]. }
      destruct (drains_fun _ _ _ _ _ Hd (Hx _ _ Hd2)) as [-> ->].
      rewrite app_assoc. apply (IH p1 (ev ++ evs1) evs2 r2 q1); [done| |by right|done|done].
      unfold small in *. simpl in Hl1, Hm1. rewrite length_app in Hl1. rewrite Hm1.
      destruct Hp. nia.
    + by destruct (drains_fun _ _ _ _ _ Hd Hx) as [-> ->].
Qed.

(** C23. However the bytes of a connection are cut into reads, the parser ends in
    the same state with the same events, or with the same error, as when all of
    them come at once. *)
Theorem feed_any_chunks p c chunks :
  parser_ok p → small p (len (concat (c :: chunks))) →
  same_outcome (feed_all p (c :: chunks)) (feed p (concat (c :: chunks))).
Proof.
  intros Hp Hs. destruct (drains_total (grow p (concat (c :: chunks)))) as (evs & r & Hd); [done|].
  rewrite (feed_drains _ _ _ _ Hp Hs Hd).
  pose proof (feed_all_drains (c :: chunks) p [] _ evs r Hp Hs (or_introl (not_eq_sym (@nil_cons _ _ _)))
    (ext_grow _ _) Hd) as H.
  unfold feed_all, same_outcome. destruct (try_fold _ _ _) as [[p' ev']|e].
  - by destruct H as (-> & q' & -> & Hq).
  - by subst r.
Qed.

(** C25. What a peer can make the parser hold: every event it hands over fits the
    message limit, and what stays in its buffers is less than one frame of the
    limit and its header, and fragments within the limit. *)
Theorem feed_bounded p data p' evs :
  parser_ok p → small p (len data) → feed p data = Ok (p', evs) →
  Forall (λ e, len (event_payload e) ≤ max_message p) evs
  ∧ max_message p' = max_message p
  ∧ len (buf p') < max_message p + 14 ∧ len (frag p') ≤ max_message p
  ∧ 2 * len evs + len (buf p') ≤ len (buf p) + len data.
Proof.
  intros Hp Hs H. destruct (drains_total (grow p data)) as (evs' & r & Hd); [done|].
  rewrite (feed_drains _ _ _ _ Hp Hs Hd) in H. destruct r as [q|e]; simplify_eq.
  assert (parser_ok (grow p data)) as Hg by done.
  destruct (drains_spec _ _ _ Hg Hd) as (HF & _ & Hr).
  destruct (Hr p' eq_refl) as (Hp' & Hm & Hn & Hl). simpl in HF, Hm, Hl.
  apply frame_step_None, parse_frame_None in Hn; [|apply Hp'].
  rewrite Hm in Hn. destruct Hp' as [_ Hf]. rewrite Hm in Hf.
  rewrite length_app, Nat2Z.inj_add in Hl. split; [done|]. split; [done|]. lia.
Qed.
End frames.

(** A masked text frame that says hi, cut inside its header and its payload. *)
Definition sample_chunks : list bytes := [[0x81]; [0x82; 1; 2]; [3; 4; 105]; [107]].

Definition fresh_parser : WsParser (FL := no_flate) := WsParser_new 1000 None.

Lemma feed_any_chunks_witness :
  result_ok (snd <$> feed fresh_parser (concat sample_chunks)) = Some [Message MText (str "hi")] ∧
  same_outcome (feed_all fresh_parser sample_chunks) (feed fresh_parser (concat sample_chunks)).
Proof.
  split; [vm_compute; done|].
  apply (feed_any_chunks fresh_parser [0x81] [[0x82; 1; 2]; [3; 4; 105]; [107]]).
  - split; vm_compute; done.
  - vm_compute. done.
Defined.

(** The parser after that frame and the first byte of another. *)
Definition fed_parser : WsParser (FL := no_flate) :=
  Eval vm_compute in
  match feed fresh_parser (concat sample_chunks ++ [0x81]) with
  | Ok (p, _) => p
  | Err _ => fresh_parser
  end.

Lemma feed_bounded_witness :
  feed fresh_parser (concat sample_chunks ++ [0x81]) = Ok (fed_parser, [Message MText (str "hi")])
  ∧ Forall (λ e, len (event_payload e) ≤ max_message fresh_parser) [Message MText (str "hi")]
  ∧ len (buf fed_parser) < max_message fresh_parser + 14.
Proof.
  assert (feed fresh_parser (concat sample_chunks ++ [0x81])
    = Ok (fed_parser, [Message MText (str "hi")])) as E by (vm_compute; reflexivity).
  split; [exact E|].
  destruct (feed_bounded fresh_parser (concat sample_chunks ++ [0x81]) fed_parser
    [Message MText (str "hi")]) as (H1 & _ & H2 & _ & _);
    [split; vm_compute; done|vm_compute; done|exact E|exact (conj H1 H2)].
Defined.
