(* ===== verification/WsDeflate.v ===== *)
(** * Compressed messages: the inflating and deflating contexts of frame.rs

    The history ring of an [InflateCtx] holds the last 32 KiB it wrote, so a
    decompressor dropped while idle can be rebuilt; a [DeflateCtx] writes what
    such a context reads. *)

From S2P Require Import Prelude Utf8 WsFrame WsFlate.

Local Open Scope Z_scope.

(** ** The last elements of a list *)

Lemma last_n_all {A} n (l : list A) : len l ≤ n → last_n n l = l.
Proof. intros H. unfold last_n. by replace (length l - Z.to_nat n)%nat with 0%nat by lia. Qed.

Lemma length_last_n {A} n (l : list A) : 0 ≤ n → len (last_n n l) = Z.min n (len l).
Proof. intros H. unfold last_n. rewrite length_drop. lia. Qed.

(** The last elements of [a ++ b] are those of [b] behind a long enough [a]. *)
Lemma last_n_app {A} n (a b : list A) : last_n n (last_n n a ++ b) = last_n n (a ++ b).
Proof.
  unfold last_n. rewrite !length_app, length_drop.
  destruct (decide (length a ≤ Z.to_nat n)%nat).
  - replace (length a - Z.to_nat n)%nat with 0%nat by lia. by rewrite drop_0, Nat.sub_0_r.
  - rewrite <-drop_app_le by lia. rewrite drop_drop. f_equal. lia.
Qed.

Lemma last_n_suffix {A} n (x a b : list A) :
  ∃ y, last_n n ((x ++ a) ++ b) = y ++ last_n n (a ++ b).
Proof.
  unfold last_n. rewrite <-app_assoc, (length_app x).
  set (k := length (a ++ b)). destruct (decide (k ≤ Z.to_nat n)%nat).
  - exists (drop (length x + k - Z.to_nat n) x).
    replace (k - Z.to_nat n)%nat with 0%nat by lia. by rewrite drop_app_le by lia.
  - exists []. rewrite drop_app_ge by lia. simpl. f_equal. lia.
Qed.

(** ** The history ring *)

Section deflate.
Context `{FL : Flate2}.

Definition ring (history : bytes) (head : Z) : bytes :=
  drop (Z.to_nat head) history ++ take (Z.to_nat head) history.

(** The ring only wraps once it is full. *)
Definition ring_ok (history : bytes) (head : Z) : Prop :=
  len history ≤ WINDOW ∧ 0 ≤ head < WINDOW ∧ (head = 0 ∨ len history = WINDOW).

Lemma ring_0 h : ring h 0 = h.
Proof. unfold ring. simpl. apply app_nil_r. Qed.

Lemma length_ring h head : length (ring h head) = length h.
Proof. unfold ring. rewrite length_app, length_drop, length_take. lia. Qed.

(** One round of the loop that overwrites the oldest bytes. *)
Lemma ring_overwrite h head data :
  len h = WINDOW → 0 ≤ head < WINDOW → len data ≤ WINDOW - head →
  let n := len data in
  let h' := take (Z.to_nat head) h ++ data ++ drop (Z.to_nat (head + n)) h in
  len h' = WINDOW ∧ ring h' ((head + n) mod WINDOW) = last_n WINDOW (ring h head ++ data).
Proof.
  intros Hh Hhead Hd n h'.
  assert (len h' = WINDOW) as Hl.
  { unfold h'. rewrite !length_app, length_take, length_drop. lia. }
  split; [done|].
  assert (last_n WINDOW (ring h head ++ data) =
    drop (Z.to_nat (head + n)) h ++ take (Z.to_nat head) h ++ data) as ->.
  { unfold last_n. rewrite length_app, length_ring.
    replace (length h + length data - Z.to_nat WINDOW)%nat with (length data) by lia.
    unfold ring. rewrite <-app_assoc, drop_app_le by (rewrite length_drop; lia).
    rewrite drop_drop. do 2 f_equal. lia. }
  destruct (decide (head + n = WINDOW)) as [He|He].
  - rewrite He, Z_mod_same_full, ring_0. unfold h'. rewrite He.
    rewrite !(drop_ge h) by lia. by rewrite app_nil_r.
  - rewrite Z.mod_small by lia. unfold ring, h'. rewrite app_assoc.
    rewrite drop_app_length', take_app_length' by (rewrite length_app, length_take; lia). done.
Qed.

Lemma remember_wrap_spec fuel h head data :
  len h = WINDOW → 0 ≤ head < WINDOW → (length data ≤ fuel)%nat →
  let r := remember_wrap fuel h head data in
  len r.1 = WINDOW ∧ 0 ≤ r.2 < WINDOW ∧ ring r.1 r.2 = last_n WINDOW (ring h head ++ data).
Proof.
  revert h head data. induction fuel as [|fuel IH]; intros h head data Hh Hhead Hf.
  - destruct data; simpl in *; [|lia]. rewrite app_nil_r, last_n_all by (rewrite length_ring; lia). done.
  - destruct data as [|x d].
    { simpl. rewrite app_nil_r, last_n_all by (rewrite length_ring; lia). done. }
    cbn [remember_wrap]. set (data := x :: d) in *.
    set (n := Z.min (WINDOW - head) (len data)).
    assert (1 ≤ n ≤ len data) by (unfold n, data; simpl length; lia).
    destruct (ring_overwrite h head (take (Z.to_nat n) data)) as [Hl Hr];
      [done..|rewrite length_take; lia|].
    assert (len (take (Z.to_nat n) data) = n) as Hn by (rewrite length_take; lia).
    rewrite Hn in Hl, Hr.
    destruct (IH _ ((head + n) mod WINDOW) (drop (Z.to_nat n) data) Hl) as (? & ? & Hring).
    { apply Z.mod_pos_bound. done. }
    { rewrite length_drop. lia. }
    split; [done|]. split; [done|].
    rewrite Hring, Hr, last_n_app, <-app_assoc, take_drop. done.
Qed.

(** The ring holds the last bytes written, oldest first. *)
Lemma remember_spec c data :
  ring_ok (i_history c) (i_head c) →
  let c' := remember c data in
  ring_ok (i_history c') (i_head c')
  ∧ ring (i_history c') (i_head c') = last_n WINDOW (ring (i_history c) (i_head c) ++ data)
  ∧ i_takeover c' = i_takeover c ∧ i_inner c' = i_inner c ∧ i_used c' = i_used c.
Proof.
  intros Hok. unfold remember. assert (0 < WINDOW) by done.
  destruct (if WINDOW <=? len data then _ else _) as [[data' h] head] eqn:E.
  assert (ring_ok h head ∧ last_n WINDOW (ring h head ++ data')
      = last_n WINDOW (ring (i_history c) (i_head c) ++ data)) as [(Hh & Hhead & Hfull) <-].
  { destruct (Z.leb_spec WINDOW (len data)); simplify_eq; [|done].
    split; [by repeat split; simpl; try done; left|].
    rewrite ring_0, app_nil_l, last_n_all by (rewrite length_drop; lia). unfold last_n.
    rewrite length_app, drop_app_ge by lia. f_equal. lia. }
  clear E Hok. set (fill := Z.min (WINDOW - len h) (len data')).
  assert (ring (h ++ take (Z.to_nat fill) data') head
      = ring h head ++ take (Z.to_nat fill) data') as Hring.
  { destruct Hfull as [->|Hfull]; [by rewrite !ring_0|].
    replace fill with 0 by lia. by rewrite !app_nil_r. }
  assert (len (h ++ take (Z.to_nat fill) data') = len h + fill) as Hlen
    by (rewrite length_app, length_take; lia).
  destruct (decide (len h + len data' < WINDOW)).
  - rewrite (drop_ge data') by lia. simpl. rewrite Hring, take_ge by lia.
    rewrite last_n_all by (rewrite length_app, length_ring; lia).
    rewrite take_ge in Hlen by lia. repeat split; try done; try lia.
  - destruct (remember_wrap_spec (length (drop (Z.to_nat fill) data'))
      (h ++ take (Z.to_nat fill) data') head (drop (Z.to_nat fill) data')) as (? & ? & Hr);
      [lia|done..|].
    destruct (remember_wrap _ _ _ _) as [h' head']. simpl in *.
    rewrite Hr, Hring, <-app_assoc, take_drop. repeat split; try done; try lia.
Qed.


(** ** Inflating *)

Section laws.
Context `{FS : !FlateStates} `{FLL : !Flate2Laws}.

(** The loop runs a decompressor to the end of its input. *)
Lemma inflate_into_decoding d i o w m :
  decoding d i o w → len o ≤ m →
  ∃ d', inflate_into d i [] m = Ok (d', o) ∧ decoding d' [] [] w.
Proof.
  intros Hd Hm. unfold inflate_into.
  destruct (loop_m_total
    (λ st, (length i - st.1.2) + (Z.to_nat (m + 1) - length st.2))%nat
    (inflate_step i m)
    (λ st, (st.1.2 ≤ length i)%nat ∧ ∃ o2, o = st.2 ++ o2 ∧ decoding st.1.1 (drop st.1.2 i) o2 w)
    (λ r, r.2 = o ∧ decoding r.1 [] [] w) (Inflate "unreachable") (d, 0%nat, []))
    as ([d' o'] & Hl & Ho & Hd').
  - intros [[dd k] out] (Hk & o2 & -> & Hdd). simpl in *. rewrite length_app in Hm.
    set (room := Z.min _ _). assert (0 < room) by (unfold room, sat_sub; lia).
    destruct (decoding_step dd _ o2 w (Z.to_nat room) Hdd) as (d' & n & o1 & o3 & -> & Hn & -> & Ho1 & Hd' & Hp);
      [lia|].
    rewrite length_drop in Hn. rewrite length_app in Hm.
    rewrite (proj2 (Z.ltb_ge _ _)) by (rewrite length_app; lia).
    destruct (negb (n =? 0)%nat || negb (length o1 =? 0)%nat) eqn:Hpr.
    + eexists. split; [done|]. simpl. split.
      * split; [lia|]. exists o3. rewrite app_assoc. split; [done|]. by rewrite drop_drop in Hd'.
      * rewrite length_app. apply orb_prop in Hpr as [H1|H1];
          apply negb_true_iff, Nat.eqb_neq in H1; lia.
    + apply orb_false_iff in Hpr as [H1%negb_false_iff%Nat.eqb_eq H2%negb_false_iff%Nat.eqb_eq].
      apply nil_length_inv in H2. subst n o1. destruct (Hp eq_refl eq_refl) as [Hi Ho].
      eexists. split; [done|]. simpl in *. subst o3. rewrite Hi in Hd'.
      by rewrite !app_nil_r.
  - simpl. split; [lia|]. exists o. by rewrite drop_0.
  - simpl in Ho, Hd'. subst o'. by exists d'.
Qed.

(** What a context with takeover remembers is the window [w] of the stream; its
    decompressor, when it has one, has that window. *)
Definition inflater_ok (c : InflateCtx) (w : bytes) : Prop :=
  ring_ok (i_history c) (i_head c) ∧
  if i_takeover c
  then ring (i_history c) (i_head c) = w ∧ ∀ d, i_inner c = Some d → decoding d [] [] w
  else i_history c = [].

(** The window a message is read behind. *)
Definition inflate_window (c : InflateCtx) (w : bytes) : bytes := if i_takeover c then w else [].

Lemma inflater_ok_new takeover : inflater_ok (InflateCtx_new takeover) [].
Proof.
  split; [by repeat split; try left|]. simpl. destruct takeover; [|done]. split; [|done].
  apply ring_0.
Qed.

Lemma inflater_inner_ok c w :
  inflater_ok c w → ∃ d, inflater_inner c = Ok d ∧ decoding d [] [] (inflate_window c w).
Proof.
  intros [Hr Hw]. unfold inflater_inner, inflate_window.
  destruct (i_inner c) as [d|] eqn:Hi.
  - destruct (i_takeover c); eexists; (split; [done|]); [by apply Hw|apply decoding_reset].
  - destruct (i_history c) as [|x h] eqn:Hh.
    { eexists. split; [done|]. destruct (i_takeover c); [|apply decoding_new].
      destruct Hw as [<- _]. unfold ring. rewrite drop_nil, take_nil. apply decoding_new. }
    rewrite <-Hh in *. destruct (i_takeover c); [|by rewrite Hw in Hh].
    destruct Hw as [<- _]. set (r := ring (i_history c) (i_head c)).
    assert (stored_block (i_history c) (i_head c) = stored_block r 0) as ->.
    { unfold stored_block, r. rewrite length_ring. simpl. by rewrite app_nil_r. }
    assert (len r = len (i_history c)) as Hl by (unfold r; by rewrite length_ring).
    destruct Hr as (HW & _ & _). assert (WINDOW ≤ 65535) by done.
    destruct (inflate_into_decoding Decompress_new (stored_block r 0) r (last_n WINDOW ([] ++ r)) WINDOW)
      as (d & -> & Hd); [apply decoding_stored; [apply decoding_new|lia]|lia|].
    simpl. rewrite (proj2 (Nat.eqb_eq _ _)) by lia. exists d. split; [done|].
    simpl in Hd. by rewrite last_n_all in Hd by lia.
Qed.

(** A context reads the next message of the stream. *)
Lemma decompress_ok c w z m mx :
  inflater_ok c w → deflated (inflate_window c w) (z ++ SYNC_MARKER) m → len m ≤ mx →
  ∃ c', decompress c z mx = Ok (c', m) ∧ inflater_ok c' (last_n WINDOW (w ++ m))
    ∧ i_takeover c' = i_takeover c.
Proof.
  intros Hc Hz Hm. destruct (inflater_inner_ok c w Hc) as (d & Hi & Hd).
  destruct (inflate_into_decoding d _ m _ mx (decoding_deflated _ _ _ _ Hd Hz) Hm) as (d' & Hr & Hd').
  unfold decompress. rewrite Hi. simpl. rewrite Hr. simpl. eexists. split; [done|].
  destruct Hc as [Hring Hw]. unfold inflate_window in Hd'. destruct (i_takeover c) eqn:Ht.
  - set (c1 := mkInflateCtx _ _ _ _ _).
    destruct (remember_spec c1 m) as (Hok & Hring' & Ht' & Hi' & _); [done|].
    split; [|by rewrite Ht']. split; [done|]. rewrite Ht', Hring', Hi'. simpl.
    destruct Hw as [-> _]. split; [done|]. by intros d0 [= <-].
  - by repeat split; try apply Hring.
Qed.

(** Dropping an idle decompressor keeps what it would refer back to. *)
Lemma inflater_release_ok c w : inflater_ok c w → inflater_ok (InflateCtx_release_idle c) w.
Proof.
  intros [Hr Hw]. unfold InflateCtx_release_idle, inflater_ok.
  destruct (i_used c), (i_inner c) as [d|] eqn:Hi; simpl; try done.
  change (rotate_left (Z.to_nat (i_head c)) (i_history c)) with (ring (i_history c) (i_head c)).
  split.
  { destruct Hr as (H1 & H2 & _). split; [by rewrite length_ring|]. split; [done|by left]. }
  destruct (i_takeover c).
  - destruct Hw as [<- _]. by rewrite ring_0.
  - rewrite Hw. unfold ring. by rewrite drop_nil, take_nil.
Qed.

(** ** Deflating *)

(** The loop takes the output for complete when all of the message is consumed
    and the output ends as a flush does.  A message for which that is right:
    never is some output still to come that follows these four bytes. *)
Definition flush_marked (m : bytes) : Prop :=
  ∀ c w out, compressing c w m (length m) out → ends_with out SYNC_MARKER = true → flush_complete c w m out.

Lemma ends_with_app a b : ends_with (a ++ b) b = true.
Proof. unfold ends_with. apply starts_with_true. exists (rev a). by rewrite rev_app_distr. Qed.

(** The loop runs a compressor to the end of its flush. *)
Lemma deflate_loop fuel msg w bound c k out cap :
  flush_marked msg → (∀ c k out, compressing c w msg k out → (length out ≤ bound)%nat) →
  compressing c w msg k out → (k ≤ length msg)%nat → (k = length msg → ¬ flush_complete c w msg out) →
  (length msg - k + (bound - length out) < fuel)%nat →
  ∃ c' z, loop (deflate_step msg) (Deflate "out of fuel") fuel (c, k, out, cap) =
      Ok (c', z ++ SYNC_MARKER) ∧ flush_complete c' w msg (z ++ SYNC_MARKER).
Proof.
  intros Hmark Hbound. revert c k out cap.
  induction fuel as [|fuel IH]; intros c k out cap Hc Hk Hnot Hf; [lia|].
  cbn [loop]. unfold deflate_step at 2. cbv beta iota zeta.
  set (cap' := if cap - len out <? 64 then vec_reserve cap (len out) (32 * 1024) else cap).
  assert (64 ≤ cap' - len out) as Hroom.
  { unfold cap', vec_reserve. repeat case_match; bool_to_prop; lia. }
  destruct (compressing_step c w msg k out (Z.to_nat (cap' - len out)) Hc Hnot)
    as (c' & n & z1 & -> & Hn & Hz1 & Hprog & Hc'); [lia|].
  pose proof (Hbound _ _ _ Hc') as Hb. rewrite length_app in Hb.
  destruct (((k + n) =? length msg)%nat && ends_with (out ++ z1) SYNC_MARKER) eqn:Hstop.
  { apply andb_true_iff in Hstop as [Hall%Nat.eqb_eq He]. rewrite Hall in Hc'.
    pose proof (Hmark _ _ _ Hc' He) as Hdone. pose proof Hdone as (_ & [z Hz] & _). rewrite Hz in *. eauto. }
  assert (negb (negb (n =? 0)%nat || negb (length z1 =? 0)%nat) = false) as ->.
  { apply negb_false_iff, orb_true_iff. destruct Hprog as [?|?].
    - left. by apply negb_true_iff, Nat.eqb_neq.
    - right. apply negb_true_iff, Nat.eqb_neq. by intros ?%nil_length_inv. }
  cbn [andb mbind result_bind]. apply IH; [done|done| |].
  - intros Hall (_ & [z Hz] & _). rewrite Hz, ends_with_app, andb_true_r in Hstop. by apply Nat.eqb_neq in Hstop.
  - rewrite length_app. destruct Hprog as [?|?]; [lia|]. destruct z1; [done|]. simpl in *. lia.
Qed.

(** The compressor's window, when it has one, is the end of the stream's. *)
Definition deflater_ok (c : DeflateCtx) (w : bytes) : Prop :=
  d_takeover c = true → ∀ d, d_inner c = Some d →
  ∃ x wc, w = x ++ wc ∧ idle d wc.

Definition deflate_window (c : DeflateCtx) (w : bytes) : bytes := if d_takeover c then w else [].

Lemma deflater_ok_new takeover level w : deflater_ok (DeflateCtx_with_level takeover level) w.
Proof. by intros _ d. Qed.

Lemma deflater_release_ok c w : deflater_ok c w → deflater_ok (DeflateCtx_release_idle c) w.
Proof.
  unfold deflater_ok. simpl. intros H Ht d. destruct (d_used c); [by apply H|done].
Qed.

(** A context writes the next message of the stream, in boundedly many calls. *)
Lemma compress_ok c w m :
  deflater_ok c w → m ≠ [] → flush_marked m →
  ∃ z c' n, deflated (deflate_window c w) (z ++ SYNC_MARKER) m
    ∧ (∀ fuel, (n ≤ fuel)%nat → compress fuel c m = Ok (c', z))
    ∧ deflater_ok c' (last_n WINDOW (w ++ m)) ∧ d_takeover c' = d_takeover c
    ∧ ∃ c0 w0, flush_complete c0 w0 m (z ++ SYNC_MARKER).
Proof.
  intros Hc Hm Hmark. unfold compress.
  set (inner := match d_inner c with Some _ => _ | None => _ end).
  assert (∃ x wc, deflate_window c w = x ++ wc ∧ idle inner wc) as (x & wc & Hw & Hidle).
  { unfold inner, deflate_window, deflater_ok in *. destruct (d_inner c) as [d|], (d_takeover c).
    - by apply Hc.
    - exists [], []. split; [done|]. apply idle_reset.
    - exists w, []. split; [by rewrite app_nil_r|]. apply idle_new.
    - exists [], []. split; [done|]. apply idle_new. }
  destruct (compressing_bound wc m) as [bound Hbound].
  destruct (deflate_loop (S (length m + bound)) m wc bound inner 0 [] (len m / 2 + 64) Hmark Hbound)
    as (c1 & z & Hl & Hdone); [by apply compressing_start|lia|intros E; by destruct m|simpl; lia|].
  exists z, (mkDeflateCtx (d_takeover c) (d_level c) (Some c1) true), (S (length m + bound)).
  pose proof Hdone as (_ & _ & Hdef & Hidle1).
  split; [rewrite Hw; by apply deflated_longer|]. split; [|split; [|by eauto]].
  - intros fuel Hf. rewrite (loop_more _ _ _ _ _ _ Hl Hf). simpl.
    rewrite length_app. change (length SYNC_MARKER) with 4%nat.
    rewrite (proj2 (Z.ltb_ge _ _)) by lia. do 2 f_equal. rewrite Nat.add_sub. apply take_app_length.
  - intros Ht d [= <-]. simpl in Ht. unfold deflate_window in Hw. rewrite Ht in Hw. subst w.
    destruct (last_n_suffix WINDOW x wc m) as [y ->]. eauto.
Qed.
End laws.
End deflate.
