(* ===== verification/WsSession.v ===== *)
(** * A WebSocket connection: encoder to parser

    What the encoder of one end writes, the parser of the other end reads: the
    composition of the codec, the compression contexts and their idle releases
    of frame.rs. *)

From S2P Require Import Prelude Utf8 Bits WsFrame WsFrameSpec WsFlate WsDeflate.

Local Open Scope Z_scope.

(** What the sending end does with its encoder. *)
Inductive send_op : Type :=
| SendMessage (k : MessageKind) (m : bytes)
| SendControl (op : Z) (pl : bytes)
| SendClose (code : Z)
| SenderIdle.

(** What the receiving end does with its parser. *)
Inductive recv_op : Type :=
| Chunk (data : bytes)
| ReceiverIdle.

Definition chunk_bytes (o : recv_op) : bytes := match o with Chunk b => b | ReceiverIdle => [] end.

Definition sent_event (o : send_op) : list WsEvent :=
  match o with
  | SendMessage k m => [Message k m]
  | SendControl op pl =>
      [if op =? OP_PING then Ping pl else if op =? OP_PONG then Pong pl else Close pl]
  | SendClose code => [Close (to_be_bytes 2 code)]
  | SenderIdle => []
  end.

Section session.
Context `{FL : Flate2} `{BM : BytesMut}.

Definition send (fuel : nat) (e : WsEncoder) (o : send_op) : result WsError (WsEncoder * bytes) :=
  match o with
  | SendMessage k m => encode_message fuel e k m
  | SendControl op pl => Ok (encode_control e op pl)
  | SendClose code => Ok (encode_close e code)
  | SenderIdle => Ok (WsEncoder_release_idle e, [])
  end.

Definition sends (fuel : nat) (e : WsEncoder) (ops : list send_op)
    : result WsError (WsEncoder * bytes) :=
  try_fold (λ '(e, out) o, '(e, new) ← send fuel e o; Ok (e, out ++ new)) (e, []) ops.

Definition receive_op (st : WsParser * list WsEvent) (o : recv_op)
    : result WsError (WsParser * list WsEvent) :=
  match o with
  | Chunk data => '(p, new) ← feed st.1 data; Ok (p, st.2 ++ new)
  | ReceiverIdle => Ok (WsParser_release_idle st.1, st.2)
  end.

Definition receive (p : WsParser) (ops : list recv_op) : result WsError (WsParser * list WsEvent) :=
  try_fold receive_op (p, []) ops.

(** ** What is on the wire *)

Context `{FS : !FlateStates} `{FLL : !Flate2Laws}.

(** The receiving end: its role, its message limit, whether compression was
    negotiated and whether its inflater keeps the context between messages. *)
Context (r : Role) (mx : Z) (zip tk : bool).
Hypothesis mx_range : 0 ≤ mx < 2 ^ 63.

(** The event a whole uncompressed frame is. *)
Inductive plain_event : Z → bytes → WsEvent → Prop :=
| plain_ping pl : len pl ≤ 125 → plain_event OP_PING pl (Ping pl)
| plain_pong pl : len pl ≤ 125 → plain_event OP_PONG pl (Pong pl)
| plain_close pl : len pl ≤ 125 → check_close pl = Ok () → plain_event OP_CLOSE pl (Close pl)
| plain_text pl : plain_event OP_TEXT pl (Message MText pl)
| plain_binary pl : plain_event OP_BINARY pl (Message MBinary pl).

Definition kind_opcode (k : MessageKind) : Z := match k with MText => OP_TEXT | MBinary => OP_BINARY end.

(** Frames on the wire with the events they are, behind the window [w]. *)
Inductive wired : bytes → list (bytes * WsEvent) → Prop :=
| wired_nil w : wired w []
| wired_plain w e op pl ev items :
    e_role e = peer r → len pl ≤ mx → plain_event op pl ev → wired w items →
    wired w (((encode_frame e true false op pl []).2, ev) :: items)
| wired_packed w e k z m items :
    e_role e = peer r → zip = true → len z ≤ mx → len m ≤ inflate_limit (len z) mx →
    deflated (if tk then w else []) (z ++ SYNC_MARKER) m →
    wired (last_n WINDOW (w ++ m)) items →
    wired w (((encode_frame e true true (kind_opcode k) z []).2, Message k m) :: items).

(** The receiving parser between messages, its inflater at the window [w]. *)
Definition recv_ok (p : WsParser) (w : bytes) : Prop :=
  role p = r ∧ max_message p = mx ∧ frag_opcode p = None ∧ parser_ok p ∧
  (zip = true → ∃ c, inflater p = Some c ∧ inflater_ok c w ∧ i_takeover c = tk).

Lemma peer_peer x : peer (peer x) = x.
Proof. by destruct x. Qed.

Lemma recv_ok_advance p w n : recv_ok p w → recv_ok (advance p n) w.
Proof. done. Qed.

(** What handling a whole frame does. *)
Lemma handle_plain p op pl ev :
  frag_opcode p = None → plain_event op pl ev →
  handle_frame p (mkRawFrame true false op pl) = Ok (p, Some ev).
Proof.
  intros Hf Hev. unfold handle_frame, maybe_inflate. inversion Hev as [| |? ? Hc| |]; subst; simpl;
    rewrite ?Hf; try done. by rewrite Hc.
Qed.

Lemma handle_packed p w k z m :
  recv_ok p w → zip = true → len m ≤ inflate_limit (len z) mx →
  deflated (if tk then w else []) (z ++ SYNC_MARKER) m →
  ∃ p', handle_frame p (mkRawFrame true true (kind_opcode k) z) = Ok (p', Some (Message k m))
    ∧ buf p' = buf p ∧ recv_ok p' (last_n WINDOW (w ++ m)).
Proof.
  intros (Hr & Hm & Hf & Hp & Hz) Hzip Hl Hd. destruct (Hz Hzip) as (c & Hi & Hc & Ht).
  destruct (decompress_ok c w z m (inflate_limit (len z) mx)) as (c' & Hdec & Hc' & Ht');
    [done|unfold inflate_window; by rewrite Ht|done|].
  exists (set_inflater p (Some c')). split.
  - unfold handle_frame, maybe_inflate. destruct k; simpl; rewrite Hf, Hi, Hm; simpl;
      by rewrite Hdec.
  - split; [done|]. repeat split; try done; try apply Hp. intros _. exists c'. by rewrite Ht'.
Qed.

Lemma plain_event_fits p op pl ev :
  max_message p = mx → len pl ≤ mx → plain_event op pl ev → frame_fits p true false op pl.
Proof.
  intros Hm Hl Hev. unfold frame_fits. rewrite Hm.
  inversion Hev; subst; repeat split; try done; try lia; unfold OP_TEXT, OP_BINARY in *; lia.
Qed.

Lemma packed_fits p w k z :
  recv_ok p w → zip = true → len z ≤ mx → frame_fits p true true (kind_opcode k) z.
Proof.
  intros (Hr & Hm & Hf & Hp & Hz) Hzip Hl. destruct (Hz Hzip) as (c & Hi & _).
  unfold frame_fits. rewrite Hm, Hi.
  destruct k; repeat split; try done; try lia; unfold OP_TEXT, OP_BINARY in *; lia.
Qed.

Lemma parse_wired p w f ev items :
  recv_ok p w → wired w ((f, ev) :: items) →
  ∃ fr, ∀ rest, parse_frame p (f ++ rest) = Ok (Some (fr, length f)).
Proof.
  intros Hok Hw. pose proof Hok as (Hr & Hm & _).
  inversion Hw as [|? e op pl ? ? He|? e k z m ? He]; simplify_eq;
    eexists; intros rest; apply parse_encoded; rewrite ?He, ?peer_peer;
    by eauto using plain_event_fits, packed_fits.
Qed.

(** The parser takes the first frame on the wire. *)
Lemma frame_step_wired p w f ev items rest :
  recv_ok p w → wired w ((f, ev) :: items) → buf p = f ++ rest →
  ∃ p' w', frame_step p = Ok (Some (p', Some ev)) ∧ buf p' = rest
    ∧ recv_ok p' w' ∧ wired w' items.
Proof.
  intros Hok Hw Hb. unfold frame_step. rewrite Hb. pose proof Hok as (Hr & Hm & Hf & _).
  inversion Hw as [|? e op pl ? ? He Hl Hev Hrest|? e k z m ? He Hzip Hl Hinf Hdef Hrest]; simplify_eq;
    rewrite parse_encoded by (rewrite ?He, ?peer_peer; by eauto using plain_event_fits, packed_fits);
    simpl; set (n := length _).
  - rewrite (handle_plain (advance p n) _ _ ev) by done. simpl. rewrite Hf.
    eexists _, w. split; [done|]. simpl. rewrite Hb. unfold n. by rewrite drop_app_length.
  - destruct (handle_packed (advance p n) w k z m) as (p' & Hh & Hb' & Hok'); [done..|].
    rewrite Hh. simpl. pose proof Hok' as (_ & _ & -> & _).
    eexists _, _. split; [done|]. simpl. rewrite Hb'. simpl. rewrite Hb. unfold n.
    rewrite drop_app_length. by repeat split; try apply Hok'.
Qed.

(** A frame that is not all there is left in the buffer. *)
Lemma frame_step_prefix p w f ev items rest :
  recv_ok p w → wired w ((f, ev) :: items) → f = buf p ++ rest → rest ≠ [] →
  frame_step p = Ok None.
Proof.
  intros Hok Hw Hf Hne. apply frame_step_None.
  destruct (parse_wired _ _ _ _ _ Hok Hw) as [fr HP]. specialize (HP []).
  rewrite app_nil_r in HP.
  destruct (parse_frame p (buf p)) as [[x|]|e] eqn:E; [|done|]; exfalso;
    rewrite Hf, parse_frame_app, E in HP by (by rewrite E); [|done]. simplify_eq.
  apply parse_frame_size in E. rewrite length_app in E. destruct rest; [done|]. simpl in E. lia.
Qed.

(** What is left of the wire after the frames the buffer holds. *)
Lemma drains_wired items p w later :
  recv_ok p w → wired w items → buf p ++ later = concat items.*1 →
  ∃ done rest p' w', items = done ++ rest ∧ drains p done.*2 (Ok p')
    ∧ buf p' ++ later = concat rest.*1 ∧ recv_ok p' w' ∧ wired w' rest
    ∧ (∀ f ev rest', rest = (f, ev) :: rest' → (length (buf p') < length f)%nat).
Proof.
  revert p w. induction items as [|[f ev] items IH]; intros p w Hok Hw Hb; simpl in Hb.
  - apply app_nil in Hb as [Hb ->]. exists [], [], p, w. split; [done|]. rewrite Hb.
    split; [|done]. simpl. constructor. apply frame_step_None. by rewrite Hb.
  - apply app_eq_inv in Hb as [(k & Hb & Hk)|(k & Hf & Hk)].
    + destruct (frame_step_wired _ _ _ _ _ _ Hok Hw Hb) as (p1 & w1 & Hs & Hb1 & Hok1 & Hw1).
      rewrite <-Hb1 in Hk.
      destruct (IH p1 w1 Hok1 Hw1 (eq_sym Hk)) as (d & rest & p' & w' & -> & Hd & Hrest).
      exists ((f, ev) :: d), rest, p', w'. split; [done|]. split; [|done].
      by apply (drains_frame p p1 (Some ev)).
    + destruct k as [|x k].
      { rewrite app_nil_r in Hf. simpl in Hk. subst later.
        destruct (frame_step_wired p w f ev items []) as (p1 & w1 & Hs & Hb1 & Hok1 & Hw1);
          [done..|by rewrite app_nil_r|].
        destruct (IH p1 w1 Hok1 Hw1) as (d & rest & p' & w' & -> & Hd & Hrest); [by rewrite Hb1|].
        exists ((f, ev) :: d), rest, p', w'. split; [done|]. split; [|done].
        by apply (drains_frame p p1 (Some ev)). }
      exists [], ((f, ev) :: items), p, w. split; [done|]. split.
      { simpl. constructor. by eapply (frame_step_prefix p w f ev items (x :: k)). }
      split; [by rewrite Hk; simpl; rewrite Hf, <-app_assoc|]. split; [done|]. split; [done|].
      intros f' ev' rest' [= <- _ _]. rewrite Hf, length_app. simpl. lia.
Qed.

(** ** Both ends *)

Lemma recv_ok_release p w : recv_ok p w → recv_ok (WsParser_release_idle p) w.
Proof.
  intros (Hr & Hm & Hf & Hp & Hz). repeat split; try done; try apply Hp. intros Hzip.
  destruct (Hz Hzip) as (c & Hi & Hc & Ht). exists (InflateCtx_release_idle c).
  simpl. rewrite Hi. split; [done|]. split; [by apply inflater_release_ok|].
  unfold InflateCtx_release_idle. by destruct (i_used c), (i_inner c).
Qed.

Lemma receive_wired ops p w items ev :
  recv_ok p w → wired w items → buf p ++ concat (chunk_bytes <$> ops) = concat items.*1 →
  (len (buf p) + len (concat (chunk_bytes <$> ops))) * mx < U64_MAX →
  (∀ f e rest, items = (f, e) :: rest → (length (buf p) < length f)%nat) →
  ∃ p' w', try_fold receive_op (p, ev) ops = Ok (p', ev ++ items.*2) ∧ buf p' = []
    ∧ recv_ok p' w'.
Proof.
  revert p w items ev. induction ops as [|[c|] ops IH]; intros p w items ev Hok Hw Hb Hsm Hpre.
  - simpl in Hb. rewrite app_nil_r in Hb. destruct items as [|[f e] items].
    { exists p, w. simpl. by rewrite app_nil_r. }
    specialize (Hpre _ _ _ eq_refl). rewrite Hb in Hpre. simpl in Hpre.
    rewrite length_app in Hpre. lia.
  - rewrite fmap_cons in Hb, Hsm. cbn [concat chunk_bytes] in Hb, Hsm.
    rewrite app_assoc in Hb. rewrite length_app in Hsm.
    pose proof Hok as (_ & Hm & _ & Hp & _).
    destruct (drains_wired items (grow p c) w _ Hok Hw Hb)
      as (d & rest & p1 & w1 & -> & Hd & Hb1 & Hok1 & Hw1 & Hpre1).
    assert (parser_ok (grow p c)) as Hg by done.
    destruct (drains_spec _ _ _ Hg Hd) as (_ & _ & Hl). destruct (Hl _ eq_refl) as (_ & _ & _ & Hl1).
    assert (len (buf (grow p c)) = len (buf p) + len c) as Hgl by (simpl; rewrite length_app; lia).
    destruct mx_range as [Hmx _].
    assert ((len (buf p1) + len (concat (chunk_bytes <$> ops))) * mx < U64_MAX
      ∧ small p (len c)) as [Hsm1 Hsm2].
    { unfold small. rewrite Hm. split; (eapply Z.le_lt_trans; [|exact Hsm]);
        apply Z.mul_le_mono_nonneg_r; lia. }
    cbn [try_fold receive_op fst snd]. rewrite (feed_drains _ _ _ _ Hp Hsm2 Hd). simpl.
    destruct (IH p1 w1 rest (ev ++ d.*2) Hok1 Hw1 Hb1) as (p' & w' & -> & ?); [done..|].
    exists p', w'. by rewrite fmap_app, app_assoc.
  - rewrite fmap_cons in Hb, Hsm. cbn [concat chunk_bytes app] in Hb, Hsm. cbn [try_fold receive_op fst snd mbind result_bind].
    by apply (IH _ w); [apply recv_ok_release|..].
Qed.

(** What the sending end may be given for the receiving end to take it.  A
    message that is not compressed fits the receiver's limit.  One that is
    compressed is not empty, its compressed forms and what they inflate to are
    within the receiver's limits, and the encoder is not misled about the end of
    its compressed form ([flush_marked]).  A control frame is one that the
    protocol allows. *)
Definition sendable (pack : bool) (o : send_op) : Prop :=
  match o with
  | SendMessage k m =>
      if pack
      then m ≠ [] ∧ flush_marked m
        ∧ ∀ c w z, flush_complete c w m (z ++ SYNC_MARKER) → len z ≤ mx ∧ len m ≤ inflate_limit (len z) mx
      else len m ≤ mx
  | SendControl op pl =>
      len pl ≤ Z.min mx 125
      ∧ (op = OP_PING ∨ op = OP_PONG ∨ op = OP_CLOSE ∧ check_close pl = Ok ())
  | SendClose code => close_code_allowed code = true ∧ 2 ≤ mx
  | SenderIdle => True
  end.

(** The sending encoder: the other role, and a deflater that keeps its context
    only when the receiver's inflater does. *)
Definition sender_ok (pack : bool) (e : WsEncoder) (w : bytes) : Prop :=
  e_role e = peer r ∧
  match deflater e with
  | Some d => pack = true ∧ zip = true ∧ deflater_ok d w ∧ (d_takeover d = true → tk = true)
  | None => pack = false
  end.

Lemma encode_frame_keeps e f rs op pl out :
  e_role (encode_frame e f rs op pl out).1 = e_role e
  ∧ deflater (encode_frame e f rs op pl out).1 = deflater e.
Proof. unfold encode_frame. by destruct (e_role e) eqn:?. Qed.

Lemma close_code_range code : close_code_allowed code = true → 0 ≤ code < 65536.
Proof. unfold close_code_allowed. intros H. lia. Qed.

Lemma check_close_code code : close_code_allowed code = true → check_close (to_be_bytes 2 code) = Ok ().
Proof.
  intros Hc. pose proof (close_code_range _ Hc).
  assert (from_be_bytes (to_be_bytes 2 code) = code) as Hf by (apply from_to_be_bytes; lia).
  pose proof (length_to_be_bytes 2 code) as Hl.
  destruct (to_be_bytes 2 code) as [|hi [|lo [|]]]; try done.
  unfold check_close. by rewrite Hf, Hc.
Qed.

Lemma send_frame_wired pack e w f rs op pl :
  sender_ok pack e w → sender_ok pack (encode_frame e f rs op pl []).1 w.
Proof.
  intros [Hr Hd]. destruct (encode_frame_keeps e f rs op pl []) as [H1 H2].
  unfold sender_ok. by rewrite H1, H2.
Qed.

Lemma send_plain pack e w op pl ev :
  sender_ok pack e w → len pl ≤ mx → plain_event op pl ev →
  let fe := encode_frame e true false op pl [] in
  sender_ok pack fe.1 w ∧ ∀ more, wired w more → wired w ([(fe.2, ev)] ++ more).
Proof.
  intros Hs Hl Hev. split; [by apply send_frame_wired|]. intros more Hm.
  apply wired_plain; [by destruct Hs|done..].
Qed.

Lemma send_packed pack e d w k m :
  sender_ok pack e w → deflater e = Some d → sendable pack (SendMessage k m) →
  ∃ n e' w' items, (∀ fuel, (n ≤ fuel)%nat → send fuel e (SendMessage k m) = Ok (e', concat items.*1))
    ∧ items.*2 = sent_event (SendMessage k m) ∧ sender_ok pack e' w'
    ∧ ∀ more, wired w' more → wired w (items ++ more).
Proof.
  intros [Hr Hd] Hde Ho. rewrite Hde in Hd. destruct Hd as (-> & Hzip & Hok & Htk).
  destruct Ho as (Hm & Hmark & Hz).
  destruct (compress_ok d w m Hok Hm Hmark) as (z & d' & n & Hdef & Hc & Hok' & Ht & c0 & w0 & Hdone).
  destruct (Hz _ _ _ Hdone) as [Hzl Hml].
  set (e1 := mkWsEncoder (Some d') (e_role e) (mask_counter e)).
  set (fe := encode_frame e1 true true (kind_opcode k) z []).
  exists n, fe.1, (last_n WINDOW (w ++ m)), [(fe.2, Message k m)].
  split; [|split; [done|split]].
  - intros fuel Hf. simpl. unfold encode_message, encode_message_into. rewrite Hde, Hc by done.
    simpl. fold (kind_opcode k). by rewrite app_nil_r, <-surjective_pairing.
  - apply send_frame_wired. split; [done|]. simpl. by rewrite Ht.
  - intros more Hmore. apply wired_packed; try done.
    + unfold deflate_window in Hdef. destruct (d_takeover d).
      * by rewrite Htk.
      * destruct tk; [|done]. apply (deflated_longer w) in Hdef. by rewrite app_nil_r in Hdef.
Qed.

(** One operation of the sender puts its frames on the wire. *)
Lemma send_wired pack e w o :
  sender_ok pack e w → sendable pack o →
  ∃ n e' w' items, (∀ fuel, (n ≤ fuel)%nat → send fuel e o = Ok (e', concat items.*1))
    ∧ items.*2 = sent_event o ∧ sender_ok pack e' w'
    ∧ ∀ more, wired w' more → wired w (items ++ more).
Proof.
  intros Hs Ho. destruct o as [k m|op pl|code|]; simpl in Ho.
  - destruct (deflater e) as [d|] eqn:Hd.
    + by apply (send_packed _ _ d).
    + pose proof Hs as [_ Hp]. rewrite Hd in Hp. subst pack.
      destruct (send_plain false e w (kind_opcode k) m (Message k m)) as [H1 H2];
        [done..|destruct k; constructor|].
      eexists 0%nat, _, w, [((encode_frame e true false (kind_opcode k) m []).2, Message k m)].
      split; [|split; [done|split; [exact H1|exact H2]]].
      intros fuel _. simpl. unfold encode_message, encode_message_into. rewrite Hd, app_nil_r.
      fold (kind_opcode k). by rewrite <-surjective_pairing.
  - destruct Ho as [Hl Hop].
    set (ev := if op =? OP_PING then Ping pl else if op =? OP_PONG then Pong pl else Close pl).
    assert (plain_event op pl ev) as Hev.
    { destruct Hop as [->|[->|[-> Hc]]]; constructor; try done; lia. }
    destruct (send_plain pack e w op pl ev) as [H1 H2]; [done|lia|done|].
    eexists 0%nat, _, w, [((encode_frame e true false op pl []).2, ev)].
    split; [|split; [done|split; [exact H1|exact H2]]].
    intros fuel _. simpl. unfold encode_control. by rewrite app_nil_r, <-surjective_pairing.
  - destruct Ho as [Hc Hl]. set (pl := to_be_bytes 2 code).
    assert (length pl = 2%nat) as Hpl by apply length_to_be_bytes.
    destruct (send_plain pack e w OP_CLOSE pl (Close pl)) as [H1 H2]; [done|lia| |].
    { constructor; [lia|]. by apply check_close_code. }
    eexists 0%nat, _, w, [((encode_frame e true false OP_CLOSE pl []).2, Close pl)].
    split; [|split; [done|split; [exact H1|exact H2]]].
    intros fuel _. simpl. unfold encode_close, encode_control. by rewrite app_nil_r, <-surjective_pairing.
  - exists 0%nat, (WsEncoder_release_idle e), w, []. split; [done|]. split; [done|]. split; [|done].
    destruct Hs as [Hr Hd]. split; [done|]. simpl. destruct (deflater e) as [d|]; simpl; [|done].
    destruct Hd as (? & ? & ? & ?). repeat split; try done. by apply deflater_release_ok.
Qed.

Lemma sends_wired pack ops e w out :
  sender_ok pack e w → Forall (sendable pack) ops →
  ∃ n e' w' items, (∀ fuel, (n ≤ fuel)%nat →
      try_fold (λ '(e, out) o, '(e, new) ← send fuel e o; Ok (e, out ++ new)) (e, out) ops =
        Ok (e', out ++ concat items.*1))
    ∧ items.*2 = concat (sent_event <$> ops) ∧ sender_ok pack e' w' ∧ wired w items.
Proof.
  intros Hs Hops. revert e w out Hs. induction Hops as [|o ops Ho _ IH]; intros e w out Hs.
  - exists 0%nat, e, w, []. split; [intros fuel _; simpl; by rewrite app_nil_r|].
    split; [done|]. split; [done|constructor].
  - destruct (send_wired pack e w o Hs Ho) as (n1 & e1 & w1 & items1 & Hs1 & Hev1 & Hok1 & Hw1).
    destruct (IH e1 w1 (out ++ concat items1.*1) Hok1) as (n2 & e2 & w2 & items2 & Hs2 & Hev2 & Hok2 & Hw2).
    exists (n1 + n2)%nat, e2, w2, (items1 ++ items2). split; [|split; [|split; [done|by apply Hw1]]].
    + intros fuel Hf. cbn [try_fold]. rewrite Hs1 by lia. cbn [mbind result_bind].
      rewrite Hs2 by lia. by rewrite fmap_app, concat_app, app_assoc.
    + rewrite fmap_app, fmap_cons, Hev1, Hev2. done.
Qed.

(** C22. What one end of a connection sends, the other end receives: the messages,
    pings, pongs and closes the encoder writes are the events the parser of the
    other role gives, in order, however the bytes are cut into reads, compressed
    or not, and whenever either end drops its idle compression context.  What is
    sent is [sendable]: within the receiver's limits, not empty when compressed,
    and without the four bytes that end a flush where a call of the compressor
    fills the output in the middle of it, as the encoder then stops early
    ([early_marker_cuts_message] below). *)
Theorem connection_round_trip pack e p w ops :
  sender_ok pack e w → recv_ok p w → buf p = [] → Forall (sendable pack) ops →
  ∃ n e' wire, (∀ fuel, (n ≤ fuel)%nat → sends fuel e ops = Ok (e', wire)) ∧
    ∀ reads, concat (chunk_bytes <$> reads) = wire → len wire * mx < U64_MAX →
      ∃ p', receive p reads = Ok (p', concat (sent_event <$> ops)) ∧ buf p' = [].
Proof.
  intros Hs Hr Hb Hops.
  destruct (sends_wired pack ops e w [] Hs Hops) as (n & e' & w' & items & Hsend & Hev & _ & Hw).
  exists n, e', (concat items.*1). split; [exact Hsend|]. intros reads Hreads Hsm.
  destruct (receive_wired reads p w items [] Hr Hw) as (p' & w'' & Hrec & Hb' & _).
  - by rewrite Hb.
  - by rewrite Hb, Hreads.
  - intros f ev rest ->. destruct (parse_wired _ _ _ _ _ Hr Hw) as [fr HP]. specialize (HP []).
    apply parse_frame_size in HP. rewrite Hb. simpl. lia.
  - exists p'. split; [|done]. unfold receive. by rewrite Hrec, Hev.
Qed.
End session.

(** ** Messages in stored blocks *)

(** In stored blocks a message has one compressed form; the marker must not be
    in it before its end. *)
Lemma marker_at_end z out rest :
  forallb (λ n, implb (ends_with (take n z) SYNC_MARKER) (n =? length z)%nat) (seq 0 (S (length z))) = true →
  out ++ rest = z → ends_with out SYNC_MARKER = true → rest = [].
Proof.
  intros H <- He. rewrite forallb_forall in H. specialize (H (length out)).
  rewrite take_app_length, He, length_app in H. simpl implb in H.
  specialize (H ltac:(apply in_seq; lia)). apply Nat.eqb_eq in H.
  apply nil_length_inv. lia.
Qed.

Lemma stored_output c w m out : compressing (FL := stored_flate) c w m (length m) out →
  m ≠ [] ∧ out ++ c = stored_deflate m.
Proof. intros [Hm [(E & _)|[_ Hout]]]; [by destruct m|done]. Qed.

Lemma stored_marked m :
  forallb (λ n, implb (ends_with (take n (stored_deflate m)) SYNC_MARKER) (n =? length (stored_deflate m))%nat)
    (seq 0 (S (length (stored_deflate m)))) = true →
  flush_marked (FL := stored_flate) m.
Proof.
  intros H c w out [Hm Hout]%stored_output He. apply stored_complete; [done..|]. by eapply marker_at_end.
Qed.

(** The loop of [compress] ends when the output so far ends with the marker,
    and so it does when a call fills the output with these bytes in the middle
    of the message: the rest of the message is not sent. *)
Definition cut_message : bytes := replicate 155 1 ++ SYNC_MARKER ++ replicate 41 1.

Definition sent_and_read (m : bytes) : result WsError (bytes * bytes) :=
  '(_, z) ← compress 10 (DeflateCtx_new true) m;
  '(_, m) ← decompress (InflateCtx_new true) z 1000;
  Ok (z, m).

Lemma early_marker_cuts_message :
  sent_and_read cut_message = Ok (take 160 (stored_deflate cut_message), []) ∧
  length (stored_deflate cut_message) = 210%nat.
Proof. split; vm_compute; reflexivity. Qed.

(** A client that compresses, and the server it talks to. *)
Definition sample_encoder : WsEncoder := WsEncoder_with_role (Some (DeflateCtx_new true)) Client.

Definition sample_parser : WsParser := WsParser_new 1000 (Some (InflateCtx_new true)).

Definition sample_sends : list send_op :=
  [SendMessage MText (str "hi"); SenderIdle; SendControl OP_PING (str "x");
   SendMessage MText (str "hi"); SendClose 1000].

Lemma connection_round_trip_witness :
  ∃ n e' wire, (∀ fuel, (n ≤ fuel)%nat → sends fuel sample_encoder sample_sends = Ok (e', wire)) ∧
    ∀ reads, concat (chunk_bytes <$> reads) = wire → len wire * 1000 < U64_MAX →
      ∃ p', receive sample_parser reads =
          Ok (p', [Message MText (str "hi"); Ping (str "x"); Message MText (str "hi");
                   Close [3; 232]]) ∧ buf p' = [].
Proof.
  apply (connection_round_trip Server 1000 true true ltac:(lia) true sample_encoder sample_parser []
           sample_sends).
  - split; [done|]. simpl. split; [done|]. split; [done|]. split; [|done]. apply deflater_ok_new.
  - split; [done|]. split; [done|]. split; [done|]. split; [split; vm_compute; done|].
    intros _. exists (InflateCtx_new true). split; [done|]. split; [apply inflater_ok_new|done].
  - done.
  - assert (sendable 1000 true (SendMessage MText (str "hi"))) as Hhi.
    { split; [done|]. split; [by apply stored_marked|].
      intros c w z [[_ Hout]%stored_output _]. apply (f_equal length) in Hout. rewrite !length_app in Hout.
      change (length (stored_deflate (str "hi"))) with 12%nat in Hout. simpl length in Hout.
      split; [lia|]. change (len (str "hi")) with 2. unfold inflate_limit.
      change (inflate_allowance 1000) with 66036. lia. }
    constructor; [exact Hhi|]. constructor; [done|].
    constructor; [split; [vm_compute; done|by left]|]. constructor; [exact Hhi|].
    constructor; [split; [done|lia]|constructor].
Defined.
