(* ===== verification/WsRead.v ===== *)
(** * Reading a connection: read_events_into of frame.rs and its deadlines

    A call hands over about one message limit of decoded bytes, and a client
    that trickles a message cannot hold the connection past the deadline that
    was set when the message began. *)

From S2P Require Import Prelude Utf8 WsFrame WsFlate WsFrameSpec.

Local Open Scope Z_scope.

Section read.
Context `{FL : Flate2} `{BM : BytesMut}.

(** A frame that gives no event is part of a message still open. *)
Lemma frame_step_silent p p' :
  frame_step p = Ok (Some (p', None)) → assembly_pending p' = true ∧ completed p' = completed p.
Proof.
  unfold frame_step. intros H. inv_bind H. destruct v as [[fr n]|]; [|done].
  inv_bind H. destruct v as [q o]. unfold handle_frame in Hv0.
  repeat case_match; simplify_eq; simpl in *;
    repeat (inv_bind Hv0; try match type of v with prod _ _ => destruct v end; simplify_eq); try done;
    unfold assembly_pending; simpl; by destruct (drop n (buf p)).
Qed.

(** What a drain adds to the events, and its decoded bytes. *)
Lemma drain_spec bud p ev dec p' ev' dec' :
  parser_ok p → bud ≤ U64_MAX → drain bud (p, ev, dec) = Ok (p', ev', dec') →
  parser_ok p' ∧ max_message p' = max_message p
  ∧ ∃ evs, ev' = ev ++ evs ∧ Forall (λ e, len (event_payload e) ≤ max_message p) evs
    ∧ (dec < bud → dec + total_bytes evs < bud + max_message p)
    ∧ (evs = [] → completed p' = completed p
        ∧ (assembly_pending p = true → assembly_pending p' = true)).
Proof.
  remember (length (buf p)) as n eqn:Hn. revert p ev dec Hn.
  induction (lt_wf n) as [n _ IH]. intros p ev dec -> Hp Hbud H.
  rewrite drain_unfold in H by done.
  destruct (frame_step p) as [[[q o]|]|e] eqn:Hs; simpl in H; [| |done].
  - destruct (frame_step_spec _ _ _ Hp Hs) as (Hq & Hm & Hl & Ho).
    assert (o = None → assembly_pending q = true ∧ completed q = completed p) as Hsil
      by (intros ->; by apply frame_step_silent in Hs).
    assert (0 ≤ total_bytes (opt_events o) ≤ max_message p
      ∧ Forall (λ e, len (event_payload e) ≤ max_message p) (opt_events o)) as [Hob HoF].
    { destruct o as [e|]; simpl; [|by destruct Hp; split; [lia|constructor]].
      specialize (Ho e eq_refl). pose proof (event_bytes_le e).
      split; [lia|by repeat constructor]. }
    assert (count_decoded dec o = Z.min U64_MAX (dec + total_bytes (opt_events o)) ∨ o = None
      ∧ count_decoded dec o = dec) as Hcd.
    { destruct o as [e|]; simpl; [left; unfold sat_add; lia|by right]. }
    destruct (Z.leb_spec bud (count_decoded dec o)) as [Hle|Hgt].
    + simplify_eq. split; [done|]. split; [done|]. exists (opt_events o).
      split; [done|]. split; [done|]. split; [lia|]. intros He.
      destruct o; [done|]. destruct Hsil as [H1 H2]; done.
    + destruct (IH (length (buf q)) ltac:(lia) q _ _ eq_refl Hq Hbud H)
        as (Hp' & Hm' & evs & -> & HF & Hb & Hsil').
      split; [done|]. split; [congruence|]. exists (opt_events o ++ evs).
      rewrite app_assoc, Hm in *. split; [done|]. split; [by apply Forall_app|].
      split; [rewrite total_bytes_app; destruct Hcd as [Hcd|[-> Hcd]]; simpl in *; lia|].
      intros He%app_nil. destruct He as [He ->]. destruct o; [done|].
      destruct (Hsil eq_refl), (Hsil' eq_refl). split; [congruence|auto].
  - simplify_eq. split; [done|]. split; [done|]. exists []. rewrite app_nil_r.
    destruct Hp. repeat split; simpl; try done. lia.
Qed.

Lemma drain_events_spec bud p p' evs :
  parser_ok p → bud ≤ U64_MAX → drain_events_into p [] bud = Ok (p', evs) →
  parser_ok p' ∧ max_message p' = max_message p
  ∧ Forall (λ e, len (event_payload e) ≤ max_message p) evs
  ∧ (0 < bud → total_bytes evs < bud + max_message p)
  ∧ (evs = [] → completed p' = completed p
      ∧ (assembly_pending p = true → assembly_pending p' = true)).
Proof.
  intros Hp Hb H. unfold drain_events_into in H. inv_bind H. destruct v as [[q ev] dec]. simplify_eq.
  destruct (drain_spec _ _ _ _ _ _ _ Hp Hb Hv) as (? & ? & evs' & -> & ? & ? & ?). done.
Qed.

Lemma shrink_spec p :
  parser_ok p → parser_ok (shrink p) ∧ max_message (shrink p) = max_message p
  ∧ completed (shrink p) = completed p ∧ assembly_pending (shrink p) = assembly_pending p.
Proof.
  intros Hp. unfold shrink. destruct (buf p) eqn:Hb; [|done].
  destruct (negb _ && _); [|done]. repeat split; try apply Hp.
  unfold assembly_pending. simpl. by rewrite Hb.
Qed.

(** Nothing was waited for at or after [T]. *)
Definition waited (T : Z) (r : Read) : Prop := Forall (λ at_, at_ < T) (r_polls r).

(** The runtime polls within [lag] of any instant at which nothing is there to
    read: the timer of the deadline wakes the task, and the task is run. *)
Definition prompt (lag : Z) (r : Read) : Prop :=
  ∀ T, T + lag < r_ready r → ∃ at_, at_ ∈ r_polls r ∧ T ≤ at_.

Lemma waited_ready T lag r : waited T r → prompt lag r → r_ready r ≤ T + lag.
Proof.
  intros Hw Hp. destruct (Z.le_gt_cases (r_ready r) (T + lag)) as [|Hlt]; [done|].
  destruct (Hp T Hlt) as (at_ & Hin & Hle). unfold waited in Hw. rewrite Forall_forall in Hw.
  specialize (Hw at_ Hin). cbn in Hw. lia.
Qed.

Lemma timeout_at_waited deadline T r : timeout_at deadline r = false → deadline ≤ T → waited T r.
Proof.
  unfold timeout_at. intros H Hle. apply Forall_forall. intros at_ Hin%list_elem_of_In.
  destruct (Z.leb_spec deadline at_) as [Hge|]; [|lia]. exfalso.
  rewrite <-not_true_iff_false in H. apply H, existsb_exists. exists at_. by rewrite Z.leb_le.
Qed.

(** A read meets the message deadline, when there is one, and leaves it as it
    is. *)
Lemma read_once_spec p d r p' d' :
  parser_ok p → read_once p d r = Ok (p', d') →
  parser_ok p' ∧ max_message p' = max_message p ∧ completed p' = completed p
  ∧ assembly_pending p' = true ∧ message d' = message d
  ∧ ∀ m T, assembly_pending p = true → message d = Some m → message_at d = Some T →
      waited T r ∧ message_at d' = Some T.
Proof.
  unfold read_once. intros Hp H.
  destruct (next d (assembly_pending p) (r_before r)) as [d1 dl] eqn:Hn.
  inv_bind H. destruct (r_data r) as [e|[|x data]]; [done..|]. simplify_eq.
  assert (parser_ok (reserve_read p) ∧ max_message (reserve_read p) = max_message p
    ∧ completed (reserve_read p) = completed p) as (H1 & H2 & H3).
  { unfold reserve_read. by destruct (_ <? _). }
  split; [done|]. split; [done|]. split; [done|]. split.
  { unfold assembly_pending. simpl. by destruct (buf (reserve_read p)). }
  unfold next in Hn. split.
  { destruct (negb _); by simplify_eq. }
  intros m T Hpend Hm HT. rewrite Hpend, Hm, HT in Hn. simpl in Hn.
  destruct (gap d); simplify_eq; simpl in Hv |- *; repeat case_match; simplify_eq; bool_to_prop;
    (split; [eapply timeout_at_waited; [done|lia]|done]).
Qed.

(** The deadline of the message being assembled. *)
Definition held_until (p : WsParser) (d : ReadDeadlines) (T : Z) : Prop :=
  assembly_pending p = true ∧ message_at d = Some T.

Definition armed (p : WsParser) (d : ReadDeadlines) : Prop :=
  assembly_pending p = true → ∃ T, message_at d = Some T.

Lemma decoded_spec d pending read cmpl now m :
  message d = Some m →
  let d' := decoded d pending read cmpl now in
  message d' = Some m ∧ (pending = true → ∃ T, message_at d' = Some T)
  ∧ (∀ T, pending = true → cmpl = false → message_at d = Some T → message_at d' = Some T).
Proof.
  intros Hm. unfold decoded. rewrite Hm. destruct pending; simpl; [|done].
  split; [done|]. split.
  - intros _. destruct (message_at d) as [T|]; destruct cmpl; simpl; eauto.
  - intros T _ -> ->. done.
Qed.

Lemma read_loop_spec reads p d m p' evs d' rest :
  parser_ok p → max_message p ≤ U64_MAX → message d = Some m →
  read_loop p d reads = Ok (Some (p', evs, d', rest)) →
  Forall (λ e, len (event_payload e) ≤ max_message p) evs
  ∧ (0 < max_message p → total_bytes evs < 2 * max_message p)
  ∧ message d' = Some m ∧ armed p' d'
  ∧ ∀ T, held_until p d T → ∃ used, reads = used ++ rest ∧ Forall (waited T) used.
Proof.
  revert p d. induction reads as [|r reads IH]; intros p d Hp Hmx Hm H; [done|].
  cbn [read_loop] in H. inv_bind H. destruct v as [p1 d1].
  destruct (read_once_spec _ _ _ _ _ Hp Hv) as (Hp1 & Hm1 & Hc1 & Ha1 & Hd1 & Hdl).
  inv_bind H. destruct v as [p2 ev2].
  destruct (drain_events_spec (max_message p1) p1 p2 ev2) as (Hp2 & Hm2 & HF & Htot & Hsil); [done|lia|done|].
  destruct (shrink_spec p2 Hp2) as (Hp3 & Hm3 & Hc3 & Ha3).
  set (cm := negb (completed (shrink p2) =? completed p1)) in H.
  destruct (decoded_spec d1 (assembly_pending (shrink p2)) true cm (r_after r) m)
    as (Hm4 & Harm & Hkeep); [congruence|].
  destruct ev2 as [|e ev2].
  - destruct (Hsil eq_refl) as [Hcm Hpend]. rewrite Ha3 in *.
    destruct (IH (shrink p2) _ Hp3 ltac:(lia) Hm4 H) as (HF' & Htot' & ? & ? & Huse).
    rewrite Hm3, Hm2, Hm1 in HF', Htot'. split; [done|]. split; [done|]. split; [done|]. split; [done|].
    intros T [Hp0 HT]. destruct (Hdl _ _ Hp0 Hm HT) as [Hr HT1].
    destruct (Huse T) as (used & -> & HU).
    { split; [rewrite Ha3; auto|]. apply Hkeep; [auto| |done]. unfold cm.
      rewrite Hc3, Hcm, Z.eqb_refl. done. }
    exists (r :: used). split; [done|by constructor].
  - simplify_eq. rewrite Hm1 in HF, Htot. split; [done|]. split; [lia|]. split; [done|].
    split; [exact Harm|]. intros T [Hp0 HT]. exists [r]. split; [done|].
    constructor; [|constructor]. by destruct (Hdl _ _ Hp0 Hm HT).
Qed.

(** C24. A client cannot hold a connection by trickling a message, nor flood it
    with one read: when a call of [read_events_into] returns, it was not waiting
    for a read at or after the deadline of the message that was being assembled,
    so every read it waited for was ready by then, or as much later as the
    runtime is late in polling; a message still incomplete has a deadline, and
    what was decoded is less than twice the message limit. *)
Theorem trickled_message_times_out p d m now reads p' evs d' rest :
  parser_ok p → 0 < max_message p ≤ U64_MAX → message d = Some m →
  read_events_into p d now reads = Ok (Some (p', evs, d', rest)) →
  (∀ T, held_until p d T → ∃ used, reads = used ++ rest ∧
     Forall (λ r, waited T r ∧ ∀ lag, prompt lag r → r_ready r ≤ T + lag) used)
  ∧ armed p' d' ∧ message d' = Some m
  ∧ total_bytes evs < 2 * max_message p
  ∧ Forall (λ e, len (event_payload e) ≤ max_message p) evs.
Proof.
  intros Hp Hmx Hm H. unfold read_events_into in H. inv_bind H. destruct v as [p1 ev1].
  destruct (drain_events_spec (max_message p) p p1 ev1) as (Hp1 & Hm1 & HF & Htot & Hsil); [done|lia|done|].
  destruct ev1 as [|e ev1].
  - destruct (Hsil eq_refl) as [Hcm Hpend].
    destruct (read_loop_spec _ _ _ _ _ _ _ _ Hp1 ltac:(lia) Hm H) as (HF' & Htot' & ? & ? & Huse).
    rewrite Hm1 in HF', Htot'. split.
    { intros T [Ha HT]. destruct (Huse T) as (used & -> & Hw); [by split; auto|].
      exists used. split; [done|]. eapply Forall_impl; [exact Hw|]. intros r Hr. split; [done|].
      intros lag. by apply waited_ready. }
    repeat split; try done. lia.
  - destruct (decoded_spec d (assembly_pending p1) false (negb (completed p1 =? completed p)) now m Hm)
      as (Hm2 & Harm & _). simplify_eq.
    split; [by intros; exists []|]. repeat split; try done. lia.
Qed.
End read.

(** A masked text frame read in three pieces, the first already buffered. *)
Definition trickling_parser : WsParser (FL := no_flate) := set_buf fresh_parser [0x81] 1024.

Definition sample_deadlines : ReadDeadlines :=
  mkReadDeadlines (Some 10) (Some 100) (Some 10) (Some 100) None.

Definition sample_reads : list Read :=
  [mkRead 0 [0] 5 (inr [0x82; 1; 2; 3; 4]) 5; mkRead 5 [5; 9] 12 (inr [105; 107]) 12].

Definition sample_read : WsParser (FL := no_flate) * ReadDeadlines :=
  Eval vm_compute in
  match read_events_into trickling_parser sample_deadlines 0 sample_reads with
  | Ok (Some (p, _, d, _)) => (p, d)
  | _ => (trickling_parser, sample_deadlines)
  end.

Lemma trickled_message_times_out_witness :
  read_events_into trickling_parser sample_deadlines 0 sample_reads =
    Ok (Some (sample_read.1, [Message MText (str "hi")], sample_read.2, []))
  ∧ held_until trickling_parser sample_deadlines 100
  ∧ ∀ T, held_until trickling_parser sample_deadlines T →
      ∃ used, sample_reads = used ++ [] ∧
        Forall (λ r, waited T r ∧ ∀ lag, prompt lag r → r_ready r ≤ T + lag) used.
Proof.
  assert (read_events_into trickling_parser sample_deadlines 0 sample_reads =
    Ok (Some (sample_read.1, [Message MText (str "hi")], sample_read.2, []))) as E
    by (vm_compute; reflexivity).
  split; [exact E|]. split; [split; reflexivity|].
  destruct (trickled_message_times_out trickling_parser sample_deadlines 100 0 sample_reads
    sample_read.1 [Message MText (str "hi")] sample_read.2 []) as (H & _);
    [split; vm_compute; done|split; vm_compute; done|reflexivity|exact E|exact H].
Defined.
