(* ===== verification/DbCodec.v ===== *)
(** * The ordered key codec of the database

    [encode] writes a logical key and its duplicate so that plain byte order is
    the order of the table (the reverse of it for the tables with duplicates),
    and [decode] reads them back.  The relation [sep c u v], that [u] and [v]
    compare as [c] whatever follows them, carries both the order and the
    prefix-freeness the inversion of all bytes needs. *)

From S2P Require Import Prelude DbKeys.

Local Open Scope Z_scope.

(** ** Words that compare alike whatever follows *)

Definition sep (c : comparison) (u v : bytes) : Prop :=
  ∀ x y, bytes_cmp (u ++ x) (v ++ y) = then_with c (bytes_cmp x y).

Create HintDb sep.

Lemma then_with_assoc c d e : then_with (then_with c d) e = then_with c (then_with d e).
Proof. by destruct c. Qed.

Lemma sep_nil : sep Eq [] [].
Proof. by intros x y. Qed.

Lemma sep_byte a b : sep (a ?= b) [a] [b].
Proof. by intros x y. Qed.

Lemma sep_app c d u v u' v' :
  sep c u v → sep d u' v' → sep (then_with c d) (u ++ u') (v ++ v').
Proof. intros H1 H2 x y. by rewrite <-!app_assoc, H1, H2, then_with_assoc. Qed.

Lemma sep_lt_cons a b u v : a < b → sep Lt (a :: u) (b :: v).
Proof. intros Hab x y. cbn. by rewrite (proj2 (Z.compare_lt_iff a b)). Qed.

Lemma sep_gt_cons a b u v : b < a → sep Gt (a :: u) (b :: v).
Proof. intros Hab x y. cbn. by rewrite (proj2 (Z.compare_gt_iff a b)). Qed.

Lemma sep_same_cons c a u v : sep c u v → sep c (a :: u) (a :: v).
Proof. intros H x y. cbn. rewrite Z.compare_refl. apply H. Qed.

Lemma sep_cmp c u v : sep c u v → bytes_cmp u v = c.
Proof. intros H. specialize (H [] []). rewrite !app_nil_r in H. rewrite H. by destruct c. Qed.

Lemma sep_eq u v : sep Eq u v → u = v.
Proof. intros H%sep_cmp. by apply cmp_eq_iff in H. Qed.

#[export] Hint Resolve sep_nil sep_byte sep_lt_cons sep_gt_cons sep_same_cons : sep.

(** Complementing every byte reverses the order. *)
Lemma sep_not8 c u v : sep c u v → sep (CompOpp c) (not8 <$> u) (not8 <$> v).
Proof.
  revert v. induction u as [|a u IH]; intros [|b v] H.
  - apply sep_cmp in H as <-. apply sep_nil.
  - pose proof (sep_cmp _ _ _ H) as <-. specialize (H [b + 1] []). cbn in H.
    by rewrite (proj2 (Z.compare_gt_iff (b + 1) b)) in H by lia.
  - pose proof (sep_cmp _ _ _ H) as <-. specialize (H [] [a + 1]). cbn in H.
    by rewrite (proj2 (Z.compare_lt_iff a (a + 1))) in H by lia.
  - rewrite !fmap_cons. destruct (Z.compare_spec a b) as [->|Hab|Hab].
    + apply sep_same_cons, IH. intros x y. specialize (H x y). cbn in H.
      by rewrite Z.compare_refl in H.
    + pose proof (sep_cmp _ _ _ (sep_lt_cons a b u v Hab)) as E.
      rewrite (sep_cmp _ _ _ H) in E. subst c. apply sep_gt_cons. unfold not8. lia.
    + pose proof (sep_cmp _ _ _ (sep_gt_cons a b u v Hab)) as E.
      rewrite (sep_cmp _ _ _ H) in E. subst c. apply sep_lt_cons. unfold not8. lia.
Qed.

Lemma not8_not8 (u : bytes) : not8 <$> (not8 <$> u) = u.
Proof.
  rewrite <-list_fmap_compose. rewrite <-(list_fmap_id u) at 2.
  apply list_fmap_ext. intros _ b _. unfold compose, not8. cbn. lia.
Qed.

(** ** The pieces of a key *)

Lemma escape_cons b u : escape (b :: u) = escape_byte b ++ escape u.
Proof. unfold escape. cbn. by rewrite <-app_assoc. Qed.

Lemma sep_escape u v : bytes_ok u → bytes_ok v → sep (bytes_cmp u v) (escape u) (escape v).
Proof.
  intros Hu. revert v. induction Hu as [|a u Ha Hu IH]; intros v Hv;
    destruct Hv as [|b v Hb Hv].
  - unfold escape. cbn. eauto with sep.
  - rewrite escape_cons. unfold escape_byte, byte_ok in *. cbn -[escape].
    destruct (Z.eqb_spec b 0) as [->|Hne]; cbn -[escape].
    + apply sep_same_cons, sep_lt_cons. lia.
    + apply sep_lt_cons. lia.
  - rewrite escape_cons. unfold escape_byte, byte_ok in *. cbn -[escape].
    destruct (Z.eqb_spec a 0) as [->|Hne]; cbn -[escape].
    + apply sep_same_cons, sep_gt_cons. lia.
    + apply sep_gt_cons. lia.
  - rewrite !escape_cons. cbn [slice_cmp]. apply sep_app; [|by apply IH].
    unfold escape_byte, byte_ok in *.
    destruct (Z.eqb_spec a 0) as [->|Hna], (Z.eqb_spec b 0) as [->|Hnb]; auto with sep.
    + rewrite (proj2 (Z.compare_lt_iff 0 b)) by lia. apply sep_lt_cons. lia.
    + rewrite (proj2 (Z.compare_gt_iff a 0)) by lia. apply sep_gt_cons. lia.
Qed.

Lemma to_be_bytes_S n v : to_be_bytes (S n) v = to_be_bytes n (v / 256) ++ [v mod 256].
Proof. done. Qed.

Lemma compare_digits a b :
  then_with (a / 256 ?= b / 256) (a mod 256 ?= b mod 256) = (a ?= b).
Proof.
  destruct (Z.compare_spec (a / 256) (b / 256)) as [E|E|E]; cbn [then_with].
  - destruct (Z.compare_spec (a mod 256) (b mod 256)), (Z.compare_spec a b); zlia || done.
  - symmetry. apply Z.compare_lt_iff. zlia.
  - symmetry. apply Z.compare_gt_iff. zlia.
Qed.

Lemma sep_be n a b :
  0 ≤ a < 256 ^ Z.of_nat n → 0 ≤ b < 256 ^ Z.of_nat n →
  sep (a ?= b) (to_be_bytes n a) (to_be_bytes n b).
Proof.
  revert a b. induction n as [|n IH]; intros a b Ha Hb.
  - cbn in Ha, Hb. replace b with a by lia. rewrite Z.compare_refl. apply sep_nil.
  - rewrite !to_be_bytes_S, <-compare_digits.
    rewrite Nat2Z.inj_succ, Z.pow_succ_r in Ha, Hb by lia.
    apply sep_app; [apply IH; zlia|apply sep_byte].
Qed.

Lemma from_ne_bytes_bound v : bytes_ok v → (length v ≤ 8)%nat → 0 ≤ from_ne_bytes v < 256 ^ 8.
Proof.
  intros Hv Hl. pose proof (from_le_bytes_bound v Hv) as H. unfold from_ne_bytes.
  assert (256 ^ len v ≤ 256 ^ 8) by (apply Z.pow_le_mono_r; lia). lia.
Qed.

Lemma sep_ne a b : bytes_ok a → bytes_ok b → (length a ≤ 8)%nat → (length b ≤ 8)%nat →
  sep (from_ne_bytes a ?= from_ne_bytes b)
    (to_be_bytes 8 (from_ne_bytes a)) (to_be_bytes 8 (from_ne_bytes b)).
Proof. intros. apply sep_be; by apply from_ne_bytes_bound. Qed.

(** ** The order of a table *)

(** Integers in native order; keys of another length come first. *)
Definition int_cmp (a b : bytes) : comparison :=
  match bool_decide (length a = 8)%nat, bool_decide (length b = 8)%nat with
  | false, false => bytes_cmp a b
  | false, true => Lt
  | true, false => Gt
  | true, true => from_ne_bytes a ?= from_ne_bytes b
  end.

Definition key_cmp (dbi : Z) (a b : bytes) : comparison :=
  match dbi_comparator (spec dbi) with
  | StringUint64 => cmp_string_u64 a b
  | StringUint64Uint64 => cmp_string_u64_u64 a b
  | Uint64Uint64 => cmp_u64_u64 a b
  | CmpDefault =>
      if has_flag dbi MDB_INTEGERKEY then int_cmp a b
      else if has_flag dbi MDB_REVERSEKEY then bytes_cmp (rev a) (rev b)
      else bytes_cmp a b
  end.

Definition dup_cmp (dbi : Z) (a b : bytes) : comparison :=
  if has_flag dbi MDB_INTEGERDUP then int_cmp a b else bytes_cmp a b.

Lemma cmp_memn_bytes_cmp a b : cmp_memn a b = bytes_cmp a b.
Proof.
  unfold cmp_memn. revert b. induction a as [|x a IH]; intros [|y b]; cbn; [done..|].
  specialize (IH b). destruct (x ?= y); cbn; [exact IH|done..].
Qed.

Lemma match_then_with c d : match c with Eq => d | Lt => Lt | Gt => Gt end = then_with c d.
Proof. by destruct c. Qed.

Lemma split_tail_app n k : (n ≤ length k)%nat →
  ∃ s t, k = s ++ t ∧ length t = n ∧ split_tail n k = (s, t).
Proof.
  intros Hn. exists (take (length k - n) k), (drop (length k - n) k).
  rewrite take_drop, length_drop. split_and!; [done|lia|done].
Qed.

Lemma slice_0_take {A} n (l : list A) : slice 0 n l = take n l.
Proof. unfold slice. by rewrite drop_0, Nat.sub_0_r. Qed.

Lemma slice_8_16 {A} (l : list A) : slice 8 16 l = take 8 (drop 8 l).
Proof. done. Qed.

Lemma sep_ne_take a b : bytes_ok a → bytes_ok b →
  sep (u64_from_ne a ?= u64_from_ne b)
    (to_be_bytes 8 (from_ne_bytes (take 8 a))) (to_be_bytes 8 (from_ne_bytes (take 8 b))).
Proof.
  intros Ha Hb. unfold u64_from_ne. apply sep_ne; try apply Forall_take; auto;
    rewrite length_take; lia.
Qed.

Lemma sep_chunks_1 a b : bytes_ok a → bytes_ok b →
  sep (u64_from_ne a ?= u64_from_ne b) (chunks_be 1 a) (chunks_be 1 b).
Proof. intros Ha Hb. cbn [chunks_be]. rewrite !app_nil_r. by apply sep_ne_take. Qed.

Lemma sep_chunks_2 a b : bytes_ok a → bytes_ok b →
  sep (match u64_from_ne (slice 0 8 a) ?= u64_from_ne (slice 0 8 b) with
       | Eq => u64_from_ne (slice 8 16 a) ?= u64_from_ne (slice 8 16 b)
       | o => o
       end) (chunks_be 2 a) (chunks_be 2 b).
Proof.
  intros Ha Hb. rewrite !slice_0_take, !slice_8_16.
  assert (∀ l, u64_from_ne (take 8 l) = u64_from_ne l) as Htk.
  { intros l. unfold u64_from_ne. by rewrite take_take. }
  rewrite !Htk. cbn [chunks_be]. rewrite !app_nil_r.
  rewrite match_then_with.
  apply sep_app; apply sep_ne_take; auto using Forall_drop.
Qed.

Lemma sep_int a b : bytes_ok a → bytes_ok b →
  sep (int_cmp a b)
    (if decide (length a = 8%nat) then 1 :: to_be_bytes 8 (from_ne_bytes a) else 0 :: escape a)
    (if decide (length b = 8%nat) then 1 :: to_be_bytes 8 (from_ne_bytes b) else 0 :: escape b).
Proof.
  intros Ha Hb. unfold int_cmp.
  destruct (decide (length a = 8%nat)) as [Ea|Ea], (decide (length b = 8%nat)) as [Eb|Eb];
    repeat (case_bool_decide; try done).
  - apply sep_same_cons, sep_ne; auto; lia.
  - by apply sep_same_cons, sep_escape.
Qed.

(** Keys with integers at their end: malformed keys first, then the string,
    then the integers. *)
Lemma sep_string_ints ints (cmp_tail : bytes → bytes → comparison) a b :
  (∀ a b, bytes_ok a → bytes_ok b → sep (cmp_tail a b) (chunks_be ints a) (chunks_be ints b)) →
  bytes_ok a → bytes_ok b →
  sep (match bool_decide (ints * 8 ≤ length a)%nat, bool_decide (ints * 8 ≤ length b)%nat with
       | false, false => cmp_memn a b
       | false, true => Lt
       | true, false => Gt
       | true, true =>
           then_with (cmp_memn (split_tail (ints * 8) a).1 (split_tail (ints * 8) b).1)
             (cmp_tail (split_tail (ints * 8) a).2 (split_tail (ints * 8) b).2)
       end)
    (if negb (bool_decide (ints * 8 ≤ length a)%nat) then 0 :: escape a
     else 1 :: escape (split_tail (ints * 8) a).1 ++ chunks_be ints (split_tail (ints * 8) a).2)
    (if negb (bool_decide (ints * 8 ≤ length b)%nat) then 0 :: escape b
     else 1 :: escape (split_tail (ints * 8) b).1 ++ chunks_be ints (split_tail (ints * 8) b).2).
Proof.
  intros Ht Ha Hb. rewrite !cmp_memn_bytes_cmp.
  case_bool_decide; case_bool_decide; cbn [negb].
  - apply sep_same_cons, sep_app; [apply sep_escape|apply Ht]; cbn;
      auto using Forall_take, Forall_drop.
  - by apply sep_gt_cons.
  - by apply sep_lt_cons.
  - by apply sep_same_cons, sep_escape.
Qed.

Lemma sep_u64_u64 a b : bytes_ok a → bytes_ok b →
  sep (cmp_u64_u64 a b)
    (if bool_decide (length a = 16%nat) then 1 :: chunks_be 2 a else 0 :: escape a)
    (if bool_decide (length b = 16%nat) then 1 :: chunks_be 2 b else 0 :: escape b).
Proof.
  intros Ha Hb. unfold cmp_u64_u64. rewrite cmp_memn_bytes_cmp.
  case_bool_decide; case_bool_decide.
  - by apply sep_same_cons, sep_chunks_2.
  - by apply sep_gt_cons.
  - by apply sep_lt_cons.
  - by apply sep_same_cons, sep_escape.
Qed.

Lemma u64_u64_key k :
  (let '(_, tail) := split_tail (2 * 8) k in
   if negb (bool_decide (2 * 8 ≤ length k)%nat && bool_decide (length k = 16%nat))
   then 0 :: escape k else 1 :: [] ++ chunks_be 2 tail) =
  (if bool_decide (length k = 16%nat) then 1 :: chunks_be 2 k else 0 :: escape k).
Proof.
  unfold split_tail. case_bool_decide; case_bool_decide; try done; [|lia].
  replace (length k - 2 * 8)%nat with 0%nat by lia. done.
Qed.

Lemma key_prefix_sep dbi a b : bytes_ok a → bytes_ok b →
  sep (key_cmp dbi a b) (key_prefix dbi a) (key_prefix dbi b).
Proof.
  intros Ha Hb. unfold key_cmp, key_prefix.
  destruct (dbi_comparator (spec dbi)) eqn:Ec; cbn [key_ints Nat.eqb negb].
  - destruct (has_flag dbi MDB_INTEGERKEY); [by apply sep_int|].
    destruct (has_flag dbi MDB_REVERSEKEY); apply sep_escape; try apply Forall_rev; done.
  - rewrite !(bool_decide_true (StringUint64 ≠ Uint64Uint64)) by done.
    rewrite !orb_true_l, !andb_true_r.
    destruct (decide (StringUint64 ≠ Uint64Uint64)) as [_|[]]; [|done].
    unfold cmp_string_u64, split_tail at 1 2. rewrite match_then_with.
    apply (sep_string_ints 1 (λ a b, u64_from_ne a ?= u64_from_ne b)); auto using sep_chunks_1.
  - destruct (decide (Uint64Uint64 ≠ Uint64Uint64)) as [[]|_]; [done|].
    rewrite !(bool_decide_false (Uint64Uint64 ≠ Uint64Uint64)) by naive_solver.
    rewrite !orb_false_l, !u64_u64_key. by apply sep_u64_u64.
  - rewrite !(bool_decide_true (StringUint64Uint64 ≠ Uint64Uint64)) by done.
    rewrite !orb_true_l, !andb_true_r.
    destruct (decide (StringUint64Uint64 ≠ Uint64Uint64)) as [_|[]]; [|done].
    unfold cmp_string_u64_u64, split_tail at 1 2. rewrite match_then_with.
    exact (sep_string_ints 2 _ a b sep_chunks_2 Ha Hb).
Qed.

Lemma encode_dup_sep dbi a b : bytes_ok a → bytes_ok b →
  sep (dup_cmp dbi a b) (encode_dup dbi (Some a)) (encode_dup dbi (Some b)).
Proof.
  intros Ha Hb. unfold dup_cmp, encode_dup.
  destruct (has_flag dbi MDB_INTEGERDUP); cbn [andb app]; [|by apply sep_escape].
  pose proof (sep_int a b Ha Hb) as H.
  repeat case_bool_decide; repeat case_decide; done.
Qed.

Definition rev_if (b : bool) (c : comparison) : comparison := if b then CompOpp c else c.

Lemma encode_sep dbi a b da db c :
  bytes_ok a → bytes_ok b → sep c (encode_dup dbi da) (encode_dup dbi db) →
  sep (rev_if (reversed dbi) (then_with (key_cmp dbi a b) c)) (encode dbi a da) (encode dbi b db).
Proof.
  intros Ha Hb Hd. unfold encode, rev_if.
  pose proof (sep_app _ _ _ _ _ _ (key_prefix_sep dbi a b Ha Hb) Hd) as H.
  destruct (reversed dbi); [by apply sep_not8|done].
Qed.

(** ** Reading a key back *)

Lemma unescape_escape out k r : unescape out (escape k ++ r) = Ok (out ++ k, r).
Proof.
  revert out. induction k as [|b k IH]; intros out.
  - cbn. by rewrite app_nil_r.
  - rewrite escape_cons, <-app_assoc. unfold escape_byte.
    destruct (Z.eqb_spec b 0) as [->|Hb]; cbn -[escape].
    + rewrite IH. by rewrite <-app_assoc.
    + rewrite (proj2 (Z.eqb_neq b 0)) by done. cbn -[escape].
      rewrite IH. by rewrite <-app_assoc.
Qed.

Lemma to_ne_from_ne v : bytes_ok v → length v = 8%nat → to_ne_bytes (from_ne_bytes v) = v.
Proof. intros Hv Hl. unfold to_ne_bytes, from_ne_bytes. rewrite <-Hl. by apply to_from_le_bytes. Qed.

Lemma take_u64_be e v r : bytes_ok v → length v = 8%nat →
  take_u64 e (to_be_bytes 8 (from_ne_bytes v) ++ r) = Ok (v, r).
Proof.
  intros Hv Hl. unfold take_u64.
  assert (length (to_be_bytes 8 (from_ne_bytes v)) = 8%nat) as Hb by apply length_to_be_bytes.
  rewrite decide_True by (rewrite length_app; lia).
  rewrite take_app_length' by done. rewrite drop_app_length' by done.
  rewrite from_to_be_bytes by (apply from_ne_bytes_bound; [done|lia]).
  by rewrite to_ne_from_ne.
Qed.

Lemma take_ints_chunks n key v r : bytes_ok v → length v = (n * 8)%nat →
  take_ints n key (chunks_be n v ++ r) = Ok (key ++ v, r).
Proof.
  revert key v. induction n as [|n IH]; intros key v Hv Hl; cbn [take_ints chunks_be].
  - destruct v; [|done]. by rewrite app_nil_r.
  - rewrite <-app_assoc, take_u64_be; [|by apply Forall_take|rewrite length_take; lia].
    cbn. rewrite IH; [|by apply Forall_drop|rewrite length_drop; lia].
    by rewrite <-app_assoc, take_drop.
Qed.

Lemma decode_string_ints ints k r : bytes_ok k →
  (let '(head, tail) := split_tail (ints * 8) k in
   match (if negb (bool_decide (ints * 8 ≤ length k)%nat) then 0 :: escape k
          else 1 :: escape head ++ chunks_be ints tail) ++ r with
   | [] => Err (rocks_msg "empty key")
   | valid :: raw =>
       if valid =? 0 then unescape [] raw
       else if valid =? 1 then '(key, raw) ← unescape [] raw; take_ints ints key raw
       else Err (rocks_msg "invalid key header")
   end) = Ok (k, r).
Proof.
  intros Hk. unfold split_tail. case_bool_decide as Hl; cbn -[escape chunks_be take_ints].
  - rewrite <-app_assoc, unescape_escape. cbn -[chunks_be take_ints].
    rewrite take_ints_chunks; [by rewrite take_drop|by apply Forall_drop|].
    rewrite length_drop. lia.
  - by rewrite unescape_escape.
Qed.

Lemma decode_key_prefix dbi k r : bytes_ok k →
  decode_key dbi (key_prefix dbi k ++ r) = Ok (k, r).
Proof.
  intros Hk. unfold decode_key, key_prefix.
  destruct (dbi_comparator (spec dbi)) eqn:Ec; cbn [key_ints Nat.eqb negb orb andb Nat.max].
  - destruct (has_flag dbi MDB_INTEGERKEY).
    + case_decide as Hl; cbn -[escape take_u64 to_be_bytes].
      * by rewrite take_u64_be.
      * by rewrite unescape_escape.
    + destruct (has_flag dbi MDB_REVERSEKEY); rewrite unescape_escape; cbn; [|done].
      by rewrite rev_involutive.
  - rewrite !(bool_decide_true (StringUint64 ≠ Uint64Uint64)) by done.
    rewrite orb_true_l, andb_true_r.
    destruct (decide (StringUint64 ≠ Uint64Uint64)) as [_|[]]; [|done].
    exact (decode_string_ints 1 k r Hk).
  - rewrite !(bool_decide_false (Uint64Uint64 ≠ Uint64Uint64)) by naive_solver.
    destruct (decide (Uint64Uint64 ≠ Uint64Uint64)) as [[]|_]; [done|].
    rewrite orb_false_l, u64_u64_key.
    case_bool_decide as Hl; cbn -[escape take_ints chunks_be].
    + rewrite take_ints_chunks; done.
    + by rewrite unescape_escape.
  - rewrite !(bool_decide_true (StringUint64Uint64 ≠ Uint64Uint64)) by done.
    rewrite orb_true_l, andb_true_r.
    destruct (decide (StringUint64Uint64 ≠ Uint64Uint64)) as [_|[]]; [|done].
    exact (decode_string_ints 2 k r Hk).
Qed.

Lemma decode_encode_dup dbi v value : bytes_ok v → reversed dbi = true →
  decode_dup dbi (encode_dup dbi (Some v)) value = Ok (v, []).
Proof.
  intros Hv Hr. unfold decode_dup, encode_dup. unfold reversed in Hr. rewrite Hr.
  destruct (has_flag dbi MDB_INTEGERDUP); cbn [andb].
  - case_bool_decide; cbn -[escape take_u64 to_be_bytes].
    + rewrite <-(app_nil_r (to_be_bytes _ _)). by rewrite take_u64_be.
    + rewrite <-(app_nil_r (escape v)). by rewrite unescape_escape.
  - cbn [app]. rewrite <-(app_nil_r (escape v)). by rewrite unescape_escape.
Qed.

(** The duplicate a row of the table has in its key. *)
Definition dup_of (dbi : Z) (v : bytes) : option bytes := if reversed dbi then Some v else None.

(** C27. The codec keeps the order of every table: for any two rows, malformed
    keys and duplicates included, the byte strings [encode] writes compare as the
    comparator of the table orders the keys and, under one key, as the order of
    duplicates; in a table with duplicates all of it is reversed, so that a
    forward scan yields the newest row first. *)
Theorem encode_preserves_order dbi ka kb da db :
  bytes_ok ka → bytes_ok kb → bytes_ok da → bytes_ok db →
  bytes_cmp (encode dbi ka (dup_of dbi da)) (encode dbi kb (dup_of dbi db)) =
  if reversed dbi then CompOpp (then_with (key_cmp dbi ka kb) (dup_cmp dbi da db))
  else key_cmp dbi ka kb.
Proof.
  intros Hka Hkb Hda Hdb. apply sep_cmp. unfold dup_of.
  destruct (reversed dbi) eqn:Hr.
  - pose proof (encode_sep dbi ka kb (Some da) (Some db) _ Hka Hkb (encode_dup_sep dbi _ _ Hda Hdb)) as H.
    by rewrite Hr in H.
  - pose proof (encode_sep dbi ka kb None None Eq Hka Hkb sep_nil) as H.
    rewrite Hr in H. cbn [rev_if] in H. by destruct (key_cmp dbi ka kb).
Qed.

Lemma decode_encode dbi k v : bytes_ok k → bytes_ok v →
  decode dbi (encode dbi k (dup_of dbi v)) v = Ok (k, v).
Proof.
  intros Hk Hv. unfold decode, encode, dup_of. destruct (reversed dbi) eqn:Hr.
  - rewrite not8_not8, decode_key_prefix by done. cbn -[decode_dup encode_dup].
    by rewrite decode_encode_dup.
  - cbn [encode_dup]. rewrite decode_key_prefix by done. cbn -[decode_dup].
    unfold decode_dup. unfold reversed in Hr. by rewrite Hr.
Qed.

Lemma part_encode v r : (∀ b, v = Some b → len b < U32_MAX) →
  part (encode_part v ++ r) = Ok (v, r).
Proof.
  intros Hv. unfold part, encode_part. destruct v as [b|].
  - specialize (Hv b eq_refl). unfold wrap32, U32_MAX in *. rewrite Z.mod_small by lia.
    rewrite <-app_assoc.
    assert (length (to_le_bytes 4 (len b)) = 4%nat) as H4 by apply length_to_le_bytes.
    rewrite decide_False by (rewrite length_app; lia).
    rewrite take_app_length', drop_app_length' by done.
    rewrite from_to_le_bytes by lia.
    rewrite (proj2 (Z.eqb_neq _ _)) by lia.
    rewrite (proj2 (Z.ltb_ge _ _)) by (rewrite length_app; lia).
    rewrite Nat2Z.id. by rewrite take_app_length, drop_app_length.
  - assert (length (to_le_bytes 4 U32_MAX) = 4%nat) as H4 by apply length_to_le_bytes.
    rewrite decide_False by (rewrite length_app; lia).
    rewrite take_app_length', drop_app_length' by done.
    by rewrite from_to_le_bytes by (unfold U32_MAX; lia).
Qed.

(** The lengths of both components fit their headers. *)
Definition record_ok (r : EventRecord) : Prop :=
  (∀ b, r_packed r = Some b → len b < U32_MAX) ∧ (∀ b, r_payload r = Some b → len b < U32_MAX).

Lemma parts_encode r : record_ok r → parts (EventRecord_encode r) = Ok (r_packed r, r_payload r).
Proof.
  intros [H1 H2]. unfold parts, EventRecord_encode. rewrite part_encode by done. cbn.
  rewrite <-(app_nil_r (encode_part (r_payload r))), part_encode by done. done.
Qed.

Lemma EventRecord_decode_encode r : record_ok r →
  EventRecord_decode (EventRecord_encode r) = Ok r.
Proof. intros Hr. unfold EventRecord_decode. rewrite parts_encode by done. by destruct r. Qed.

(** C28. What is written is read back: [decode] inverts [encode] on every row of
    every table, malformed keys and duplicates included, and the combined record
    of an event gives back both of its components, absent ones included, while
    each is shorter than the length that marks an absent one. *)
Theorem codec_round_trip dbi k v r :
  bytes_ok k → bytes_ok v → record_ok r →
  decode dbi (encode dbi k (dup_of dbi v)) v = Ok (k, v) ∧
  EventRecord_decode (EventRecord_encode r) = Ok r.
Proof. auto using decode_encode, EventRecord_decode_encode. Qed.

Lemma encode_preserves_order_witness :
  bytes_cmp (encode 6 [0; 101; 1; 0; 0; 0; 0; 0; 0; 0] (dup_of 6 [7; 0; 0; 0; 0; 0; 0; 0]))
            (encode 6 [0; 101; 0; 1; 0; 0; 0; 0; 0; 0] (dup_of 6 [3; 0; 0; 0; 0; 0; 0; 0])) = Gt.
Proof.
  etrans; [apply encode_preserves_order; repeat constructor; unfold byte_ok; lia|].
  vm_compute. reflexivity.
Defined.

Lemma codec_round_trip_witness :
  decode 16 (encode 16 [0; 1] (dup_of 16 [9])) [9] = Ok ([0; 1], [9]) ∧
  EventRecord_decode (EventRecord_encode (mkEventRecord (Some [1; 2]) None)) =
    Ok (mkEventRecord (Some [1; 2]) None).
Proof.
  apply codec_round_trip.
  - repeat constructor; unfold byte_ok; lia.
  - repeat constructor; unfold byte_ok; lia.
  - split; [intros b [= <-]; vm_compute; reflexivity|discriminate].
Defined.
