(* ===== verification/DbIndex.v ===== *)
(** * Typed index entries: crates/wok-db/src/index.rs

    A scan of a historical index reads the timestamp and the local id of a row
    directly from its physical key.  The definitions translate both readers,
    the one that reuses the prefix of the seek key included; the theorems show
    that an entry read directly answers every question as the entry of the
    decoded row does. *)

From S2P Require Import Prelude DbKeys DbCodec.

Local Open Scope Z_scope.

Inductive Prefix : Type :=
| PLogical (b : bytes)
| InvertedEscaped (b : bytes).

Inductive LocalId : Type :=
| LInteger (id : Z)
| LLogical (b : bytes).

Record IndexEntry : Type := mkIndexEntry {
  ie_created_at : option Z;
  ie_local_id : LocalId;
  ie_prefix : Prefix;
  ie_kind : option Z;
}.

Definition from_logical (key value : bytes) : IndexEntry :=
  let '(prefix, created_at) :=
    match parse_key_string_u64 key with
    | Ok (prefix, time) => (prefix, Some time)
    | Err _ => (key, None)
    end in
  mkIndexEntry created_at (LLogical value) (PLogical prefix) None.

Definition local_id (e : IndexEntry) : result DbError Z :=
  match ie_local_id e with
  | LInteger id => Ok id
  | LLogical b => u64_from_ne_checked b
  end.

(** The iterator over an inverted escaped prefix: an escaped zero occupies two
    bytes. *)
Fixpoint inverted_bytes (b : bytes) : bytes :=
  match b with
  | [] => []
  | x :: b =>
      if not8 x =? 0 then
        not8 x :: match b with [] => [] | _ :: b => inverted_bytes b end
      else not8 x :: inverted_bytes b
  end.

(** [self.kind.into_iter().flat_map(u64::to_ne_bytes)] *)
Definition opt_ne_bytes (n : option Z) : bytes :=
  match n with Some n => to_ne_bytes n | None => [] end.

Definition prefix_bytes (e : IndexEntry) : bytes :=
  match ie_prefix e with
  | PLogical b => b
  | InvertedEscaped b => inverted_bytes b
  end ++ opt_ne_bytes (ie_kind e).

Definition is_none {A} (o : option A) : bool := match o with None => true | Some _ => false end.

(** [search.iter().all(..)]: every byte of [search] is the next one of [b]. *)
Fixpoint all_next (search b : bytes) : bool :=
  match search, b with
  | [], _ => true
  | _ :: _, [] => false
  | x :: search, y :: b => (y =? x) && all_next search b
  end.

Definition prefix_matches (e : IndexEntry) (search : bytes) (exact_len : bool) : bool :=
  if exact_len && is_none (ie_created_at e) then false
  else match ie_prefix e, ie_kind e with
  | PLogical prefix, None =>
      if exact_len || (length search <=? length prefix)%nat then
        starts_with prefix search
        && (negb exact_len || (length prefix =? length search)%nat)
      else
        starts_with search prefix
        && match ie_created_at e with
           | Some time => starts_with (to_ne_bytes time) (drop (length prefix) search)
           | None => false
           end
  | _, _ =>
      if exact_len then bool_decide (prefix_bytes e = search)
      else all_next search (prefix_bytes e ++ opt_ne_bytes (ie_created_at e))
  end.

Definition matches_kind (e : IndexEntry) (kind : Z) : bool :=
  bool_decide (take 8 (prefix_bytes e ++ opt_ne_bytes (ie_created_at e)) = to_ne_bytes kind).

Definition to_key (e : IndexEntry) : bytes :=
  prefix_bytes e ++ opt_ne_bytes (ie_created_at e).

(** [u64::from_be_bytes(bytes.map(|byte| !byte))] of eight bytes *)
Definition integer (raw : bytes) : option Z :=
  if decide (length raw = 8%nat) then Some (from_be_bytes (not8 <$> raw)) else None.

Definition matching_valid (dbi : Z) (start_key : bytes) : bool :=
  if (dbi =? 4) || (dbi =? 6) || (dbi =? 10) || (dbi =? 23) then (8 <=? length start_key)%nat
  else if (dbi =? 5) || (dbi =? 21) then (16 <=? length start_key)%nat
  else if dbi =? 9 then (length start_key =? 8)%nat
  else if dbi =? 12 then (length start_key =? 16)%nat
  else false.

(** [raw.len().checked_sub(n)] *)
Definition nat_checked_sub (a b : nat) : option nat :=
  if (b <=? a)%nat then Some (a - b)%nat else None.

Definition from_matching_rocks (dbi : Z) (raw start_key bound : bytes) : option IndexEntry :=
  time_at ← nat_checked_sub (length raw) 17;
  if negb (matching_valid dbi start_key)
     || negb (length raw =? length bound)%nat
     || bool_decide (take time_at raw ≠ take time_at bound)
     || bool_decide (raw !! (length raw - 9)%nat ≠ Some (not8 1))
  then None
  else
    time ← integer (slice time_at (time_at + 8) raw);
    id ← integer (drop (length raw - 8) raw);
    Some (mkIndexEntry (Some time) (LInteger id)
            (PLogical (take (length start_key - 8) start_key)) None).

(** The scan that checks every escape: a complemented zero is followed by a
    complemented 255. *)
Fixpoint escapes_ok (escaped : bytes) : bool :=
  match escaped with
  | [] => true
  | x :: escaped =>
      if x =? 255 then
        match escaped with
        | y :: escaped => (y =? 0) && escapes_ok escaped
        | [] => false
        end
      else escapes_ok escaped
  end.

(** [head.strip_suffix(&[255, 255])] *)
Definition strip_terminator (head : bytes) : option bytes :=
  let '(a, b) := split_tail 2 head in
  if decide (b = [255; 255]) then Some a else None.

(** [raw.get(a..b)] *)
Definition get_range (a b : nat) (raw : bytes) : option bytes :=
  if (a <=? b)%nat && (b <=? length raw)%nat then Some (slice a b raw) else None.

Definition is_composite (dbi : Z) : bool :=
  (dbi =? 4) || (dbi =? 5) || (dbi =? 6) || (dbi =? 10) || (dbi =? 21) || (dbi =? 23).

Definition has_kind (dbi : Z) : bool := (dbi =? 5) || (dbi =? 21).

Definition rocks_prefix (dbi : Z) (raw : bytes) (time_at : nat) : option (Prefix * option Z) :=
  if (dbi =? 9) && (time_at =? 1)%nat then Some (PLogical [], None)
  else if (dbi =? 12) && (time_at =? 9)%nat then
    k ← integer (slice 1 9 raw); Some (PLogical [], Some k)
  else if is_composite dbi then
    head_end ← (if has_kind dbi then nat_checked_sub time_at 8 else Some time_at);
    head ← get_range 1 head_end raw;
    escaped ← strip_terminator head;
    if escapes_ok escaped then
      kind ← (if has_kind dbi then k ← integer (slice head_end time_at raw); Some (Some k)
              else Some None);
      Some (InvertedEscaped escaped, kind)
    else None
  else None.

Definition from_rocks (dbi : Z) (raw : bytes) : option IndexEntry :=
  time_at ← nat_checked_sub (length raw) 17;
  if bool_decide (head raw ≠ Some (not8 1))
     || bool_decide (raw !! (length raw - 9)%nat ≠ Some (not8 1))
  then None
  else
    created_at ← integer (slice time_at (time_at + 8) raw);
    id ← integer (drop (length raw - 8) raw);
    '(prefix, kind) ← rocks_prefix dbi raw time_at;
    Some (mkIndexEntry (Some created_at) (LInteger id) prefix kind).

(** The entry [foreach_index] of rocks/txn.rs hands to its callback. *)
Definition index_entry (dbi : Z) (raw value start_key bound : bytes) : result DbError IndexEntry :=
  match from_matching_rocks dbi raw start_key bound with
  | Some e => Ok e
  | None =>
      match from_rocks dbi raw with
      | Some e => Ok e
      | None =>
          '(logical, duplicate) ← decode dbi raw value;
          Ok (from_logical logical duplicate)
      end
  end.

(** ** Questions asked of an entry *)

Lemma all_next_prefix s b : all_next s b = true ↔ s `prefix_of` b.
Proof.
  revert b. induction s as [|x s IH]; intros [|y b]; cbn.
  - split; [intros _; apply prefix_nil|done].
  - split; [intros _; apply prefix_nil|done].
  - split; [done|]. by intros ?%prefix_nil_not.
  - rewrite andb_true_iff, Z.eqb_eq, IH. split.
    + intros [-> H]. by apply prefix_cons.
    + intros H. split; [by apply prefix_cons_inv_1 in H|by eapply prefix_cons_inv_2].
Qed.

Lemma starts_with_prefix s p : starts_with s p = true ↔ p `prefix_of` s.
Proof. apply starts_with_true. Qed.

Lemma prefix_app_long {A} (s p t : list A) : (length p ≤ length s)%nat →
  s `prefix_of` p ++ t ↔ p `prefix_of` s ∧ drop (length p) s `prefix_of` t.
Proof.
  intros Hl. split.
  - intros [r Hr]. assert (s = p ++ drop (length p) s) as Hs.
    { apply (f_equal (take (length p))) in Hr as Hr'. rewrite take_app_length in Hr'.
      rewrite take_app_le in Hr' by done. rewrite Hr' at 1. by rewrite take_drop. }
    split; [by exists (drop (length p) s)|].
    exists r. rewrite Hs, <-app_assoc in Hr. by apply app_inv_head in Hr.
  - intros [[q ->] [r ->]]. rewrite drop_app_length. exists r. by rewrite app_assoc.
Qed.

Lemma prefix_app_short {A} (s p t : list A) : (length s ≤ length p)%nat →
  s `prefix_of` p ++ t ↔ s `prefix_of` p.
Proof.
  intros Hl. split; [|apply prefix_app_r].
  intros [r Hr]. exists (drop (length s) p).
  apply (f_equal (take (length s))) in Hr. rewrite take_app_length, take_app_le in Hr by done.
  rewrite <-Hr at 1. by rewrite take_drop.
Qed.

Lemma prefix_matches_spec e s exact :
  prefix_matches e s exact = true ↔
  if exact then is_Some (ie_created_at e) ∧ prefix_bytes e = s else s `prefix_of` to_key e.
Proof.
  unfold prefix_matches, to_key, prefix_bytes.
  destruct e as [t i [p|p] [k|]]; cbn [ie_created_at ie_local_id ie_prefix ie_kind].
  2: {
    cbn [opt_ne_bytes]. rewrite app_nil_r.
    destruct exact; cbn [orb andb negb].
    - destruct t as [t|]; cbn [is_none]; [|split; [done|by intros [[? ?] _]]].
      rewrite andb_true_iff, starts_with_prefix, Nat.eqb_eq. split.
      + intros [Hp Hl]. split; [done|]. symmetry. apply prefix_length_eq; [done|lia].
      + intros [_ ->]. done.
    - destruct (Nat.leb_spec (length s) (length p)) as [Hl|Hl].
      + rewrite andb_true_r, starts_with_prefix. by rewrite prefix_app_short.
      + rewrite andb_true_iff, starts_with_prefix.
        rewrite prefix_app_long by lia. destruct t as [t|]; cbn [opt_ne_bytes].
        * by rewrite starts_with_prefix.
        * split; [by intros []|]. intros [_ H]. apply prefix_nil_inv in H.
          apply (f_equal length) in H. rewrite length_drop in H. cbn in H. lia. }
  all: destruct exact; cbn [andb]; [destruct t as [t|]; cbn [is_none]|];
    [rewrite bool_decide_eq_true; naive_solver|split; [done|by intros [[? ?] _]]|apply all_next_prefix].
Qed.

(** Two entries no caller can tell apart. *)
Definition same_answers (e f : IndexEntry) : Prop :=
  ie_created_at e = ie_created_at f ∧ local_id e = local_id f ∧
  (∀ s x, prefix_matches e s x = prefix_matches f s x) ∧
  (∀ k, matches_kind e k = matches_kind f k) ∧ to_key e = to_key f.

Lemma same_answers_intro e f :
  ie_created_at e = ie_created_at f → local_id e = local_id f → prefix_bytes e = prefix_bytes f →
  same_answers e f.
Proof.
  intros Ht Hi Hp. unfold same_answers, matches_kind, to_key. rewrite Ht, Hp.
  split_and!; try done. intros s x. apply eq_bool_prop_intro.
  rewrite !Is_true_true, !prefix_matches_spec. unfold to_key. by rewrite Ht, Hp.
Qed.

(** ** Rows of the historical indexes *)

(** What comes before the timestamp in a key of the table. *)
Definition index_prefix_ok (dbi : Z) (p : bytes) : Prop :=
  bytes_ok p ∧
  ((is_composite dbi = true ∧ (has_kind dbi = true → 8 ≤ length p)%nat) ∨
   (dbi = 9 ∧ p = []) ∨ (dbi = 12 ∧ length p = 8%nat)).

Definition head_code (dbi : Z) (p : bytes) : bytes :=
  if dbi =? 9 then [1]
  else if dbi =? 12 then 1 :: to_be_bytes 8 (from_ne_bytes p)
  else if has_kind dbi then
    1 :: escape (split_tail 8 p).1 ++ to_be_bytes 8 (from_ne_bytes (split_tail 8 p).2)
  else 1 :: escape p.

Lemma is_composite_cases dbi : is_composite dbi = true →
  (has_kind dbi = false ∧ dbi_comparator (spec dbi) = StringUint64 ∨
   has_kind dbi = true ∧ dbi_comparator (spec dbi) = StringUint64Uint64) ∧
  (dbi =? 9) = false ∧ (dbi =? 12) = false ∧
  has_flag dbi MDB_INTEGERDUP = true ∧ reversed dbi = true.
Proof.
  unfold is_composite. rewrite !orb_true_iff, !Z.eqb_eq.
  intros [[[[[->| ->]| ->]| ->]| ->]| ->]; vm_compute; auto 10.
Qed.

Lemma index_reversed dbi p : index_prefix_ok dbi p →
  reversed dbi = true ∧ has_flag dbi MDB_INTEGERDUP = true.
Proof.
  intros (_ & [[H _]|[[-> _]|[-> _]]]); [|done..].
  apply is_composite_cases in H. naive_solver.
Qed.

Lemma chunks_be_app n v w : length v = 8%nat →
  chunks_be (S n) (v ++ w) = to_be_bytes 8 (from_ne_bytes v) ++ chunks_be n w.
Proof. intros Hv. cbn [chunks_be]. by rewrite take_app_length', drop_app_length'. Qed.

Lemma chunks_be_ne n t w : u64_ok t →
  chunks_be (S n) (to_ne_bytes t ++ w) = to_be_bytes 8 t ++ chunks_be n w.
Proof. intros Ht. rewrite chunks_be_app by apply length_to_ne_bytes. by rewrite from_to_ne_bytes. Qed.

Lemma key_prefix_index dbi p t : index_prefix_ok dbi p → u64_ok t →
  key_prefix dbi (p ++ to_ne_bytes t) = head_code dbi p ++ to_be_bytes 8 t.
Proof.
  assert (length (to_ne_bytes t) = 8%nat) as H8 by apply length_to_ne_bytes.
  intros (Hp & Hc) Ht. unfold key_prefix, head_code, split_tail.
  destruct Hc as [[(Hs & -> & -> & _)%is_composite_cases Hk]|[[-> ->]|[-> Hl]]].
  - destruct Hs as [[Hkd ->]|[Hkd ->]]; rewrite Hkd; cbn [key_ints Nat.eqb negb];
      rewrite bool_decide_true by (rewrite length_app; specialize (Hk Hkd) || idtac; lia);
      rewrite length_app, H8; cbn [andb orb negb].
    + replace (length p + 8 - 1 * 8)%nat with (length p) by lia.
      rewrite decide_True, take_app_length, drop_app_length by done.
      rewrite <-(app_nil_r (to_ne_bytes t)), chunks_be_ne by done.
      cbn [chunks_be]. by rewrite app_nil_r.
    + specialize (Hk Hkd).
      replace (length p + 8 - 2 * 8)%nat with (length p - 8)%nat by lia.
      rewrite decide_True, take_app_le, drop_app_le by (done || lia).
      rewrite chunks_be_app by (rewrite length_drop; lia).
      rewrite <-(app_nil_r (to_ne_bytes t)), chunks_be_ne by done.
      cbn [chunks_be fst snd app]. by rewrite app_nil_r, <-app_assoc.
  - change (dbi_comparator (spec 9)) with CmpDefault.
    change (has_flag 9 MDB_INTEGERKEY) with true. cbn [key_ints Nat.eqb negb app].
    rewrite decide_True by done. by rewrite from_to_ne_bytes.
  - change (dbi_comparator (spec 12)) with Uint64Uint64. cbn [key_ints Nat.eqb negb].
    rewrite !bool_decide_true by (rewrite length_app; lia).
    rewrite (bool_decide_false (_ ≠ _)), decide_False by naive_solver. cbn [andb orb negb app].
    replace (length (p ++ to_ne_bytes t) - 2 * 8)%nat with 0%nat by (rewrite length_app; lia).
    rewrite drop_0, chunks_be_app by done.
    rewrite <-(app_nil_r (to_ne_bytes t)), chunks_be_ne by done.
    change (12 =? 9) with false. change (12 =? 12) with true. cbn [chunks_be app].
    rewrite !app_nil_r, bool_decide_true by (rewrite length_app; lia). done.
Qed.

(** A row of a historical index, byte for byte. *)
Lemma encode_index dbi p t i : index_prefix_ok dbi p → u64_ok t → u64_ok i →
  encode dbi (p ++ to_ne_bytes t) (Some (to_ne_bytes i)) =
  not8 <$> (head_code dbi p ++ to_be_bytes 8 t ++ 1 :: to_be_bytes 8 i).
Proof.
  intros Hp Ht Hi. pose proof (index_reversed _ _ Hp) as [Hr Hd].
  unfold encode, encode_dup. rewrite Hr, Hd, key_prefix_index by done.
  rewrite bool_decide_true by apply length_to_ne_bytes. cbn [andb].
  by rewrite from_to_ne_bytes, <-app_assoc.
Qed.

Lemma to_from_be_bytes b : bytes_ok b → to_be_bytes (length b) (from_be_bytes b) = b.
Proof.
  intros Hb. unfold to_be_bytes, from_be_bytes.
  rewrite <-(length_rev b), to_from_le_bytes by (by apply Forall_rev).
  apply rev_involutive.
Qed.

Lemma not8_ok b : bytes_ok b → bytes_ok (not8 <$> b).
Proof.
  intros Hb. apply Forall_fmap. eapply Forall_impl; [exact Hb|].
  unfold compose, not8, byte_ok. intros; lia.
Qed.

Lemma integer_Some raw n : bytes_ok raw → integer raw = Some n →
  u64_ok n ∧ raw = not8 <$> to_be_bytes 8 n.
Proof.
  unfold integer. intros Hb. case_decide as Hl; [|done]. intros [= <-].
  assert (length (not8 <$> raw) = 8%nat) as Hl' by (by rewrite length_fmap).
  split.
  - pose proof (from_le_bytes_bound (rev (not8 <$> raw)) (Forall_rev (not8_ok _ Hb))) as H.
    rewrite length_rev, Hl' in H. unfold from_be_bytes, u64_ok, U64_MAX. lia.
  - rewrite <-Hl', to_from_be_bytes by (by apply not8_ok). by rewrite not8_not8.
Qed.

Lemma integer_not8 n : u64_ok n → integer (not8 <$> to_be_bytes 8 n) = Some n.
Proof.
  intros Hn. unfold integer. rewrite length_fmap, length_to_be_bytes, decide_True by done.
  rewrite not8_not8, from_to_be_bytes by (unfold u64_ok, U64_MAX in Hn; lia). done.
Qed.

(** Any key with a timestamp and an id at its end. *)
Lemma index_tail raw n t i :
  bytes_ok raw → nat_checked_sub (length raw) 17 = Some n →
  raw !! (length raw - 9)%nat = Some (not8 1) →
  integer (slice n (n + 8) raw) = Some t → integer (drop (length raw - 8) raw) = Some i →
  u64_ok t ∧ u64_ok i ∧
  raw = take n raw ++ (not8 <$> (to_be_bytes 8 t ++ 1 :: to_be_bytes 8 i)).
Proof.
  unfold nat_checked_sub. destruct (Nat.leb_spec 17 (length raw)) as [Hl|]; [|done].
  intros Hb [= <-] H9 Ht Hi.
  apply integer_Some in Ht as [Ht Et]; [|by apply Forall_slice].
  apply integer_Some in Hi as [Hi Ei]; [|by apply Forall_drop].
  split_and!; [done..|].
  rewrite fmap_app, fmap_cons, <-Et, <-Ei.
  rewrite <-(take_drop (length raw - 17) raw) at 1. f_equal.
  unfold slice. replace (length raw - 17 + 8 - (length raw - 17))%nat with 8%nat by lia.
  rewrite <-(take_drop 8 (drop (length raw - 17) raw)) at 1. f_equal.
  rewrite drop_drop. replace (length raw - 17 + 8)%nat with (length raw - 9)%nat by lia.
  rewrite (drop_S _ _ _ H9). do 2 f_equal. lia.
Qed.

(** ** Entries read from physical keys *)

Lemma escapes_inverted b : bytes_ok b → escapes_ok b = true →
  bytes_ok (inverted_bytes b) ∧ not8 <$> (inverted_bytes b ≫= escape_byte) = b.
Proof.
  induction b as [b IH] using (induction_ltof1 _ length). unfold ltof in IH.
  intros Hb. destruct Hb as [|x b Hx Hb]; [done|]. cbn [escapes_ok inverted_bytes].
  unfold byte_ok in Hx. replace (not8 x =? 0) with (x =? 255)
    by (unfold not8; destruct (Z.eqb_spec x 255), (Z.eqb_spec (255 - x) 0); lia).
  destruct (Z.eqb_spec x 255) as [->|Hne].
  - destruct Hb as [|y b Hy Hb]; [done|]. rewrite andb_true_iff, Z.eqb_eq. intros [-> He].
    destruct (IH b) as [Ho Hi]; [cbn; lia|done..|].
    split; [constructor; [unfold byte_ok, not8; lia|done]|].
    cbn [mbind list_bind app]. change (escape_byte (not8 255)) with [0; 255].
    rewrite fmap_app. cbn [fmap list_fmap app]. f_equal. f_equal. exact Hi.
  - intros He. destruct (IH b) as [Ho Hi]; [cbn; lia|done..|].
    split; [constructor; [unfold byte_ok, not8; lia|done]|].
    rewrite bind_cons, fmap_app, Hi. unfold escape_byte, not8.
    rewrite (proj2 (Z.eqb_neq (255 - x) 0)) by lia. cbn. f_equal. lia.
Qed.

Lemma inverted_escape p : bytes_ok p →
  escapes_ok (not8 <$> (p ≫= escape_byte)) = true ∧
  inverted_bytes (not8 <$> (p ≫= escape_byte)) = p.
Proof.
  induction 1 as [|x p Hx Hp [IH1 IH2]]; [done|].
  rewrite bind_cons, fmap_app. unfold escape_byte at 1 3. unfold byte_ok in Hx.
  destruct (Z.eqb_spec x 0) as [->|Hne]; cbn -[mbind].
  - by rewrite IH1, IH2.
  - rewrite (proj2 (Z.eqb_neq (not8 x) 255)) by (unfold not8; lia).
    replace (not8 (not8 x)) with x by (unfold not8; lia).
    by rewrite (proj2 (Z.eqb_neq x 0)), IH1, IH2 by done.
Qed.

Lemma strip_terminator_Some h e : strip_terminator h = Some e → h = e ++ [255; 255].
Proof.
  unfold strip_terminator, split_tail. case_decide as H; [|done]. intros [= <-].
  rewrite <-(take_drop (length h - 2) h) at 1. by rewrite H.
Qed.

Lemma take_slice {A} n m (l : list A) : (n ≤ m)%nat → take m l = take n l ++ slice n m l.
Proof.
  intros Hn. unfold slice. rewrite <-(take_drop n (take m l)) at 1.
  by rewrite take_take, Nat.min_l, skipn_firstn_comm by lia.
Qed.

Lemma head_take_1 {A} (l : list A) x : head l = Some x → take 1 l = [x].
Proof. destruct l as [|y l]; [done|]. intros [= ->]. by destruct l. Qed.

(** The entry's bytes are those of the row. *)
Definition entry_prefix (p : Prefix) (k : option Z) : bytes :=
  prefix_bytes (mkIndexEntry None (LInteger 0) p k).

Lemma composite_prefix_code dbi raw n prefix kind :
  bytes_ok raw → (n ≤ length raw)%nat → take 1 raw = [not8 1] → is_composite dbi = true →
  (head_end ← (if has_kind dbi then nat_checked_sub n 8 else Some n);
   head ← get_range 1 head_end raw;
   escaped ← strip_terminator head;
   if escapes_ok escaped then
     kind ← (if has_kind dbi then k ← integer (slice head_end n raw); Some (Some k)
             else Some None);
     Some (InvertedEscaped escaped, kind)
   else None) = Some (prefix, kind) →
  ∃ p, index_prefix_ok dbi p ∧ take n raw = not8 <$> head_code dbi p ∧
       entry_prefix prefix kind = p.
Proof.
  intros Hb Hn H1 Hc H. pose proof (is_composite_cases _ Hc) as (_ & H9 & H12 & _).
  unfold head_code. rewrite H9, H12.
  destruct (if has_kind dbi then nat_checked_sub n 8 else Some n) as [m|] eqn:Em; [|done].
  cbn [mbind option_bind] in H.
  destruct (get_range 1 m raw) as [h|] eqn:Eh; [|done]. cbn [mbind option_bind] in H.
  destruct (strip_terminator h) as [e|] eqn:Ee; [|done]. cbn [mbind option_bind] in H.
  destruct (escapes_ok e) eqn:Hesc; [|done].
  unfold get_range in Eh. destruct (_ && _) eqn:Hm; [|done]. injection Eh as <-.
  rewrite andb_true_iff, !Nat.leb_le in Hm. destruct Hm as [Hm1 Hm2].
  apply strip_terminator_Some in Ee.
  assert (bytes_ok e) as Heo.
  { pose proof (Forall_slice _ 1 m _ Hb) as Hs. rewrite Ee in Hs. by apply Forall_app in Hs as [? _]. }
  destruct (escapes_inverted e Heo Hesc) as [Hio Hie].
  assert (not8 <$> (1 :: escape (inverted_bytes e)) = take m raw) as Htm.
  { rewrite fmap_cons. unfold escape. rewrite fmap_app, Hie, (take_slice 1 m), H1, Ee by lia. done. }
  destruct (has_kind dbi) eqn:Hk.
  - unfold nat_checked_sub in Em. destruct (Nat.leb_spec 8 n) as [H8|]; [|done].
    injection Em as <-. destruct (integer (slice (n - 8) n raw)) as [k|] eqn:Ek; [|done].
    cbn in H. injection H as <- <-.
    apply integer_Some in Ek as [Hku Ek]; [|by apply Forall_slice].
    exists (inverted_bytes e ++ to_ne_bytes k).
    assert (length (to_ne_bytes k) = 8%nat) as Hl8 by apply length_to_ne_bytes.
    split_and!.
    + split; [apply Forall_app; split; [done|apply to_le_bytes_ok]|].
      left. split; [done|]. intros _. rewrite length_app. lia.
    + unfold split_tail. rewrite length_app, Hl8, Nat.add_sub. cbn [fst snd].
      rewrite take_app_length, drop_app_length, from_to_ne_bytes by done.
      rewrite app_comm_cons, fmap_app, <-Ek, Htm. apply take_slice. lia.
    + done.
  - injection Em as <-. cbn in H. injection H as <- <-. exists (inverted_bytes e). split_and!.
    + split; [done|]. left. split; [done|]. by rewrite Hk.
    + done.
    + unfold entry_prefix, prefix_bytes. cbn. by rewrite app_nil_r.
Qed.

Lemma rocks_prefix_code dbi raw n prefix kind :
  bytes_ok raw → (n ≤ length raw)%nat → head raw = Some (not8 1) →
  rocks_prefix dbi raw n = Some (prefix, kind) →
  ∃ p, index_prefix_ok dbi p ∧ take n raw = not8 <$> head_code dbi p ∧
       entry_prefix prefix kind = p.
Proof.
  intros Hb Hn Hh%head_take_1. unfold rocks_prefix, entry_prefix, prefix_bytes.
  destruct (Z.eqb_spec dbi 9) as [->|]; [destruct (Nat.eqb_spec n 1) as [->|]|].
  { intros [= <- <-]. exists []. split_and!; [|done..]. split; [done|auto]. }
  { done. }
  cbn [andb]. destruct (Z.eqb_spec dbi 12) as [->|]; [destruct (Nat.eqb_spec n 9) as [->|]|].
  { cbn [andb]. destruct (integer (slice 1 9 raw)) as [k|] eqn:Ek; [|done].
    intros [= <- <-]. apply integer_Some in Ek as [Hk Ek]; [|by apply Forall_slice].
    exists (to_ne_bytes k). split_and!.
    - split; [apply to_le_bytes_ok|]. right; right. split; [done|]. apply length_to_ne_bytes.
    - rewrite (take_slice 1 9), Hh, Ek by lia. cbn [head_code Z.eqb Pos.eqb fmap list_fmap].
      by rewrite from_to_ne_bytes.
    - done. }
  { done. }
  cbn [andb]. destruct (is_composite dbi) eqn:Hc; [|done].
  intros H. apply composite_prefix_code; done.
Qed.

(** The entry is the one of this canonical row. *)
Definition canonical_entry (dbi : Z) (raw : bytes) (e : IndexEntry) : Prop :=
  ∃ p t i, index_prefix_ok dbi p ∧ u64_ok t ∧ u64_ok i ∧
    raw = encode dbi (p ++ to_ne_bytes t) (Some (to_ne_bytes i)) ∧
    ie_created_at e = Some t ∧ local_id e = Ok i ∧ prefix_bytes e = p.

Lemma nat_checked_sub_le a b n : nat_checked_sub a b = Some n → (b ≤ a)%nat ∧ n = (a - b)%nat.
Proof. unfold nat_checked_sub. destruct (Nat.leb_spec b a); naive_solver. Qed.

Lemma from_rocks_canonical dbi raw e :
  bytes_ok raw → from_rocks dbi raw = Some e → canonical_entry dbi raw e.
Proof.
  intros Hb. unfold from_rocks.
  destruct (nat_checked_sub (length raw) 17) as [n|] eqn:En; [|done]. cbn [mbind option_bind].
  destruct (_ || _) eqn:Hg; [done|]. rewrite orb_false_iff, !bool_decide_eq_false in Hg.
  destruct Hg as [Hh H9]. apply dec_stable in Hh, H9.
  destruct (integer (slice n (n + 8) raw)) as [t|] eqn:Et; [|done].
  destruct (integer (drop (length raw - 8) raw)) as [i|] eqn:Ei; [|done].
  cbn [mbind option_bind].
  destruct (rocks_prefix dbi raw n) as [[prefix kind]|] eqn:Ep; [|done].
  cbn [mbind option_bind]. intros [= <-].
  destruct (index_tail raw n t i Hb En H9 Et Ei) as (Ht & Hi & Hr).
  apply nat_checked_sub_le in En as En'.
  destruct (rocks_prefix_code dbi raw n prefix kind) as (p & Hp & Hc & Hpb); [done|lia|done..|].
  exists p, t, i. split_and!; try done.
  rewrite encode_index by done. by rewrite fmap_app, <-Hc.
Qed.

Lemma matching_valid_ok dbi k : bytes_ok k → matching_valid dbi k = true →
  ∃ p t, k = p ++ to_ne_bytes t ∧ u64_ok t ∧ index_prefix_ok dbi p.
Proof.
  intros Hk Hv.
  assert (8 ≤ length k)%nat as H8.
  { unfold matching_valid in Hv. repeat case_match; try done;
      rewrite ?Nat.leb_le, ?Nat.eqb_eq in Hv; lia. }
  destruct (split_tail_app 8 k H8) as (p & t & -> & Ht & _).
  apply Forall_app in Hk as [Hp Hto].
  exists p, (from_ne_bytes t). split_and!.
  - by rewrite to_ne_from_ne.
  - pose proof (from_ne_bytes_bound t Hto ltac:(lia)). unfold u64_ok, U64_MAX. lia.
  - split; [done|]. unfold matching_valid in Hv. rewrite length_app, Ht in Hv.
    destruct (_ || _ || _ || _) eqn:E1.
    { left. unfold is_composite, has_kind. repeat rewrite orb_true_iff in E1.
      rewrite !Z.eqb_eq in E1.
      destruct E1 as [[[->| ->]| ->]| ->]; done. }
    destruct ((dbi =? 5) || (dbi =? 21)) eqn:E2.
    { left. rewrite orb_true_iff, !Z.eqb_eq in E2. rewrite Nat.leb_le in Hv.
      destruct E2 as [->| ->]; (split; [done|lia]). }
    destruct (Z.eqb_spec dbi 9) as [->|].
    { right; left. rewrite Nat.eqb_eq in Hv. split; [done|]. destruct p; [done|cbn in Hv; lia]. }
    destruct (Z.eqb_spec dbi 12) as [->|]; [|done].
    right; right. rewrite Nat.eqb_eq in Hv. split; [done|lia].
Qed.

Lemma from_matching_canonical dbi raw start dup e :
  bytes_ok raw → bytes_ok start → u64_ok dup →
  from_matching_rocks dbi raw start (encode dbi start (Some (to_ne_bytes dup))) = Some e →
  canonical_entry dbi raw e.
Proof.
  intros Hb Hs Hd. unfold from_matching_rocks.
  destruct (nat_checked_sub (length raw) 17) as [n|] eqn:En; [|done]. cbn [mbind option_bind].
  destruct (_ || _) eqn:Hg; [done|].
  rewrite !orb_false_iff, !negb_false_iff, !bool_decide_eq_false, Nat.eqb_eq in Hg.
  destruct Hg as [[[Hv Hl] Htk] H9]. apply dec_stable in Htk, H9.
  destruct (integer (slice n (n + 8) raw)) as [t|] eqn:Et; [|done].
  destruct (integer (drop (length raw - 8) raw)) as [i|] eqn:Ei; [|done].
  cbn [mbind option_bind]. intros [= <-].
  destruct (index_tail raw n t i Hb En H9 Et Ei) as (Ht & Hi & Hr).
  destruct (matching_valid_ok dbi start Hs Hv) as (p & t0 & -> & Ht0 & Hp).
  assert (length (to_ne_bytes t0) = 8%nat) as Hl8 by apply length_to_ne_bytes.
  exists p, t, i. split_and!; try done.
  - rewrite encode_index by done. rewrite fmap_app. rewrite Hr at 1. f_equal.
    rewrite Htk, encode_index by done. rewrite fmap_app.
    apply nat_checked_sub_le in En as [Hn ->]. rewrite Hl, encode_index by done.
    rewrite !length_fmap, !length_app. cbn [length]. rewrite !length_to_be_bytes.
    apply take_app_length'. rewrite length_fmap. lia.
  - unfold prefix_bytes. cbn [ie_prefix ie_kind opt_ne_bytes].
    rewrite length_app, Hl8, Nat.add_sub, take_app_length.
    apply app_nil_r.
Qed.

(** In a table with duplicates the stored value plays no part. *)
Lemma decode_reversed dbi raw v w : reversed dbi = true → decode dbi raw v = decode dbi raw w.
Proof. unfold decode, decode_dup, reversed. intros H. by rewrite H. Qed.

(** A canonical row is read directly. *)
Lemma head_code_head dbi p : ∃ r, head_code dbi p = 1 :: r.
Proof. unfold head_code. repeat case_match; eauto. Qed.

Lemma strip_terminator_app e : strip_terminator (e ++ [255; 255]) = Some e.
Proof.
  unfold strip_terminator, split_tail. rewrite length_app. cbn [length]. rewrite Nat.add_sub.
  by rewrite drop_app_length, decide_True, take_app_length.
Qed.

Lemma composite_head_complete q r : bytes_ok q →
  get_range 1 (length (not8 <$> (1 :: escape q))) ((not8 <$> (1 :: escape q)) ++ r) =
  Some ((not8 <$> (q ≫= escape_byte)) ++ [255; 255]).
Proof.
  intros Hq. unfold get_range. rewrite !fmap_cons. cbn [app length].
  rewrite (proj2 (Nat.leb_le _ _)), (proj2 (Nat.leb_le _ _)) by (rewrite ?length_app; cbn; lia).
  cbn [andb]. unfold slice. rewrite skipn_cons, drop_0. rewrite Nat.sub_succ, Nat.sub_0_r.
  rewrite take_app_length. unfold escape. by rewrite fmap_app.
Qed.

Lemma rocks_prefix_complete dbi p r : index_prefix_ok dbi p →
  is_Some (rocks_prefix dbi ((not8 <$> head_code dbi p) ++ r) (length (head_code dbi p))).
Proof.
  intros (Hp & Hc). unfold rocks_prefix.
  destruct Hc as [[Hc Hk]|[[-> ->]|[-> Hl]]].
  - pose proof (is_composite_cases _ Hc) as (_ & H9 & H12 & _).
    unfold head_code. rewrite H9, H12, Hc. cbn [andb].
    destruct (has_kind dbi) eqn:Hkd.
    + specialize (Hk eq_refl). destruct (split_tail_app 8 p Hk) as (q & k & -> & Hl & ->).
      apply Forall_app in Hp as [Hq Hko]. cbn [fst snd].
      set (h := not8 <$> (1 :: escape q)).
      assert (length (1%Z :: escape q ++ to_be_bytes 8 (from_ne_bytes k)) = length h + 8)%nat as ->.
      { unfold h. rewrite length_fmap. cbn [length]. by rewrite length_app, length_to_be_bytes. }
      rewrite app_comm_cons, fmap_app. fold h. unfold nat_checked_sub.
      rewrite (proj2 (Nat.leb_le 8 _)), Nat.add_sub by lia. cbn [mbind option_bind].
      rewrite <-app_assoc. rewrite (composite_head_complete q) by done.
      cbn [mbind option_bind]. rewrite strip_terminator_app. cbn [mbind option_bind].
      rewrite (proj1 (inverted_escape q Hq)).
      unfold slice. rewrite drop_app_length.
      replace (length h + 8 - length h)%nat with 8%nat by lia.
      rewrite take_app_length' by (by rewrite length_fmap, length_to_be_bytes).
      rewrite integer_not8; [by eexists|].
      pose proof (from_ne_bytes_bound k Hko ltac:(lia)). unfold u64_ok, U64_MAX. lia.
    + cbn [mbind option_bind]. rewrite <-(length_fmap not8), (composite_head_complete p) by done.
      cbn [mbind option_bind]. rewrite strip_terminator_app. cbn [mbind option_bind].
      rewrite (proj1 (inverted_escape p Hp)). by eexists.
  - by eexists.
  - change (head_code 12 p) with (1 :: to_be_bytes 8 (from_ne_bytes p)).
    cbn [length]. rewrite length_to_be_bytes, fmap_cons. change (12 =? 9) with false.
    change ((12 =? 12) && (9 =? 9)%nat) with true. cbn [andb app].
    unfold slice. rewrite skipn_cons, drop_0.
    rewrite take_app_length' by (by rewrite length_fmap, length_to_be_bytes).
    rewrite integer_not8; [by eexists|].
    pose proof (from_ne_bytes_bound p Hp ltac:(lia)). unfold u64_ok, U64_MAX. lia.
Qed.

Lemma from_rocks_complete dbi p t i : index_prefix_ok dbi p → u64_ok t → u64_ok i →
  is_Some (from_rocks dbi (encode dbi (p ++ to_ne_bytes t) (Some (to_ne_bytes i)))).
Proof.
  intros Hp Ht Hi. rewrite encode_index, fmap_app by done. unfold from_rocks.
  pose proof (rocks_prefix_complete dbi p (not8 <$> (to_be_bytes 8 t ++ 1 :: to_be_bytes 8 i)) Hp) as [[pr k] Hpr].
  destruct (head_code_head dbi p) as [r Hr].
  set (h := not8 <$> head_code dbi p) in *.
  assert (length h = length (head_code dbi p)) as Hlh by apply length_fmap.
  rewrite fmap_app, fmap_cons in *.
  set (bt := not8 <$> to_be_bytes 8 t) in *. set (bi := not8 <$> to_be_bytes 8 i) in *.
  assert (length bt = 8%nat) as Hbt by (unfold bt; by rewrite length_fmap, length_to_be_bytes).
  assert (length bi = 8%nat) as Hbi by (unfold bi; by rewrite length_fmap, length_to_be_bytes).
  assert (integer bt = Some t) as Ibt by (by apply integer_not8).
  assert (integer bi = Some i) as Ibi by (by apply integer_not8).
  assert (length (h ++ bt ++ not8 1 :: bi) = length h + 17)%nat as Hlen.
  { rewrite !length_app. cbn [length]. lia. }
  rewrite Hlen. unfold nat_checked_sub. rewrite (proj2 (Nat.leb_le 17 _)), Nat.add_sub by lia.
  cbn [mbind option_bind].
  replace (length h + 17 - 9)%nat with (length h + 8)%nat by lia.
  replace (length h + 17 - 8)%nat with (length h + 9)%nat by lia.
  rewrite (bool_decide_false (head _ ≠ _)) by (unfold h; rewrite Hr; cbn; tauto).
  rewrite bool_decide_false.
  2: { rewrite lookup_app_r, lookup_app_r by lia.
       replace (length h + 8 - length h - length bt)%nat with 0%nat by lia. cbn. tauto. }
  cbn [orb]. unfold slice. rewrite drop_app_length.
  replace (length h + 8 - length h)%nat with 8%nat by lia.
  rewrite take_app_length', Ibt by done.
  cbn [mbind option_bind].
  rewrite drop_app_ge by lia. replace (length h + 9 - length h)%nat with 9%nat by lia.
  rewrite drop_app_ge by lia. replace (9 - length bt)%nat with 1%nat by lia.
  cbn [drop skipn]. rewrite drop_0, Ibi.
  cbn [mbind option_bind].
  rewrite Hlh, Hpr. by eexists.
Qed.

Lemma canonical_same_answers dbi raw value e : canonical_entry dbi raw e →
  ∃ k v, decode dbi raw value = Ok (k, v) ∧ same_answers e (from_logical k v).
Proof.
  intros (p & t & i & Hp & Ht & Hi & -> & Ec & El & Epb).
  pose proof (index_reversed _ _ Hp) as [Hr _]. destruct Hp as [Hpo _].
  assert (bytes_ok (p ++ to_ne_bytes t)) as Hk by (apply Forall_app; split; [done|apply to_le_bytes_ok]).
  exists (p ++ to_ne_bytes t), (to_ne_bytes i). split.
  - pose proof (decode_encode dbi (p ++ to_ne_bytes t) (to_ne_bytes i) Hk (to_le_bytes_ok _ _)) as Hd.
    unfold dup_of in Hd. rewrite Hr in Hd. rewrite <-Hd. by apply decode_reversed.
  - assert (length (to_ne_bytes t) = 8%nat) as Hl8 by apply length_to_ne_bytes.
    assert (from_logical (p ++ to_ne_bytes t) (to_ne_bytes i) =
      mkIndexEntry (Some t) (LLogical (to_ne_bytes i)) (PLogical p) None) as ->.
    { unfold from_logical, parse_key_string_u64, split_tail.
      rewrite length_app, Hl8, decide_False, Nat.add_sub by lia.
      rewrite take_app_length, drop_app_length. unfold u64_from_ne.
      rewrite take_ge by lia. by rewrite from_to_ne_bytes. }
    apply same_answers_intro.
    + done.
    + rewrite El. unfold local_id, u64_from_ne_checked. cbn [ie_local_id].
      rewrite decide_True by apply length_to_ne_bytes. unfold u64_from_ne.
      by rewrite take_ge, from_to_ne_bytes by (rewrite ?length_to_ne_bytes; done).
    + rewrite Epb. unfold prefix_bytes. cbn. by rewrite app_nil_r.
Qed.

Lemma same_answers_refl e : same_answers e e.
Proof. by apply same_answers_intro. Qed.

(** Reading a row directly gives an entry no caller can tell from that of the
    decoded row, and fails exactly as decoding does. *)
Lemma typed_entry_agrees dbi raw value start dup :
  bytes_ok raw → bytes_ok start → u64_ok dup →
  match index_entry dbi raw value start (encode dbi start (Some (to_ne_bytes dup))),
        decode dbi raw value with
  | Ok e, Ok (k, v) => same_answers e (from_logical k v)
  | Err e, Err e' => e = e'
  | _, _ => False
  end.
Proof.
  intros Hb Hs Hd. unfold index_entry.
  destruct (from_matching_rocks dbi raw start _) as [e|] eqn:Em.
  { apply from_matching_canonical in Em; [|done..].
    apply (canonical_same_answers _ _ value) in Em as (k & v & -> & H). done. }
  destruct (from_rocks dbi raw) as [e|] eqn:Er.
  { apply from_rocks_canonical in Er; [|done].
    apply (canonical_same_answers _ _ value) in Er as (k & v & -> & H). done. }
  destruct (decode dbi raw value) as [[k v]|e]; cbn; [apply same_answers_refl|done].
Qed.
