(* ===== verification/DbTxn.v ===== *)
(** * Transactions: crates/wok-db/src/rocks/{txn,author_heads}.rs and the marker
    cache of rocks/mod.rs

    Snapshot reads and a writer's overlay of staged changes over a snapshot,
    the cursor that merges both in either direction, and the table operations.
    RocksDB is not part of the repository: the class [RocksDb] has what the code
    calls of its binding.  The borrow-lifetime machinery (arenas, pins) has no
    counterpart: a returned slice is its bytes.  The transaction's lock is held
    from its beginning to its end, so a transaction is a value that is passed
    along. *)

From S2P Require Import Prelude BTreeMap Json DbKeys DbIndex.

Local Open Scope Z_scope.

Abbreviation Kv := (bytes * bytes)%type.

(** ** The RocksDB binding *)

Inductive BatchOp : Type :=
| PutCf (cf : string) (key value : bytes)
| DeleteCf (cf : string) (key : bytes).

(** [cf_items] is what a snapshot holds: the content the laws speak of, and the
    bound of the loops that walk over it.  [write_opt] returns the database that
    is there after the call, whether or not the call reports an error: after an
    I/O error, what the next open of the files finds. *)
Class RocksDb : Type := {
  Db : Type;
  Snapshot : Type;
  RawIter : Type;
  db_snapshot : Db → Snapshot;
  latest_sequence_number : Db → Z;
  write_opt : Db → list BatchOp → Db * result string unit;
  cf_items : Snapshot → string → list Kv;
  get_cf : Snapshot → string → bytes → result string (option bytes);
  raw_iterator_cf : Snapshot → string → option bytes → option bytes → RawIter;
  it_seek : RawIter → bytes → RawIter;
  it_seek_for_prev : RawIter → bytes → RawIter;
  it_seek_to_first : RawIter → RawIter;
  it_seek_to_last : RawIter → RawIter;
  it_next : RawIter → RawIter;
  it_prev : RawIter → RawIter;
  it_item : RawIter → option Kv;
  it_status : RawIter → result string unit;
}.

(** [.map_err(err)] *)
Definition rocks {A} (r : result string A) : result DbError A := map_err rocks_msg r.

(** The loops of this file visit each entry of a column family and of the
    overlay at most once; their fuel is one more than those, so this error is
    not returned. *)
Definition out_of_fuel : DbError := DbError_msg "out of fuel".

(** ** The marker cache of rocks/mod.rs *)

Abbreviation MarkerMap := (list (bytes * list bytes)).

Definition SCHEMA_KEY : bytes := 0 :: str "schema".
Definition INDEXED_THROUGH_KEY : bytes := 0 :: str "through".

Definition is_tag_kind_marker (key : bytes) : bool :=
  bool_decide (key = SCHEMA_KEY) || bool_decide (key = INDEXED_THROUGH_KEY).

Definition cached_marker (dbi : Z) (key : bytes) : bool :=
  (dbi =? 21) && is_tag_kind_marker key.

(** [sort_by] keeps the order of elements that compare equal; the encodings of
    distinct values are distinct. *)
Definition marker_cmp (key a b : bytes) : comparison :=
  CompOpp (bytes_cmp (encode 21 key (Some a)) (encode 21 key (Some b))).

Definition sort_marker_values (key : bytes) (values : list bytes) : list bytes :=
  slice_sort (marker_cmp key) values.

Abbreviation OverlayKey := (Z * bytes)%type.
Abbreviation Overlay := (list (OverlayKey * option bytes)).

Section txn.
Context `{RD : RocksDb}.

Definition it_key (it : RawIter) : option bytes := fst <$> it_item it.

(** The loop over the rows with the prefix of the key, newest first. *)
Definition load_marker_step (key : bytes) (st : RawIter * list bytes)
    : result DbError ((RawIter * list bytes) + (RawIter * list bytes)) :=
  let '(it, values) := st in
  match it_item it with
  | None => Ok (inr (it, values))
  | Some (physical, value) =>
      '(found, dup) ← decode 21 physical value;
      if decide (found ≠ key) then Ok (inr (it, values))
      else Ok (inl (it_next it, values ++ [dup]))
  end.

Definition load_markers (db : Db) : result DbError MarkerMap :=
  let snap := db_snapshot db in
  try_fold (λ res key,
    let prefix := encode 21 key None in
    let it := raw_iterator_cf snap (cf_name 21) (Some prefix) (successor prefix) in
    let it := it_seek it prefix in
    '(it, values) ← loop (load_marker_step key) out_of_fuel
                      (S (length (cf_items snap (cf_name 21)))) (it, []);
    _ ← rocks (it_status it);
    Ok (bt_insert bytes_cmp res key (sort_marker_values key values)))
    [] [SCHEMA_KEY; INDEXED_THROUGH_KEY].

(** ** author_heads.rs *)

Record AuthorPosition : Type := mkAuthorPosition {
  ap_created_at : Z;
  ap_local_id : Z;
}.

Definition AuthorPosition_encode (p : AuthorPosition) : bytes :=
  to_be_bytes 8 (ap_created_at p) ++ to_be_bytes 8 (ap_local_id p).

(** The derived order: fields in order. *)
Definition AuthorPosition_cmp (p q : AuthorPosition) : comparison :=
  then_with (ap_created_at p ?= ap_created_at q) (ap_local_id p ?= ap_local_id q).

Record AuthorHead : Type := mkAuthorHead {
  ah_first : AuthorPosition;
  ah_next : option AuthorPosition;
}.

Definition decode_position (b : bytes) : AuthorPosition :=
  mkAuthorPosition (from_be_bytes (take 8 b)) (from_be_bytes (slice 8 16 b)).

Definition AuthorHead_decode (raw : bytes) : result DbError AuthorHead :=
  if negb ((length raw =? 16)%nat || (length raw =? 32)%nat) then
    Err (rocks_msg "invalid author head: expected 16 or 32 bytes")
  else
    let first := decode_position (take 16 raw) in
    let next := if (length raw =? 32)%nat then Some (decode_position (drop 16 raw)) else None in
    match next with
    | Some n =>
        if decide (cmp_le AuthorPosition_cmp first n) then
          Err (rocks_msg "invalid author head: next position must be strictly older")
        else Ok (mkAuthorHead first next)
    | None => Ok (mkAuthorHead first next)
    end.

Definition AuthorHead_encode (h : AuthorHead) : bytes :=
  AuthorPosition_encode (ah_first h) ++
  match ah_next h with Some n => AuthorPosition_encode n | None => [] end.

(** ** Overlay and view *)

(** The derived order of the pair. *)
Definition overlay_cmp (a b : OverlayKey) : comparison :=
  then_with (a.1 ?= b.1) (bytes_cmp a.2 b.2).

Definition physical (dbi : Z) : Z := if combined dbi then 3 else dbi.

Definition count_key (dbi : Z) : bytes := str "entries/" ++ u64_to_string dbi.

Definition record_key (id : Z) : bytes := 1 :: to_be_bytes 8 id.

(** The records a reader has pinned are remembered by id. *)
Record View : Type := mkView {
  v_snapshot : Snapshot;
  v_markers : MarkerMap;
  v_records : gmap Z bytes;
}.

Definition raw (v : View) (dbi : Z) (key : bytes) (staged : option Overlay)
    : result DbError (option bytes) :=
  match s ← staged; bt_get overlay_cmp s (physical dbi, key) with
  | Some o => Ok o
  | None => rocks (get_cf (v_snapshot v) (cf_name dbi) key)
  end.

Definition count (v : View) (dbi : Z) : result DbError Z :=
  _ ← validate_dbi dbi;
  o ← rocks (get_cf (v_snapshot v) "default" (count_key dbi));
  match o with
  | None => Ok 0
  | Some b =>
      if decide (length b = 8%nat) then Ok (from_le_bytes b)
      else Err (rocks_msg "invalid entry counter")
  end.

Definition get_record (v : View) (dbi id : Z) (staged : option Overlay)
    : result DbError (View * option bytes) :=
  '(v, o) ←
    match staged with
    | None =>
        match v_records v !! id with
        | Some r => Ok (v, Some r)
        | None =>
            o ← rocks (get_cf (v_snapshot v) COMBINED (record_key id));
            Ok (match o with
                | Some r => mkView (v_snapshot v) (v_markers v) (<[id := r]> (v_records v))
                | None => v
                end, o)
        end
    | Some _ => o ← raw v dbi (record_key id) staged; Ok (v, o)
    end;
  match o with
  | None => Ok (v, None)
  | Some r =>
      '(packed, payload) ← parts r;
      Ok (v, if dbi =? 3 then packed else payload)
  end.

(** ** Cursor *)

Record Cursor : Type := mkCursor {
  c_view : View;
  c_dbi : Z;
  c_staged : option Overlay;
  c_it : RawIter;
  c_current : option bytes;
  c_logical_key : option bytes;
}.

(** The tables of the layout have no covering index ([validate_dbi] refuses
    it), so its branch, which only fills the record cache, is left out. *)
Definition Cursor_new (v : View) (dbi : Z) (staged : option Overlay) : Cursor :=
  mkCursor v dbi staged (raw_iterator_cf (v_snapshot v) (cf_name dbi) None None) None None.

Inductive Bound : Type :=
| Included (k : OverlayKey)
| Excluded (k : OverlayKey).

Definition above (lo : Bound) (k : OverlayKey) : bool :=
  match lo with
  | Included b => bool_decide (cmp_le overlay_cmp b k)
  | Excluded b => bool_decide (cmp_lt overlay_cmp b k)
  end.

Definition below (hi : Bound) (k : OverlayKey) : bool :=
  match hi with
  | Included b => bool_decide (cmp_le overlay_cmp k b)
  | Excluded b => bool_decide (cmp_lt overlay_cmp k b)
  end.

(** [range((lo, hi))] *)
Definition range (s : Overlay) (lo hi : Bound) : Overlay :=
  filter (λ e, Is_true (above lo e.1 && below hi e.1)) s.

Definition edge (id : Z) (inclusive : bool) (b : bytes) : Bound :=
  if inclusive then Included (id, b) else Excluded (id, b).

Definition range_lo (id : Z) (bound : option bytes) (forward inclusive : bool) : Bound :=
  if forward then
    match bound with Some b => edge id inclusive b | None => Included (id, []) end
  else Included (id, []).

Definition range_hi (id : Z) (bound : option bytes) (forward inclusive : bool) : Bound :=
  if negb forward then
    match bound with Some b => edge id inclusive b | None => Excluded (id + 1, []) end
  else Excluded (id + 1, []).

Definition staged_item (s : Overlay) (id : Z) (bound : option bytes) (forward inclusive : bool)
    : option (bytes * option bytes) :=
  let range := range s (range_lo id bound forward inclusive) (range_hi id bound forward inclusive) in
  '((_, k), v) ← (if forward then head range else last range);
  Some (k, v).

(** The nearer of the two, the staged one when both have the key. *)
Definition merge_items (forward : bool) (db : option Kv) (staged : option (bytes * option bytes))
    : option (bytes * option bytes) :=
  match db, staged with
  | Some d, Some s =>
      if (forward && bool_decide (cmp_le bytes_cmp s.1 d.1)) ||
         (negb forward && bool_decide (cmp_le bytes_cmp d.1 s.1))
      then Some s else Some (d.1, Some d.2)
  | Some d, None => Some (d.1, Some d.2)
  | None, s => s
  end.

(** The logical row under a physical key; a combined record may lack the
    component of the table. *)
Definition row_of (dbi : Z) (pk value : bytes) : result DbError (option Kv) :=
  if combined dbi then
    '(key, _) ← decode dbi pk [];
    '(a, b) ← parts value;
    Ok (match if dbi =? 3 then a else b with
        | Some v => Some (key, v)
        | None => None
        end)
  else kv ← decode dbi pk value; Ok (Some kv).

Definition is_some {A} (o : option A) : bool := match o with Some _ => true | None => false end.

Definition position_seek (c : Cursor) (it : RawIter) (bound : option bytes)
    (forward inclusive : bool) : RawIter :=
  let on_bound := match bound with
    | Some key => bool_decide (it_key it = Some key)
    | None => false
    end in
  let it :=
    if is_some (c_staged c) || negb on_bound then
      match bound, forward with
      | Some b, true => it_seek it b
      | Some b, false => it_seek_for_prev it b
      | None, true => it_seek_to_first it
      | None, false => it_seek_to_last it
      end
    else it in
  if negb inclusive && is_some bound && bool_decide (it_key it = bound) then
    if forward then it_next it else it_prev it
  else it.

Definition position_step (c : Cursor) (forward : bool) (st : RawIter * option bytes * bool)
    : result DbError ((RawIter * option bytes * bool) + (RawIter * option (bytes * Kv))) :=
  let '(it, bound, inclusive) := st in
  let it := position_seek c it bound forward inclusive in
  _ ← rocks (it_status it);
  let db := it_item it in
  let staged := s ← c_staged c; staged_item s (physical (c_dbi c)) bound forward inclusive in
  match merge_items forward db staged with
  | None => Ok (inr (it, None))
  | Some (pk, None) => Ok (inl (it, Some pk, false))
  | Some (pk, Some value) =>
      row ← row_of (c_dbi c) pk value;
      match row with
      | None => Ok (inl (it, Some pk, false))
      | Some kv => Ok (inr (it, Some (pk, kv)))
      end
  end.

(** One more than the entries there are. *)
Definition cursor_fuel (c : Cursor) : nat :=
  S (length (cf_items (v_snapshot (c_view c)) (cf_name (c_dbi c))) +
     length (default [] (c_staged c))).

Definition position (c : Cursor) (bound : option bytes) (forward inclusive : bool)
    : result DbError (Cursor * option Kv) :=
  '(it, row) ← loop (position_step c forward) out_of_fuel (cursor_fuel c)
                 (c_it c, bound, inclusive);
  Ok (match row with
      | None =>
          (mkCursor (c_view c) (c_dbi c) (c_staged c) it (c_current c) (c_logical_key c), None)
      | Some (pk, (key, val)) =>
          (mkCursor (c_view c) (c_dbi c) (c_staged c) it (Some pk) (Some key), Some (key, val))
      end).

Definition key_edge (c : Cursor) (key : bytes) (first : bool)
    : result DbError (Cursor * option Kv) :=
  let prefix := encode (c_dbi c) key None in
  let reverse := reversed (c_dbi c) in
  if negb (Bool.eqb first reverse) then position c (Some prefix) true true
  else position c (successor prefix) false false.

(** The cursor operations of LMDB's interface the code names. *)
Variant CursorOp : Type :=
| MDB_FIRST | MDB_FIRST_DUP | MDB_GET_BOTH | MDB_GET_BOTH_RANGE | MDB_GET_CURRENT
| MDB_LAST | MDB_LAST_DUP | MDB_NEXT | MDB_NEXT_DUP | MDB_NEXT_NODUP
| MDB_PREV | MDB_PREV_DUP | MDB_PREV_NODUP | MDB_SET | MDB_SET_KEY | MDB_SET_RANGE
| MDB_OTHER.

#[export] Instance CursorOp_eq_dec : EqDecision CursorOp.
Proof. solve_decision. Defined.

(** [row.filter(f)] *)
Definition row_filter (f : Kv → bool) (r : Cursor * option Kv) : Cursor * option Kv :=
  (r.1, row ← r.2; if f row then Some row else None).

Definition get_inner (c : Cursor) (key val : option bytes) (op : CursorOp)
    : result DbError (Cursor * option Kv) :=
  let rev := reversed (c_dbi c) in
  let current_key := c_logical_key c in
  match op with
  | MDB_FIRST => position c None (negb rev) true
  | MDB_LAST => position c None rev true
  | MDB_NEXT => position c (c_current c) (negb rev) false
  | MDB_PREV => position c (c_current c) rev false
  | MDB_GET_CURRENT =>
      match c_current c with
      | Some k => position c (Some k) true true
      | None => Ok (c, None)
      end
  | MDB_SET | MDB_SET_KEY | MDB_SET_RANGE =>
      key ← ok_or key (rocks_msg "missing seek key");
      r ← key_edge c key true;
      Ok (if decide (op = MDB_SET_RANGE) then r
          else row_filter (λ kv, bool_decide (kv.1 = key)) r)
  | MDB_GET_BOTH | MDB_GET_BOTH_RANGE =>
      k ← ok_or key (rocks_msg "missing seek key");
      v ← ok_or val (rocks_msg "missing seek duplicate");
      r ← position c (Some (encode (c_dbi c) k (Some v))) (negb rev) true;
      Ok (row_filter (λ kv, bool_decide (kv.1 = k) &&
            (bool_decide (op = MDB_GET_BOTH_RANGE) || bool_decide (kv.2 = v))) r)
  | MDB_NEXT_DUP | MDB_PREV_DUP =>
      r ← position c (c_current c) (if decide (op = MDB_NEXT_DUP) then negb rev else rev) false;
      Ok (row_filter (λ kv, bool_decide (Some kv.1 = current_key)) r)
  | MDB_FIRST_DUP | MDB_LAST_DUP =>
      match current_key with
      | Some k => key_edge c k (bool_decide (op = MDB_FIRST_DUP))
      | None => Ok (c, None)
      end
  | MDB_NEXT_NODUP | MDB_PREV_NODUP =>
      match current_key with
      | None => position c None (if decide (op = MDB_NEXT_NODUP) then negb rev else rev) true
      | Some k =>
          let prefix := encode (c_dbi c) k None in
          if negb (Bool.eqb (bool_decide (op = MDB_NEXT_NODUP)) rev) then
            match successor prefix with
            | Some up => position c (Some up) true true
            | None => Ok (c, None)
            end
          else position c (Some prefix) false false
      end
  | MDB_OTHER => Err (rocks_msg "unsupported cursor operation")
  end.

(** An operation without a result leaves the logical position; the native
    iterator may have moved. *)
Definition Cursor_get (c : Cursor) (key val : option bytes) (op : CursorOp)
    : result DbError (Cursor * option Kv) :=
  '(c', row) ← get_inner c key val op;
  Ok (match row with
      | None => mkCursor (c_view c') (c_dbi c') (c_staged c') (c_it c')
                  (c_current c) (c_logical_key c)
      | Some _ => c'
      end, row).

(** ** Scans *)

(** The row a scan begins with. *)
Definition foreach_first (c : Cursor) (start_key start_dup : bytes) (reverse : bool)
    : result DbError (Cursor * option Kv) :=
  let dups := has_flag (c_dbi c) MDB_DUPSORT in
  if decide (start_key = []) then
    Cursor_get c None None (if reverse then MDB_LAST else MDB_FIRST)
  else if negb (is_some (c_staged c)) && dups && bool_decide (start_dup ≠ []) then
    position c (Some (encode (c_dbi c) start_key (Some start_dup)))
      (Bool.eqb reverse (reversed (c_dbi c))) true
  else if reverse then
    if dups then
      '(c, at_) ←
        (if decide (start_dup = []) then Ok (c, None)
         else Cursor_get c (Some start_key) (Some start_dup) MDB_GET_BOTH_RANGE);
      match at_ with
      | Some (_, v) =>
          if decide (v = start_dup) then Ok (c, at_) else Cursor_get c None None MDB_PREV
      | None =>
          '(c, r) ← Cursor_get c (Some start_key) None MDB_SET_KEY;
          if is_some r then Cursor_get c None None MDB_LAST_DUP
          else
            '(c, r) ← Cursor_get c (Some start_key) None MDB_SET_RANGE;
            if is_some r then Cursor_get c None None MDB_PREV
            else Cursor_get c None None MDB_LAST
      end
    else
      '(c, r) ← Cursor_get c (Some start_key) None MDB_SET_RANGE;
      match r with
      | Some (k, _) =>
          if decide (k = start_key) then Ok (c, r) else Cursor_get c None None MDB_PREV
      | None => Cursor_get c None None MDB_LAST
      end
  else if dups then
    if decide (start_dup ≠ []) then
      '(c, r) ← Cursor_get c (Some start_key) (Some start_dup) MDB_GET_BOTH_RANGE;
      match r with
      | Some _ => Ok (c, r)
      | None =>
          '(c, r) ← Cursor_get c (Some start_key) None MDB_SET_KEY;
          if is_some r then Cursor_get c None None MDB_NEXT_NODUP
          else Cursor_get c (Some start_key) None MDB_SET_RANGE
      end
    else
      '(c, r) ← Cursor_get c (Some start_key) None MDB_SET_KEY;
      if is_some r then Cursor_get c None None MDB_NEXT_NODUP
      else Cursor_get c (Some start_key) None MDB_SET_RANGE
  else Cursor_get c (Some start_key) None MDB_SET_RANGE.

(** A callback that captures mutable variables passes them along. *)
Definition foreach_step {S} (cb : S → bytes → bytes → S * bool) (reverse : bool)
    (st : Cursor * option Kv * S)
    : result DbError ((Cursor * option Kv * S) + (S * bool)) :=
  let '(c, row, s) := st in
  match row with
  | None => Ok (inr (s, true))
  | Some (k, v) =>
      let '(s, more) := cb s k v in
      if negb more then Ok (inr (s, false))
      else
        '(c, row) ← Cursor_get c None None (if reverse then MDB_PREV else MDB_NEXT);
        Ok (inl (c, row, s))
  end.

Definition foreach {S} (c : Cursor) (start_key start_dup : bytes) (reverse : bool)
    (cb : S → bytes → bytes → S * bool) (s : S) : result DbError (S * bool) :=
  '(c, first) ← foreach_first c start_key start_dup reverse;
  loop (foreach_step cb reverse) out_of_fuel (Datatypes.S (cursor_fuel c)) (c, first, s).

Definition foreach_logical {S} (c : Cursor) (start_key : bytes) (start_dup : Z)
    (cb : S → IndexEntry → S * bool) (s : S) : result DbError (S * bool) :=
  foreach c start_key (to_ne_bytes start_dup) true
    (λ s key value, cb s (from_logical key value)) s.

Definition historical (dbi : Z) : bool :=
  (dbi =? 4) || (dbi =? 5) || (dbi =? 6) || (dbi =? 9) || (dbi =? 10) || (dbi =? 12)
  || (dbi =? 21) || (dbi =? 23).

Definition foreach_index_step {S} (dbi : Z) (start_key bound : bytes)
    (cb : S → IndexEntry → S * bool) (st : RawIter * S)
    : result DbError ((RawIter * S) + (S * bool)) :=
  let '(it, s) := st in
  match it_item it with
  | None => _ ← rocks (it_status it); Ok (inr (s, true))
  | Some (key, value) =>
      e ← index_entry dbi key value start_key bound;
      let '(s, more) := cb s e in
      if negb more then Ok (inr (s, false)) else Ok (inl (it_next it, s))
  end.

Definition foreach_index {S} (c : Cursor) (start_key : bytes) (start_dup : Z)
    (cb : S → IndexEntry → S * bool) (s : S) : result DbError (S * bool) :=
  if is_some (c_staged c) || negb (historical (c_dbi c)) then
    foreach_logical c start_key start_dup cb s
  else
    let bound := encode (c_dbi c) start_key (Some (to_ne_bytes start_dup)) in
    let it := if decide (start_key = []) then it_seek_to_first (c_it c)
              else it_seek (c_it c) bound in
    loop (foreach_index_step (c_dbi c) start_key bound cb) out_of_fuel (cursor_fuel c) (it, s).

Definition largest (c : Cursor) : result DbError Z :=
  '(_, r) ← Cursor_get c None None MDB_LAST;
  match r with
  | Some (k, _) =>
      if decide (length k = 8%nat) then Ok (from_ne_bytes k)
      else Err (rocks_msg "invalid integer key")
  | None => Ok 0
  end.

(** The duplicates of the current key. *)
Definition count_step (st : Cursor * option Kv * Z)
    : result DbError ((Cursor * option Kv * Z) + Z) :=
  let '(c, row, n) := st in
  match row with
  | None => Ok (inr n)
  | Some _ => '(c, row) ← Cursor_get c None None MDB_NEXT_DUP; Ok (inl (c, row, n + 1))
  end.

Definition Cursor_count (c : Cursor) : result DbError Z :=
  match c_logical_key c with
  | None => Ok 0
  | Some key =>
      '(c, row) ← Cursor_get (Cursor_new (c_view c) (c_dbi c) (c_staged c)) (Some key) None MDB_SET_KEY;
      loop count_step out_of_fuel (S (cursor_fuel c)) (c, row, 0)
  end.

(** [View::get] *)
Definition View_get (v : View) (dbi : Z) (key : bytes) (staged : option Overlay)
    : result DbError (View * option bytes) :=
  _ ← validate_dbi dbi;
  if combined dbi then
    if decide (length key = 8%nat) then get_record v dbi (from_ne_bytes key) staged
    else Err (rocks_msg "invalid event local ID")
  else if has_flag dbi MDB_DUPSORT then
    '(_, r) ← Cursor_get (Cursor_new v dbi staged) (Some key) None MDB_SET_KEY;
    Ok (v, match r with Some (_, val) => Some val | None => None end)
  else o ← raw v dbi (encode dbi key None) staged; Ok (v, o).

(** ** Read transactions *)

(** [first] of the cached values of a marker *)
Definition marker_first (m : MarkerMap) (key : bytes) : option bytes :=
  vs ← bt_get bytes_cmp m key; head vs.

(** A reader is its view; a read may remember a record. *)
Definition RoTxn_get (v : View) (dbi : Z) (key : bytes) : result DbError (View * option bytes) :=
  if cached_marker dbi key then Ok (v, marker_first (v_markers v) key)
  else View_get v dbi key None.

Definition RoTxn_get_u64 (v : View) (dbi key : Z) : result DbError (View * option bytes) :=
  if combined dbi then get_record v dbi key None
  else RoTxn_get v dbi (to_ne_bytes key).

Definition RoTxn_cursor (v : View) (dbi : Z) : result DbError Cursor :=
  _ ← validate_dbi dbi; Ok (Cursor_new v dbi None).

Definition RoTxn_entries (v : View) (dbi : Z) : result DbError Z := count v dbi.

Definition RoTxn_largest_integer_key (v : View) (dbi : Z) : result DbError Z :=
  c ← RoTxn_cursor v dbi; largest c.

Definition RoTxn_foreach_full {S} (v : View) (dbi : Z) (key dup : bytes) (reverse : bool)
    (cb : S → bytes → bytes → S * bool) (s : S) : result DbError (S * bool) :=
  c ← RoTxn_cursor v dbi; foreach c key dup reverse cb s.

Definition RoTxn_author_heads (v : View) (authors : list bytes)
    : result DbError (list (option AuthorHead)) :=
  try_fold (λ out author,
    o ← rocks (get_cf (v_snapshot v) HEAD_CF author);
    match o with
    | None => Ok (out ++ [None])
    | Some b => h ← AuthorHead_decode b; Ok (out ++ [Some h])
    end) [] authors.

(** ** Write transactions *)

Record RwTxn : Type := mkRwTxn {
  t_view : View;
  t_staged : Overlay;
  t_counts : gmap Z Z;
  t_marker_values : MarkerMap;
  t_touched_authors : gset bytes;
  t_event_sequence : option Z;
  t_superseded_events : option Z;
  t_author_counts : gmap bytes Z;
  t_defer_tag_kind : bool;
}.

Definition set_staged (s : Overlay) (t : RwTxn) : RwTxn :=
  mkRwTxn (t_view t) s (t_counts t) (t_marker_values t) (t_touched_authors t)
    (t_event_sequence t) (t_superseded_events t) (t_author_counts t) (t_defer_tag_kind t).
Definition set_counts (n : gmap Z Z) (t : RwTxn) : RwTxn :=
  mkRwTxn (t_view t) (t_staged t) n (t_marker_values t) (t_touched_authors t)
    (t_event_sequence t) (t_superseded_events t) (t_author_counts t) (t_defer_tag_kind t).
Definition set_marker_values (m : MarkerMap) (t : RwTxn) : RwTxn :=
  mkRwTxn (t_view t) (t_staged t) (t_counts t) m (t_touched_authors t)
    (t_event_sequence t) (t_superseded_events t) (t_author_counts t) (t_defer_tag_kind t).
Definition set_touched_authors (a : gset bytes) (t : RwTxn) : RwTxn :=
  mkRwTxn (t_view t) (t_staged t) (t_counts t) (t_marker_values t) a
    (t_event_sequence t) (t_superseded_events t) (t_author_counts t) (t_defer_tag_kind t).

Definition RwTxn_of_view (v : View) : RwTxn :=
  mkRwTxn v [] ∅ (v_markers v) ∅ None None ∅ false.

Definition get (t : RwTxn) (dbi : Z) (key : bytes) : result DbError (option bytes) :=
  if cached_marker dbi key then Ok (marker_first (t_marker_values t) key)
  else '(_, o) ← View_get (t_view t) dbi key (Some (t_staged t)); Ok o.

Definition get_u64 (t : RwTxn) (dbi key : Z) : result DbError (option bytes) :=
  get t dbi (to_ne_bytes key).

Definition cursor (t : RwTxn) (dbi : Z) : result DbError Cursor :=
  _ ← validate_dbi dbi; Ok (Cursor_new (t_view t) dbi (Some (t_staged t))).

(** The count of the transaction, else the stored one. *)
Definition entries (t : RwTxn) (dbi : Z) : result DbError Z :=
  match t_counts t !! dbi with
  | Some n => Ok n
  | None => count (t_view t) dbi
  end.

Definition largest_integer_key (t : RwTxn) (dbi : Z) : result DbError Z :=
  c ← cursor t dbi; largest c.

Definition next_integer_key (t : RwTxn) (dbi : Z) : result DbError Z :=
  n ← largest_integer_key t dbi;
  if n <? U64_MAX then Ok (n + 1) else Err (rocks_msg "integer key space exhausted").

Definition foreach_full {S} (t : RwTxn) (dbi : Z) (key dup : bytes) (reverse : bool)
    (cb : S → bytes → bytes → S * bool) (s : S) : result DbError (S * bool) :=
  c ← cursor t dbi; foreach c key dup reverse cb s.

Definition change_count (t : RwTxn) (dbi : Z) (insert : bool) : result DbError RwTxn :=
  n ← entries t dbi;
  if (if insert then n <? U64_MAX else 0 <? n) then
    Ok (set_counts (<[dbi := if insert then n + 1 else n - 1]> (t_counts t)) t)
  else Err (rocks_msg "entry counter overflow/underflow").

(** The put flags of LMDB's interface. *)
Definition MDB_NOOVERWRITE : Z := 0x10.
Definition MDB_NODUPDATA : Z := 0x20.
Definition MDB_APPEND : Z := 0x20000.
Definition put_flag (flags f : Z) : bool := negb (Z.land flags f =? 0).

Definition note_author (dbi : Z) (key : bytes) (t : RwTxn) : RwTxn :=
  if (dbi =? 10) && (length key =? 40)%nat then
    set_touched_authors ({[ take 32 key ]} ∪ t_touched_authors t) t
  else t.

(** An appended key must follow the last one. *)
Definition append_refused (t : RwTxn) (dbi : Z) (key : bytes) : result DbError bool :=
  c ← cursor t dbi;
  '(_, last) ← Cursor_get c None None MDB_LAST;
  Ok (match last with
      | None => false
      | Some (last, _) =>
          if reversed dbi then
            bool_decide (cmp_le bytes_cmp (encode dbi last None) (encode dbi key None))
          else bool_decide (cmp_le bytes_cmp (encode dbi key None) (encode dbi last None))
      end).

Definition put_staged (t : RwTxn) (dbi : Z) (key val pk : bytes) : result DbError RwTxn :=
  if combined dbi then
    o ← raw (t_view t) dbi pk (Some (t_staged t));
    record ← match o with Some v => EventRecord_decode v | None => Ok EventRecord_default end;
    let record := if dbi =? 3 then mkEventRecord (Some val) (r_payload record)
                  else mkEventRecord (r_packed record) (Some val) in
    let t := set_staged (bt_insert overlay_cmp (t_staged t) (3, pk)
                           (Some (EventRecord_encode record))) t in
    if decide (length key = 8%nat) then Ok t else Err (rocks_msg "invalid local ID")
  else
    let t := note_author dbi key t in
    Ok (set_staged (bt_insert overlay_cmp (t_staged t) (dbi, pk)
                      (Some (if reversed dbi then [] else val))) t).

(** A marker's values are kept sorted. *)
Definition marker_put (t : RwTxn) (dbi : Z) (key val : bytes) : RwTxn :=
  if cached_marker dbi key then
    let values := default [] (bt_get bytes_cmp (t_marker_values t) key) in
    let values := if decide (val ∈ values) then values
                  else sort_marker_values key (values ++ [val]) in
    set_marker_values (bt_insert bytes_cmp (t_marker_values t) key values) t
  else t.

Definition put (t : RwTxn) (dbi : Z) (key val : bytes) (flags : Z)
    : result DbError (RwTxn * bool) :=
  if dbi =? COVER_DBI then Err (rocks_msg "covering index is derived")
  else
    let dup := has_flag dbi MDB_DUPSORT in
    let pk := encode dbi key (if dup then Some val else None) in
    exists_ ← (if combined dbi then o ← get t dbi key; Ok (is_some o)
               else o ← raw (t_view t) dbi pk (Some (t_staged t)); Ok (is_some o));
    held ← (if put_flag flags MDB_NOOVERWRITE then o ← get t dbi key; Ok (is_some o)
            else Ok false);
    if held || (put_flag flags MDB_NODUPDATA && exists_) then Ok (t, false)
    else
      refused ← (if put_flag flags MDB_APPEND then append_refused t dbi key else Ok false);
      if refused : bool then Ok (t, false)
      else
        t ← put_staged t dbi key val pk;
        t ← (if negb exists_ then change_count t dbi true else Ok t);
        Ok (marker_put t dbi key val, true).

Definition put_u64 (t : RwTxn) (dbi key : Z) (val : bytes) (flags : Z)
    : result DbError (RwTxn * bool) := put t dbi (to_ne_bytes key) val flags.

(** [entry(key).or_default().retain(..)] *)
Definition marker_del (t : RwTxn) (dbi : Z) (key : bytes) (val : option bytes) : RwTxn :=
  if cached_marker dbi key then
    let values := default [] (bt_get bytes_cmp (t_marker_values t) key) in
    set_marker_values
      (bt_insert bytes_cmp (t_marker_values t) key (filter (λ v, Some v ≠ val) values)) t
  else t.

(** What [del] stages, unless there is nothing to delete. *)
Definition del_staged (t : RwTxn) (dbi : Z) (key pk : bytes) : result DbError (option RwTxn) :=
  o ← raw (t_view t) dbi pk (Some (t_staged t));
  if combined dbi then
    match o with
    | None => Ok None
    | Some b =>
        record ← EventRecord_decode b;
        let part := if dbi =? 3 then r_packed record else r_payload record in
        if negb (is_some part) then Ok None
        else
          let record := if dbi =? 3 then mkEventRecord None (r_payload record)
                        else mkEventRecord (r_packed record) None in
          let v := match record with
            | mkEventRecord None None => None
            | _ => Some (EventRecord_encode record)
            end in
          let t := set_staged (bt_insert overlay_cmp (t_staged t) (3, pk) v) t in
          if decide (length key = 8%nat) then Ok (Some t) else Err (rocks_msg "invalid local ID")
    end
  else
    match o with
    | None => Ok None
    | Some _ =>
        let t := note_author dbi key t in
        Ok (Some (set_staged (bt_insert overlay_cmp (t_staged t) (dbi, pk) None) t))
    end.

(** [del] of one row: the case that does not call itself. *)
Definition del_row (t : RwTxn) (dbi : Z) (key : bytes) (val : option bytes)
    : result DbError (RwTxn * bool) :=
  let pk := encode dbi key (if has_flag dbi MDB_DUPSORT then val else None) in
  o ← del_staged t dbi key pk;
  match o with
  | None => Ok (t, false)
  | Some t =>
      t ← change_count t dbi false;
      Ok (marker_del t dbi key val, true)
  end.

Definition dups_step (st : Cursor * option Kv * list bytes)
    : result DbError ((Cursor * option Kv * list bytes) + list bytes) :=
  let '(c, row, vals) := st in
  match row with
  | None => Ok (inr vals)
  | Some (_, v) =>
      '(c, row) ← Cursor_get c None None MDB_NEXT_DUP;
      Ok (inl (c, row, vals ++ [v]))
  end.

(** The duplicates of a key. *)
Definition dups (t : RwTxn) (dbi : Z) (key : bytes) : result DbError (list bytes) :=
  c ← cursor t dbi;
  '(c, row) ← Cursor_get c (Some key) None MDB_SET_KEY;
  loop dups_step out_of_fuel (S (cursor_fuel c)) (c, row, []).

Definition del (t : RwTxn) (dbi : Z) (key : bytes) (val : option bytes)
    : result DbError (RwTxn * bool) :=
  if dbi =? COVER_DBI then Err (rocks_msg "covering index is derived")
  else if has_flag dbi MDB_DUPSORT && negb (is_some val) then
    vals ← (if cached_marker dbi key then
              Ok (default [] (bt_get bytes_cmp (t_marker_values t) key))
            else dups t dbi key);
    try_fold (λ '(t, removed) v,
      '(t, r) ← del_row t dbi key (Some v); Ok (t, removed || r)) (t, false) vals
  else del_row t dbi key val.

Definition del_u64 (t : RwTxn) (dbi key : Z) (val : option bytes)
    : result DbError (RwTxn * bool) := del t dbi (to_ne_bytes key) val.

Definition clear_step (st : Cursor * option Kv * list Kv)
    : result DbError ((Cursor * option Kv * list Kv) + list Kv) :=
  let '(c, row, rows) := st in
  match row with
  | None => Ok (inr rows)
  | Some kv =>
      '(c, row) ← Cursor_get c None None MDB_NEXT;
      Ok (inl (c, row, rows ++ [kv]))
  end.

Definition clear (t : RwTxn) (dbi : Z) : result DbError RwTxn :=
  c ← cursor t dbi;
  '(c, row) ← Cursor_get c None None MDB_FIRST;
  records ← loop clear_step out_of_fuel (S (cursor_fuel c)) (c, row, []);
  try_fold (λ t '(k, v),
    '(t, _) ← del t dbi k (if has_flag dbi MDB_DUPSORT then Some v else None); Ok t) t records.

(** ** Author heads *)

(** The callback's captured variables: [first], [next] and [malformed]. *)
Abbreviation HeadScan := (option AuthorPosition * option AuthorPosition * bool)%type.

Definition head_cb (author : bytes) (st : HeadScan) (entry : IndexEntry) : HeadScan * bool :=
  let '(first, next, malformed) := st in
  if negb (prefix_matches entry author true) then (st, false)
  else match local_id entry with
  | Err _ => ((first, next, true), false)
  | Ok id =>
      match ie_created_at entry with
      | Some created_at =>
          let position := mkAuthorPosition created_at id in
          match first with
          | None => ((Some position, next, malformed), true)
          | Some _ => ((first, Some position, malformed), false)
          end
      | None => (st, true)
      end
  end.

(** The head of an author by the transaction's rows. *)
Definition derived_head (t : RwTxn) (author : bytes) : result DbError (option bytes) :=
  c ← cursor t 10;
  '(st, _) ← foreach_index c (make_key_string_u64 author U64_MAX) U64_MAX (head_cb author)
               (None, None, false);
  let '(first, next, malformed) := st in
  Ok (if malformed : bool then None
      else match first with
      | Some first => Some (AuthorHead_encode (mkAuthorHead first next))
      | None => None
      end).

(** Each author once, in the order of the hash set. *)
Definition head_updates (t : RwTxn) : result DbError (list (bytes * option bytes)) :=
  try_fold (λ updates author,
    head ← derived_head t author;
    current ← rocks (get_cf (v_snapshot (t_view t)) HEAD_CF author);
    Ok (if decide (current ≠ head) then updates ++ [(author, head)] else updates))
    [] (elements (t_touched_authors t)).

(** The changes one commit writes. *)
Definition batch_op (cf : string) (key : bytes) (value : option bytes) : BatchOp :=
  match value with
  | Some v => PutCf cf key v
  | None => DeleteCf cf key
  end.

Definition commit_batch (t : RwTxn) : result DbError (list BatchOp) :=
  heads ← head_updates t;
  Ok (((λ '((dbi, key), value), batch_op (cf_name dbi) key value) <$> t_staged t) ++
      ((λ '(author, head), batch_op HEAD_CF author head) <$> heads) ++
      ((λ '(dbi, n), PutCf "default" (count_key dbi) (to_le_bytes 8 n)) <$> map_to_list (t_counts t))).

(** ** The environment

    The database with the marker values of its last published sequence; the
    markers are gone after a failed write. *)
Record Env : Type := mkEnv {
  env_db : Db;
  env_marker_state : option (Z * MarkerMap);
}.

(** The mirror is rebuilt when something else wrote. *)
Definition refresh_markers (e : Env) : result DbError Env :=
  match env_marker_state e with
  | Some (version, _) =>
      let current := latest_sequence_number (env_db e) in
      if decide (version ≠ current) then
        m ← load_markers (env_db e);
        Ok (mkEnv (env_db e) (Some (current, m)))
      else Ok e
  | None => Ok e
  end.

(** One round of [View::new] while no other thread writes: the sequence number
    is the same before and after the snapshot. *)
Definition View_try (e : Env) : result DbError (option View) :=
  '(sequence, markers) ← ok_or (env_marker_state e)
    (rocks_msg "metadata cache unavailable after a storage error; reopen");
  Ok (if decide (sequence = latest_sequence_number (env_db e)) then
        Some (mkView (db_snapshot (env_db e)) markers ∅)
      else None).

Definition View_new (e : Env) : result DbError (Env * View) :=
  loop (λ e,
    o ← View_try e;
    match o with
    | Some v => Ok (inr (e, v))
    | None => e ← refresh_markers e; Ok (inl e)
    end) out_of_fuel 2 e.

Definition RoTxn_begin (e : Env) : result DbError (Env * View) := View_new e.

Definition RwTxn_begin (e : Env) : result DbError (Env * RwTxn) :=
  e ← refresh_markers e;
  '(e, v) ← View_new e;
  Ok (e, RwTxn_of_view v).

(** What opening a database makes of it ([Env::from_native_db_inner]). *)
Definition from_native_db (db : Db) : result DbError Env :=
  markers ← load_markers db;
  Ok (mkEnv db (Some (latest_sequence_number db, markers))).

(** What [commit] does once the counters are flushed.  After a failed write
    the batch may or may not be in the database, so the markers are dropped. *)
Definition commit_flushed (e : Env) (t : RwTxn) : Env * result DbError unit :=
  match commit_batch t with
  | Err err => (e, Err err)
  | Ok batch =>
      match write_opt (env_db e) batch with
      | (db, Err err) => (mkEnv db None, Err (rocks_msg err))
      | (db, Ok _) => (mkEnv db (Some (latest_sequence_number db, t_marker_values t)), Ok tt)
      end
  end.

End txn.
