(* ===== verification/DbState.v ===== *)
(** * Bookkeeping: crates/wok-db/src/state.rs

    Counters kept beside the events: the sequence of local ids, the count of
    superseded versions, the counts of authors and the visibility generation.
    A transaction holds them in its fields and [flush] stages them once, before
    the batch of the commit is built.  The process-wide counter of drifts and
    the log line next to it are not modelled. *)

From S2P Require Import Prelude BTreeMap Json Kinds DbKeys DbIndex DbTxn.

Local Open Scope Z_scope.

(** ** The table handles of rocks/env.rs *)

Record Dbis : Type := mkDbis {
  d_meta : Z; d_negentropy_filter : Z; d_event : Z; d_event_id : Z; d_event_pubkey_kind : Z;
  d_event_tag : Z; d_event_deletion : Z; d_event_replace : Z; d_event_created_at : Z;
  d_event_pubkey : Z; d_event_replace_deletion : Z; d_event_kind : Z; d_event_expiration : Z;
  d_compression_dictionary : Z; d_event_payload : Z; d_negentropy : Z;
  d_event_search : option Z; d_vanish_pubkey : option Z; d_moderation : option Z;
  d_state : option Z; d_event_tag_kind : option Z; d_event_tag_kind_build : option Z;
}.

(** The handles every opened environment has. *)
Definition dbis : Dbis := {|
  d_meta := 1; d_negentropy_filter := 2; d_event := 3; d_event_id := 4; d_event_pubkey_kind := 5;
  d_event_tag := 6; d_event_deletion := 7; d_event_replace := 8; d_event_created_at := 9;
  d_event_pubkey := 10; d_event_replace_deletion := 11; d_event_kind := 12; d_event_expiration := 13;
  d_compression_dictionary := 14; d_event_payload := 15; d_negentropy := 16;
  d_event_search := Some 17; d_vanish_pubkey := Some 18; d_moderation := Some 19;
  d_state := Some 20; d_event_tag_kind := Some 21; d_event_tag_kind_build := Some 22;
|}.

(** ** Keys *)

Definition HIGH_WATER : bytes := str "sequence".
Definition SUPERSEDED_EVENTS : bytes := str "superseded-versions".
Definition LEGACY_SUPERSEDED_EVENTS : bytes := str "superseded-events".
Definition POLICY_GENERATION : bytes := str "visibility".
Definition VANISH_MARKER_CHANGES : bytes := str "vanish-markers".

Definition decode_counter (raw : bytes) : result DbError Z :=
  if decide (length raw = 8%nat) then Ok (from_le_bytes raw)
  else Err (DbError_msg "invalid state counter").

(** [.map(decode).transpose()] *)
Definition decode_opt (o : option bytes) : result DbError (option Z) :=
  match o with
  | Some raw => n ← decode_counter raw; Ok (Some n)
  | None => Ok None
  end.

Definition author_key (pubkey : bytes) : bytes := ch "a" :: pubkey.

Definition checked_add (a b : Z) : option Z := if a + b <=? U64_MAX then Some (a + b) else None.
Definition checked_sub (a b : Z) : option Z := if b <=? a then Some (a - b) else None.

Section state.
Context `{R : RocksDb}.

(** ** The counters of a transaction *)

Definition set_event_sequence (n : option Z) (t : RwTxn) : RwTxn :=
  mkRwTxn (t_view t) (t_staged t) (t_counts t) (t_marker_values t) (t_touched_authors t)
    n (t_superseded_events t) (t_author_counts t) (t_defer_tag_kind t).
Definition set_superseded_events (n : option Z) (t : RwTxn) : RwTxn :=
  mkRwTxn (t_view t) (t_staged t) (t_counts t) (t_marker_values t) (t_touched_authors t)
    (t_event_sequence t) n (t_author_counts t) (t_defer_tag_kind t).
Definition set_author_counts (m : gmap bytes Z) (t : RwTxn) : RwTxn :=
  mkRwTxn (t_view t) (t_staged t) (t_counts t) (t_marker_values t) (t_touched_authors t)
    (t_event_sequence t) (t_superseded_events t) m (t_defer_tag_kind t).
Definition set_defer_tag_kind (b : bool) (t : RwTxn) : RwTxn :=
  mkRwTxn (t_view t) (t_staged t) (t_counts t) (t_marker_values t) (t_touched_authors t)
    (t_event_sequence t) (t_superseded_events t) (t_author_counts t) b.

Definition state_dbi : result DbError Z := ok_or (d_state dbis) (DbError_msg "missing Wok state table").

(** ** Local ids *)

Definition high_water_ro (v : View) : result DbError (View * option Z) :=
  match d_state dbis with
  | None => Ok (v, None)
  | Some dbi => '(v, o) ← RoTxn_get v dbi HIGH_WATER; n ← decode_opt o; Ok (v, n)
  end.

Definition preserve_high_water (t : RwTxn) : result DbError RwTxn :=
  dbi ← state_dbi;
  match t_event_sequence t with
  | Some _ => Ok t
  | None =>
      o ← get t dbi HIGH_WATER;
      n ← match o with
          | Some raw => decode_counter raw
          | None => largest_integer_key t (d_event dbis)
          end;
      Ok (set_event_sequence (Some n) t)
  end.

Definition allocate_event_id (t : RwTxn) : result DbError (RwTxn * Z) :=
  t ← preserve_high_water t;
  let previous := default 0 (t_event_sequence t) in
  next ← ok_or (checked_add previous 1) (DbError_msg "local event sequence exhausted");
  Ok (set_event_sequence (Some next) t, next).

(** ** Counts of authors *)

Definition author_count_cb (pubkey : bytes) (count : Z) (k _ : bytes) : Z * bool :=
  if negb (starts_with k pubkey) then (count, false) else (count + 1, true).

Definition author_count (t : RwTxn) (pubkey : bytes) : result DbError (RwTxn * Z) :=
  dbi ← state_dbi;
  let key := author_key pubkey in
  match t_author_counts t !! key with
  | Some count => Ok (t, count)
  | None =>
      o ← get t dbi key;
      match o with
      | Some raw => n ← decode_counter raw; Ok (t, n)
      | None =>
          '(count, _) ← foreach_full t (d_event_pubkey dbis) (make_key_string_u64 pubkey 0)
                          (to_ne_bytes 0) false (author_count_cb pubkey) 0;
          Ok (set_author_counts (<[key := count]> (t_author_counts t)) t, count)
      end
  end.

Definition change_author_count (t : RwTxn) (pubkey : bytes) (insert : bool) : result DbError RwTxn :=
  dbi ← state_dbi;
  let key := author_key pubkey in
  old ← match t_author_counts t !! key with
        | Some count => Ok (Some count)
        | None => o ← get t dbi key; decode_opt o
        end;
  match old with
  | None => Ok t
  | Some old =>
      if insert then
        count ← ok_or (checked_add old 1) (DbError_msg "author count overflow");
        Ok (set_author_counts (<[key := count]> (t_author_counts t)) t)
      else match checked_sub old 1 with
      | Some count => Ok (set_author_counts (<[key := count]> (t_author_counts t)) t)
      | None =>
          let t := set_author_counts (delete key (t_author_counts t)) t in
          '(t, _) ← del t dbi key None;
          Ok t
      end
  end.

(** ** Generations *)

Definition policy_generation (v : View) : result DbError (View * Z) :=
  match d_state dbis with
  | None => Ok (v, 0)
  | Some dbi => '(v, o) ← RoTxn_get v dbi POLICY_GENERATION; n ← decode_opt o; Ok (v, default 0 n)
  end.

Definition vanish_marker_changes (t : RwTxn) : result DbError Z :=
  match d_state dbis with
  | None => Ok 0
  | Some dbi => o ← get t dbi VANISH_MARKER_CHANGES; n ← decode_opt o; Ok (default 0 n)
  end.

Definition count_vanish_marker_change (t : RwTxn) : result DbError RwTxn :=
  dbi ← state_dbi;
  n ← vanish_marker_changes t;
  '(t, _) ← put t dbi VANISH_MARKER_CHANGES (to_le_bytes 8 (wrap64 (n + 1))) 0;
  Ok t.

Definition invalidate_visibility (t : RwTxn) : result DbError RwTxn :=
  dbi ← state_dbi;
  o ← get t dbi POLICY_GENERATION;
  n ← decode_opt o;
  generation ← ok_or (checked_add (default 0 n) 1) (DbError_msg "visibility generation exhausted");
  '(t, _) ← put t dbi POLICY_GENERATION (to_le_bytes 8 generation) 0;
  Ok t.

(** ** Flush and commit *)

(** The hash map's order is that of its entries here; the keys are distinct. *)
Definition flush (t : RwTxn) : result DbError RwTxn :=
  match d_state dbis with
  | None => Ok t
  | Some dbi =>
      t ← match t_event_sequence t with
          | Some n => '(t, _) ← put (set_event_sequence None t) dbi HIGH_WATER (to_le_bytes 8 n) 0; Ok t
          | None => Ok t
          end;
      t ← match t_superseded_events t with
          | Some n => '(t, _) ← put (set_superseded_events None t) dbi SUPERSEDED_EVENTS (to_le_bytes 8 n) 0; Ok t
          | None => Ok t
          end;
      try_fold (λ t '(key, n), '(t, _) ← put t dbi key (to_le_bytes 8 n) 0; Ok t)
        (set_author_counts ∅ t) (map_to_list (t_author_counts t))
  end.

Definition commit (e : Env) (t : RwTxn) : Env * result DbError unit :=
  match flush t with
  | Err err => (e, Err err)
  | Ok t => commit_flushed e t
  end.

(** ** Superseded versions *)

Definition reset_for_reindex (source : View) (target : RwTxn) : result DbError (View * RwTxn) :=
  '(source, n) ← high_water_ro source;
  Ok (source, set_event_sequence n (set_superseded_events None (set_author_counts ∅ target))).

Definition superseded_events_ro (v : View) : result DbError (View * option Z) :=
  match d_state dbis with
  | None => Ok (v, None)
  | Some dbi =>
      '(v, legacy) ← RoTxn_get v dbi LEGACY_SUPERSEDED_EVENTS;
      if is_some legacy then Ok (v, None)
      else '(v, o) ← RoTxn_get v dbi SUPERSEDED_EVENTS; n ← decode_opt o; Ok (v, n)
  end.

Definition discard_legacy_superseded_events (t : RwTxn) : result DbError RwTxn :=
  match d_state dbis with
  | None => Ok t
  | Some dbi =>
      '(t, deleted) ← del t dbi LEGACY_SUPERSEDED_EVENTS None;
      if deleted : bool then
        '(t, _) ← del t dbi SUPERSEDED_EVENTS None; Ok (set_superseded_events None t)
      else Ok t
  end.

(** The variables of the scan: [previous], [count] and [error]. *)
Definition superseded_cb (st : bytes * Z * option DbError) (key _ : bytes)
    : bytes * Z * option DbError * bool :=
  let '(previous, count, error) := st in
  match parse_key_string_u64 key with
  | Err err => (previous, count, Some err, false)
  | Ok (_, kind) =>
      if is_replaceable_kind kind || is_param_replaceable_kind kind then
        if decide (previous = key) then (previous, count + 1, error, true)
        else (key, count, error, true)
      else (st, true)
  end.

Definition superseded_events (t : RwTxn) : result DbError (RwTxn * Z) :=
  match t_superseded_events t with
  | Some count => Ok (t, count)
  | None =>
      dbi ← state_dbi;
      o ← get t dbi SUPERSEDED_EVENTS;
      count ← match o with
        | Some raw => decode_counter raw
        | None =>
            '(st, _) ← foreach_full t (d_event_replace dbis) [] [] false superseded_cb ([], 0, None);
            let '(_, count, error) := st in
            match error with Some err => Err err | None => Ok count end
        end;
      Ok (set_superseded_events (Some count) t, count)
  end.

(** Before an insertion into the replacement index, or after a deletion. *)
Definition change_replacement_count (t : RwTxn) (key : bytes) (insert : bool) : result DbError RwTxn :=
  o ← get t (d_event_replace dbis) key;
  if is_some o then
    old ← ok_or (t_superseded_events t) (DbError_msg "replacement count not initialized");
    n ← ok_or (if insert then checked_add old 1 else checked_sub old 1)
          (DbError_msg "replacement count overflow or drift");
    Ok (set_superseded_events (Some n) t)
  else Ok t.

End state.
