(* ===== verification/DbPayload.v ===== *)
(** * Stored payloads: crates/wok-db/src/{fbs,payload}.rs

    The FlatBuffers reader of the small records, and the payload of an event:
    its JSON, or the JSON compressed with one of the stored dictionaries.  The
    decompressor is the class [ZstdCrate]; the encoders of fbs.rs only call the
    flatbuffers crate and are not modelled. *)

From S2P Require Import Prelude Utf8 BTreeMap Json DbKeys DbIndex DbTxn DbState.

Local Open Scope Z_scope.

(** ** FlatBuffers records *)

Record Meta : Type := mkMeta {
  db_version : Z;
  endianness : Z;
  negentropy_modification_counter : Z;
}.

(** [buf[a..a + n]], where the source has checked the range. *)
Definition fb_slice (buf : bytes) (a n : Z) : bytes := slice (Z.to_nat a) (Z.to_nat (a + n)) buf.

(** [i32::from_le_bytes] *)
Definition i32_from_le (b : bytes) : Z :=
  let n := from_le_bytes b in if n <? 2 ^ 31 then n else n - 2 ^ 32.

Definition root_table (buf : bytes) : result DbError Z :=
  if len buf <? 8 then Err (DbError_msg "flatbuffer too short")
  else
    let off := from_le_bytes (fb_slice buf 0 4) in
    if len buf <? off + 4 then Err (DbError_msg "flatbuffer root out of range") else Ok off.

Definition vtable_field_offset (buf : bytes) (table_off field_id : Z) : result DbError Z :=
  if len buf <? table_off + 4 then Err (DbError_msg "table soffset out of range")
  else
    let soffset := i32_from_le (fb_slice buf table_off 4) in
    let vtable_off := table_off - soffset in
    if (vtable_off <? 0) || (len buf <? vtable_off) then Err (DbError_msg "vtable out of range")
    else if len buf <? vtable_off + 4 then Err (DbError_msg "vtable out of range")
    else
      let vtable_size := from_le_bytes (fb_slice buf vtable_off 2) in
      let entry := 4 + field_id * 2 in
      if vtable_size <? entry + 2 then Ok 0
      else
        let pos := vtable_off + entry in
        if len buf <? pos + 2 then Err (DbError_msg "vtable field out of range")
        else Ok (from_le_bytes (fb_slice buf pos 2)).

Definition fb_get_u64 (buf : bytes) (table_off field_id : Z) : result DbError Z :=
  off ← vtable_field_offset buf table_off field_id;
  if off =? 0 then Ok 0
  else
    let pos := table_off + off in
    if len buf <? pos + 8 then Err (DbError_msg "u64 field out of range")
    else Ok (from_le_bytes (fb_slice buf pos 8)).

Definition fb_get_bytes (buf : bytes) (table_off field_id : Z) : result DbError bytes :=
  off ← vtable_field_offset buf table_off field_id;
  if off =? 0 then Ok []
  else
    let ptr_pos := table_off + off in
    if len buf <? ptr_pos + 4 then Err (DbError_msg "string offset out of range")
    else
      let rel := from_le_bytes (fb_slice buf ptr_pos 4) in
      let str_pos := ptr_pos + rel in
      if len buf <? str_pos + 4 then Err (DbError_msg "string length out of range")
      else
        let n := from_le_bytes (fb_slice buf str_pos 4) in
        let data_pos := str_pos + 4 in
        if len buf <? data_pos + n then Err (DbError_msg "string data out of range")
        else Ok (fb_slice buf data_pos n).

Definition fb_get_string (buf : bytes) (table_off field_id : Z) : result DbError bytes :=
  b ← fb_get_bytes buf table_off field_id;
  if utf8_valid b then Ok b else Err (DbError_msg "flatbuffer string not utf-8").

Definition decode_meta (buf : bytes) : result DbError Meta :=
  t ← root_table buf;
  version ← fb_get_u64 buf t 0;
  endianness ← fb_get_u64 buf t 1;
  counter ← fb_get_u64 buf t 2;
  Ok (mkMeta version endianness counter).

Definition decode_negentropy_filter (buf : bytes) : result DbError bytes :=
  t ← root_table buf; fb_get_string buf t 0.

Definition decode_compression_dictionary (buf : bytes) : result DbError bytes :=
  t ← root_table buf; fb_get_bytes buf t 0.

(** ** Payloads *)

Definition PAYLOAD_RAW : Z := 0x00.
Definition PAYLOAD_ZSTD : Z := 0x01.

Definition encode_raw_payload (json : bytes) : bytes := PAYLOAD_RAW :: json.

(** [u32::to_ne_bytes] of a little-endian machine *)
Definition encode_zstd_payload (dict_id : Z) (compressed : bytes) : bytes :=
  PAYLOAD_ZSTD :: to_le_bytes 4 dict_id ++ compressed.

Inductive PayloadView : Type :=
| Raw (json : bytes)
| Zstd (dict_id : Z) (compressed : bytes).

Definition parse_payload (raw : bytes) : result DbError PayloadView :=
  match raw with
  | [] => Err (DbError_msg "empty event in EventPayload")
  | b :: rest =>
      if b =? PAYLOAD_RAW then Ok (Raw rest)
      else if b =? PAYLOAD_ZSTD then
        if len raw <? 5 then Err (DbError_msg "EventPayload record too short to read dictId")
        else Ok (Zstd (from_le_bytes (slice 1 5 raw)) (drop 5 raw))
      else Err (DbError_msg "Unexpected first byte in EventPayload")
  end.

(** The zstd crate: a prepared dictionary, a decoder for it, and decompression
    into a buffer of a given size. *)
Class ZstdCrate : Type := {
  DecoderDictionary : Type;
  ZstdDecoder : Type;
  dictionary_copy : bytes → DecoderDictionary;
  with_prepared_dictionary : DecoderDictionary → result text ZstdDecoder;
  decompress_to_buffer : ZstdDecoder → bytes → Z → result text bytes;
}.

Section payload.
Context `{R : RocksDb} {ZC : ZstdCrate}.

(** [buffer] is the length of the buffer; each decoding overwrites what it reads. *)
Record Decompressor : Type := mkDecompressor {
  dc_dicts : gmap Z DecoderDictionary;
  dc_buffer : Z;
}.

Definition Decompressor_new : Decompressor := mkDecompressor ∅ 0.

Definition reserve (d : Decompressor) (n : Z) : Decompressor :=
  if dc_buffer d <? n then mkDecompressor (dc_dicts d) n else d.

Definition payload_str (b : bytes) : result DbError bytes :=
  if utf8_valid b then Ok b else Err (DbError_msg "payload not utf-8").

(** The dictionary is kept once loaded. *)
Definition dict_load (d : Decompressor) (dict_id : Z) (stored : result DbError (option bytes))
    : result DbError Decompressor :=
  match dc_dicts d !! dict_id with
  | Some _ => Ok d
  | None =>
      o ← stored;
      raw ← ok_or o (DbMessage (Text "couldn't find dictId {dict_id}" [TNum dict_id]));
      rec ← decode_compression_dictionary raw;
      Ok (mkDecompressor (<[dict_id := dictionary_copy rec]> (dc_dicts d)) (dc_buffer d))
  end.

Definition load_dict_rw (d : Decompressor) (t : RwTxn) (dict_id : Z) : result DbError Decompressor :=
  dict_load d dict_id (get_u64 t (d_compression_dictionary dbis) dict_id).

Definition load_dict_ro (d : Decompressor) (v : View) (dict_id : Z) : result DbError Decompressor :=
  dict_load d dict_id
    ('(_, o) ← RoTxn_get_u64 v (d_compression_dictionary dbis) dict_id; Ok o).

(** Decompression once the dictionary is loaded. *)
Definition decompress_with (d : Decompressor) (dict_id : Z) (src : bytes) (max_event_size : Z)
    : result DbError (Decompressor * bytes) :=
  let d := reserve d max_event_size in
  dict ← ok_or (dc_dicts d !! dict_id) (DbError_msg "unwrap");
  decoder ← map_err DbMessage (with_prepared_dictionary dict);
  out ← map_err (λ e, DbMessage (Text "zstd decompression failed: {e}" [e]))
          (decompress_to_buffer decoder src max_event_size);
  s ← payload_str out;
  Ok (d, s).

Definition decompress_rw (d : Decompressor) (t : RwTxn) (dict_id : Z) (src : bytes)
    (max_event_size : Z) : result DbError (Decompressor * bytes) :=
  d ← load_dict_rw d t dict_id; decompress_with d dict_id src max_event_size.

Definition decompress (d : Decompressor) (v : View) (dict_id : Z) (src : bytes)
    (max_event_size : Z) : result DbError (Decompressor * bytes) :=
  d ← load_dict_ro d v dict_id; decompress_with d dict_id src max_event_size.

Definition decode_rw (d : Decompressor) (t : RwTxn) (raw : bytes) (max_event_size : Z)
    : result DbError (Decompressor * bytes) :=
  p ← parse_payload raw;
  match p with
  | Raw json => s ← payload_str json; Ok (d, s)
  | Zstd dict_id compressed => decompress_rw d t dict_id compressed max_event_size
  end.

Definition decode_ro (d : Decompressor) (v : View) (raw : bytes) (max_event_size : Z)
    : result DbError (Decompressor * bytes) :=
  p ← parse_payload raw;
  match p with
  | Raw json => s ← payload_str json; Ok (d, s)
  | Zstd dict_id compressed => decompress d v dict_id compressed max_event_size
  end.

Definition get_event_json (v : View) (d : Decompressor) (lev_id max_event_size : Z)
    : result DbError (Decompressor * bytes) :=
  '(_, o) ← RoTxn_get_u64 v (d_event_payload dbis) lev_id;
  raw ← ok_or o (DbError_msg "couldn't find event in EventPayload");
  decode_ro d v raw max_event_size.

End payload.
