(* ===== verification/DbSearch.v ===== *)
(** * The search index: the tables of crates/wok-db/src/search.rs

    What an event is searched by, the postings of its terms, the marker of the
    events that have their postings, and the step that builds the index.  The
    typed readers of serde_json are the class [SerdeEvent]; the clock of a build
    step is a function that says whether the budget is spent at each check. *)

From S2P Require Import Prelude Utf8 BTreeMap Json Packed Crates DbKeys DbIndex DbTxn DbState DbPayload Search.

Local Open Scope Z_scope.

Definition SEARCH_THROUGH_KEY : bytes := 0 :: str "indexed-through".
Definition SEARCH_SCHEMA_KEY : bytes := 0 :: str "schema".
Definition SEARCH_SCHEMA_VERSION : Z := 4.
Definition BUILD_PAYLOAD_BOUND : Z := 16 * 1024 * 1024.
Definition BUILD_CHUNK : nat := 64.

Definition TEXT_KINDS : list Z := [
  1; 9; 11; 20; 21; 22; 42; 54; 1063; 1068; 1111; 1311; 1337; 1618; 1621; 2003; 2004; 7516; 9041;
  9802; 30023; 30402; 30818; 31922; 31923; 31924; 34235; 34236; 37516; 37517; 39701].

Definition NAME_TAGS : list bytes := str <$> ["title"; "subject"; "name"].
Definition SUMMARY_TAGS : list bytes := str <$> ["summary"; "description"].
Definition PROFILE_FIELDS : list bytes := str <$> ["name"; "display_name"; "nip05"; "about"].

(** A tag as search reads it. *)
Inductive TagElement : Type := TagText (s : bytes) | TagOther.
Inductive SearchTag : Type := TagElements (l : list TagElement) | OtherTag.
Record EventText : Type := mkEventText { et_tags : list SearchTag; et_content : bytes }.

(** [serde_json::from_str] at the types of the source; the last two at
    [EventKind] and at the map of a JSON object. *)
Class SerdeEvent : Type := {
  from_str_content : bytes → result text bytes;
  from_str_text : bytes → result text EventText;
  from_str_kind : bytes → result text Z;
  from_str_map : bytes → result text (list (bytes * Value));
}.

Definition name_and_value (t : SearchTag) : option (bytes * bytes) :=
  match t with
  | TagElements (TagText name :: TagText value :: _) => Some (name, value)
  | _ => None
  end.

Definition parse_event {A} (r : result text A) : result DbError A :=
  map_err (λ e, DbMessage (Text "event JSON parse failed: {error}" [e])) r.

(** [marker] of search.rs and of tag_kind.rs *)
Definition marker (value : option bytes) : option Z :=
  raw ← value; if decide (length raw = 8%nat) then Some (from_ne_bytes raw) else None.

Definition is_search_marker (key : bytes) : bool :=
  bool_decide (key = SEARCH_THROUGH_KEY) || bool_decide (key = SEARCH_SCHEMA_KEY).

Section document.
Context {UC : UnicodeChars} {SE : SerdeEvent}.

Definition search_document (kind : Z) (json : bytes) : result DbError (list bytes) :=
  if kind =? 0 then
    content ← parse_event (from_str_content json);
    let fields := match from_str_map content with Ok m => m | Err _ => [] end in
    Ok (omap (λ field, v ← map_get fields field; as_str v) PROFILE_FIELDS)
  else match binary_search_by (λ k, k ?= kind) TEXT_KINDS with
  | inr _ => Ok []
  | inl _ =>
      event ← parse_event (from_str_text json);
      let tags := filter (λ '(name, _), name ∈ NAME_TAGS ∨ name ∈ SUMMARY_TAGS)
                    (omap name_and_value (et_tags event)) in
      let names := filter (λ '(name, _), name ∈ NAME_TAGS) tags in
      let summaries := filter (λ '(name, _), name ∉ NAME_TAGS) tags in
      Ok ((names ++ summaries).*2 ++ [et_content event])
  end.

Definition payload_kind (json : bytes) : option Z := result_ok (parse_event (from_str_kind json)).

Definition event_search_terms (kind : Z) (json : bytes) : result DbError SearchTermSet :=
  document ← search_document kind json; Ok (indexed_terms document).

(** The keys are those of a [BTreeSet]. *)
Definition search_index_entries (lev_id kind : Z) (json : bytes) : result DbError (list Kv) :=
  document ← search_document kind json;
  let keys := vec_dedup (slice_sort bytes_cmp (term_key <$> elements (indexed_terms document))) in
  Ok ((λ key, (key, to_ne_bytes lev_id)) <$> keys).

(** The variables of the walk: [found], [remaining] and [previous]. *)
Definition pair_step (pairs : list (bytes * bytes)) (st : list bool * Z * bytes) (term : option bytes)
    : list bool * Z * bytes * bool :=
  let '(found, remaining, previous) := st in
  match term with
  | None => (found, remaining, [], true)
  | Some term =>
      let '(found, remaining) :=
        if decide (previous = []) then (found, remaining)
        else
          let hit := zip_with (λ seen '(first, second),
            negb seen && bool_decide (first = previous) && bool_decide (second = term)) found pairs in
          (zip_with orb found hit, remaining - len (filter (λ b, b = true) hit)) in
      (found, remaining, term, 0 <? remaining)
  end.

Definition count_phrase_pairs (kind : Z) (json : bytes) (pairs : list (bytes * bytes)) : result DbError Z :=
  if decide (pairs = []) then Ok 0
  else
    document ← search_document kind json;
    let '(_, remaining, _) := for_each_document_term (pair_step pairs)
      (replicate (length pairs) false, len pairs, []) document in
    Ok (len pairs - remaining).

End document.

(** [tag_kind::high_water] *)
Definition high_water (sequence : option bytes) (newest_event : Z) : Z :=
  Z.max (default 0 (raw ← sequence; result_ok (decode_counter raw))) newest_event.

Record SearchIndexState : Type := mkSearchIndexState { si_indexed_through : Z; si_high_water : Z }.
Record SearchBuildStep : Type := mkSearchBuildStep { sb_events : Z; sb_state : SearchIndexState }.

Definition lag (s : SearchIndexState) : Z := sat_sub (si_high_water s) (si_indexed_through s).

Section index.
Context `{R : RocksDb} {UC : UnicodeChars} {SE : SerdeEvent} {ZC : ZstdCrate}.

Definition search_dbi : result DbError Z :=
  ok_or (d_event_search dbis) (DbError_msg "NIP-50 search index is unavailable").

Definition index_event_search (t : RwTxn) (lev_id kind : Z) (json : bytes) : result DbError RwTxn :=
  dbi ← search_dbi;
  entries ← search_index_entries lev_id kind json;
  try_fold (λ t '(key, value), '(t, _) ← put t dbi key value MDB_NODUPDATA; Ok t) t entries.

Definition remove_event_search (t : RwTxn) (lev_id kind : Z) (json : bytes) : result DbError RwTxn :=
  dbi ← search_dbi;
  entries ← search_index_entries lev_id kind json;
  try_fold (λ t '(key, value), '(t, _) ← del t dbi key (Some value); Ok t) t entries.

Definition set_search_schema (t : RwTxn) : result DbError RwTxn :=
  dbi ← search_dbi;
  '(t, _) ← del t dbi SEARCH_SCHEMA_KEY None;
  '(t, _) ← put t dbi SEARCH_SCHEMA_KEY (to_ne_bytes SEARCH_SCHEMA_VERSION) 0;
  Ok t.

Definition set_indexed_through (t : RwTxn) (lev_id : Z) : result DbError RwTxn :=
  dbi ← search_dbi;
  '(t, _) ← del t dbi SEARCH_THROUGH_KEY None;
  '(t, _) ← put t dbi SEARCH_THROUGH_KEY (to_ne_bytes lev_id) 0;
  Ok t.

Definition initialize_search_index_state (t : RwTxn) (lev_id : Z) : result DbError RwTxn :=
  t ← set_search_schema t; set_indexed_through t lev_id.

Definition search_indexed_through_rw (t : RwTxn) : result DbError (option Z) :=
  match d_event_search dbis with
  | None => Ok None
  | Some dbi => o ← get t dbi SEARCH_THROUGH_KEY; Ok (Some (default 0 (marker o)))
  end.

Definition reset_search_index (t : RwTxn) : result DbError RwTxn :=
  match d_event_search dbis with
  | None => Ok t
  | Some dbi => t ← clear t dbi; initialize_search_index_state t 0
  end.

(** ** One build step *)

(** The callback that reads a chunk of events. *)
Definition build_chunk_cb (chunk : list (Z * option Z)) (key packed : bytes)
    : list (Z * option Z) * bool :=
  let chunk :=
    if decide (length key = 8%nat) then
      chunk ++ [(from_ne_bytes key,
                 v ← result_ok (PackedEventView_new packed); Some (PackedEventView_kind v))]
    else chunk in
  (chunk, (length chunk <? BUILD_CHUNK)%nat).

Record BuildLoop : Type := mkBuildLoop {
  bl_txn : RwTxn;
  bl_decompressor : Decompressor;
  bl_events : Z;
  bl_done : Z;
  bl_walked : bool;
}.

(** The postings of one event; an event whose postings cannot be derived is
    passed over. *)
Definition build_event (t : RwTxn) (dc : Decompressor) (dbi lev_id : Z) (kind : option Z)
    : result DbError (RwTxn * Decompressor) :=
  payload ← get_u64 t (d_event_payload dbis) lev_id;
  match kind, payload with
  | Some kind, Some payload =>
      match decode_rw dc t payload BUILD_PAYLOAD_BOUND with
      | Err _ => Ok (t, dc)
      | Ok (dc, json) =>
          let entries := match search_index_entries lev_id kind json with Ok l => l | Err _ => [] end in
          t ← try_fold (λ t '(key, value), '(t, _) ← put t dbi key value MDB_NODUPDATA; Ok t) t entries;
          Ok (t, dc)
      end
  | _, _ => Ok (t, dc)
  end.

(** The events of a chunk, until the step is over: [late n] is the clock's
    answer after the [n]th event. *)
Fixpoint build_chunk (late : Z → bool) (max_events dbi : Z) (b : BuildLoop) (chunk : list (Z * option Z))
    : result DbError (BuildLoop * bool) :=
  match chunk with
  | [] => Ok (b, false)
  | (lev_id, kind) :: chunk =>
      '(t, dc) ← build_event (bl_txn b) (bl_decompressor b) dbi lev_id kind;
      let events := bl_events b + 1 in
      let b := mkBuildLoop t dc events lev_id (bl_walked b) in
      if (max_events <=? events) || late events then Ok (b, true)
      else build_chunk late max_events dbi b chunk
  end.

Definition build_round (late : Z → bool) (max_events dbi : Z) (b : BuildLoop)
    : result DbError (BuildLoop + BuildLoop) :=
  if bl_walked b then Ok (inr b)
  else
    '(chunk, at_end) ← foreach_full (bl_txn b) (d_event dbis)
      (to_ne_bytes (sat_add U64_MAX (bl_done b) 1)) [] false build_chunk_cb [];
    '(b, stop) ← build_chunk late max_events dbi b chunk;
    if stop : bool then Ok (inr b)
    else Ok (inl (mkBuildLoop (bl_txn b) (bl_decompressor b) (bl_events b) (bl_done b) at_end)).

(** Each round that does not end the step visits a full chunk of events. *)
Definition build_fuel (t : RwTxn) : result DbError nat :=
  n ← entries t (d_event dbis); Ok (S (S (Z.to_nat n))).

Definition build_search_index (late : Z → bool) (t : RwTxn) (max_events : Z)
    : result DbError (RwTxn * option SearchBuildStep) :=
  match d_event_search dbis with
  | None => Ok (t, None)
  | Some dbi =>
      o ← get t dbi SEARCH_THROUGH_KEY;
      let through := default 0 (marker o) in
      sequence ← match d_state dbis with Some state => get t state HIGH_WATER | None => Ok None end;
      newest ← largest_integer_key t (d_event dbis);
      let high := Z.max (high_water sequence newest) (default 0 (t_event_sequence t)) in
      let max_events := Z.max max_events 1 in
      fuel ← build_fuel t;
      b ← loop (build_round late max_events dbi) out_of_fuel fuel
            (mkBuildLoop t Decompressor_new 0 through (high <=? through));
      let indexed_through := Z.max (if bl_walked b then high else bl_done b) through in
      t ← (if decide (indexed_through ≠ through) then set_indexed_through (bl_txn b) indexed_through
           else Ok (bl_txn b));
      Ok (t, Some (mkSearchBuildStep (bl_events b) (mkSearchIndexState indexed_through high)))
  end.

(** ** Readers *)

Definition search_indexed_through_ro (v : View) : result DbError (View * Z) :=
  dbi ← search_dbi;
  '(v, o) ← RoTxn_get v dbi SEARCH_THROUGH_KEY;
  Ok (v, default 0 (marker o)).

Definition search_index_state_ro (v : View) : result DbError (View * option SearchIndexState) :=
  match d_event_search dbis with
  | None => Ok (v, None)
  | Some _ =>
      '(v, sequence) ← match d_state dbis with Some state => RoTxn_get v state HIGH_WATER | None => Ok (v, None) end;
      '(v, through) ← search_indexed_through_ro v;
      newest ← RoTxn_largest_integer_key v (d_event dbis);
      Ok (v, Some (mkSearchIndexState through (high_water sequence newest)))
  end.

Definition search_posting_count (v : View) (term : bytes) : result DbError Z :=
  dbi ← search_dbi;
  c ← RoTxn_cursor v dbi;
  '(c, o) ← Cursor_get c (Some (term_key term)) None MDB_SET;
  match o with None => Ok 0 | Some _ => Cursor_count c end.

Definition search_posting_exists (v : View) (term : bytes) (lev_id : Z) : result DbError bool :=
  dbi ← search_dbi;
  c ← RoTxn_cursor v dbi;
  '(_, o) ← Cursor_get c (Some (term_key term)) (Some (to_ne_bytes lev_id)) MDB_GET_BOTH;
  Ok (is_some o).

Definition search_postings_cb {S} (key : bytes) (cb : S → Z → S * bool) (st : S * bool)
    (found_key value : bytes) : S * bool * bool :=
  let '(s, stopped) := st in
  if decide (found_key ≠ key ∨ length value ≠ 8%nat) then (st, false)
  else let '(s, keep_going) := cb s (from_ne_bytes value) in
       (s, stopped || negb keep_going, keep_going).

Definition search_postings {S} (v : View) (term : bytes) (start_lev_id : Z) (cb : S → Z → S * bool) (s : S)
    : result DbError (S * bool) :=
  dbi ← search_dbi;
  let key := term_key term in
  '(st, _) ← RoTxn_foreach_full v dbi key (to_ne_bytes start_lev_id) false
               (search_postings_cb key cb) (s, false);
  let '(s, stopped) := st in
  Ok (s, negb stopped).

End index.
