(* ===== verification/DbTagKind.v ===== *)
(** * Tag and kind postings: crates/wok-db/src/tag_kind.rs

    The index of single-letter tags by kind, its two markers, and the backfill
    that fills it in bounded steps: a pass over the tag index in key order when
    the marker is at 0, and the events above the marker in local-id order
    otherwise.  The clock of a step is a function that says whether the budget
    is spent at each check. *)

From S2P Require Import Prelude BTreeMap Json Packed Crates DbKeys DbIndex DbTxn DbState DbPayload DbSearch.

Local Open Scope Z_scope.

Definition PASS_TARGET_KEY : bytes := str "target".
Definition PASS_VISITED_KEY : bytes := str "visited".
Definition PASS_CURSOR_KEY : bytes := str "cursor".
Definition TAG_KIND_SCHEMA_VERSION : Z := 1.
Definition STEP_CHUNK : nat := 64.

Definition tag_kind_key (tag_name : Z) (tag_value : bytes) (kind created_at : Z) : bytes :=
  make_key_string_u64_u64 (tag_name :: tag_value) kind created_at.

(** Sorted and without repetition. *)
Definition tag_kind_keys (packed : PackedEventView) : list bytes :=
  vec_dedup (slice_sort bytes_cmp
    (foreach_tag (λ keys name value,
       (keys ++ [tag_kind_key name value (PackedEventView_kind packed) (PackedEventView_created_at packed)],
        true)) [] packed)).

Record TagKindBulkPass : Type := mkBulkPass { bp_target : Z; bp_visited : Z }.

Record TagKindIndexState : Type := mkTagKindIndexState {
  tk_schema : option Z;
  tk_indexed_through : Z;
  tk_high_water : Z;
  tk_bulk_pass : option TagKindBulkPass;
}.

Definition complete (s : TagKindIndexState) : bool :=
  bool_decide (tk_schema s = Some TAG_KIND_SCHEMA_VERSION) && (tk_high_water s <=? tk_indexed_through s).

Definition read_pass (target visited : option bytes) : option TagKindBulkPass :=
  target ← marker target; visited ← marker visited; Some (mkBulkPass target visited).

Definition read_cursor (raw : bytes) : option (bytes * Z) :=
  n ← (if (length raw <? 8)%nat then None else Some (length raw - 8)%nat);
  let key := take n raw in
  let lev_id := drop n raw in
  if (8 <? length key)%nat then Some (key, from_ne_bytes lev_id) else None.

Definition is_valid_pass_record (key value : bytes) : bool :=
  if decide (key = PASS_TARGET_KEY ∨ key = PASS_VISITED_KEY) then (length value =? 8)%nat
  else if decide (key = PASS_CURSOR_KEY) then bool_decide (is_Some (read_cursor value))
  else false.

Record StepWork : Type := mkStepWork { sw_entries : Z; sw_prepared : Z }.

Record TagKindBackfillStep : Type := mkBackfillStep {
  bs_entries : Z;
  bs_prepared : Z;
  bs_tag_entries : Z;
  bs_state : TagKindIndexState;
}.

(** [late n] is the clock's answer at the [n]th check. *)
Record StepLimits : Type := mkStepLimits { late : Z → bool; max_entries : Z }.

Definition reached (l : StepLimits) (check entries : Z) : bool := (max_entries l <=? entries) || late l check.

Section tag_kind.
Context `{R : RocksDb}.

Definition tag_kind_index_state_ro (v : View) : result DbError (View * option TagKindIndexState) :=
  match d_event_tag_kind dbis with
  | None => Ok (v, None)
  | Some dbi =>
      '(v, sequence) ← match d_state dbis with Some state => RoTxn_get v state HIGH_WATER | None => Ok (v, None) end;
      newest ← RoTxn_largest_integer_key v (d_event dbis);
      '(v, pass) ← match d_event_tag_kind_build dbis with
        | Some build =>
            '(v, target) ← RoTxn_get v build PASS_TARGET_KEY;
            '(v, visited) ← RoTxn_get v build PASS_VISITED_KEY;
            Ok (v, read_pass target visited)
        | None => Ok (v, None)
        end;
      '(v, schema) ← RoTxn_get v dbi SCHEMA_KEY;
      '(v, through) ← RoTxn_get v dbi INDEXED_THROUGH_KEY;
      Ok (v, Some (mkTagKindIndexState (marker schema) (default 0 (marker through))
                     (high_water sequence newest) pass))
  end.

Definition tag_kind_index_complete_ro (v : View) : result DbError (View * bool) :=
  '(v, s) ← tag_kind_index_state_ro v;
  Ok (v, match s with Some s => complete s | None => false end).

(** A key with duplicates keeps every value put under it. *)
Definition set_marker (t : RwTxn) (dbi : Z) (key : bytes) (value : Z) : result DbError RwTxn :=
  '(t, _) ← del t dbi key None;
  '(t, _) ← put t dbi key (to_ne_bytes value) 0;
  Ok t.

Definition initialize_tag_kind_index_state (t : RwTxn) (indexed_through : Z) : result DbError RwTxn :=
  match d_event_tag_kind dbis with
  | None => Ok t
  | Some dbi =>
      t ← match d_event_tag_kind_build dbis with Some build => clear t build | None => Ok t end;
      t ← set_marker t dbi SCHEMA_KEY TAG_KIND_SCHEMA_VERSION;
      set_marker t dbi INDEXED_THROUGH_KEY indexed_through
  end.

Definition ensure_tag_kind_index (t : RwTxn) : result DbError RwTxn :=
  match d_event_tag_kind dbis with
  | None => Ok t
  | Some dbi =>
      o ← get t dbi SCHEMA_KEY;
      if decide (marker o = Some TAG_KIND_SCHEMA_VERSION) then Ok t
      else t ← clear t dbi; initialize_tag_kind_index_state t 0
  end.

Definition reset_tag_kind_index (t : RwTxn) : result DbError RwTxn :=
  match d_event_tag_kind dbis with
  | None => Ok t
  | Some dbi => t ← clear t dbi; initialize_tag_kind_index_state t 0
  end.

Definition put_tag_kind_entries (t : RwTxn) (lev_id : Z) (keys : list bytes) : result DbError RwTxn :=
  match d_event_tag_kind dbis with
  | None => Ok t
  | Some dbi => try_fold (λ t key, '(t, _) ← put t dbi key (to_ne_bytes lev_id) 0; Ok t) t keys
  end.

Definition del_tag_kind_entries (t : RwTxn) (lev_id : Z) (keys : list bytes) : result DbError RwTxn :=
  match d_event_tag_kind dbis with
  | None => Ok t
  | Some dbi => try_fold (λ t key, '(t, _) ← del t dbi key (Some (to_ne_bytes lev_id)); Ok t) t keys
  end.

(** The marker moves past the events just indexed if it covered all before. *)
Definition note_tag_kind_indexed (t : RwTxn) (first last : Z) : result DbError RwTxn :=
  match d_event_tag_kind dbis with
  | None => Ok t
  | Some dbi =>
      schema ← get t dbi SCHEMA_KEY;
      if decide (marker schema ≠ Some TAG_KIND_SCHEMA_VERSION) then Ok t
      else
        o ← get t dbi INDEXED_THROUGH_KEY;
        let through := default 0 (marker o) in
        if (first <=? sat_add U64_MAX through 1) && (through <? last) then
          set_marker t dbi INDEXED_THROUGH_KEY last
        else Ok t
  end.

(** [other_process] is [Env::open_in_another_process]. *)
Definition defer_tag_kind_postings (other_process : result DbError bool) (t : RwTxn)
    : result DbError (RwTxn * bool) :=
  match d_event_tag_kind dbis, d_event_tag_kind_build dbis with
  | Some dbi, Some build =>
      schema ← get t dbi SCHEMA_KEY;
      unbuilt ← (if decide (marker schema = Some TAG_KIND_SCHEMA_VERSION) then
        through ← get t dbi INDEXED_THROUGH_KEY;
        if decide (default 0 (marker through) = 0) then
          target ← get t build PASS_TARGET_KEY;
          visited ← get t build PASS_VISITED_KEY;
          Ok (is_none (read_pass target visited))
        else Ok false
      else Ok false);
      other ← (if unbuilt : bool then other_process else Ok false);
      let defer := unbuilt && negb other in
      Ok (set_defer_tag_kind defer t, defer)
  | _, _ => Ok (t, false)
  end.

Definition skip_tag_kind_postings (t : RwTxn) : RwTxn := set_defer_tag_kind true t.

(** ** The key-ordered pass *)

Definition write_pass (t : RwTxn) (build : Z) (pass : TagKindBulkPass) : result DbError RwTxn :=
  '(t, _) ← put t build PASS_TARGET_KEY (to_ne_bytes (bp_target pass)) 0;
  '(t, _) ← put t build PASS_VISITED_KEY (to_ne_bytes (bp_visited pass)) 0;
  Ok t.

Abbreviation TagEntry := (bytes * Z)%type.

Definition tag_entries_cb (limit : nat) (st : list TagEntry * option DbError) (key value : bytes)
    : list TagEntry * option DbError * bool :=
  let '(chunk, error) := st in
  let '(chunk, error) :=
    match u64_from_ne_checked value with
    | Ok lev_id => (chunk ++ [(key, lev_id)], error)
    | Err err => (chunk, Some err)
    end in
  (chunk, error, is_none error && (length chunk <? limit)%nat).

Definition tag_entries_after (t : RwTxn) (after : option TagEntry) (limit : nat)
    : result DbError (list TagEntry * bool) :=
  let '(start_key, start_dup) :=
    match after with
    | Some (key, lev_id) => (key, to_ne_bytes (sat_add U64_MAX lev_id 1))
    | None => ([], [])
    end in
  '(st, at_end) ← foreach_full t (d_event_tag dbis) start_key start_dup false (tag_entries_cb limit) ([], None);
  let '(chunk, error) := st in
  match error with
  | Some error => Err error
  | None => Ok (chunk, at_end)
  end.

Record PassLoop : Type := mkPassLoop {
  pl_txn : RwTxn;
  pl_position : option TagEntry;
  pl_work : StepWork;
  pl_visited : Z;
}.

(** One entry of the tag index; an entry whose event is gone gets no posting. *)
Definition pass_entry (t : RwTxn) (dbi : Z) (entry : TagEntry) : result DbError (RwTxn * Z) :=
  let '(key, lev_id) := entry in
  '(tag, created_at) ← parse_key_string_u64 key;
  o ← get_u64 t (d_event dbis) lev_id;
  kind ← match o with
    | Some raw => v ← map_err DbEvent (PackedEventView_new raw); Ok (Some (PackedEventView_kind v))
    | None => Ok None
    end;
  match kind, tag with
  | Some kind, name :: value =>
      '(t, _) ← put t dbi (tag_kind_key name value kind created_at) (to_ne_bytes lev_id) 0;
      Ok (t, 1)
  | _, _ => Ok (t, 0)
  end.

Fixpoint pass_chunk (limits : StepLimits) (dbi : Z) (b : PassLoop) (chunk : list TagEntry)
    : result DbError (PassLoop * bool) :=
  match chunk with
  | [] => Ok (b, false)
  | entry :: chunk =>
      '(t, n) ← pass_entry (pl_txn b) dbi entry;
      let visited := pl_visited b + 1 in
      let work := mkStepWork (sw_entries (pl_work b) + n) (sw_prepared (pl_work b)) in
      let b := mkPassLoop t (Some entry) work visited in
      if reached limits visited visited then Ok (b, true) else pass_chunk limits dbi b chunk
  end.

(** A round of the loop; the flag says whether the walk reached the end. *)
Definition pass_round (limits : StepLimits) (dbi : Z) (b : PassLoop)
    : result DbError (PassLoop + PassLoop * bool) :=
  '(chunk, at_end) ← tag_entries_after (pl_txn b) (pl_position b) STEP_CHUNK;
  let work := mkStepWork (sw_entries (pl_work b)) (sw_prepared (pl_work b) + len chunk) in
  '(b, stop) ← pass_chunk limits dbi (mkPassLoop (pl_txn b) (pl_position b) work (pl_visited b)) chunk;
  if stop : bool then Ok (inr (b, false))
  else if at_end : bool then Ok (inr (b, true))
  else Ok (inl b).

Definition key_ordered_step (t : RwTxn) (dbi build : Z) (pass : TagKindBulkPass) (through : Z)
    (limits : StepLimits) : result DbError (RwTxn * (StepWork * Z * option TagKindBulkPass)) :=
  o ← get t build PASS_CURSOR_KEY;
  let position := raw ← o; read_cursor raw in
  n ← entries t (d_event_tag dbis);
  '(b, walked_to_end) ← loop (pass_round limits dbi) out_of_fuel (S (Z.to_nat n))
     (mkPassLoop t position (mkStepWork 0 0) 0);
  let pass := mkBulkPass (bp_target pass) (bp_visited pass + pl_visited b) in
  if walked_to_end : bool then
    let indexed_through := Z.max (bp_target pass) through in
    t ← clear (pl_txn b) build;
    t ← set_marker t dbi INDEXED_THROUGH_KEY indexed_through;
    Ok (t, (pl_work b, indexed_through, None))
  else
    t ← match pl_position b with
        | Some (key, lev_id) =>
            '(t, _) ← put (pl_txn b) build PASS_CURSOR_KEY (key ++ to_ne_bytes lev_id) 0; Ok t
        | None => Ok (pl_txn b)
        end;
    t ← write_pass t build pass;
    Ok (t, (pl_work b, through, Some pass)).

(** ** Steps in local-id order *)

Definition local_chunk_cb (st : list (Z * list bytes) * option DbError) (key value : bytes)
    : list (Z * list bytes) * option DbError * bool :=
  let '(chunk, error) := st in
  let event := lev_id ← u64_from_ne_checked key;
               v ← map_err DbEvent (PackedEventView_new value);
               Ok (lev_id, tag_kind_keys v) in
  let '(chunk, error) :=
    match event with
    | Ok event => (chunk ++ [event], error)
    | Err err => (chunk, Some err)
    end in
  (chunk, error, is_none error && (length chunk <? STEP_CHUNK)%nat).

Record LocalLoop : Type := mkLocalLoop {
  ll_txn : RwTxn;
  ll_work : StepWork;
  ll_done : Z;
  ll_checks : Z;
  ll_walked : bool;
}.

Fixpoint local_chunk (limits : StepLimits) (b : LocalLoop) (chunk : list (Z * list bytes))
    : result DbError (LocalLoop * bool) :=
  match chunk with
  | [] => Ok (b, false)
  | (lev_id, keys) :: chunk =>
      t ← put_tag_kind_entries (ll_txn b) lev_id keys;
      let work := mkStepWork (sw_entries (ll_work b) + len keys) (sw_prepared (ll_work b)) in
      let b := mkLocalLoop t work lev_id (ll_checks b + 1) (ll_walked b) in
      if reached limits (ll_checks b) (sw_entries work) then Ok (b, true)
      else local_chunk limits b chunk
  end.

Definition local_round (limits : StepLimits) (b : LocalLoop) : result DbError (LocalLoop + LocalLoop) :=
  if ll_walked b then Ok (inr b)
  else
    '(st, at_end) ← foreach_full (ll_txn b) (d_event dbis)
      (to_ne_bytes (sat_add U64_MAX (ll_done b) 1)) [] false local_chunk_cb ([], None);
    let '(chunk, error) := st in
    match error with
    | Some error => Err error
    | None =>
        let work := mkStepWork (sw_entries (ll_work b)) (sw_prepared (ll_work b) + len chunk) in
        '(b, stop) ← local_chunk limits (mkLocalLoop (ll_txn b) work (ll_done b) (ll_checks b) (ll_walked b)) chunk;
        if stop : bool then Ok (inr b)
        else Ok (inl (mkLocalLoop (ll_txn b) (ll_work b) (ll_done b) (ll_checks b) at_end))
    end.

Definition local_id_step (t : RwTxn) (dbi through high : Z) (limits : StepLimits)
    : result DbError (RwTxn * (StepWork * Z)) :=
  n ← entries t (d_event dbis);
  b ← loop (local_round limits) out_of_fuel (S (S (Z.to_nat n)))
        (mkLocalLoop t (mkStepWork 0 0) through 0 (high <=? through));
  let indexed_through := Z.max (if ll_walked b then high else ll_done b) through in
  t ← (if decide (indexed_through ≠ through) then set_marker (ll_txn b) dbi INDEXED_THROUGH_KEY indexed_through
       else Ok (ll_txn b));
  Ok (t, (ll_work b, indexed_through)).

(** ** A backfill step *)

(** The pass to continue, begun when the marker is at 0 with events stored. *)
Definition current_pass (t : RwTxn) (through high : Z) : result DbError (RwTxn * option TagKindBulkPass) :=
  match d_event_tag_kind_build dbis with
  | None => Ok (t, None)
  | Some build =>
      target ← get t build PASS_TARGET_KEY;
      visited ← get t build PASS_VISITED_KEY;
      match read_pass target visited with
      | Some pass => Ok (t, Some pass)
      | None =>
          if decide (through = 0) then
            n ← entries t (d_event dbis);
            if decide (n ≠ 0) then
              t ← clear t build;
              let start := mkBulkPass high 0 in
              t ← write_pass t build start;
              Ok (t, Some start)
            else Ok (t, None)
          else Ok (t, None)
      end
  end.

Definition backfill_tag_kind_index (late : Z → bool) (t : RwTxn) (max_entries : Z)
    : result DbError (RwTxn * option TagKindBackfillStep) :=
  match d_event_tag_kind dbis with
  | None => Ok (t, None)
  | Some dbi =>
      schema ← get t dbi SCHEMA_KEY;
      if decide (marker schema ≠ Some TAG_KIND_SCHEMA_VERSION) then Ok (t, None)
      else
        let limits := mkStepLimits late (Z.max max_entries 1) in
        o ← get t dbi INDEXED_THROUGH_KEY;
        let through := default 0 (marker o) in
        sequence ← match d_state dbis with Some state => get t state HIGH_WATER | None => Ok None end;
        newest ← largest_integer_key t (d_event dbis);
        let high := Z.max (high_water sequence newest) (default 0 (t_event_sequence t)) in
        tag_entries ← entries t (d_event_tag dbis);
        '(t, pass) ← current_pass t through high;
        '(t, (work, indexed_through, pass)) ←
          match pass, d_event_tag_kind_build dbis with
          | Some pass, Some build => key_ordered_step t dbi build pass through limits
          | _, _ => '(t, (work, indexed_through)) ← local_id_step t dbi through high limits;
                    Ok (t, (work, indexed_through, None))
          end;
        Ok (t, Some (mkBackfillStep (sw_entries work) (sw_prepared work) tag_entries
                       (mkTagKindIndexState (Some TAG_KIND_SCHEMA_VERSION) indexed_through high pass)))
  end.

End tag_kind.
