(* ===== verification/DbPolicy.v ===== *)
(** * Vanish requests and deletion protection: crates/wok-db/src/vanish.rs and
    deletion_protection.rs

    The policy that says which vanish requests concern this relay, the markers
    of vanished keys, the rule that refuses their events, and the check, cached
    by what was checked, whether a stored event is protected against deletion.
    The sweep of vanish.rs, which removes the stored events of vanished keys, is
    not modelled. *)

From S2P Require Import Prelude Utf8 BTreeMap Json Crates Kinds Packed EventParse Validate DbKeys DbIndex DbTxn DbState DbPayload Search.

Local Open Scope Z_scope.

(** ** Relay URLs *)

Definition VANISH_KIND : Z := 62.
Definition ALL_RELAYS : bytes := str "ALL_RELAYS".

(** [str::split_once] with a string as the pattern *)
Fixpoint split_once_str (p s : bytes) : option (bytes * bytes) :=
  match strip_prefix p s with
  | Some rest => Some ([], rest)
  | None => match s with
            | [] => None
            | b :: s => '(l, r) ← split_once_str p s; Some (b :: l, r)
            end
  end.

(** The longest prefix without one of the given bytes, and the rest. *)
Fixpoint break_at (stop : Z → bool) (s : bytes) : bytes * bytes :=
  match s with
  | [] => ([], [])
  | b :: s' => if stop b then ([], s) else let '(l, r) := break_at stop s' in (b :: l, r)
  end.

Fixpoint drop_while (f : Z → bool) (l : list Z) : list Z :=
  match l with
  | [] => []
  | x :: l' => if f x then drop_while f l' else l
  end.

Definition trim_end_matches (b : Z) (s : bytes) : bytes := rev (drop_while (λ x, x =? b) (rev s)).

Definition strip_suffix (p s : bytes) : option bytes := @rev Z <$> strip_prefix (rev p) (rev s).

Record VanishPolicy : Type := mkVanishPolicy { vp_enabled : bool; vp_service_url : bytes }.

Definition VanishPolicy_disabled : VanishPolicy := mkVanishPolicy false [].

Section urls.
Context {UC : UnicodeChars}.

Definition trim (s : bytes) : bytes :=
  from_chars (rev (drop_while is_whitespace (rev (drop_while is_whitespace (chars s))))).

Definition normalize_relay_url (url : bytes) : bytes :=
  let url := trim url in
  if decide (url = []) then []
  else
    let '(scheme, rest) := default (str "wss", url) (split_once_str (str "://") url) in
    let rest := fst (break_at (λ b, (b =? ch "?") || (b =? ch "#")) rest) in
    let '(authority, path) := break_at (λ b, b =? ch "/") rest in
    let scheme := to_ascii_lowercase scheme in
    let scheme := if decide (scheme = str "https") then str "wss"
                  else if decide (scheme = str "http") then str "ws" else scheme in
    let default_port := if decide (scheme = str "wss") then Some (str ":443")
                        else if decide (scheme = str "ws") then Some (str ":80") else None in
    let authority := default authority (port ← default_port; strip_suffix port authority) in
    scheme ++ str "://" ++ to_ascii_lowercase authority ++ trim_end_matches (ch "/") path.

Definition targets_this_relay (p : VanishPolicy) (packed : PackedEventView) : bool :=
  if negb (vp_enabled p) || negb (PackedEventView_kind packed =? VANISH_KIND) then false
  else
    let expected := normalize_relay_url (vp_service_url p) in
    foreach_tag (λ matched name value,
      if negb (name =? ch "r") || bool_decide (value = []) then (matched, true)
      else if bool_decide (value = ALL_RELAYS)
              || (negb (bool_decide (expected = [])) && utf8_valid value
                  && bool_decide (normalize_relay_url value = expected)) then (true, false)
      else (matched, true)) false packed.

Definition targets_this_relay_value (p : VanishPolicy) (event : Value) : bool :=
  if negb (vp_enabled p) || negb (bool_decide ((v ← value_get event "kind"; as_u64 v) = Some VANISH_KIND))
  then false
  else
    let expected := normalize_relay_url (vp_service_url p) in
    existsb (λ tag,
      bool_decide ((v ← head tag; as_str v) = Some (str "relay")) &&
      match (v ← tag !! 1%nat; as_str v) with
      | Some value => bool_decide (value = ALL_RELAYS)
          || (negb (bool_decide (expected = [])) && bool_decide (normalize_relay_url value = expected))
      | None => false
      end) (payload_tags event).

Definition targets_this_relay_json (p : VanishPolicy) (json : bytes) : bool :=
  if negb (vp_enabled p) then false
  else match parse_strict json with
  | Ok event => targets_this_relay_value p event
  | Err _ => false
  end.
End urls.

(** ** Markers *)

Definition read_timestamp (raw : bytes) : option Z :=
  if decide (length raw = 8%nat) then Some (from_ne_bytes raw) else None.

(** [Option<u64> < Some(n)]: no timestamp is below any. *)
Definition option_lt (o : option Z) (n : Z) : bool := match o with Some m => m <? n | None => true end.

Definition gift_wrap_vanished (created_at timestamp : Z) : bool := created_at <=? timestamp.

(** The scan of the [p] tags: [vanished] and [error]. *)
Definition vanished_tag_cb (timestamp : bytes → result DbError (option Z)) (created_at : Z)
    (st : bool * option DbError) (name : Z) (value : bytes) : bool * option DbError * bool :=
  let '(vanished, error) := st in
  if name =? ch "p" then
    match timestamp value with
    | Ok (Some timestamp) =>
        if gift_wrap_vanished created_at timestamp then (true, error, false) else (st, true)
    | Ok None => (st, true)
    | Err err => (vanished, Some err, false)
    end
  else (st, true).

(** The state is what [protected] captures. *)
Definition event_vanished {S} (packed : PackedEventView) (timestamp : bytes → result DbError (option Z))
    (protected : S → Z → result DbError (S * bool)) (s : S) : result DbError (S * bool) :=
  '(s, authored) ← (if negb (PackedEventView_kind packed =? VANISH_KIND) then
      o ← timestamp (PackedEventView_pubkey packed);
      match o with
      | Some cutoff =>
          if PackedEventView_created_at packed <=? cutoff then
            '(s, p) ← protected s cutoff; Ok (s, negb p)
          else Ok (s, false)
      | None => Ok (s, false)
      end
    else Ok (s, false));
  if authored : bool then Ok (s, true)
  else if bool_decide (PackedEventView_kind packed ∈ GIFT_WRAP_KINDS) then
    let '(vanished, error) :=
      foreach_tag (vanished_tag_cb timestamp (PackedEventView_created_at packed)) (false, None) packed in
    match error with
    | Some error => Err error
    | None => Ok (s, vanished)
    end
  else Ok (s, false).

(** ** Deletion protection *)

Definition MAX_PAYLOAD_JSON : Z := 16 * 1024 * 1024.
Definition CACHE_CAPACITY : nat := Z.to_nat 4096.

Record ProtectionCache : Type := mkProtectionCache {
  pc_values : gmap (Z * bytes) bool;
  pc_order : list (Z * bytes);
}.

Definition ProtectionCache_default : ProtectionCache := mkProtectionCache ∅ [].

(** What [cached_protection] inserts, unless the key is there. *)
Definition cache_insert (c : ProtectionCache) (key : Z * bytes) (value : bool) : ProtectionCache :=
  match pc_values c !! key with
  | Some _ => c
  | None =>
      let '(values, order) :=
        if decide (length (pc_order c) = CACHE_CAPACITY) then
          match pc_order c with
          | old :: order => (delete old (pc_values c), order)
          | [] => (pc_values c, [])
          end
        else (pc_values c, pc_order c) in
      mkProtectionCache (<[key := value]> values) (order ++ [key])
  end.

Definition unlimited (_ : unit) : EventLimits :=
  mkEventLimits (Z.to_nat U64_MAX) (Z.to_nat U64_MAX) (Z.to_nat U64_MAX).

Section protection.
Context {SF : SerdeFloat} {HC : HexCrate} {SH : Sha256} {SK : Secp256k1}.

Definition is_deletion_protected_json (packed : PackedEventView) (json : bytes) : result DbError bool :=
  event ← map_err DbEvent (parse_strict json);
  if negb (match deletion_protection event with Ok b => b | Err _ => false end) then Ok false
  else match nostr_json_to_packed_event event (unlimited tt) with
  | Err _ => Ok false
  | Ok expected =>
      Ok (bool_decide (PackedEventView_id expected = PackedEventView_id packed) &&
          bool_decide (PackedEventView_pubkey expected = PackedEventView_pubkey packed) &&
          (PackedEventView_kind expected =? PackedEventView_kind packed) &&
          (PackedEventView_created_at expected =? PackedEventView_created_at packed) &&
          (PackedEventView_expiration expected =? PackedEventView_expiration packed) &&
          is_ok (verify_nostr_event packed event))
  end.

(** The fingerprint of both records of an event. *)
Definition protection_key (lev : Z) (packed raw : bytes) : Z * bytes :=
  (lev, sha256 (to_le_bytes 8 (len packed) ++ packed ++ raw)).

Definition cached_protection (c : ProtectionCache) (lev : Z) (packed : PackedEventView) (raw : bytes)
    (verify : result DbError bool) : result DbError (ProtectionCache * bool) :=
  let key := protection_key lev packed raw in
  match pc_values c !! key with
  | Some value => Ok (c, value)
  | None => value ← verify; Ok (cache_insert c key value, value)
  end.

Context `{R : RocksDb} {ZC : ZstdCrate}.

Definition is_deletion_protected_rw (c : ProtectionCache) (t : RwTxn) (lev : Z) (packed : PackedEventView)
    : result DbError (ProtectionCache * bool) :=
  o ← get_u64 t (d_event_payload dbis) lev;
  raw ← ok_or o (DbError_msg "missing payload while checking deletion protection");
  cached_protection c lev packed raw
    ('(_, json) ← decode_rw Decompressor_new t raw MAX_PAYLOAD_JSON;
     is_deletion_protected_json packed json).

(** ** Vanished events *)

Definition vanish_timestamp_rw (t : RwTxn) (pubkey : bytes) : result DbError (option Z) :=
  match d_vanish_pubkey dbis with
  | None => Ok None
  | Some dbi => o ← get t dbi pubkey; Ok (raw ← o; read_timestamp raw)
  end.

Definition vanish_timestamp_ro (v : View) (pubkey : bytes) : result DbError (option Z) :=
  match d_vanish_pubkey dbis with
  | None => Ok None
  | Some dbi => '(_, o) ← RoTxn_get v dbi pubkey; Ok (raw ← o; read_timestamp raw)
  end.

Definition mark_vanished (t : RwTxn) (pubkey : bytes) (timestamp : Z) : result DbError RwTxn :=
  dbi ← ok_or (d_vanish_pubkey dbis) (DbError_msg "NIP-62 marker database is unavailable");
  o ← get t dbi pubkey;
  if option_lt (raw ← o; read_timestamp raw) timestamp then
    '(t, _) ← put t dbi pubkey (to_ne_bytes timestamp) 0;
    t ← invalidate_visibility t;
    count_vanish_marker_change t
  else Ok t.

(** The marker is read from the payload: the event is not stored yet. *)
Definition is_event_vanished_rw_with_json (t : RwTxn) (packed : PackedEventView) (json : bytes)
    : result DbError bool :=
  '(_, b) ← event_vanished packed (vanish_timestamp_rw t)
    (λ u _, b ← is_deletion_protected_json packed json; Ok (u, b)) tt;
  Ok b.

Definition is_event_vanished_ro_with_json (v : View) (packed : PackedEventView) (json : bytes)
    : result DbError bool :=
  '(_, b) ← event_vanished packed (vanish_timestamp_ro v)
    (λ u _, b ← is_deletion_protected_json packed json; Ok (u, b)) tt;
  Ok b.

End protection.
