(* ===== verification/DbWrite.v ===== *)
(** * The write path: crates/wok-db/src/write.rs

    Inserting an event with its index entries, deleting one, and the batch that
    decides what becomes of each incoming event: a duplicate, deleted by an
    earlier request, vanished, replaced, over its author's quota, or written,
    with the events it replaces or deletes.  The negentropy trees behind the
    trait [NegentropySink] are a parameter. *)

From S2P Require Import Prelude Utf8 BTreeMap Json Crates Kinds Packed EventParse Validate DbKeys DbIndex DbTxn DbState DbPayload Search DbSearch DbTagKind DbPolicy.

Local Open Scope Z_scope.

(** [slice::sort_by], a stable sort *)
Fixpoint sort_insert {A} (cmp : A → A → comparison) (x : A) (l : list A) : list A :=
  match l with
  | [] => [x]
  | y :: l' => match cmp x y with Gt => y :: sort_insert cmp x l' | _ => x :: l end
  end.

Definition slice_sort_by {A} (cmp : A → A → comparison) (l : list A) : list A :=
  foldr (sort_insert cmp) [] l.

(** [Vec::dedup_by]: of each run of alike elements the first is kept. *)
Fixpoint dedup_after {A} (same : A → A → bool) (x : A) (l : list A) : list A :=
  match l with
  | [] => []
  | y :: l => if same y x then dedup_after same x l else y :: dedup_after same y l
  end.

Definition vec_dedup_by {A} (same : A → A → bool) (l : list A) : list A :=
  match l with [] => [] | x :: l => x :: dedup_after same x l end.

Inductive EventWriteStatus : Type :=
| Pending | Written | Duplicate | Replaced | Deleted | QuotaExceeded.

#[export] Instance EventWriteStatus_eq_dec : EqDecision EventWriteStatus.
Proof. solve_decision. Defined.

Record EventToWrite (C : Type) : Type := mkEventToWrite {
  ev_context : C;
  ev_packed : bytes;
  ev_json : bytes;
  ev_status : EventWriteStatus;
  ev_lev_id : Z;
}.
Arguments mkEventToWrite {C}.
Arguments ev_context {C}.
Arguments ev_packed {C}.
Arguments ev_json {C}.
Arguments ev_status {C}.
Arguments ev_lev_id {C}.

Definition EventToWrite_new (packed json : bytes) : EventToWrite unit :=
  mkEventToWrite tt packed json Pending 0.

Definition with_context {C D} (e : EventToWrite C) (context : D) : EventToWrite D :=
  mkEventToWrite context (ev_packed e) (ev_json e) (ev_status e) (ev_lev_id e).

Definition set_outcome {C} (e : EventToWrite C) (status : EventWriteStatus) (lev_id : Z) : EventToWrite C :=
  mkEventToWrite (ev_context e) (ev_packed e) (ev_json e) status lev_id.

(** ** Index entries *)

Record EventIndices : Type := mkEventIndices {
  ix_created_at : option Z;
  ix_id : option bytes;
  ix_pubkey : option bytes;
  ix_kind : option bytes;
  ix_pubkey_kind : option bytes;
  ix_tag : list bytes;
  ix_tag_kind : list bytes;
  ix_deletion : list bytes;
  ix_expiration : list Z;
  ix_replace : list bytes;
  ix_replace_deletion : list bytes;
  ix_canonical_replace_deletion : list bytes;
}.

Record EventIndexEntry : Type := mkEventIndexEntry {
  ie_name : string;
  ie_dbi : Z;
  ie_key : bytes;
  ie_value : bytes;
  ie_legacy_optional : bool;
}.

Definition replace_key (packed : PackedEventView) : option bytes :=
  d ← first_d_tag packed;
  Some (make_key_string_u64 (PackedEventView_pubkey packed ++ d) (PackedEventView_kind packed)).

Section indices.
Context {HC : HexCrate} {SH : Sha256}.

(** The address of an event: the text whose hash is its tombstone's key. *)
Definition address_text (kind : Z) (pubkey d : bytes) : bytes :=
  u64_to_string kind ++ [ch ":"] ++ to_hex pubkey ++ [ch ":"] ++ d.

(** The tombstones an [a] tag of a deletion request leaves, the second those
    that earlier releases did not derive. *)
Definition address_tombstones (packed : PackedEventView) (tag_val : bytes) : list bytes * list bytes :=
  let created_at := PackedEventView_created_at packed in
  match hashed_tag_value_digest tag_val with
  | Some digest => ([make_key_string_u64 digest created_at], [])
  | None =>
      if utf8_valid tag_val then
        match parse_a_tag tag_val with
        | Ok (kind, pubkey, d) =>
            if decide (pubkey = PackedEventView_pubkey packed) then
              let tombstone a_tag := make_key_string_u64 (sha256 a_tag) created_at in
              let canonical := address_text kind pubkey d in
              if is_param_replaceable_kind kind then
                ([tombstone tag_val], if decide (canonical ≠ tag_val) then [tombstone canonical] else [])
              else if is_replaceable_kind kind && bool_decide (d = []) then ([], [tombstone canonical])
              else ([], [])
            else ([], [])
        | Err _ => ([], [])
        end
      else ([], [])
  end.

(** One tag of the event. *)
Definition index_tag (packed : PackedEventView) (idx : EventIndices) (tag_name : Z) (tag_val : bytes)
    : EventIndices :=
  let tag := ix_tag idx ++ [make_key_string_u64 (tag_name :: tag_val) (PackedEventView_created_at packed)] in
  let '(deletion, (rd, crd)) :=
    if (tag_name =? ch "e") && (PackedEventView_kind packed =? 5) then
      ([tag_val ++ PackedEventView_pubkey packed], ([], []))
    else if (tag_name =? ch "a") && (PackedEventView_kind packed =? 5) then
      ([], address_tombstones packed tag_val)
    else ([], ([], [])) in
  mkEventIndices (ix_created_at idx) (ix_id idx) (ix_pubkey idx) (ix_kind idx) (ix_pubkey_kind idx)
    tag (ix_tag_kind idx) (ix_deletion idx ++ deletion) (ix_expiration idx) (ix_replace idx)
    (ix_replace_deletion idx ++ rd) (ix_canonical_replace_deletion idx ++ crd).

Definition index_event (packed : PackedEventView) : EventIndices :=
  let time := PackedEventView_created_at packed in
  let idx := {|
    ix_created_at := Some time;
    ix_id := Some (make_key_string_u64 (PackedEventView_id packed) time);
    ix_pubkey := Some (make_key_string_u64 (PackedEventView_pubkey packed) time);
    ix_kind := Some (make_key_u64_u64 (PackedEventView_kind packed) time);
    ix_pubkey_kind := Some (make_key_string_u64_u64 (PackedEventView_pubkey packed)
                              (PackedEventView_kind packed) time);
    ix_tag := [];
    ix_tag_kind := tag_kind_keys packed;
    ix_deletion := [];
    ix_expiration := if decide (PackedEventView_expiration packed ≠ 0)
                     then [PackedEventView_expiration packed] else [];
    ix_replace := option_list (replace_key packed);
    ix_replace_deletion := [];
    ix_canonical_replace_deletion := [];
  |} in
  foreach_tag (λ idx name val, (index_tag packed idx name val, true)) idx packed.

Definition entry_cmp (a b : EventIndexEntry) : comparison :=
  then_with (ie_dbi a ?= ie_dbi b)
    (then_with (bytes_cmp (ie_key a) (ie_key b))
       (then_with (bytes_cmp (ie_value a) (ie_value b))
          (match ie_legacy_optional a, ie_legacy_optional b with
           | false, true => Lt | true, false => Gt | _, _ => Eq end))).

Definition event_index_entries (lev_id : Z) (packed : PackedEventView) : list EventIndexEntry :=
  let idx := index_event packed in
  let lev := to_ne_bytes lev_id in
  let push name dbi key := mkEventIndexEntry name dbi key lev false in
  let entries :=
    (push "event_created_at" (d_event_created_at dbis) <$> (to_ne_bytes <$> option_list (ix_created_at idx))) ++
    (push "event_deletion" (d_event_deletion dbis) <$> ix_deletion idx) ++
    (push "event_expiration" (d_event_expiration dbis) <$> (to_ne_bytes <$> ix_expiration idx)) ++
    (push "event_id" (d_event_id dbis) <$> option_list (ix_id idx)) ++
    (push "event_kind" (d_event_kind dbis) <$> option_list (ix_kind idx)) ++
    (push "event_pubkey" (d_event_pubkey dbis) <$> option_list (ix_pubkey idx)) ++
    (push "event_pubkey_kind" (d_event_pubkey_kind dbis) <$> option_list (ix_pubkey_kind idx)) ++
    (push "event_replace" (d_event_replace dbis) <$> ix_replace idx) ++
    (push "event_replace_deletion" (d_event_replace_deletion dbis) <$> ix_replace_deletion idx) ++
    (push "event_tag" (d_event_tag dbis) <$> ix_tag idx) ++
    ((λ key, mkEventIndexEntry "event_replace_deletion" (d_event_replace_deletion dbis) key lev true)
       <$> ix_canonical_replace_deletion idx) in
  vec_dedup_by (λ a b, (ie_dbi a =? ie_dbi b) && bool_decide (ie_key a = ie_key b)
                       && bool_decide (ie_value a = ie_value b))
    (slice_sort_by entry_cmp entries).

(** ** Original tag values *)

Definition EventError_message (e : EventError) : DbError :=
  DbMessage (match e with Message m | Restricted m | Limit _ m => m end).

(** The long values of the [name] tags, by their hash. *)
Definition hashed_tag_originals (json : bytes) (name : string) : result DbError (gmap bytes bytes) :=
  event ← map_err EventError_message (parse_strict json);
  Ok (foldl (λ originals tag,
    if decide ((v ← head tag; as_str v) ≠ Some (str name)) then originals
    else
      let value := default [] (v ← tag !! 1%nat; as_str v) in
      if (MAX_INDEXED_TAG_VAL_SIZE <? length value)%nat then <[sha256 value := value]> originals
      else originals) ∅ (payload_tags event)).

Definition original_tag_value (json : bytes) (name : string) (packed_value : bytes) : result DbError bytes :=
  match hashed_tag_value_digest packed_value with
  | None => Ok packed_value
  | Some digest =>
      originals ← hashed_tag_originals json name;
      ok_or (originals !! digest) (DbMessage (Text "event JSON lacks its hashed {name} tag" [TBytes (str name)]))
  end.

End indices.

(** ** The negentropy trees *)

Class NegentropySink `{R : RocksDb} : Type := {
  Sink : Type;
  sink_update : Sink → RwTxn → PackedEventView → bool → result DbError (Sink * RwTxn);
}.

#[export] Instance NoopNegentropy `{R : RocksDb} : NegentropySink := {|
  Sink := unit;
  sink_update s t _ _ := Ok (s, t);
|}.

Section lookup.
Context `{R : RocksDb}.

(** ** Lookups *)

Definition view_of (raw : bytes) : result DbError PackedEventView := map_err DbEvent (PackedEventView_new raw).

Definition lookup_id_cb (id : bytes) (st : option Z * option DbError) (k v : bytes)
    : option Z * option DbError * bool :=
  let '(found, error) := st in
  if starts_with k id then
    match u64_from_ne_checked v with
    | Ok lev => (Some lev, error, false)
    | Err e => (found, Some e, false)
    end
  else (st, false).

Definition lookup_event_by_id (t : RwTxn) (id : bytes) : result DbError (option (Z * bytes)) :=
  '(st, _) ← foreach_full t (d_event_id dbis) (make_key_string_u64 id 0) (to_ne_bytes 0) false
               (lookup_id_cb id) (None, None);
  let '(found, error) := st in
  match error with
  | Some e => Err e
  | None =>
      match found with
      | Some lev => o ← get_u64 t (d_event dbis) lev; Ok (buf ← o; Some (lev, buf))
      | None => Ok None
      end
  end.

Definition lookup_event_by_levid (t : RwTxn) (lev_id : Z) : result DbError (option bytes) :=
  get_u64 t (d_event dbis) lev_id.

Definition most_recent_levid (t : RwTxn) : result DbError Z :=
  '(st, _) ← foreach_full t (d_event dbis) (to_ne_bytes U64_MAX) [] true
    (λ '(lev, error) k _, match u64_from_ne_checked k with
                          | Ok n => (n, error, false)
                          | Err e => (lev, Some e, false)
                          end) (0, None);
  let '(lev, error) := st in
  match error with Some e => Err e | None => Ok lev end.

Definition deletion_exists (t : RwTxn) (event_id pubkey : bytes) : result DbError bool :=
  o ← get t (d_event_deletion dbis) (event_id ++ pubkey); Ok (is_some o).

(** The callback's answer for one stored version, [error] kept beside its state. *)
Definition replacement_cb {S} (t : RwTxn) (key : bytes) (callback : S → Z → PackedEventView → S * bool)
    (st : S * option DbError) (k v : bytes) : S * option DbError * bool :=
  let '(s, error) := st in
  if decide (k ≠ key) then (st, false)
  else
    match (lev ← u64_from_ne_checked v;
           o ← get_u64 t (d_event dbis) lev;
           raw ← ok_or o (DbError_msg "dangling replacement index entry");
           other ← view_of raw;
           Ok (callback s lev other)) with
    | Ok (s, keep_going) => (s, error, keep_going)
    | Err err => (s, Some err, false)
    end.

Definition foreach_replacement {S} (t : RwTxn) (key : bytes)
    (callback : S → Z → PackedEventView → S * bool) (s : S) : result DbError S :=
  '(st, _) ← foreach_full t (d_event_replace dbis) key (to_ne_bytes U64_MAX) true
               (replacement_cb t key callback) (s, None);
  let '(s, error) := st in
  match error with Some err => Err err | None => Ok s end.

(** ** Index entries in the tables *)

Definition put_all (t : RwTxn) (dbi : Z) (keys : list bytes) (lev : bytes) : result DbError RwTxn :=
  try_fold (λ t k, '(t, _) ← put t dbi k lev 0; Ok t) t keys.

Definition put_indices (t : RwTxn) (lev_id : Z) (idx : EventIndices) : result DbError RwTxn :=
  let lev := to_ne_bytes lev_id in
  t ← put_all t (d_event_created_at dbis) (to_ne_bytes <$> option_list (ix_created_at idx)) lev;
  t ← put_all t (d_event_deletion dbis) (ix_deletion idx) lev;
  t ← put_all t (d_event_expiration dbis) (to_ne_bytes <$> ix_expiration idx) lev;
  t ← put_all t (d_event_id dbis) (option_list (ix_id idx)) lev;
  t ← put_all t (d_event_kind dbis) (option_list (ix_kind idx)) lev;
  t ← put_all t (d_event_pubkey dbis) (option_list (ix_pubkey idx)) lev;
  t ← put_all t (d_event_pubkey_kind dbis) (option_list (ix_pubkey_kind idx)) lev;
  t ← put_all t (d_event_replace dbis) (ix_replace idx) lev;
  t ← put_all t (d_event_replace_deletion dbis)
        (ix_replace_deletion idx ++ ix_canonical_replace_deletion idx) lev;
  t ← put_all t (d_event_tag dbis) (ix_tag idx) lev;
  if t_defer_tag_kind t then Ok t else put_tag_kind_entries t lev_id (ix_tag_kind idx).

Definition del_all (t : RwTxn) (dbi : Z) (keys : list bytes) (lev : bytes) : result DbError RwTxn :=
  try_fold (λ t k, '(t, _) ← del t dbi k (Some lev); Ok t) t keys.

Definition del_indices (t : RwTxn) (lev_id : Z) (idx : EventIndices) : result DbError RwTxn :=
  let lev := to_ne_bytes lev_id in
  t ← del_all t (d_event_created_at dbis) (to_ne_bytes <$> option_list (ix_created_at idx)) lev;
  t ← del_all t (d_event_deletion dbis) (ix_deletion idx) lev;
  t ← del_all t (d_event_expiration dbis) (to_ne_bytes <$> ix_expiration idx) lev;
  t ← del_all t (d_event_id dbis) (option_list (ix_id idx)) lev;
  t ← del_all t (d_event_kind dbis) (option_list (ix_kind idx)) lev;
  t ← del_all t (d_event_pubkey dbis) (option_list (ix_pubkey idx)) lev;
  t ← del_all t (d_event_pubkey_kind dbis) (option_list (ix_pubkey_kind idx)) lev;
  t ← del_all t (d_event_replace dbis) (ix_replace idx) lev;
  t ← del_all t (d_event_replace_deletion dbis)
        (ix_replace_deletion idx ++ ix_canonical_replace_deletion idx) lev;
  t ← del_all t (d_event_tag dbis) (ix_tag idx) lev;
  del_tag_kind_entries t lev_id (ix_tag_kind idx).

End lookup.

Section write.
Context `{R : RocksDb} {NS : NegentropySink} {ZC : ZstdCrate} {UC : UnicodeChars} {SE : SerdeEvent}.
Context {SF : SerdeFloat} {HC : HexCrate} {SH : Sha256} {SK : Secp256k1}.

Definition replaceable (kind : Z) : bool := is_replaceable_kind kind || is_param_replaceable_kind kind.

(** ** One event *)

(** The JSON of an event that has postings in the search index. *)
Definition indexed_json (t : RwTxn) (lev_id : Z) : result DbError (option bytes) :=
  through ← search_indexed_through_rw t;
  let indexed := match through with Some through => lev_id <=? through | None => false end in
  o ← get_u64 t (d_event_payload dbis) lev_id;
  match o with
  | Some raw =>
      if indexed then
        '(_, json) ← decode_rw Decompressor_new t raw (16 * 1024 * 1024); Ok (Some json)
      else Ok None
  | None => Ok None
  end.

Definition delete_primary (t : RwTxn) (lev_id : Z) : result DbError RwTxn :=
  o ← get_u64 t (d_event dbis) lev_id;
  match o with
  | None => Ok t
  | Some buf =>
      packed ← view_of buf;
      let idx := index_event packed in
      t ← (if replaceable (PackedEventView_kind packed) then '(t, _) ← superseded_events t; Ok t else Ok t);
      t ← del_indices t lev_id idx;
      t ← (if replaceable (PackedEventView_kind packed) then
             try_fold (λ t key, change_replacement_count t key false) t (ix_replace idx)
           else Ok t);
      '(t, _) ← del_u64 t (d_event dbis) lev_id None;
      Ok t
  end.

Definition delete_event_basic (t : RwTxn) (lev_id : Z) : result DbError (RwTxn * bool) :=
  t ← preserve_high_water t;
  o ← get_u64 t (d_event dbis) lev_id;
  '(t, kind) ← match o with
    | Some raw =>
        packed ← view_of raw;
        t ← change_author_count t (PackedEventView_pubkey packed) false;
        t ← invalidate_visibility t;
        Ok (t, Some (PackedEventView_kind packed))
    | None => Ok (t, None)
    end;
  json ← indexed_json t lev_id;
  '(t, deleted) ← del_u64 t (d_event_payload dbis) lev_id None;
  t ← match json with
      | Some json =>
          match (match kind with Some kind => Some kind | None => payload_kind json end) with
          | Some kind => remove_event_search t lev_id kind json
          | None => Ok t
          end
      | None => Ok t
      end;
  t ← delete_primary t lev_id;
  Ok (t, deleted).

Definition insert_event (t : RwTxn) (packed json : bytes) : result DbError (RwTxn * Z) :=
  view ← view_of packed;
  t ← change_author_count t (PackedEventView_pubkey view) true;
  '(t, lev_id) ← allocate_event_id t;
  '(t, inserted) ← put_u64 t (d_event dbis) lev_id packed (Z.lor MDB_NOOVERWRITE MDB_APPEND);
  if negb inserted then Err (DbError_msg "duplicate insert into Event")
  else
    '(t, _) ← put_u64 t (d_event_payload dbis) lev_id (encode_raw_payload json) 0;
    view ← view_of packed;
    let idx := index_event view in
    t ← (if replaceable (PackedEventView_kind view) then
           '(t, _) ← superseded_events t;
           try_fold (λ t key, change_replacement_count t key true) t (ix_replace idx)
         else Ok t);
    t ← put_indices t lev_id idx;
    Ok (t, lev_id).

(** ** Addresses of deletion requests *)

Definition push_address_deletions (t : RwTxn) (deletion : PackedEventView) (tag_val : bytes)
    (long_addresses : gmap bytes bytes) (lev_ids : list Z) : result DbError (list Z) :=
  let address := match hashed_tag_value_digest tag_val with
    | Some digest => long_addresses !! digest
    | None => if utf8_valid tag_val then Some tag_val else None
    end in
  match (s ← address; result_ok (parse_a_tag s)) with
  | None => Ok lev_ids
  | Some (kind, pubkey, d_tag) =>
      let replaces := is_param_replaceable_kind kind || (is_replaceable_kind kind && bool_decide (d_tag = [])) in
      if negb replaces || negb (bool_decide (pubkey = PackedEventView_pubkey deletion)) then Ok lev_ids
      else
        let search_key := make_key_string_u64 (pubkey ++ indexed_tag_value d_tag) kind in
        foreach_replacement t search_key (λ lev_ids lev other,
          (if PackedEventView_created_at other <=? PackedEventView_created_at deletion
           then lev_ids ++ [lev] else lev_ids, true)) lev_ids
  end.

Definition is_repaired_address (tag_val : bytes) : bool :=
  if bool_decide (is_Some (hashed_tag_value_digest tag_val)) then true
  else if negb (utf8_valid tag_val) then false
  else match parse_a_tag tag_val with
  | Ok (kind, _, d) =>
      negb (is_ok (parse_canonical_a_tag tag_val)) || (is_replaceable_kind kind && bool_decide (d = []))
  | Err _ => false
  end.

Definition repaired_tag_cb (t : RwTxn) (packed : PackedEventView) (long_addresses : gmap bytes bytes)
    (st : list Z * option DbError) (tag_name : Z) (tag_val : bytes) : list Z * option DbError * bool :=
  let '(lev_ids, error) := st in
  if (tag_name =? ch "a") && is_repaired_address tag_val then
    match push_address_deletions t packed tag_val long_addresses lev_ids with
    | Ok lev_ids => (lev_ids, error, true)
    | Err e => (lev_ids, Some e, false)
    end
  else (st, true).

Definition repaired_address_deletions (t : RwTxn) (packed : PackedEventView) (json : bytes)
    : result DbError (list Z) :=
  if negb (PackedEventView_kind packed =? DELETION_KIND) then Ok []
  else
    long_addresses ← hashed_tag_originals json "a";
    let '(lev_ids, error) := foreach_tag (repaired_tag_cb t packed long_addresses) ([], None) packed in
    match error with Some e => Err e | None => Ok lev_ids end.

(** ** What an event deletes *)

(** The [e] tag of a deletion request: whether the request's author may delete
    the event it names. *)
Definition can_delete (c : ProtectionCache) (t : RwTxn) (deletion : PackedEventView) (lev : Z)
    (other : PackedEventView) : result DbError (ProtectionCache * bool) :=
  let own := negb (PackedEventView_kind other =? VANISH_KIND)
    && negb (PackedEventView_kind other =? DELETION_KIND)
    && bool_decide (PackedEventView_pubkey other = PackedEventView_pubkey deletion) in
  '(c, can) ← (if own then '(c, protected) ← is_deletion_protected_rw c t lev other; Ok (c, negb protected)
               else Ok (c, false));
  if negb can && bool_decide (PackedEventView_kind other ∈ GIFT_WRAP_KINDS) then
    Ok (c, foreach_tag (λ can on ov,
      if (on =? ch "p") && bool_decide (ov = PackedEventView_pubkey deletion) then (true, false)
      else (can, true)) can other)
  else Ok (c, can).

(** The tags of a deletion request: the cache, the events to delete and the
    error that stops the walk. *)
Definition deletion_tag_cb (t : RwTxn) (packed : PackedEventView) (long_addresses : gmap bytes bytes)
    (st : ProtectionCache * list Z * option DbError) (tag_name : Z) (tag_val : bytes)
    : ProtectionCache * list Z * option DbError * bool :=
  let '(c, lev_ids, error) := st in
  match error with
  | Some _ => (st, false)
  | None =>
      if tag_name =? ch "e" then
        match lookup_event_by_id t tag_val with
        | Ok (Some (lev, buf)) =>
            match PackedEventView_new buf with
            | Ok other =>
                match can_delete c t packed lev other with
                | Ok (c, can) => (c, if can : bool then lev_ids ++ [lev] else lev_ids, None, true)
                | Err err => (c, lev_ids, Some err, false)
                end
            | Err e => (c, lev_ids, Some (EventError_message e), false)
            end
        | Ok None => (st, true)
        | Err e => (c, lev_ids, Some e, false)
        end
      else if tag_name =? ch "a" then
        match push_address_deletions t packed tag_val long_addresses lev_ids with
        | Ok lev_ids => (c, lev_ids, None, true)
        | Err e => (c, lev_ids, Some e, false)
        end
      else (st, true)
  end.

Definition deletion_targets (c : ProtectionCache) (t : RwTxn) (packed : PackedEventView) (json : bytes)
    : result DbError (ProtectionCache * list Z) :=
  let hashed_addresses := foreach_tag (λ (_ : bool) name val,
    let h := (name =? ch "a") && bool_decide (is_Some (hashed_tag_value_digest val)) in (h, negb h))
    false packed in
  long_addresses ← (if hashed_addresses then hashed_tag_originals json "a" else Ok ∅);
  let '(c, lev_ids, error) := foreach_tag (deletion_tag_cb t packed long_addresses) (c, [], None) packed in
  match error with Some e => Err e | None => Ok (c, lev_ids) end.

(** Whether a stored tombstone of the event's address deletes it. *)
Definition tombstone_cb (search_str : bytes) (created_at : Z) (st : bool * option DbError) (k _ : bytes)
    : bool * option DbError * bool :=
  let '(deleted, error) := st in
  match parse_key_string_u64 k with
  | Ok (s, n) => if decide (s ≠ search_str) then (st, false)
                 else (deleted || (created_at <=? n), error, false)
  | Err e => (deleted, Some e, false)
  end.

Definition tombstone_exists (t : RwTxn) (packed : PackedEventView) (d_tag : bytes) : result DbError bool :=
  let search_str := sha256 (address_text (PackedEventView_kind packed) (PackedEventView_pubkey packed) d_tag) in
  '(st, _) ← foreach_full t (d_event_replace_deletion dbis) (make_key_string_u64 search_str U64_MAX)
               (to_ne_bytes U64_MAX) true
               (tombstone_cb search_str (PackedEventView_created_at packed)) (false, None);
  let '(deleted, error) := st in
  match error with Some e => Err e | None => Ok deleted end.

(** The versions that an event replaces: its status and what it deletes. *)
Definition replacement (t : RwTxn) (packed : PackedEventView) (json : bytes) (status : EventWriteStatus)
    : result DbError (EventWriteStatus * list Z) :=
  if replaceable (PackedEventView_kind packed) then
    match first_d_tag packed with
    | None => Ok (status, [])
    | Some d =>
        let search_key := make_key_string_u64 (PackedEventView_pubkey packed ++ d) (PackedEventView_kind packed) in
        '(superseded, candidates) ← foreach_replacement t search_key
          (λ '(superseded, candidates) lev other,
             if is_event_a_before_event_b packed other then (true, candidates, false)
             else (superseded, candidates ++ [lev], true)) (false, []);
        let '(status, lev_ids) := if superseded : bool then (Replaced, []) else (status, candidates) in
        if decide (status = Pending) then
          d_tag ← original_tag_value json "d" d;
          deleted ← tombstone_exists t packed d_tag;
          Ok (if deleted : bool then Deleted else status, lev_ids)
        else Ok (status, lev_ids)
    end
  else Ok (status, []).

(** ** What refuses an event before that *)

Definition recipient_deleted_cb (t : RwTxn) (packed : PackedEventView) (st : bool * option DbError)
    (tag_name : Z) (tag_val : bytes) : bool * option DbError * bool :=
  let '(deleted, error) := st in
  match error with
  | Some _ => (st, false)
  | None =>
      if tag_name =? ch "p" then
        match deletion_exists t (PackedEventView_id packed) tag_val with
        | Ok true => (true, error, false)
        | Ok false => (st, true)
        | Err e => (deleted, Some e, false)
        end
      else (st, true)
  end.

Definition recipient_deleted (t : RwTxn) (packed : PackedEventView) : result DbError bool :=
  if bool_decide (PackedEventView_kind packed ∈ GIFT_WRAP_KINDS) then
    let '(deleted, error) := foreach_tag (recipient_deleted_cb t packed) (false, None) packed in
    match error with Some e => Err e | None => Ok deleted end
  else Ok false.

Definition refusal (t : RwTxn) (policy : VanishPolicy) (packed : PackedEventView) (json : bytes)
    : result DbError (option EventWriteStatus) :=
  stored ← lookup_event_by_id t (PackedEventView_id packed);
  if is_some stored then Ok (Some Duplicate)
  else
    let is_vanish_request := PackedEventView_kind packed =? VANISH_KIND in
    if is_vanish_request && vp_enabled policy && negb (targets_this_relay_json policy json) then Ok (Some Deleted)
    else
      vanished ← (if is_vanish_request then Ok false else is_event_vanished_rw_with_json t packed json);
      if vanished : bool then Ok (Some Deleted)
      else
        deleted ← (if negb is_vanish_request && negb (PackedEventView_kind packed =? DELETION_KIND) then
            requested ← deletion_exists t (PackedEventView_id packed) (PackedEventView_pubkey packed);
            if requested : bool then
              protected ← is_deletion_protected_json packed json; Ok (negb protected)
            else Ok false
          else Ok false);
        if deleted : bool then Ok (Some Deleted)
        else
          wrap ← recipient_deleted t packed;
          Ok (if wrap : bool then Some Deleted else None).

(** ** A batch *)

(** What the loop changes: the transaction, the trees, the environment's cache
    of protections, and the first and last local ids it gave out. *)
Record Writer : Type := mkWriter {
  w_txn : RwTxn;
  w_sink : Sink;
  w_cache : ProtectionCache;
  w_first : option Z;
  w_last : option Z;
}.

Definition over_quota (t : RwTxn) (packed : PackedEventView) (lev_ids : list Z) (author_quota : Z)
    : result DbError (RwTxn * bool) :=
  '(t, count) ← author_count t (PackedEventView_pubkey packed);
  removed ← try_fold (λ removed lev,
    o ← get_u64 t (d_event dbis) lev;
    match o with
    | Some raw =>
        other ← view_of raw;
        Ok (if decide (PackedEventView_pubkey other = PackedEventView_pubkey packed)
            then {[lev]} ∪ removed else removed)
    | None => Ok removed
    end) (∅ : gset Z) lev_ids;
  Ok (t, author_quota <? sat_add U64_MAX (sat_sub count (Z.of_nat (size removed))) 1).

Definition delete_one (s : Sink) (t : RwTxn) (lev : Z) : result DbError (Sink * RwTxn * bool) :=
  o ← lookup_event_by_levid t lev;
  match o with
  | None => Ok (s, t, false)
  | Some buf =>
      packed ← view_of buf;
      '(s, t) ← sink_update s t packed false;
      '(t, deleted) ← delete_event_basic t lev;
      Ok (s, t, deleted)
  end.

(** An event that nothing refused is stored, and its deletions are applied. *)
Definition store_event {C} (w : Writer) (policy : VanishPolicy) (ev : EventToWrite C)
    (packed : PackedEventView) (lev_ids : list Z) : result DbError (Writer * EventToWrite C) :=
  t ← (if (PackedEventView_kind packed =? VANISH_KIND) && vp_enabled policy then
         mark_vanished (w_txn w) (PackedEventView_pubkey packed) (PackedEventView_created_at packed)
       else Ok (w_txn w));
  '(t, lev_id) ← insert_event t (ev_packed ev) (ev_json ev);
  '(s, t) ← sink_update (w_sink w) t packed true;
  '(s, t) ← try_fold (λ '(s, t) lev, '(s, t, _) ← delete_one s t lev; Ok (s, t)) (s, t) lev_ids;
  Ok (mkWriter t s (w_cache w) (Some (default lev_id (w_first w))) (Some lev_id),
      set_outcome ev Written lev_id).

Definition write_event {C} (policy : VanishPolicy) (author_quota : Z) (w : Writer)
    (previous : option (EventToWrite C)) (ev : EventToWrite C) : result DbError (Writer * EventToWrite C) :=
  packed ← view_of (ev_packed ev);
  match (copy ← previous;
         if decide (take 32 (ev_packed copy) = take 32 (ev_packed ev)) then Some copy else None) with
  | Some copy =>
      Ok (w, set_outcome ev (match ev_status copy with
                             | Written | Duplicate => Duplicate
                             | refused => refused
                             end) (ev_lev_id ev))
  | None =>
      refused ← refusal (w_txn w) policy packed (ev_json ev);
      match refused with
      | Some status => Ok (w, set_outcome ev status (ev_lev_id ev))
      | None =>
          '(status, lev_ids) ← replacement (w_txn w) packed (ev_json ev) (ev_status ev);
          '(c, targets) ← (if PackedEventView_kind packed =? 5 then
                             deletion_targets (w_cache w) (w_txn w) packed (ev_json ev)
                           else Ok (w_cache w, []));
          let lev_ids := lev_ids ++ targets in
          let w := mkWriter (w_txn w) (w_sink w) c (w_first w) (w_last w) in
          if decide (status ≠ Pending) then Ok (w, set_outcome ev status (ev_lev_id ev))
          else
            '(t, over) ← (if negb (author_quota =? 0) && negb (PackedEventView_kind packed =? VANISH_KIND) then
                            over_quota (w_txn w) packed lev_ids author_quota
                          else Ok (w_txn w, false));
            let w := mkWriter t (w_sink w) c (w_first w) (w_last w) in
            if over : bool then Ok (w, set_outcome ev QuotaExceeded (ev_lev_id ev))
            else store_event w policy ev packed lev_ids
      end
  end.

(** The order of a batch: by time, then id. *)
Definition batch_cmp {C} (a b : EventToWrite C) : comparison :=
  match PackedEventView_new (ev_packed a), PackedEventView_new (ev_packed b) with
  | Ok a, Ok b => then_with (PackedEventView_created_at a ?= PackedEventView_created_at b)
                    (bytes_cmp (PackedEventView_id a) (PackedEventView_id b))
  | _, _ => Eq
  end.

Fixpoint write_loop {C} (policy : VanishPolicy) (author_quota : Z) (w : Writer)
    (previous : option (EventToWrite C)) (evs : list (EventToWrite C))
    : result DbError (Writer * list (EventToWrite C)) :=
  match evs with
  | [] => Ok (w, [])
  | ev :: evs =>
      '(w, ev) ← write_event policy author_quota w previous ev;
      '(w, evs) ← write_loop policy author_quota w (Some ev) evs;
      Ok (w, ev :: evs)
  end.

Definition write_events_with_quota {C} (t : RwTxn) (s : Sink) (c : ProtectionCache)
    (evs : list (EventToWrite C)) (policy : VanishPolicy) (author_quota : Z)
    : result DbError (RwTxn * Sink * ProtectionCache * list (EventToWrite C)) :=
  '(w, evs) ← write_loop policy author_quota (mkWriter t s c None None) None (slice_sort_by batch_cmp evs);
  t ← match w_first w, w_last w with
      | Some first, Some last =>
          if negb (t_defer_tag_kind (w_txn w)) then note_tag_kind_indexed (w_txn w) first last
          else Ok (w_txn w)
      | _, _ => Ok (w_txn w)
      end;
  Ok (t, w_sink w, w_cache w, evs).

Definition write_events_with_policy {C} (t : RwTxn) (s : Sink) (c : ProtectionCache)
    (evs : list (EventToWrite C)) (policy : VanishPolicy)
    : result DbError (RwTxn * Sink * ProtectionCache * list (EventToWrite C)) :=
  write_events_with_quota t s c evs policy 0.

Definition write_events {C} (t : RwTxn) (s : Sink) (c : ProtectionCache) (evs : list (EventToWrite C))
    : result DbError (RwTxn * Sink * ProtectionCache * list (EventToWrite C)) :=
  write_events_with_policy t s c evs VanishPolicy_disabled.

Definition delete_events (t : RwTxn) (s : Sink) (lev_ids : list Z) : result DbError (RwTxn * Sink * Z) :=
  try_fold (λ '(t, s, n) lev,
    '(s, t, deleted) ← delete_one s t lev;
    Ok (t, s, if deleted : bool then n + 1 else n)) (t, s, 0) lev_ids.

End write.
