(* ===== verification/DbStore.v ===== *)
(** * What the code relies on of RocksDB

    [RocksLaws] states the documented behaviour of the operations in the class
    [RocksDb] while reads do not fail: a column family is a map ordered by the
    bytes of its keys, a snapshot does not change, an iterator moves over the
    entries in order, and a write batch is applied as a whole or, when the write
    reports an error, as a whole or not at all.  A log of the batches satisfies
    the laws: [mem_rocks], which accepts every batch, and [failing_rocks], which
    reports an error for every batch and keeps it or not. *)

From S2P Require Import Prelude BTreeMap DbTxn.

Local Open Scope Z_scope.

(** ** Entries in order *)

(** Comparison in the direction of a walk. *)
Definition dir_cmp (forward : bool) (a b : bytes) : comparison :=
  if forward then bytes_cmp a b else bytes_cmp b a.

#[export] Instance dir_cmp_total forward : TotalCmp (dir_cmp forward).
Proof.
  destruct forward; [apply slice_cmp_total, _|]. split; unfold dir_cmp.
  - intros a b. rewrite (cmp_eq_iff (cmp:=bytes_cmp)). done.
  - intros a b. apply (cmp_opp (cmp:=bytes_cmp)).
  - intros a b c Hab Hbc. by apply (cmp_lt_trans (cmp:=bytes_cmp) c b a).
Qed.

(** The keys a walk from [bound] may return. *)
Definition within (forward : bool) (bound : option bytes) (inclusive : bool) (k : bytes) : Prop :=
  match bound with
  | None => True
  | Some b => if inclusive then cmp_le (dir_cmp forward) b k else cmp_lt (dir_cmp forward) b k
  end.

#[export] Instance within_dec forward bound inclusive k : Decision (within forward bound inclusive k).
Proof. unfold within. destruct bound; [destruct inclusive|]; apply _. Defined.

(** The first entry of a walk. *)
Definition pick {A} (forward : bool) (l : list A) : option A := if forward then head l else last l.

(** ** Documented behaviour *)

Definition apply_op (cf : string) (items : list Kv) (op : BatchOp) : list Kv :=
  match op with
  | PutCf cf' k v => if decide (cf' = cf) then bt_insert bytes_cmp items k v else items
  | DeleteCf cf' k => if decide (cf' = cf) then filter (λ e, e.1 ≠ k) items else items
  end.

Definition in_bounds (lo hi : option bytes) (e : Kv) : Prop :=
  match lo with Some lo => cmp_le bytes_cmp lo e.1 | None => True end ∧
  match hi with Some hi => cmp_lt bytes_cmp e.1 hi | None => True end.

#[export] Instance in_bounds_dec lo hi e : Decision (in_bounds lo hi e).
Proof. unfold in_bounds. destruct lo, hi; apply _. Defined.

Class RocksLaws `{RD : RocksDb} : Type := {
  it_rows : RawIter → list Kv;
  items_sorted s cf : bt_sorted bytes_cmp (cf_items s cf);
  get_cf_items s cf k : get_cf s cf k = Ok (bt_get bytes_cmp (cf_items s cf) k);
  rows_iterator s cf lo hi :
    it_rows (raw_iterator_cf s cf lo hi) = filter (in_bounds lo hi) (cf_items s cf);
  rows_seek it b : it_rows (it_seek it b) = it_rows it;
  rows_seek_for_prev it b : it_rows (it_seek_for_prev it b) = it_rows it;
  rows_seek_to_first it : it_rows (it_seek_to_first it) = it_rows it;
  rows_seek_to_last it : it_rows (it_seek_to_last it) = it_rows it;
  rows_next it : it_rows (it_next it) = it_rows it;
  rows_prev it : it_rows (it_prev it) = it_rows it;
  item_in_rows it e : it_item it = Some e → e ∈ it_rows it;
  item_seek it b :
    it_item (it_seek it b) = head (filter (λ e, cmp_le bytes_cmp b e.1) (it_rows it));
  item_seek_for_prev it b :
    it_item (it_seek_for_prev it b) = last (filter (λ e, cmp_le bytes_cmp e.1 b) (it_rows it));
  item_seek_to_first it : it_item (it_seek_to_first it) = head (it_rows it);
  item_seek_to_last it : it_item (it_seek_to_last it) = last (it_rows it);
  item_next it e : it_item it = Some e →
    it_item (it_next it) = head (filter (λ e', cmp_lt bytes_cmp e.1 e'.1) (it_rows it));
  item_prev it e : it_item it = Some e →
    it_item (it_prev it) = last (filter (λ e', cmp_lt bytes_cmp e'.1 e.1) (it_rows it));
  status_ok it : it_status it = Ok tt;
  write_items db ops db' u cf : write_opt db ops = (db', Ok u) →
    cf_items (db_snapshot db') cf = foldl (apply_op cf) (cf_items (db_snapshot db) cf) ops;
  write_failed db ops db' err : write_opt db ops = (db', Err err) →
    (∀ cf, cf_items (db_snapshot db') cf = cf_items (db_snapshot db) cf) ∨
    (∀ cf, cf_items (db_snapshot db') cf = foldl (apply_op cf) (cf_items (db_snapshot db) cf) ops);
}.

(** ** A database in memory *)

Definition log_items (log : list BatchOp) (cf : string) : list Kv := foldl (apply_op cf) [] log.

(** Databases that differ in what a write does. *)
Definition log_rocks (write : list BatchOp → list BatchOp → list BatchOp * result string unit) : RocksDb := {|
  Db := list BatchOp;
  Snapshot := list BatchOp;
  RawIter := list Kv * option Kv;
  db_snapshot db := db;
  latest_sequence_number db := len db;
  write_opt := write;
  cf_items := log_items;
  get_cf s cf k := Ok (bt_get bytes_cmp (log_items s cf) k);
  raw_iterator_cf s cf lo hi := (filter (in_bounds lo hi) (log_items s cf), None);
  it_seek it b := (it.1, head (filter (λ e, cmp_le bytes_cmp b e.1) it.1));
  it_seek_for_prev it b := (it.1, last (filter (λ e, cmp_le bytes_cmp e.1 b) it.1));
  it_seek_to_first it := (it.1, head it.1);
  it_seek_to_last it := (it.1, last it.1);
  it_next it := (it.1, e ← it.2; head (filter (λ e', cmp_lt bytes_cmp e.1 e'.1) it.1));
  it_prev it := (it.1, e ← it.2; last (filter (λ e', cmp_lt bytes_cmp e'.1 e.1) it.1));
  it_item it := e ← it.2; if decide (e ∈ it.1) then Some e else None;
  it_status it := Ok tt;
|}.

#[export] Instance mem_rocks : RocksDb := log_rocks (λ db ops, (db ++ ops, Ok tt)).

Definition failing_rocks (kept : bool) : RocksDb :=
  log_rocks (λ db ops, (if kept then db ++ ops else db, Err "I/O error"%string)).

Lemma apply_op_sorted cf items op : bt_sorted bytes_cmp items → bt_sorted bytes_cmp (apply_op cf items op).
Proof.
  intros Hs. destruct op as [cf' k v|cf' k]; cbn; case_decide; try done.
  - by apply bt_insert_sorted; [apply _|].
  - by apply bt_filter_sorted.
Qed.

Lemma log_items_sorted log cf : bt_sorted bytes_cmp (log_items log cf).
Proof.
  unfold log_items. assert (bt_sorted bytes_cmp (@nil Kv)) as H by constructor.
  revert H. generalize (@nil Kv). induction log as [|op log IH]; intros l Hl; [done|].
  cbn. by apply IH, apply_op_sorted.
Qed.

Lemma head_filter_elem {A} (P : A → Prop) `{!∀ x, Decision (P x)} l x :
  head (filter P l) = Some x → x ∈ l.
Proof.
  intros Hx%head_Some_elem_of. by apply list_elem_of_filter in Hx as [_ Hx].
Qed.

Lemma last_filter_elem {A} (P : A → Prop) `{!∀ x, Decision (P x)} l x :
  last (filter P l) = Some x → x ∈ l.
Proof.
  intros Hx%last_Some_elem_of. by apply list_elem_of_filter in Hx as [_ Hx].
Qed.

(** Keeping an item only when it is an entry changes nothing. *)
Lemma guard_elem (l : list Kv) (o : option Kv) :
  (∀ e, o = Some e → e ∈ l) → (e ← o; if decide (e ∈ l) then Some e else None) = o.
Proof. destruct o as [e|]; [|done]. intros H. cbn. by rewrite decide_True by auto. Qed.

Lemma log_items_app log ops cf : log_items (log ++ ops) cf = foldl (apply_op cf) (log_items log cf) ops.
Proof. unfold log_items. by rewrite foldl_app. Qed.

Lemma log_rocks_laws write :
  (∀ db ops db' u, write db ops = (db', Ok u) → db' = db ++ ops) →
  (∀ db ops db' err, write db ops = (db', Err err) → db' = db ∨ db' = db ++ ops) →
  RocksLaws (RD := log_rocks write).
Proof.
  intros Hok Herr.
  refine {| it_rows := (λ it, it.1) : @RawIter (log_rocks write) → list Kv |}; try done; cbn.
  - intros. apply log_items_sorted.
  - intros it e. destruct (it.2) as [x|]; cbn; [|done]. case_decide; [|done]. by intros [= <-].
  - intros. apply guard_elem, head_filter_elem.
  - intros. apply guard_elem, last_filter_elem.
  - intros. apply guard_elem. intros e. apply head_Some_elem_of.
  - intros. apply guard_elem. intros e. apply last_Some_elem_of.
  - intros it e. destruct (it.2) as [x|]; cbn; [|done]. case_decide; [|done]. intros [= ->].
    apply guard_elem, head_filter_elem.
  - intros it e. destruct (it.2) as [x|]; cbn; [|done]. case_decide; [|done]. intros [= ->].
    apply guard_elem, last_filter_elem.
  - intros db ops db' u cf ->%Hok. apply log_items_app.
  - intros db ops db' err [-> | ->]%Herr; [by left|right]. intros cf. apply log_items_app.
Defined.

#[export] Instance mem_rocks_laws : RocksLaws (RD := mem_rocks).
Proof. apply log_rocks_laws; [by intros ? ? ? ? [= <-]|done]. Defined.

Lemma failing_rocks_laws kept : RocksLaws (RD := failing_rocks kept).
Proof. apply log_rocks_laws; [done|]. intros db ops db' err [= <- _]. destruct kept; auto. Defined.
