(* ===== verification/DbCursor.v ===== *)
(** * The cursor returns the rows of its table in order

    [vrows] lists the rows a cursor can see: the entries of the snapshot with
    the staged changes over them, decoded, in physical order.  [position], which
    merges both sources step by step, returns the nearest of them in its
    direction; every cursor operation and every scan is built on that. *)

From S2P Require Import Prelude BTreeMap DbKeys DbCodec DbIndex DbTxn DbStore.

Local Open Scope Z_scope.

(** ** The nearest entry *)

Lemma last_cons_Some {A} (x : A) l y : last (x :: l) = Some y → (l = [] ∧ y = x) ∨ last l = Some y.
Proof. destruct l; cbn; naive_solver. Qed.

Lemma pick_None {A} forward (l : list A) : pick forward l = None ↔ l = [].
Proof. destruct forward; cbn; [apply head_None|apply last_None]. Qed.

Section pick.
Context {A : Type} (key : A → bytes).

Definition key_sorted (l : list A) : Prop := StronglySorted (λ x y, cmp_lt bytes_cmp (key x) (key y)) l.

Lemma pick_Some forward l x : key_sorted l → pick forward l = Some x →
  x ∈ l ∧ ∀ y, y ∈ l → y = x ∨ cmp_lt (dir_cmp forward) (key x) (key y).
Proof.
  unfold key_sorted. destruct forward; cbn.
  - destruct l as [|a l]; [done|]. intros [_ Hf]%StronglySorted_inv [= ->].
    split; [by left|]. intros y [->|Hy]%elem_of_cons; [by left|]. right.
    by eapply Forall_forall in Hf.
  - intros Hs. revert x. induction Hs as [|a l Hs IH Hf]; [done|].
    intros x [[-> ->]|Hl]%last_cons_Some.
    + split; [by left|]. intros y [->|Hy]%elem_of_cons; [by left|]. by apply not_elem_of_nil in Hy.
    + destruct (IH x Hl) as [Hx Hmin]. split; [by right|].
      intros y [->|Hy]%elem_of_cons; [|by apply Hmin]. right.
      eapply Forall_forall in Hf; [exact Hf|done].
Qed.

(** Being the nearest determines the entry. *)
Lemma pick_unique forward l x : key_sorted l → x ∈ l →
  (∀ y, y ∈ l → y = x ∨ cmp_lt (dir_cmp forward) (key x) (key y)) → pick forward l = Some x.
Proof.
  intros Hs Hx Hmin. destruct (pick forward l) as [z|] eqn:E.
  - apply pick_Some in E as [Hz Hz']; [|done]. f_equal.
    destruct (Hmin z Hz) as [?|H1]; [done|]. destruct (Hz' x Hx) as [?|H2]; [done|].
    exfalso. apply (irreflexivity (cmp_lt (dir_cmp forward)) (key x)). by etrans.
  - apply pick_None in E as ->. by apply not_elem_of_nil in Hx.
Qed.

Lemma key_sorted_filter (P : A → Prop) `{!∀ x, Decision (P x)} l : key_sorted l → key_sorted (filter P l).
Proof.
  unfold key_sorted. induction 1 as [|a l Hs IH Hf]; [constructor|].
  rewrite filter_cons. case_decide; [|done]. constructor; [done|].
  apply Forall_forall. intros y [_ Hy]%list_elem_of_filter. by eapply Forall_forall in Hf.
Qed.
End pick.

Lemma bt_key_sorted {V} (m : list (bytes * V)) : bt_sorted bytes_cmp m ↔ key_sorted fst m.
Proof.
  unfold bt_sorted, key_sorted. induction m as [|[k v] m IH]; cbn; [split; constructor|].
  split; intros [Hs Hf]%StronglySorted_inv; constructor; try by apply IH.
  - rewrite Forall_fmap in Hf. exact Hf.
  - rewrite Forall_fmap. exact Hf.
Qed.

(** ** What a cursor can see *)

#[export] Instance overlay_cmp_total : TotalCmp overlay_cmp.
Proof.
  split.
  - intros [a x] [b y]. unfold overlay_cmp. cbn. unfold then_with.
    destruct (Z.compare_spec a b) as [->|H|H].
    + rewrite (cmp_eq_iff (cmp:=bytes_cmp)). naive_solver.
    + split; [done|]. intros [= -> ->]. lia.
    + split; [done|]. intros [= -> ->]. lia.
  - intros [a x] [b y]. unfold overlay_cmp. cbn. rewrite (cmp_opp (cmp:=Z.compare) a b).
    rewrite (cmp_opp (cmp:=bytes_cmp) x y). by destruct (a ?= b).
  - intros [a x] [b y] [c z]. unfold overlay_cmp. cbn. unfold then_with.
    destruct (Z.compare_spec a b), (Z.compare_spec b c), (Z.compare_spec a c); subst;
      try done; try lia. apply (cmp_lt_trans (cmp:=bytes_cmp)).
Qed.

(** The staged changes of one column family. *)
Definition staged_of (id : Z) (s : Overlay) : list (bytes * option bytes) :=
  (λ e, (e.1.2, e.2)) <$> filter (λ e, e.1.1 = id) s.

Lemma elem_of_staged_of id s k o : (k, o) ∈ staged_of id s ↔ ((id, k), o) ∈ s.
Proof.
  unfold staged_of. rewrite list_elem_of_fmap. split.
  - intros ([[i k'] o'] & [= -> ->] & [Hi H]%list_elem_of_filter). cbn in Hi. by subst.
  - intros H. exists ((id, k), o). split; [done|]. by apply list_elem_of_filter.
Qed.

Lemma staged_of_sorted id s : bt_sorted overlay_cmp s → bt_sorted bytes_cmp (staged_of id s).
Proof.
  intros Hs. apply bt_key_sorted. unfold staged_of, key_sorted.
  unfold bt_sorted in Hs. induction s as [|[[i k] o] s IH]; [constructor|].
  cbn [fmap list_fmap] in Hs. apply StronglySorted_inv in Hs as [Hs Hf].
  rewrite filter_cons. case_decide as Hi; [|by apply IH]. cbn in Hi. subst i.
  rewrite fmap_cons. constructor; [by apply IH|]. rewrite Forall_fmap. apply Forall_forall.
  intros [[i k'] o'] [Hi Hin]%list_elem_of_filter. cbn in Hi. subst i.
  eapply Forall_forall in Hf; [|by apply (list_elem_of_fmap_2' fst _ ((id, k'), o'))].
  unfold cmp_lt, overlay_cmp in Hf. cbn in Hf. by rewrite Z.compare_refl in Hf.
Qed.

Lemma staged_of_get id s k : bt_sorted overlay_cmp s →
  bt_get bytes_cmp (staged_of id s) k = bt_get overlay_cmp s (id, k).
Proof.
  intros Hs. apply option_eq. intros o.
  rewrite (bt_get_elem bytes_cmp) by by apply staged_of_sorted.
  rewrite (bt_get_elem overlay_cmp) by done. apply elem_of_staged_of.
Qed.

Lemma overlay_lt i j a b : cmp_lt overlay_cmp (i, a) (j, b) ↔ i < j ∨ i = j ∧ cmp_lt bytes_cmp a b.
Proof.
  unfold cmp_lt, overlay_cmp. cbn. destruct (Z.compare_spec i j) as [->|H|H]; cbn; naive_solver lia.
Qed.

Lemma overlay_le i j a b : cmp_le overlay_cmp (i, a) (j, b) ↔ i < j ∨ i = j ∧ cmp_le bytes_cmp a b.
Proof.
  unfold cmp_le, overlay_cmp. cbn. destruct (Z.compare_spec i j) as [->|H|H]; cbn; naive_solver lia.
Qed.

Lemma bytes_le_nil b : cmp_le bytes_cmp [] b.
Proof. by destruct b. Qed.

Lemma bytes_lt_nil b : ¬ cmp_lt bytes_cmp b [].
Proof. by destruct b. Qed.

(** The range [position] asks the overlay for. *)
Lemma range_spec forward id bound inclusive i k :
  Is_true (above (range_lo id bound forward inclusive) (i, k) &&
           below (range_hi id bound forward inclusive) (i, k)) ↔
  i = id ∧ within forward bound inclusive k.
Proof.
  pose proof (bytes_le_nil k). pose proof (bytes_lt_nil k).
  unfold within, dir_cmp, range_lo, range_hi, edge. rewrite andb_True.
  destruct forward, bound as [b|], inclusive; cbn;
    rewrite !bool_decide_spec, ?overlay_lt, ?overlay_le; naive_solver lia.
Qed.

Lemma filter_staged_of (P : OverlayKey * option bytes → Prop) (Q : bytes → Prop)
    `{!∀ e, Decision (P e), !∀ k, Decision (Q k)} id s :
  (∀ i k o, P ((i, k), o) ↔ i = id ∧ Q k) →
  (λ e, (e.1.2, e.2)) <$> filter P s = filter (λ e, Q e.1) (staged_of id s).
Proof.
  intros HP. unfold staged_of. induction s as [|[[i k] o] s IH]; [done|].
  rewrite !filter_cons. cbn [fst]. destruct (decide (i = id)) as [->|Hi].
  - rewrite fmap_cons, filter_cons. cbn [fst snd].
    destruct (decide (Q k)) as [HQ|HQ].
    + rewrite decide_True by by apply HP. rewrite fmap_cons. cbn [fst snd]. by rewrite IH.
    + rewrite decide_False by (rewrite HP; tauto). done.
  - rewrite decide_False by (rewrite HP; tauto). done.
Qed.

Lemma pick_fmap {A B} (f : A → B) forward l : pick forward (f <$> l) = f <$> pick forward l.
Proof. destruct forward; cbn; [by destruct l|apply fmap_last]. Qed.

Lemma staged_item_pick s id bound forward inclusive :
  staged_item s id bound forward inclusive =
  pick forward (filter (λ e, within forward bound inclusive e.1) (staged_of id s)).
Proof.
  unfold staged_item, range.
  rewrite <-(filter_staged_of (λ e, Is_true (above (range_lo id bound forward inclusive) e.1 &&
    below (range_hi id bound forward inclusive) e.1)) (within forward bound inclusive))
    by (intros; apply range_spec).
  rewrite pick_fmap. change (if forward then head ?l else last ?l) with (pick forward l).
  by destruct (pick forward _) as [[[i k] o]|].
Qed.

Section cursor.
Context `{RL : RocksLaws}.

(** The value under a physical key: the staged one, else the stored one. *)
Definition phys_get (v : View) (staged : option Overlay) (dbi : Z) (pk : bytes) : option bytes :=
  match s ← staged; bt_get overlay_cmp s (physical dbi, pk) with
  | Some o => o
  | None => bt_get bytes_cmp (cf_items (v_snapshot v) (cf_name dbi)) pk
  end.

Lemma raw_phys v dbi pk staged : raw v dbi pk staged = Ok (phys_get v staged dbi pk).
Proof.
  unfold raw, phys_get. destruct (_ ≫= _); [done|]. by rewrite get_cf_items.
Qed.

Definition staged_sorted (staged : option Overlay) : Prop :=
  bt_sorted overlay_cmp (default [] staged).

(** The logical row under a physical key. *)
Definition vis (v : View) (staged : option Overlay) (dbi : Z) (pk : bytes) : option Kv :=
  value ← phys_get v staged dbi pk;
  match row_of dbi pk value with Ok r => r | Err _ => None end.

Definition phys_keys (v : View) (staged : option Overlay) (dbi : Z) : list bytes :=
  vec_dedup (slice_sort bytes_cmp
    ((cf_items (v_snapshot v) (cf_name dbi)).*1 ++ (staged_of (physical dbi) (default [] staged)).*1)).

(** The rows of a table with their physical keys, in physical order. *)
Definition vrows (v : View) (staged : option Overlay) (dbi : Z) : list (bytes * Kv) :=
  omap (λ pk, kv ← vis v staged dbi pk; Some (pk, kv)) (phys_keys v staged dbi).

(** Every entry of the table can be decoded. *)
Definition rows_wf (v : View) (staged : option Overlay) (dbi : Z) : Prop :=
  ∀ pk value, phys_get v staged dbi pk = Some value → is_ok (row_of dbi pk value) = true.

Section facts.
Context (v : View) (staged : option Overlay) (dbi : Z).
Context (Hst : staged_sorted staged).
Local Abbreviation base := (cf_items (v_snapshot v) (cf_name dbi)).
Local Abbreviation sts := (staged_of (physical dbi) (default [] staged)).

Lemma phys_get_sts pk :
  phys_get v staged dbi pk =
  match bt_get bytes_cmp sts pk with Some o => o | None => bt_get bytes_cmp base pk end.
Proof.
  unfold phys_get. destruct staged as [s|]; [|done]. cbn. by rewrite <-staged_of_get.
Qed.

Lemma bt_get_key {V} (m : list (bytes * V)) k : bt_sorted bytes_cmp m →
  is_Some (bt_get bytes_cmp m k) ↔ k ∈ m.*1.
Proof.
  intros Hs. split.
  - intros [o Ho]. apply (bt_get_elem bytes_cmp) in Ho; [|done].
    by apply (list_elem_of_fmap_2' fst _ (k, o)).
  - intros ([k' o] & -> & H)%list_elem_of_fmap. exists o. by apply (bt_get_elem bytes_cmp).
Qed.

Lemma elem_of_phys_keys pk : pk ∈ phys_keys v staged dbi ↔ pk ∈ base.*1 ∨ pk ∈ sts.*1.
Proof. unfold phys_keys. by rewrite elem_of_slice_sort_dedup, elem_of_app. Qed.

Lemma phys_get_keys pk value : phys_get v staged dbi pk = Some value → pk ∈ phys_keys v staged dbi.
Proof.
  rewrite phys_get_sts, elem_of_phys_keys. intros H.
  destruct (bt_get bytes_cmp sts pk) as [o|] eqn:E.
  - right. apply bt_get_key; [by apply staged_of_sorted|]. by rewrite E.
  - left. apply bt_get_key; [apply items_sorted|]. by rewrite H.
Qed.

Lemma elem_of_vrows pk kv : (pk, kv) ∈ vrows v staged dbi ↔ vis v staged dbi pk = Some kv.
Proof.
  unfold vrows. rewrite list_elem_of_omap. split.
  - intros (pk' & _ & H). destruct (vis v staged dbi pk') eqn:E; [|done].
    injection H as -> ->. done.
  - intros H. exists pk. rewrite H. split; [|done]. unfold vis in H.
    destruct (phys_get v staged dbi pk) eqn:E; [|done]. by eapply phys_get_keys.
Qed.

Lemma vrows_sorted : key_sorted fst (vrows v staged dbi).
Proof.
  unfold vrows, key_sorted.
  pose proof (slice_sort_dedup_sorted bytes_cmp (base.*1 ++ sts.*1)) as H.
  fold (phys_keys v staged dbi) in H.
  induction H as [|pk l Hs IH Hf]; [constructor|]. cbn.
  destruct (vis v staged dbi pk) as [kv|]; [|done]. cbn. constructor; [done|].
  apply Forall_forall. intros [pk' kv'] (k & Hk & E)%list_elem_of_omap.
  destruct (vis v staged dbi k); [|done]. injection E as -> ->.
  by eapply Forall_forall in Hf.
Qed.
End facts.

(** ** Positioning *)

Lemma within_strict forward b k : within forward (Some b) false k ↔ cmp_lt (dir_cmp forward) b k.
Proof. done. Qed.

Lemma within_incl forward b k : within forward (Some b) true k ↔ cmp_le (dir_cmp forward) b k.
Proof. done. Qed.

(** The native iterator after a seek that may be skipped. *)
Lemma seek_item forward it b rows :
  key_sorted fst rows → it_rows it = rows →
  it_key it = Some b ∨ it_item it = pick forward (filter (λ e, within forward (Some b) true e.1) rows) →
  it_item it = pick forward (filter (λ e, within forward (Some b) true e.1) rows).
Proof.
  intros Hs Hr [Hk|H]; [|done]. unfold it_key in Hk.
  destruct (it_item it) as [[k x]|] eqn:E; [|done]. injection Hk as ->.
  symmetry. apply (pick_unique fst); [by apply key_sorted_filter|..].
  - apply list_elem_of_filter. split; [rewrite within_incl; by apply reflexivity|].
    rewrite <-Hr. by apply item_in_rows.
  - intros y [Hw Hy]%list_elem_of_filter. rewrite within_incl in Hw. cbn.
    apply (cmp_le_lt_eq (dir_cmp forward)) in Hw as [Hw|Hw]; [by right|]. left.
    destruct y as [k' x']. cbn in Hw. subst k'. f_equal.
    apply item_in_rows in E. rewrite Hr in E. rewrite <-bt_key_sorted in Hs.
    apply (bt_get_elem bytes_cmp) in E, Hy; [|done..]. congruence.
Qed.

Lemma step_item (forward : bool) it b rows :
  it_rows it = rows → it_key it = Some b →
  it_rows (if forward then it_next it else it_prev it) = rows ∧
  it_item (if forward then it_next it else it_prev it) =
    pick forward (filter (λ e, within forward (Some b) false e.1) rows).
Proof.
  intros Hr Hk. unfold it_key in Hk. destruct (it_item it) as [[k x]|] eqn:E; [|done].
  injection Hk as ->. destruct forward.
  - rewrite rows_next, (item_next _ _ E), Hr. done.
  - rewrite rows_prev, (item_prev _ _ E), Hr. done.
Qed.

Lemma seek_rows (forward : bool) it b rows : it_rows it = rows →
  it_rows (if forward then it_seek it b else it_seek_for_prev it b) = rows ∧
  it_item (if forward then it_seek it b else it_seek_for_prev it b) =
    pick forward (filter (λ e, within forward (Some b) true e.1) rows).
Proof.
  intros <-. destruct forward.
  - by rewrite rows_seek, item_seek.
  - by rewrite rows_seek_for_prev, item_seek_for_prev.
Qed.

Lemma position_seek_spec c it bound forward inclusive rows :
  key_sorted fst rows → it_rows it = rows →
  it_rows (position_seek c it bound forward inclusive) = rows ∧
  it_item (position_seek c it bound forward inclusive) =
    pick forward (filter (λ e, within forward bound inclusive e.1) rows).
Proof.
  intros Hs Hr. unfold position_seek. destruct bound as [b|].
  - set (it1 := if is_some (c_staged c) || _ then _ else it).
    assert (it_rows it1 = rows ∧
      it_item it1 = pick forward (filter (λ e, within forward (Some b) true e.1) rows)) as [Hr1 Hi1].
    { unfold it1. case_bool_decide as Hk; [|rewrite orb_true_r].
      - destruct (is_some (c_staged c)); cbn [orb negb].
        + destruct (seek_rows forward it b rows Hr) as [? ?]. by destruct forward.
        + split; [done|]. apply seek_item; auto.
      - destruct (seek_rows forward it b rows Hr) as [? ?]. by destruct forward. }
    clearbody it1. destruct inclusive; [done|]. cbn [negb is_some andb].
    case_bool_decide as Hk; [by apply step_item|]. split; [done|]. rewrite Hi1. f_equal.
    apply filter_ext_in. intros [k x] Hin. cbn [fst]. rewrite within_incl, within_strict.
    rewrite (cmp_le_lt_eq (dir_cmp forward)). split; [|by left]. intros [?| ->]; [done|].
    exfalso. apply Hk. unfold it_key. rewrite Hi1.
    assert (pick forward (filter (λ e, within forward (Some k) true e.1) rows) = Some (k, x)) as ->; [|done].
    apply (pick_unique fst); [by apply key_sorted_filter|..].
    + apply list_elem_of_filter. split; [cbn; by apply reflexivity|done].
    + intros [k' x'] [Hw Hy]%list_elem_of_filter. cbn in Hw |- *.
      apply (cmp_le_lt_eq (dir_cmp forward)) in Hw as [Hw| ->]; [by right|]. left.
      rewrite <-bt_key_sorted in Hs.
      apply (bt_get_elem bytes_cmp) in Hin, Hy; [|done..]. congruence.
  - rewrite orb_true_r, andb_false_r, filter_all by done. cbn [andb].
    destruct forward.
    + by rewrite rows_seek_to_first, item_seek_to_first, Hr.
    + by rewrite rows_seek_to_last, item_seek_to_last, Hr.
Qed.

Lemma merge_near forward (d : Kv) (s : bytes * option bytes) :
  ((forward && bool_decide (cmp_le bytes_cmp s.1 d.1)) ||
   (negb forward && bool_decide (cmp_le bytes_cmp d.1 s.1))) =
  bool_decide (cmp_le (dir_cmp forward) s.1 d.1).
Proof. destruct forward; cbn; [by rewrite orb_false_r|done]. Qed.

(** The nearest key of both sources, with what is under it. *)
Lemma merge_items_spec forward (B : list Kv) (S : list (bytes * option bytes)) :
  key_sorted fst B → key_sorted fst S →
  match merge_items forward (pick forward B) (pick forward S) with
  | None => B = [] ∧ S = []
  | Some (pk, o) =>
      (pk ∈ B.*1 ∨ pk ∈ S.*1) ∧
      (∀ k, k ∈ B.*1 ∨ k ∈ S.*1 → k = pk ∨ cmp_lt (dir_cmp forward) pk k) ∧
      o = match bt_get bytes_cmp S pk with Some o => o | None => bt_get bytes_cmp B pk end
  end.
Proof.
  intros HB HS.
  pose proof (proj2 (bt_key_sorted _) HB) as HB'. pose proof (proj2 (bt_key_sorted _) HS) as HS'.
  assert (∀ k, k ∈ B.*1 → ∃ x, (k, x) ∈ B) as KB.
  { intros k ([k' x] & -> & H)%list_elem_of_fmap. by exists x. }
  assert (∀ k, k ∈ S.*1 → ∃ x, (k, x) ∈ S) as KS.
  { intros k ([k' x] & -> & H)%list_elem_of_fmap. by exists x. }
  assert (∀ k x, (k, x) ∈ B → k ∈ B.*1) as EB 
    by (intros k x Hx; by apply (list_elem_of_fmap_2' fst _ (k, x))).
  assert (∀ k x, (k, x) ∈ S → k ∈ S.*1) as ES 
    by (intros k x Hx; by apply (list_elem_of_fmap_2' fst _ (k, x))).
  destruct (pick forward B) as [[d dv]|] eqn:Ed.
  - apply (pick_Some fst) in Ed as [Hd Hdm]; [|done].
    destruct (pick forward S) as [[s so]|] eqn:Es.
    + apply (pick_Some fst) in Es as [Hs Hsm]; [|done].
      cbn [merge_items]. rewrite merge_near. cbn [fst snd]. case_bool_decide as Hle.
      * split_and!; [eauto..|].
        -- intros k [[x Hx]%KB|[x Hx]%KS].
           ++ apply Hdm in Hx. cbn in Hx. apply (cmp_le_lt_eq (dir_cmp forward)) in Hle.
              destruct Hle as [Hle| ->]; [|naive_solver].
              right. destruct Hx as [[= -> ->]|Hx]; [done|by etrans].
           ++ apply Hsm in Hx. naive_solver.
        -- apply (bt_get_elem bytes_cmp) in Hs; [|done]. by rewrite Hs.
      * assert (cmp_lt (dir_cmp forward) d s) as Hlt.
        { by apply (cmp_lt_not_le (dir_cmp forward)). }
        split_and!; [eauto..|].
        -- intros k [[x Hx]%KB|[x Hx]%KS].
           ++ apply Hdm in Hx. naive_solver.
           ++ apply Hsm in Hx. cbn in Hx. right. destruct Hx as [[= -> ->]|Hx]; [done|by etrans].
        -- destruct (bt_get bytes_cmp S d) as [o|] eqn:E.
           ++ apply (bt_get_elem bytes_cmp) in E; [|done]. apply Hsm in E. cbn in E.
              exfalso. apply (irreflexivity (cmp_lt (dir_cmp forward)) d).
              destruct E as [[= -> ->]|E]; [done|by etrans].
           ++ apply (bt_get_elem bytes_cmp) in Hd; [|done]. by rewrite Hd.
    + apply pick_None in Es as ->. cbn [merge_items fst snd]. split_and!; [eauto..|].
      * intros k [[x Hx]%KB|Hx]; [|by apply not_elem_of_nil in Hx].
        apply Hdm in Hx. naive_solver.
      * apply (bt_get_elem bytes_cmp) in Hd; [|done]. by rewrite Hd.
  - apply pick_None in Ed as ->. cbn [merge_items].
    destruct (pick forward S) as [[s so]|] eqn:Es.
    + apply (pick_Some fst) in Es as [Hs Hsm]; [|done]. split_and!; [eauto..|].
      * intros k [Hx|[x Hx]%KS]; [by apply not_elem_of_nil in Hx|].
        apply Hsm in Hx. naive_solver.
      * apply (bt_get_elem bytes_cmp) in Hs; [|done]. by rewrite Hs.
    + by apply pick_None in Es as ->.
Qed.

Lemma bt_get_filter {V} (P : bytes → Prop) `{!∀ k, Decision (P k)} (m : list (bytes * V)) k :
  bt_sorted bytes_cmp m → P k →
  bt_get bytes_cmp (filter (λ e, P e.1) m) k = bt_get bytes_cmp m k.
Proof.
  intros Hs Hk. apply option_eq. intros x.
  rewrite (bt_get_elem bytes_cmp) by by apply bt_filter_sorted.
  rewrite (bt_get_elem bytes_cmp), list_elem_of_filter by done. naive_solver.
Qed.

Lemma filter_length_drop {A} (P Q : A → Prop) `{!∀ x, Decision (P x), !∀ x, Decision (Q x)} (l : list A) :
  (∀ x, Q x → P x) → (length (filter Q l) ≤ length (filter P l))%nat.
Proof.
  intros HQ. induction l as [|x l IH]; [done|]. rewrite !filter_cons.
  destruct (decide (Q x)) as [Hx|Hx].
  - rewrite decide_True by auto. cbn. lia.
  - case_decide; cbn; lia.
Qed.

Lemma filter_length_lt {A} (P Q : A → Prop) `{!∀ x, Decision (P x), !∀ x, Decision (Q x)} (l : list A) a :
  (∀ x, Q x → P x) → a ∈ l → P a → ¬ Q a → (length (filter Q l) < length (filter P l))%nat.
Proof.
  intros HQ Ha HP Hn. induction l as [|x l IH]; [by apply not_elem_of_nil in Ha|].
  rewrite !filter_cons. apply elem_of_cons in Ha as [->|Ha].
  - rewrite decide_False, decide_True by done. cbn.
    pose proof (filter_length_drop P Q l HQ). lia.
  - specialize (IH Ha). destruct (decide (Q x)) as [Hx|Hx].
    + rewrite decide_True by auto. cbn. lia.
    + case_decide; cbn; lia.
Qed.

Lemma within_after forward bound inclusive pk k :
  within forward bound inclusive pk → within forward (Some pk) false k → within forward bound inclusive k.
Proof.
  unfold within. destruct bound as [b|]; [|done]. destruct inclusive; intros H1 H2.
  - apply (cmp_le_lt_eq (dir_cmp forward)). left. by eapply (cmp_le_lt_trans (dir_cmp forward)).
  - by etrans.
Qed.

Section position.
Context (c : Cursor) (forward : bool).
Local Abbreviation view := (c_view c).
Local Abbreviation dbi := (c_dbi c).
Local Abbreviation base := (cf_items (v_snapshot view) (cf_name dbi)).
Local Abbreviation sts := (staged_of (physical dbi) (default [] (c_staged c))).
Local Abbreviation rows := (vrows view (c_staged c) dbi).
Context (Hst : staged_sorted (c_staged c)) (Hwf : rows_wf view (c_staged c) dbi).

Lemma staged_pick bound inclusive :
  (s ← c_staged c; staged_item s (physical dbi) bound forward inclusive) =
  pick forward (filter (λ e, within forward bound inclusive e.1) sts).
Proof.
  destruct (c_staged c) as [s|]; cbn; [apply staged_item_pick|]. by destruct forward.
Qed.

Lemma base_sorted : key_sorted fst base.
Proof. apply bt_key_sorted, items_sorted. Qed.

Lemma sts_sorted : key_sorted fst sts.
Proof. apply bt_key_sorted. by apply staged_of_sorted. Qed.

(** [pk] is the first key of both sources in the range. *)
Definition nearest (bound : option bytes) (inclusive : bool) (pk : bytes) : Prop :=
  within forward bound inclusive pk ∧ (pk ∈ base.*1 ∨ pk ∈ sts.*1) ∧
  ∀ k, k ∈ base.*1 ∨ k ∈ sts.*1 → within forward bound inclusive k →
    k = pk ∨ cmp_lt (dir_cmp forward) pk k.

Lemma row_key k kv : (k, kv) ∈ rows → k ∈ base.*1 ∨ k ∈ sts.*1.
Proof.
  intros Hkv. apply elem_of_vrows in Hkv; [|done]. unfold vis in Hkv.
  destruct (phys_get _ _ _ k) eqn:E; [|done]. apply phys_get_keys in E; [|done].
  by apply elem_of_phys_keys.
Qed.

Lemma filter_keys {V} (m : list (bytes * V)) (P : bytes → Prop) `{!∀ k, Decision (P k)} k :
  k ∈ (filter (λ e, P e.1) m).*1 ↔ P k ∧ k ∈ m.*1.
Proof.
  rewrite !list_elem_of_fmap. split.
  - intros ([k' x] & -> & [HP Hk]%list_elem_of_filter). split; [done|]. by exists (k', x).
  - intros [HP ([k' x] & -> & Hk)]. exists (k', x). split; [done|]. by apply list_elem_of_filter.
Qed.

Lemma nearest_skip bound inclusive pk :
  nearest bound inclusive pk → vis view (c_staged c) dbi pk = None →
  filter (λ e, within forward bound inclusive e.1) rows =
  filter (λ e, within forward (Some pk) false e.1) rows.
Proof.
  intros (Hw & _ & Hmin) Hv. apply filter_ext_in. intros [k kv] Hkv. cbn [fst]. split.
  - intros Hwk. destruct (Hmin k (row_key _ _ Hkv) Hwk) as [->|?]; [|done].
    apply elem_of_vrows in Hkv; [|done]. congruence.
  - by apply within_after.
Qed.

Lemma nearest_pick bound inclusive pk kv :
  nearest bound inclusive pk → vis view (c_staged c) dbi pk = Some kv →
  pick forward (filter (λ e, within forward bound inclusive e.1) rows) = Some (pk, kv).
Proof.
  intros (Hw & _ & Hmin) Hv. assert ((pk, kv) ∈ rows) as Hin' by (by apply elem_of_vrows).
  apply (pick_unique fst); [by apply key_sorted_filter, vrows_sorted|by apply list_elem_of_filter|].
  intros [k kv'] [Hwk Hkv]%list_elem_of_filter. cbn [fst] in *.
  destruct (Hmin k (row_key _ _ Hkv) Hwk) as [->|?]; [|by right]. left.
  apply elem_of_vrows in Hkv; [|done]. congruence.
Qed.

(** What the two sources offer together. *)
Lemma merged_nearest bound inclusive :
  match merge_items forward
    (pick forward (filter (λ e, within forward bound inclusive e.1) base))
    (pick forward (filter (λ e, within forward bound inclusive e.1) sts)) with
  | None => filter (λ e, within forward bound inclusive e.1) rows = []
  | Some (pk, o) => nearest bound inclusive pk ∧ o = phys_get view (c_staged c) dbi pk
  end.
Proof.
  pose proof (merge_items_spec forward
    (filter (λ e, within forward bound inclusive e.1) base)
    (filter (λ e, within forward bound inclusive e.1) sts)
    (key_sorted_filter _ _ _ base_sorted) (key_sorted_filter _ _ _ sts_sorted)) as Hm.
  destruct (merge_items _ _ _) as [[pk o]|].
  - destruct Hm as (Hin & Hmin & Ho).
    rewrite !filter_keys in Hin. assert (within forward bound inclusive pk) as Hw by tauto.
    split; [split_and!; [done|tauto|]|].
    + intros k Hk Hwk. apply Hmin. rewrite !filter_keys. tauto.
    + rewrite phys_get_sts, Ho by done.
      rewrite !(bt_get_filter (within forward bound inclusive)); try done.
      * apply items_sorted.
      * by apply staged_of_sorted.
  - destruct Hm as [HB HS]. apply filter_none. intros [k kv] Hkv Hwk. cbn [fst] in Hwk.
    apply row_key in Hkv as [Hk|Hk]; eapply (not_elem_of_nil k).
    + change [] with (@nil Kv).*1. rewrite <-HB. by apply filter_keys.
    + change [] with (@nil (bytes * option bytes)).*1. rewrite <-HS. by apply filter_keys.
Qed.

(** One round of the loop either returns the nearest row or moves past a key
    that has none. *)
Lemma position_step_spec it bound inclusive : it_rows it = base →
  ∃ it', it_rows it' = base ∧
  (position_step c forward (it, bound, inclusive) =
     Ok (inr (it', pick forward (filter (λ e, within forward bound inclusive e.1) rows))) ∨
   ∃ pk, position_step c forward (it, bound, inclusive) = Ok (inl (it', Some pk, false)) ∧
     nearest bound inclusive pk ∧ vis view (c_staged c) dbi pk = None).
Proof.
  intros Hr.
  destruct (position_seek_spec c it bound forward inclusive base base_sorted Hr) as [Hr' Hi].
  exists (position_seek c it bound forward inclusive). split; [done|].
  unfold position_step. rewrite status_ok, Hi, staged_pick. cbn [rocks map_err mbind result_bind].
  pose proof (merged_nearest bound inclusive) as Hm.
  destruct (merge_items _ _ _) as [[pk o]|].
  - destruct Hm as [Hn ->].
    pose proof (nearest_pick bound inclusive pk) as Hpick.
    unfold vis in *. destruct (phys_get view (c_staged c) dbi pk) as [value|] eqn:E.
    + pose proof (Hwf pk value E) as Hok. cbn [mbind option_bind] in *.
      destruct (row_of dbi pk value) as [[kv|]|] eqn:Er; [| |done].
      * left. by rewrite (Hpick kv Hn eq_refl).
      * right. exists pk. split_and!; [done..|]. rewrite E. cbn. by rewrite Er.
    + right. exists pk. split_and!; [done..|]. by rewrite E.
  - left. rewrite Hm. by destruct forward.
Qed.

(** Entries a walk has left to visit. *)
Definition remaining (bound : option bytes) (inclusive : bool) : nat :=
  (length (filter (λ e, within forward bound inclusive e.1) base) +
   length (filter (λ e, within forward bound inclusive e.1) sts))%nat.

Lemma remaining_after bound inclusive pk : nearest bound inclusive pk →
  (remaining (Some pk) false < remaining bound inclusive)%nat.
Proof.
  intros (Hw & Hin & _). unfold remaining.
  assert (∀ k, within forward (Some pk) false k → within forward bound inclusive k) as Hsub.
  { intros k. by apply within_after. }
  assert (¬ within forward (Some pk) false pk) as Hnot by apply (irreflexivity (cmp_lt _)).
  pose proof (filter_length_drop (λ e : Kv, within forward bound inclusive e.1)
    (λ e, within forward (Some pk) false e.1) base (λ e, Hsub e.1)).
  pose proof (filter_length_drop (λ e : bytes * option bytes, within forward bound inclusive e.1)
    (λ e, within forward (Some pk) false e.1) sts (λ e, Hsub e.1)).
  destruct Hin as [([k x] & -> & Hin)%list_elem_of_fmap|([k x] & -> & Hin)%list_elem_of_fmap];
    cbn [fst] in *.
  - pose proof (filter_length_lt (λ e : Kv, within forward bound inclusive e.1)
      (λ e, within forward (Some k) false e.1) base (k, x) (λ e, Hsub e.1) Hin Hw Hnot). lia.
  - pose proof (filter_length_lt (λ e : bytes * option bytes, within forward bound inclusive e.1)
      (λ e, within forward (Some k) false e.1) sts (k, x) (λ e, Hsub e.1) Hin Hw Hnot). lia.
Qed.

Lemma position_loop fuel it bound inclusive :
  it_rows it = base → (remaining bound inclusive < fuel)%nat →
  ∃ it', it_rows it' = base ∧
  loop (position_step c forward) out_of_fuel fuel (it, bound, inclusive) =
    Ok (it', pick forward (filter (λ e, within forward bound inclusive e.1) rows)).
Proof.
  revert it bound inclusive. induction fuel as [|fuel IH]; intros it bound inclusive Hr Hf; [lia|].
  cbn [loop]. destruct (position_step_spec it bound inclusive Hr) as (it' & Hr' & [->|(pk & -> & Hn & Hv)]);
    cbn [mbind result_bind].
  - by exists it'.
  - rewrite (nearest_skip _ _ _ Hn Hv). apply IH; [done|].
    pose proof (remaining_after _ _ _ Hn). lia.
Qed.

Lemma remaining_fuel bound inclusive : (remaining bound inclusive < cursor_fuel c)%nat.
Proof.
  unfold remaining, cursor_fuel.
  pose proof (length_filter (λ e : Kv, within forward bound inclusive e.1) base).
  pose proof (length_filter (λ e : bytes * option bytes, within forward bound inclusive e.1) sts) as H1.
  unfold staged_of in H1 at 2. rewrite length_fmap in H1.
  pose proof (length_filter (λ e : OverlayKey * option bytes, e.1.1 = physical dbi) (default [] (c_staged c))).
  lia.
Qed.

(** The cursor at a row, or where it was. *)
Definition placed (it : RawIter) (r : option (bytes * Kv)) : Cursor :=
  match r with
  | Some (pk, (key, _)) => mkCursor view dbi (c_staged c) it (Some pk) (Some key)
  | None => mkCursor view dbi (c_staged c) it (c_current c) (c_logical_key c)
  end.

(** [position] returns the nearest row in its direction. *)
Lemma position_spec bound inclusive : it_rows (c_it c) = base →
  let r := pick forward (filter (λ e, within forward bound inclusive e.1) rows) in
  ∃ it', it_rows it' = base ∧
    position c bound forward inclusive = Ok (placed it' r, snd <$> r).
Proof.
  intros Hr r. destruct (position_loop (cursor_fuel c) (c_it c) bound inclusive Hr
    (remaining_fuel _ _)) as (it' & Hr' & Hl).
  exists it'. split; [done|]. unfold position. rewrite Hl. cbn [mbind result_bind].
  fold r. by destruct r as [[pk [key val]]|].
Qed.
End position.
End cursor.
