(* ===== verification/DbTable.v ===== *)
(** * The cursor implements LMDB's cursor operations

    A table is the list of its rows in the order of its comparators ([trows]).
    [cursor_spec] says what each operation of the cursor means on that list;
    [Cursor_get] implements it on the merged, byte-ordered and, for tables with
    duplicates, reversed entries.  A scan visits the rows of its range in order. *)

From S2P Require Import Prelude BTreeMap DbKeys DbCodec DbIndex DbTxn DbStore DbCursor.

Local Open Scope Z_scope.

(** ** Rows and their order *)

Definition row_ok (r : Kv) : Prop := bytes_ok r.1 ∧ bytes_ok r.2.

Definition enc (dbi : Z) (r : Kv) : bytes := encode dbi r.1 (dup_of dbi r.2).

(** By key, then by duplicate. *)
Definition lcmp (dbi : Z) (r r' : Kv) : comparison :=
  then_with (key_cmp dbi r.1 r'.1) (if reversed dbi then dup_cmp dbi r.2 r'.2 else Eq).

Lemma enc_sep dbi r r' : row_ok r → row_ok r' →
  sep (rev_if (reversed dbi) (lcmp dbi r r')) (enc dbi r) (enc dbi r').
Proof.
  intros [H1 H2] [H3 H4]. unfold enc, lcmp, dup_of. destruct (reversed dbi) eqn:Hr.
  - pose proof (encode_sep dbi _ _ (Some r.2) (Some r'.2) _ H1 H3 (encode_dup_sep dbi _ _ H2 H4)) as H.
    by rewrite Hr in H.
  - pose proof (encode_sep dbi _ _ None None Eq H1 H3 sep_nil) as H. by rewrite Hr in H.
Qed.

Lemma enc_cmp dbi r r' : row_ok r → row_ok r' →
  bytes_cmp (enc dbi r) (enc dbi r') = rev_if (reversed dbi) (lcmp dbi r r').
Proof. intros. by apply sep_cmp, enc_sep. Qed.

(** The two directions of a table and of its bytes. *)
Definition phys_dir (dbi : Z) (asc : bool) : bool := xorb asc (reversed dbi).

Lemma dir_enc dbi asc r r' : row_ok r → row_ok r' →
  dir_cmp (phys_dir dbi asc) (enc dbi r) (enc dbi r') = rev_if (negb asc) (lcmp dbi r r').
Proof.
  intros Hr Hr'. unfold dir_cmp, phys_dir.
  destruct asc, (reversed dbi) eqn:E; cbn [xorb negb];
    [rewrite (cmp_opp (cmp:=bytes_cmp) (enc dbi r))| |
     |rewrite (cmp_opp (cmp:=bytes_cmp) (enc dbi r))];
    rewrite enc_cmp, E by done; cbn; by destruct (lcmp dbi r r').
Qed.

Lemma enc_inj dbi r r' : row_ok r → row_ok r' → reversed dbi = true ∨ r.2 = r'.2 →
  enc dbi r = enc dbi r' → r = r'.
Proof.
  destruct r as [k v], r' as [k' v']. intros [Hk Hv] [Hk' Hv'] Hor H. cbn in *. unfold enc in H. cbn in H.
  pose proof (decode_encode dbi k v Hk Hv) as H1. pose proof (decode_encode dbi k' v' Hk' Hv') as H2.
  rewrite H in H1. destruct Hor as [Hr| ->]; [|congruence].
  rewrite (decode_reversed _ _ v v') in H1 by done. congruence.
Qed.

(** ** Well-formed tables *)

Definition opt_bytes_ok (o : option bytes) : Prop := ∀ b, o = Some b → bytes_ok b.

(** What the code stores under a physical key. *)
Definition phys_ok (dbi : Z) (pk value : bytes) : Prop :=
  if combined dbi then
    ∃ id r, u64_ok id ∧ pk = record_key id ∧ value = EventRecord_encode r ∧ record_ok r ∧
      opt_bytes_ok (r_packed r) ∧ opt_bytes_ok (r_payload r)
  else
    ∃ r, row_ok r ∧ pk = enc dbi r ∧ value = if reversed dbi then [] else r.2.

Definition component (dbi : Z) (r : EventRecord) : option bytes :=
  if dbi =? 3 then r_packed r else r_payload r.

Lemma combined_cases dbi : combined dbi = true → dbi = 3 ∨ dbi = 15.
Proof. unfold combined. rewrite orb_true_iff, !Z.eqb_eq. done. Qed.

Lemma combined_enc dbi id v : combined dbi = true → u64_ok id →
  enc dbi (to_ne_bytes id, v) = record_key id ∧ reversed dbi = false ∧ has_flag dbi MDB_DUPSORT = false.
Proof.
  intros Hc Hid. unfold enc, encode, dup_of, key_prefix, record_key.
  assert (length (to_ne_bytes id) = 8%nat) as H8 by apply length_to_ne_bytes.
  destruct (combined_cases _ Hc) as [->| ->].
  - change (reversed 3) with false. change (dbi_comparator (spec 3)) with CmpDefault.
    change (has_flag 3 MDB_INTEGERKEY) with true. cbn [key_ints Nat.eqb negb fst encode_dup].
    rewrite decide_True, app_nil_r, from_to_ne_bytes by done. done.
  - change (reversed 15) with false. change (dbi_comparator (spec 15)) with CmpDefault.
    change (has_flag 15 MDB_INTEGERKEY) with true. cbn [key_ints Nat.eqb negb fst encode_dup].
    rewrite decide_True, app_nil_r, from_to_ne_bytes by done. done.
Qed.

Lemma row_ok_ne id v : bytes_ok v → row_ok (to_ne_bytes id, v).
Proof. intros Hv. split; [apply to_le_bytes_ok|done]. Qed.

Lemma row_of_combined dbi id r : combined dbi = true → u64_ok id → record_ok r →
  row_of dbi (record_key id) (EventRecord_encode r) =
  Ok (v ← component dbi r; Some (to_ne_bytes id, v)).
Proof.
  intros Hc Hid Hr. unfold row_of. rewrite Hc.
  destruct (combined_enc dbi id [] Hc Hid) as (<- & Hrev & Hd).
  pose proof (decode_encode dbi (to_ne_bytes id) [] (to_le_bytes_ok _ _) (Forall_nil_2 _)) as Hdec.
  unfold enc. cbn [fst snd]. rewrite Hdec. cbn [mbind result_bind].
  rewrite parts_encode by done. cbn [mbind result_bind]. unfold component.
  destruct (dbi =? 3); [by destruct (r_packed r)|by destruct (r_payload r)].
Qed.

Lemma row_of_plain dbi r : combined dbi = false → row_ok r →
  row_of dbi (enc dbi r) (if reversed dbi then [] else r.2) = Ok (Some r).
Proof.
  intros Hc [Hk Hv]. unfold row_of, enc. rewrite Hc.
  pose proof (decode_encode dbi r.1 r.2 Hk Hv) as H.
  destruct (reversed dbi) eqn:Hr; [rewrite (decode_reversed _ _ [] r.2) by done|];
    rewrite H; by destruct r.
Qed.

(** An entry holds at most one row of the table, and is at its place. *)
Lemma row_of_ok dbi pk value : phys_ok dbi pk value →
  ∃ o, row_of dbi pk value = Ok o ∧ ∀ r, o = Some r → row_ok r ∧ pk = enc dbi r.
Proof.
  unfold phys_ok. destruct (combined dbi) eqn:Hc.
  - intros (id & rec & Hid & -> & -> & Hrec & Hp & Hl). rewrite row_of_combined by done.
    eexists. split; [done|]. intros r. unfold component.
    destruct (dbi =? 3) eqn:E3; [destruct (r_packed rec) as [b|] eqn:Eb|destruct (r_payload rec) as [b|] eqn:Eb];
      cbn; try done; intros [= <-]; (split; [by apply row_ok_ne; auto|]);
      symmetry; by apply combined_enc.
  - intros (r & Hr & -> & ->). rewrite row_of_plain by done.
    eexists. split; [done|]. by intros ? [= <-].
Qed.

Lemma StronglySorted_reverse {A} (R : relation A) l :
  StronglySorted R l → StronglySorted (flip R) (reverse l).
Proof.
  induction 1 as [|x l Hs IH Hf]; [constructor|]. rewrite reverse_cons.
  apply StronglySorted_app_2; [|done|by repeat constructor].
  intros a b Ha [->|Hb]%elem_of_cons; [|by apply not_elem_of_nil in Hb].
  rewrite elem_of_reverse in Ha.
  eapply Forall_forall in Hf; [exact Hf|done].
Qed.

Lemma StronglySorted_fmap_in {A B} (f : A → B) (R1 : relation A) (R2 : relation B) l :
  (∀ x y, x ∈ l → y ∈ l → R1 x y → R2 (f x) (f y)) →
  StronglySorted R1 l → StronglySorted R2 (f <$> l).
Proof.
  intros Hf Hs. induction Hs as [|x l Hs IH Ha]; [constructor|]. rewrite fmap_cons. constructor.
  - apply IH. intros y z Hy Hz. apply Hf; by right.
  - rewrite Forall_fmap. apply Forall_forall. intros y Hy. cbn.
    apply Hf; [left|by right|]. by eapply Forall_forall in Ha.
Qed.

Lemma filter_fmap_comp {A B} (f : A → B) (P : B → Prop) `{!∀ y, Decision (P y)} (l : list A) :
  filter P (f <$> l) = f <$> filter (λ x, P (f x)) l.
Proof.
  induction l as [|x l IH]; [done|]. rewrite fmap_cons, !filter_cons.
  case_decide; [by rewrite fmap_cons, IH|done].
Qed.

Lemma pick_reverse {A} forward (l : list A) : pick forward (reverse l) = pick (negb forward) l.
Proof. destruct forward; cbn; [apply head_reverse|apply last_reverse]. Qed.

Section table.
Context `{RL : RocksLaws}.

Definition table_wf (v : View) (staged : option Overlay) (dbi : Z) : Prop :=
  ∀ pk value, phys_get v staged dbi pk = Some value → phys_ok dbi pk value.

Lemma table_rows_wf v staged dbi : table_wf v staged dbi → rows_wf v staged dbi.
Proof. intros H pk value Hp. by destruct (row_of_ok _ _ _ (H _ _ Hp)) as (o & -> & _). Qed.

(** The rows of a table in its own order. *)
Definition trows (v : View) (staged : option Overlay) (dbi : Z) : list Kv :=
  snd <$> (if reversed dbi then reverse (vrows v staged dbi) else vrows v staged dbi).

Section rows.
Context (v : View) (staged : option Overlay) (dbi : Z).
Context (Hst : staged_sorted staged) (Hwf : table_wf v staged dbi).
Local Abbreviation L := (trows v staged dbi).

Lemma vis_enc pk r : vis v staged dbi pk = Some r → row_ok r ∧ pk = enc dbi r.
Proof.
  unfold vis. destruct (phys_get v staged dbi pk) as [value|] eqn:E; [|done]. cbn.
  destruct (row_of_ok _ _ _ (Hwf _ _ E)) as (o & -> & H). apply H.
Qed.

Lemma elem_of_trows r : r ∈ L ↔ vis v staged dbi (enc dbi r) = Some r.
Proof.
  unfold trows. rewrite list_elem_of_fmap. rewrite <-elem_of_vrows by done. split.
  - intros ([pk r'] & -> & H). cbn [snd].
    assert ((pk, r') ∈ vrows v staged dbi) as H' by (destruct (reversed dbi); [by rewrite elem_of_reverse in H|done]).
    pose proof H' as Hv. apply elem_of_vrows in Hv; [|done].
    apply vis_enc in Hv as [_ Hpk]. by rewrite <-Hpk.
  - intros H. exists (enc dbi r, r). split; [done|].
    destruct (reversed dbi); [by apply elem_of_reverse|done].
Qed.

Lemma trows_ok r : r ∈ L → row_ok r.
Proof. rewrite elem_of_trows. by intros [? _]%vis_enc. Qed.

Lemma trows_sorted : StronglySorted (λ r r', lcmp dbi r r' = Lt) L.
Proof.
  assert (∀ pk r, (pk, r) ∈ vrows v staged dbi → row_ok r ∧ pk = enc dbi r) as Henc.
  { intros pk r H. apply elem_of_vrows in H; [|done]. by apply vis_enc. }
  pose proof (vrows_sorted v staged dbi) as Hs. unfold key_sorted in Hs. unfold trows.
  destruct (reversed dbi) eqn:Hr.
  - apply StronglySorted_reverse in Hs. eapply StronglySorted_fmap_in; [|exact Hs].
    intros [pk r] [pk' r'] H H'. rewrite elem_of_reverse in H, H'. unfold flip, cmp_lt. cbn [fst snd].
    apply Henc in H as [Ho ->], H' as [Ho' ->].
    rewrite (cmp_opp (cmp:=bytes_cmp) (enc dbi r)), enc_cmp, Hr by done. cbn.
    by destruct (lcmp dbi r r').
  - eapply StronglySorted_fmap_in; [|exact Hs].
    intros [pk r] [pk' r'] H H'. unfold cmp_lt. cbn [fst snd].
    apply Henc in H as [Ho ->], H' as [Ho' ->]. by rewrite enc_cmp, Hr by done.
Qed.

(** The nearest row of a walk, read from the table in its own order. *)
Lemma pick_trows asc bound inclusive :
  snd <$> pick (phys_dir dbi asc) (filter (λ e, within (phys_dir dbi asc) bound inclusive e.1)
            (vrows v staged dbi)) =
  pick asc (filter (λ r, within (phys_dir dbi asc) bound inclusive (enc dbi r)) L).
Proof.
  assert (filter (λ r, within (phys_dir dbi asc) bound inclusive (enc dbi r)) L =
    snd <$> filter (λ e, within (phys_dir dbi asc) bound inclusive e.1)
              (if reversed dbi then reverse (vrows v staged dbi) else vrows v staged dbi)) as ->.
  { unfold trows. rewrite filter_fmap_comp. f_equal. apply filter_ext_in. intros [pk r] H.
    assert ((pk, r) ∈ vrows v staged dbi) as H' by (destruct (reversed dbi); [by rewrite elem_of_reverse in H|done]).
    apply elem_of_vrows in H'; [|done]. apply vis_enc in H' as [_ ->]. done. }
  rewrite pick_fmap. f_equal. unfold phys_dir. destruct (reversed dbi).
  - rewrite filter_reverse, pick_reverse. by destruct asc.
  - by destruct asc.
Qed.
End rows.
End table.

(** ** Bounds made of a key without a duplicate *)

Lemma escape_ok k : bytes_ok k → bytes_ok (escape k).
Proof.
  unfold escape. intros Hk. apply Forall_app. split; [|repeat constructor; unfold byte_ok; lia].
  induction Hk as [|b k Hb Hk IH]; [constructor|]. rewrite bind_cons. apply Forall_app. split; [|done].
  unfold escape_byte. case_match; repeat constructor; unfold byte_ok in *; lia.
Qed.

Lemma to_be_bytes_ok n v : bytes_ok (to_be_bytes n v).
Proof. unfold to_be_bytes. apply Forall_rev, to_le_bytes_ok. Qed.

Lemma chunks_be_ok n b : bytes_ok (chunks_be n b).
Proof.
  revert b. induction n as [|n IH]; intros b; cbn [chunks_be]; [constructor|].
  apply Forall_app. split; [apply to_be_bytes_ok|apply IH].
Qed.

Lemma byte_cons_ok b l : (b = 0 ∨ b = 1) → bytes_ok l → bytes_ok (b :: l).
Proof. intros [->| ->] Hl; constructor; try done; unfold byte_ok; lia. Qed.

#[local] Hint Resolve escape_ok to_be_bytes_ok chunks_be_ok : core.

Lemma encode_ok dbi k d : bytes_ok k → opt_bytes_ok d → bytes_ok (encode dbi k d).
Proof.
  intros Hk Hd. unfold encode.
  assert (bytes_ok (key_prefix dbi k ++ encode_dup dbi d)) as H; [|destruct (reversed dbi); [by apply not8_ok|done]].
  apply Forall_app. split.
  - unfold key_prefix, split_tail. repeat case_match; try apply byte_cons_ok; auto using Forall_rev.
    all: apply Forall_app; split; auto. apply escape_ok. by apply Forall_take.
  - unfold encode_dup. destruct d as [d|]; [|constructor]. specialize (Hd d eq_refl).
    repeat case_match; try apply byte_cons_ok; auto; cbn; try apply byte_cons_ok; auto.
Qed.

(** [x] is less than [p] or begins with it. *)
Fixpoint under (x p : bytes) : bool :=
  match p, x with
  | [], _ | _, [] => true
  | b :: p, y :: x => (y <? b) || ((y =? b) && under x p)
  end.

Lemma under_spec x p : under x p = true ↔ bytes_cmp x p = Lt ∨ p `prefix_of` x.
Proof.
  revert p. induction x as [|y x IH]; intros [|b p]; cbn.
  - split; [right; apply prefix_nil|done].
  - split; [by left|done].
  - split; [right; apply prefix_nil|done].
  - rewrite orb_true_iff, andb_true_iff, Z.ltb_lt, Z.eqb_eq, IH. unfold then_with.
    destruct (Z.compare_spec y b) as [->|H|H].
    + split.
      * intros [?|[_ [?|?]]]; [lia|by left|right; by apply prefix_cons].
      * intros [?|?%prefix_cons_inv_2]; auto.
    + naive_solver.
    + split; [naive_solver lia|]. intros [?|?%prefix_cons_inv_1]; [done|lia].
Qed.

Lemma under_snoc_255 x p : bytes_ok x → under x (p ++ [255]) = under x p.
Proof.
  intros Hx. revert p. induction Hx as [|y x Hy Hx IH]; intros [|b p]; cbn; try done.
  - unfold byte_ok in Hy. rewrite orb_true_iff, andb_true_iff, Z.ltb_lt, Z.eqb_eq.
    destruct (Z.eq_dec y 255); [right; destruct x|left]; lia || done.
  - by rewrite IH.
Qed.

Lemma under_snoc_succ x p b : bytes_cmp x (p ++ [b + 1]) = Lt ↔ under x (p ++ [b]) = true.
Proof.
  revert p. induction x as [|y x IH]; intros [|c p]; cbn; try done.
  - rewrite orb_true_iff, andb_true_iff, Z.ltb_lt, Z.eqb_eq. unfold then_with.
    destruct (Z.compare_spec y (b + 1)) as [->|H|H].
    + split; [by destruct x|lia].
    + split; [|done]. intros _. destruct (Z.eq_dec y b); [right; destruct x|left]; lia || done.
    + split; [done|lia].
  - rewrite orb_true_iff, andb_true_iff, Z.ltb_lt, Z.eqb_eq, <-IH. unfold then_with.
    destruct (Z.compare_spec y c); naive_solver lia.
Qed.

Lemma successor_snoc p b :
  successor (p ++ [b]) = if b =? 255 then successor p else Some (p ++ [b + 1]).
Proof.
  unfold successor. rewrite rev_app_distr. cbn. case_match; [done|]. by rewrite rev_involutive.
Qed.

(** The successor of a prefix bounds the strings under it. *)
Lemma successor_under x p : bytes_ok x →
  match successor p with
  | Some s => bytes_cmp x s = Lt ↔ under x p = true
  | None => under x p = true
  end.
Proof.
  intros Hx. induction p as [|b p IH] using rev_ind; [by destruct x|].
  rewrite successor_snoc. destruct (Z.eqb_spec b 255) as [->|Hb].
  - by rewrite under_snoc_255.
  - apply under_snoc_succ.
Qed.

(** How the bound of key [k0] lies to the key of a row, in physical order. *)
Definition key_side (dbi : Z) (k0 : bytes) (r : Kv) : comparison :=
  rev_if (reversed dbi) (key_cmp dbi k0 r.1).

Lemma enc_prefix dbi r : ∃ t, enc dbi r = encode dbi r.1 None ++ t.
Proof.
  unfold enc, encode, dup_of. destruct (reversed dbi).
  - exists (not8 <$> encode_dup dbi (Some r.2)). cbn [encode_dup]. by rewrite app_nil_r, fmap_app.
  - exists []. symmetry. apply app_nil_r.
Qed.

Lemma key_bound_cmp dbi k0 r : bytes_ok k0 → row_ok r → ∃ t,
  bytes_cmp (encode dbi k0 None) (enc dbi r) = then_with (key_side dbi k0 r) (bytes_cmp [] t).
Proof.
  intros Hk [Hr _]. destruct (enc_prefix dbi r) as [t Ht]. exists t.
  pose proof (encode_sep dbi k0 r.1 None None Eq Hk Hr sep_nil) as H.
  specialize (H [] t). rewrite app_nil_r, <-Ht in H. rewrite H. unfold key_side.
  by destruct (key_cmp dbi k0 r.1), (reversed dbi).
Qed.

Lemma bound_le dbi k0 r : bytes_ok k0 → row_ok r →
  within true (Some (encode dbi k0 None)) true (enc dbi r) ↔ key_side dbi k0 r ≠ Gt.
Proof.
  intros Hk Hr. unfold within, cmp_le, dir_cmp. destruct (key_bound_cmp dbi k0 r Hk Hr) as [t ->].
  by destruct (key_side dbi k0 r), t.
Qed.

Lemma bound_gt dbi k0 r : bytes_ok k0 → row_ok r →
  within false (Some (encode dbi k0 None)) false (enc dbi r) ↔ key_side dbi k0 r = Gt.
Proof.
  intros Hk Hr. unfold within, cmp_lt, dir_cmp.
  rewrite (cmp_opp (cmp:=bytes_cmp) (encode dbi k0 None)).
  destruct (key_bound_cmp dbi k0 r Hk Hr) as [t ->]. by destruct (key_side dbi k0 r), t.
Qed.

Lemma under_key dbi k0 r : bytes_ok k0 → row_ok r →
  under (enc dbi r) (encode dbi k0 None) = true ↔ key_side dbi k0 r ≠ Lt.
Proof.
  intros Hk Hr. rewrite under_spec, (cmp_opp (cmp:=bytes_cmp) (encode dbi k0 None)).
  destruct (key_bound_cmp dbi k0 r Hk Hr) as [t E]. rewrite E.
  pose proof (encode_sep dbi k0 r.1 None None Eq Hk (proj1 Hr) sep_nil) as Hs.
  assert (then_with (key_cmp dbi k0 r.1) Eq = key_cmp dbi k0 r.1) as Htw by (by destruct (key_cmp _ _ _)).
  rewrite Htw in Hs. fold (key_side dbi k0 r) in Hs.
  destruct (enc_prefix dbi r) as [t' Ht]. destruct (key_side dbi k0 r) eqn:Ek; cbn [then_with CompOpp].
  - split; [done|]. intros _. right. apply sep_eq in Hs as ->. by exists t'.
  - split; [|done]. intros [H|[z Hz]]; [done|]. specialize (Hs z t'). rewrite <-Hz, <-Ht in Hs.
    by rewrite (cmp_refl bytes_cmp) in Hs.
  - naive_solver.
Qed.

Lemma bound_succ_lt dbi k0 r : bytes_ok k0 → row_ok r →
  within false (successor (encode dbi k0 None)) false (enc dbi r) ↔ key_side dbi k0 r ≠ Lt.
Proof.
  intros Hk Hr. rewrite <-under_key by done.
  assert (bytes_ok (enc dbi r)) as Hx.
  { apply encode_ok; [apply Hr|]. unfold dup_of. destruct (reversed dbi); [|done].
    intros b [= <-]. apply Hr. }
  pose proof (successor_under _ (encode dbi k0 None) Hx) as H.
  destruct (successor _) as [s|]; [|by rewrite H]. exact H.
Qed.

Lemma bound_succ_ge dbi k0 r s : bytes_ok k0 → row_ok r → successor (encode dbi k0 None) = Some s →
  within true (Some s) true (enc dbi r) ↔ key_side dbi k0 r = Lt.
Proof.
  intros Hk Hr Hs. pose proof (bound_succ_lt dbi k0 r Hk Hr) as H. rewrite Hs in H.
  unfold within, dir_cmp in *. change (within true (Some s) true (enc dbi r)) with (cmp_le bytes_cmp s (enc dbi r)).
  destruct (key_side dbi k0 r); unfold cmp_le, cmp_lt in *;
    rewrite (cmp_opp (cmp:=bytes_cmp) (enc dbi r) s) in *; destruct (bytes_cmp (enc dbi r) s); cbn in *; naive_solver.
Qed.

Lemma no_successor dbi k0 r : bytes_ok k0 → row_ok r → successor (encode dbi k0 None) = None →
  key_side dbi k0 r ≠ Lt.
Proof. intros Hk Hr Hs. rewrite <-bound_succ_lt, Hs by done. done. Qed.

(** A bound that is a row. *)
Lemma bound_row dbi asc r0 inclusive r : row_ok r0 → row_ok r →
  within (phys_dir dbi asc) (Some (enc dbi r0)) inclusive (enc dbi r) ↔
  if inclusive then rev_if (negb asc) (lcmp dbi r0 r) ≠ Gt else rev_if (negb asc) (lcmp dbi r0 r) = Lt.
Proof.
  intros H0 Hr. unfold within, cmp_le, cmp_lt. by rewrite !dir_enc.
Qed.

(** ** The order of keys *)

Lemma key_cmp_prefix dbi a b : bytes_ok a → bytes_ok b →
  key_cmp dbi a b = bytes_cmp (key_prefix dbi a) (key_prefix dbi b).
Proof. intros Ha Hb. symmetry. by apply sep_cmp, key_prefix_sep. Qed.

Lemma key_prefix_inj dbi a b : bytes_ok a → bytes_ok b →
  key_prefix dbi a = key_prefix dbi b → a = b.
Proof.
  intros Ha Hb H. pose proof (decode_key_prefix dbi a [] Ha) as H1.
  rewrite H, (decode_key_prefix dbi b [] Hb) in H1. congruence.
Qed.

Lemma key_cmp_eq dbi a b : bytes_ok a → bytes_ok b → key_cmp dbi a b = Eq ↔ a = b.
Proof.
  intros Ha Hb. rewrite key_cmp_prefix by done. rewrite (cmp_eq_iff (cmp:=bytes_cmp)).
  split; [by apply key_prefix_inj|by intros ->].
Qed.

Lemma key_cmp_opp dbi a b : bytes_ok a → bytes_ok b → key_cmp dbi b a = CompOpp (key_cmp dbi a b).
Proof. intros Ha Hb. rewrite !key_cmp_prefix by done. apply (cmp_opp (cmp:=bytes_cmp)). Qed.

Lemma lcmp_opp dbi r r' : row_ok r → row_ok r' → lcmp dbi r' r = CompOpp (lcmp dbi r r').
Proof.
  intros Hr Hr'. pose proof (enc_cmp dbi r r' Hr Hr') as H. pose proof (enc_cmp dbi r' r Hr' Hr) as H'.
  rewrite (cmp_opp (cmp:=bytes_cmp) (enc dbi r)), H in H'.
  by destruct (reversed dbi), (lcmp dbi r r'), (lcmp dbi r' r).
Qed.

Lemma lcmp_refl dbi r : row_ok r → lcmp dbi r r = Eq.
Proof.
  intros Hr. pose proof (enc_cmp dbi r r Hr Hr) as H. rewrite (cmp_refl bytes_cmp) in H.
  by destruct (reversed dbi), (lcmp dbi r r).
Qed.

Lemma lcmp_key dbi r r' : lcmp dbi r r' = Lt → key_cmp dbi r.1 r'.1 ≠ Gt.
Proof. unfold lcmp. by destruct (key_cmp dbi r.1 r'.1). Qed.

Lemma lcmp_same_key dbi r r' : row_ok r → r.1 = r'.1 →
  lcmp dbi r r' = if reversed dbi then dup_cmp dbi r.2 r'.2 else Eq.
Proof.
  intros [Hr _] E. unfold lcmp. rewrite <-E. by rewrite (proj2 (key_cmp_eq dbi r.1 r.1 Hr Hr)).
Qed.

(** ** Narrowing a walk *)

Definition sorted_by {A} (R : A → A → Prop) (asc : bool) (x y : A) : Prop :=
  if asc then R x y else R y x.

Lemma pick_sorted {A} (R : relation A) asc l x y :
  StronglySorted R l → pick asc l = Some x → y ∈ l → y = x ∨ sorted_by R asc x y.
Proof.
  intros Hs. destruct asc; cbn.
  - destruct l as [|a l]; [done|]. apply StronglySorted_inv in Hs as [_ Hf]. intros [= ->].
    intros [->|Hy]%elem_of_cons; [by left|]. right. rewrite Forall_forall in Hf. by apply Hf.
  - induction Hs as [|a l Hs IH Hf]; [done|]. intros [[-> ->]|Hl]%last_cons_Some Hy.
    + apply elem_of_cons in Hy as [->|Hy]; [by left|]. by apply not_elem_of_nil in Hy.
    + apply elem_of_cons in Hy as [->|Hy]; [|by apply IH]. right.
      rewrite Forall_forall in Hf. by apply Hf, last_Some_elem_of.
Qed.

Lemma StronglySorted_filter_1 {A} (R : relation A) (P : A → Prop) `{!∀ x, Decision (P x)} (l : list A) :
  StronglySorted R l → StronglySorted R (filter P l).
Proof.
  induction 1 as [|a l Hs IH Hf]; [constructor|]. rewrite filter_cons. case_decide; [|done].
  constructor; [done|]. apply Forall_forall. intros y [_ Hy]%list_elem_of_filter.
  by eapply Forall_forall in Hf.
Qed.

Lemma pick_elem {A} asc (l : list A) x : pick asc l = Some x → x ∈ l.
Proof. destruct asc; [apply head_Some_elem_of|apply last_Some_elem_of]. Qed.

(** When the rows wanted come first among those a walk returns, the first row,
    kept if wanted, is the first wanted row. *)
Lemma pick_narrow {A} (R : relation A) (P Q : A → Prop) `{!∀ x, Decision (P x), !∀ x, Decision (Q x)} asc (l : list A) :
  StronglySorted R l → (∀ x, x ∈ l → P x → Q x) →
  (∀ x y, x ∈ l → y ∈ l → sorted_by R asc x y → Q x → P y → P x) →
  (x ← pick asc (filter Q l); if decide (P x) then Some x else None) = pick asc (filter P l).
Proof.
  assert (∀ (R : relation A) l, StronglySorted R l → (∀ x, x ∈ l → P x → Q x) →
    (∀ x y, x ∈ l → y ∈ l → R x y → Q x → P y → P x) →
    (x ← head (filter Q l); if decide (P x) then Some x else None) = head (filter P l)) as Hhead.
  { clear R l. intros R l Hs. induction Hs as [|a l Hs IH Hf]; intros HPQ Hc; [done|].
    rewrite !filter_cons. destruct (decide (Q a)) as [Hq|Hq]; cbn.
    - case_decide as Hp; [done|]. symmetry. apply head_None, filter_none. intros y Hy Hpy.
      apply Hp, (Hc a y); [left|by right|by eapply Forall_forall in Hf|done..].
    - rewrite decide_False by (intros Hp; apply Hq, HPQ; [left|done]).
      apply IH; [intros x Hx; apply HPQ; by right|]. intros x y Hx Hy. apply Hc; by right. }
  intros Hs HPQ Hc. destruct asc; cbn; [by apply (Hhead R)|].
  rewrite <-!head_reverse, <-!filter_reverse. apply (Hhead (flip R)).
  - by apply StronglySorted_reverse.
  - intros x. rewrite elem_of_reverse. apply HPQ.
  - intros x y. rewrite !elem_of_reverse. apply Hc.
Qed.

(** ** The operations *)

(** What an operation means on the rows [L] of a table, at the row [at_].  It is
    what LMDB documents, apart from the operations on duplicates in a table
    without duplicates: there LMDB reports an error, the code finds nothing. *)
Definition cursor_spec (dbi : Z) (L : list Kv) (at_ : option Kv) (key val : option bytes)
    (op : CursorOp) : result DbError (option Kv) :=
  match op with
  | MDB_FIRST => Ok (head L)
  | MDB_LAST => Ok (last L)
  | MDB_NEXT => Ok (match at_ with
      | Some r0 => head (filter (λ r, lcmp dbi r0 r = Lt) L)
      | None => head L
      end)
  | MDB_PREV => Ok (match at_ with
      | Some r0 => last (filter (λ r, lcmp dbi r r0 = Lt) L)
      | None => last L
      end)
  | MDB_GET_CURRENT => Ok at_
  | MDB_SET | MDB_SET_KEY =>
      k ← ok_or key (rocks_msg "missing seek key");
      Ok (head (filter (λ r, r.1 = k) L))
  | MDB_SET_RANGE =>
      k ← ok_or key (rocks_msg "missing seek key");
      Ok (head (filter (λ r, key_cmp dbi k r.1 ≠ Gt) L))
  | MDB_GET_BOTH =>
      k ← ok_or key (rocks_msg "missing seek key");
      v ← ok_or val (rocks_msg "missing seek duplicate");
      Ok (if reversed dbi then head (filter (λ r, r.1 = k ∧ r.2 = v) L) else None)
  | MDB_GET_BOTH_RANGE =>
      k ← ok_or key (rocks_msg "missing seek key");
      v ← ok_or val (rocks_msg "missing seek duplicate");
      Ok (if reversed dbi then head (filter (λ r, r.1 = k ∧ dup_cmp dbi v r.2 ≠ Gt) L) else None)
  | MDB_NEXT_DUP => Ok (r0 ← at_; head (filter (λ r, r.1 = r0.1 ∧ lcmp dbi r0 r = Lt) L))
  | MDB_PREV_DUP => Ok (r0 ← at_; last (filter (λ r, r.1 = r0.1 ∧ lcmp dbi r r0 = Lt) L))
  | MDB_FIRST_DUP => Ok (r0 ← at_; head (filter (λ r, r.1 = r0.1) L))
  | MDB_LAST_DUP => Ok (r0 ← at_; last (filter (λ r, r.1 = r0.1) L))
  | MDB_NEXT_NODUP => Ok (match at_ with
      | Some r0 => head (filter (λ r, key_cmp dbi r0.1 r.1 = Lt) L)
      | None => head L
      end)
  | MDB_PREV_NODUP => Ok (match at_ with
      | Some r0 => last (filter (λ r, key_cmp dbi r0.1 r.1 = Gt) L)
      | None => last L
      end)
  | MDB_OTHER => Err (rocks_msg "unsupported cursor operation")
  end.

Section ops.
Context `{RL : RocksLaws}.

Definition crows (c : Cursor) : list Kv := trows (c_view c) (c_staged c) (c_dbi c).

(** A cursor over well-formed entries, at the row [at_] or not placed yet. *)
Definition cursor_wf (c : Cursor) (at_ : option Kv) : Prop :=
  staged_sorted (c_staged c) ∧ table_wf (c_view c) (c_staged c) (c_dbi c) ∧
  it_rows (c_it c) = cf_items (v_snapshot (c_view c)) (cf_name (c_dbi c)) ∧
  match at_ with
  | Some r => r ∈ crows c ∧ c_current c = Some (enc (c_dbi c) r) ∧ c_logical_key c = Some r.1
  | None => c_current c = None ∧ c_logical_key c = None
  end.

Definition same_table (c c' : Cursor) : Prop :=
  c_view c' = c_view c ∧ c_dbi c' = c_dbi c ∧ c_staged c' = c_staged c.

(** An operation has returned [o]. *)
Definition returns (c : Cursor) (at_ : option Kv) (m : result DbError (Cursor * option Kv))
    (o : option Kv) : Prop :=
  ∃ c', m = Ok (c', o) ∧ same_table c c' ∧
    cursor_wf c' (match o with Some _ => o | None => at_ end).

Section one.
Context (c : Cursor) (at_ : option Kv) (Hc : cursor_wf c at_).
Local Abbreviation dbi := (c_dbi c).
Local Abbreviation L := (crows c).

Lemma crows_ok r : r ∈ L → row_ok r.
Proof. destruct Hc as (Hst & Hwf & _). by apply trows_ok. Qed.

Lemma position_returns bound asc inclusive P `{!∀ r, Decision (P r)} :
  (∀ r, r ∈ L → within (phys_dir dbi asc) bound inclusive (enc dbi r) ↔ P r) →
  returns c at_ (position c bound (phys_dir dbi asc) inclusive) (pick asc (filter P L)).
Proof.
  intros HP. destruct Hc as (Hst & Hwf & Hit & Hat).
  destruct (position_spec c (phys_dir dbi asc) Hst (table_rows_wf _ _ _ Hwf) bound inclusive Hit)
    as (it' & Hit' & Hp).
  assert (filter P L = filter (λ r, within (phys_dir dbi asc) bound inclusive (enc dbi r)) L) as ->.
  { apply filter_ext_in. intros r Hr. symmetry. by apply HP. }
  unfold crows. rewrite <-pick_trows by done. rewrite Hp.
  set (r := pick _ _) in *. eexists. split; [done|].
  assert (∀ e, r = Some e → e ∈ vrows (c_view c) (c_staged c) dbi) as Hin.
  { intros e He. assert (e ∈ filter (λ e, within (phys_dir dbi asc) bound inclusive e.1)
      (vrows (c_view c) (c_staged c) dbi)) as Hf.
    { unfold r, pick in He. destruct (phys_dir dbi asc);
        [by apply head_Some_elem_of in He|by apply last_Some_elem_of in He]. }
    by apply list_elem_of_filter in Hf as [_ Hf]. }
  destruct r as [[pk [k x]]|]; (split; [done|]); unfold cursor_wf;
    cbn [placed fmap option_fmap option_map snd c_dbi c_view c_staged c_current c_logical_key c_it fst];
    split_and!; try done.
  - specialize (Hin _ eq_refl). apply elem_of_vrows in Hin; [|done].
    unfold crows. cbn [c_dbi c_view c_staged]. rewrite elem_of_trows by done.
    by pose proof (vis_enc _ _ _ Hwf _ _ Hin) as [_ <-].
  - specialize (Hin _ eq_refl). apply elem_of_vrows in Hin; [|done].
    by pose proof (vis_enc _ _ _ Hwf _ _ Hin) as [_ <-].
Qed.

Lemma key_edge_returns k first : bytes_ok k →
  returns c at_ (key_edge c k first)
    (pick first (filter (λ r, rev_if (negb first) (key_cmp dbi k r.1) ≠ Gt) L)).
Proof.
  intros Hk. unfold key_edge.
  assert (∀ r, r ∈ L → row_ok r) as Hok by apply crows_ok.
  destruct first, (reversed dbi) eqn:Hr; cbn [Bool.eqb negb].
  - replace false with (phys_dir dbi true) at 1 by (unfold phys_dir; by rewrite Hr).
    apply position_returns. intros r Hin. unfold phys_dir. rewrite Hr. cbn [xorb].
    rewrite bound_succ_lt by auto. unfold key_side. rewrite Hr. by destruct (key_cmp dbi k r.1).
  - replace true with (phys_dir dbi true) at 1 by (unfold phys_dir; by rewrite Hr).
    apply position_returns. intros r Hin. unfold phys_dir. rewrite Hr. cbn [xorb].
    rewrite bound_le by auto. unfold key_side. by rewrite Hr.
  - replace true with (phys_dir dbi false) at 1 by (unfold phys_dir; by rewrite Hr).
    apply position_returns. intros r Hin. unfold phys_dir. rewrite Hr. cbn [xorb].
    rewrite bound_le by auto. unfold key_side. by rewrite Hr.
  - replace false with (phys_dir dbi false) at 1 by (unfold phys_dir; by rewrite Hr).
    apply position_returns. intros r Hin. unfold phys_dir. rewrite Hr. cbn [xorb].
    rewrite bound_succ_lt by auto. unfold key_side. rewrite Hr. by destruct (key_cmp dbi k r.1).
Qed.

(** An inner operation may leave the cursor elsewhere when it has no result. *)
Definition moves (m : result DbError (Cursor * option Kv)) (o : option Kv) : Prop :=
  ∃ c', m = Ok (c', o) ∧ same_table c c' ∧
    it_rows (c_it c') = cf_items (v_snapshot (c_view c)) (cf_name dbi) ∧
    ∀ r, o = Some r → cursor_wf c' (Some r).

Lemma returns_moves m o : returns c at_ m o → moves m o.
Proof.
  intros (c' & -> & Hs & Hw). exists c'. split_and!; [done..| |].
  - destruct Hw as (_ & _ & -> & _). by destruct Hs as (-> & -> & _).
  - intros r ->. done.
Qed.

Lemma moves_filter m o f : moves m o →
  moves (r ← m; Ok (row_filter f r)) (r ← o; if f r then Some r else None).
Proof.
  intros (c' & -> & Hs & Hi & Hw). exists c'. split_and!; [done..|].
  intros r. destruct o as [r'|]; [|done]. cbn. destruct (f r'); [|done]. intros [= ->]. by apply Hw.
Qed.

Lemma moves_stay : moves (Ok (c, None)) None.
Proof. exists c. split_and!; try done. apply Hc. Qed.

Lemma moves_get key val op o : moves (get_inner c key val op) o →
  returns c at_ (Cursor_get c key val op) o.
Proof.
  intros (c' & Hm & Hs & Hi & Hw). unfold Cursor_get. rewrite Hm. cbn [mbind result_bind].
  destruct o as [r|]; [exists c'; split_and!; auto|].
  eexists. split; [done|]. destruct Hs as (Hv & Hd & Hst). split; [done|].
  destruct Hc as (H1 & H2 & _ & H4). unfold cursor_wf, crows in *.
  cbn [c_dbi c_view c_staged c_current c_logical_key c_it]. rewrite Hv, Hd, Hst. done.
Qed.

Lemma pick_head {A} (l : list A) : pick true l = head l.
Proof. done. Qed.

Lemma pick_last {A} (l : list A) : pick false l = last l.
Proof. done. Qed.

Lemma crows_sorted : StronglySorted (λ r r', lcmp dbi r r' = Lt) L.
Proof. destruct Hc as (Hst & Hwf & _). by apply trows_sorted. Qed.

(** Walks from the ends and from the current row. *)
Lemma walk_all asc : moves (position c None (phys_dir dbi asc) true) (pick asc L).
Proof.
  apply returns_moves. rewrite <-(filter_all (λ _, True) L) by done. by apply position_returns.
Qed.

Lemma walk_from r0 asc : at_ = Some r0 →
  moves (position c (c_current c) (phys_dir dbi asc) false)
    (pick asc (filter (λ r, rev_if (negb asc) (lcmp dbi r0 r) = Lt) L)).
Proof.
  intros Hat. pose proof Hc as (_ & _ & _ & Hw). rewrite Hat in Hw. destruct Hw as (Hin & -> & _). apply returns_moves, position_returns.
  intros r Hr. apply (bound_row dbi asc r0 false r); by apply crows_ok.
Qed.

Lemma walk_none asc : at_ = None →
  moves (position c (c_current c) (phys_dir dbi asc) false) (pick asc L).
Proof.
  intros Hat. pose proof Hc as (_ & _ & _ & Hw). rewrite Hat in Hw. destruct Hw as (-> & _). apply returns_moves.
  rewrite <-(filter_all (λ _, True) L) by done. by apply position_returns.
Qed.

Lemma neg_reversed : negb (reversed dbi) = phys_dir dbi true.
Proof. unfold phys_dir. by destruct (reversed dbi). Qed.

Lemma is_reversed : reversed dbi = phys_dir dbi false.
Proof. unfold phys_dir. by destruct (reversed dbi). Qed.

Lemma lcmp_lt_opp r r' : r ∈ L → r' ∈ L → CompOpp (lcmp dbi r r') = Lt ↔ lcmp dbi r' r = Lt.
Proof. intros Hr Hr'. by rewrite (lcmp_opp dbi r r') by by apply crows_ok. Qed.

Lemma moves_proper m o o' : o = o' → moves m o → moves m o'.
Proof. by intros ->. Qed.

Lemma at_in r0 : at_ = Some r0 → r0 ∈ L ∧ c_logical_key c = Some r0.1.
Proof. intros Hat. pose proof Hc as (_ & _ & _ & Hw). rewrite Hat in Hw. naive_solver. Qed.

Lemma next_moves : moves (position c (c_current c) (phys_dir dbi true) false)
  (match at_ with Some r0 => head (filter (λ r, lcmp dbi r0 r = Lt) L) | None => head L end).
Proof.
  pose proof (λ r0, walk_from r0 true) as Hf. pose proof (walk_none true) as Hn.
  destruct at_ as [r0|]; [exact (Hf r0 eq_refl)|exact (Hn eq_refl)].
Qed.

Lemma prev_moves : moves (position c (c_current c) (phys_dir dbi false) false)
  (match at_ with Some r0 => last (filter (λ r, lcmp dbi r r0 = Lt) L) | None => last L end).
Proof.
  pose proof (λ r0, walk_from r0 false) as Hf. pose proof (walk_none false) as Hn.
  pose proof at_in as Hin. pose proof lcmp_lt_opp as Ho.
  destruct at_ as [r0|]; [|exact (Hn eq_refl)].
  eapply moves_proper; [|exact (Hf r0 eq_refl)]. rewrite pick_last. f_equal.
  apply filter_ext_in. intros r Hr. cbn [negb rev_if]. apply Ho; [|done]. by apply Hin.
Qed.

Lemma key_set_moves k : bytes_ok k →
  moves (r ← key_edge c k true; Ok (row_filter (λ kv, bool_decide (kv.1 = k)) r))
    (head (filter (λ r, r.1 = k) L)).
Proof.
  intros Hk. eapply moves_proper; [|apply moves_filter, returns_moves, key_edge_returns; done].
  rewrite <-pick_head.
  rewrite <-(pick_narrow (λ r r', lcmp dbi r r' = Lt) (λ r, r.1 = k)
    (λ r, rev_if (negb true) (key_cmp dbi k r.1) ≠ Gt) true L crows_sorted).
  - destruct (pick true _) as [r|]; [|done]. cbn. by rewrite bool_decide_decide; destruct (decide _).
  - intros r Hr <-. apply crows_ok in Hr as [Hr _]. cbn. by rewrite (proj2 (key_cmp_eq dbi r.1 r.1 Hr Hr)).
  - intros x y Hx Hy Hlt Hq <-. cbn in Hlt, Hq. apply lcmp_key in Hlt.
    apply crows_ok in Hx as [Hx _]. apply key_cmp_eq with (dbi := dbi); [done..|].
    rewrite (key_cmp_opp dbi x.1 y.1) in Hq by done. by destruct (key_cmp dbi x.1 y.1).
Qed.

Lemma phys_enc k v : reversed dbi = true → encode dbi k (Some v) = enc dbi (k, v).
Proof. intros Hr. unfold enc, dup_of. by rewrite Hr. Qed.

(** The narrowing of a seek to a key and a duplicate. *)
Lemma both_moves (P : Kv → Prop) `{!∀ r, Decision (P r)} f k v :
  bytes_ok k → bytes_ok v →
  (∀ r, f r = true → r.1 = k) →
  (∀ r, r ∈ L → reversed dbi = true → lcmp dbi (k, v) r ≠ Gt → f r = bool_decide (P r)) →
  (∀ r, r ∈ L → P r → r.1 = k ∧ (reversed dbi = true → dup_cmp dbi v r.2 ≠ Gt)) →
  (reversed dbi = true → ∀ x y, x ∈ L → y ∈ L → lcmp dbi x y = Lt → lcmp dbi (k, v) x ≠ Gt → P y → P x) →
  moves (r ← position c (Some (encode dbi k (Some v))) (phys_dir dbi true) true; Ok (row_filter f r))
    (if reversed dbi then head (filter P L) else None).
Proof.
  intros Hk Hv Hfk Hf HP Hn. destruct (reversed dbi) eqn:Hr.
  - rewrite phys_enc by done.
    eapply moves_proper; [|apply moves_filter, returns_moves,
      (position_returns (Some (enc dbi (k, v))) true true (λ r, lcmp dbi (k, v) r ≠ Gt))].
    + rewrite <-pick_head.
      rewrite <-(pick_narrow (λ r r', lcmp dbi r r' = Lt) P (λ r, lcmp dbi (k, v) r ≠ Gt) true L crows_sorted).
      * destruct (pick true _) as [r|] eqn:E; [|done]. cbn.
        apply pick_elem, list_elem_of_filter in E as [Hq Hin]. rewrite Hf by done.
        by rewrite bool_decide_decide; destruct (decide _).
      * intros r Hin Hp. destruct (HP r Hin Hp) as [Hk' Hd].
        rewrite lcmp_same_key, Hr by done. by apply Hd.
      * intros x y Hx Hy Hlt. by apply Hn.
    + intros r Hin. apply (bound_row dbi true (k, v) true r); [done|by apply crows_ok].
  - eapply moves_proper; [|apply moves_filter, returns_moves,
      (position_returns (Some (encode dbi k (Some v))) true true (λ r, key_cmp dbi k r.1 = Lt))].
    + destruct (pick true _) as [r|] eqn:E; [|done]. cbn. destruct (f r) eqn:Ef; [|done].
      apply pick_elem, list_elem_of_filter in E as [E Hin].
      apply Hfk in Ef as <-. apply crows_ok in Hin as [Hin _].
      by rewrite (proj2 (key_cmp_eq dbi r.1 r.1 Hin Hin)) in E.
    + intros r Hin. unfold phys_dir. rewrite Hr. cbn [xorb].
      apply crows_ok in Hin as Hro. unfold within, cmp_le, dir_cmp.
      pose proof (encode_sep dbi k r.1 None None Eq Hk (proj1 Hro) sep_nil) as Hs.
      specialize (Hs (encode_dup dbi (Some v)) []). rewrite Hr in Hs. cbn [rev_if] in Hs.
      assert (enc dbi r = encode dbi r.1 None ++ []) as -> by (unfold enc, dup_of; by rewrite Hr, app_nil_r).
      assert (encode dbi k (Some v) = encode dbi k None ++ encode_dup dbi (Some v)) as ->
        by (unfold encode; rewrite Hr; cbn [encode_dup]; by rewrite app_nil_r).
      rewrite Hs. destruct (key_cmp dbi k r.1) eqn:Ek; cbn; [|done..].
      split; [|done]. intros []. unfold encode_dup.
      destruct (has_flag dbi MDB_INTEGERDUP), (bool_decide _); cbn; try done;
        unfold escape; by destruct (v ≫= escape_byte).
Qed.

(** The next or previous duplicate. *)
Lemma dup_step_moves asc r0 : at_ = Some r0 →
  moves (r ← position c (c_current c) (phys_dir dbi asc) false;
         Ok (row_filter (λ kv, bool_decide (Some kv.1 = c_logical_key c)) r))
    (pick asc (filter (λ r, r.1 = r0.1 ∧ rev_if (negb asc) (lcmp dbi r0 r) = Lt) L)).
Proof.
  intros Hat. destruct (at_in r0 Hat) as [Hin Hlk]. pose proof (crows_ok r0 Hin) as Hok0.
  eapply moves_proper; [|apply moves_filter, (walk_from r0 asc Hat)].
  rewrite <-(pick_narrow (λ r r', lcmp dbi r r' = Lt)
    (λ r, r.1 = r0.1 ∧ rev_if (negb asc) (lcmp dbi r0 r) = Lt)
    (λ r, rev_if (negb asc) (lcmp dbi r0 r) = Lt) asc L crows_sorted).
  - destruct (pick asc _) as [r|] eqn:E; [|done]. cbn. rewrite Hlk.
    assert (rev_if (negb asc) (lcmp dbi r0 r) = Lt) as Hlt.
    { by apply pick_elem, list_elem_of_filter in E as [E _]. }
    destruct (decide (r.1 = r0.1 ∧ _)) as [[-> _]|Hne]; [by rewrite bool_decide_true|].
    rewrite bool_decide_false by naive_solver. done.
  - intros r _ [_ H]. done.
  - intros x y Hx Hy Hxy Hq [Hk _]. split; [|done].
    pose proof (crows_ok x Hx) as Hox. pose proof (crows_ok y Hy) as Hoy.
    apply (key_cmp_eq dbi); [apply Hox|apply Hok0|].
    destruct asc; cbn [sorted_by negb rev_if] in *.
    + apply lcmp_key in Hxy, Hq. rewrite Hk in Hxy.
      rewrite (key_cmp_opp dbi x.1 r0.1) in Hq by (apply Hox || apply Hok0).
      by destruct (key_cmp dbi x.1 r0.1).
    + apply lcmp_lt_opp in Hq; [|done..]. apply lcmp_key in Hxy, Hq. rewrite Hk in Hxy.
      rewrite (key_cmp_opp dbi x.1 r0.1) in Hxy by (apply Hox || apply Hok0).
      by destruct (key_cmp dbi x.1 r0.1).
Qed.

(** The ends of the current key's duplicates: the key has a row, so no other
    key is accepted. *)
Lemma edge_dup_moves first r0 : at_ = Some r0 →
  moves (key_edge c r0.1 first) (pick first (filter (λ r, r.1 = r0.1) L)).
Proof.
  intros Hat. destruct (at_in r0 Hat) as [Hin _]. pose proof (crows_ok r0 Hin) as Hok0.
  eapply moves_proper; [|apply returns_moves, key_edge_returns; apply Hok0].
  set (Q := λ r : Kv, rev_if (negb first) (key_cmp dbi r0.1 r.1) ≠ Gt).
  assert (Q r0) as Hq0.
  { unfold Q. rewrite (proj2 (key_cmp_eq dbi r0.1 r0.1 (proj1 Hok0) (proj1 Hok0)) eq_refl). by destruct first. }
  assert (∀ x y, x ∈ L → y ∈ L → sorted_by (λ r r', lcmp dbi r r' = Lt) first x y → Q x → y.1 = r0.1 → x.1 = r0.1) as Hn.
  { intros x y Hx Hy Hxy Hq Hk. pose proof (crows_ok x Hx) as Hox. apply (key_cmp_eq dbi); [apply Hox|apply Hok0|].
    unfold Q in Hq. destruct first; cbn [sorted_by negb rev_if] in *; apply lcmp_key in Hxy; rewrite Hk in Hxy;
      rewrite (key_cmp_opp dbi x.1 r0.1) in * by (apply Hox || apply Hok0); by destruct (key_cmp dbi x.1 r0.1). }
  rewrite <-(pick_narrow (λ r r', lcmp dbi r r' = Lt) (λ r, r.1 = r0.1) Q first L crows_sorted); [| |done].
  - destruct (pick first (filter Q L)) as [r|] eqn:E.
    + cbn. rewrite decide_True; [done|].
      pose proof (pick_elem _ _ _ E) as [Hqr Hr]%list_elem_of_filter.
      destruct (pick_sorted _ _ _ _ r0 (StronglySorted_filter_1 _ _ _ crows_sorted) E) as [->|Hlt];
        [by apply list_elem_of_filter|done|]. by apply (Hn r r0).
    + done.
  - intros r Hr Hk. unfold Q. rewrite Hk.
    rewrite (proj2 (key_cmp_eq dbi r0.1 r0.1 (proj1 Hok0) (proj1 Hok0)) eq_refl). by destruct first.
Qed.

(** The next or previous key. *)
Lemma nodup_moves asc r0 : at_ = Some r0 →
  moves (let prefix := encode dbi r0.1 None in
         if negb (Bool.eqb asc (reversed dbi)) then
           match successor prefix with
           | Some up => position c (Some up) true true
           | None => Ok (c, None)
           end
         else position c (Some prefix) false false)
    (pick asc (filter (λ r, rev_if (negb asc) (key_cmp dbi r0.1 r.1) = Lt) L)).
Proof.
  intros Hat. destruct (at_in r0 Hat) as [Hin _]. pose proof (crows_ok r0 Hin) as [Hok0 _].
  assert (∀ r, r ∈ L → row_ok r) as Hok by apply crows_ok.
  assert (∀ r, r ∈ L → rev_if (negb asc) (key_cmp dbi r0.1 r.1) = Lt ↔
    key_side dbi r0.1 r = if negb (Bool.eqb asc (reversed dbi)) then Lt else Gt) as Hside.
  { intros r Hr. unfold key_side. by destruct asc, (reversed dbi), (key_cmp dbi r0.1 r.1). }
  cbn zeta. destruct (Bool.eqb asc (reversed dbi)) eqn:Eb; cbn [negb] in *.
  - assert (false = phys_dir dbi asc) as E by (unfold phys_dir; by destruct asc, (reversed dbi)).
    rewrite E at 1. apply returns_moves, position_returns. intros r Hr.
    rewrite <-E, bound_gt, Hside by auto. done.
  - assert (true = phys_dir dbi asc) as E by (unfold phys_dir; by destruct asc, (reversed dbi)).
    destruct (successor _) as [up|] eqn:Es.
    + rewrite E at 1. apply returns_moves, position_returns. intros r Hr.
      rewrite <-E, (bound_succ_ge dbi r0.1 r up), Hside by auto. done.
    + eapply moves_proper; [|apply moves_stay]. symmetry. apply pick_None, filter_none.
      intros r Hr. rewrite Hside by done. apply no_successor; auto.
Qed.

Lemma current_moves r0 : at_ = Some r0 → moves (position c (c_current c) true true) (Some r0).
Proof.
  intros Hat. pose proof Hc as (_ & _ & _ & Hw). rewrite Hat in Hw. destruct Hw as (Hin & -> & _).
  set (asc := negb (reversed dbi)).
  assert (true = phys_dir dbi asc) as E by (unfold phys_dir, asc; by destruct (reversed dbi)).
  pose proof (crows_ok r0 Hin) as Hok0. rewrite E at 1.
  eapply moves_proper; [|apply returns_moves, (position_returns (Some (enc dbi r0)) asc true
    (λ r, rev_if (negb asc) (lcmp dbi r0 r) ≠ Gt))].
  - set (Q := λ r : Kv, rev_if (negb asc) (lcmp dbi r0 r) ≠ Gt).
    assert (r0 ∈ filter Q L) as H0.
    { apply list_elem_of_filter. split; [|done]. unfold Q. rewrite lcmp_refl by done. by destruct asc. }
    destruct (pick asc (filter Q L)) as [r|] eqn:Ep.
    + pose proof (pick_elem _ _ _ Ep) as [Hq Hr]%list_elem_of_filter.
      destruct (pick_sorted _ _ _ _ r0 (StronglySorted_filter_1 _ _ _ crows_sorted) Ep H0) as [->|Hlt]; [done|].
      exfalso. unfold Q in Hq. destruct asc; cbn [sorted_by negb rev_if] in *.
      * by rewrite (lcmp_opp dbi r r0), Hlt in Hq by by apply crows_ok.
      * by rewrite Hlt in Hq.
    + apply pick_None in Ep. rewrite Ep in H0. by apply not_elem_of_nil in H0.
  - intros r Hr. apply (bound_row dbi asc r0 true r); [done|by apply crows_ok].
Qed.

Lemma at_none : at_ = None → c_current c = None ∧ c_logical_key c = None.
Proof. intros Hat. pose proof Hc as (_ & _ & _ & Hw). by rewrite Hat in Hw. Qed.

(** Operations that need a current row. *)
Lemma at_moves (f : Kv → option Kv) (m : result DbError (Cursor * option Kv)) :
  (at_ = None → moves m None) → (∀ r0, at_ = Some r0 → moves m (f r0)) →
  moves m (at_ ≫= f).
Proof. intros Hn Hs. destruct at_ as [r0|]; [by apply Hs|by apply Hn]. Qed.

Lemma dup_moves asc :
  moves (r ← position c (c_current c) (phys_dir dbi asc) false;
         Ok (row_filter (λ kv, bool_decide (Some kv.1 = c_logical_key c)) r))
    (r0 ← at_; pick asc (filter (λ r, r.1 = r0.1 ∧ rev_if (negb asc) (lcmp dbi r0 r) = Lt) L)).
Proof.
  apply at_moves; [|apply dup_step_moves]. intros Hn.
  eapply moves_proper; [|apply moves_filter, walk_none, Hn].
  rewrite (proj2 (at_none Hn)). by destruct (pick asc L).
Qed.

Lemma edge_moves first :
  moves (match c_logical_key c with Some k => key_edge c k first | None => Ok (c, None) end)
    (r0 ← at_; pick first (filter (λ r, r.1 = r0.1) L)).
Proof.
  apply at_moves.
  - intros Hn. rewrite (proj2 (at_none Hn)). apply moves_stay.
  - intros r0 Hat. rewrite (proj2 (at_in r0 Hat)). by apply edge_dup_moves.
Qed.

Lemma nodup_all_moves asc :
  moves (match c_logical_key c with
         | None => position c None (phys_dir dbi asc) true
         | Some k =>
             if negb (Bool.eqb asc (reversed dbi)) then
               match successor (encode dbi k None) with
               | Some up => position c (Some up) true true
               | None => Ok (c, None)
               end
             else position c (Some (encode dbi k None)) false false
         end)
    (match at_ with
     | Some r0 => pick asc (filter (λ r, rev_if (negb asc) (key_cmp dbi r0.1 r.1) = Lt) L)
     | None => pick asc L
     end).
Proof.
  pose proof at_none as Hn. pose proof (λ r0, nodup_moves asc r0) as Hs.
  pose proof (walk_all asc) as Hall. pose proof at_in as Hin.
  destruct at_ as [r0|].
  - rewrite (proj2 (Hin r0 eq_refl)). by apply Hs.
  - by rewrite (proj2 (Hn eq_refl)).
Qed.

Lemma get_current_moves :
  moves (match c_current c with Some k => position c (Some k) true true | None => Ok (c, None) end) at_.
Proof.
  pose proof at_none as Hn. pose proof current_moves as Hs. pose proof moves_stay as Hstay.
  pose proof Hc as (_ & _ & _ & Hw). destruct at_ as [r0|].
  - specialize (Hs r0 eq_refl). destruct Hw as (_ & E & _). by rewrite E in *.
  - by rewrite (proj1 (Hn eq_refl)).
Qed.

Lemma dup_cmp_le k v x : bytes_ok k → x ∈ L → x.1 = k → reversed dbi = true →
  lcmp dbi (k, v) x = dup_cmp dbi v x.2.
Proof.
  intros Hk Hx <- Hr. unfold lcmp. cbn [fst snd]. rewrite Hr.
  by rewrite (proj2 (key_cmp_eq dbi x.1 x.1 Hk Hk) eq_refl).
Qed.

Lemma both_key k v x y : bytes_ok k → x ∈ L → y ∈ L → lcmp dbi x y = Lt →
  lcmp dbi (k, v) x ≠ Gt → y.1 = k → x.1 = k.
Proof.
  intros Hk Hx Hy Hxy Hq <-. apply lcmp_key in Hxy. apply crows_ok in Hx as [Hox _].
  apply (key_cmp_eq dbi); [done..|]. unfold lcmp in Hq. cbn [fst snd] in Hq.
  rewrite (key_cmp_opp dbi x.1 y.1) in Hq by done. by destruct (key_cmp dbi x.1 y.1).
Qed.

Lemma get_both_range_moves k v : bytes_ok k → bytes_ok v →
  moves (r ← position c (Some (encode dbi k (Some v))) (phys_dir dbi true) true;
         Ok (row_filter (λ kv, bool_decide (kv.1 = k) && true) r))
    (if reversed dbi then head (filter (λ r, r.1 = k ∧ dup_cmp dbi v r.2 ≠ Gt) L) else None).
Proof.
  intros Hk Hv. apply both_moves; try done.
  - intros r. rewrite andb_true_r. apply bool_decide_eq_true_1.
  - intros r Hr Hrev Hq. rewrite andb_true_r. apply bool_decide_ext.
    split; [|tauto]. intros E. by rewrite <-(dup_cmp_le k v r).
  - naive_solver.
  - intros Hrev x y Hx Hy Hxy Hq [Hyk _]. pose proof (both_key k v x y Hk Hx Hy Hxy Hq Hyk) as E.
    split; [done|]. by rewrite <-(dup_cmp_le k v x).
Qed.

Lemma get_both_moves k v : bytes_ok k → bytes_ok v →
  moves (r ← position c (Some (encode dbi k (Some v))) (phys_dir dbi true) true;
         Ok (row_filter (λ kv, bool_decide (kv.1 = k) && (false || bool_decide (kv.2 = v))) r))
    (if reversed dbi then head (filter (λ r, r.1 = k ∧ r.2 = v) L) else None).
Proof.
  intros Hk Hv. apply both_moves; try done.
  - intros r. rewrite andb_true_iff, bool_decide_eq_true. tauto.
  - intros r Hr Hrev Hq. cbn [orb]. symmetry. apply bool_decide_and.
  - intros r Hr [E <-]. split; [done|]. intros Hrev. rewrite <-(dup_cmp_le k r.2 r) by done.
    subst k. assert ((r.1, r.2) = r) as -> by by destruct r. by rewrite lcmp_refl by by apply crows_ok.
  - intros Hrev x y Hx Hy Hxy Hq [<- <-]. exfalso.
    assert ((y.1, y.2) = y) as E by by destruct y. rewrite E in Hq.
    by rewrite (lcmp_opp dbi x y), Hxy in Hq by by apply crows_ok.
Qed.

Lemma prev_dup_moves :
  moves (r ← position c (c_current c) (reversed dbi) false;
         Ok (row_filter (λ kv, bool_decide (Some kv.1 = c_logical_key c)) r))
    (r0 ← at_; last (filter (λ r, r.1 = r0.1 ∧ lcmp dbi r r0 = Lt) L)).
Proof.
  rewrite is_reversed. eapply moves_proper; [|apply (dup_moves false)].
  pose proof at_in as Hin. pose proof lcmp_lt_opp as Ho.
  destruct at_ as [r0|]; [|done]. cbn [mbind option_bind]. rewrite pick_last. f_equal.
  apply filter_ext_in. intros r Hr. cbn [negb rev_if].
  rewrite (Ho r0 r) by (done || by apply Hin). done.
Qed.

Lemma prev_nodup_moves :
  moves (match c_logical_key c with
         | None => position c None (reversed dbi) true
         | Some k =>
             if negb (Bool.eqb false (reversed dbi)) then
               match successor (encode dbi k None) with
               | Some up => position c (Some up) true true
               | None => Ok (c, None)
               end
             else position c (Some (encode dbi k None)) false false
         end)
    (match at_ with
     | Some r0 => last (filter (λ r, key_cmp dbi r0.1 r.1 = Gt) L)
     | None => last L
     end).
Proof.
  pose proof (nodup_all_moves false) as Hm. rewrite <-is_reversed in Hm.
  eapply moves_proper; [|exact Hm].
  destruct at_ as [r0|]; [|done]. rewrite pick_last. f_equal. apply filter_ext_in.
  intros r _. cbn. by destruct (key_cmp dbi r0.1 r.1).
Qed.

Lemma set_range_moves k : bytes_ok k →
  moves (r ← key_edge c k true; Ok r) (head (filter (λ r, key_cmp dbi k r.1 ≠ Gt) L)).
Proof.
  intros Hk. pose proof (returns_moves _ _ (key_edge_returns k true Hk)) as (c' & -> & H).
  by exists c'.
Qed.

Lemma get_inner_moves key val op o : opt_bytes_ok key → opt_bytes_ok val →
  cursor_spec dbi L at_ key val op = Ok o → moves (get_inner c key val op) o.
Proof.
  intros Hk Hv. unfold get_inner. rewrite neg_reversed.
  destruct op; cbn [cursor_spec]; try (intros [= <-]); try done.
  - apply (walk_all true).
  - apply (edge_moves true).
  - destruct key as [k|]; [|done]. destruct val as [v|]; [|done]. cbn. intros [= <-].
    apply get_both_moves; auto.
  - destruct key as [k|]; [|done]. destruct val as [v|]; [|done]. cbn. intros [= <-].
    apply get_both_range_moves; auto.
  - apply get_current_moves.
  - rewrite is_reversed. apply (walk_all false).
  - apply (edge_moves false).
  - apply next_moves.
  - apply (dup_moves true).
  - apply (nodup_all_moves true).
  - rewrite is_reversed. apply prev_moves.
  - apply prev_dup_moves.
  - apply prev_nodup_moves.
  - destruct key as [k|]; [|done]. cbn. intros [= <-]. apply key_set_moves; auto.
  - destruct key as [k|]; [|done]. cbn. intros [= <-]. apply key_set_moves; auto.
  - destruct key as [k|]; [|done]. cbn. intros [= <-]. apply set_range_moves; auto.
Qed.

(** The operation returns what it means, and the cursor is then at the row. *)
Lemma Cursor_get_returns key val op o : opt_bytes_ok key → opt_bytes_ok val →
  cursor_spec dbi L at_ key val op = Ok o → returns c at_ (Cursor_get c key val op) o.
Proof. intros Hk Hv Hs. by apply moves_get, get_inner_moves. Qed.

Lemma Cursor_get_error key val op e :
  cursor_spec dbi L at_ key val op = Err e → Cursor_get c key val op = Err e.
Proof.
  unfold Cursor_get, get_inner. intros H.
  destruct op; cbn [cursor_spec] in H; try done; try (by injection H as <-);
    (destruct key as [k|]; [|by injection H as <-]); cbn in *; try done;
    (destruct val as [v|]; cbn in *; [done|by injection H as <-]).
Qed.
End one.
End ops.
