(* ===== verification/DbScan.v ===== *)
(** * Scans visit the rows of their range in order

    [foreach] finds its first row by a sequence of cursor operations that
    depends on the table and on what the caller gave, then walks on until the
    callback stops it.  [scan_rows] is the list of rows it must visit. *)

From S2P Require Import Prelude BTreeMap DbKeys DbCodec DbIndex DbTxn DbStore DbCursor DbTable.

Local Open Scope Z_scope.

(** The rows a scan may visit: all without a start key; otherwise those from
    the start key on, from the duplicate on where one is given.  A forward scan
    of a table with duplicates that is given no duplicate begins after the key. *)
Definition in_scan (dbi : Z) (start_key start_dup : bytes) (reverse : bool) (r : Kv) : Prop :=
  if decide (start_key = []) then True
  else if reversed dbi then
    if decide (start_dup = []) then
      if reverse then key_cmp dbi start_key r.1 ≠ Lt else key_cmp dbi start_key r.1 = Lt
    else
      if reverse then lcmp dbi (start_key, start_dup) r ≠ Lt
      else lcmp dbi (start_key, start_dup) r ≠ Gt
  else
    if reverse then key_cmp dbi start_key r.1 ≠ Lt else key_cmp dbi start_key r.1 ≠ Gt.

#[export] Instance in_scan_dec dbi k d rev r : Decision (in_scan dbi k d rev r).
Proof. unfold in_scan. repeat case_match; apply _. Defined.

Definition directed {A} (asc : bool) (l : list A) : list A := if asc then l else reverse l.

Definition scan_rows (dbi : Z) (L : list Kv) (start_key start_dup : bytes) (rev : bool) : list Kv :=
  directed (negb rev) (filter (in_scan dbi start_key start_dup rev) L).

(** The callback run over a list of rows. *)
Fixpoint run_cb {S} (cb : S → bytes → bytes → S * bool) (s : S) (l : list Kv) : S * bool :=
  match l with
  | [] => (s, true)
  | (k, v) :: l =>
      let '(s, more) := cb s k v in
      if more then run_cb cb s l else (s, false)
  end.

(** ** Suffixes of a sorted list *)

Lemma filter_suffix {A} (R : relation A) (P : A → Prop) `{!∀ x, Decision (P x)} (l : list A) :
  StronglySorted R l → (∀ x y, x ∈ l → y ∈ l → R x y → P x → P y) →
  ∃ l1, l = l1 ++ filter P l.
Proof.
  induction 1 as [|a l Hs IH Hf]; intros Hc; [by exists []|]. rewrite filter_cons.
  case_decide as Ha.
  - exists []. cbn. f_equal. symmetry. apply filter_all. intros y Hy.
    rewrite Forall_forall in Hf. apply (Hc a y); [left|by right|by apply Hf|done].
  - destruct IH as [l1 Hl]; [intros x y Hx Hy; apply Hc; by right|].
    exists (a :: l1). cbn. by f_equal.
Qed.

Lemma head_pick {A} asc (l : list A) : head (directed asc l) = pick asc l.
Proof. destruct asc; cbn; [done|apply head_reverse]. Qed.

Lemma directed_filter {A} asc (P : A → Prop) `{!∀ x, Decision (P x)} (l : list A) :
  directed asc (filter P l) = filter P (directed asc l).
Proof. destruct asc; cbn; [done|]. symmetry. apply filter_reverse. Qed.

Lemma directed_sorted {A} (R : relation A) asc l :
  StronglySorted R l → StronglySorted (sorted_by R asc) (directed asc l).
Proof.
  intros Hs. destruct asc; cbn; [done|]. by apply StronglySorted_reverse in Hs.
Qed.

Lemma elem_of_directed {A} asc (l : list A) x : x ∈ directed asc l ↔ x ∈ l.
Proof. destruct asc; cbn; [done|apply elem_of_reverse]. Qed.

(** ** Transitivity of the orders on rows *)

Lemma key_cmp_le_trans dbi a b c : bytes_ok a → bytes_ok b → bytes_ok c →
  key_cmp dbi a b ≠ Gt → key_cmp dbi b c ≠ Gt → key_cmp dbi a c ≠ Gt.
Proof.
  intros Ha Hb Hc. rewrite !key_cmp_prefix by done. intros H1 H2.
  change (cmp_le bytes_cmp (key_prefix dbi a) (key_prefix dbi c)). by etrans.
Qed.

Lemma key_cmp_lt_le_trans dbi a b c : bytes_ok a → bytes_ok b → bytes_ok c →
  key_cmp dbi a b = Lt → key_cmp dbi b c ≠ Gt → key_cmp dbi a c = Lt.
Proof.
  intros Ha Hb Hc. rewrite !key_cmp_prefix by done. intros H1 H2.
  change (cmp_le bytes_cmp (key_prefix dbi b) (key_prefix dbi c)) in H2.
  apply (cmp_le_lt_eq bytes_cmp) in H2 as [H2| <-]; [|done]. by eapply cmp_lt_trans.
Qed.

Lemma lcmp_trans dbi a b c : row_ok a → row_ok b → row_ok c →
  lcmp dbi a b ≠ Gt → lcmp dbi b c = Lt → lcmp dbi a c = Lt.
Proof.
  intros Ha Hb Hc. pose proof (dir_enc dbi true a b Ha Hb) as H1.
  pose proof (dir_enc dbi true b c Hb Hc) as H2. pose proof (dir_enc dbi true a c Ha Hc) as H3.
  cbn [negb rev_if] in *. rewrite <-H1, <-H2, <-H3.
  apply (cmp_le_lt_trans (dir_cmp (phys_dir dbi true))).
Qed.

Lemma lcmp_lt_le_trans dbi a b c : row_ok a → row_ok b → row_ok c →
  lcmp dbi a b = Lt → lcmp dbi b c ≠ Gt → lcmp dbi a c = Lt.
Proof.
  intros Ha Hb Hc Hab Hbc. pose proof (dir_enc dbi true a b Ha Hb) as H1.
  pose proof (dir_enc dbi true b c Hb Hc) as H2. pose proof (dir_enc dbi true a c Ha Hc) as H3.
  cbn [negb rev_if] in *. rewrite <-H1 in Hab. rewrite <-H2 in Hbc. rewrite <-H3.
  apply (cmp_le_lt_eq (dir_cmp (phys_dir dbi true))) in Hbc as [Hbc| <-]; [|done].
  by eapply cmp_lt_trans.
Qed.

(** A scan's range is closed in its direction. *)
Lemma in_scan_closed dbi k d rev x y : bytes_ok k → bytes_ok d → row_ok x → row_ok y →
  sorted_by (λ r r', lcmp dbi r r' = Lt) (negb rev) x y → in_scan dbi k d rev x → in_scan dbi k d rev y.
Proof.
  intros Hk Hd Hx Hy Hxy. unfold in_scan. case_decide; [done|].
  assert (∀ b c, bytes_ok b → bytes_ok c → key_cmp dbi b c ≠ Lt ↔ key_cmp dbi c b ≠ Gt) as Hopp.
  { intros b c Hb Hc. rewrite (key_cmp_opp dbi b c) by done. by destruct (key_cmp dbi b c). }
  destruct Hx as [Hx1 Hx2], Hy as [Hy1 Hy2].
  destruct rev; cbn [negb sorted_by] in Hxy; pose proof (lcmp_key _ _ _ Hxy) as Hkey.
  - repeat case_match; rewrite ?Hopp by done; intros Hq.
    + by eapply (key_cmp_le_trans dbi _ x.1).
    + assert (lcmp dbi y (k, d) = Lt) as Hlt.
      { eapply (lcmp_lt_le_trans dbi _ x); try done.
        rewrite (lcmp_opp dbi (k, d) x) by done. by destruct (lcmp dbi (k, d) x). }
      rewrite (lcmp_opp dbi y (k, d)), Hlt by done. done.
    + by eapply (key_cmp_le_trans dbi _ x.1).
  - repeat case_match; intros Hq.
    + by eapply (key_cmp_lt_le_trans dbi _ x.1).
    + assert (lcmp dbi (k, d) y = Lt) as ->; [|done]. by eapply (lcmp_trans dbi _ x).
    + by eapply (key_cmp_le_trans dbi _ x.1).
Qed.

Section scan.
Context `{RL : RocksLaws}.

(** The first row of a scan has been found. *)
Definition finds (c : Cursor) (m : result DbError (Cursor * option Kv)) (o : option Kv) : Prop :=
  ∃ c' at', m = Ok (c', o) ∧ same_table c c' ∧ cursor_wf c' at' ∧ ∀ r, o = Some r → at' = Some r.

Lemma same_table_trans c c' c'' : same_table c c' → same_table c' c'' → same_table c c''.
Proof. intros (? & ? & ?) (? & ? & ?). unfold same_table. split_and!; congruence. Qed.

Lemma same_table_crows c c' : same_table c c' → crows c' = crows c.
Proof. intros (H1 & H2 & H3). unfold crows. by rewrite H1, H2, H3. Qed.

Lemma returns_finds c at_ m o : returns c at_ m o → finds c m o.
Proof.
  intros (c' & -> & Hs & Hw). eexists c', _. split_and!; [done..|exact Hw|]. by intros r ->.
Qed.

Lemma finds_proper c m o o' : o = o' → finds c m o → finds c m o'.
Proof. by intros ->. Qed.

Lemma finds_here c r : cursor_wf c (Some r) → finds c (Ok (c, Some r)) (Some r).
Proof. intros Hw. exists c, (Some r). done. Qed.

(** Another operation after one that returned [o]. *)
Lemma finds_bind c at_ m o (k : Cursor * option Kv → result DbError (Cursor * option Kv)) o' :
  returns c at_ m o →
  (∀ c', same_table c c' → cursor_wf c' (match o with Some _ => o | None => at_ end) →
     crows c' = crows c → c_dbi c' = c_dbi c → finds c' (k (c', o)) o') →
  finds c (m ≫= k) o'.
Proof.
  intros (c' & -> & Hs & Hw) Hk.
  destruct (Hk c' Hs Hw (same_table_crows _ _ Hs) (proj1 (proj2 Hs))) as (c'' & at' & Hr & Hs' & Hw').
  exists c'', at'. split_and!; try done; [by eapply same_table_trans|apply Hw'..].
Qed.

Lemma finds_get c at_ key val op o : cursor_wf c at_ → opt_bytes_ok key → opt_bytes_ok val →
  cursor_spec (c_dbi c) (crows c) at_ key val op = Ok o → finds c (Cursor_get c key val op) o.
Proof. intros. by eapply returns_finds, Cursor_get_returns. Qed.

Lemma opt_ok_Some b : bytes_ok b → opt_bytes_ok (Some b).
Proof. by intros H ? [= <-]. Qed.

Lemma opt_ok_None : opt_bytes_ok None.
Proof. done. Qed.

#[local] Hint Resolve opt_ok_Some opt_ok_None : core.

(** A narrower walk that finds a row finds the row of the wider one. *)
Lemma pick_narrow_Some {A} (R : relation A) (P Q : A → Prop)
    `{!∀ x, Decision (P x), !∀ x, Decision (Q x)} asc (l : list A) z :
  StronglySorted R l → (∀ x, x ∈ l → P x → Q x) →
  (∀ x y, x ∈ l → y ∈ l → sorted_by R asc x y → Q x → P y → P x) →
  pick asc (filter P l) = Some z → pick asc (filter Q l) = Some z.
Proof.
  intros Hs HPQ Hc Hz. rewrite <-(pick_narrow R P Q asc l Hs HPQ Hc) in Hz.
  destruct (pick asc (filter Q l)) as [x|]; [|done]. cbn in Hz. by case_decide.
Qed.

Lemma sorted_trichotomy {A} (R : relation A) l x y :
  StronglySorted R l → x ∈ l → y ∈ l → x = y ∨ R x y ∨ R y x.
Proof.
  induction 1 as [|a l Hs IH Hf]; [by intros ?%not_elem_of_nil|].
  rewrite Forall_forall in Hf. rewrite !elem_of_cons. intros [->|Hx] [->|Hy]; auto.
Qed.

Section first.
Context (dbi : Z) (L : list Kv) (k d : bytes).
Context (HL : StronglySorted (λ r r', lcmp dbi r r' = Lt) L) (Hok : ∀ r, r ∈ L → row_ok r).
Context (Hk : bytes_ok k) (Hd : bytes_ok d).

Lemma no_key_head : head (filter (λ r, r.1 = k) L) = None → ∀ r, r ∈ L → key_cmp dbi k r.1 ≠ Eq.
Proof.
  intros Hn%head_None r Hr E. apply (key_cmp_eq dbi) in E; [|done|by apply Hok].
  apply (not_elem_of_nil r). rewrite <-Hn. by apply list_elem_of_filter.
Qed.

Lemma rows_eq x y : x ∈ L → y ∈ L → lcmp dbi x y = Eq → x = y.
Proof.
  intros Hx Hy E. destruct (sorted_trichotomy _ _ x y HL Hx Hy) as [?|[H|H]]; [done|congruence|].
  rewrite (lcmp_opp dbi x y), E in H by by apply Hok. done.
Qed.

(** Scanning backwards from the first row past the start. *)
Lemma prev_of_first (P : Kv → Prop) `{!∀ r, Decision (P r)} z :
  head (filter P L) = Some z →
  (∀ x y, x ∈ L → y ∈ L → lcmp dbi x y = Lt → P x → P y) →
  filter (λ r, lcmp dbi r z = Lt) L = filter (λ r, ¬ P r) L.
Proof.
  intros Hz Hc. pose proof (pick_elem true _ _ Hz) as [HPz Hzin]%list_elem_of_filter.
  apply filter_ext_in. intros r Hr. split.
  - intros Hlt HPr.
    destruct (pick_sorted _ true _ _ r (StronglySorted_filter_1 _ _ _ HL) Hz) as [->|Hzr];
      [by apply list_elem_of_filter|..].
    + by rewrite (lcmp_refl dbi z) in Hlt by by apply Hok.
    + cbn in Hzr. rewrite (lcmp_opp dbi r z), Hlt in Hzr by by apply Hok. done.
  - intros HPr. destruct (lcmp dbi r z) eqn:E; [|done|].
    + exfalso. apply HPr. by rewrite (rows_eq r z).
    + exfalso. apply HPr. apply (Hc z r); [done..| |done].
      rewrite (lcmp_opp dbi r z), E by by apply Hok. done.
Qed.

Lemma ge_key_closed x y : x ∈ L → y ∈ L → lcmp dbi x y = Lt →
  key_cmp dbi k x.1 ≠ Gt → key_cmp dbi k y.1 ≠ Gt.
Proof.
  intros Hx Hy Hxy%lcmp_key Hq. by eapply (key_cmp_le_trans dbi _ x.1); try apply Hok.
Qed.

Lemma ge_row_closed x y : x ∈ L → y ∈ L → lcmp dbi x y = Lt →
  lcmp dbi (k, d) x ≠ Gt → lcmp dbi (k, d) y ≠ Gt.
Proof.
  intros Hx Hy Hxy Hq. rewrite (lcmp_trans dbi (k, d) x y); auto. by split.
Qed.

(** Backwards from a key, without regard to duplicates. *)
Lemma before_key : (∀ r, r ∈ L → key_cmp dbi k r.1 ≠ Eq) →
  match head (filter (λ r, key_cmp dbi k r.1 ≠ Gt) L) with
  | Some z => last (filter (λ r, lcmp dbi r z = Lt) L)
  | None => last L
  end = last (filter (λ r, key_cmp dbi k r.1 ≠ Lt) L).
Proof.
  intros Hne. destruct (head _) as [z|] eqn:Ez.
  - rewrite (prev_of_first _ z Ez ge_key_closed). f_equal. apply filter_ext_in. intros r Hr.
    specialize (Hne r Hr). destruct (key_cmp dbi k r.1); naive_solver.
  - apply head_None in Ez. f_equal. symmetry. apply filter_all. intros r Hr Hlt.
    apply (not_elem_of_nil r). rewrite <-Ez. apply list_elem_of_filter. by rewrite Hlt.
Qed.

Lemma pick_rows asc (P : Kv → Prop) `{!∀ r, Decision (P r)} z : z ∈ L → P z →
  (∀ r, r ∈ L → P r → r = z ∨ sorted_by (λ r r', lcmp dbi r r' = Lt) asc z r) →
  pick asc (filter P L) = Some z.
Proof.
  intros Hz HPz Hmin. destruct (pick asc (filter P L)) as [w|] eqn:E.
  - pose proof (pick_elem _ _ _ E) as [HPw Hw]%list_elem_of_filter.
    destruct (pick_sorted _ _ _ _ z (StronglySorted_filter_1 _ _ _ HL) E) as [->|H1];
      [by apply list_elem_of_filter|done|].
    destruct (Hmin w Hw HPw) as [->|H2]; [done|]. exfalso.
    destruct asc; cbn [sorted_by] in *;
      rewrite (lcmp_opp dbi w z) in * by (by apply Hok); destruct (lcmp dbi w z); done.
  - apply pick_None in E. exfalso. apply (not_elem_of_nil z). rewrite <-E. by apply list_elem_of_filter.
Qed.

Lemma first_ge_no_key z : head (filter (λ r, key_cmp dbi k r.1 ≠ Gt) L) = Some z → z.1 ≠ k →
  ∀ r, r ∈ L → key_cmp dbi k r.1 ≠ Eq.
Proof.
  intros Hz Hne r Hr E.
  pose proof (pick_elem true _ _ Hz) as [Hq Hzin]%list_elem_of_filter.
  destruct (pick_sorted _ true _ _ r (StronglySorted_filter_1 _ _ _ HL) Hz) as [->|Hlt].
  - apply list_elem_of_filter. by rewrite E.
  - apply (key_cmp_eq dbi) in E; [|done|by apply Hok]. by subst.
  - cbn in Hlt. apply lcmp_key in Hlt. apply (key_cmp_eq dbi) in E; [|done|by apply Hok].
    apply Hne. rewrite E in *. apply (key_cmp_eq dbi); [by apply Hok..|].
    rewrite (key_cmp_opp dbi z.1 r.1) in Hq by (by apply Hok). by destruct (key_cmp dbi z.1 r.1).
Qed.

(** The last duplicate of the start key ends the rows up to it. *)
Lemma last_dup_scan (P : Kv → Prop) `{!∀ r, Decision (P r)} z :
  (∀ r, r ∈ L → r.1 = k → P r) → (∀ r, r ∈ L → P r → key_cmp dbi k r.1 ≠ Lt) →
  z ∈ L → z.1 = k → last (filter (λ r, r.1 = k) L) = last (filter P L).
Proof.
  intros HkP HP Hz Hzk.
  assert (∃ w, last (filter (λ r, r.1 = k) L) = Some w) as [w Hw].
  { destruct (last _) eqn:E; [by eexists|]. apply last_None in E. exfalso.
    apply (not_elem_of_nil z). rewrite <-E. by apply list_elem_of_filter. }
  rewrite Hw. symmetry.
  apply (pick_narrow_Some (λ r r', lcmp dbi r r' = Lt) (λ r, r.1 = k) P false L w HL); auto.
  intros x y Hx Hy Hxy HPx <-. cbn in Hxy. apply lcmp_key in Hxy.
  apply (key_cmp_eq dbi); [by apply Hok..|]. apply HP in HPx; [|done].
  rewrite (key_cmp_opp dbi x.1 y.1) in * by (by apply Hok). by destruct (key_cmp dbi x.1 y.1).
Qed.
End first.

Section cases.
Context (c : Cursor) (at_ : option Kv) (Hc : cursor_wf c at_) (k d : bytes).
Context (Hk : bytes_ok k) (Hd : bytes_ok d).
Local Abbreviation dbi := (c_dbi c).
Local Abbreviation L := (crows c).

Lemma set_key_Some z : head (filter (λ r : Kv, r.1 = k) L) = Some z → z ∈ L ∧ z.1 = k.
Proof. intros H. apply (pick_elem true), list_elem_of_filter in H. tauto. Qed.

Lemma first_reverse_plain : reversed dbi = false →
  finds c ('(c, r) ← Cursor_get c (Some k) None MDB_SET_RANGE;
           match r with
           | Some (k', _) => if decide (k' = k) then Ok (c, r) else Cursor_get c None None MDB_PREV
           | None => Cursor_get c None None MDB_LAST
           end) (last (filter (λ r, key_cmp dbi k r.1 ≠ Lt) L)).
Proof.
  intros Hrev. pose proof (crows_sorted c at_ Hc) as HL. pose proof (crows_ok c at_ Hc) as Hok.
  eapply finds_bind; [apply (Cursor_get_returns c at_ Hc); auto; done|].
  intros c' Hs Hw HL' Hd'. destruct (head _) as [[zk zv]|] eqn:Ez.
  - case_decide as Ek.
    + subst zk. eapply finds_proper; [|by apply finds_here].
      symmetry. apply (pick_elem true) in Ez as [_ Hz]%list_elem_of_filter.
      apply (pick_rows dbi L HL Hok false); [done|..].
      * cbn. by rewrite (proj2 (key_cmp_eq dbi k k Hk Hk)).
      * intros r Hr Hq. cbn [sorted_by]. unfold lcmp. rewrite Hrev. cbn [fst].
        rewrite (key_cmp_opp dbi k r.1) by (done || by apply Hok).
        destruct (key_cmp dbi k r.1) eqn:E; [|done|by right]. left.
        apply (rows_eq dbi L HL Hok r); [done..|]. unfold lcmp. rewrite Hrev. cbn [fst].
        by rewrite (key_cmp_opp dbi k r.1), E by (done || by apply Hok).
    + eapply finds_proper; [|eapply finds_get; [exact Hw|done..]].
      rewrite HL', Hd', <-(before_key dbi L k HL Hok Hk); [by rewrite Ez|].
      by apply (first_ge_no_key dbi L k HL Hok Hk _ Ez).
  - eapply finds_proper; [|eapply finds_get; [exact Hw|done..]].
    rewrite HL'. rewrite <-(before_key dbi L k HL Hok Hk); [by rewrite Ez|].
    intros r Hr E. apply head_None in Ez. apply (not_elem_of_nil r). rewrite <-Ez.
    apply list_elem_of_filter. by rewrite E.
Qed.

Lemma no_key_after : head (filter (λ r : Kv, r.1 = k) L) = None →
  filter (λ r, key_cmp dbi k r.1 = Lt) L = filter (λ r, key_cmp dbi k r.1 ≠ Gt) L.
Proof.
  intros Hn. apply filter_ext_in. intros r Hr.
  pose proof (no_key_head dbi L k (crows_ok c at_ Hc) Hk Hn r Hr). by destruct (key_cmp dbi k r.1).
Qed.

(** Forward after a key: the case of no duplicate, and the end of the other. *)
Lemma first_after_key (P : Kv → Prop) `{!∀ r, Decision (P r)} :
  (∀ r, r ∈ L → P r ↔ key_cmp dbi k r.1 = Lt) →
  finds c ('(c, r) ← Cursor_get c (Some k) None MDB_SET_KEY;
           if is_some r then Cursor_get c None None MDB_NEXT_NODUP
           else Cursor_get c (Some k) None MDB_SET_RANGE) (head (filter P L)).
Proof.
  intros HP. assert (filter P L = filter (λ r, key_cmp dbi k r.1 = Lt) L) as ->.
  { by apply filter_ext_in. }
  eapply finds_bind; [apply (Cursor_get_returns c at_ Hc); auto; done|].
  intros c' Hs Hw HL' Hd'. destruct (head _) as [z|] eqn:Ez; cbn [is_some].
  - apply set_key_Some in Ez as [_ Hz].
    eapply finds_proper; [|eapply finds_get; [exact Hw|done..]]. rewrite HL', Hd', Hz. done.
  - eapply finds_proper; [|eapply finds_get; [exact Hw|by auto|done|done]].
    rewrite HL', Hd'. by rewrite no_key_after.
Qed.

Lemma both_range_None : reversed dbi = true →
  head (filter (λ r, r.1 = k ∧ dup_cmp dbi d r.2 ≠ Gt) L) = None →
  ∀ r, r ∈ L → (lcmp dbi (k, d) r ≠ Gt ↔ key_cmp dbi k r.1 = Lt) ∧
    (lcmp dbi (k, d) r ≠ Lt ↔ key_cmp dbi k r.1 ≠ Lt).
Proof.
  intros Hrev Hn%head_None r Hr. unfold lcmp. cbn [fst snd]. rewrite Hrev.
  destruct (key_cmp dbi k r.1) eqn:E; cbn; [|done..].
  apply (key_cmp_eq dbi) in E; [|done|by apply (crows_ok c at_ Hc)].
  assert (dup_cmp dbi d r.2 = Gt) as ->; [|done].
  destruct (dup_cmp dbi d r.2) eqn:Ed; try done; exfalso; apply (not_elem_of_nil r); rewrite <-Hn;
    apply list_elem_of_filter; (split; [split; [done|by rewrite Ed]|done]).
Qed.

(** Backward from a key that no row at the start has. *)
Lemma first_before_key (P : Kv → Prop) `{!∀ r, Decision (P r)} :
  (∀ r, r ∈ L → P r ↔ key_cmp dbi k r.1 ≠ Lt) →
  finds c ('(c, r) ← Cursor_get c (Some k) None MDB_SET_KEY;
           if is_some r then Cursor_get c None None MDB_LAST_DUP
           else
             '(c, r) ← Cursor_get c (Some k) None MDB_SET_RANGE;
             if is_some r then Cursor_get c None None MDB_PREV
             else Cursor_get c None None MDB_LAST) (last (filter P L)).
Proof.
  intros HP. pose proof (crows_sorted c at_ Hc) as HL. pose proof (crows_ok c at_ Hc) as Hok.
  eapply finds_bind; [apply (Cursor_get_returns c at_ Hc); auto; done|].
  intros c' Hs Hw HL' Hd'. destruct (head _) as [z|] eqn:Ez; cbn [is_some].
  - apply set_key_Some in Ez as [Hz Hzk].
    eapply finds_proper; [|eapply finds_get; [exact Hw|done..]]. cbn [mbind option_bind].
    rewrite HL', Hzk. apply (last_dup_scan dbi L k HL Hok Hk P z); [|by apply HP|done..].
    intros r Hr Hrk. apply HP; [done|]. rewrite Hrk.
    by rewrite (proj2 (key_cmp_eq dbi k k Hk Hk)).
  - pose proof (no_key_head dbi L k Hok Hk Ez) as Hno.
    assert (filter P L = filter (λ r, key_cmp dbi k r.1 ≠ Lt) L) as -> by by apply filter_ext_in.
    rewrite <-(before_key dbi L k HL Hok Hk Hno).
    eapply finds_bind; [apply (Cursor_get_returns c' at_ Hw); auto; done|].
    intros c'' Hs' Hw' HL'' Hd''. rewrite HL', Hd' in *.
    destruct (head (filter (λ r, key_cmp dbi k r.1 ≠ Gt) L)) as [z|] eqn:Ez'; cbn [is_some];
      (eapply finds_proper; [|eapply finds_get; [exact Hw'|done..]]); by rewrite ?HL'', ?Hd''.
Qed.

Lemma first_ge_both z : reversed dbi = true →
  head (filter (λ r, r.1 = k ∧ dup_cmp dbi d r.2 ≠ Gt) L) = Some z →
  head (filter (λ r, lcmp dbi (k, d) r ≠ Gt) L) = Some z.
Proof.
  intros Hrev Hz. pose proof (crows_sorted c at_ Hc) as HL. pose proof (crows_ok c at_ Hc) as Hok.
  apply (pick_narrow_Some (λ r r', lcmp dbi r r' = Lt) (λ r, r.1 = k ∧ dup_cmp dbi d r.2 ≠ Gt)
    (λ r, lcmp dbi (k, d) r ≠ Gt) true L z HL); [| |done].
  - intros r Hr [Hrk Hq]. by rewrite (dup_cmp_le c k d r).
  - intros x y Hx Hy Hxy Hq [Hyk _]. pose proof (both_key c at_ Hc k d x y Hk Hx Hy Hxy Hq Hyk) as E.
    split; [done|]. by rewrite <-(dup_cmp_le c k d x).
Qed.
End cases.

Lemma lcmp_eq_dup dbi a b : reversed dbi = true → row_ok a → row_ok b → lcmp dbi a b = Eq → a = b.
Proof.
  intros Hr Ha Hb E. apply (enc_inj dbi); auto.
  apply (cmp_eq_iff (cmp:=bytes_cmp)). by rewrite enc_cmp, Hr, E.
Qed.

Section dup_cases.
Context (c : Cursor) (at_ : option Kv) (Hc : cursor_wf c at_) (k d : bytes).
Context (Hk : bytes_ok k) (Hd : bytes_ok d) (Hrev : reversed (c_dbi c) = true).
Local Abbreviation dbi := (c_dbi c).
Local Abbreviation L := (crows c).

Lemma first_forward_dup :
  finds c ('(c, r) ← Cursor_get c (Some k) (Some d) MDB_GET_BOTH_RANGE;
           match r with
           | Some _ => Ok (c, r)
           | None =>
               '(c, r) ← Cursor_get c (Some k) None MDB_SET_KEY;
               if is_some r then Cursor_get c None None MDB_NEXT_NODUP
               else Cursor_get c (Some k) None MDB_SET_RANGE
           end) (head (filter (λ r, lcmp dbi (k, d) r ≠ Gt) L)).
Proof.
  eapply finds_bind; [apply (Cursor_get_returns c at_ Hc); auto; done|].
  intros c' Hs Hw HL' Hd'. rewrite Hrev in *. destruct (head (filter (λ r, r.1 = k ∧ _) L)) as [z|] eqn:Ez.
  - rewrite (first_ge_both c at_ Hc k d Hk z Hrev Ez). by apply finds_here.
  - rewrite <-HL', <-Hd'. eapply first_after_key; [done..|].
    intros r Hr. rewrite HL' in Hr. rewrite Hd'.
    by apply (both_range_None c at_ Hc k d Hk Hrev Ez).
Qed.

Lemma first_reverse_dup :
  finds c ('(c, at_) ← Cursor_get c (Some k) (Some d) MDB_GET_BOTH_RANGE;
           match at_ with
           | Some (_, v) => if decide (v = d) then Ok (c, at_) else Cursor_get c None None MDB_PREV
           | None =>
               '(c, r) ← Cursor_get c (Some k) None MDB_SET_KEY;
               if is_some r then Cursor_get c None None MDB_LAST_DUP
               else
                 '(c, r) ← Cursor_get c (Some k) None MDB_SET_RANGE;
                 if is_some r then Cursor_get c None None MDB_PREV
                 else Cursor_get c None None MDB_LAST
           end)
    (last (filter (λ r, lcmp dbi (k, d) r ≠ Lt) L)).
Proof.
  pose proof (crows_sorted c at_ Hc) as HL. pose proof (crows_ok c at_ Hc) as Hok.
  eapply finds_bind; [apply (Cursor_get_returns c at_ Hc); auto; done|].
  intros c' Hs Hw HL' Hd'. rewrite Hrev in *.
  destruct (head (filter (λ r, r.1 = k ∧ _) L)) as [[zk zv]|] eqn:Ez.
  - pose proof (pick_elem true _ _ Ez) as [[Hzk Hq] Hz]%list_elem_of_filter. cbn in Hzk, Hq. subst zk.
    pose proof (first_ge_both c at_ Hc k d Hk _ Hrev Ez) as Ez'. case_decide as Hv.
    + subst zv. eapply finds_proper; [|by apply finds_here]. symmetry.
      apply (pick_rows dbi L HL Hok false); [done|by rewrite lcmp_refl by done|].
      intros r Hr Hle. cbn [sorted_by]. rewrite (lcmp_opp dbi (k, d) r) by (done || by apply Hok).
      destruct (lcmp dbi (k, d) r) eqn:E; [|done|by right]. left. symmetry.
      by apply (rows_eq dbi L HL Hok).
    + eapply finds_proper; [|eapply finds_get; [exact Hw|done..]]. rewrite HL', Hd'.
      rewrite (prev_of_first dbi L HL Hok _ _ Ez') by by apply ge_row_closed.
      f_equal. apply filter_ext_in. intros r Hr.
      assert (lcmp dbi (k, d) r ≠ Eq) as Hne; [|by destruct (lcmp dbi (k, d) r); naive_solver].
      intros E. apply lcmp_eq_dup in E as <-; [|done|done|by apply Hok].
      destruct (pick_sorted _ true _ _ (k, d) (StronglySorted_filter_1 _ _ _ HL) Ez') as [[= <-]|Hlt];
        [apply list_elem_of_filter; by rewrite lcmp_refl|done|].
      apply (pick_elem true) in Ez' as [Hge _]%list_elem_of_filter. cbn [sorted_by] in Hlt.
      by rewrite (lcmp_opp dbi (k, zv) (k, d)), Hlt in Hge by (done || by apply Hok).
  - rewrite <-HL', <-Hd'. eapply first_before_key; [done..|].
    intros r Hr. rewrite HL' in Hr. rewrite Hd'.
    by apply (both_range_None c at_ Hc k d Hk Hrev Ez).
Qed.
End dup_cases.

(** ** The whole scan *)

Lemma in_scan_some dbi k d rev r : k ≠ [] →
  in_scan dbi k d rev r ↔
  if reversed dbi then
    if decide (d = []) then if rev then key_cmp dbi k r.1 ≠ Lt else key_cmp dbi k r.1 = Lt
    else if rev then lcmp dbi (k, d) r ≠ Lt else lcmp dbi (k, d) r ≠ Gt
  else if rev then key_cmp dbi k r.1 ≠ Lt else key_cmp dbi k r.1 ≠ Gt.
Proof. intros Hk. unfold in_scan. by rewrite decide_False. Qed.

Lemma filter_in_scan dbi k d rev (P : Kv → Prop) `{!∀ r, Decision (P r)} (L : list Kv) :
  (∀ r, in_scan dbi k d rev r ↔ P r) → filter (in_scan dbi k d rev) L = filter P L.
Proof. intros HP. apply filter_ext_in. auto. Qed.

Lemma foreach_first_finds c at_ k d rev : cursor_wf c at_ → bytes_ok k → bytes_ok d →
  finds c (foreach_first c k d rev)
    (pick (negb rev) (filter (in_scan (c_dbi c) k d rev) (crows c))).
Proof.
  intros Hc Hk Hd. unfold foreach_first. fold (reversed (c_dbi c)).
  case_decide as Hke.
  { rewrite (filter_all (in_scan _ _ _ _)).
    2: { intros r _. unfold in_scan. by rewrite decide_True. }
    destruct rev; by eapply finds_get. }
  pose proof (λ r, in_scan_some (c_dbi c) k d rev r Hke) as Hin.
  destruct (reversed (c_dbi c)) eqn:Hr.
  - destruct (decide (d = [])) as [->|Hde].
    + rewrite bool_decide_false, andb_false_r by naive_solver. destruct rev; cbn [negb].
      * by eapply first_before_key.
      * rewrite decide_False by naive_solver. by eapply first_after_key.
    + rewrite bool_decide_true, andb_true_r by done.
      destruct (negb (is_some (c_staged c))); cbn [andb].
      * assert (Bool.eqb rev true = phys_dir (c_dbi c) (negb rev)) as ->.
        { unfold phys_dir. rewrite Hr. by destruct rev. }
        rewrite (phys_enc c k d Hr). eapply returns_finds, position_returns; [done|].
        intros r Hrin. rewrite Hin. rewrite (bound_row (c_dbi c) (negb rev) (k, d) true r);
          [|done|by apply (crows_ok c at_)].
        rewrite negb_involutive. destruct rev; cbn; [|done]. by destruct (lcmp _ _ _).
      * destruct rev; cbn [negb].
        -- rewrite (filter_in_scan _ _ _ _ (λ r, lcmp (c_dbi c) (k, d) r ≠ Lt)) by done.
           by eapply first_reverse_dup.
        -- rewrite decide_True by done.
           rewrite (filter_in_scan _ _ _ _ (λ r, lcmp (c_dbi c) (k, d) r ≠ Gt)) by done.
           by eapply first_forward_dup.
  - rewrite andb_false_r. destruct rev; cbn [negb andb].
    + rewrite (filter_in_scan _ _ _ _ (λ r, key_cmp (c_dbi c) k r.1 ≠ Lt)) by done.
      by eapply first_reverse_plain.
    + rewrite (filter_in_scan _ _ _ _ (λ r, key_cmp (c_dbi c) k r.1 ≠ Gt)) by done.
      eapply finds_get; [done|by auto|done|done].
Qed.

Lemma sorted_split_gt dbi l1 r0 l2 :
  StronglySorted (λ r r', lcmp dbi r r' = Lt) (l1 ++ r0 :: l2) → (∀ r, r ∈ l1 ++ r0 :: l2 → row_ok r) →
  filter (λ r, lcmp dbi r0 r = Lt) (l1 ++ r0 :: l2) = l2 ∧
  filter (λ r, lcmp dbi r r0 = Lt) (l1 ++ r0 :: l2) = l1.
Proof.
  intros Hs Hok. apply StronglySorted_app in Hs as (H12 & H1 & [H2 Hf]%StronglySorted_inv).
  rewrite Forall_forall in Hf.
  assert (row_ok r0) as H0 by (apply Hok, elem_of_app; right; left).
  assert (∀ r, r ∈ l1 → lcmp dbi r r0 = Lt ∧ row_ok r) as Hl1.
  { intros r Hr. split; [apply H12; [done|left]|]. apply Hok, elem_of_app. by left. }
  assert (∀ r, r ∈ l2 → lcmp dbi r0 r = Lt ∧ row_ok r) as Hl2.
  { intros r Hr. split; [by apply Hf|]. apply Hok, elem_of_app. right. by right. }
  rewrite !filter_app, !filter_cons, !decide_False by (by rewrite lcmp_refl). split.
  - rewrite filter_none, filter_all; [done|naive_solver|].
    intros r Hr Hlt. destruct (Hl1 r Hr) as [Hlt' Hro]. by rewrite (lcmp_opp dbi r r0), Hlt' in Hlt.
  - rewrite filter_all, filter_none; [by rewrite app_nil_r| |naive_solver].
    intros r Hr Hlt. destruct (Hl2 r Hr) as [Hlt' Hro]. by rewrite (lcmp_opp dbi r0 r), Hlt' in Hlt.
Qed.

(** A step of the walk goes to the next row in its direction. *)
Lemma step_returns c r0 rev l1 l2 : cursor_wf c (Some r0) →
  directed (negb rev) (crows c) = l1 ++ r0 :: l2 →
  returns c (Some r0) (Cursor_get c None None (if rev then MDB_PREV else MDB_NEXT)) (head l2).
Proof.
  intros Hc HD. pose proof (crows_sorted c _ Hc) as HL. pose proof (crows_ok c _ Hc) as Hok.
  apply Cursor_get_returns; try done. destruct rev; cbn [negb directed] in HD; cbn [cursor_spec].
  - apply (f_equal reverse) in HD. rewrite reverse_involutive, reverse_app, reverse_cons, <-app_assoc in HD.
    cbn [app] in HD. rewrite HD in *. rewrite (proj2 (sorted_split_gt _ _ _ _ HL Hok)).
    by rewrite last_reverse.
  - rewrite HD in *. by rewrite (proj1 (sorted_split_gt _ _ _ _ HL Hok)).
Qed.

Lemma foreach_rows {S} (cb : S → bytes → bytes → S * bool) rev l2 fuel c r0 l1 s :
  cursor_wf c (Some r0) → directed (negb rev) (crows c) = l1 ++ r0 :: l2 →
  (length l2 + 2 ≤ fuel)%nat →
  loop (foreach_step cb rev) out_of_fuel fuel (c, Some r0, s) = Ok (run_cb cb s (r0 :: l2)).
Proof.
  revert fuel c r0 l1 s. induction l2 as [|r1 l2 IH]; intros fuel c [k v] l1 s Hc HD Hf;
    (destruct fuel as [|fuel]; [cbn in Hf; lia|]); cbn [loop foreach_step run_cb];
    destruct (cb s k v) as [s' more]; (destruct more; [|done]); cbn [negb mbind result_bind].
  - destruct (step_returns c _ rev l1 [] Hc HD) as (c' & -> & Hs & Hw). cbn.
    by destruct fuel as [|fuel]; [cbn in Hf; lia|].
  - destruct (step_returns c _ rev l1 (r1 :: l2) Hc HD) as (c' & -> & Hs & Hw).
    cbn [mbind result_bind]. cbn in Hw.
    apply (IH fuel c' r1 (l1 ++ [(k, v)]) s' Hw); [|cbn in Hf; lia].
    by rewrite (same_table_crows _ _ Hs), HD, <-app_assoc.
Qed.

Lemma crows_length c at_ : cursor_wf c at_ → (length (crows c) < cursor_fuel c)%nat.
Proof.
  intros (Hst & _). unfold crows, trows, cursor_fuel. rewrite length_fmap.
  assert (length (vrows (c_view c) (c_staged c) (c_dbi c)) ≤
    length ((cf_items (v_snapshot (c_view c)) (cf_name (c_dbi c))).*1 ++
      (staged_of (physical (c_dbi c)) (default [] (c_staged c))).*1))%nat as Hl.
  { rewrite <-(length_fmap fst (vrows _ _ _)). apply submseteq_length, NoDup_submseteq.
    - apply (strictly_sorted_NoDup bytes_cmp). apply bt_key_sorted, vrows_sorted.
    - intros pk ([pk' r] & -> & H)%list_elem_of_fmap. rewrite elem_of_app.
      rewrite <-elem_of_phys_keys. apply elem_of_vrows in H; [|done]. unfold vis in H.
      destruct (phys_get _ _ _ _) eqn:E; [|done]. by eapply phys_get_keys. }
  rewrite length_app, !length_fmap in Hl.
  pose proof (length_filter (λ e : OverlayKey * option bytes, e.1.1 = physical (c_dbi c)) (default [] (c_staged c))).
  unfold staged_of in Hl. rewrite length_fmap in Hl.
  destruct (reversed (c_dbi c)); rewrite ?length_reverse; lia.
Qed.

(** A scan is its callback run over the rows of its range in order. *)
Lemma foreach_spec {S} (cb : S → bytes → bytes → S * bool) c at_ k d rev s :
  cursor_wf c at_ → bytes_ok k → bytes_ok d →
  foreach c k d rev cb s = Ok (run_cb cb s (scan_rows (c_dbi c) (crows c) k d rev)).
Proof.
  intros Hc Hk Hd. unfold foreach.
  destruct (foreach_first_finds c at_ k d rev Hc Hk Hd) as (c' & at' & -> & Hs & Hw & Hat).
  cbn [mbind result_bind].
  pose proof (crows_sorted c _ Hc) as HL. pose proof (crows_ok c _ Hc) as Hok.
  unfold scan_rows. rewrite <-head_pick, directed_filter in Hat. rewrite <-head_pick, directed_filter.
  destruct (filter_suffix (sorted_by (λ r r', lcmp (c_dbi c) r r' = Lt) (negb rev))
    (in_scan (c_dbi c) k d rev) (directed (negb rev) (crows c))) as [l1 Hl1].
  { by apply directed_sorted. }
  { intros x y. rewrite !elem_of_directed. intros Hx Hy. apply in_scan_closed; auto. }
  destruct (filter (in_scan (c_dbi c) k d rev) (directed (negb rev) (crows c))) as [|r0 l2] eqn:Ef.
  - done.
  - cbn [head] in *. specialize (Hat r0 eq_refl). subst at'.
    eapply foreach_rows; [done|by rewrite (same_table_crows _ _ Hs)|].
    pose proof (crows_length c' _ Hw) as Hlen. rewrite (same_table_crows _ _ Hs) in Hlen.
    apply (f_equal length) in Hl1. rewrite length_app in Hl1. cbn in Hl1.
    assert (length (directed (negb rev) (crows c)) = length (crows c)) by (destruct rev; cbn; rewrite ?length_reverse; done).
    lia.
Qed.

(** ** The typed scan *)

Lemma vec_dedup_id (l : list bytes) : StronglySorted (cmp_lt bytes_cmp) l → vec_dedup l = l.
Proof.
  induction 1 as [|x l Hs IH Hf]; [done|]. destruct l as [|y l]; [done|].
  rewrite vec_dedup_cons2, decide_False; [by rewrite IH|].
  intros ->. apply Forall_cons in Hf as [Hf _]. by apply (irreflexivity (cmp_lt bytes_cmp)) in Hf.
Qed.

(** Without staged changes the rows are the decoded entries. *)
Lemma vrows_snapshot v dbi : vrows v None dbi =
  omap (λ e, kv ← match row_of dbi e.1 e.2 with Ok r => r | Err _ => None end; Some (e.1, kv))
    (cf_items (v_snapshot v) (cf_name dbi)).
Proof.
  unfold vrows, phys_keys. set (base := cf_items _ _).
  assert (bt_sorted bytes_cmp base) as Hs by apply items_sorted.
  change (staged_of _ _) with (@nil (bytes * option bytes)). rewrite app_nil_r.
  rewrite (slice_sort_id bytes_cmp) by (by apply (lt_sorted_le bytes_cmp)). rewrite vec_dedup_id by done.
  assert (∀ e, e ∈ base → vis v None dbi e.1 = match row_of dbi e.1 e.2 with Ok r => r | Err _ => None end) as Hv.
  { intros [pk x] He. apply (bt_get_elem bytes_cmp) in He; [|done]. unfold vis, phys_get.
    cbn [mbind option_bind fst snd]. fold base. by rewrite He. }
  clearbody base. clear Hs. induction base as [|e base IH]; [done|]. csimpl.
  rewrite <-Hv by left. rewrite IH; [done|]. intros e' He'. apply Hv. by right.
Qed.

(** A callback that asks an entry only what entries answer. *)
Definition asks_entry {S} (cb : S → IndexEntry → S * bool) : Prop :=
  ∀ s e e', same_answers e e' → cb s e = cb s e'.

(** The rows of physical entries. *)
Definition entry_row (dbi : Z) (e : Kv) : option Kv :=
  match decode dbi e.1 e.2 with Ok r => Some r | Err _ => None end.

Lemma filter_after (l1 l2 : list Kv) pk x : key_sorted fst (l1 ++ (pk, x) :: l2) →
  filter (λ e, cmp_lt bytes_cmp pk e.1) (l1 ++ (pk, x) :: l2) = l2.
Proof.
  unfold key_sorted. intros (H12 & H1 & [H2 Hf]%StronglySorted_inv)%StronglySorted_app.
  rewrite Forall_forall in Hf. rewrite filter_app, filter_cons, decide_False.
  2: { cbn. apply (irreflexivity (cmp_lt bytes_cmp)). }
  rewrite filter_none, filter_all; [done|by apply Hf|].
  intros e He Hlt. specialize (H12 e (pk, x) He ltac:(left)). cbn in H12.
  apply (irreflexivity (cmp_lt bytes_cmp) pk). by etrans.
Qed.

Lemma foreach_index_rows {S} (cb : S → IndexEntry → S * bool) dbi start d (Hcb : asks_entry cb)
    l2 fuel it l1 s :
  bytes_ok start → u64_ok d →
  key_sorted fst (l1 ++ l2) → it_rows it = l1 ++ l2 → it_item it = head l2 →
  (∀ e, e ∈ l2 → bytes_ok e.1 ∧ is_Some (entry_row dbi e)) → (length l2 < fuel)%nat →
  loop (foreach_index_step dbi start (encode dbi start (Some (to_ne_bytes d))) cb) out_of_fuel fuel (it, s) =
  Ok (run_cb (λ s k v, cb s (from_logical k v)) s (omap (entry_row dbi) l2)).
Proof.
  intros Hst Hd. revert fuel it l1 s. induction l2 as [|[pk x] l2 IH]; intros fuel it l1 s Hs Hr Hi Hok Hf;
    (destruct fuel as [|fuel]; [cbn in Hf; lia|]); cbn [loop foreach_index_step]; rewrite Hi; cbn [head].
  - by rewrite status_ok.
  - destruct (Hok (pk, x)) as [Hpk [[k v] Hrow]]; [left|]. cbn in Hpk. unfold entry_row in Hrow. cbn in Hrow.
    pose proof (typed_entry_agrees dbi pk x start d Hpk Hst Hd) as Ht.
    destruct (decode dbi pk x) as [[k' v']|] eqn:Ed; [|done]. injection Hrow as -> ->.
    destruct (index_entry _ _ _ _ _) as [e|]; [|done]. cbn [mbind result_bind].
    rewrite (Hcb s _ _ Ht). cbn [omap list_omap]. unfold entry_row at 1. cbn [fst snd]. rewrite Ed.
    cbn [run_cb]. destruct (cb s (from_logical k v)) as [s' more]. destruct more; [|done]. cbn [negb mbind result_bind].
    apply (IH fuel _ (l1 ++ [(pk, x)])).
    + by rewrite <-app_assoc.
    + by rewrite rows_next, Hr, <-app_assoc.
    + rewrite (item_next it (pk, x)), Hr by done. cbn [fst]. f_equal. by apply filter_after.
    + intros e' He'. apply Hok. by right.
    + cbn in Hf. lia.
Qed.

Lemma filter_omap_in {A B} (f : A → option B) (P : B → Prop) (Q : A → Prop)
    `{!∀ y, Decision (P y), !∀ x, Decision (Q x)} (l : list A) :
  (∀ x y, x ∈ l → f x = Some y → P y ↔ Q x) → filter P (omap f l) = omap f (filter Q l).
Proof.
  induction l as [|x l IH]; intros HPQ; [done|]. csimpl. rewrite filter_cons.
  assert (filter P (omap f l) = omap f (filter Q l)) as IH'.
  { apply IH. intros a b Ha. apply HPQ. by right. }
  destruct (f x) as [y|] eqn:E.
  - rewrite filter_cons. destruct (decide (Q x)) as [HQ|HQ].
    + rewrite decide_True by (apply (HPQ x y); [left|done..]). csimpl. rewrite E. by rewrite IH'.
    + rewrite decide_False by (rewrite (HPQ x y); [done|left|done]). done.
  - case_decide; csimpl; rewrite ?E; done.
Qed.

Lemma historical_reversed dbi : historical dbi = true → reversed dbi = true ∧ combined dbi = false.
Proof.
  unfold historical. rewrite !orb_true_iff, !Z.eqb_eq.
  intros [[[[[[[->| ->]| ->]| ->]| ->]| ->]| ->]| ->]; done.
Qed.

(** The rows of a snapshot's historical index, newest first. *)
Lemma trows_snapshot v dbi : historical dbi = true →
  reverse (trows v None dbi) = omap (entry_row dbi) (cf_items (v_snapshot v) (cf_name dbi)).
Proof.
  intros [Hr Hcomb]%historical_reversed. unfold trows. rewrite Hr, <-fmap_reverse, reverse_involutive.
  rewrite vrows_snapshot. set (base := cf_items _ _). clearbody base.
  induction base as [|e base IH]; [done|]. csimpl. unfold entry_row at 1.
  assert (row_of dbi e.1 e.2 = (kv ← decode dbi e.1 e.2; Ok (Some kv))) as -> by (unfold row_of; by rewrite Hcomb).
  destruct (decode dbi e.1 e.2) as [r|]; cbn [mbind result_bind option_bind]; [|exact IH].
  csimpl. by rewrite IH.
Qed.

Lemma foreach_index_spec {S} (cb : S → IndexEntry → S * bool) c at_ k d s :
  cursor_wf c at_ → bytes_ok k → u64_ok d → asks_entry cb →
  foreach_index c k d cb s =
  Ok (run_cb (λ s key v, cb s (from_logical key v)) s
        (scan_rows (c_dbi c) (crows c) k (to_ne_bytes d) true)).
Proof.
  intros Hc Hk Hd Hcb. unfold foreach_index.
  destruct (is_some (c_staged c) || negb (historical (c_dbi c))) eqn:Eb.
  { unfold foreach_logical. apply (foreach_spec _ c at_); [done..|apply to_le_bytes_ok]. }
  rewrite orb_false_iff, negb_false_iff in Eb. destruct Eb as [Hns Hh].
  destruct (c_staged c) as [|] eqn:Est; [done|]. clear Hns.
  pose proof (historical_reversed _ Hh) as [Hr Hcomb].
  pose proof Hc as (_ & Hwf & Hit & _). rewrite Est in Hwf.
  set (base := cf_items (v_snapshot (c_view c)) (cf_name (c_dbi c))) in *.
  assert (key_sorted fst base) as Hbs by apply bt_key_sorted, items_sorted.
  assert (∀ e, e ∈ base → ∃ r, row_ok r ∧ e.1 = enc (c_dbi c) r ∧ entry_row (c_dbi c) e = Some r) as Hent.
  { intros [pk x] He. apply (bt_get_elem bytes_cmp) in He; [|apply items_sorted].
    assert (phys_get (c_view c) None (c_dbi c) pk = Some x) as Hp by exact He.
    apply Hwf in Hp. unfold phys_ok in Hp. rewrite Hcomb in Hp. destruct Hp as (r & Hro & -> & ->).
    exists r. split_and!; [done..|]. unfold entry_row. cbn [fst snd].
    pose proof (row_of_plain (c_dbi c) r Hcomb Hro) as Hrow. unfold row_of in Hrow. rewrite Hcomb in Hrow.
    by destruct (decode _ _ _); [injection Hrow as ->|]. }
  assert (∀ e, e ∈ base → bytes_ok e.1 ∧ is_Some (entry_row (c_dbi c) e)) as Hents.
  { intros e He. destruct (Hent e He) as (r & [H1 H2] & -> & ->). split; [|by eexists].
    apply encode_ok; [done|]. unfold dup_of. rewrite Hr. by apply opt_ok_Some. }
  unfold scan_rows. cbn [negb directed]. unfold crows. rewrite Est, <-filter_reverse, trows_snapshot by done.
  fold base. case_decide as Hke.
  - rewrite (filter_all (in_scan _ _ _ _)).
    2: { intros r _. unfold in_scan. by rewrite decide_True. }
    apply (foreach_index_rows cb _ _ _ Hcb base _ _ []); try done.
    + by rewrite rows_seek_to_first.
    + by rewrite item_seek_to_first, Hit.
    + unfold cursor_fuel. fold base. lia.
  - set (bound := encode (c_dbi c) k (Some (to_ne_bytes d))).
    rewrite (filter_omap_in _ _ (λ e, cmp_le bytes_cmp bound e.1)).
    2: { intros e r He Hrow. destruct (Hent e He) as (r' & Hro & -> & Hrow'). rewrite Hrow in Hrow'.
         injection Hrow' as <-. rewrite in_scan_some by done. rewrite Hr, decide_False.
         2: { intros E. apply (f_equal length) in E. by rewrite length_to_ne_bytes in E. }
         unfold bound. rewrite (phys_enc c k (to_ne_bytes d) Hr).
         pose proof (bound_row (c_dbi c) false (k, to_ne_bytes d) true r) as Hbr.
         unfold phys_dir in Hbr. rewrite Hr in Hbr. cbn [xorb negb rev_if] in Hbr.
         change (within true (Some ?a) true ?b) with (cmp_le bytes_cmp a b) in Hbr.
         rewrite Hbr; [|split; [done|apply to_le_bytes_ok]|done]. by destruct (lcmp _ _ _). }
    destruct (filter_suffix (λ e e' : Kv, cmp_lt bytes_cmp e.1 e'.1) (λ e : Kv, cmp_le bytes_cmp bound e.1) base)
      as [l1 Hl1]; [done| |].
    { intros x y _ _ Hxy Hx. apply (cmp_le_lt_eq bytes_cmp). left. by eapply (cmp_le_lt_trans bytes_cmp). }
    apply (foreach_index_rows cb _ _ _ Hcb _ _ _ l1); try done.
    + by rewrite <-Hl1.
    + by rewrite rows_seek, Hit.
    + by rewrite item_seek, Hit.
    + intros e [_ He]%list_elem_of_filter. by apply Hents.
    + unfold cursor_fuel. fold base. pose proof (length_filter (λ e : Kv, cmp_le bytes_cmp bound e.1) base). lia.
Qed.
End scan.
