(* ===== verification/DbTables.v ===== *)
(** * Transactions are tables

    The rows of a write transaction's tables are what its operations see and
    change: [get], [put], [del] and scans on the overlay over a snapshot behave
    as on sorted lists of rows, and the data derived from the rows (the counts
    of entries, the cached markers, the author heads) follows every change. *)

From S2P Require Import Prelude BTreeMap DbKeys DbCodec DbIndex DbTxn DbStore DbCursor DbTable DbScan.

Local Open Scope Z_scope.

Definition valid_dbi (dbi : Z) : Prop := 1 ≤ dbi ≤ 22.

Lemma valid_validate dbi : valid_dbi dbi → validate_dbi dbi = Ok tt.
Proof. unfold valid_dbi, validate_dbi, COVER_DBI. intros. by rewrite (proj2 (Z.eqb_neq _ _)) by lia. Qed.

Lemma valid_cover dbi : valid_dbi dbi → (dbi =? COVER_DBI) = false.
Proof. unfold valid_dbi, COVER_DBI. intros. apply Z.eqb_neq. lia. Qed.

Lemma physical_eq dbi dbi' : physical dbi = physical dbi' →
  dbi = dbi' ∨ combined dbi = true ∧ combined dbi' = true.
Proof.
  unfold physical. destruct (combined dbi) eqn:E, (combined dbi') eqn:E'; auto; intros H; subst; done.
Qed.

Lemma sorted_ext {A} (R : relation A) (l1 l2 : list A) :
  StronglySorted R l1 → StronglySorted R l2 → (∀ x y, x ∈ l1 → y ∈ l1 → R x y → R y x → False) →
  (∀ x, x ∈ l1 ↔ x ∈ l2) → l1 = l2.
Proof.
  intros H1. revert l2. induction H1 as [|a l1 H1 IH Hf1]; intros l2 H2 Hirr Heq.
  - destruct l2 as [|b l2]; [done|]. exfalso. apply (not_elem_of_nil b), Heq. left.
  - destruct l2 as [|b l2]; [exfalso; apply (not_elem_of_nil a), Heq; left|].
    apply StronglySorted_inv in H2 as [H2 Hf2]. rewrite Forall_forall in Hf1, Hf2.
    assert (a = b) as <-.
    { assert (a ∈ b :: l2) as Ha by (apply Heq; left). assert (b ∈ a :: l1) as Hb by (apply Heq; left).
      apply elem_of_cons in Ha as [?|Ha]; [done|]. pose proof Hb as Hb'.
      apply elem_of_cons in Hb as [?|Hb]; [done|].
      exfalso. apply (Hirr a b); [left|done|by apply Hf1|by apply Hf2]. }
    f_equal. apply IH; [done|intros x y Hx Hy; apply Hirr; by right|].
    intros x. specialize (Heq x). rewrite !elem_of_cons in Heq.
    assert (∀ x, x ∈ l1 → x ≠ a) as Hn1.
    { intros y Hy ->. apply (Hirr a a); [left..|by apply Hf1|by apply Hf1]. }
    assert (x ∈ l2 → x ≠ a) as Hn2.
    { intros Hy ->. apply (Hirr a a); [left..|by apply Hf2|by apply Hf2]. }
    split; [intros Hx; specialize (Hn1 x Hx); tauto|tauto].
Qed.

Section tables.
Context `{RL : RocksLaws}.

(** The rows of a table as a set determine the table. *)
Lemma trows_ext v v' s s' dbi :
  staged_sorted s → staged_sorted s' → table_wf v s dbi → table_wf v' s' dbi →
  (∀ r, r ∈ trows v s dbi ↔ r ∈ trows v' s' dbi) → trows v s dbi = trows v' s' dbi.
Proof.
  intros Hs Hs' Hwf Hwf'.
  apply (sorted_ext (λ r r', lcmp dbi r r' = Lt)); [by apply trows_sorted..|].
  intros x y Hx Hy H1 H2. rewrite (lcmp_opp dbi x y), H1 in H2 by (by apply (trows_ok v s dbi)). done.
Qed.

(** ** One change of the overlay *)

Section change.
Context (v : View) (s : Overlay) (dbi : Z) (pk : bytes) (o : option bytes).
Local Abbreviation s' := (bt_insert overlay_cmp s (physical dbi, pk) o).

Lemma phys_get_insert dbi' pk' :
  phys_get v (Some s') dbi' pk' =
  if decide (physical dbi' = physical dbi ∧ pk' = pk) then o else phys_get v (Some s) dbi' pk'.
Proof.
  unfold phys_get. cbn [mbind option_bind]. rewrite bt_get_insert by apply _.
  destruct (overlay_cmp (physical dbi', pk') (physical dbi, pk)) eqn:E.
  - apply (cmp_eq_iff (cmp:=overlay_cmp)) in E. injection E as E1 E2.
    by rewrite decide_True.
  - rewrite decide_False; [done|]. intros [E1 E2]. rewrite E1, E2, (cmp_refl overlay_cmp) in E. done.
  - rewrite decide_False; [done|]. intros [E1 E2]. rewrite E1, E2, (cmp_refl overlay_cmp) in E. done.
Qed.

Lemma vis_insert_other dbi' pk' : physical dbi' ≠ physical dbi ∨ pk' ≠ pk →
  vis v (Some s') dbi' pk' = vis v (Some s) dbi' pk'.
Proof.
  intros H. unfold vis. rewrite phys_get_insert, decide_False; [done|]. tauto.
Qed.

Lemma vis_insert_same dbi' : physical dbi' = physical dbi →
  vis v (Some s') dbi' pk = (value ← o; match row_of dbi' pk value with Ok r => r | Err _ => None end).
Proof. intros H. unfold vis. by rewrite phys_get_insert, decide_True. Qed.

Lemma table_wf_insert dbi' :
  table_wf v (Some s) dbi' →
  (physical dbi' = physical dbi → ∀ value, o = Some value → phys_ok dbi' pk value) →
  table_wf v (Some s') dbi'.
Proof.
  intros Hwf Ho pk' value. rewrite phys_get_insert. case_decide as H; [|apply Hwf].
  destruct H as [H ->]. by apply Ho.
Qed.

Lemma insert_staged_sorted : bt_sorted overlay_cmp s → bt_sorted overlay_cmp s'.
Proof. apply bt_insert_sorted, _. Qed.

Lemma elem_of_trows_insert dbi' r :
  bt_sorted overlay_cmp s → table_wf v (Some s) dbi' → table_wf v (Some s') dbi' →
  physical dbi' = physical dbi →
  r ∈ trows v (Some s') dbi' ↔
  if decide (enc dbi' r = pk) then vis v (Some s') dbi' pk = Some r else r ∈ trows v (Some s) dbi'.
Proof.
  intros Hs Hwf Hwf' Hp. pose proof (insert_staged_sorted Hs) as H2.
  rewrite elem_of_trows by done. case_decide as E; [by rewrite E|].
  rewrite elem_of_trows by done. by rewrite vis_insert_other by auto.
Qed.

Lemma trows_insert_other dbi' :
  bt_sorted overlay_cmp s → table_wf v (Some s) dbi' → table_wf v (Some s') dbi' →
  physical dbi' ≠ physical dbi → trows v (Some s') dbi' = trows v (Some s) dbi'.
Proof.
  intros Hs Hwf Hwf' Hp. pose proof (insert_staged_sorted Hs) as H2.
  apply trows_ext; [done..|]. intros r. rewrite !elem_of_trows by done.
  by rewrite vis_insert_other by auto.
Qed.
End change.
End tables.
