(* ===== verification/DbRows.v ===== *)
(** * Tables as sorted lists of rows

    The contract of a table: its rows in the order of its comparators.  A put
    inserts a row at its place, and replaces the row that compares equal (the
    row of the same key in a table without duplicates); a delete removes it. *)

From S2P Require Import Prelude BTreeMap DbKeys DbCodec DbIndex DbTxn DbStore DbCursor DbTable DbScan DbTables.

Local Open Scope Z_scope.

Definition row_get (key : bytes) (L : list Kv) : option bytes :=
  snd <$> head (filter (λ r, r.1 = key) L).

Definition row_insert (dbi : Z) (r : Kv) (L : list Kv) : list Kv :=
  filter (λ r', lcmp dbi r' r = Lt) L ++ r :: filter (λ r', lcmp dbi r r' = Lt) L.

Definition row_remove (dbi : Z) (r : Kv) (L : list Kv) : list Kv :=
  filter (λ r', lcmp dbi r' r ≠ Eq) L.

Definition clash (dbi : Z) (r : Kv) (L : list Kv) : Prop := Exists (λ r', lcmp dbi r' r = Eq) L.

#[export] Instance clash_dec dbi r L : Decision (clash dbi r L).
Proof. unfold clash. apply _. Defined.

Definition table_sorted (dbi : Z) (L : list Kv) : Prop :=
  StronglySorted (λ r r', lcmp dbi r r' = Lt) L ∧ Forall row_ok L.

Lemma lcmp_enc dbi r r' : row_ok r → row_ok r' → lcmp dbi r r' = Eq ↔ enc dbi r = enc dbi r'.
Proof.
  intros H H'. rewrite <-(cmp_eq_iff (cmp:=bytes_cmp)), enc_cmp by done.
  destruct (reversed dbi); [|done]. cbn. by destruct (lcmp dbi r r').
Qed.

Lemma lcmp_eq_key dbi r r' : row_ok r → row_ok r' → lcmp dbi r r' = Eq ↔
  r.1 = r'.1 ∧ (reversed dbi = true → r.2 = r'.2).
Proof.
  intros Hr Hr'. split.
  - intros H. assert (r.1 = r'.1) as Hk.
    { apply (key_cmp_eq dbi); [apply Hr|apply Hr'|]. unfold lcmp in H.
      by destruct (key_cmp dbi r.1 r'.1). }
    split; [done|]. intros Hrev. apply lcmp_enc in H; [|done..].
    by rewrite (enc_inj dbi r r') by auto.
  - intros [Hk Hv]. apply lcmp_enc; [done..|]. unfold enc, dup_of.
    destruct (reversed dbi); [by rewrite Hk, Hv|by rewrite Hk].
Qed.

(** Removing one element from a list without repetitions. *)
Lemma length_remove_key (ks : list bytes) k : NoDup ks →
  length ks = (length (filter (λ x, x ≠ k) ks) + if decide (k ∈ ks) then 1 else 0)%nat.
Proof.
  induction 1 as [|x ks Hx Hnd IH]; [done|]. rewrite filter_cons. cbn [length].
  destruct (decide (x = k)) as [->|Hne].
  - rewrite decide_False by tauto. rewrite decide_True by left. rewrite decide_False in IH by done. lia.
  - rewrite decide_True by done. cbn [length].
    destruct (decide (k ∈ ks)).
    + rewrite decide_True by by right. lia.
    + rewrite decide_False; [lia|]. by intros [->|?]%elem_of_cons.
Qed.

Section rows.
Context (dbi : Z) (r : Kv) (L : list Kv) (Hr : row_ok r) (HL : table_sorted dbi L).

Lemma table_row_ok x : x ∈ L → row_ok x.
Proof. destruct HL as [_ H]. rewrite Forall_forall in H. apply H. Qed.

#[local] Hint Resolve table_row_ok : core.

Lemma elem_of_row_insert x : x ∈ row_insert dbi r L ↔ x = r ∨ x ∈ L ∧ lcmp dbi x r ≠ Eq.
Proof.
  unfold row_insert. rewrite elem_of_app, elem_of_cons, !list_elem_of_filter. split.
  - intros [[H Hx]|[->|[H Hx]]]; [right|by left|right]; (split; [done|]); [by rewrite H|].
    rewrite (lcmp_opp dbi r x) by auto. by rewrite H.
  - intros [->|[Hx H]]; [auto|].
    destruct (lcmp dbi x r) eqn:E; [done|auto|].
    right; right. rewrite (lcmp_opp dbi x r) by auto. by rewrite E.
Qed.

Lemma row_insert_sorted : table_sorted dbi (row_insert dbi r L).
Proof.
  destruct HL as [Hs Hok]. split.
  - unfold row_insert. apply StronglySorted_app_2; [|by apply StronglySorted_filter_1|].
    + intros x y [Hx HxL]%list_elem_of_filter [->|[Hy HyL]%list_elem_of_filter]%elem_of_cons; [done|].
      apply (lcmp_trans dbi x r y); auto. by rewrite Hx.
    + constructor; [by apply StronglySorted_filter_1|]. apply Forall_forall.
      by intros x [Hx _]%list_elem_of_filter.
  - apply Forall_forall. intros x [->|[Hx _]]%elem_of_row_insert; auto.
Qed.

Lemma row_remove_sorted : table_sorted dbi (row_remove dbi r L).
Proof.
  destruct HL as [Hs Hok]. split; [by apply StronglySorted_filter_1|].
  apply Forall_forall. intros x [_ Hx]%list_elem_of_filter. by apply table_row_ok.
Qed.

Lemma table_sorted_ext L' : table_sorted dbi L' → (∀ x, x ∈ L ↔ x ∈ L') → L = L'.
Proof.
  intros [Hs' _] Heq. destruct HL as [Hs _]. eapply sorted_ext; [done..| |done].
  intros x y Hx Hy H1 H2. cbn beta in H1, H2. rewrite (lcmp_opp dbi x y), H1 in H2 by auto. done.
Qed.

Lemma clash_elem : clash dbi r L ↔ enc dbi r ∈ enc dbi <$> L.
Proof.
  unfold clash. rewrite Exists_exists, list_elem_of_fmap. split; intros (x & H1 & H2); exists x.
  - apply lcmp_enc in H2; auto.
  - split; [done|]. apply lcmp_enc; auto.
Qed.

Lemma table_NoDup : NoDup (enc dbi <$> L).
Proof.
  destruct HL as [Hs Hok]. clear HL. induction Hs as [|x l Hs IH Hf]; [constructor|].
  apply Forall_cons in Hok as [Hx Hok]. rewrite fmap_cons. constructor; [|by apply IH].
  rewrite list_elem_of_fmap. intros (y & Hy & Hin). rewrite Forall_forall in Hf, Hok.
  specialize (Hf y Hin). apply lcmp_enc in Hy; [|auto..]. by rewrite Hy in Hf.
Qed.

Lemma length_row_remove :
  length L = (length (row_remove dbi r L) + if decide (clash dbi r L) then 1 else 0)%nat.
Proof.
  rewrite <-(length_fmap (enc dbi) L), (length_remove_key _ (enc dbi r)) by apply table_NoDup.
  f_equal.
  - rewrite filter_fmap_comp, length_fmap. f_equal. apply filter_ext_in. intros x Hx.
    by rewrite (lcmp_enc dbi x r) by auto.
  - destruct (decide (clash dbi r L)) as [H|H]; rewrite clash_elem in H;
      [by rewrite decide_True|by rewrite decide_False].
Qed.

Lemma length_row_insert :
  (length (row_insert dbi r L) + if decide (clash dbi r L) then 1 else 0)%nat = S (length L).
Proof.
  rewrite length_row_remove. unfold row_insert, row_remove. rewrite length_app. cbn [length].
  assert (length (filter (λ r', lcmp dbi r' r ≠ Eq) L) =
    length (filter (λ r', lcmp dbi r' r = Lt) L) + length (filter (λ r', lcmp dbi r r' = Lt) L))%nat as ->; [|lia].
  assert (∀ x, x ∈ L → lcmp dbi r x = CompOpp (lcmp dbi x r)) as Hopp by (intros; apply lcmp_opp; auto).
  clear -Hopp. induction L as [|x l IH]; [done|]. rewrite !filter_cons.
  rewrite (Hopp x) by left. assert (∀ x, x ∈ l → lcmp dbi r x = CompOpp (lcmp dbi x r)) as Hl.
  { intros y Hy. apply Hopp. by right. }
  specialize (IH Hl).
  destruct (lcmp dbi x r); cbn [CompOpp]; repeat case_decide; try congruence; cbn [length]; lia.
Qed.

Lemma elem_of_row_remove x : x ∈ row_remove dbi r L ↔ x ∈ L ∧ lcmp dbi x r ≠ Eq.
Proof. unfold row_remove. rewrite list_elem_of_filter. tauto. Qed.
End rows.

(** A table without duplicates has at most one row of a key. *)
Lemma row_get_plain dbi L r : table_sorted dbi L → reversed dbi = false → r ∈ L →
  row_get r.1 L = Some r.2.
Proof.
  intros HL Hrev Hr. unfold row_get.
  destruct (head (filter (λ r', r'.1 = r.1) L)) as [r'|] eqn:E.
  - apply head_Some_elem_of, list_elem_of_filter in E as [Hk Hr']. cbn. f_equal. f_equal.
    pose proof (table_NoDup dbi L HL) as Hnd.
    apply (list_elem_of_lookup_1 L) in Hr as [i Hi], Hr' as [j Hj].
    assert (i = j) as ->; [|congruence].
    assert ((enc dbi <$> L) !! i = Some (enc dbi r)) as Hi' by by rewrite list_lookup_fmap, Hi.
    eapply (NoDup_lookup (enc dbi <$> L)); [done..|].
    rewrite list_lookup_fmap, Hj. cbn. f_equal. unfold enc, dup_of. by rewrite Hrev, Hk.
  - exfalso. apply head_None in E. by apply (filter_nil_not_elem_of _ _ r) in E.
Qed.

Lemma row_get_None L key : row_get key L = None ↔ ∀ r, r ∈ L → r.1 ≠ key.
Proof.
  unfold row_get. rewrite fmap_None, head_None. split.
  - intros H r Hr Hk. by apply (filter_nil_not_elem_of (λ r, r.1 = key) L r H).
  - intros H. apply filter_none. intros r Hr. by apply H.
Qed.
