(* ===== verification/DbRw.v ===== *)
(** * Write transactions implement tables

    [rows] are the rows a write transaction sees in a table.  Every operation of
    the transaction is the operation of DbRows on them: [get] finds the first
    row of a key, [put] inserts, [del] removes, [clear] empties, and the other
    tables keep their rows, the two that share the records of events included.
    What is derived from the rows follows: the counts of entries, the cached
    markers and the heads of authors. *)

From S2P Require Import Prelude BTreeMap Json DbKeys DbCodec DbIndex DbTxn DbStore DbCursor DbTable DbScan DbTables DbRows.

Local Open Scope Z_scope.

(** What the callers put: the keys of the two tables of events are local ids,
    and their values are shorter than the mark of an absent component. *)
Definition put_ok (dbi : Z) (r : Kv) : Prop :=
  row_ok r ∧ (combined dbi = true → length r.1 = 8%nat ∧ len r.2 < U32_MAX).

Section rw.
Context `{RL : RocksLaws}.

Definition rows (t : RwTxn) (dbi : Z) : list Kv := trows (t_view t) (Some (t_staged t)) dbi.

Record staged_wf (t : RwTxn) : Prop := {
  wf_sorted : bt_sorted overlay_cmp (t_staged t);
  wf_tables dbi : valid_dbi dbi → table_wf (t_view t) (Some (t_staged t)) dbi;
  wf_dbis k : k ∈ (t_staged t).*1 → ∃ dbi, valid_dbi dbi ∧ k.1 = physical dbi;
}.

Lemma rows_sorted t dbi : staged_wf t → valid_dbi dbi → table_sorted dbi (rows t dbi).
Proof.
  intros [Hs Ht _] Hd. split; [by apply trows_sorted; auto|].
  apply Forall_forall. intros x. by apply trows_ok; auto.
Qed.

Lemma combined_phys dbi : combined dbi = true → physical dbi = 3.
Proof. unfold physical. by intros ->. Qed.

Lemma plain_phys dbi : combined dbi = false → physical dbi = dbi.
Proof. unfold physical. by intros ->. Qed.

Lemma combined_plain dbi : combined dbi = true → reversed dbi = false.
Proof. by intros [->| ->]%combined_cases. Qed.

(** ** One staged change *)

Section stage.
Context (t t' : RwTxn) (dbi : Z) (r : Kv) (o : option bytes).
Context (Hwf : staged_wf t) (Hdbi : valid_dbi dbi) (Hr : row_ok r).
Context (Hview : t_view t' = t_view t).
Context (Hst : t_staged t' = bt_insert overlay_cmp (t_staged t) (physical dbi, enc dbi r) o).
Context (Ho : ∀ dbi' value, valid_dbi dbi' → physical dbi' = physical dbi → o = Some value →
  phys_ok dbi' (enc dbi r) value).

Lemma stage_wf : staged_wf t'.
Proof using RL Hwf Hdbi Hview Hst Ho.
  destruct Hwf as [Hs Ht Hk]. split.
  - rewrite Hst. by apply insert_staged_sorted.
  - intros dbi' Hd'. rewrite Hview, Hst. apply table_wf_insert; [by apply Ht|]. eauto.
  - intros k. rewrite Hst. intros [->|?]%(bt_insert_keys overlay_cmp _ _ _ _); [by exists dbi|by apply Hk].
Qed.

Lemma stage_other dbi' : valid_dbi dbi' → physical dbi' ≠ physical dbi → rows t' dbi' = rows t dbi'.
Proof using RL Hwf Hdbi Hview Hst Ho.
  intros Hd' Hp. pose proof stage_wf as [_ Ht' _]. destruct Hwf as [Hs Ht _].
  specialize (Ht' dbi' Hd'). unfold rows. rewrite Hview, Hst in *. apply trows_insert_other; auto.
Qed.

Lemma elem_of_stage dbi' x : valid_dbi dbi' → physical dbi' = physical dbi →
  x ∈ rows t' dbi' ↔
  if decide (enc dbi' x = enc dbi r) then
    (value ← o; match row_of dbi' (enc dbi r) value with Ok r => r | Err _ => None end) = Some x
  else x ∈ rows t dbi'.
Proof using RL Hwf Hdbi Hview Hst Ho.
  intros Hd' Hp. pose proof stage_wf as [_ Ht' _]. destruct Hwf as [Hs Ht _].
  specialize (Ht' dbi' Hd'). unfold rows. rewrite Hview, Hst in *.
  rewrite elem_of_trows_insert by auto. case_decide; [|done]. by rewrite vis_insert_same.
Qed.

(** The change holds the row. *)
Lemma stage_insert dbi' : valid_dbi dbi' → physical dbi' = physical dbi →
  enc dbi' r = enc dbi r →
  (value ← o; match row_of dbi' (enc dbi r) value with Ok r => r | Err _ => None end) = Some r →
  rows t' dbi' = row_insert dbi' r (rows t dbi').
Proof using RL Hwf Hdbi Hr Hview Hst Ho.
  intros Hd' Hp He Hrow. pose proof (rows_sorted t dbi' Hwf Hd') as HL.
  apply (table_sorted_ext dbi'); [by apply rows_sorted; [apply stage_wf|]|by apply row_insert_sorted|].
  intros x. rewrite elem_of_stage, elem_of_row_insert by done. rewrite Hrow. case_decide as E; split.
  - intros [= <-]. by left.
  - intros [->|[Hx Hne]]; [done|]. destruct Hne. apply lcmp_enc; [by apply (table_row_ok _ _ HL)|done|congruence].
  - intros Hx. right. split; [done|]. rewrite lcmp_enc by (done || by apply (table_row_ok _ _ HL)). congruence.
  - intros [->|[Hx _]]; [congruence|done].
Qed.

(** The change holds no row of the table at this place. *)
Lemma stage_remove dbi' : valid_dbi dbi' → physical dbi' = physical dbi →
  enc dbi' r = enc dbi r →
  (value ← o; match row_of dbi' (enc dbi r) value with Ok r => r | Err _ => None end) = None →
  rows t' dbi' = row_remove dbi' r (rows t dbi').
Proof using RL Hwf Hdbi Hr Hview Hst Ho.
  intros Hd' Hp He Hrow. pose proof (rows_sorted t dbi' Hwf Hd') as HL.
  apply (table_sorted_ext dbi'); [by apply rows_sorted; [apply stage_wf|]|by apply row_remove_sorted|].
  intros x. rewrite elem_of_stage, elem_of_row_remove by done. rewrite Hrow. case_decide as E; split.
  - done.
  - intros [Hx Hne]. destruct Hne. apply lcmp_enc; [by apply (table_row_ok _ _ HL)|done|congruence].
  - intros Hx. split; [done|]. rewrite lcmp_enc by (done || by apply (table_row_ok _ _ HL)). congruence.
  - by intros [Hx _].
Qed.

(** The change keeps what the table shows at this place. *)
Lemma stage_keep dbi' : valid_dbi dbi' → physical dbi' = physical dbi →
  (value ← o; match row_of dbi' (enc dbi r) value with Ok r => r | Err _ => None end) =
    vis (t_view t) (Some (t_staged t)) dbi' (enc dbi r) →
  rows t' dbi' = rows t dbi'.
Proof using RL Hwf Hdbi Hr Hview Hst Ho.
  intros Hd' Hp Hrow. pose proof (rows_sorted t dbi' Hwf Hd') as HL.
  apply (table_sorted_ext dbi'); [by apply rows_sorted; [apply stage_wf|]|done|].
  intros x. rewrite elem_of_stage by done. case_decide as E; [|done].
  rewrite Hrow, <-E. destruct Hwf as [Hs Ht _]. unfold rows. rewrite elem_of_trows by auto. done.
Qed.
End stage.

(** ** The records of events *)

Definition event_key (key : bytes) : Prop := bytes_ok key ∧ length key = 8%nat.

Lemma event_key_id key : event_key key →
  u64_ok (from_ne_bytes key) ∧ to_ne_bytes (from_ne_bytes key) = key.
Proof.
  intros [Hk H8]. split.
  - pose proof (from_ne_bytes_bound key Hk ltac:(lia)). unfold u64_ok, U64_MAX. lia.
  - unfold to_ne_bytes, from_ne_bytes. rewrite <-H8. by apply to_from_le_bytes.
Qed.

Lemma event_key_enc dbi key v : combined dbi = true → event_key key →
  enc dbi (key, v) = record_key (from_ne_bytes key) ∧
  encode dbi key None = record_key (from_ne_bytes key) ∧
  u64_ok (from_ne_bytes key) ∧ to_ne_bytes (from_ne_bytes key) = key.
Proof.
  intros Hc Hk. destruct (event_key_id key Hk) as [Hu Ht].
  destruct (combined_enc dbi (from_ne_bytes key) v Hc Hu) as (He & Hrev & _). rewrite Ht in He.
  split_and!; [done| |done..]. rewrite <-He. unfold enc, dup_of. by rewrite Hrev.
Qed.

(** The record of an event as the transaction sees it. *)
Definition record_at (t : RwTxn) (key : bytes) (rec : EventRecord) : Prop :=
  record_ok rec ∧ opt_bytes_ok (r_packed rec) ∧ opt_bytes_ok (r_payload rec) ∧
  match phys_get (t_view t) (Some (t_staged t)) 3 (record_key (from_ne_bytes key)) with
  | Some value => value = EventRecord_encode rec
  | None => rec = EventRecord_default
  end.

Lemma phys_get_combined v s dbi pk : combined dbi = true → phys_get v s dbi pk = phys_get v s 3 pk.
Proof. by intros [->| ->]%combined_cases. Qed.

Lemma record_exists t key : staged_wf t → event_key key → ∃ rec, record_at t key rec.
Proof.
  intros [Hs Ht _] Hk. unfold record_at.
  destruct (phys_get _ _ 3 _) as [value|] eqn:E.
  - apply (Ht 3) in E; [|unfold valid_dbi; lia]. unfold phys_ok in E. cbn in E.
    destruct E as (id & rec & Hid & Hpk & -> & Hrec & H1 & H2). by exists rec.
  - exists EventRecord_default. unfold record_ok, opt_bytes_ok. cbn. naive_solver.
Qed.

Lemma record_vis t key rec dbi : combined dbi = true → event_key key → record_at t key rec →
  vis (t_view t) (Some (t_staged t)) dbi (record_key (from_ne_bytes key)) =
  (v ← component dbi rec; Some (key, v)).
Proof.
  intros Hc Hk (Hrec & _ & _ & H). unfold vis. rewrite phys_get_combined by done.
  destruct (event_key_enc dbi key [] Hc Hk) as (_ & _ & Hu & Hkey).
  destruct (phys_get _ _ 3 _) as [value|].
  - rewrite H. cbn [mbind option_bind]. rewrite row_of_combined by done. by rewrite Hkey.
  - rewrite H. unfold component. by destruct (dbi =? 3).
Qed.

(** [row_get] of a table without duplicates is the row at the place of the key. *)
Lemma row_get_vis t dbi key : staged_wf t → valid_dbi dbi → reversed dbi = false → bytes_ok key →
  row_get key (rows t dbi) = snd <$> vis (t_view t) (Some (t_staged t)) dbi (encode dbi key None).
Proof.
  intros Hwf Hd Hrev Hk. pose proof (rows_sorted t dbi Hwf Hd) as HL. destruct Hwf as [Hs Ht _].
  assert (∀ r, r.1 = key → enc dbi r = encode dbi key None) as He.
  { intros r <-. unfold enc, dup_of. by rewrite Hrev. }
  destruct (vis _ _ _ _) as [r|] eqn:E.
  - pose proof E as E'. apply vis_enc in E' as [Hr Hpk]; [|by apply Ht].
    assert (r.1 = key) as <-.
    { apply (lcmp_eq_key dbi r (key, r.2)); [done|by split; [|apply Hr]|].
      apply lcmp_enc; [done|by split; [|apply Hr]|]. by rewrite (He (key, r.2)). }
    apply (row_get_plain dbi); [done..|]. unfold rows. rewrite elem_of_trows by auto. by rewrite He.
  - apply row_get_None. intros r Hr <-. unfold rows in Hr. rewrite elem_of_trows in Hr by auto.
    rewrite He in Hr by done. congruence.
Qed.

Lemma record_row_get t key rec dbi : staged_wf t → valid_dbi dbi → combined dbi = true →
  event_key key → record_at t key rec → row_get key (rows t dbi) = component dbi rec.
Proof.
  intros Hwf Hd Hc Hk Hrec. rewrite row_get_vis by (auto using combined_plain || apply Hk).
  destruct (event_key_enc dbi key [] Hc Hk) as (_ & -> & _).
  rewrite (record_vis t key rec dbi) by done. by destruct (component dbi rec).
Qed.

(** ** Reads *)

Lemma cursor_new_wf v dbi staged : staged_sorted staged → table_wf v staged dbi →
  cursor_wf (Cursor_new v dbi staged) None.
Proof.
  intros Hs Ht. unfold cursor_wf, Cursor_new. cbn. split_and!; [done..| |done|done].
  rewrite rows_iterator. apply filter_all. intros e _. by unfold in_bounds.
Qed.

Lemma txn_cursor_wf t dbi : staged_wf t → valid_dbi dbi →
  cursor t dbi = Ok (Cursor_new (t_view t) dbi (Some (t_staged t))) ∧
  cursor_wf (Cursor_new (t_view t) dbi (Some (t_staged t))) None.
Proof.
  intros [Hs Ht _] Hd. unfold cursor. rewrite valid_validate by done.
  split; [done|]. apply cursor_new_wf; [done|by apply Ht].
Qed.

Lemma txn_cursor_get t dbi key val op o : staged_wf t → valid_dbi dbi →
  opt_bytes_ok key → opt_bytes_ok val →
  cursor_spec dbi (rows t dbi) None key val op = Ok o →
  ∃ c, Cursor_get (Cursor_new (t_view t) dbi (Some (t_staged t))) key val op = Ok (c, o) ∧
    cursor_wf c o ∧ same_table (Cursor_new (t_view t) dbi (Some (t_staged t))) c.
Proof.
  intros Hwf Hd Hk Hv Hop. destruct (txn_cursor_wf t dbi Hwf Hd) as [_ Hc].
  destruct (Cursor_get_returns _ None Hc key val op o Hk Hv Hop) as (c & H1 & H2 & H3).
  exists c. split_and!; [done| |done]. by destruct o.
Qed.

Definition key_ok (dbi : Z) (key : bytes) : Prop :=
  bytes_ok key ∧ (combined dbi = true → length key = 8%nat).

Lemma View_get_spec t dbi key : staged_wf t → valid_dbi dbi → key_ok dbi key →
  ∃ v, View_get (t_view t) dbi key (Some (t_staged t)) = Ok (v, row_get key (rows t dbi)).
Proof.
  intros Hwf Hd [Hk H8]. unfold View_get. rewrite valid_validate by done. cbn [mbind result_bind].
  destruct (combined dbi) eqn:Hc; [|destruct (has_flag dbi MDB_DUPSORT) eqn:Hdup].
  - specialize (H8 eq_refl). rewrite decide_True by done. assert (event_key key) as He by done.
    destruct (record_exists t key Hwf He) as [rec Hrec].
    rewrite (record_row_get t key rec) by done. unfold get_record. rewrite raw_phys, phys_get_combined by done.
    destruct Hrec as (Hrec & _ & _ & H). destruct (phys_get _ _ 3 _) as [value|]; cbn [mbind result_bind].
    + rewrite H, parts_encode by done. cbn [mbind result_bind]. unfold component. eauto.
    + rewrite H. unfold component. destruct (dbi =? 3); eauto.
  - destruct (txn_cursor_get t dbi (Some key) None MDB_SET_KEY
      (head (filter (λ r, r.1 = key) (rows t dbi)))) as (c & -> & _); try done.
    { by intros b [= <-]. }
    cbn [mbind result_bind]. unfold row_get. eexists. f_equal. f_equal. by destruct (head _) as [[? ?]|].
  - rewrite raw_phys. cbn [mbind result_bind]. eexists. f_equal. f_equal. rewrite row_get_vis by done.
    unfold vis. destruct (phys_get _ _ dbi _) as [value|] eqn:E; [|done]. cbn [mbind option_bind].
    apply wf_tables in E; [|done..]. unfold phys_ok in E. rewrite Hc in E.
    destruct E as (r & Hr & -> & ->). rewrite row_of_plain by done. unfold reversed. by rewrite Hdup.
Qed.
(** ** Changes *)

(** What no operation on rows changes. *)
Definition same_extra (t t' : RwTxn) : Prop :=
  t_view t' = t_view t ∧ t_event_sequence t' = t_event_sequence t ∧
  t_superseded_events t' = t_superseded_events t ∧ t_author_counts t' = t_author_counts t ∧
  t_defer_tag_kind t' = t_defer_tag_kind t.

(** The rows of one table became [L]; those of the others are the same. *)
Definition rows_change (t t' : RwTxn) (dbi : Z) (L : list Kv) : Prop :=
  rows t' dbi = L ∧ ∀ dbi', valid_dbi dbi' → dbi' ≠ dbi → rows t' dbi' = rows t dbi'.

(** A change is staged; what is derived from the rows has not followed yet. *)
Definition staged_change (t t' : RwTxn) (dbi : Z) (key : bytes) (L : list Kv) : Prop :=
  staged_wf t' ∧ same_extra t t' ∧ rows_change t t' dbi L ∧ t_counts t' = t_counts t ∧
  t_marker_values t' = t_marker_values t ∧
  t_touched_authors t' = t_touched_authors (note_author dbi key t).

Lemma plain_phys_ok dbi r : row_ok r → combined dbi = false →
  ∀ dbi' value, valid_dbi dbi' → physical dbi' = physical dbi →
    Some (if reversed dbi then [] else r.2) = Some value → phys_ok dbi' (enc dbi r) value.
Proof.
  intros Hr Hc dbi' value _ [->|[_ Hc']]%physical_eq [= <-]; [|congruence].
  unfold phys_ok. rewrite Hc. by exists r.
Qed.

Lemma note_author_fields dbi key t :
  t_view (note_author dbi key t) = t_view t ∧ t_staged (note_author dbi key t) = t_staged t ∧
  t_counts (note_author dbi key t) = t_counts t ∧
  t_marker_values (note_author dbi key t) = t_marker_values t ∧ same_extra t (note_author dbi key t).
Proof. unfold note_author. by destruct (_ && _). Qed.

Lemma note_author_other dbi key t : dbi ≠ 10 → note_author dbi key t = t.
Proof. intros H. unfold note_author. by rewrite (proj2 (Z.eqb_neq _ _)). Qed.

Lemma physical_other dbi dbi' : combined dbi = false → dbi' ≠ dbi → physical dbi' ≠ physical dbi.
Proof. intros Hc Hne [->|[_ H]]%physical_eq; congruence. Qed.

Lemma put_staged_plain t dbi r : staged_wf t → valid_dbi dbi → row_ok r → combined dbi = false →
  ∃ t', put_staged t dbi r.1 r.2 (enc dbi r) = Ok t' ∧
    staged_change t t' dbi r.1 (row_insert dbi r (rows t dbi)).
Proof.
  intros Hwf Hd Hr Hc. unfold put_staged. rewrite Hc. eexists. split; [done|].
  destruct (note_author_fields dbi r.1 t) as (Hv & Hs & Hn & Hm & Hx). rewrite Hs.
  set (o := Some (if reversed dbi then [] else r.2)). set (t' := set_staged _ _).
  assert (t_view t' = t_view t) as Hview by done.
  assert (t_staged t' = bt_insert overlay_cmp (t_staged t) (physical dbi, enc dbi r) o) as Hst.
  { unfold t'. by rewrite plain_phys. }
  pose proof (plain_phys_ok dbi r Hr Hc) as Ho.
  unfold staged_change, rows_change. split_and!; try done.
  - by apply (stage_wf t t' dbi r o).
  - apply (stage_insert t t' dbi r o); try done. unfold o. cbn [mbind option_bind].
    by rewrite row_of_plain.
  - intros dbi' Hd' Hne. apply (stage_other t t' dbi r o); try done. by apply physical_other.
Qed.

(** The record with the component of a table replaced. *)
Definition with_component (dbi : Z) (v : option bytes) (rec : EventRecord) : EventRecord :=
  if dbi =? 3 then mkEventRecord v (r_payload rec) else mkEventRecord (r_packed rec) v.

Lemma component_with dbi dbi' v rec : combined dbi = true → combined dbi' = true →
  component dbi' (with_component dbi v rec) = if decide (dbi' = dbi) then v else component dbi' rec.
Proof. by intros [->| ->]%combined_cases [->| ->]%combined_cases. Qed.

Lemma with_component_ok dbi v rec : record_ok rec → opt_bytes_ok (r_packed rec) →
  opt_bytes_ok (r_payload rec) → opt_bytes_ok v → (∀ b, v = Some b → len b < U32_MAX) →
  record_ok (with_component dbi v rec) ∧ opt_bytes_ok (r_packed (with_component dbi v rec)) ∧
  opt_bytes_ok (r_payload (with_component dbi v rec)).
Proof. intros [H1 H2] H3 H4 H5 H6. unfold with_component. destruct (dbi =? 3); by cbn. Qed.

(** Staging the record of an event with one component replaced. *)
Section record.
Context (t : RwTxn) (dbi : Z) (key : bytes) (rec : EventRecord) (v : option bytes).
Context (Hwf : staged_wf t) (Hd : valid_dbi dbi) (Hc : combined dbi = true).
Context (Hk : event_key key) (Hrec : record_at t key rec).
Context (Hv : opt_bytes_ok v) (Hlen : ∀ b, v = Some b → len b < U32_MAX).
Local Abbreviation rec' := (with_component dbi v rec).
Local Abbreviation pk := (record_key (from_ne_bytes key)).
Context (o : option bytes).
Context (Ho : o = Some (EventRecord_encode rec') ∨ o = None ∧ rec' = EventRecord_default).
Local Abbreviation t' := (set_staged (bt_insert overlay_cmp (t_staged t) (3, pk) o) t).

Lemma record_phys_ok dbi' value : valid_dbi dbi' → physical dbi' = physical dbi → o = Some value →
  phys_ok dbi' pk value.
Proof using Hwf Hd Hc Hk Hrec Hv Hlen Ho.
  intros Hd' Hp Hov. destruct Hrec as (H1 & H2 & H3 & _).
  destruct (with_component_ok dbi v rec) as (H4 & H5 & H6); [done..|].
  assert (combined dbi' = true) as Hc' by (apply physical_eq in Hp as [->|[? _]]; done).
  unfold phys_ok. rewrite Hc'. exists (from_ne_bytes key), rec'.
  destruct Ho as [->|[-> _]]; [|done]. injection Hov as <-. split_and!; try done.
  by apply event_key_id.
Qed.

Lemma record_value dbi' : combined dbi' = true →
  (value ← o; match row_of dbi' pk value with Ok r => r | Err _ => None end) =
  (b ← component dbi' rec'; Some (key, b)).
Proof using Hwf Hd Hc Hk Hrec Hv Hlen Ho.
  intros Hc'. destruct Hrec as (H1 & H2 & H3 & _).
  destruct (with_component_ok dbi v rec) as (H4 & H5 & H6); [done..|].
  destruct (event_key_id key Hk) as [Hu Hkey].
  destruct Ho as [->|[-> ->]]; cbn [mbind option_bind].
  - rewrite row_of_combined by done. by rewrite Hkey.
  - unfold component. by destruct (dbi' =? 3).
Qed.

Lemma record_staged_change :
  staged_change t t' dbi key
    (match v with Some b => row_insert dbi (key, b) | None => row_remove dbi (key, []) end (rows t dbi)).
Proof using RL Hwf Hd Hc Hk Hrec Hv Hlen Ho.
  set (r := (key, default [] v) : Kv).
  assert (row_ok r) as Hr by (split; [apply Hk|destruct v; [by apply Hv|constructor]]).
  assert (∀ dbi', combined dbi' = true → enc dbi' r = pk) as Henc.
  { intros dbi' Hc'. by apply event_key_enc. }
  assert (t_staged t' = bt_insert overlay_cmp (t_staged t) (physical dbi, enc dbi r) o) as Hst.
  { by rewrite combined_phys, Henc. }
  assert (∀ dbi' value, valid_dbi dbi' → physical dbi' = physical dbi → o = Some value →
    phys_ok dbi' (enc dbi r) value) as Hok by (rewrite Henc by done; apply record_phys_ok).
  pose proof (record_value dbi Hc) as Hval. rewrite component_with, decide_True in Hval by done.
  unfold staged_change, rows_change. split_and!; try done.
  - by apply (stage_wf t t' dbi r o).
  - destruct v as [b|]; [apply (stage_insert t t' dbi r o)|apply (stage_remove t t' dbi r o)];
      try done; by rewrite Henc.
  - intros dbi' Hd' Hne. destruct (combined dbi') eqn:Hc'.
    + apply (stage_keep t t' dbi r o); try done; [by rewrite !combined_phys|].
      rewrite Henc, record_value, component_with, decide_False by done.
      by rewrite (record_vis t key rec).
    + apply (stage_other t t' dbi r o); try done. intros [->|[? _]]%physical_eq; congruence.
  - rewrite note_author_other; [done|]. apply combined_cases in Hc. lia.
Qed.
End record.

Lemma record_decode t key rec : record_at t key rec →
  match phys_get (t_view t) (Some (t_staged t)) 3 (record_key (from_ne_bytes key)) with
  | Some v => EventRecord_decode v
  | None => Ok EventRecord_default
  end = Ok rec.
Proof.
  intros (Hrec & _ & _ & H). destruct (phys_get _ _ _ _); rewrite H; [|done].
  by apply EventRecord_decode_encode.
Qed.

(** What [put] stages. *)
Lemma put_staged_spec t dbi key val : staged_wf t → valid_dbi dbi → put_ok dbi (key, val) →
  ∃ t', put_staged t dbi key val (enc dbi (key, val)) = Ok t' ∧
    staged_change t t' dbi key (row_insert dbi (key, val) (rows t dbi)).
Proof.
  intros Hwf Hd [Hr H8]. destruct (combined dbi) eqn:Hc; [|by apply (put_staged_plain t dbi (key, val))].
  destruct (H8 eq_refl) as [Hlk Hlv]. assert (event_key key) as Hk by (split; [apply Hr|done]).
  destruct (record_exists t key Hwf Hk) as [rec Hrec].
  destruct (event_key_enc dbi key val Hc Hk) as (He & _).
  unfold put_staged. rewrite Hc, raw_phys, He, phys_get_combined by done. cbn [mbind result_bind].
  rewrite (record_decode t key rec) by done.
  cbn [mbind result_bind]. rewrite decide_True by done. eexists. split; [done|].
  apply (record_staged_change t dbi key rec (Some val)); try done.
  - intros b [= <-]. apply Hr.
  - by intros b [= <-].
  - by left.
Qed.

Lemma clash_vis t dbi r : staged_wf t → valid_dbi dbi → row_ok r →
  clash dbi r (rows t dbi) ↔ is_Some (vis (t_view t) (Some (t_staged t)) dbi (enc dbi r)).
Proof.
  intros Hwf Hd Hr. pose proof (rows_sorted t dbi Hwf Hd) as HL. rewrite clash_elem by done.
  destruct Hwf as [Hs Ht _]. rewrite list_elem_of_fmap. split.
  - intros (x & -> & Hx). unfold rows in Hx. rewrite elem_of_trows in Hx by auto. by rewrite Hx.
  - intros [x Hx]. exists x. unfold rows. rewrite elem_of_trows by auto.
    pose proof Hx as H. apply vis_enc in H as [_ H]; [|by apply Ht]. by rewrite <-H.
Qed.

Lemma plain_vis t dbi pk : staged_wf t → valid_dbi dbi → combined dbi = false →
  is_Some (vis (t_view t) (Some (t_staged t)) dbi pk) ↔
  is_Some (phys_get (t_view t) (Some (t_staged t)) dbi pk).
Proof.
  intros Hwf Hd Hc. unfold vis. destruct (phys_get _ _ _ _) as [value|] eqn:E; cbn [mbind option_bind]; [|by split; intros [? ?]].
  apply wf_tables in E; [|done..]. unfold phys_ok in E. rewrite Hc in E. destruct E as (r & Hr & -> & ->).
  rewrite row_of_plain by done. by split; intros _.
Qed.

Lemma del_staged_plain t dbi r : staged_wf t → valid_dbi dbi → row_ok r → combined dbi = false →
  if decide (clash dbi r (rows t dbi)) then
    ∃ t', del_staged t dbi r.1 (enc dbi r) = Ok (Some t') ∧
      staged_change t t' dbi r.1 (row_remove dbi r (rows t dbi))
  else del_staged t dbi r.1 (enc dbi r) = Ok None.
Proof.
  intros Hwf Hd Hr Hc. unfold del_staged. rewrite raw_phys, Hc. cbn [mbind result_bind].
  destruct (decide (clash _ _ _)) as [H|H]; rewrite clash_vis, plain_vis in H by done;
    destruct (phys_get _ _ _ _) as [value|] eqn:E; try done; try by destruct H.
  eexists. split; [done|].
  destruct (note_author_fields dbi r.1 t) as (Hv & Hs & Hn & Hm & Hx). rewrite Hs.
  set (t' := set_staged _ _). assert (t_view t' = t_view t) as Hview by done.
  assert (t_staged t' = bt_insert overlay_cmp (t_staged t) (physical dbi, enc dbi r) None) as Hst.
  { unfold t'. by rewrite plain_phys. }
  unfold staged_change, rows_change. split_and!; try done.
  - by apply (stage_wf t t' dbi r None).
  - by apply (stage_remove t t' dbi r None).
  - intros dbi' Hd' Hne. apply (stage_other t t' dbi r None); try done. by apply physical_other.
Qed.

(** What [del] stages, when the table has the row. *)
Lemma del_staged_spec t dbi key val : staged_wf t → valid_dbi dbi → row_ok (key, val) →
  (combined dbi = true → length key = 8%nat) →
  if decide (clash dbi (key, val) (rows t dbi)) then
    ∃ t', del_staged t dbi key (enc dbi (key, val)) = Ok (Some t') ∧
      staged_change t t' dbi key (row_remove dbi (key, val) (rows t dbi))
  else del_staged t dbi key (enc dbi (key, val)) = Ok None.
Proof.
  intros Hwf Hd Hr H8. destruct (combined dbi) eqn:Hc; [|by apply (del_staged_plain t dbi (key, val))].
  assert (event_key key) as Hk by (split; [apply Hr|auto]).
  destruct (record_exists t key Hwf Hk) as [rec Hrec].
  destruct (event_key_enc dbi key val Hc Hk) as (He & _).
  unfold del_staged. rewrite Hc, raw_phys, He, phys_get_combined by done. cbn [mbind result_bind].
  pose proof (record_decode t key rec Hrec) as Hdec.
  pose proof (clash_vis t dbi (key, val) Hwf Hd Hr) as Hcl.
  rewrite He, (record_vis t key rec dbi) in Hcl by done.
  assert (clash dbi (key, val) (rows t dbi) ↔ is_Some (component dbi rec)) as Hcl'.
  { rewrite Hcl. destruct (component dbi rec); cbn; [by split; intros _|by split; intros [? ?]]. } clear Hcl.
  destruct (phys_get _ _ _ _) as [value|].
  2: { injection Hdec as <-. rewrite decide_False; [done|]. rewrite Hcl'.
       unfold component. destruct (dbi =? 3); by intros [? ?]. }
  rewrite Hdec. cbn [mbind result_bind]. fold (component dbi rec).
  destruct (component dbi rec) as [b|] eqn:Eb; cbn [is_some negb].
  2: { rewrite decide_False; [done|]. rewrite Hcl'. by intros [? ?]. }
  rewrite decide_True by (by apply Hcl'). rewrite decide_True by auto.
  eexists. split; [done|]. fold (with_component dbi None rec).
  assert (row_remove dbi (key, val) = row_remove dbi (key, [])) as ->.
  { unfold row_remove, lcmp. by rewrite combined_plain. }
  eapply (record_staged_change t dbi key rec None); try done.
  destruct (with_component dbi None rec) as [[a|] [c|]]; auto.
Qed.
End rw.
