(* ===== verification/DbDerived.v ===== *)
(** * What a transaction derives from its rows

    The values of the two cached markers and the newest two entries of an author
    ([AuthorHead]) are functions of the rows; here are those functions, and that
    the code which maintains them incrementally, or computes them by a scan,
    agrees with them. *)

From S2P Require Import Prelude BTreeMap Json DbKeys DbCodec DbIndex DbTxn DbStore DbCursor DbTable DbScan DbTables DbRows DbRw.

Local Open Scope Z_scope.

(** ** Markers *)

Definition marker_rows (key : bytes) (L : list Kv) : list bytes := (filter (λ r, r.1 = key) L).*2.

Lemma elem_of_marker_rows key L v : v ∈ marker_rows key L ↔ (key, v) ∈ L.
Proof.
  unfold marker_rows. rewrite list_elem_of_fmap. split.
  - intros ([k w] & -> & [Hk H]%list_elem_of_filter). cbn in Hk. by subst.
  - intros H. exists (key, v). by rewrite list_elem_of_filter.
Qed.

Lemma marker_cmp_lcmp key a b : bytes_ok key → bytes_ok a → bytes_ok b →
  marker_cmp key a b = lcmp 21 (key, a) (key, b).
Proof.
  intros Hk Ha Hb. unfold marker_cmp.
  pose proof (enc_cmp 21 (key, a) (key, b) ltac:(done) ltac:(done)) as H.
  change (reversed 21) with true in H. unfold enc in H. cbn [fst snd] in H.
  change (dup_of 21 a) with (Some a) in H. change (dup_of 21 b) with (Some b) in H.
  rewrite H. cbn. by destruct (lcmp 21 (key, a) (key, b)).
Qed.

Lemma lcmp_dups dbi a b : row_ok a → row_ok b → reversed dbi = true → lcmp dbi a b = Eq → a = b.
Proof. intros Ha Hb Hrev H. apply (enc_inj dbi); auto. by apply lcmp_enc in H. Qed.

#[export] Instance marker_le_total key : Total (cmp_le (marker_cmp key)).
Proof.
  intros a b. unfold cmp_le, marker_cmp.
  rewrite (cmp_opp (cmp:=bytes_cmp) (encode 21 key (Some a)) (encode 21 key (Some b))).
  destruct (bytes_cmp _ _); cbn; auto.
Qed.

Lemma marker_le key a b : cmp_le (marker_cmp key) a b ↔
  cmp_le bytes_cmp (encode 21 key (Some b)) (encode 21 key (Some a)).
Proof.
  unfold cmp_le, marker_cmp.
  rewrite (cmp_opp (cmp:=bytes_cmp) (encode 21 key (Some a)) (encode 21 key (Some b))).
  destruct (bytes_cmp _ _); cbn; naive_solver.
Qed.

#[export] Instance marker_le_trans key : Transitive (cmp_le (marker_cmp key)).
Proof. intros a b c. rewrite !marker_le. intros H1 H2. by etrans. Qed.

Lemma marker_rows_NoDup dbi key L : table_sorted dbi L → reversed dbi = true → NoDup (marker_rows key L).
Proof.
  intros HL Hrev. apply (NoDup_fmap_1 (λ v, enc dbi (key, v))).
  assert ((λ v, enc dbi (key, v)) <$> marker_rows key L = enc dbi <$> filter (λ r, r.1 = key) L) as ->.
  { unfold marker_rows. rewrite <-list_fmap_compose. apply list_fmap_ext.
    intros i [k v] Hi%list_elem_of_lookup_2. apply list_elem_of_filter in Hi as [Hi _].
    cbn in *. by subst. }
  eapply sublist_NoDup; [by apply (table_NoDup dbi L)|]. apply fmap_sublist, sublist_filter.
Qed.

Section markers.
Context (key : bytes) (L : list Kv) (Hkey : bytes_ok key) (HL : table_sorted 21 L).

Lemma marker_value_ok v : v ∈ marker_rows key L → bytes_ok v.
Proof. rewrite elem_of_marker_rows. intros H. by apply (table_row_ok 21 L HL) in H as [_ H]. Qed.

Lemma marker_rows_sorted : StronglySorted (λ a b, marker_cmp key a b = Lt) (marker_rows key L).
Proof.
  destruct HL as [Hs Hok]. unfold marker_rows.
  eapply StronglySorted_fmap_in; [|apply (StronglySorted_filter_1 _ _ _ Hs)].
  intros [k a] [k' b] [Hk Ha]%list_elem_of_filter [Hk' Hb]%list_elem_of_filter Hlt. cbn in *. subst.
  rewrite Forall_forall in Hok. apply Hok in Ha as [_ Ha], Hb as [_ Hb]. by rewrite marker_cmp_lcmp.
Qed.

(** Sorting distinct values. *)
Lemma sort_marker_sorted vs : NoDup vs → (∀ v, v ∈ vs → bytes_ok v) →
  StronglySorted (λ a b, marker_cmp key a b = Lt) (sort_marker_values key vs).
Proof.
  intros Hnd Hok. unfold sort_marker_values, slice_sort.
  pose proof (StronglySorted_merge_sort (cmp_le (marker_cmp key)) vs) as Hs.
  pose proof (merge_sort_Permutation (cmp_le (marker_cmp key)) vs) as Hp.
  rewrite <-Hp in Hnd. assert (∀ v, v ∈ merge_sort (cmp_le (marker_cmp key)) vs → bytes_ok v) as Hok'.
  { intros v. rewrite Hp. apply Hok. }
  clear Hp Hok. induction Hs as [|x l Hs IH Hf]; [constructor|].
  apply NoDup_cons in Hnd as [Hx Hnd]. constructor; [apply IH; [done|intros; apply Hok'; by right]|].
  rewrite Forall_forall in *. intros y Hy. specialize (Hf y Hy). unfold cmp_le in Hf.
  destruct (marker_cmp key x y) eqn:E; [|done..]. exfalso.
  assert (bytes_ok x) by (apply Hok'; left). assert (bytes_ok y) by (apply Hok'; by right).
  rewrite marker_cmp_lcmp in E by done. apply lcmp_dups in E as [= ->]; done.
Qed.

Lemma marker_ext vs : (∀ v, v ∈ vs → bytes_ok v) →
  StronglySorted (λ a b, marker_cmp key a b = Lt) vs → (∀ v, v ∈ vs ↔ (key, v) ∈ L) →
  vs = marker_rows key L.
Proof.
  intros Hok Hs Heq. eapply sorted_ext; [exact Hs|apply marker_rows_sorted| |].
  - intros x y Hx Hy H1 H2. unfold marker_cmp in *.
    rewrite (cmp_opp (cmp:=bytes_cmp) (encode 21 key (Some x)) (encode 21 key (Some y))) in H2.
    by destruct (bytes_cmp (encode 21 key (Some x)) (encode 21 key (Some y))).
  - intros v. by rewrite Heq, elem_of_marker_rows.
Qed.
End markers.

(** The values after a put, as [put] keeps them. *)
Lemma marker_rows_insert key val L : bytes_ok key → bytes_ok val → table_sorted 21 L →
  (if decide (val ∈ marker_rows key L) then marker_rows key L
   else sort_marker_values key (marker_rows key L ++ [val])) =
  marker_rows key (row_insert 21 (key, val) L).
Proof.
  intros Hk Hv HL. assert (row_ok (key, val)) as Hr by done.
  assert (table_sorted 21 (row_insert 21 (key, val) L)) as HL' by by apply row_insert_sorted.
  case_decide as E.
  - f_equal. rewrite elem_of_marker_rows in E. apply (table_sorted_ext 21); [done..|].
    intros x. rewrite elem_of_row_insert by done. split; [|by intros [->|[? _]]].
    intros Hx. destruct (decide (lcmp 21 x (key, val) = Eq)) as [Heq|Hne]; [left|by right].
    apply (lcmp_dups 21); [by apply (table_row_ok 21 L HL)|done..].
  - assert (∀ v, v ∈ marker_rows key L ++ [val] → bytes_ok v) as Hok.
    { intros v [Hin|Hin]%elem_of_app; [by apply (marker_value_ok key L HL)|].
      apply list_elem_of_singleton in Hin. by subst. }
    assert (∀ v, v ∈ sort_marker_values key (marker_rows key L ++ [val]) ↔
      v ∈ marker_rows key L ++ [val]) as Hin.
    { intros v. unfold sort_marker_values, slice_sort. by rewrite merge_sort_Permutation. }
    apply marker_ext; [done..|by intros v; rewrite Hin; apply Hok| |].
    + apply sort_marker_sorted; [done| |done]. apply NoDup_app. split_and!.
      * by apply (marker_rows_NoDup 21).
      * intros v Hv' ->%list_elem_of_singleton. done.
      * apply NoDup_singleton.
    + intros v. rewrite Hin, elem_of_app, elem_of_marker_rows, list_elem_of_singleton, elem_of_row_insert by done.
      split.
      * intros [H| ->]; [right|by left]. split; [done|]. intros ?%lcmp_dups; [|by apply (table_row_ok 21 L HL)|done..].
        apply E. rewrite elem_of_marker_rows. congruence.
      * intros [[= ->]|[H _]]; auto.
Qed.

Lemma filter_row_insert (P : Kv → Prop) `{!∀ x, Decision (P x)} dbi r L :
  table_sorted dbi L → row_ok r → ¬ P r → (∀ x, row_ok x → lcmp dbi x r = Eq → ¬ P x) →
  filter P (row_insert dbi r L) = filter P L.
Proof.
  intros HL Hr HP HP'. assert (table_sorted dbi (row_insert dbi r L)) as HL' by by apply row_insert_sorted.
  assert (∀ l, table_sorted dbi l → table_sorted dbi (filter P l)) as Hf.
  { intros l [Hs Hok]. split; [by apply StronglySorted_filter_1|]. rewrite Forall_forall in *.
    intros x [_ Hx]%list_elem_of_filter. auto. }
  apply (table_sorted_ext dbi); [by apply Hf..|]. intros x. rewrite !list_elem_of_filter.
  rewrite elem_of_row_insert by done. split; [naive_solver|]. intros [Hx Hin]. split; [done|]. right.
  split; [done|]. intros Heq. apply (HP' x); [by apply (table_row_ok dbi L HL)|done..].
Qed.

Lemma filter_row_remove (P : Kv → Prop) `{!∀ x, Decision (P x)} dbi r L :
  table_sorted dbi L → row_ok r → (∀ x, row_ok x → lcmp dbi x r = Eq → ¬ P x) →
  filter P (row_remove dbi r L) = filter P L.
Proof.
  intros HL Hr HP. unfold row_remove. rewrite list_filter_filter. apply filter_ext_in. intros x Hx.
  split; [by intros [? _]|]. intros HPx. split; [done|]. intros Heq.
  apply (HP x); [by apply (table_row_ok dbi L HL)|done..].
Qed.

Lemma lcmp_eq_fst dbi x r : row_ok x → row_ok r → lcmp dbi x r = Eq → x.1 = r.1.
Proof. intros Hx Hr H. by apply lcmp_eq_key in H as [? _]. Qed.

Lemma marker_rows_insert_other key k val L : table_sorted 21 L → row_ok (k, val) → key ≠ k →
  marker_rows key (row_insert 21 (k, val) L) = marker_rows key L.
Proof.
  intros HL Hr Hne. unfold marker_rows. rewrite filter_row_insert; [done..|cbn; congruence|].
  intros x Hx H%lcmp_eq_fst; [|done..]. cbn in H. congruence.
Qed.

Lemma marker_rows_remove_other key k val L : table_sorted 21 L → row_ok (k, val) → key ≠ k →
  marker_rows key (row_remove 21 (k, val) L) = marker_rows key L.
Proof.
  intros HL Hr Hne. unfold marker_rows. rewrite filter_row_remove; [done..|].
  intros x Hx H%lcmp_eq_fst; [|done..]. cbn in H. congruence.
Qed.

Lemma marker_rows_remove dbi key val L : table_sorted dbi L → row_ok (key, val) → reversed dbi = true →
  filter (λ v, Some v ≠ Some val) (marker_rows key L) = marker_rows key (row_remove dbi (key, val) L).
Proof.
  intros HL Hr Hrev. unfold marker_rows, row_remove. rewrite filter_fmap_comp. f_equal.
  rewrite !list_filter_filter. apply filter_ext_in. intros [k v] Hx. cbn.
  pose proof (table_row_ok dbi L HL _ Hx) as Hok. split.
  - intros [H ->]. split; [done|]. intros [= ->]%lcmp_dups; done.
  - intros [-> H]. split; [|done]. intros [= ->]. apply H, lcmp_refl. done.
Qed.

(** ** Author heads *)

(** The rows of an author in the index by author. *)
Definition of_author (a : bytes) (r : Kv) : Prop := length r.1 = 40%nat ∧ take 32 r.1 = a.

#[export] Instance of_author_dec a r : Decision (of_author a r).
Proof. unfold of_author. apply _. Defined.

Definition row_position (r : Kv) : option AuthorPosition :=
  if decide (length r.2 = 8%nat) then
    Some (mkAuthorPosition (from_ne_bytes (drop 32 r.1)) (from_ne_bytes r.2))
  else None.

(** The newest two entries; none when one of them is malformed. *)
Definition author_head (a : bytes) (L : list Kv) : option bytes :=
  match reverse (filter (of_author a) L) with
  | [] => None
  | r :: newest =>
      first ← row_position r;
      match newest with
      | [] => Some (AuthorHead_encode (mkAuthorHead first None))
      | r' :: _ =>
          next ← row_position r';
          Some (AuthorHead_encode (mkAuthorHead first (Some next)))
      end
  end.

Lemma filter_split {A} (R : relation A) (P : A → Prop) `{!∀ x, Decision (P x)} (l : list A) :
  StronglySorted R l → (∀ x y, x ∈ l → y ∈ l → P x → ¬ P y → ¬ R x y) →
  l = filter (λ x, ¬ P x) l ++ filter P l.
Proof.
  induction 1 as [|x l Hs IH Hf]; intros HR; [done|]. rewrite !filter_cons. rewrite Forall_forall in Hf.
  destruct (decide (P x)) as [Hx|Hx].
  - rewrite decide_False by tauto. rewrite (filter_none (λ x, ¬ P x) l), (filter_all P l); [done|..].
    + intros y Hy. destruct (decide (P y)); [done|]. exfalso. by eapply (HR x y); [left|right|..]; auto.
    + intros y Hy Hny. by eapply (HR x y); [left|right|..]; auto.
  - rewrite decide_True by done. cbn. f_equal. apply IH. intros a b Ha Hb. apply HR; by right.
Qed.

Section head.
Context (a : bytes) (Ha : length a = 32%nat) (Hok : bytes_ok a).
Local Abbreviation K := (make_key_string_u64 a U64_MAX).
Local Abbreviation D := (to_ne_bytes U64_MAX).

(** A key of the index by author: short ones come first. *)
Lemma author_key_cmp k k' : (length k = 40%nat) → take 32 k = a →
  key_cmp 10 k k' =
  if decide (length k' < 8)%nat then Gt
  else then_with (bytes_cmp a (take (length k' - 8) k'))
         (u64_from_ne (drop 32 k) ?= u64_from_ne (drop (length k' - 8) k')).
Proof.
  intros Hl Ht. change (key_cmp 10 k k') with (cmp_string_u64 k k'). unfold cmp_string_u64, split_tail.
  rewrite bool_decide_true by lia. rewrite Hl. change (40 - 8)%nat with 32%nat. rewrite Ht.
  case_decide; [by rewrite bool_decide_false by lia|]. rewrite bool_decide_true by lia.
  by rewrite match_then_with, cmp_memn_bytes_cmp.
Qed.

Lemma of_author_tail r : (8 ≤ length r.1)%nat → take (length r.1 - 8) r.1 = a ↔ of_author a r.
Proof using Ha.
  intros Hl. unfold of_author. split.
  - intros H. assert (length r.1 = 40%nat) as H40.
    { apply (f_equal length) in H. rewrite length_take, Ha in H. lia. }
    by rewrite H40 in H.
  - intros [H40 H]. by rewrite H40.
Qed.

Lemma bound_key : length K = 40%nat ∧ take 32 K = a ∧ u64_from_ne (drop 32 K) = U64_MAX.
Proof using Ha.
  unfold make_key_string_u64. rewrite length_app, length_to_ne_bytes, Ha.
  rewrite take_app_length', drop_app_length' by done. split_and!; [done..|].
  unfold u64_from_ne. rewrite firstn_all2 by (by rewrite length_to_ne_bytes).
  apply from_to_ne_bytes. unfold u64_ok, U64_MAX. lia.
Qed.

Lemma u64_from_ne_max b : bytes_ok b → u64_from_ne b ≤ U64_MAX.
Proof.
  intros Hb. unfold u64_from_ne.
  pose proof (from_ne_bytes_bound (take 8 b) ltac:(by apply Forall_take) ltac:(rewrite length_take; lia)).
  unfold U64_MAX. lia.
Qed.

Lemma in_head_scan r : in_scan 10 K D true r ↔ lcmp 10 (K, D) r ≠ Lt.
Proof using Ha.
  unfold in_scan. change (reversed 10) with true. rewrite decide_False.
  2: { destruct bound_key as [H _]. intros E. by rewrite E in H. }
  rewrite decide_False; [done|]. intros E. apply (f_equal length) in E. by rewrite length_to_ne_bytes in E.
Qed.

Lemma author_in_scan r : row_ok r → of_author a r → in_scan 10 K D true r.
Proof using Ha Hok.
  intros [Hk Hv] Hr. rewrite in_head_scan. unfold lcmp. cbn [fst snd]. change (reversed 10) with true.
  destruct bound_key as (H1 & H2 & H3). rewrite author_key_cmp by done. pose proof Hr as [Hl Ht].
  rewrite decide_False by lia. rewrite (proj2 (of_author_tail r ltac:(lia))) by done.
  rewrite (cmp_refl bytes_cmp). cbn [then_with]. rewrite H3.
  pose proof (u64_from_ne_max (drop (length r.1 - 8) r.1) ltac:(by apply Forall_drop)) as Hmax.
  destruct (Z.compare_spec U64_MAX (u64_from_ne (drop (length r.1 - 8) r.1))); cbn [then_with]; [|lia|done].
  change (dup_cmp 10 D r.2) with (int_cmp D r.2). unfold int_cmp.
  rewrite bool_decide_true by apply length_to_ne_bytes. case_bool_decide as H8; [|done].
  rewrite from_to_ne_bytes by (unfold u64_ok, U64_MAX; lia).
  pose proof (from_ne_bytes_bound r.2 Hv ltac:(lia)). rewrite Z.compare_ge_iff. unfold U64_MAX. lia.
Qed.

Lemma author_last x r : row_ok r → of_author a x → ¬ of_author a r → in_scan 10 K D true r →
  lcmp 10 x r ≠ Lt.
Proof using Ha Hok.
  intros [Hk Hv] [Hx1 Hx2] Hr. rewrite in_head_scan. unfold lcmp. cbn [fst snd]. change (reversed 10) with true.
  destruct bound_key as (H1 & H2 & H3). rewrite !author_key_cmp by done.
  case_decide as Hl; [done|]. destruct (bytes_cmp a (take (length r.1 - 8) r.1)) eqn:E; [|done..].
  apply (cmp_eq_iff (cmp:=bytes_cmp)) in E. destruct Hr. apply of_author_tail; [lia|done].
Qed.

(** The entries of the author are the last of the scan's range. *)
Lemma head_scan_rows L : table_sorted 10 L →
  scan_rows 10 L K D true =
  reverse (filter (of_author a) L) ++ reverse (filter (λ r, ¬ of_author a r) (filter (in_scan 10 K D true) L)).
Proof using Ha Hok.
  intros [Hs HL]. unfold scan_rows, directed. cbn [negb]. rewrite <-reverse_app. f_equal.
  rewrite Forall_forall in HL.
  rewrite (filter_split (λ r r', lcmp 10 r r' = Lt) (of_author a) (filter (in_scan 10 K D true) L)) at 1.
  - f_equal. rewrite list_filter_filter. apply filter_ext_in. intros r Hr.
    split; [tauto|]. intros H. split; [done|]. apply author_in_scan; auto.
  - by apply StronglySorted_filter_1.
  - intros x y [_ Hx]%list_elem_of_filter [Hy HyL]%list_elem_of_filter Px Py. apply author_last; auto.
Qed.

Lemma head_cb_row st r : head_cb a st (from_logical r.1 r.2) =
  if decide (of_author a r) then
    let '(first, next, malformed) := st in
    match row_position r with
    | None => ((first, next, true), false)
    | Some position =>
        match first with
        | None => ((Some position, next, malformed), true)
        | Some _ => ((first, Some position, malformed), false)
        end
    end
  else (st, false).
Proof using Ha.
  destruct st as [[first next] malformed]. unfold head_cb.
  assert (prefix_matches (from_logical r.1 r.2) a true = bool_decide (of_author a r)) as ->.
  { apply eq_bool_prop_intro. rewrite !Is_true_true, prefix_matches_spec, bool_decide_eq_true.
    unfold from_logical, parse_key_string_u64, split_tail.
    destruct (decide (length r.1 < 8)%nat) as [Hl|Hl].
    - cbn. split; [by intros [[? ?] _]|]. intros [? _]. lia.
    - cbn [ie_created_at]. unfold prefix_bytes. cbn [ie_prefix ie_kind opt_ne_bytes]. rewrite app_nil_r, <-of_author_tail by lia.
      split; [by intros [_ H]|done]. }
  destruct (decide (of_author a r)) as [Hr|Hr];
    [rewrite bool_decide_true by done|by rewrite bool_decide_false by done].
  pose proof Hr as [Hl Ht]. cbn [negb].
  unfold from_logical, parse_key_string_u64, split_tail. rewrite decide_False by lia. rewrite Hl.
  change (40 - 8)%nat with 32%nat. unfold local_id, row_position. cbn [ie_local_id ie_created_at].
  unfold u64_from_ne_checked, u64_from_ne. case_decide; [|done].
  rewrite !firstn_all2 by (rewrite ?length_drop; lia). done.
Qed.

(** The callback stops at a row of someone else. *)
Lemma run_head_others st l : (∀ r, r ∈ l → ¬ of_author a r) →
  (run_cb (λ st key v, head_cb a st (from_logical key v)) st l).1 = st.
Proof using Ha.
  destruct l as [|[k v] l]; intros H; [done|]. cbn [run_cb].
  pose proof (head_cb_row st (k, v)) as E. cbn [fst snd] in E. rewrite E, decide_False; [done|].
  apply H. left.
Qed.

Lemma head_cb_own first next malformed k v : of_author a (k, v) →
  head_cb a (first, next, malformed) (from_logical k v) =
  match row_position (k, v) with
  | None => ((first, next, true), false)
  | Some position =>
      match first with
      | None => ((Some position, next, malformed), true)
      | Some _ => ((first, Some position, malformed), false)
      end
  end.
Proof using Ha.
  intros H. pose proof (head_cb_row (first, next, malformed) (k, v)) as E. cbn [fst snd] in E.
  by rewrite E, decide_True.
Qed.

(** The scan finds the newest two entries of the author. *)
Lemma run_head_rows L others : (∀ r, r ∈ others → ¬ of_author a r) →
  match (run_cb (λ st key v, head_cb a st (from_logical key v)) (None, None, false)
          (reverse (filter (of_author a) L) ++ others)).1 with
  | (first, next, malformed) =>
      (if malformed : bool then None
       else match first with
       | Some first => Some (AuthorHead_encode (mkAuthorHead first next))
       | None => None
       end) = author_head a L
  end.
Proof using Ha.
  intros Ho. unfold author_head.
  assert (∀ r, r ∈ reverse (filter (of_author a) L) → of_author a r) as HL.
  { intros r. rewrite elem_of_reverse. by intros [? _]%list_elem_of_filter. }
  destruct (reverse (filter (of_author a) L)) as [|[k v] newest]; cbn [app].
  { by rewrite run_head_others. }
  cbn [run_cb]. rewrite head_cb_own by (apply HL; left). destruct (row_position (k, v)) as [p|]; [|done].
  destruct newest as [|[k' v'] newest]; cbn [app].
  { by rewrite run_head_others. }
  cbn [run_cb]. rewrite head_cb_own by (apply HL; right; left). by destruct (row_position (k', v')).
Qed.
End head.

(** Heads ignore the rows of others. *)
Lemma author_head_insert a r L : table_sorted 10 L → row_ok r → ¬ of_author a r →
  author_head a (row_insert 10 r L) = author_head a L.
Proof.
  intros HL Hr Hna. unfold author_head. rewrite filter_row_insert; [done..|].
  intros x Hx H%lcmp_eq_fst; [|done..]. unfold of_author. by rewrite H.
Qed.

Lemma author_head_remove a r L : table_sorted 10 L → row_ok r → ¬ of_author a r →
  author_head a (row_remove 10 r L) = author_head a L.
Proof.
  intros HL Hr Hna. unfold author_head. rewrite filter_row_remove; [done..|].
  intros x Hx H%lcmp_eq_fst; [|done..]. unfold of_author. by rewrite H.
Qed.

Lemma head_cb_asks a : asks_entry (head_cb a).
Proof.
  intros [[first next] malformed] e e' (Ht & Hi & Hp & _). unfold head_cb. by rewrite Ht, Hi, Hp.
Qed.

Section derived.
Context `{RL : RocksLaws}.

(** The head of an author is computed from the rows of the transaction. *)
Lemma derived_head_spec t a : staged_wf t → length a = 32%nat → bytes_ok a →
  derived_head t a = Ok (author_head a (rows t 10)).
Proof.
  intros Hwf Ha Hok. assert (valid_dbi 10) as Hd by (unfold valid_dbi; lia).
  unfold derived_head. destruct (txn_cursor_wf t 10 Hwf Hd) as [-> Hc]. cbn [mbind result_bind].
  rewrite (foreach_index_spec (head_cb a) _ None) by
    (done || apply head_cb_asks || (unfold u64_ok, U64_MAX; lia) ||
     (apply Forall_app; split; [done|apply to_le_bytes_ok])).
  cbn [mbind result_bind]. change (c_dbi _) with 10. change (crows _) with (rows t 10).
  rewrite head_scan_rows by (done || by apply rows_sorted).
  set (others := reverse (filter _ (filter _ _))).
  pose proof (run_head_rows a Ha (rows t 10) others) as H.
  destruct (run_cb _ _ _) as [[[first next] malformed] b]. cbn [fst] in H. rewrite <-H; [done|].
  intros r. unfold others. rewrite elem_of_reverse. by intros [? _]%list_elem_of_filter.
Qed.
End derived.
