(* ===== verification/DbOps.v ===== *)
(** * The operations of a write transaction

    [txn_wf]: the entries of a transaction are well formed, and the counts, the
    cached markers and the stored author heads agree with its rows.  Every
    operation keeps it, and does on the rows what its name says. *)

From S2P Require Import Prelude BTreeMap Json DbKeys DbCodec DbIndex DbTxn DbStore DbCursor DbTable DbScan DbTables DbRows DbRw DbDerived.

Local Open Scope Z_scope.

(** An appended key does not follow the last one. *)
Definition not_after_last (dbi : Z) (L : list Kv) (key : bytes) : Prop :=
  match last L with Some r => key_cmp dbi key r.1 ≠ Gt | None => False end.

#[export] Instance not_after_last_dec dbi L key : Decision (not_after_last dbi L key).
Proof. unfold not_after_last. destruct (last L); apply _. Defined.

(** When [put] leaves the table as it is. *)
Definition put_refused (dbi : Z) (L : list Kv) (r : Kv) (flags : Z) : Prop :=
  put_flag flags MDB_NOOVERWRITE = true ∧ row_get r.1 L ≠ None ∨
  put_flag flags MDB_NODUPDATA = true ∧ clash dbi r L ∨
  put_flag flags MDB_APPEND = true ∧ not_after_last dbi L r.1.

#[export] Instance put_refused_dec dbi L r flags : Decision (put_refused dbi L r flags).
Proof. unfold put_refused. apply _. Defined.

Section ops.
Context `{RL : RocksLaws}.

Record txn_wf (t : RwTxn) : Prop := {
  txn_staged : staged_wf t;
  txn_counts dbi : valid_dbi dbi → entries t dbi = Ok (len (rows t dbi));
  txn_bounds dbi : valid_dbi dbi → len (rows t dbi) ≤ U64_MAX;
  txn_counts_dom dbi : is_Some (t_counts t !! dbi) → valid_dbi dbi;
  txn_markers key : is_tag_kind_marker key = true →
    default [] (bt_get bytes_cmp (t_marker_values t) key) = marker_rows key (rows t 21);
  txn_touched a : a ∈ t_touched_authors t → length a = 32%nat ∧ bytes_ok a;
  txn_heads a : length a = 32%nat → bytes_ok a → a ∉ t_touched_authors t →
    bt_get bytes_cmp (cf_items (v_snapshot (t_view t)) HEAD_CF) a = author_head a (rows t 10);
}.

Lemma txn_rows_sorted t dbi : txn_wf t → valid_dbi dbi → table_sorted dbi (rows t dbi).
Proof. intros Hwf Hd. apply rows_sorted; [apply txn_staged|]; done. Qed.

Lemma rows_same t t' dbi : t_view t' = t_view t → t_staged t' = t_staged t → rows t' dbi = rows t dbi.
Proof. unfold rows. by intros -> ->. Qed.

Lemma staged_wf_same t t' : t_view t' = t_view t → t_staged t' = t_staged t → staged_wf t → staged_wf t'.
Proof. intros Hv Hs [H1 H2 H3]. split; rewrite ?Hv, ?Hs; done. Qed.

(** ** Reads *)

Lemma get_spec t dbi key : txn_wf t → valid_dbi dbi → key_ok dbi key →
  get t dbi key = Ok (row_get key (rows t dbi)).
Proof.
  intros Hwf Hd Hk. unfold get. destruct (cached_marker dbi key) eqn:Em.
  - unfold cached_marker in Em. rewrite andb_true_iff, Z.eqb_eq in Em. destruct Em as [-> Em].
    pose proof (txn_markers t Hwf key Em) as Hm. unfold marker_first, row_get. f_equal.
    transitivity (head (marker_rows key (rows t 21))); [|unfold marker_rows; by destruct (filter _ _)].
    rewrite <-Hm. by destruct (bt_get _ _ _).
  - destruct (View_get_spec t dbi key) as [v ->]; [by apply txn_staged|done..].
Qed.

Lemma foreach_full_spec {S} (cb : S → bytes → bytes → S * bool) t dbi key dup reverse s :
  txn_wf t → valid_dbi dbi → bytes_ok key → bytes_ok dup →
  foreach_full t dbi key dup reverse cb s =
  Ok (run_cb cb s (scan_rows dbi (rows t dbi) key dup reverse)).
Proof.
  intros Hwf Hd Hk Hdup. unfold foreach_full.
  destruct (txn_cursor_wf t dbi (txn_staged t Hwf) Hd) as [-> Hc]. cbn [mbind result_bind].
  by rewrite (foreach_spec cb _ None).
Qed.

(** ** Settling a change

    The counts and the markers follow a staged change of the rows of one table;
    [row_insert] and [row_remove] leave the heads of the authors not noted. *)

Definition moved (t t' : RwTxn) : Prop :=
  t_staged t' = t_staged t ∧ same_extra t t' ∧ t_touched_authors t' = t_touched_authors t.

Lemma entries_other t t' dbi : t_view t' = t_view t → t_counts t' !! dbi = t_counts t !! dbi →
  entries t' dbi = entries t dbi.
Proof. unfold entries. by intros -> ->. Qed.

Lemma note_author_touched a dbi key t : a ∉ t_touched_authors (note_author dbi key t) →
  (a ∉ t_touched_authors t) ∧ (dbi = 10 → ∀ v, ¬ of_author a (key, v)).
Proof.
  unfold note_author. destruct (Z.eqb_spec dbi 10) as [->|Hne]; cbn [andb]; [|done].
  destruct (Nat.eqb_spec (length key) 40) as [H40|H40]; cbn [set_touched_authors t_touched_authors].
  - intros H. split; [set_solver|]. intros _ v [_ Ht]. cbn in Ht. set_solver.
  - intros H. split; [done|]. by intros _ v [Hl _].
Qed.

Lemma note_author_ok dbi key t a : bytes_ok key → a ∈ t_touched_authors (note_author dbi key t) →
  a ∈ t_touched_authors t ∨ length a = 32%nat ∧ bytes_ok a.
Proof.
  intros Hk. unfold note_author. destruct (dbi =? 10); cbn [andb]; [|by left].
  destruct (Nat.eqb_spec (length key) 40) as [H40|H40]; [|by left].
  cbn [set_touched_authors t_touched_authors]. intros [->%elem_of_singleton|H]%elem_of_union; [right|by left].
  split; [rewrite length_take; lia|by apply Forall_take].
Qed.

Lemma settle t t1 t' dbi key L : txn_wf t → valid_dbi dbi → bytes_ok key →
  staged_change t t1 dbi key L → moved t1 t' →
  (∀ dbi', dbi' ≠ dbi → t_counts t' !! dbi' = t_counts t !! dbi') →
  entries t' dbi = Ok (len L) → len L ≤ U64_MAX →
  (∀ k, is_tag_kind_marker k = true →
    default [] (bt_get bytes_cmp (t_marker_values t') k) = marker_rows k (rows t1 21)) →
  (dbi = 10 → ∀ a, (∀ v, ¬ of_author a (key, v)) → author_head a L = author_head a (rows t 10)) →
  txn_wf t' ∧ same_extra t t' ∧ rows_change t t' dbi L.
Proof.
  intros Hwf Hd Hk (Hs1 & Hx1 & [Hr1 Ho1] & Hc1 & Hm1 & Ht1) (Hst & Hx & Ht) Hcs He Hb Hm Hh.
  assert (t_view t' = t_view t1) as Hv by apply Hx. assert (t_view t1 = t_view t) as Hv1 by apply Hx1.
  assert (∀ d, rows t' d = rows t1 d) as Hrows by (intros; by apply rows_same).
  split_and!.
  2: { destruct Hx as (?&?&?&?&?), Hx1 as (?&?&?&?&?). unfold same_extra. split_and!; congruence. }
  2: { split; [by rewrite Hrows|]. intros d Hd' Hne. rewrite Hrows. by apply Ho1. }
  split.
  - by apply (staged_wf_same t1).
  - intros d Hd'. rewrite Hrows. destruct (decide (d = dbi)) as [->|Hne]; [by rewrite Hr1|].
    rewrite Ho1 by done. rewrite <-(txn_counts t Hwf) by done. apply entries_other; [congruence|auto].
  - intros d Hd'. rewrite Hrows. destruct (decide (d = dbi)) as [->|Hne]; [by rewrite Hr1|].
    rewrite Ho1 by done. by apply txn_bounds.
  - intros d. destruct (decide (d = dbi)) as [->|Hne]; [done|]. rewrite Hcs by done. by apply txn_counts_dom.
  - intros k Hmk. by rewrite Hm, Hrows.
  - intros a. rewrite Ht, Ht1. intros [Ha|Ha]%note_author_ok; [by apply (txn_touched t Hwf)|done..].
  - intros a Ha Hab. rewrite Ht, Ht1, Hv, Hv1, Hrows. intros [Hna Hof]%note_author_touched.
    rewrite (txn_heads t Hwf) by done. destruct (decide (dbi = 10)) as [->|Hne].
    + rewrite Hr1. symmetry. auto.
    + rewrite Ho1; [done|unfold valid_dbi; lia|done].
Qed.

(** The count follows. *)
Lemma change_count_spec t dbi insert n : entries t dbi = Ok n →
  (if insert : bool then n < U64_MAX else 0 < n) →
  ∃ t', change_count t dbi insert = Ok t' ∧ moved t t' ∧ t_marker_values t' = t_marker_values t ∧
    entries t' dbi = Ok (if insert then n + 1 else n - 1) ∧
    ∀ dbi', dbi' ≠ dbi → t_counts t' !! dbi' = t_counts t !! dbi'.
Proof.
  intros He Hn. unfold change_count. rewrite He. cbn [mbind result_bind].
  assert ((if insert then n <? U64_MAX else 0 <? n) = true) as -> by (destruct insert; lia).
  eexists. split; [done|]. split_and!; [done..| |].
  - unfold entries. cbn [set_counts t_counts]. by rewrite lookup_insert_eq.
  - intros d Hne. cbn [set_counts t_counts]. by rewrite lookup_insert_ne.
Qed.

Lemma marker_key_ok key : is_tag_kind_marker key = true → bytes_ok key.
Proof.
  unfold is_tag_kind_marker. rewrite orb_true_iff, !bool_decide_eq_true.
  intros [->| ->]; unfold SCHEMA_KEY, INDEXED_THROUGH_KEY; repeat constructor; unfold byte_ok; cbn; lia.
Qed.

(** The markers follow an insertion. *)
Lemma marker_put_spec t t1 t2 dbi key val : txn_wf t → valid_dbi dbi → row_ok (key, val) →
  staged_change t t1 dbi key (row_insert dbi (key, val) (rows t dbi)) →
  t_marker_values t2 = t_marker_values t1 →
  ∀ k, is_tag_kind_marker k = true →
    default [] (bt_get bytes_cmp (t_marker_values (marker_put t2 dbi key val)) k) = marker_rows k (rows t1 21).
Proof.
  intros Hwf Hd Hr (_ & _ & [Hr1 Ho1] & _ & Hm1 & _) Hm2 k Hk. pose proof (txn_markers t Hwf k Hk) as Hm.
  assert (valid_dbi 21) as H21 by (unfold valid_dbi; lia).
  pose proof (txn_rows_sorted t 21 Hwf H21) as HL.
  unfold marker_put, cached_marker. destruct (Z.eqb_spec dbi 21) as [->|Hne]; cbn [andb].
  2: { by rewrite Hm2, Hm1, Ho1 by auto. }
  rewrite Hr1. destruct (is_tag_kind_marker key) eqn:Ek; cbn [set_marker_values t_marker_values]; rewrite Hm2, Hm1.
  - rewrite bt_get_insert by apply _. destruct (bytes_cmp k key) eqn:E.
    { apply (cmp_eq_iff (cmp:=bytes_cmp)) in E as ->. cbn [default]. rewrite Hm.
      apply marker_rows_insert; [by apply marker_key_ok|apply Hr|done]. }
    all: rewrite Hm, marker_rows_insert_other; [done..|].
    all: intros ->; by rewrite (cmp_refl bytes_cmp) in E.
  - rewrite Hm, marker_rows_insert_other; [done..|]. congruence.
Qed.

(** The markers follow a removal. *)
Lemma marker_del_spec t t1 t2 dbi key val : txn_wf t → valid_dbi dbi → row_ok (key, val) →
  staged_change t t1 dbi key (row_remove dbi (key, val) (rows t dbi)) →
  t_marker_values t2 = t_marker_values t1 →
  ∀ k, is_tag_kind_marker k = true →
    default [] (bt_get bytes_cmp (t_marker_values (marker_del t2 dbi key (Some val))) k) =
    marker_rows k (rows t1 21).
Proof.
  intros Hwf Hd Hr (_ & _ & [Hr1 Ho1] & _ & Hm1 & _) Hm2 k Hk. pose proof (txn_markers t Hwf k Hk) as Hm.
  assert (valid_dbi 21) as H21 by (unfold valid_dbi; lia).
  pose proof (txn_rows_sorted t 21 Hwf H21) as HL.
  unfold marker_del, cached_marker. destruct (Z.eqb_spec dbi 21) as [->|Hne]; cbn [andb].
  2: { by rewrite Hm2, Hm1, Ho1 by auto. }
  rewrite Hr1. destruct (is_tag_kind_marker key) eqn:Ek; cbn [set_marker_values t_marker_values]; rewrite Hm2, Hm1.
  - rewrite bt_get_insert by apply _. destruct (bytes_cmp k key) eqn:E.
    { apply (cmp_eq_iff (cmp:=bytes_cmp)) in E as ->. cbn [default]. rewrite Hm.
      by apply (marker_rows_remove 21). }
    all: rewrite Hm, marker_rows_remove_other; [done..|].
    all: intros ->; by rewrite (cmp_refl bytes_cmp) in E.
  - rewrite Hm, marker_rows_remove_other; [done..|]. congruence.
Qed.

Lemma moved_trans t1 t2 t3 : moved t1 t2 → moved t2 t3 → moved t1 t3.
Proof.
  intros (? & (?&?&?&?&?) & ?) (? & (?&?&?&?&?) & ?). unfold moved, same_extra. split_and!; congruence.
Qed.

Lemma marker_put_moved t dbi key val : moved t (marker_put t dbi key val) ∧
  t_counts (marker_put t dbi key val) = t_counts t.
Proof. unfold marker_put. by destruct (cached_marker dbi key). Qed.

Lemma marker_del_moved t dbi key val : moved t (marker_del t dbi key val) ∧
  t_counts (marker_del t dbi key val) = t_counts t.
Proof. unfold marker_del. by destruct (cached_marker dbi key). Qed.

Lemma moved_entries t t' dbi : moved t t' → t_counts t' = t_counts t → entries t' dbi = entries t dbi.
Proof. intros (_ & (Hv & _) & _) Hc. unfold entries. by rewrite Hv, Hc. Qed.

Lemma exists_clash t dbi key val : txn_wf t → valid_dbi dbi → put_ok dbi (key, val) →
  (if combined dbi then o ← get t dbi key; Ok (is_some o)
   else o ← raw (t_view t) dbi (enc dbi (key, val)) (Some (t_staged t)); Ok (is_some o)) =
  Ok (bool_decide (clash dbi (key, val) (rows t dbi))).
Proof.
  intros Hwf Hd [Hr H8]. pose proof (txn_staged t Hwf) as Hst.
  pose proof (clash_vis t dbi (key, val) Hst Hd Hr) as Hcl.
  assert (∀ A (o : option A), is_some o = bool_decide (is_Some o)) as Hsome.
  { intros A [x|]; [by rewrite bool_decide_true|]. rewrite bool_decide_false; [done|]. by intros [? ?]. }
  destruct (combined dbi) eqn:Hc.
  - destruct (H8 eq_refl) as [H8' _]. rewrite get_spec by (done || (split; [apply Hr|done])).
    cbn [mbind result_bind]. f_equal. rewrite Hsome. apply bool_decide_ext. rewrite Hcl.
    rewrite row_get_vis by (done || apply Hr || by apply combined_plain).
    destruct (event_key_enc dbi key val Hc) as (-> & -> & _); [split; [apply Hr|done]|].
    by rewrite fmap_is_Some.
  - rewrite raw_phys. cbn [mbind result_bind]. f_equal. rewrite Hsome. apply bool_decide_ext.
    by rewrite Hcl, plain_vis.
Qed.

(** ** put *)

Lemma encode_key_cmp dbi a b : bytes_ok a → bytes_ok b →
  bytes_cmp (encode dbi a None) (encode dbi b None) = rev_if (reversed dbi) (key_cmp dbi a b).
Proof.
  intros Ha Hb. apply sep_cmp. pose proof (encode_sep dbi a b None None Eq Ha Hb sep_nil) as H.
  by destruct (key_cmp dbi a b).
Qed.

Lemma append_refused_spec t dbi key : txn_wf t → valid_dbi dbi → bytes_ok key →
  append_refused t dbi key = Ok (bool_decide (not_after_last dbi (rows t dbi) key)).
Proof.
  intros Hwf Hd Hk. pose proof (txn_staged t Hwf) as Hst. unfold append_refused.
  destruct (txn_cursor_wf t dbi Hst Hd) as [-> _]. cbn [mbind result_bind].
  destruct (txn_cursor_get t dbi None None MDB_LAST (last (rows t dbi))) as (c & -> & _); try done.
  cbn [mbind result_bind]. f_equal. assert (not_after_last dbi (rows t dbi) key ↔ match last (rows t dbi) with
    Some r => key_cmp dbi key r.1 ≠ Gt | None => False end) as Hna by done.
  destruct (last (rows t dbi)) as [[k v]|] eqn:E; [|by rewrite bool_decide_false by tauto].
  apply last_Some_elem_of, (table_row_ok dbi _ (txn_rows_sorted t dbi Hwf Hd)) in E as [Hk' _].
  cbn [fst] in *. pose proof (encode_key_cmp dbi k key Hk' Hk) as H1.
  pose proof (encode_key_cmp dbi key k Hk Hk') as H2. pose proof (key_cmp_opp dbi k key Hk' Hk) as H3.
  destruct (reversed dbi); apply bool_decide_ext; rewrite Hna; unfold cmp_le; [rewrite H1|by rewrite H2].
  rewrite H3. cbn. by destruct (key_cmp dbi k key).
Qed.

(** What [put] does once its flags have let it. *)
Definition put_new (t : RwTxn) (dbi : Z) (key val : bytes) : result DbError (RwTxn * bool) :=
  t1 ← put_staged t dbi key val (enc dbi (key, val));
  t2 ← (if negb (bool_decide (clash dbi (key, val) (rows t dbi))) then change_count t1 dbi true else Ok t1);
  Ok (marker_put t2 dbi key val, true).

Lemma put_row t dbi key val : txn_wf t → valid_dbi dbi → put_ok dbi (key, val) →
  (clash dbi (key, val) (rows t dbi) ∨ len (rows t dbi) < U64_MAX) →
  ∃ t', put_new t dbi key val = Ok (t', true) ∧
    txn_wf t' ∧ same_extra t t' ∧ rows_change t t' dbi (row_insert dbi (key, val) (rows t dbi)).
Proof.
  intros Hwf Hd Hput Hlen. pose proof Hput as [Hr _]. unfold put_new.
  pose proof (txn_rows_sorted t dbi Hwf Hd) as HL.
  destruct (put_staged_spec t dbi key val) as (t1 & -> & Hch); [by apply txn_staged|done..|].
  cbn [mbind result_bind]. set (L := row_insert dbi (key, val) (rows t dbi)) in *.
  assert (entries t1 dbi = Ok (len (rows t dbi))) as He1.
  { rewrite <-(txn_counts t Hwf) by done. destruct Hch as (_ & (Hv & _) & _ & Hc & _). unfold entries. by rewrite Hv, Hc. }
  assert (t_counts t1 = t_counts t) as Hc1 by apply Hch.
  pose proof (length_row_insert dbi (key, val) (rows t dbi) Hr HL) as HlenL. fold L in HlenL.
  assert (∃ t2, (if negb (bool_decide (clash dbi (key, val) (rows t dbi))) then change_count t1 dbi true
      else Ok t1) = Ok t2 ∧ moved t1 t2 ∧ t_marker_values t2 = t_marker_values t1 ∧
      entries t2 dbi = Ok (len L) ∧ ∀ d, d ≠ dbi → t_counts t2 !! d = t_counts t1 !! d) as (t2 & -> & Hmv & Hm2 & He2 & Hc2).
  { case_bool_decide as Hcl; cbn [negb].
    - rewrite decide_True in HlenL by done. exists t1. split_and!; try done. rewrite He1. f_equal. lia.
    - rewrite decide_False in HlenL by done.
      destruct (change_count_spec t1 dbi true _ He1) as (t2 & -> & H1 & H2 & H3 & H4);
        [by destruct Hlen|].
      exists t2. split_and!; try done. rewrite H3. f_equal. lia. }
  cbn [mbind result_bind]. eexists. split; [done|].
  destruct (marker_put_moved t2 dbi key val) as [Hmp Hcp].
  eapply (settle t t1 _ dbi key L); try done; [apply Hr|by eapply moved_trans|..].
  - intros d Hne. rewrite Hcp, Hc2 by done. by rewrite Hc1.
  - by rewrite (moved_entries t2).
  - pose proof (txn_bounds t Hwf dbi Hd). destruct (decide (clash dbi (key, val) (rows t dbi))); [lia|].
    destruct Hlen; [done|lia].
  - by apply (marker_put_spec t t1 t2).
  - intros -> a Ha. unfold L. apply author_head_insert; auto.
Qed.

(** The flags decide whether a put changes the table. *)
Lemma put_flags t dbi key val flags : txn_wf t → valid_dbi dbi → put_ok dbi (key, val) →
  put t dbi key val flags =
  if decide (put_refused dbi (rows t dbi) (key, val) flags) then Ok (t, false) else put_new t dbi key val.
Proof.
  intros Hwf Hd Hput. pose proof Hput as [Hr H8]. unfold put. rewrite valid_cover by done.
  change (encode dbi key (if has_flag dbi MDB_DUPSORT then Some val else None)) with (enc dbi (key, val)).
  rewrite exists_clash by done. cbn [mbind result_bind].
  assert (key_ok dbi key) as Hk by (split; [apply Hr|by intros [? _]%H8]).
  assert ((if put_flag flags MDB_NOOVERWRITE then o ← get t dbi key; Ok (is_some o) else Ok false) =
    Ok (put_flag flags MDB_NOOVERWRITE && is_some (row_get key (rows t dbi)))) as ->.
  { destruct (put_flag flags MDB_NOOVERWRITE); [|done]. by rewrite get_spec. }
  cbn [mbind result_bind].
  assert ((if put_flag flags MDB_APPEND then append_refused t dbi key else Ok false) =
    Ok (put_flag flags MDB_APPEND && bool_decide (not_after_last dbi (rows t dbi) key))) as ->.
  { destruct (put_flag flags MDB_APPEND); [|done]. rewrite append_refused_spec by (done || apply Hr). done. }
  cbn [mbind result_bind].
  set (held := put_flag flags MDB_NOOVERWRITE && is_some _).
  set (late := put_flag flags MDB_APPEND && _). set (dup := put_flag flags MDB_NODUPDATA && _).
  assert (put_refused dbi (rows t dbi) (key, val) flags ↔ held || dup || late = true) as Href.
  { unfold put_refused, held, late, dup. cbn [fst]. rewrite !orb_true_iff, !andb_true_iff, !bool_decide_eq_true.
    destruct (row_get key (rows t dbi)); cbn [is_some]; naive_solver. }
  destruct (held || dup) eqn:E1; [|destruct late eqn:E2].
  1, 2: by rewrite decide_True by (rewrite Href; naive_solver).
  by rewrite decide_False by (rewrite Href; naive_solver).
Qed.

(** Every put: refused by its flags, or a row inserted. *)
Lemma put_spec t dbi key val flags : txn_wf t → valid_dbi dbi → put_ok dbi (key, val) →
  len (rows t dbi) < U64_MAX →
  ∃ t', put t dbi key val flags = Ok (t', bool_decide (¬ put_refused dbi (rows t dbi) (key, val) flags)) ∧
    txn_wf t' ∧ same_extra t t' ∧
    rows_change t t' dbi
      (if decide (put_refused dbi (rows t dbi) (key, val) flags) then rows t dbi
       else row_insert dbi (key, val) (rows t dbi)).
Proof.
  intros Hwf Hd Hput Hlen. rewrite put_flags by done. case_decide as Href.
  - exists t. rewrite bool_decide_false by tauto. by split_and!.
  - rewrite bool_decide_true by done. apply put_row; [done..|by right].
Qed.

(** ** del *)

Lemma row_remove_none dbi r L : ¬ clash dbi r L → row_remove dbi r L = L.
Proof.
  intros H. unfold row_remove. apply filter_all. intros x Hx Heq. apply H. apply Exists_exists. eauto.
Qed.

Lemma marker_del_default t dbi key o : (reversed dbi = true → is_Some o) →
  marker_del t dbi key o = marker_del t dbi key (Some (default [] o)).
Proof.
  intros Ho. unfold marker_del, cached_marker. destruct (Z.eqb_spec dbi 21) as [->|]; [|done].
  by destruct (Ho eq_refl) as [v ->].
Qed.

(** One row removed, when it is there. *)
Lemma del_row_spec t dbi key o : txn_wf t → valid_dbi dbi → row_ok (key, default [] o) →
  key_ok dbi key → (reversed dbi = true → is_Some o) →
  ∃ t', del_row t dbi key o = Ok (t', bool_decide (clash dbi (key, default [] o) (rows t dbi))) ∧
    txn_wf t' ∧ same_extra t t' ∧ rows_change t t' dbi (row_remove dbi (key, default [] o) (rows t dbi)).
Proof.
  intros Hwf Hd Hr [_ H8] Ho. pose proof (txn_rows_sorted t dbi Hwf Hd) as HL.
  set (val := default [] o) in *. unfold del_row.
  assert (encode dbi key (if has_flag dbi MDB_DUPSORT then o else None) = enc dbi (key, val)) as ->.
  { unfold enc, dup_of, val, reversed in *. cbn [fst snd]. destruct (has_flag dbi MDB_DUPSORT); [|done].
    by destruct (Ho eq_refl) as [v ->]. }
  pose proof (del_staged_spec t dbi key val (txn_staged t Hwf) Hd Hr H8) as Hdel.
  destruct (decide (clash dbi (key, val) (rows t dbi))) as [Hcl|Hcl].
  2: { rewrite Hdel. cbn [mbind result_bind]. rewrite bool_decide_false by done. exists t.
       rewrite row_remove_none by done. by split_and!. }
  rewrite bool_decide_true by done. destruct Hdel as (t1 & -> & Hch). cbn [mbind result_bind].
  assert (entries t1 dbi = Ok (len (rows t dbi))) as He1.
  { rewrite <-(txn_counts t Hwf) by done. destruct Hch as (_ & (Hv & _) & _ & Hc & _). unfold entries. by rewrite Hv, Hc. }
  assert (t_counts t1 = t_counts t) as Hc1 by apply Hch.
  pose proof (length_row_remove dbi (key, val) (rows t dbi) Hr HL) as Hlen. rewrite decide_True in Hlen by done.
  destruct (change_count_spec t1 dbi false _ He1 ltac:(cbn; lia)) as (t2 & -> & Hmv & Hm2 & He2 & Hc2).
  cbn [mbind result_bind]. eexists. split; [done|]. rewrite marker_del_default by done. fold val.
  destruct (marker_del_moved t2 dbi key (Some val)) as [Hmd Hcd].
  eapply (settle t t1 _ dbi key _); try done; [apply Hr|by eapply moved_trans|..].
  - intros d Hne. rewrite Hcd, Hc2 by done. by rewrite Hc1.
  - rewrite (moved_entries t2) by done. rewrite He2. f_equal. lia.
  - pose proof (txn_bounds t Hwf dbi Hd). lia.
  - by apply (marker_del_spec t t1 t2).
  - intros -> a Ha. apply author_head_remove; auto.
Qed.

(** ** Loops over rows *)

(** The next duplicate, in a table split at the current row. *)
Lemma next_dup c k v l1 l : cursor_wf c (Some (k, v)) →
  filter (λ r, r.1 = k) (crows c) = l1 ++ (k, v) :: l →
  returns c (Some (k, v)) (Cursor_get c None None MDB_NEXT_DUP) (head l).
Proof.
  intros Hc HF. pose proof (crows_sorted c _ Hc) as HL. pose proof (crows_ok c _ Hc) as Hok.
  apply Cursor_get_returns; [done..|]. cbn [cursor_spec mbind option_bind fst]. f_equal. f_equal.
  pose proof (StronglySorted_filter_1 _ (λ r, r.1 = k) _ HL) as HLf. rewrite HF in HLf.
  assert (∀ r, r ∈ l1 ++ (k, v) :: l → row_ok r) as Hokf.
  { intros r. rewrite <-HF. intros [_ Hr]%list_elem_of_filter. auto. }
  rewrite <-(proj1 (sorted_split_gt _ _ _ _ HLf Hokf)), <-HF, list_filter_filter.
  apply filter_ext_in. intros; tauto.
Qed.

Lemma dups_loop k l2 fuel c v l1 acc : cursor_wf c (Some (k, v)) →
  filter (λ r, r.1 = k) (crows c) = l1 ++ (k, v) :: l2 → (length l2 + 2 ≤ fuel)%nat →
  loop dups_step out_of_fuel fuel (c, Some (k, v), acc) = Ok (acc ++ v :: l2.*2).
Proof.
  revert fuel c v l1 acc. induction l2 as [|[k1 v1] l2 IH]; intros fuel c v l1 acc Hc HF Hf;
    (destruct fuel as [|fuel]; [cbn in Hf; lia|]); cbn [loop dups_step];
    destruct (next_dup c k v l1 _ Hc HF) as (c' & -> & Hs & Hw); cbn [mbind result_bind head] in *.
  - destruct fuel as [|fuel]; [cbn in Hf; lia|]. done.
  - assert (k1 = k) as ->.
    { assert ((k1, v1) ∈ filter (λ r, r.1 = k) (crows c)) as Hin by (rewrite HF; set_solver).
      by apply list_elem_of_filter in Hin as [Hin _]. }
    rewrite (IH fuel c' v1 (l1 ++ [(k, v)])); [by rewrite <-app_assoc|done| |cbn in Hf; lia].
    by rewrite (same_table_crows _ _ Hs), HF, <-app_assoc.
Qed.

Lemma dups_spec t dbi key : txn_wf t → valid_dbi dbi → bytes_ok key →
  dups t dbi key = Ok (marker_rows key (rows t dbi)).
Proof.
  intros Hwf Hd Hk. unfold dups. pose proof (txn_staged t Hwf) as Hst.
  destruct (txn_cursor_wf t dbi Hst Hd) as [-> _]. cbn [mbind result_bind].
  destruct (txn_cursor_get t dbi (Some key) None MDB_SET_KEY
    (head (filter (λ r, r.1 = key) (rows t dbi)))) as (c & -> & Hw & Hs); try done.
  { by intros b [= <-]. }
  cbn [mbind result_bind]. unfold marker_rows.
  destruct (filter (λ r, r.1 = key) (rows t dbi)) as [|[k v] l2] eqn:E; [done|]. cbn [head] in *.
  assert (k = key) as ->.
  { assert ((k, v) ∈ filter (λ r, r.1 = key) (rows t dbi)) as Hin by (rewrite E; left).
    by apply list_elem_of_filter in Hin as [Hin _]. }
  assert (filter (λ r, r.1 = key) (crows c) = [] ++ (key, v) :: l2) as HF.
  { by rewrite (same_table_crows _ _ Hs). }
  rewrite (dups_loop key l2 _ c v []); [done..|].
  pose proof (crows_length c _ Hw). pose proof (length_filter (λ r, r.1 = key) (crows c)) as Hl.
  rewrite HF in Hl. cbn in Hl. lia.
Qed.

Lemma clear_loop l2 fuel c r0 l1 acc : cursor_wf c (Some r0) → crows c = l1 ++ r0 :: l2 →
  (length l2 + 2 ≤ fuel)%nat →
  loop clear_step out_of_fuel fuel (c, Some r0, acc) = Ok (acc ++ r0 :: l2).
Proof.
  revert fuel c r0 l1 acc. induction l2 as [|r1 l2 IH]; intros fuel c r0 l1 acc Hc HD Hf;
    (destruct fuel as [|fuel]; [cbn in Hf; lia|]); cbn [loop clear_step];
    destruct (step_returns c r0 false l1 _ Hc HD) as (c' & E & Hs & Hw); cbn [head] in E, Hw; rewrite E;
    cbn [mbind result_bind].
  - destruct fuel as [|fuel]; [cbn in Hf; lia|]. done.
  - rewrite (IH fuel c' r1 (l1 ++ [r0])); [by rewrite <-app_assoc|done| |cbn in Hf; lia].
    by rewrite (same_table_crows _ _ Hs), HD, <-app_assoc.
Qed.

(** What [del] leaves: a table with duplicates loses every row of the key when
    no duplicate is named. *)
Definition row_del (dbi : Z) (key : bytes) (o : option bytes) (L : list Kv) : list Kv :=
  if reversed dbi && negb (is_some o) then filter (λ r, r.1 ≠ key) L
  else row_remove dbi (key, default [] o) L.

Lemma rows_change_trans t t1 t2 dbi L1 L2 : rows_change t t1 dbi L1 → rows_change t1 t2 dbi L2 →
  rows_change t t2 dbi L2.
Proof.
  intros [_ H1] [H2 H3]. split; [done|]. intros d Hd Hne. by rewrite H3, H1.
Qed.

Lemma same_extra_trans t t1 t2 : same_extra t t1 → same_extra t1 t2 → same_extra t t2.
Proof. intros (?&?&?&?&?) (?&?&?&?&?). unfold same_extra. split_and!; congruence. Qed.

Lemma del_all_dups vs t dbi key b : txn_wf t → valid_dbi dbi → key_ok dbi key → reversed dbi = true →
  marker_rows key (rows t dbi) = vs →
  ∃ t', try_fold (λ '(t, removed) v,
      '(t, r) ← del_row t dbi key (Some v); Ok (t, removed || r)) (t, b) vs =
      Ok (t', b || bool_decide (vs ≠ [])) ∧
    txn_wf t' ∧ same_extra t t' ∧ rows_change t t' dbi (filter (λ r, r.1 ≠ key) (rows t dbi)).
Proof.
  revert t b. induction vs as [|v vs IH]; intros t b Hwf Hd Hk Hrev Hvs; cbn [try_fold].
  - exists t. rewrite bool_decide_false, orb_false_r by tauto. split_and!; try done.
    split; [|done]. symmetry. apply filter_all. intros r Hr <-.
    assert (r.2 ∈ marker_rows r.1 (rows t dbi)) as Hin.
    { apply elem_of_marker_rows. by destruct r. }
    rewrite Hvs in Hin. by apply not_elem_of_nil in Hin.
  - pose proof (txn_rows_sorted t dbi Hwf Hd) as HL.
    assert ((key, v) ∈ rows t dbi) as Hin by (apply elem_of_marker_rows; rewrite Hvs; left).
    pose proof (table_row_ok dbi _ HL _ Hin) as Hr.
    destruct (del_row_spec t dbi key (Some v)) as (t1 & -> & Hwf1 & Hx1 & Hch1); try done.
    cbn [mbind result_bind default] in *. rewrite bool_decide_true.
    2: { apply Exists_exists. exists (key, v). split; [done|]. by apply lcmp_refl. }
    pose proof Hch1 as [Hr1 _].
    destruct (IH t1 (b || true)) as (t2 & -> & Hwf2 & Hx2 & Hch2); try done.
    { rewrite Hr1, <-marker_rows_remove, Hvs by done. pose proof (marker_rows_NoDup dbi key _ HL Hrev) as Hnd.
      rewrite Hvs in Hnd. apply NoDup_cons in Hnd as [Hv Hnd]. rewrite filter_cons, decide_False by naive_solver.
      apply filter_all. intros x Hx [= ->]. done. }
    exists t2. rewrite !orb_true_r. cbn [orb].
    split_and!; [done..|by eapply same_extra_trans|].
    eapply rows_change_trans; [exact Hch1|]. destruct Hch2 as [H1 H2]. split; [|done].
    rewrite H1, Hr1. apply filter_row_remove; [done..|]. intros x Hx Heq%lcmp_eq_fst; [|done..]. cbn in Heq. tauto.
Qed.

Lemma clash_remove dbi r L : row_ok r → table_sorted dbi L →
  clash dbi r L ↔ row_remove dbi r L ≠ L.
Proof.
  intros Hr HL. pose proof (length_row_remove dbi r L Hr HL) as Hlen. case_decide as Hc.
  - split; [|done]. intros _ E. rewrite E in Hlen. lia.
  - split; [done|]. intros Hne. destruct Hne. by apply row_remove_none.
Qed.

(** Every deletion. *)
Lemma del_spec t dbi key o : txn_wf t → valid_dbi dbi → key_ok dbi key → opt_bytes_ok o →
  ∃ t', del t dbi key o = Ok (t', bool_decide (row_del dbi key o (rows t dbi) ≠ rows t dbi)) ∧
    txn_wf t' ∧ same_extra t t' ∧ rows_change t t' dbi (row_del dbi key o (rows t dbi)).
Proof.
  intros Hwf Hd Hk Ho. pose proof (txn_rows_sorted t dbi Hwf Hd) as HL. unfold del, row_del.
  rewrite valid_cover by done. change (has_flag dbi MDB_DUPSORT) with (reversed dbi).
  destruct (reversed dbi && negb (is_some o)) eqn:E.
  - apply andb_true_iff in E as [Hrev _].
    assert ((if cached_marker dbi key then Ok (default [] (bt_get bytes_cmp (t_marker_values t) key))
             else dups t dbi key) = Ok (marker_rows key (rows t dbi))) as ->.
    { destruct (cached_marker dbi key) eqn:Em; [|apply dups_spec; [done..|apply Hk]].
      unfold cached_marker in Em. rewrite andb_true_iff, Z.eqb_eq in Em. destruct Em as [-> Em].
      by rewrite (txn_markers t Hwf). }
    cbn [mbind result_bind].
    destruct (del_all_dups (marker_rows key (rows t dbi)) t dbi key false) as (t' & -> & H); try done.
    exists t'. split; [|done]. cbn [orb]. do 2 f_equal. apply bool_decide_ext. unfold marker_rows.
    split.
    + intros Hne E. destruct Hne. rewrite (filter_none (λ r, r.1 = key)); [done|].
      intros r Hr. rewrite <-E in Hr. by apply list_elem_of_filter in Hr as [? _].
    + intros Hne E. destruct Hne. apply filter_all. intros r Hr <-.
      apply fmap_nil_inv in E. by apply (filter_nil_not_elem_of (λ r', r'.1 = r.1) (rows t dbi) r E).
  - assert (row_ok (key, default [] o)) as Hr.
    { split; [apply Hk|]. destruct o as [v|]; [by apply Ho|constructor]. }
    destruct (del_row_spec t dbi key o) as (t' & -> & H); try done.
    { intros Hrev. rewrite Hrev in E. by destruct o. }
    exists t'. split; [|done]. do 2 f_equal. apply bool_decide_ext. by apply clash_remove.
Qed.

(** Deleting the rows one by one. *)
Lemma clear_rows rs t dbi : txn_wf t → valid_dbi dbi → (∀ r, r ∈ rs → key_ok dbi r.1 ∧ row_ok r) →
  ∃ t', try_fold (λ t '(k, v),
      '(t, _) ← del t dbi k (if has_flag dbi MDB_DUPSORT then Some v else None); Ok t) t rs = Ok t' ∧
    txn_wf t' ∧ same_extra t t' ∧
    rows_change t t' dbi (filter (λ x, Forall (λ r, lcmp dbi x r ≠ Eq) rs) (rows t dbi)).
Proof.
  change (has_flag dbi MDB_DUPSORT) with (reversed dbi).
  revert t. induction rs as [|[k v] rs IH]; intros t Hwf Hd Hrs; cbn [try_fold].
  - exists t. split_and!; try done. split; [|done]. symmetry. apply filter_all. by constructor.
  - destruct (Hrs (k, v) ltac:(left)) as [Hk Hr].
    destruct (del_spec t dbi k (if reversed dbi then Some v else None)) as (t1 & -> & Hwf1 & Hx1 & Hch1); try done.
    { intros b. destruct (reversed dbi); [|done]. intros [= <-]. apply Hr. }
    cbn [mbind result_bind].
    destruct (IH t1) as (t2 & -> & Hwf2 & Hx2 & Hch2); try done.
    { intros r Hin. apply Hrs. by right. }
    exists t2. split_and!; [done..|by eapply same_extra_trans|]. eapply rows_change_trans; [done|].
    destruct Hch2 as [H2 H2'], Hch1 as [H1 _]. split; [|done]. rewrite H2, H1.
    assert (row_del dbi k (if reversed dbi then Some v else None) (rows t dbi) =
      row_remove dbi (k, v) (rows t dbi)) as ->.
    { unfold row_del. destruct (reversed dbi) eqn:Hrev; cbn [andb negb is_some default]; [done|].
      unfold row_remove, lcmp. by rewrite Hrev. }
    unfold row_remove. rewrite list_filter_filter. apply filter_ext_in. intros x Hx.
    rewrite Forall_cons. tauto.
Qed.

(** The keys of every table are such that the rows can be deleted. *)
Lemma rows_key_ok t dbi r : txn_wf t → valid_dbi dbi → r ∈ rows t dbi → key_ok dbi r.1.
Proof.
  intros Hwf Hd Hr. pose proof (table_row_ok dbi _ (txn_rows_sorted t dbi Hwf Hd) r Hr) as [Hk _].
  split; [done|]. intros Hc. destruct (txn_staged t Hwf) as [Hs Ht _]. unfold rows in Hr.
  rewrite elem_of_trows in Hr by auto. unfold vis in Hr.
  destruct (phys_get _ _ _ _) as [value|] eqn:E; [|done]. cbn [mbind option_bind] in Hr.
  apply (Ht dbi Hd) in E. unfold phys_ok in E. rewrite Hc in E.
  destruct E as (id & rec & Hid & Hpk & -> & Hrec & _). rewrite Hpk, row_of_combined in Hr by done.
  destruct (component dbi rec); [|done]. injection Hr as <-. apply length_to_ne_bytes.
Qed.

Lemma clear_spec t dbi : txn_wf t → valid_dbi dbi →
  ∃ t', clear t dbi = Ok t' ∧ txn_wf t' ∧ same_extra t t' ∧ rows_change t t' dbi [].
Proof.
  intros Hwf Hd. pose proof (txn_rows_sorted t dbi Hwf Hd) as HL. unfold clear.
  pose proof (txn_staged t Hwf) as Hst. destruct (txn_cursor_wf t dbi Hst Hd) as [-> _]. cbn [mbind result_bind].
  destruct (txn_cursor_get t dbi None None MDB_FIRST (head (rows t dbi))) as (c & -> & Hw & Hs); try done.
  cbn [mbind result_bind].
  assert (loop clear_step out_of_fuel (S (cursor_fuel c)) (c, head (rows t dbi), []) = Ok (rows t dbi)) as ->.
  { destruct (rows t dbi) as [|r0 l2] eqn:E; [done|]. cbn [head] in *.
    assert (crows c = [] ++ r0 :: l2) as HD by (by rewrite (same_table_crows _ _ Hs)).
    rewrite (clear_loop l2 _ c r0 []); [done..|]. pose proof (crows_length c _ Hw) as Hl. rewrite HD in Hl.
    cbn in Hl. lia. }
  cbn [mbind result_bind].
  destruct (clear_rows (rows t dbi) t dbi) as (t' & -> & Hwf' & Hx & Hch); try done.
  { intros r Hr. split; [by eapply rows_key_ok|by apply (table_row_ok dbi _ HL)]. }
  exists t'. split_and!; try done. rewrite filter_none in Hch; [done|]. intros x Hx' Hf.
  rewrite Forall_forall in Hf. apply (Hf x); [done|]. apply lcmp_refl. by apply (table_row_ok dbi _ HL).
Qed.
End ops.
