(* ===== verification/DbLogic.v ===== *)
(** * Reasoning about code over transactions

    [wp E r Q]: the result [r] is a value with [Q], or an error with [E].  The
    operations of a transaction in this form, with the rows described by
    membership: enough, since sorted tables with the same rows are equal.  A put
    fails only when the count of a table is exhausted. *)

From S2P Require Import Prelude BTreeMap Json DbKeys DbCodec DbIndex DbTxn DbState DbStore DbCursor DbTable DbScan DbTables DbRows DbRw DbDerived DbOps.

Local Open Scope Z_scope.

Definition wp {Er A} (E : Er → Prop) (r : result Er A) (Q : A → Prop) : Prop :=
  match r with Ok a => Q a | Err e => E e end.

Lemma wp_bind {Er A B} (E : Er → Prop) (r : result Er A) (k : A → result Er B) Q :
  wp E r (λ a, wp E (k a) Q) → wp E (a ← r; k a) Q.
Proof. by destruct r. Qed.

Lemma wp_mono {Er A} (E : Er → Prop) (r : result Er A) (P Q : A → Prop) :
  wp E r P → (∀ a, P a → Q a) → wp E r Q.
Proof. destruct r; cbn; auto. Qed.

Lemma wp_seq {Er A B} (E : Er → Prop) (r : result Er A) (P : A → Prop) (k : A → result Er B) Q :
  wp E r P → (∀ a, P a → wp E (k a) Q) → wp E (a ← r; k a) Q.
Proof. intros H1 H2. apply wp_bind. by eapply wp_mono. Qed.

Lemma wp_weaken {Er A} (E F : Er → Prop) (r : result Er A) Q :
  (∀ e, E e → F e) → wp E r Q → wp F r Q.
Proof. destruct r; cbn; auto. Qed.

Lemma wp_Ok {Er A} (E : Er → Prop) (r : result Er A) a (Q : A → Prop) : wp E r Q → r = Ok a → Q a.
Proof. by intros H ->. Qed.

(** The 64-bit counters that can run out. *)
Definition exhausted (e : DbError) : Prop :=
  e ∈ [rocks_msg "entry counter overflow/underflow";
       DbError_msg "local event sequence exhausted"; DbError_msg "author count overflow";
       DbError_msg "visibility generation exhausted"; DbError_msg "replacement count overflow or drift"].

Ltac exhaust := unfold exhausted; rewrite !elem_of_cons; tauto.

Lemma put_flag_0 f : put_flag 0 f = false.
Proof. unfold put_flag. by rewrite Z.land_0_l. Qed.

Lemma put_refused_0 dbi L r : ¬ put_refused dbi L r 0.
Proof. unfold put_refused. rewrite !put_flag_0. naive_solver. Qed.

Section logic.
Context `{RL : RocksLaws}.
Implicit Types (t : RwTxn) (dbi : Z) (k v : bytes) (x : Kv).

Lemma rows_ok t dbi x : txn_wf t → valid_dbi dbi → x ∈ rows t dbi → row_ok x.
Proof. intros Hwf Hd. apply (table_row_ok dbi). by apply txn_rows_sorted. Qed.

(** Membership determines the rows. *)
Lemma rows_ext t t' dbi : txn_wf t → txn_wf t' → valid_dbi dbi →
  (∀ x, x ∈ rows t' dbi ↔ x ∈ rows t dbi) → rows t' dbi = rows t dbi.
Proof. intros Hwf Hwf' Hd Hx. by eapply table_sorted_ext; [apply txn_rows_sorted..|]. Qed.

(** Two rows of a table that are the same to it. *)
Lemma same_row t dbi x y : txn_wf t → valid_dbi dbi → x ∈ rows t dbi → row_ok y →
  lcmp dbi x y = Eq ↔ if reversed dbi then x = y else x.1 = y.1.
Proof.
  intros Hwf Hd Hx Hy. rewrite lcmp_eq_key by (done || by eapply rows_ok).
  destruct x as [k v], y as [k' v'], (reversed dbi); cbn; naive_solver.
Qed.

(** ** The operations *)

Lemma put_full t dbi k v flags : txn_wf t → valid_dbi dbi → put_ok dbi (k, v) →
  wp exhausted (put t dbi k v flags) (λ '(t', b),
    b = bool_decide (¬ put_refused dbi (rows t dbi) (k, v) flags) ∧ txn_wf t' ∧ same_extra t t' ∧
    rows_change t t' dbi (if decide (put_refused dbi (rows t dbi) (k, v) flags) then rows t dbi
                          else row_insert dbi (k, v) (rows t dbi))).
Proof.
  intros Hwf Hd Hput.
  destruct (decide (len (rows t dbi) < U64_MAX)) as [Hlen|Hlen].
  { destruct (put_spec t dbi k v flags) as (t' & -> & Hp); [done..|]. by split. }
  rewrite put_flags by done. case_decide as Href; cbn [wp].
  { rewrite bool_decide_false by tauto. by split_and!. }
  rewrite bool_decide_true by done.
  destruct (decide (clash dbi (k, v) (rows t dbi))) as [Hc|Hc].
  { destruct (put_row t dbi k v) as (t' & -> & H); [done..|by left|]. by split. }
  unfold put_new. rewrite bool_decide_false by done. cbn [negb].
  destruct (put_staged_spec t dbi k v) as (t1 & -> & Hch); [by apply txn_staged|done..|].
  cbn [mbind result_bind]. unfold change_count.
  assert (entries t1 dbi = Ok (len (rows t dbi))) as ->.
  { rewrite <-(txn_counts t Hwf) by done. destruct Hch as (_ & (Hv & _) & _ & Hcn & _).
    unfold entries. by rewrite Hv, Hcn. }
  cbn [mbind result_bind]. replace (_ <? _) with false by (symmetry; apply Z.ltb_ge; lia).
  cbn [mbind result_bind wp]. exhaust.
Qed.

Lemma put_wp t dbi k v : txn_wf t → valid_dbi dbi → put_ok dbi (k, v) →
  wp exhausted (put t dbi k v 0) (λ '(t', b),
    b = true ∧ txn_wf t' ∧ same_extra t t' ∧ rows_change t t' dbi (row_insert dbi (k, v) (rows t dbi))).
Proof.
  intros Hwf Hd Hput. eapply wp_mono; [by apply put_full|]. intros [t' b] (-> & H1 & H2 & H3).
  rewrite decide_False in H3 by apply put_refused_0. rewrite bool_decide_true by apply put_refused_0. done.
Qed.

Lemma del_wp E t dbi k o : txn_wf t → valid_dbi dbi → key_ok dbi k → opt_bytes_ok o →
  wp E (del t dbi k o) (λ '(t', b),
    b = bool_decide (row_del dbi k o (rows t dbi) ≠ rows t dbi) ∧ txn_wf t' ∧ same_extra t t' ∧
    rows_change t t' dbi (row_del dbi k o (rows t dbi))).
Proof. intros Hwf Hd Hk Ho. by destruct (del_spec t dbi k o) as (t' & -> & H). Qed.

(** ** Rows by membership *)

Lemma change_members t t' dbi L : txn_wf t → rows_change t t' dbi L →
  ∀ d x, valid_dbi d → x ∈ rows t' d ↔ if decide (d = dbi) then x ∈ L else x ∈ rows t d.
Proof. intros Hwf [H1 H2] d x Hd. case_decide as E; [by rewrite E, H1|by rewrite H2]. Qed.

Lemma elem_of_insert_dup t dbi k v x : txn_wf t → valid_dbi dbi → row_ok (k, v) → reversed dbi = true →
  x ∈ row_insert dbi (k, v) (rows t dbi) ↔ x = (k, v) ∨ x ∈ rows t dbi.
Proof.
  intros Hwf Hd Hr Hrev. rewrite elem_of_row_insert by (done || by apply txn_rows_sorted).
  split; [naive_solver|]. intros [->|Hx]; [by left|]. destruct (decide (x = (k, v))) as [->|Hne]; [by left|].
  right. split; [done|]. rewrite same_row by done. by rewrite Hrev.
Qed.

Lemma elem_of_remove_dup t dbi k v x : txn_wf t → valid_dbi dbi → row_ok (k, v) → reversed dbi = true →
  x ∈ row_del dbi k (Some v) (rows t dbi) ↔ x ∈ rows t dbi ∧ x ≠ (k, v).
Proof.
  intros Hwf Hd Hr Hrev. unfold row_del. rewrite Hrev. cbn [is_some negb andb default].
  rewrite elem_of_row_remove. split; intros [Hx Hc]; (split; [done|]); rewrite same_row, Hrev in * by done; done.
Qed.

(** ** Tables without duplicates *)

Lemma elem_of_insert_plain t dbi k v x : txn_wf t → valid_dbi dbi → row_ok (k, v) → reversed dbi = false →
  x ∈ row_insert dbi (k, v) (rows t dbi) ↔ x = (k, v) ∨ x ∈ rows t dbi ∧ x.1 ≠ k.
Proof.
  intros Hwf Hd Hr Hrev. rewrite elem_of_row_insert by (done || by apply txn_rows_sorted).
  split; (intros [->|[Hx Hc]]; [by left|right]); (split; [done|]); rewrite same_row, Hrev in * by done; done.
Qed.

Lemma elem_of_remove_plain t dbi k x : txn_wf t → valid_dbi dbi → bytes_ok k → reversed dbi = false →
  x ∈ row_del dbi k None (rows t dbi) ↔ x ∈ rows t dbi ∧ x.1 ≠ k.
Proof.
  intros Hwf Hd Hk Hrev. unfold row_del. rewrite Hrev. cbn [andb default].
  assert (row_ok (k, [])) by by split.
  rewrite elem_of_row_remove. split; intros [Hx Hc]; (split; [done|]); rewrite same_row, Hrev in * by done; done.
Qed.

Lemma get_plain t dbi k v : txn_wf t → valid_dbi dbi → reversed dbi = false →
  row_get k (rows t dbi) = Some v ↔ (k, v) ∈ rows t dbi.
Proof.
  intros Hwf Hd Hrev. split.
  - unfold row_get. intros ([k' v'] & Hh & ->)%fmap_Some.
    by apply head_Some_elem_of, list_elem_of_filter in Hh as [<- Hin].
  - intros Hin. by apply (row_get_plain dbi _ (k, v)); [apply txn_rows_sorted|..].
Qed.

Lemma row_get_put t t' dbi k v k' : txn_wf t → txn_wf t' → valid_dbi dbi → row_ok (k, v) →
  reversed dbi = false → rows t' dbi = row_insert dbi (k, v) (rows t dbi) →
  row_get k' (rows t' dbi) = if decide (k' = k) then Some v else row_get k' (rows t dbi).
Proof.
  intros Hwf Hwf' Hd Hr Hrev E. apply option_eq. intros v'. rewrite get_plain, E by done.
  rewrite elem_of_insert_plain by done. cbn [fst]. case_decide as Hk.
  - subst k'. naive_solver.
  - rewrite get_plain by done. naive_solver.
Qed.

(** The last key of a table of integer keys. *)
Lemma largest_wp E t dbi : txn_wf t → valid_dbi dbi →
  (∀ x, x ∈ rows t dbi → length x.1 = 8%nat) →
  wp E (largest_integer_key t dbi)
    (λ n, n = match last (rows t dbi) with Some r => from_ne_bytes r.1 | None => 0 end).
Proof.
  intros Hwf Hd H8. unfold largest_integer_key.
  destruct (txn_cursor_get t dbi None None MDB_LAST (last (rows t dbi))) as (c & Hc & _); try done.
  { by apply txn_staged. }
  rewrite (proj1 (txn_cursor_wf t dbi (txn_staged t Hwf) Hd)). cbn [mbind result_bind]. unfold largest. rewrite Hc. cbn [mbind result_bind].
  destruct (last (rows t dbi)) as [[k v]|] eqn:El; [|done].
  apply last_Some_elem_of, H8 in El. cbn in El. by rewrite decide_True.
Qed.

End logic.

(** Going through a sequence of steps: the next one by its specification. *)
Ltac wp_step H := eapply wp_seq; [eapply H|].
