(* ===== verification/DbCounters.v ===== *)
(** * What the bookkeeping of state.rs computes

    The values of the counters as the transaction sees them: a field when it is
    set, else the stored row, else what is derived from the tables.  Each
    operation of DbState in terms of these values; the flush stores them. *)

From S2P Require Import Prelude BTreeMap Json Kinds DbKeys DbCodec DbIndex DbTxn DbState DbWrite DbStore DbCursor DbTable DbScan DbTables DbRows DbRw DbDerived DbOps DbLogic.

Local Open Scope Z_scope.

(** The keys of counters in the state table. *)
Definition counter_key (key : bytes) : Prop :=
  key ∈ [HIGH_WATER; SUPERSEDED_EVENTS; POLICY_GENERATION; VANISH_MARKER_CHANGES] ∨
  ∃ pk, length pk = 32%nat ∧ key = author_key pk.

(** ** Superseded versions *)

(** The kind of a replacement key is one of which only the last version counts. *)
Definition counted_key (key : bytes) : bool :=
  match parse_key_string_u64 key with Ok (_, kind) => replaceable kind | Err _ => false end.

(** Each occurrence of a counted key beyond one. *)
Fixpoint superseded (keys : list bytes) : Z :=
  match keys with
  | [] => 0
  | k :: l => superseded l + (if counted_key k && bool_decide (k ∈ l) then 1 else 0)
  end.

Lemma superseded_perm l l' : l ≡ₚ l' → superseded l = superseded l'.
Proof.
  induction 1 as [|k l l' H IH|k k' l|]; cbn [superseded]; [done| | |congruence].
  - by rewrite IH, (bool_decide_ext (k ∈ l) (k ∈ l')) by (by rewrite H).
  - destruct (decide (k = k')) as [->|Hne]; [done|].
    rewrite !(bool_decide_ext (_ ∈ _ :: _) (_ ∈ l)) by (rewrite elem_of_cons; naive_solver). lia.
Qed.

Lemma superseded_bounds l : 0 ≤ superseded l.
Proof. induction l as [|k l IH]; cbn; [done|]. destruct (_ && _); lia. Qed.

Lemma superseded_snoc k l : superseded (l ++ [k]) =
  superseded l + (if counted_key k && bool_decide (k ∈ l) then 1 else 0).
Proof. rewrite (superseded_perm _ (k :: l)); [done|]. by rewrite Permutation_app_comm. Qed.

(** ** The scan that counts them *)

(** The variable [previous] of the scan: the last counted key. *)
Definition last_counted (keys : list bytes) : bytes :=
  default [] (last (filter (λ k, counted_key k = true) keys)).

Lemma last_counted_snoc l k : last_counted (l ++ [k]) = if counted_key k then k else last_counted l.
Proof.
  unfold last_counted. rewrite filter_app, filter_cons, filter_nil.
  destruct (counted_key k); [by rewrite decide_True, last_snoc|by rewrite decide_False, app_nil_r].
Qed.

(** In sorted keys a counted key was met before when it was the last one met. *)
Lemma last_counted_spec k keys : k ≠ [] → counted_key k = true →
  StronglySorted (cmp_le bytes_cmp) (keys ++ [k]) → last_counted keys = k ↔ k ∈ keys.
Proof.
  intros Hne Hk Hs. unfold last_counted.
  destruct (last (filter (λ k, counted_key k = true) keys)) as [q|] eqn:E; cbn [default].
  - apply last_Some in E as [l' E].
    assert (q ∈ keys) as Hq.
    { assert (q ∈ filter (λ k, counted_key k = true) keys) as [_ ?]%list_elem_of_filter; [|done].
      rewrite E, elem_of_app, list_elem_of_singleton. tauto. }
    split; [by intros <-|]. intros Hin.
    assert (k ∈ l' ++ [q]) as Hin' by (rewrite <-E; by apply list_elem_of_filter).
    apply (anti_symm (cmp_le bytes_cmp)).
    + apply (StronglySorted_app_1_elem_of (cmp_le bytes_cmp) keys [k]); [done..|by apply list_elem_of_singleton].
    + apply elem_of_app in Hin' as [Hin'| ->%list_elem_of_singleton]; [|done].
      assert (StronglySorted (cmp_le bytes_cmp) (l' ++ [q])) as Hs'.
      { rewrite <-E. apply StronglySorted_filter_1. by apply StronglySorted_app_1_l in Hs. }
      apply (StronglySorted_app_1_elem_of (cmp_le bytes_cmp) l' [q]); [done..|by apply list_elem_of_singleton].
  - apply last_None in E. split; [done|]. intros Hin.
    exfalso. by apply (filter_nil_not_elem_of (λ k, counted_key k = true) keys k) in E.
Qed.

Lemma superseded_scan pre L : StronglySorted (cmp_le bytes_cmp) (pre ++ L.*1) →
  (∀ r, r ∈ L → (8 ≤ length r.1)%nat) →
  run_cb superseded_cb (last_counted pre, superseded pre, None) L =
  ((last_counted (pre ++ L.*1), superseded (pre ++ L.*1), None), true).
Proof.
  revert pre. induction L as [|[k v] L IH]; intros pre Hs H8; [by rewrite app_nil_r|].
  rewrite fmap_cons in *. cbn [fst] in *. rewrite cons_middle, app_assoc in *.
  cbn [run_cb]. rewrite <-IH; [|done|intros r Hr; apply H8; by right]. clear IH.
  assert (8 ≤ length k)%nat as Hk by apply (H8 (k, v)), list_elem_of_here.
  assert (k ≠ []) as Hne by (intros ->; cbn in Hk; lia).
  unfold superseded_cb at 1.
  assert (∃ s kind, parse_key_string_u64 k = Ok (s, kind)) as (s & kind & Hp).
  { unfold parse_key_string_u64. case_match; [lia|]. unfold split_tail. eauto. }
  rewrite Hp. change (is_replaceable_kind kind || is_param_replaceable_kind kind) with (replaceable kind).
  assert (counted_key k = replaceable kind) as Hc by (unfold counted_key; by rewrite Hp).
  rewrite superseded_snoc, last_counted_snoc, Hc. destruct (replaceable kind) eqn:Er; cbn [andb].
  - assert (last_counted pre = k ↔ k ∈ pre) as Hl.
    { apply last_counted_spec; [done|congruence|]. by apply StronglySorted_app_1_l in Hs. }
    destruct (decide (last_counted pre = k)) as [E|E].
    + rewrite bool_decide_true by tauto. by rewrite E.
    + rewrite bool_decide_false by tauto. by rewrite Z.add_0_r.
  - by rewrite Z.add_0_r.
Qed.

(** ** The values *)

Lemma from_le_u64 raw : bytes_ok raw → length raw = 8%nat → u64_ok (from_le_bytes raw).
Proof.
  intros Hb H8. pose proof (from_ne_bytes_bound raw Hb ltac:(lia)) as H. unfold from_ne_bytes in H.
  unfold u64_ok, U64_MAX. lia.
Qed.

Lemma from_to_le8 n : u64_ok n → from_le_bytes (to_le_bytes 8 n) = n.
Proof. apply from_to_ne_bytes. Qed.

Lemma decode_counter_Ok raw : length raw = 8%nat → decode_counter raw = Ok (from_le_bytes raw).
Proof. intros H8. unfold decode_counter. by rewrite decide_True. Qed.

Section values.
Context `{RL : RocksLaws}.
Implicit Types (t : RwTxn) (pk key : bytes).

Definition stored t key : option bytes := row_get key (rows t 20).

(** The greatest local id given out. *)
Definition sequence t : Z :=
  match t_event_sequence t with
  | Some n => n
  | None =>
      match stored t HIGH_WATER with
      | Some raw => from_le_bytes raw
      | None => match last (rows t 3) with Some r => from_ne_bytes r.1 | None => 0 end
      end
  end.

(** The count kept for an author, when one is. *)
Definition author_value t pk : option Z :=
  match t_author_counts t !! author_key pk with
  | Some n => Some n
  | None => from_le_bytes <$> stored t (author_key pk)
  end.

Definition superseded_value t : option Z :=
  match t_superseded_events t with
  | Some n => Some n
  | None => from_le_bytes <$> stored t SUPERSEDED_EVENTS
  end.

Record counters_wf t : Prop := {
  cw_stored key raw : counter_key key → stored t key = Some raw → length raw = 8%nat;
  cw_sequence : u64_ok (sequence t);
  cw_superseded n : t_superseded_events t = Some n → u64_ok n;
  cw_authors key n : t_author_counts t !! key = Some n →
    u64_ok n ∧ ∃ pk, length pk = 32%nat ∧ bytes_ok pk ∧ key = author_key pk;
}.

Lemma valid_20 : valid_dbi 20 ∧ reversed 20 = false ∧ combined 20 = false.
Proof. split_and!; [unfold valid_dbi; lia|vm_compute; done..]. Qed.

Lemma valid_3 : valid_dbi 3 ∧ reversed 3 = false ∧ combined 3 = true.
Proof. split_and!; [unfold valid_dbi; lia|vm_compute; done..]. Qed.

Lemma author_key_ok pk : bytes_ok pk → bytes_ok (author_key pk).
Proof. intros H'. constructor; [by vm_compute|done]. Qed.

Lemma author_counter_key pk : length pk = 32%nat → counter_key (author_key pk).
Proof. right. eauto. Qed.

Lemma get_state t key : txn_wf t → bytes_ok key → get t 20 key = Ok (stored t key).
Proof. intros Hwf Hk. destruct valid_20 as (? & ? & Hc). apply get_spec; [done..|]. split; [done|by rewrite Hc]. Qed.

Lemma stored_ok t key raw : txn_wf t → stored t key = Some raw → bytes_ok raw.
Proof.
  intros Hwf. destruct valid_20 as (? & ? & ?). unfold stored. rewrite get_plain by done.
  intros Hin. by apply rows_ok in Hin as [_ ?].
Qed.

Lemma event_key_length t x : txn_wf t → x ∈ rows t 3 → length x.1 = 8%nat.
Proof. intros Hwf Hx. destruct valid_3 as (? & ? & Hc). by apply (rows_key_ok t 3 x Hwf). Qed.

(** Only fields differ: the rows, the counts, the markers and the heads agree. *)
Lemma txn_wf_fields t t' : t_view t' = t_view t → t_staged t' = t_staged t → t_counts t' = t_counts t →
  t_marker_values t' = t_marker_values t → t_touched_authors t' = t_touched_authors t → txn_wf t → txn_wf t'.
Proof.
  intros Hv Hs Hc Hm Ha [W1 W2 W3 W4 W5 W6 W7].
  assert (∀ d, rows t' d = rows t d) as Hr by (intros; by apply rows_same).
  split.
  - by apply (staged_wf_same t).
  - intros d Hd. rewrite Hr, <-W2 by done. unfold entries. by rewrite Hc, Hv.
  - intros d Hd. rewrite Hr. auto.
  - intros d. rewrite Hc. auto.
  - intros key Hk. rewrite Hm, Hr. auto.
  - intros a. rewrite Ha. auto.
  - intros a. rewrite Ha, Hv, Hr. auto.
Qed.

Lemma set_sequence_wf n t : txn_wf t → txn_wf (set_event_sequence n t).
Proof. by apply txn_wf_fields. Qed.
Lemma set_superseded_wf n t : txn_wf t → txn_wf (set_superseded_events n t).
Proof. by apply txn_wf_fields. Qed.
Lemma set_authors_wf m t : txn_wf t → txn_wf (set_author_counts m t).
Proof. by apply txn_wf_fields. Qed.

(** ** Local ids *)

Lemma preserve_high_water_eq t : txn_wf t → counters_wf t →
  preserve_high_water t = Ok (set_event_sequence (Some (sequence t)) t).
Proof.
  intros Hwf Hcw. unfold preserve_high_water, sequence. change state_dbi with (Ok 20 : result DbError Z).
  cbn [mbind result_bind].
  destruct (t_event_sequence t) as [n|] eqn:En; [by destruct t; cbn in *; subst|].
  rewrite get_state by (done || apply str_ok). cbn [mbind result_bind].
  destruct (stored t HIGH_WATER) as [raw|] eqn:Er.
  - rewrite decode_counter_Ok; [done|]. apply (cw_stored t Hcw HIGH_WATER); [|done]. left. set_solver.
  - pose proof (largest_wp (λ _, False) t 3 Hwf (proj1 valid_3)) as Hl.
    specialize (Hl (λ x, event_key_length t x Hwf)). change (d_event dbis) with 3.
    destruct (largest_integer_key t 3) as [n|e]; [|done]. cbn [wp] in Hl. by rewrite Hl.
Qed.

Lemma allocate_wp t : txn_wf t → counters_wf t →
  wp exhausted (allocate_event_id t) (λ '(t', n),
    t' = set_event_sequence (Some n) t ∧ n = sequence t + 1 ∧ u64_ok n).
Proof.
  intros Hwf Hcw. unfold allocate_event_id. rewrite preserve_high_water_eq by done. cbn [mbind result_bind].
  pose proof (cw_sequence t Hcw) as [H1 H2]. cbn [t_event_sequence set_event_sequence from_option id].
  unfold checked_add. destruct (Z.leb_spec (sequence t + 1) U64_MAX) as [Hle|Hgt]; cbn [ok_or mbind result_bind wp].
  - split; [done|]. split; [done|]. unfold u64_ok. lia.
  - exhaust.
Qed.

(** ** Authors *)

(** The count of an author, when there is one, is now [n]. *)
Definition set_author_value pk (n : Z) t : RwTxn :=
  set_author_counts (<[author_key pk := n]> (t_author_counts t)) t.

Lemma author_value_set pk n t pk' :
  author_value (set_author_value pk n t) pk' = if decide (pk' = pk) then Some n else author_value t pk'.
Proof.
  unfold author_value, set_author_value. cbn [t_author_counts set_author_counts]. case_decide as E.
  - subst. by rewrite lookup_insert_eq.
  - rewrite lookup_insert_ne; [done|]. by intros [= ?].
Qed.

Lemma author_value_ok t pk n : txn_wf t → counters_wf t → length pk = 32%nat →
  author_value t pk = Some n → u64_ok n.
Proof.
  intros Hwf Hcw Hpk. unfold author_value. destruct (t_author_counts t !! author_key pk) as [m|] eqn:E.
  - intros [= <-]. by apply (cw_authors t Hcw) in E as [? _].
  - intros (raw & Hs & ->)%fmap_Some. apply from_le_u64; [by eapply stored_ok|].
    by apply (cw_stored t Hcw (author_key pk)); [apply author_counter_key|].
Qed.

Lemma change_author_count_wp t pk (insert : bool) : txn_wf t → counters_wf t → length pk = 32%nat → bytes_ok pk →
  (insert = false → ∀ n, author_value t pk = Some n → 1 ≤ n) →
  wp exhausted (change_author_count t pk insert) (λ t',
    match author_value t pk with
    | None => t' = t
    | Some n => t' = set_author_value pk (if insert then n + 1 else n - 1) t ∧ (insert = true → n + 1 ≤ U64_MAX)
    end).
Proof.
  intros Hwf Hcw Hpk Hok Hpos. unfold change_author_count. change state_dbi with (Ok 20 : result DbError Z).
  cbn [mbind result_bind].
  assert (match t_author_counts t !! author_key pk with
    | Some count => Ok (Some count)
    | None => o ← get t 20 (author_key pk); decode_opt o end = Ok (author_value t pk)) as ->.
  { unfold author_value. destruct (t_author_counts t !! author_key pk) as [n|]; [done|].
    rewrite get_state by (done || by apply author_key_ok). cbn [mbind result_bind].
    destruct (stored t (author_key pk)) as [raw|] eqn:Es; [|done]. unfold decode_opt.
    rewrite decode_counter_Ok; [done|]. apply (cw_stored t Hcw (author_key pk)); [by apply author_counter_key|done]. }
  cbn [mbind result_bind]. destruct (author_value t pk) as [n|] eqn:En; [|done].
  unfold checked_add, checked_sub. destruct insert.
  - destruct (Z.leb_spec (n + 1) U64_MAX) as [Hle|Hgt]; cbn [ok_or mbind result_bind wp]; [done|].
    exhaust.
  - specialize (Hpos eq_refl n eq_refl). rewrite (proj2 (Z.leb_le 1 n)) by lia. done.
Qed.

(** ** The visibility generation *)

(** One counter of the state table is stored anew, the rest is as before. *)
Definition stores t t' key : Prop :=
  txn_wf t' ∧ same_extra t t' ∧ (∀ d, valid_dbi d → d ≠ 20 → rows t' d = rows t d) ∧
  (∀ k, k ≠ key → stored t' k = stored t k) ∧ ∃ n, u64_ok n ∧ stored t' key = Some (to_le_bytes 8 n).

Lemma put_state_wp t key n : txn_wf t → bytes_ok key → u64_ok n →
  wp exhausted (put t 20 key (to_le_bytes 8 n) 0) (λ '(t', _),
    stores t t' key ∧ stored t' key = Some (to_le_bytes 8 n)).
Proof.
  intros Hwf Hk Hn. destruct valid_20 as (Hd & Hrev & Hc).
  assert (row_ok (key, to_le_bytes 8 n)) as Hr by (split; [done|apply to_le_bytes_ok]).
  eapply wp_mono; [apply put_wp; [done..|]|].
  { split; [done|by rewrite Hc]. }
  intros [t' b] (_ & Hwf' & Hx & Hch & Ho). unfold stores, stored.
  pose proof (λ k, row_get_put t t' 20 key _ k Hwf Hwf' Hd Hr Hrev Hch) as Hg.
  split_and!; try done; [|exists n|]; [intros k Hne|split; [done|]|]; rewrite Hg; [by rewrite decide_False|by rewrite decide_True..].
Qed.

Lemma invalidate_visibility_wp t : txn_wf t → counters_wf t →
  wp exhausted (invalidate_visibility t) (λ t', stores t t' POLICY_GENERATION).
Proof.
  intros Hwf Hcw. unfold invalidate_visibility. change state_dbi with (Ok 20 : result DbError Z).
  cbn [mbind result_bind]. rewrite get_state by (done || apply str_ok). cbn [mbind result_bind].
  assert (∃ o, decode_opt (stored t POLICY_GENERATION) = Ok o ∧ u64_ok (default 0 o)) as (o & -> & Ho).
  { destruct (stored t POLICY_GENERATION) as [raw|] eqn:E.
    - assert (length raw = 8%nat) as H8 by (apply (cw_stored t Hcw POLICY_GENERATION); [left; set_solver|done]).
      eexists. unfold decode_opt. rewrite decode_counter_Ok by done. split; [done|].
      apply from_le_u64; [by eapply stored_ok|done].
    - exists None. split; [done|]. unfold u64_ok, U64_MAX. cbn. lia. }
  cbn [mbind result_bind]. unfold checked_add.
  destruct (Z.leb_spec (default 0 o + 1) U64_MAX) as [Hle|Hgt]; cbn [ok_or mbind result_bind wp].
  - eapply wp_seq; [apply put_state_wp; [done|apply str_ok|unfold u64_ok in *; lia]|].
    intros [t' b] [Hs _]. exact Hs.
  - exhaust.
Qed.
(** ** Superseded versions *)

Lemma table_8 : valid_dbi 8 ∧ reversed 8 = true ∧ combined 8 = false ∧ ∀ a b, key_cmp 8 a b = bytes_cmp a b.
Proof. split_and!; [unfold valid_dbi; lia|by vm_compute..|]. intros a b. reflexivity. Qed.

Lemma keys_sorted_8 t : txn_wf t → StronglySorted (cmp_le bytes_cmp) (rows t 8).*1.
Proof.
  intros Hwf. destruct table_8 as (Hd & Hrev & _ & Hcmp).
  destruct (txn_rows_sorted t 8 Hwf Hd) as [Hs _]. induction Hs as [|r L Hs IH Hf]; [constructor|].
  rewrite fmap_cons. constructor; [done|]. apply Forall_forall. intros k (r' & -> & Hr')%list_elem_of_fmap.
  rewrite Forall_forall in Hf. apply Hf in Hr'. unfold lcmp in Hr'. rewrite Hcmp in Hr'. unfold cmp_le.
  by destruct (bytes_cmp r.1 r'.1).
Qed.

Lemma superseded_events_eq t : txn_wf t → counters_wf t → (∀ r, r ∈ rows t 8 → (8 ≤ length r.1)%nat) →
  (∀ n, superseded_value t = Some n → n = superseded (rows t 8).*1) →
  superseded_events t =
    Ok (set_superseded_events (Some (superseded (rows t 8).*1)) t, superseded (rows t 8).*1).
Proof.
  intros Hwf Hcw H8 Hval. destruct table_8 as (Hd & Hrev & _ & _).
  unfold superseded_events, superseded_value in *.
  destruct (t_superseded_events t) as [n|] eqn:En.
  { rewrite <-(Hval n eq_refl). by destruct t; cbn in *; subst. }
  change state_dbi with (Ok 20 : result DbError Z). cbn [mbind result_bind].
  rewrite get_state by (done || apply str_ok). cbn [mbind result_bind].
  destruct (stored t SUPERSEDED_EVENTS) as [raw|] eqn:Es.
  - rewrite decode_counter_Ok by (apply (cw_stored t Hcw SUPERSEDED_EVENTS); [left; set_solver|done]).
    cbn [mbind result_bind]. by rewrite <-(Hval _ eq_refl).
  - change (d_event_replace dbis) with 8. rewrite foreach_full_spec by done.
    assert (scan_rows 8 (rows t 8) [] [] false = rows t 8) as ->.
    { unfold scan_rows, directed. cbn [negb]. apply filter_all. intros r _. unfold in_scan. by rewrite decide_True. }
    pose proof (superseded_scan [] (rows t 8)) as Hscan. cbn [app superseded] in Hscan.
    change (last_counted []) with (@nil Z) in Hscan.
    rewrite Hscan; [|by apply keys_sorted_8|done]. done.
Qed.

Lemma row_get_Some_key key (L : list Kv) : row_get key L ≠ None ↔ key ∈ L.*1.
Proof.
  rewrite row_get_None, list_elem_of_fmap. split.
  - intros Hn. destruct (decide (Exists (λ r, r.1 = key) L)) as [He|He].
    + apply Exists_exists in He as (r & Hr & <-). eauto.
    + destruct Hn. intros r Hr Hk. apply He, Exists_exists. eauto.
  - intros (r & -> & Hr) Hn. by apply (Hn r).
Qed.

Lemma change_replacement_count_wp t key (insert : bool) old : txn_wf t → bytes_ok key →
  t_superseded_events t = Some old → (insert = false → key ∈ (rows t 8).*1 → 1 ≤ old) →
  wp exhausted (change_replacement_count t key insert) (λ t',
    if decide (key ∈ (rows t 8).*1)
    then t' = set_superseded_events (Some (if insert then old + 1 else old - 1)) t ∧ (insert = true → old + 1 ≤ U64_MAX)
    else t' = t).
Proof.
  intros Hwf Hk Hold Hpos. destruct table_8 as (Hd & Hrev & Hc & _).
  unfold change_replacement_count. change (d_event_replace dbis) with 8.
  rewrite get_spec by (done || by split; [|rewrite Hc]). cbn [mbind result_bind].
  pose proof (row_get_Some_key key (rows t 8)) as Hg.
  destruct (decide (key ∈ (rows t 8).*1)) as [Hin|Hin];
    destruct (row_get key (rows t 8)) as [v|]; cbn [is_some].
  - rewrite Hold. cbn [ok_or mbind result_bind].
    unfold checked_add, checked_sub. destruct insert.
    + destruct (Z.leb_spec (old + 1) U64_MAX) as [Hle|Hgt]; cbn [ok_or mbind result_bind wp]; [done|exhaust].
    + rewrite (proj2 (Z.leb_le 1 old)) by auto. done.
  - by apply Hg in Hin.
  - destruct Hin. by apply Hg.
  - done.
Qed.

(** ** Flush *)

Lemma set_fields_stores t t' t0 key : rows t0 = rows t → stores t0 t' key →
  (∀ d, valid_dbi d → d ≠ 20 → rows t' d = rows t d) ∧ (∀ k, k ≠ key → stored t' k = stored t k).
Proof. unfold stores, stored. intros <- (_ & _ & H1 & H2 & _). done. Qed.

(** Storing the counts of authors one by one. *)
Lemma flush_authors_wp l t : txn_wf t → NoDup l.*1 →
  (∀ key n, (key, n) ∈ l → bytes_ok key ∧ u64_ok n) →
  wp exhausted (try_fold (λ t '(key, n), '(t, _) ← put t 20 key (to_le_bytes 8 n) 0; Ok t) t l) (λ t',
    txn_wf t' ∧ same_extra t t' ∧ (∀ d, valid_dbi d → d ≠ 20 → rows t' d = rows t d) ∧
    (∀ key n, (key, n) ∈ l → stored t' key = Some (to_le_bytes 8 n)) ∧
    (∀ key, key ∉ l.*1 → stored t' key = stored t key)).
Proof.
  revert t. induction l as [|[key n] l IH]; intros t Hwf Hnd Hok; cbn [try_fold].
  { cbn [wp]. split_and!; try done. intros key n Hin. by apply not_elem_of_nil in Hin. }
  destruct (Hok key n) as [Hk Hn]; [left|]. rewrite fmap_cons in Hnd. apply NoDup_cons in Hnd as [Hnin Hnd].
  cbn [fst] in Hnin. pose proof (put_state_wp t key n Hwf Hk Hn) as Hput.
  destruct (put t 20 key (to_le_bytes 8 n) 0) as [[t1 b]|e]; [|done]. cbn [mbind result_bind wp] in *.
  destruct Hput as [(Hwf1 & Hx1 & Ho1 & Hs1 & _) Hv1].
  eapply wp_mono; [apply IH; [done..|]|].
  { intros key' n' Hin. apply Hok. by right. }
  intros t' (Hwf' & Hx' & Ho' & Hv' & Hs'). split_and!; [done|by eapply same_extra_trans|..].
  - intros d Hd Hne. by rewrite Ho', Ho1.
  - intros key' n' [[= -> ->]|Hin]%elem_of_cons; [by rewrite Hs'|auto].
  - intros key'. rewrite fmap_cons, not_elem_of_cons. intros [Hne Hnl]. rewrite Hs', Hs1; done.
Qed.

(** What a flush leaves: the same values, all of them in the table. *)
Record flushed t t' : Prop := {
  fl_txn : txn_wf t';
  fl_view : t_view t' = t_view t;
  fl_fields : t_event_sequence t' = None ∧ t_superseded_events t' = None ∧ t_author_counts t' = ∅ ∧
    t_defer_tag_kind t' = t_defer_tag_kind t;
  fl_rows d : valid_dbi d → d ≠ 20 → rows t' d = rows t d;
  fl_sequence : sequence t' = sequence t;
  fl_superseded : superseded_value t' = superseded_value t;
  fl_authors pk : author_value t' pk = author_value t pk;
  fl_stored key : ¬ counter_key key → stored t' key = stored t key;
  fl_counters : counters_wf t';
}.

Lemma author_key_other pk : author_key pk ∉ [HIGH_WATER; SUPERSEDED_EVENTS; POLICY_GENERATION; VANISH_MARKER_CHANGES].
Proof. rewrite !elem_of_cons, elem_of_nil. by intros [E|[E|[E|[E|[]]]]]. Qed.

(** One optional field stored under its key. *)
Lemma flush_field_wp t (clear : RwTxn → RwTxn) key (o : option Z) : txn_wf t → txn_wf (clear t) →
  rows (clear t) = rows t → bytes_ok key → (∀ n, o = Some n → u64_ok n) → (o = None → clear t = t) →
  wp exhausted (match o with
    | Some n => '(t, _) ← put (clear t) 20 key (to_le_bytes 8 n) 0; Ok t
    | None => Ok t end) (λ t',
    txn_wf t' ∧ same_extra (clear t) t' ∧ (∀ d, valid_dbi d → d ≠ 20 → rows t' d = rows t d) ∧
    (∀ k, k ≠ key → stored t' k = stored t k) ∧
    stored t' key = match o with Some n => Some (to_le_bytes 8 n) | None => stored t key end).
Proof.
  intros Hwf Hwfc Hr Hk Hn Hcl. destruct o as [n|]; [|cbn [wp]; rewrite Hcl by done; by split_and!].
  eapply wp_seq; [by apply put_state_wp; auto|]. intros [t' b] [Hs Hv]. cbn [wp].
  pose proof (set_fields_stores t t' (clear t) key Hr Hs) as [H1 H2]. destruct Hs as (H3 & H4 & _). by split_and!.
Qed.

Lemma map_to_list_keys (m : gmap bytes Z) : NoDup (map_to_list m).*1.
Proof. apply NoDup_fst_map_to_list. Qed.

Lemma set_sequence_id n t : t_event_sequence t = n → set_event_sequence n t = t.
Proof. destruct t. by intros [= ->]. Qed.
Lemma set_superseded_id n t : t_superseded_events t = n → set_superseded_events n t = t.
Proof. destruct t. by intros [= ->]. Qed.

(** What is in the table after a flush. *)
Record flush_rows t t' : Prop := {
  fr_txn : txn_wf t';
  fr_view : t_view t' = t_view t;
  fr_fields : t_event_sequence t' = None ∧ t_superseded_events t' = None ∧ t_author_counts t' = ∅ ∧
    t_defer_tag_kind t' = t_defer_tag_kind t;
  fr_rows d : valid_dbi d → d ≠ 20 → rows t' d = rows t d;
  fr_sequence : stored t' HIGH_WATER =
    match t_event_sequence t with Some n => Some (to_le_bytes 8 n) | None => stored t HIGH_WATER end;
  fr_superseded : stored t' SUPERSEDED_EVENTS =
    match t_superseded_events t with Some n => Some (to_le_bytes 8 n) | None => stored t SUPERSEDED_EVENTS end;
  fr_authors key n : t_author_counts t !! key = Some n → stored t' key = Some (to_le_bytes 8 n);
  fr_other key : key ≠ HIGH_WATER → key ≠ SUPERSEDED_EVENTS → t_author_counts t !! key = None →
    stored t' key = stored t key;
}.

Lemma not_author_key t key : counters_wf t → (∀ pk, key ≠ author_key pk) → t_author_counts t !! key = None.
Proof.
  intros Hcw Hne. destruct (t_author_counts t !! key) as [n|] eqn:E; [|done].
  apply (cw_authors t Hcw) in E as (_ & pk & _ & _ & ->). by destruct (Hne pk).
Qed.

Lemma flush_rows_wp t : txn_wf t → counters_wf t → wp exhausted (flush t) (flush_rows t).
Proof.
  intros Hwf Hcw. unfold flush. change (d_state dbis) with (Some 20). cbv iota.
  eapply wp_seq; [apply (flush_field_wp t (set_event_sequence None)); try done|].
  { by apply set_sequence_wf. } { apply str_ok. }
  { intros n En. pose proof (cw_sequence t Hcw) as Hs. unfold sequence in Hs. by rewrite En in Hs. }
  { apply set_sequence_id. }
  intros t1 (Hwf1 & (Hv1 & Hsq1 & Hsu1 & Hau1 & Hdf1) & Ho1 & Hs1 & Hh1). cbn in Hv1, Hsq1, Hsu1, Hau1, Hdf1.
  eapply wp_seq; [apply (flush_field_wp t1 (set_superseded_events None)); try done|].
  { by apply set_superseded_wf. } { apply str_ok. }
  { intros n En. rewrite Hsu1 in En. by apply (cw_superseded t Hcw). }
  { apply set_superseded_id. }
  intros t2 (Hwf2 & (Hv2 & Hsq2 & Hsu2 & Hau2 & Hdf2) & Ho2 & Hs2 & Hh2). cbn in Hv2, Hsq2, Hsu2, Hau2, Hdf2.
  replace (t_author_counts t2) with (t_author_counts t) by congruence.
  eapply wp_mono; [apply (flush_authors_wp _ (set_author_counts ∅ t2)); [by apply set_authors_wf|apply map_to_list_keys|]|].
  { intros key n Hin%elem_of_map_to_list. apply (cw_authors t Hcw) in Hin as [Hn (pk & _ & Hpk & ->)].
    split; [by apply author_key_ok|done]. }
  intros t' (Hwf' & (Hv' & Hsq' & Hsu' & Hau' & Hdf') & Ho' & Hin' & Hs'). cbn in Hv', Hsq', Hsu', Hau', Hdf'.
  assert (∀ key, t_author_counts t !! key = None → stored t' key = stored t2 key) as Hother.
  { intros key Hnone. rewrite Hs'; [done|]. intros ([key' n] & -> & Hin%elem_of_map_to_list)%list_elem_of_fmap.
    cbn in Hnone. congruence. }
  pose proof (not_author_key t HIGH_WATER Hcw ltac:(by intros pk)) as Hn1.
  pose proof (not_author_key t SUPERSEDED_EVENTS Hcw ltac:(by intros pk)) as Hn2.
  split; [done|congruence|split_and!; congruence|..].
  - intros d Hd Hne. rewrite Ho', <-Ho1, <-Ho2 by done. done.
  - rewrite Hother, Hs2 by done. done.
  - rewrite Hother, Hh2, Hsu1, Hs1 by done. done.
  - intros key n E. by apply Hin', elem_of_map_to_list.
  - intros key H1 H2 H3. by rewrite Hother, Hs2, Hs1.
Qed.

Lemma flush_wp t : txn_wf t → counters_wf t → wp exhausted (flush t) (flushed t).
Proof.
  intros Hwf Hcw. eapply wp_mono; [by apply flush_rows_wp|]. intros t' [R1 R2 R3 R4 R5 R6 R7 R8].
  pose proof R3 as (F1 & F2 & F3 & F4). pose proof valid_3 as (Hd3 & _).
  assert (sequence t' = sequence t) as Hseq.
  { unfold sequence. rewrite F1, R5, R4 by done. destruct (t_event_sequence t) as [n|] eqn:En; [|done].
    apply from_to_le8. pose proof (cw_sequence t Hcw) as Hs. unfold sequence in Hs. by rewrite En in Hs. }
  split; try done.
  - unfold superseded_value. rewrite F2, R6. destruct (t_superseded_events t) as [n|] eqn:En; [|done].
    cbn [fmap option_fmap option_map]. rewrite from_to_le8; [done|]. by apply (cw_superseded t Hcw).
  - intros pk. unfold author_value. rewrite F3, lookup_empty.
    destruct (t_author_counts t !! author_key pk) as [n|] eqn:En.
    + rewrite (R7 _ n En). cbn [fmap option_fmap option_map]. rewrite from_to_le8; [done|]. by apply (cw_authors t Hcw) in En as [? _].
    + by rewrite R8.
  - intros key Hk. apply R8.
    + intros ->. apply Hk. left. set_solver.
    + intros ->. apply Hk. left. set_solver.
    + destruct (t_author_counts t !! key) as [n|] eqn:E; [|done].
      apply (cw_authors t Hcw) in E as (_ & pk & Hpk & _ & ->). destruct Hk. by right; exists pk.
  - split.
    + intros key raw Hk Hraw.
      destruct (decide (key = HIGH_WATER)) as [->|H1]; [|destruct (decide (key = SUPERSEDED_EVENTS)) as [->|H2]].
      * rewrite R5 in Hraw. destruct (t_event_sequence t); [by injection Hraw as <-|].
        by apply (cw_stored t Hcw HIGH_WATER).
      * rewrite R6 in Hraw. destruct (t_superseded_events t); [by injection Hraw as <-|].
        by apply (cw_stored t Hcw SUPERSEDED_EVENTS).
      * destruct (t_author_counts t !! key) as [n|] eqn:E.
        -- rewrite (R7 _ n E) in Hraw. by injection Hraw as <-.
        -- rewrite R8 in Hraw by done. by apply (cw_stored t Hcw key).
    + rewrite Hseq. apply (cw_sequence t Hcw).
    + by rewrite F2.
    + intros key n. by rewrite F3, lookup_empty.
Qed.
End values.
