(* ===== verification/DbIndices.v ===== *)
(** * The index entries of an event

    [index_keys p d] are the keys under which the event [p] is listed in the
    table [d], in closed form over its tags.  [put_indices] adds exactly these
    rows and [del_indices] takes exactly these away. *)

From S2P Require Import Prelude Utf8 BTreeMap Json Crates Kinds Packed EventParse DbKeys DbCodec DbIndex DbTxn DbState DbPayload DbSearch DbTagKind DbWrite DbStore DbCursor DbTable DbScan DbTables DbRows DbRw DbDerived DbOps DbLogic.

Local Open Scope Z_scope.

(** ** The tags of a record *)

(** The tags a walk over bytes meets. *)
Fixpoint tag_list (fuel : nat) (b : bytes) : list PackedEventTag :=
  match fuel, b with
  | S fuel, name :: n :: r =>
      if (length r <? Z.to_nat n)%nat then [] else (name, take (Z.to_nat n) r) :: tag_list fuel (drop (Z.to_nat n) r)
  | _, _ => []
  end.

(** Going through a list of tags until the callback stops it. *)
Fixpoint each_tag {S} (cb : S → Z → bytes → S * bool) (s : S) (l : list PackedEventTag) : S :=
  match l with
  | [] => s
  | (n, v) :: l => let '(s, go) := cb s n v in if go then each_tag cb s l else s
  end.

Lemma walk_tag_list {S} (cb : S → Z → bytes → S * bool) fuel s b :
  walk_tags_loop (λ s name val _, cb s name val) fuel s b = each_tag cb s (tag_list fuel b).
Proof.
  revert s b. induction fuel as [|fuel IH]; intros s b; [by destruct b as [|? [|]]|].
  destruct b as [|name [|n r]]; [done..|]. cbn [walk_tags_loop tag_list].
  destruct (_ <? _)%nat; [done|]. cbn [each_tag]. destruct (cb s name _) as [s' []]; [apply IH|done].
Qed.

Lemma each_tag_map {A} (f : Z → bytes → A) out l :
  each_tag (λ out n v, (out ++ [f n v], true)) out l = out ++ ((λ t, f t.1 t.2) <$> l).
Proof.
  revert out. induction l as [|[n v] l IH]; intros out; [by rewrite app_nil_r|].
  cbn [each_tag]. rewrite IH, fmap_cons, <-app_assoc. done.
Qed.

Lemma each_tag_collect (out l : list PackedEventTag) :
  each_tag (λ out n v, (out ++ [(n, v)], true)) out l = out ++ l.
Proof.
  rewrite (each_tag_map pair). f_equal. rewrite <-(list_fmap_id l) at 2. by apply list_fmap_ext; intros ? [].
Qed.

(** Any walk is a walk over the tags. *)
Lemma foreach_tag_each {S} (cb : S → Z → bytes → S * bool) s v :
  foreach_tag cb s v = each_tag cb s (PackedEventView_tags v).
Proof.
  unfold PackedEventView_tags, foreach_tag at 2, walk_tags. rewrite walk_tag_list, each_tag_collect.
  apply walk_tag_list.
Qed.

Lemma each_tag_fold {S} (f : S → Z → bytes → S) s l :
  each_tag (λ s n v, (f s n v, true)) s l = foldl (λ s t, f s t.1 t.2) s l.
Proof. revert s. induction l as [|[n v] l IH]; intros s; [done|]. apply IH. Qed.

Lemma tag_list_ok fuel b : bytes_ok b → Forall (λ t, byte_ok t.1 ∧ bytes_ok t.2) (tag_list fuel b).
Proof.
  revert b. induction fuel as [|fuel IH]; intros b Hb; [constructor|].
  destruct b as [|name [|n r]]; [constructor..|]. cbn [tag_list].
  apply Forall_cons in Hb as [Hn [_ Hr]%Forall_cons]. destruct (_ <? _)%nat; [constructor|].
  constructor; [split; [done|by apply Forall_take]|]. by apply IH, Forall_drop.
Qed.

Lemma view_tags_ok p (t : PackedEventTag) : bytes_ok p → t ∈ PackedEventView_tags p → byte_ok t.1 ∧ bytes_ok t.2.
Proof.
  intros Hp. unfold PackedEventView_tags, foreach_tag, walk_tags. rewrite walk_tag_list, each_tag_collect.
  revert t. apply Forall_forall. apply tag_list_ok. by apply Forall_drop.
Qed.

(** ** The keys of an event *)

Definition index_tables (idx : EventIndices) : list (Z * list bytes) :=
  [(9, to_ne_bytes <$> option_list (ix_created_at idx)); (7, ix_deletion idx);
   (13, to_ne_bytes <$> ix_expiration idx); (4, option_list (ix_id idx)); (12, option_list (ix_kind idx));
   (10, option_list (ix_pubkey idx)); (5, option_list (ix_pubkey_kind idx)); (8, ix_replace idx);
   (11, ix_replace_deletion idx ++ ix_canonical_replace_deletion idx); (6, ix_tag idx)].

(** With the postings by tag and kind. *)
Definition posting_tables (idx : EventIndices) : list (Z * list bytes) :=
  index_tables idx ++ [(21, ix_tag_kind idx)].

Definition keys_in (tables : list (Z * list bytes)) (d : Z) : list bytes :=
  tables ≫= λ '(d', ks), if decide (d' = d) then ks else [].

Lemma elem_of_keys_in tables d k :
  k ∈ keys_in tables d ↔ ∃ ks, (d, ks) ∈ tables ∧ k ∈ ks.
Proof.
  unfold keys_in. rewrite list_elem_of_bind. split.
  - intros ([d' ks] & Hk & Hin). case_decide as E; [subst; eauto|by apply not_elem_of_nil in Hk].
  - intros (ks & Hin & Hk). exists (d, ks). split; [by rewrite decide_True|done].
Qed.

Section index.
Context {HC : HexCrate} {SH : Sha256}.

Definition index_keys (p : PackedEventView) (d : Z) : list bytes := keys_in (posting_tables (index_event p)) d.

(** What one tag of a deletion request adds. *)
Definition deletion_of (p : PackedEventView) (t : PackedEventTag) : list bytes :=
  if (t.1 =? ch "e") && (PackedEventView_kind p =? 5) then [t.2 ++ PackedEventView_pubkey p] else [].

Definition tombstones_of (p : PackedEventView) (t : PackedEventTag) : list bytes * list bytes :=
  if (t.1 =? ch "a") && (PackedEventView_kind p =? 5) then address_tombstones p t.2 else ([], []).

Lemma index_tag_eq p idx n v :
  index_tag p idx n v =
  mkEventIndices (ix_created_at idx) (ix_id idx) (ix_pubkey idx) (ix_kind idx) (ix_pubkey_kind idx)
    (ix_tag idx ++ [make_key_string_u64 (n :: v) (PackedEventView_created_at p)])
    (ix_tag_kind idx) (ix_deletion idx ++ deletion_of p (n, v)) (ix_expiration idx) (ix_replace idx)
    (ix_replace_deletion idx ++ (tombstones_of p (n, v)).1)
    (ix_canonical_replace_deletion idx ++ (tombstones_of p (n, v)).2).
Proof.
  unfold index_tag, deletion_of, tombstones_of. cbn [fst snd]. destruct (Z.eqb_spec n (ch "e")) as [->|Hne].
  - change (ch "e" =? ch "a") with false. cbn [andb]. by destruct (PackedEventView_kind p =? 5).
  - cbn [andb]. destruct ((n =? ch "a") && (PackedEventView_kind p =? 5)); [|done].
    by destruct (address_tombstones p v).
Qed.

Lemma fold_index_tag p idx l :
  foldl (λ s t, index_tag p s t.1 t.2) idx l =
  mkEventIndices (ix_created_at idx) (ix_id idx) (ix_pubkey idx) (ix_kind idx) (ix_pubkey_kind idx)
    (ix_tag idx ++ ((λ t, make_key_string_u64 (t.1 :: t.2) (PackedEventView_created_at p)) <$> l))
    (ix_tag_kind idx) (ix_deletion idx ++ (l ≫= deletion_of p)) (ix_expiration idx) (ix_replace idx)
    (ix_replace_deletion idx ++ (l ≫= λ t, (tombstones_of p t).1))
    (ix_canonical_replace_deletion idx ++ (l ≫= λ t, (tombstones_of p t).2)).
Proof.
  revert idx. induction l as [|[n v] l IH]; intros idx; cbn [foldl].
  - destruct idx. cbn. by rewrite !app_nil_r.
  - rewrite IH, index_tag_eq, fmap_cons, !bind_cons.
    cbn [ix_created_at ix_id ix_pubkey ix_kind ix_pubkey_kind ix_tag ix_tag_kind ix_deletion
         ix_expiration ix_replace ix_replace_deletion ix_canonical_replace_deletion fst snd].
    by rewrite <-!app_assoc.
Qed.

(** The entries of an event in closed form. *)
Lemma index_event_tags p :
  let l := PackedEventView_tags p in
  let time := PackedEventView_created_at p in
  index_tables (index_event p) =
  [(9, [to_ne_bytes time]); (7, (l ≫= deletion_of p));
   (13, to_ne_bytes <$> (if decide (PackedEventView_expiration p ≠ 0) then [PackedEventView_expiration p] else []));
   (4, [make_key_string_u64 (PackedEventView_id p) time]);
   (12, [make_key_u64_u64 (PackedEventView_kind p) time]);
   (10, [make_key_string_u64 (PackedEventView_pubkey p) time]);
   (5, [make_key_string_u64_u64 (PackedEventView_pubkey p) (PackedEventView_kind p) time]);
   (8, option_list (replace_key p));
   (11, (l ≫= λ t, (tombstones_of p t).1) ++ (l ≫= λ t, (tombstones_of p t).2));
   (6, (λ t, make_key_string_u64 (t.1 :: t.2) time) <$> l)] ∧
  ix_tag_kind (index_event p) = tag_kind_keys p ∧ ix_replace (index_event p) = option_list (replace_key p).
Proof.
  cbv zeta. unfold index_event. rewrite foreach_tag_each, each_tag_fold, fold_index_tag.
  cbn [ix_created_at ix_id ix_pubkey ix_kind ix_pubkey_kind ix_tag ix_tag_kind ix_deletion
       ix_expiration ix_replace ix_replace_deletion ix_canonical_replace_deletion app].
  unfold index_tables.
  cbn [ix_created_at ix_id ix_pubkey ix_kind ix_pubkey_kind ix_tag ix_tag_kind ix_deletion
       ix_expiration ix_replace ix_replace_deletion ix_canonical_replace_deletion option_list].
  done.
Qed.
End index.

(** ** The keys are bytes *)

Lemma slice_ok a b p : bytes_ok p → bytes_ok (slice a b p).
Proof. intros. by apply Forall_take, Forall_drop. Qed.

Lemma key_app_ok s n : bytes_ok s → bytes_ok (make_key_string_u64 s n).
Proof. intros. apply Forall_app. split; [done|apply to_le_bytes_ok]. Qed.

Section keys_ok.
Context {HC : HexCrate} {SH : Sha256} {SL : Sha256Laws}.

Lemma first_d_tag_elem p d : first_d_tag p = Some d → (ch "d", d) ∈ PackedEventView_tags p.
Proof.
  unfold first_d_tag. rewrite foreach_tag_each. induction (PackedEventView_tags p) as [|[n v] l IH]; [done|].
  cbn [each_tag]. case_decide as E; cbn [fst snd].
  - intros [= ->]. subst. left.
  - intros H. right. auto.
Qed.

Lemma tombstones_ok p t k : bytes_ok p → bytes_ok t.2 →
  k ∈ (tombstones_of p t).1 ++ (tombstones_of p t).2 → bytes_ok k.
Proof.
  intros Hp Ht. unfold tombstones_of. destruct (_ && _); [|by intros ?%not_elem_of_nil].
  unfold address_tombstones. destruct (hashed_tag_value_digest t.2) as [digest|] eqn:E.
  { cbn. intros ->%list_elem_of_singleton. apply key_app_ok. unfold hashed_tag_value_digest in E.
    destruct t.2 as [|m dg]; [done|]. case_match; [|done]. injection E as <-. by apply Forall_cons in Ht as [_ ?]. }
  assert (∀ a, bytes_ok (make_key_string_u64 (sha256 a) (PackedEventView_created_at p))) as Hs.
  { intros a. apply key_app_ok, sha256_ok. }
  repeat (case_match; try by intros ?%not_elem_of_nil); cbn [fst snd app];
    rewrite ?elem_of_cons; intros H'; destruct_or?; subst; try done; by apply not_elem_of_nil in H'.
Qed.

Lemma tag_kind_keys_eq p : tag_kind_keys p = vec_dedup (slice_sort bytes_cmp
  ((λ t, tag_kind_key t.1 t.2 (PackedEventView_kind p) (PackedEventView_created_at p)) <$> PackedEventView_tags p)).
Proof.
  unfold tag_kind_keys. rewrite foreach_tag_each.
  by rewrite (each_tag_map (λ n v, tag_kind_key n v (PackedEventView_kind p) (PackedEventView_created_at p))).
Qed.

Lemma elem_of_tag_kind_keys p k : k ∈ tag_kind_keys p ↔
  ∃ t, t ∈ PackedEventView_tags p ∧ k = tag_kind_key t.1 t.2 (PackedEventView_kind p) (PackedEventView_created_at p).
Proof.
  rewrite tag_kind_keys_eq, elem_of_vec_dedup, slice_sort_perm, list_elem_of_fmap. naive_solver.
Qed.

(** Every key is made of bytes. *)
Lemma index_keys_ok p d k : bytes_ok p → k ∈ index_keys p d → bytes_ok k.
Proof.
  intros Hp. unfold index_keys. rewrite elem_of_keys_in. intros (ks & Hin & Hk).
  unfold posting_tables in Hin. destruct (index_event_tags p) as (Htab & Htk & _). cbv zeta in Htab.
  rewrite Htab, Htk in Hin. clear Htab Htk.
  pose proof (λ t, view_tags_ok p t Hp) as Htags.
  assert (bytes_ok (PackedEventView_pubkey p)) as Hpk by by apply slice_ok.
  assert (bytes_ok (PackedEventView_id p)) as Hid by by apply slice_ok.
  repeat (apply elem_of_cons in Hin as [[= -> ->]|Hin]); [..|by apply not_elem_of_nil in Hin].
  - apply list_elem_of_singleton in Hk as ->. apply to_le_bytes_ok.
  - apply list_elem_of_bind in Hk as (t & Hk & Ht). unfold deletion_of in Hk. case_match; [|by apply not_elem_of_nil in Hk].
    apply list_elem_of_singleton in Hk as ->. apply Forall_app. split; [by apply Htags|done].
  - apply list_elem_of_fmap in Hk as (e & -> & _). apply to_le_bytes_ok.
  - apply list_elem_of_singleton in Hk as ->. by apply key_app_ok.
  - apply list_elem_of_singleton in Hk as ->. apply Forall_app. split; apply to_le_bytes_ok.
  - apply list_elem_of_singleton in Hk as ->. by apply key_app_ok.
  - apply list_elem_of_singleton in Hk as ->. unfold make_key_string_u64_u64.
    rewrite !Forall_app. split_and!; try apply to_le_bytes_ok; done.
  - unfold replace_key in Hk. destruct (first_d_tag p) as [dt|] eqn:E; [|by apply not_elem_of_nil in Hk].
    apply list_elem_of_singleton in Hk as ->. apply key_app_ok, Forall_app. split; [done|].
    by apply first_d_tag_elem, Htags in E as [_ ?].
  - apply elem_of_app in Hk as [(t & Hk & Ht)%list_elem_of_bind|(t & Hk & Ht)%list_elem_of_bind];
      apply (tombstones_ok p t); try (by apply Htags); try done; apply elem_of_app; auto.
  - apply list_elem_of_fmap in Hk as (t & -> & Ht). apply key_app_ok. constructor; by apply Htags.
  - apply elem_of_tag_kind_keys in Hk as (t & Ht & ->). apply Htags in Ht as [H1 H2].
    unfold tag_kind_key, make_key_string_u64_u64. constructor; [done|]. rewrite !Forall_app.
    split_and!; try apply to_le_bytes_ok; done.
Qed.
End keys_ok.

(** ** The tables *)

(** The tables of index entries: they keep duplicates. *)
Definition index_dbi (d : Z) : Prop := valid_dbi d ∧ reversed d = true.

Section tables.
Context `{RL : RocksLaws}.

Definition put_tables (t : RwTxn) (lev : bytes) (tables : list (Z * list bytes)) : result DbError RwTxn :=
  try_fold (λ t '(d, ks), put_all t d ks lev) t tables.

Definition del_tables (t : RwTxn) (lev : bytes) (tables : list (Z * list bytes)) : result DbError RwTxn :=
  try_fold (λ t '(d, ks), del_all t d ks lev) t tables.

Lemma put_all_wp ks t d lev : txn_wf t → index_dbi d → bytes_ok lev → Forall bytes_ok ks →
  wp exhausted (put_all t d ks lev) (λ t', txn_wf t' ∧ same_extra t t' ∧
    ∀ d' x, valid_dbi d' → x ∈ rows t' d' ↔ x ∈ rows t d' ∨ d' = d ∧ x.2 = lev ∧ x.1 ∈ ks).
Proof.
  intros Hwf [Hd Hrev] Hlev Hks. revert t Hwf. induction Hks as [|k ks Hk Hks IH]; intros t Hwf.
  { cbn. split_and!; [done..|]. intros d' x Hd'. rewrite elem_of_nil. tauto. }
  unfold put_all. cbn [try_fold].
  pose proof (put_wp t d k lev Hwf Hd) as Hput.
  assert (combined d = false) as Hc by (destruct (combined d) eqn:E; [by rewrite combined_plain in Hrev|done]).
  destruct (put t d k lev 0) as [[t1 b]|e]; cbn [mbind result_bind];
    [|by apply Hput; split; [|rewrite Hc]].
  destruct Hput as (_ & Hwf1 & Hx1 & Hch); [by split; [|rewrite Hc]|].
  fold (put_all t1 d ks lev). eapply wp_mono; [by apply IH|]. intros t' (Hwf' & Hx' & Hrows).
  split_and!; [done|by eapply same_extra_trans|]. intros d' x Hd'. rewrite Hrows by done.
  rewrite (change_members t t1 d _ Hwf Hch) by done. case_decide as E.
  - subst d'. rewrite elem_of_insert_dup by (done || by split). destruct x as [k' v']. cbn.
    rewrite elem_of_cons, pair_equal_spec. tauto.
  - tauto.
Qed.

Lemma put_tables_wp tables t lev : txn_wf t → bytes_ok lev →
  (∀ d ks, (d, ks) ∈ tables → index_dbi d ∧ Forall bytes_ok ks) →
  wp exhausted (put_tables t lev tables) (λ t', txn_wf t' ∧ same_extra t t' ∧
    ∀ d x, valid_dbi d → x ∈ rows t' d ↔ x ∈ rows t d ∨ x.2 = lev ∧ x.1 ∈ keys_in tables d).
Proof.
  intros Hwf Hlev. revert t Hwf. induction tables as [|[d ks] tables IH]; intros t Hwf Htab.
  { cbn. split_and!; [done..|]. intros d x Hd. rewrite elem_of_nil. tauto. }
  unfold put_tables. cbn [try_fold]. destruct (Htab d ks) as [Hd Hks]; [left|].
  eapply wp_seq; [by apply put_all_wp|]. intros t1 (Hwf1 & Hx1 & Hr1).
  fold (put_tables t1 lev tables). eapply wp_mono; [apply IH; [done|]|].
  { intros d' ks' Hin. apply Htab. by right. }
  intros t' (Hwf' & Hx' & Hr'). split_and!; [done|by eapply same_extra_trans|].
  intros d' x Hd'. rewrite Hr', Hr1 by done. unfold keys_in. rewrite bind_cons, elem_of_app.
  case_decide as E; [subst; tauto|]. rewrite elem_of_nil. assert (d' ≠ d) by congruence. tauto.
Qed.

Lemma del_all_wp E ks t d lev : txn_wf t → index_dbi d → bytes_ok lev → Forall bytes_ok ks →
  wp E (del_all t d ks lev) (λ t', txn_wf t' ∧ same_extra t t' ∧
    ∀ d' x, valid_dbi d' → x ∈ rows t' d' ↔ x ∈ rows t d' ∧ ¬ (d' = d ∧ x.2 = lev ∧ x.1 ∈ ks)).
Proof.
  intros Hwf [Hd Hrev] Hlev Hks. revert t Hwf. induction Hks as [|k ks Hk Hks IH]; intros t Hwf.
  { cbn. split_and!; [done..|]. intros d' x Hd'. rewrite elem_of_nil. tauto. }
  unfold del_all. cbn [try_fold].
  assert (combined d = false) as Hc by (destruct (combined d) eqn:E'; [by rewrite combined_plain in Hrev|done]).
  destruct (del_spec t d k (Some lev)) as (t1 & -> & Hwf1 & Hx1 & Hch); [done..|by split; [|rewrite Hc]|by intros ? [= <-]|].
  cbn [mbind result_bind]. fold (del_all t1 d ks lev). eapply wp_mono; [by apply IH|].
  intros t' (Hwf' & Hx' & Hrows).
  split_and!; [done|by eapply same_extra_trans|]. intros d' x Hd'. rewrite Hrows by done.
  rewrite (change_members t t1 d _ Hwf Hch) by done. case_decide as Ed.
  - subst d'. rewrite elem_of_remove_dup by (done || by split). destruct x as [k' v']. cbn.
    rewrite elem_of_cons, pair_equal_spec. tauto.
  - tauto.
Qed.

Lemma del_tables_wp E tables t lev : txn_wf t → bytes_ok lev →
  (∀ d ks, (d, ks) ∈ tables → index_dbi d ∧ Forall bytes_ok ks) →
  wp E (del_tables t lev tables) (λ t', txn_wf t' ∧ same_extra t t' ∧
    ∀ d x, valid_dbi d → x ∈ rows t' d ↔ x ∈ rows t d ∧ ¬ (x.2 = lev ∧ x.1 ∈ keys_in tables d)).
Proof.
  intros Hwf Hlev. revert t Hwf. induction tables as [|[d ks] tables IH]; intros t Hwf Htab.
  { cbn. split_and!; [done..|]. intros d x Hd. rewrite elem_of_nil. tauto. }
  unfold del_tables. cbn [try_fold]. destruct (Htab d ks) as [Hd Hks]; [left|].
  eapply wp_seq; [by apply del_all_wp|]. intros t1 (Hwf1 & Hx1 & Hr1).
  fold (del_tables t1 lev tables). eapply wp_mono; [apply IH; [done|]|].
  { intros d' ks' Hin. apply Htab. by right. }
  intros t' (Hwf' & Hx' & Hr'). split_and!; [done|by eapply same_extra_trans|].
  intros d' x Hd'. rewrite Hr', Hr1 by done. unfold keys_in. rewrite bind_cons, elem_of_app.
  case_decide as Ed; [subst; tauto|]. rewrite elem_of_nil. assert (d' ≠ d) by congruence. tauto.
Qed.

Context {HC : HexCrate} {SH : Sha256} {SL : Sha256Laws}.

Lemma posting_dbi p d ks : (d, ks) ∈ posting_tables (index_event p) → index_dbi d.
Proof.
  intros Hin. unfold posting_tables, index_tables in Hin. cbn [app] in Hin.
  repeat (apply elem_of_cons in Hin as [[= -> _]|Hin]); [..|by apply not_elem_of_nil in Hin];
    (split; [unfold valid_dbi; lia|vm_compute; reflexivity]).
Qed.

Lemma posting_tables_ok p d ks : bytes_ok p → (d, ks) ∈ posting_tables (index_event p) →
  index_dbi d ∧ Forall bytes_ok ks.
Proof.
  intros Hp Hin. split; [by eapply posting_dbi|]. apply Forall_forall. intros k Hk.
  apply (index_keys_ok p d); [done|]. apply elem_of_keys_in. eauto.
Qed.

(** The keys an insertion puts: without the postings when they are deferred. *)
Definition posted (defer : bool) (p : PackedEventView) (d : Z) : list bytes :=
  if defer && (d =? 21) then [] else index_keys p d.

Lemma put_indices_wp t lev_id p : txn_wf t → bytes_ok p →
  wp exhausted (put_indices t lev_id (index_event p)) (λ t', txn_wf t' ∧ same_extra t t' ∧
    ∀ d x, valid_dbi d → x ∈ rows t' d ↔
      x ∈ rows t d ∨ x.2 = to_ne_bytes lev_id ∧ x.1 ∈ posted (t_defer_tag_kind t) p d).
Proof.
  intros Hwf Hp. set (idx := index_event p). set (lev := to_ne_bytes lev_id).
  assert (bytes_ok lev) as Hlev by apply to_le_bytes_ok.
  assert (put_indices t lev_id idx = (t' ← put_tables t lev (index_tables idx);
      if t_defer_tag_kind t' then Ok t' else put_all t' 21 (ix_tag_kind idx) lev)) as ->.
  { unfold put_tables, index_tables. cbn [try_fold]. unfold put_indices. fold lev.
    cbn [dbis d_event_created_at d_event_deletion d_event_expiration d_event_id d_event_kind d_event_pubkey
         d_event_pubkey_kind d_event_replace d_event_replace_deletion d_event_tag].
    repeat (match goal with |- context [put_all ?t ?d ?ks lev ≫= _] => destruct (put_all t d ks lev) as [?|?] end;
      cbn [mbind result_bind]; [|reflexivity]). reflexivity. }
  pose proof (λ d ks, posting_tables_ok p d ks Hp) as Htab. unfold posting_tables in Htab. fold idx in Htab.
  eapply wp_seq; [apply put_tables_wp; [done..|]|].
  { intros d ks Hin. apply Htab, elem_of_app. by left. }
  intros t1 (Hwf1 & Hx1 & Hr1). assert (t_defer_tag_kind t1 = t_defer_tag_kind t) as Hdef by apply Hx1.
  rewrite Hdef. unfold posted, index_keys, posting_tables. fold idx. unfold keys_in in *. destruct (t_defer_tag_kind t).
  - cbn [wp]. split_and!; [done..|]. intros d x Hd. rewrite Hr1 by done. cbn [andb].
    destruct (Z.eqb_spec d 21) as [->|Hne].
    + unfold index_tables. cbn [mbind list_bind]. repeat (rewrite decide_False by lia). done.
    + rewrite bind_app, elem_of_app. cbn [mbind list_bind]. rewrite app_nil_r, decide_False, elem_of_nil by done. tauto.
  - destruct (Htab 21 (ix_tag_kind idx)) as [H21 Hks]; [apply elem_of_app; right; left|].
    eapply wp_mono; [by apply put_all_wp|].
    intros t' (Hwf' & Hx' & Hr'). split_and!; [done|by eapply same_extra_trans|].
    intros d x Hd. rewrite Hr', Hr1 by done. cbn [andb]. rewrite bind_app, elem_of_app, bind_cons, app_nil_r.
    case_decide; [subst; tauto|]. rewrite elem_of_nil. assert (d ≠ 21) by congruence. tauto.
Qed.

Lemma del_indices_wp E t lev_id p : txn_wf t → bytes_ok p →
  wp E (del_indices t lev_id (index_event p)) (λ t', txn_wf t' ∧ same_extra t t' ∧
    ∀ d x, valid_dbi d → x ∈ rows t' d ↔
      x ∈ rows t d ∧ ¬ (x.2 = to_ne_bytes lev_id ∧ x.1 ∈ index_keys p d)).
Proof.
  intros Hwf Hp. set (idx := index_event p). set (lev := to_ne_bytes lev_id).
  assert (del_indices t lev_id idx = del_tables t lev (posting_tables idx)) as ->.
  { unfold del_tables, posting_tables, index_tables. cbn [try_fold app]. unfold del_indices. fold lev.
    cbn [dbis d_event_created_at d_event_deletion d_event_expiration d_event_id d_event_kind d_event_pubkey
         d_event_pubkey_kind d_event_replace d_event_replace_deletion d_event_tag].
    repeat (match goal with |- context [del_all ?t ?d ?ks lev ≫= _] => destruct (del_all t d ks lev) as [?|?] end;
      cbn [mbind result_bind]; [|reflexivity]).
    change (del_tag_kind_entries ?t lev_id ?ks) with (del_all t 21 ks lev).
    match goal with |- ?x = _ => destruct x; reflexivity end. }
  apply del_tables_wp; [done|apply to_le_bytes_ok|]. intros d ks. by apply posting_tables_ok.
Qed.
End tables.
