(* ===== verification/DbEvents.v ===== *)
(** * The store of events

    [store_wf]: the invariant of the tables behind the write path.  Every index
    lists exactly the stored events under exactly their keys, every event has
    its payload, no local id is above the sequence, and the counters, where
    they are kept, are the counts they stand for.  [insert_event] keeps it. *)

From S2P Require Import Prelude Utf8 BTreeMap Json Crates Kinds Packed EventParse DbKeys DbCodec DbIndex DbTxn DbState DbPayload Search DbSearch DbTagKind DbWrite DbStore DbCursor DbTable DbScan DbTables DbRows DbRw DbDerived DbOps DbLogic DbCounters DbIndices.

Local Open Scope Z_scope.

Section events.
Context `{RL : RocksLaws}.
Context {HC : HexCrate} {SH : Sha256} {SL : Sha256Laws}.
Implicit Types (t : RwTxn) (pk key : bytes).

(** The stored events of an author. *)
Definition authored t pk : Z := len (filter (λ r, PackedEventView_pubkey r.2 = pk) (rows t 3)).

(** A record the store can hold. *)
Definition packed_ok (p : bytes) : Prop := bytes_ok p ∧ (PACKED_HEADER_LEN ≤ length p)%nat.

Record store_wf t : Prop := {
  sw_txn : txn_wf t;
  sw_counters : counters_wf t;
  sw_events r : r ∈ rows t 3 → (PACKED_HEADER_LEN ≤ length r.2)%nat;
  sw_payloads k : k ∈ (rows t 3).*1 ↔ k ∈ (rows t 15).*1;
  sw_index d k v : 4 ≤ d ≤ 13 → (k, v) ∈ rows t d ↔ ∃ p, (v, p) ∈ rows t 3 ∧ k ∈ index_keys p d;
  sw_postings k v : (k, v) ∈ rows t 21 →
    is_tag_kind_marker k = true ∨ ∃ p, (v, p) ∈ rows t 3 ∧ k ∈ index_keys p 21;
  sw_sequence r : r ∈ rows t 3 → from_ne_bytes r.1 ≤ sequence t;
  sw_authors pk n : length pk = 32%nat → author_value t pk = Some n → n = authored t pk;
  sw_superseded n : superseded_value t = Some n → n = superseded (rows t 8).*1;
}.

Lemma event_packed_ok t r : store_wf t → r ∈ rows t 3 → packed_ok r.2.
Proof.
  intros Hst Hr. split; [|by apply (sw_events t Hst)].
  by apply (rows_ok t 3 r (sw_txn t Hst)) in Hr as [_ ?]; [|apply valid_3].
Qed.

Lemma view_of_ok p : packed_ok p → view_of p = Ok p.
Proof.
  intros [_ Hl]. unfold view_of, PackedEventView_new. by rewrite (proj2 (Nat.ltb_ge _ _)).
Qed.

Lemma pubkey_ok p : packed_ok p → length (PackedEventView_pubkey p) = 32%nat ∧ bytes_ok (PackedEventView_pubkey p).
Proof.
  intros [Hb Hl]. unfold PACKED_HEADER_LEN in Hl. split; [|by apply slice_ok].
  unfold PackedEventView_pubkey, slice. rewrite length_take, length_drop. lia.
Qed.

(** ** Rows without repetitions *)

Lemma rows_NoDup t d : txn_wf t → valid_dbi d → NoDup (rows t d).
Proof.
  intros Hwf Hd. eapply NoDup_fmap_1. apply (table_NoDup d), txn_rows_sorted; done.
Qed.

Lemma rows_add t t' d r : txn_wf t → txn_wf t' → valid_dbi d → r ∉ rows t d →
  (∀ x, x ∈ rows t' d ↔ x = r ∨ x ∈ rows t d) → rows t' d ≡ₚ r :: rows t d.
Proof.
  intros Hwf Hwf' Hd Hr Hx. apply NoDup_Permutation; [by apply rows_NoDup| |].
  - constructor; [done|by apply rows_NoDup].
  - intros x. by rewrite Hx, elem_of_cons.
Qed.

(** ** Event keys *)

Lemma event_key_u64 t r : txn_wf t → r ∈ rows t 3 → to_ne_bytes (from_ne_bytes r.1) = r.1 ∧ u64_ok (from_ne_bytes r.1).
Proof.
  intros Hwf Hr. pose proof (event_key_length t r Hwf Hr) as H8.
  apply (rows_ok t 3 r Hwf (proj1 valid_3)) in Hr as [Hk _].
  split; [by apply to_ne_from_ne|by apply from_le_u64].
Qed.

(** A local id above the sequence is fresh, and follows every stored one. *)
Lemma fresh_key t lev : store_wf t → u64_ok lev → sequence t < lev →
  (to_ne_bytes lev ∉ (rows t 3).*1) ∧
  ∀ v, ¬ put_refused 3 (rows t 3) (to_ne_bytes lev, v) (Z.lor MDB_NOOVERWRITE MDB_APPEND).
Proof.
  intros Hst Hlev Hlt. pose proof (sw_txn t Hst) as Hwf.
  assert (∀ r, r ∈ rows t 3 → from_ne_bytes r.1 < lev) as Hless.
  { intros r Hr. apply (sw_sequence t Hst) in Hr. lia. }
  assert (to_ne_bytes lev ∉ (rows t 3).*1) as Hfresh.
  { intros (r & Hk & Hr)%list_elem_of_fmap. apply Hless in Hr. rewrite <-Hk, from_to_ne_bytes in Hr by done. lia. }
  split; [done|]. intros v. unfold put_refused. cbn [fst].
  assert (row_get (to_ne_bytes lev) (rows t 3) = None) as ->.
  { destruct (row_get _ _) eqn:E; [|done]. destruct Hfresh. apply row_get_Some_key. by rewrite E. }
  intros [[_ H0]|[[Hf _]|[_ Hna]]]; [done|by vm_compute in Hf|].
  unfold not_after_last in Hna. destruct (last (rows t 3)) as [r|] eqn:El; [|done].
  apply last_Some_elem_of in El as Hr. apply Hna. change (key_cmp 3) with int_cmp.
  unfold int_cmp. rewrite bool_decide_true by apply length_to_ne_bytes.
  rewrite bool_decide_true by (by apply (event_key_length t)). rewrite from_to_ne_bytes by done.
  apply Hless in Hr. by apply Z.compare_gt_iff.
Qed.

(** ** Fields *)

(** Only the fields of the counters differ. *)
Definition same_data t t' : Prop :=
  t_view t' = t_view t ∧ t_staged t' = t_staged t ∧ t_counts t' = t_counts t ∧
  t_marker_values t' = t_marker_values t ∧ t_touched_authors t' = t_touched_authors t ∧
  t_defer_tag_kind t' = t_defer_tag_kind t.

Lemma same_data_wf t t' : same_data t t' → txn_wf t → txn_wf t'.
Proof. intros (?&?&?&?&?&_). by apply txn_wf_fields. Qed.

Lemma same_data_rows t t' d : same_data t t' → rows t' d = rows t d.
Proof. intros (?&?&_). by apply rows_same. Qed.

Lemma same_data_stored t t' key : same_data t t' → stored t' key = stored t key.
Proof. intros Hs. unfold stored. by rewrite (same_data_rows t t' 20 Hs). Qed.

(** The counters do not depend on the rows of other tables. *)
Lemma counters_frame t t' : same_extra t t' → rows t' 20 = rows t 20 → sequence t' = sequence t →
  counters_wf t → counters_wf t'.
Proof.
  intros (_ & Hsq & Hsu & Hau & _) H20 Hs [C1 C2 C3 C4]. split.
  - intros key raw. unfold stored. rewrite H20. apply C1.
  - by rewrite Hs.
  - intros n. rewrite Hsu. apply C3.
  - intros key n. rewrite Hau. apply C4.
Qed.

Lemma author_value_frame t t' pk : t_author_counts t' = t_author_counts t → rows t' 20 = rows t 20 →
  author_value t' pk = author_value t pk.
Proof. unfold author_value, stored. by intros -> ->. Qed.

Lemma superseded_value_frame t t' : t_superseded_events t' = t_superseded_events t → rows t' 20 = rows t 20 →
  superseded_value t' = superseded_value t.
Proof. unfold superseded_value, stored. by intros -> ->. Qed.

Definition bump (insert : bool) (n : Z) : Z := if insert then n + 1 else n - 1.

Lemma count_author_wp t pk (insert : bool) : txn_wf t → counters_wf t → length pk = 32%nat → bytes_ok pk →
  (insert = false → ∀ n, author_value t pk = Some n → 1 ≤ n) →
  wp exhausted (change_author_count t pk insert) (λ t', same_data t t' ∧ counters_wf t' ∧
    t_event_sequence t' = t_event_sequence t ∧ t_superseded_events t' = t_superseded_events t ∧
    ∀ pk', author_value t' pk' = if decide (pk' = pk) then bump insert <$> author_value t pk else author_value t pk').
Proof.
  intros Hwf Hcw Hpk Hok Hpos. eapply wp_mono; [by apply change_author_count_wp|]. intros t'.
  destruct (author_value t pk) as [n|] eqn:En.
  - intros [-> Hmax]. pose proof (author_value_ok t pk n Hwf Hcw Hpk En) as [Hn0 Hn1].
    split; [done|]. split; [|split_and!; [done..|]].
    + destruct Hcw as [C1 C2 C3 C4]. split; [done..|]. intros key m. cbn [set_author_value set_author_counts t_author_counts].
      intros [[<- <-]|[_ Hm]]%lookup_insert_Some; [|by apply C4]. split; [|by exists pk].
      unfold u64_ok. destruct insert; [specialize (Hmax eq_refl)|specialize (Hpos eq_refl n eq_refl)]; lia.
    + intros pk'. by rewrite author_value_set.
  - intros ->. split_and!; try done. intros pk'. case_decide; [by subst|done].
Qed.

Lemma counters_sequence t n : u64_ok n → counters_wf t → counters_wf (set_event_sequence (Some n) t).
Proof. intros Hn [C1 C2 C3 C4]. by split. Qed.

Lemma counters_superseded t n : u64_ok n → counters_wf t → counters_wf (set_superseded_events (Some n) t).
Proof. intros Hn [C1 C2 C3 C4]. split; try done. intros m. cbn. by intros [= <-]. Qed.

(** ** Replacements *)

Lemma superseded_le_len l : superseded l ≤ len l.
Proof.
  induction l as [|k l IH]; [done|]. rewrite length_cons. cbn [superseded]. destruct (_ && _); lia.
Qed.

Lemma superseded_u64 t : txn_wf t → u64_ok (superseded (rows t 8).*1).
Proof.
  intros Hwf. pose proof (superseded_bounds (rows t 8).*1). pose proof (superseded_le_len (rows t 8).*1) as Hle.
  pose proof (txn_bounds t Hwf 8 (proj1 table_8)) as Hb. rewrite length_fmap in Hle.
  split; [done|lia].
Qed.

Lemma index_keys_8 p : index_keys p 8 = option_list (replace_key p).
Proof.
  unfold index_keys, keys_in, posting_tables. destruct (index_event_tags p) as (-> & _). cbn. by rewrite app_nil_r.
Qed.

Lemma kind_u64 p : packed_ok p → u64_ok (PackedEventView_kind p).
Proof.
  intros [Hb Hl]. unfold PACKED_HEADER_LEN in Hl. unfold PackedEventView_kind.
  apply from_le_u64; [by apply slice_ok|]. unfold slice. rewrite length_take, length_drop. lia.
Qed.

Lemma replace_key_counted p key : packed_ok p → replace_key p = Some key →
  bytes_ok key ∧ (8 ≤ length key)%nat ∧ counted_key key = replaceable (PackedEventView_kind p).
Proof.
  intros Hp E. pose proof (kind_u64 p Hp) as Hk. split_and!.
  - apply (index_keys_ok p 8); [apply Hp|]. rewrite index_keys_8, E. by apply list_elem_of_singleton.
  - unfold replace_key in E. destruct (first_d_tag p); [|done]. injection E as <-.
    unfold make_key_string_u64. rewrite length_app, length_to_ne_bytes. lia.
  - unfold replace_key in E. destruct (first_d_tag p) as [d|]; [|done]. injection E as <-.
    unfold counted_key, parse_key_string_u64, make_key_string_u64, split_tail.
    rewrite decide_False by (rewrite length_app, length_to_ne_bytes; lia).
    rewrite length_app, length_to_ne_bytes, Nat.add_sub, drop_app_length.
    unfold u64_from_ne. rewrite take_ge by (rewrite length_to_ne_bytes; lia). by rewrite from_to_ne_bytes.
Qed.

(** What a step keeps when it only loads or moves the count of superseded events. *)
Definition recounted t t' : Prop :=
  same_data t t' ∧ t_event_sequence t' = t_event_sequence t ∧ t_author_counts t' = t_author_counts t.

(** The step of [insert_event] that counts the event as a replacement. *)
Lemma count_replacement_wp t p : txn_wf t → counters_wf t → packed_ok p →
  (∀ r, r ∈ rows t 8 → (8 ≤ length r.1)%nat) →
  (∀ n, superseded_value t = Some n → n = superseded (rows t 8).*1) →
  wp exhausted (if replaceable (PackedEventView_kind p) then
      '(t, _) ← superseded_events t;
      try_fold (λ t key, change_replacement_count t key true) t (ix_replace (index_event p))
    else Ok t)
  (λ t', recounted t t' ∧ counters_wf t' ∧
    ∀ n, superseded_value t' = Some n → n = superseded (option_list (replace_key p) ++ (rows t 8).*1)).
Proof.
  intros Hwf Hcw Hp H8 Hval. destruct (index_event_tags p) as (_ & _ & Hix). rewrite Hix. clear Hix.
  pose proof (replace_key_counted p) as Hkey. set (m := superseded (rows t 8).*1) in *.
  assert (u64_ok m) as Hm by by apply superseded_u64.
  destruct (replaceable (PackedEventView_kind p)).
  - rewrite superseded_events_eq by done. fold m. cbn [mbind result_bind]. set (t1 := set_superseded_events (Some m) t).
    assert (counters_wf t1) as Hc1 by by apply counters_superseded.
    destruct (replace_key p) as [key|]; cbn [option_list try_fold wp app].
    + destruct (Hkey key Hp eq_refl) as (Hok & _ & Hck).
      eapply wp_seq; [apply (change_replacement_count_wp t1 key true m); [by apply (same_data_wf t)|done..]|].
      intros t2 Ht2. change (rows t1 8) with (rows t 8) in Ht2. cbn beta in Ht2. cbn [wp]. change (option_list (Some key) ++ ?l) with (key :: l). cbn [superseded]. rewrite Hck. cbn [andb].
      case_decide as Hin; [destruct Ht2 as [-> Hmax]; specialize (Hmax eq_refl)|subst t2].
      * rewrite bool_decide_true by done. split; [done|]. split; [|by intros n [= <-]].
        apply counters_superseded; [unfold u64_ok in *; lia|done].
      * rewrite bool_decide_false by done. split_and!; [done..|]. intros n [= <-]. fold m. lia.
    + split_and!; [done..|]. by intros n [= <-].
  - cbn [wp]. split_and!; [done..|]. intros n Hn. apply Hval in Hn as ->.
    destruct (replace_key p) as [key|]; [|done]. destruct (Hkey key Hp eq_refl) as (_ & _ & Hck).
    change (option_list (Some key) ++ ?l) with (key :: l). cbn [superseded]. rewrite Hck. cbn [andb]. fold m. lia.
Qed.

(** ** Insertion *)

Record inserted t t' (lev : Z) (packed json : bytes) : Prop := {
  ins_fields : t_view t' = t_view t ∧ t_defer_tag_kind t' = t_defer_tag_kind t;
  ins_fresh : lev = sequence t + 1 ∧ u64_ok lev;
  ins_event x : x ∈ rows t' 3 ↔ x = (to_ne_bytes lev, packed) ∨ x ∈ rows t 3;
  ins_payload x : x ∈ rows t' 15 ↔ x = (to_ne_bytes lev, encode_raw_payload json) ∨ x ∈ rows t 15;
  ins_index d x : valid_dbi d → d ≠ 3 → d ≠ 15 →
    x ∈ rows t' d ↔ x ∈ rows t d ∨ x.2 = to_ne_bytes lev ∧ x.1 ∈ posted (t_defer_tag_kind t) packed d;
  ins_sequence : sequence t' = lev;
  ins_authors pk : author_value t' pk =
    if decide (pk = PackedEventView_pubkey packed) then bump true <$> author_value t pk else author_value t pk;
  ins_superseded n : superseded_value t' = Some n →
    n = superseded (option_list (replace_key packed) ++ (rows t 8).*1);
}.

Lemma replace_rows_8 t r : store_wf t → r ∈ rows t 8 → (8 ≤ length r.1)%nat.
Proof.
  intros Hst Hr. destruct r as [k v]. apply (sw_index t Hst 8) in Hr as (p & Hp & Hk); [|lia].
  apply (event_packed_ok t _ Hst) in Hp. rewrite index_keys_8 in Hk.
  destruct (replace_key p) as [key|] eqn:E; [|by apply not_elem_of_nil in Hk].
  apply list_elem_of_singleton in Hk as ->. by apply (replace_key_counted p).
Qed.

(** One row more in a table keyed by local id. *)
Lemma put_u64_wp t d lev v flags : txn_wf t → valid_dbi d → reversed d = false → bytes_ok v → len v < U32_MAX →
  (∀ x, x ∈ rows t d → x.1 ≠ to_ne_bytes lev) → ¬ put_refused d (rows t d) (to_ne_bytes lev, v) flags →
  wp exhausted (put_u64 t d lev v flags) (λ '(t', b), b = true ∧ txn_wf t' ∧ same_extra t t' ∧
    (∀ x, x ∈ rows t' d ↔ x = (to_ne_bytes lev, v) ∨ x ∈ rows t d) ∧
    (∀ d', valid_dbi d' → d' ≠ d → rows t' d' = rows t d')).
Proof.
  intros Hwf Hd Hrev Hv Hlen Hfresh Hput. assert (row_ok (to_ne_bytes lev, v)) as Hr by (split; [apply to_le_bytes_ok|done]).
  unfold put_u64. eapply wp_mono; [apply put_full; [done..|]|].
  { split; [done|]. intros _. split; [apply length_to_ne_bytes|done]. }
  intros [t' b] (-> & Hwf' & Hx & Hch & Ho). rewrite decide_False in Hch by done. rewrite bool_decide_true by done.
  split_and!; try done. intros x. rewrite Hch, elem_of_insert_plain by done. specialize (Hfresh x). tauto.
Qed.

Lemma no_key t d k : k ∉ (rows t d).*1 → ∀ x, x ∈ rows t d → x.1 ≠ k.
Proof. intros Hk x Hx E. apply Hk. rewrite <-E. by apply list_elem_of_fmap_2. Qed.

Lemma posted_none defer p d : d ∉ [4;5;6;7;8;9;10;11;12;13;21] → posted defer p d = [].
Proof.
  intros Hd. unfold posted. case_match; [done|]. unfold index_keys, keys_in, posting_tables.
  destruct (index_event_tags p) as (-> & -> & _). cbn.
  repeat (rewrite decide_False by (intros <-; apply Hd; set_solver +)). done.
Qed.

(** The last steps of [insert_event]: the count of replacements, then the indices. *)
Lemma index_inserted_wp t packed lev : txn_wf t → counters_wf t → t_event_sequence t = Some lev → packed_ok packed →
  (∀ r, r ∈ rows t 8 → (8 ≤ length r.1)%nat) →
  (∀ n, superseded_value t = Some n → n = superseded (rows t 8).*1) →
  wp exhausted (t' ← (if replaceable (PackedEventView_kind packed) then
      '(t, _) ← superseded_events t;
      try_fold (λ t key, change_replacement_count t key true) t (ix_replace (index_event packed))
    else Ok t); t' ← put_indices t' lev (index_event packed); Ok (t', lev))
  (λ '(t', n), n = lev ∧ txn_wf t' ∧ counters_wf t' ∧ sequence t' = lev ∧
    t_view t' = t_view t ∧ t_author_counts t' = t_author_counts t ∧ t_defer_tag_kind t' = t_defer_tag_kind t ∧
    rows t' 20 = rows t 20 ∧
    (∀ d x, valid_dbi d → x ∈ rows t' d ↔
      x ∈ rows t d ∨ x.2 = to_ne_bytes lev ∧ x.1 ∈ posted (t_defer_tag_kind t) packed d) ∧
    ∀ n, superseded_value t' = Some n → n = superseded (option_list (replace_key packed) ++ (rows t 8).*1)).
Proof.
  intros Hwf Hcw Hsq Hp H8 Hsup. eapply wp_seq; [by apply count_replacement_wp|].
  intros t1 ((Hs1 & Hq1 & Ha1) & Hc1 & Hu1). pose proof (same_data_wf t t1 Hs1 Hwf) as Hwf1.
  pose proof (λ d, same_data_rows t t1 d Hs1) as Hr1. destruct Hs1 as (Hv1 & _ & _ & _ & _ & Hdf1).
  eapply wp_seq; [by apply put_indices_wp; [|apply Hp]|]. intros t2 (Hwf2 & Hx2 & Hi2).
  pose proof Hx2 as (Hv2 & Hq2 & Hu2 & Ha2 & Hdf2). rewrite Hdf1 in Hi2.
  assert (rows t2 20 = rows t1 20) as H20.
  { apply rows_ext; [done..|apply valid_20|]. intros x. rewrite Hi2 by apply valid_20.
    rewrite posted_none, elem_of_nil by set_solver +. tauto. }
  assert (sequence t2 = lev) as Hs2 by (unfold sequence; by rewrite Hq2, Hq1, Hsq).
  cbn [wp]. split_and!; try congruence.
  - apply (counters_frame t1); [done..| |done]. rewrite Hs2. unfold sequence. by rewrite Hq1, Hsq.
  - intros d x Hd. by rewrite Hi2, Hr1.
  - intros n. rewrite (superseded_value_frame t1 t2) by done. apply Hu1.
Qed.

(** Its first steps: the count of the author, then the local id. *)
Lemma claim_id_wp t pk : txn_wf t → counters_wf t → length pk = 32%nat → bytes_ok pk →
  wp exhausted (change_author_count t pk true) (λ t1, wp exhausted (allocate_event_id t1) (λ '(t', lev),
    lev = sequence t + 1 ∧ u64_ok lev ∧ same_data t t' ∧ counters_wf t' ∧ t_event_sequence t' = Some lev ∧
    t_superseded_events t' = t_superseded_events t ∧
    ∀ pk', author_value t' pk' = if decide (pk' = pk) then bump true <$> author_value t pk' else author_value t pk')).
Proof.
  intros Hwf Hcw Hpk Hpko. eapply wp_mono; [by apply count_author_wp|]. intros t1 (Hs1 & Hc1 & Hq1 & Hu1 & Ha1).
  pose proof (same_data_wf t t1 Hs1 Hwf) as Hwf1.
  assert (sequence t1 = sequence t) as Hsq.
  { unfold sequence. by rewrite Hq1, (same_data_rows t t1), (same_data_stored t t1). }
  eapply wp_mono; [by apply allocate_wp|]. intros [t2 lev] (-> & Hlev & Hu64). rewrite Hsq in Hlev.
  split_and!; try done; [by apply counters_sequence|]. intros pk'.
  rewrite (author_value_frame t1) by done. rewrite Ha1. by case_decide; subst.
Qed.

Lemma insert_event_wp t packed json : store_wf t → packed_ok packed → len packed < U32_MAX →
  bytes_ok json → len json + 1 < U32_MAX →
  wp exhausted (insert_event t packed json) (λ '(t', lev),
    txn_wf t' ∧ counters_wf t' ∧ inserted t t' lev packed json).
Proof.
  intros Hst Hp Hlen Hj Hjl. pose proof (sw_txn t Hst) as Hwf. pose proof (sw_counters t Hst) as Hcw.
  destruct (pubkey_ok packed Hp) as [Hpk Hpko]. unfold insert_event. rewrite view_of_ok by done. cbn [mbind result_bind].
  eapply wp_seq; [by apply claim_id_wp|]. intros t1 Ht1. eapply wp_seq; [exact Ht1|]. clear t1 Ht1.
  intros [t2 lev] (Hlev & Hu64 & Hs2 & Hc2 & Hq2 & Hu2 & Ha2).
  pose proof (same_data_wf t t2 Hs2 Hwf) as Hwf2. pose proof (λ d, same_data_rows t t2 d Hs2) as Hr2.
  destruct (fresh_key t lev Hst Hu64 ltac:(lia)) as [Hfr Hap].
  change (d_event dbis) with 3. destruct valid_3 as (Hd3 & Hrev3 & _).
  eapply wp_seq; [apply put_u64_wp; try done; [by apply Hp|..]; rewrite Hr2; [by apply no_key|done]|].
  intros [t3 b] (-> & Hwf3 & Hx3 & He3 & Ho3). cbn [negb]. change (d_event_payload dbis) with 15.
  assert (valid_dbi 15) as Hd15 by (unfold valid_dbi; lia). assert (valid_dbi 20) as Hd20 by (unfold valid_dbi; lia).
  eapply wp_seq; [apply put_u64_wp; try done|].
  { constructor; [unfold byte_ok, PAYLOAD_RAW; lia|done]. }
  { unfold encode_raw_payload. rewrite length_cons. lia. }
  { rewrite Ho3, Hr2 by done. apply no_key. by rewrite <-(sw_payloads t Hst). }
  { apply put_refused_0. }
  intros [t4 b] (_ & Hwf4 & Hx4 & He4 & Ho4). cbn [mbind result_bind].
  assert (∀ d, valid_dbi d → d ≠ 3 → d ≠ 15 → rows t4 d = rows t d) as Hr4 by (intros; by rewrite Ho4, Ho3, Hr2).
  assert (same_extra t2 t4) as Hx by (destruct Hx4 as (?&?&?&?&?), Hx3 as (?&?&?&?&?); split_and!; congruence).
  pose proof Hx as (Hv4 & Hq4 & Hu4 & Ha4 & Hdf4). destruct Hs2 as (Hv2 & _ & _ & _ & _ & Hdf2).
  assert (rows t4 20 = rows t 20) as H20 by (by apply Hr4). assert (rows t4 8 = rows t 8) as Hr8 by (by apply Hr4).
  assert (t_event_sequence t4 = Some lev) as Hq by by rewrite Hq4.
  eapply wp_mono; [apply index_inserted_wp; try done|].
  { apply (counters_frame t2); try done; [by rewrite H20, Hr2|]. unfold sequence. by rewrite Hq, Hq2. }
  { intros r. rewrite Hr8. by apply replace_rows_8. }
  { rewrite Hr8, (superseded_value_frame t t4); [apply Hst|by rewrite Hu4|done]. }
  intros [t5 n] (-> & Hwf5 & Hc5 & Hs5 & Hv5 & Ha5 & Hdf5 & H205 & Hi5 & Hu5). split_and!; [done..|].
  split; try done.
  - split; congruence.
  - intros x. rewrite Hi5, posted_none, elem_of_nil, Ho4, He3, Hr2 by (done || set_solver +). tauto.
  - intros x. rewrite Hi5, posted_none, elem_of_nil, He4, Ho3, Hr2 by (done || set_solver +). tauto.
  - intros d x Hd H3 H15. rewrite Hi5, Hr4, Hdf4 by done. by rewrite <-Hdf2.
  - intros pk. rewrite (author_value_frame t2); [done|by rewrite Ha5, Ha4|by rewrite H205, H20, Hr2].
  - by rewrite <-Hr8.
Qed.

(** ** The invariant after an insertion *)

Lemma authored_perm t t' r pk : rows t' 3 ≡ₚ r :: rows t 3 →
  authored t' pk = authored t pk + (if decide (pk = PackedEventView_pubkey r.2) then 1 else 0).
Proof.
  intros Hp. unfold authored. rewrite (filter_Permutation _ _ _ Hp), filter_cons.
  destruct (decide (pk = PackedEventView_pubkey r.2)) as [->|Hne].
  - rewrite decide_True by done. rewrite length_cons. lia.
  - rewrite decide_False by congruence. lia.
Qed.

Lemma posted_index defer p d : d ≠ 21 → posted defer p d = index_keys p d.
Proof. intros Hd. unfold posted. by rewrite (proj2 (Z.eqb_neq _ _) Hd), andb_false_r. Qed.

Lemma posted_incl defer p d k : k ∈ posted defer p d → k ∈ index_keys p d.
Proof. unfold posted. case_match; [by intros ?%not_elem_of_nil|done]. Qed.

Lemma inserted_replacements t t' lev packed json : store_wf t → txn_wf t' → inserted t t' lev packed json →
  (rows t' 8).*1 ≡ₚ option_list (replace_key packed) ++ (rows t 8).*1.
Proof.
  intros Hst Hwf' Hins. pose proof (sw_txn t Hst) as Hwf. destruct table_8 as (Hd & _).
  pose proof (λ x, ins_index t t' lev packed json Hins 8 x Hd ltac:(done) ltac:(done)) as Hx.
  rewrite posted_index, index_keys_8 in Hx by done.
  destruct (fresh_key t lev Hst) as [Hfr _]; [apply Hins|destruct (ins_fresh _ _ _ _ _ Hins); lia|].
  destruct (replace_key packed) as [key|].
  - change (option_list (Some key)) with [key] in *. change ([key] ++ (rows t 8).*1) with (((key, to_ne_bytes lev) :: rows t 8).*1).
    apply fmap_Permutation, rows_add; try done.
    + intros (p & Hin & _)%(sw_index t Hst); [|lia]. apply Hfr. by apply (list_elem_of_fmap_2 fst _ (_, p)).
    + intros [k v]. rewrite Hx. cbn [fst snd]. rewrite list_elem_of_singleton, pair_equal_spec. tauto.
  - change (option_list None) with (@nil bytes) in *. rewrite (rows_ext t t' 8); try done. intros x. rewrite Hx, elem_of_nil. tauto.
Qed.

Lemma inserted_wf t t' lev packed json : store_wf t → packed_ok packed → txn_wf t' → counters_wf t' →
  inserted t t' lev packed json → store_wf t'.
Proof.
  intros Hst Hp Hwf' Hcw' Hins. pose proof (sw_txn t Hst) as Hwf. destruct (ins_fresh _ _ _ _ _ Hins) as [Hlev Hu].
  destruct (fresh_key t lev Hst Hu ltac:(lia)) as [Hfr _]. pose proof (ins_event _ _ _ _ _ Hins) as He.
  split; try done.
  - intros r [->|Hr]%He; [apply Hp|by apply (sw_events t Hst)].
  - intros k. rewrite !list_elem_of_fmap. pose proof (sw_payloads t Hst k) as Hk. rewrite !list_elem_of_fmap in Hk.
    setoid_rewrite He. setoid_rewrite (ins_payload _ _ _ _ _ Hins). naive_solver.
  - intros d k v Hd. rewrite (ins_index _ _ _ _ _ Hins) by (unfold valid_dbi; lia). rewrite posted_index by lia.
    cbn [fst snd]. rewrite (sw_index t Hst) by lia. setoid_rewrite He. setoid_rewrite pair_equal_spec.
    split; [intros [(p & ? & ?)|[-> ?]]; eauto|]. intros (p & [[-> ->]|?] & ?); eauto.
  - intros k v. rewrite (ins_index _ _ _ _ _ Hins) by (unfold valid_dbi; lia). setoid_rewrite He.
    intros [Hx|[Hv Hk%posted_incl]]; [apply (sw_postings t Hst) in Hx as [|(p & ? & ?)]; eauto|].
    cbn [fst snd] in *. subst v. right. eauto.
  - intros r. rewrite (ins_sequence _ _ _ _ _ Hins). intros [->|Hr]%He; [by cbn [fst]; rewrite from_to_ne_bytes|].
    apply (sw_sequence t Hst) in Hr. lia.
  - intros pk n Hpk. assert (rows t' 3 ≡ₚ (to_ne_bytes lev, packed) :: rows t 3) as Hperm.
    { apply rows_add; try done. intros Hin. apply Hfr. by apply (list_elem_of_fmap_2 fst _ (_, packed)). }
    rewrite (authored_perm t t' _ pk Hperm), (ins_authors _ _ _ _ _ Hins). cbn [snd].
    pose proof (sw_authors t Hst pk) as Ha. case_decide; destruct (author_value t pk) as [m|]; try done.
    + intros [= <-]. rewrite <-(Ha m) by done. done.
    + intros [= <-]. rewrite <-(Ha m) by done. lia.
  - intros n ->%(ins_superseded _ _ _ _ _ Hins). symmetry.
    by apply superseded_perm, (inserted_replacements t t' lev packed json).
Qed.
End events.
