(* ===== verification/DbDelete.v ===== *)
(** * Deleting an event

    [delete_event_basic] takes an event, its payload and its rows of every
    index away, and nothing else, and keeps [store_wf]. *)

From S2P Require Import Prelude Utf8 BTreeMap Json Crates Kinds Packed EventParse DbKeys DbCodec DbIndex DbTxn DbState DbPayload Search DbSearch DbTagKind DbWrite DbStore DbCursor DbTable DbScan DbTables DbRows DbRw DbDerived DbOps DbLogic DbCounters DbIndices DbEvents.

Local Open Scope Z_scope.

(** [char::to_lowercase] is an iterator of [char]s. *)
Class UnicodeLaws {UC : UnicodeChars} : Prop := {
  to_lowercase_chars c : char_ok c → Forall char_ok (to_lowercase c);
}.

(** ** The keys of the search index *)

Section terms.
Context {UC : UnicodeChars} {UL : UnicodeLaws}.

Definition term_ok (o : option bytes) : Prop := match o with Some w => bytes_ok w | None => True end.

Lemma word_ok current : bytes_ok current → Forall term_ok (word current).
Proof. intros Hc. destruct current; cbn [word]; [done|]. apply Forall_singleton. by case_match. Qed.

Lemma words_ok cs current : Forall char_ok cs → bytes_ok current → Forall term_ok (words current cs).
Proof.
  intros Hcs. revert current. induction Hcs as [|c cs Hc Hcs IH]; intros current Hcur; cbn [words]; [by apply word_ok|].
  case_match.
  - apply IH, Forall_app. split; [done|]. by apply from_chars_ok, to_lowercase_chars.
  - apply Forall_app. split; [by apply word_ok|by apply IH].
Qed.

Lemma feed_terms_ok l : ∀ T : SearchTermSet, (∀ t, t ∈ T → bytes_ok t) → Forall term_ok l →
  ∀ t, t ∈ fst (feed indexed_term T l) → bytes_ok t.
Proof.
  induction l as [|o l IH]; intros T HT Hl; [done|]. apply Forall_cons in Hl as [Ho Hl]. cbn [feed].
  unfold indexed_term at 1. set (T' := match o with Some _ => _ | None => T end).
  assert (∀ t, t ∈ T' → bytes_ok t) as HT'.
  { destruct o as [w|]; [|done]. subst T'. case_match; [done|]. set_solver. }
  case_match; [by apply IH|done].
Qed.

Lemma chars_ok s : Forall char_ok (chars s).
Proof.
  unfold chars. destruct (utf8_chars s) as [cs|] eqn:E; [|done]. by apply utf8_chars_spec in E as [? _].
Qed.

Lemma indexed_terms_ok document t : t ∈ indexed_terms document → bytes_ok t.
Proof.
  unfold indexed_terms. rewrite for_each_document_term_feed. apply feed_terms_ok; [set_solver|].
  apply Forall_bind, Forall_forall. intros s _. apply Forall_app. split; [|by apply Forall_singleton].
  by apply words_ok; [apply chars_ok|].
Qed.
End terms.

Section delete.
Context `{RL : RocksLaws} {HC : HexCrate} {SH : Sha256} {SL : Sha256Laws}.
Context {ZC : ZstdCrate} {UC : UnicodeChars} {UL : UnicodeLaws} {SE : SerdeEvent}.
Implicit Types (t : RwTxn) (lev : Z).

(** What reading back an indexed payload can fail with. *)
Definition unreadable (e : DbError) : Prop :=
  (∃ t lev, indexed_json t lev = Err e) ∨ ∃ lev kind json, search_index_entries lev kind json = Err e.

Definition delete_error (e : DbError) : Prop := exhausted e ∨ unreadable e.

Lemma exhausted_delete e : exhausted e → delete_error e.
Proof. by left. Qed.

Lemma remove_search_wp t lev kind json : txn_wf t →
  wp unreadable (remove_event_search t lev kind json) (λ t', txn_wf t' ∧ same_extra t t' ∧
    ∀ d, valid_dbi d → d ≠ 17 → rows t' d = rows t d).
Proof.
  intros Hwf. unfold remove_event_search. change search_dbi with (Ok 17 : result DbError Z). cbn [mbind result_bind].
  destruct (search_index_entries lev kind json) as [entries|e] eqn:E; cbn [mbind result_bind wp]; [|right; eauto].
  unfold search_index_entries in E. destruct (search_document kind json) as [doc|]; [|done]. injection E as <-.
  set (keys := vec_dedup _).
  assert (∀ l t, try_fold (λ t '(key, value), '(t, _) ← del t 17 key (Some value); Ok t) t
    ((λ key, (key, to_ne_bytes lev)) <$> l) = del_all t 17 l (to_ne_bytes lev)) as Hdel.
  { unfold del_all. induction l as [|k l IH]; intros t'; [done|]. cbn [fmap list_fmap try_fold].
    destruct (del t' 17 k _) as [[t1 b]|e]; [apply IH|done]. }
  rewrite Hdel. eapply wp_mono; [apply del_all_wp; try done|].
  { apply to_le_bytes_ok. }
  { apply Forall_forall. intros k. unfold keys. rewrite elem_of_vec_dedup, slice_sort_perm, list_elem_of_fmap.
    intros (w & -> & Hw%elem_of_elements). constructor; [unfold byte_ok, TERM_PREFIX; lia|by eapply indexed_terms_ok]. }
  intros t' (Hwf' & Hx & Hr). split_and!; [done..|]. intros d Hd Hne. apply rows_ext; [done..|].
  intros x. rewrite Hr by done. tauto.
Qed.

(** The generations kept beside the counters do not change them. *)
Lemma stores_counters t t' key : key ∈ [POLICY_GENERATION; VANISH_MARKER_CHANGES] → stores t t' key → counters_wf t →
  counters_wf t' ∧ sequence t' = sequence t ∧ superseded_value t' = superseded_value t ∧
  ∀ pk, author_value t' pk = author_value t pk.
Proof.
  intros Hkey (Hwf & (_ & Hq & Hu & Ha & _) & Ho & Hk & n & Hn & Hv) [C1 C2 C3 C4].
  rewrite !elem_of_cons, elem_of_nil in Hkey.
  assert (sequence t' = sequence t) as Hs.
  { unfold sequence. rewrite Hq, Ho by done. rewrite Hk by (by destruct Hkey as [->|[->|[]]]). done. }
  split_and!; [split|done|..].
  - intros k raw Hck. destruct (decide (k = key)) as [->|Hne].
    + rewrite Hv. by intros [= <-].
    + rewrite Hk by done. by apply C1.
  - by rewrite Hs.
  - rewrite Hu. apply C3.
  - rewrite Ha. apply C4.
  - unfold superseded_value. by rewrite Hu, Hk by (by destruct Hkey as [->|[->|[]]]).
  - intros pk. unfold author_value. rewrite Ha, Hk; [done|]. pose proof (author_key_other pk). set_solver.
Qed.

Lemma get_u64_eq t d lev : txn_wf t → valid_dbi d → get_u64 t d lev = Ok (row_get (to_ne_bytes lev) (rows t d)).
Proof. intros Hwf Hd. apply get_spec; [done..|]. split; [apply to_le_bytes_ok|done]. Qed.

(** One row less in a table keyed by local id. *)
Lemma del_u64_wp E t d lev : txn_wf t → valid_dbi d → reversed d = false →
  wp E (del_u64 t d lev None) (λ '(t', b), b = bool_decide (to_ne_bytes lev ∈ (rows t d).*1) ∧
    txn_wf t' ∧ same_extra t t' ∧
    (∀ x, x ∈ rows t' d ↔ x ∈ rows t d ∧ x.1 ≠ to_ne_bytes lev) ∧
    (∀ d', valid_dbi d' → d' ≠ d → rows t' d' = rows t d')).
Proof.
  intros Hwf Hd Hrev. assert (bytes_ok (to_ne_bytes lev)) as Hk by apply to_le_bytes_ok.
  pose proof (λ x, elem_of_remove_plain t d (to_ne_bytes lev) x Hwf Hd Hk Hrev) as Hx.
  unfold del_u64. eapply wp_mono; [by apply del_wp|].
  intros [t' b] (-> & Hwf' & He & Hch & Ho). split_and!; try done; [|intros x; by rewrite Hch].
  apply bool_decide_ext. split.
  - intros Hne. apply dec_stable. intros Hnin. apply Hne. rewrite <-Hch. apply rows_ext; [done..|].
    intros x. rewrite Hch, Hx. pose proof (no_key t d _ Hnin x). tauto.
  - intros (x & Hk' & Hin)%list_elem_of_fmap E'. rewrite <-E' in Hin. apply Hx in Hin as [_ Hne]. by rewrite Hk' in Hne.
Qed.

(** ** The primary row and its indices *)

Lemma index_keys_none p d : d ∉ [4;5;6;7;8;9;10;11;12;13;21] → index_keys p d = [].
Proof. intros Hd. by apply (posted_none false p d). Qed.

(** The step of [delete_primary] that takes the event from the count of superseded ones. *)
Lemma uncount_replacement_wp t p : txn_wf t → counters_wf t → packed_ok p →
  (replaceable (PackedEventView_kind p) = true → is_Some (t_superseded_events t)) →
  (∀ n, superseded_value t = Some n → n = superseded (option_list (replace_key p) ++ (rows t 8).*1)) →
  wp exhausted (if replaceable (PackedEventView_kind p) then
      try_fold (λ t key, change_replacement_count t key false) t (ix_replace (index_event p))
    else Ok t)
  (λ t', recounted t t' ∧ counters_wf t' ∧ ∀ n, superseded_value t' = Some n → n = superseded (rows t 8).*1).
Proof.
  intros Hwf Hcw Hp Hload Hval. destruct (index_event_tags p) as (_ & _ & Hix). rewrite Hix. clear Hix.
  pose proof (replace_key_counted p) as Hkey. destruct (replaceable (PackedEventView_kind p)).
  - destruct (Hload eq_refl) as [m Hm]. unfold superseded_value in Hval. rewrite Hm in Hval.
    destruct (replace_key p) as [key|]; cbn [option_list try_fold wp].
    + destruct (Hkey key Hp eq_refl) as (Hok & _ & Hck). specialize (Hval m eq_refl).
      change (option_list (Some key) ++ ?l) with (key :: l) in Hval. cbn [superseded] in Hval. rewrite Hck in Hval.
      pose proof (superseded_bounds (rows t 8).*1). pose proof (cw_superseded t Hcw m Hm) as Hu.
      eapply wp_seq; [apply (change_replacement_count_wp t key false m); try done|].
      { intros _ Hin. rewrite bool_decide_true in Hval by done. cbn [andb] in Hval. lia. }
      intros t2 Ht2. cbn beta in Ht2. cbn [wp]. case_decide as Hin; [destruct Ht2 as [-> _]|subst t2].
      * rewrite bool_decide_true in Hval by done. cbn [andb] in Hval. split; [done|].
        split; [apply counters_superseded; [unfold u64_ok in *; lia|done]|]. intros n [= <-]. lia.
      * rewrite bool_decide_false in Hval by done. cbn [andb] in Hval. split_and!; try done.
        unfold superseded_value. rewrite Hm. intros n [= <-]. lia.
    + split_and!; try done. unfold superseded_value. rewrite Hm. by intros n [= <-]; apply Hval.
  - cbn [wp]. split_and!; try done. intros n ->%Hval.
    destruct (replace_key p) as [key|]; [|done]. destruct (Hkey key Hp eq_refl) as (_ & _ & Hck).
    change (option_list (Some key) ++ ?l) with (key :: l). cbn [superseded]. rewrite Hck. cbn [andb]. lia.
Qed.

(** Its first step loads that count. *)
Lemma load_superseded_wp t p : txn_wf t → counters_wf t →
  (∀ r, r ∈ rows t 8 → (8 ≤ length r.1)%nat) →
  (∀ n, superseded_value t = Some n → n = superseded (rows t 8).*1) →
  wp exhausted (if replaceable (PackedEventView_kind p) then '(t, _) ← superseded_events t; Ok t else Ok t)
  (λ t', recounted t t' ∧ counters_wf t' ∧
    (replaceable (PackedEventView_kind p) = true → is_Some (t_superseded_events t')) ∧
    ∀ n, superseded_value t' = Some n → n = superseded (rows t 8).*1).
Proof.
  intros Hwf Hcw H8 Hval. destruct (replaceable _); [|done].
  rewrite superseded_events_eq by done. cbn [mbind result_bind wp]. split; [done|].
  split; [by apply counters_superseded; [apply superseded_u64|]|]. split; [by eexists|]. by intros n [= <-].
Qed.

(** Without its rows, the keys of the replacement index lose the event's key. *)
Lemma unlisted_replacements t t' lev p : txn_wf t → txn_wf t' →
  (∀ key, replace_key p = Some key → (key, to_ne_bytes lev) ∈ rows t 8) →
  (∀ x, x ∈ rows t' 8 ↔ x ∈ rows t 8 ∧ ¬ (x.2 = to_ne_bytes lev ∧ x.1 ∈ index_keys p 8)) →
  (rows t 8).*1 ≡ₚ option_list (replace_key p) ++ (rows t' 8).*1.
Proof.
  intros Hwf Hwf' Hin Hx. destruct table_8 as (Hd & _). rewrite index_keys_8 in Hx. destruct (replace_key p) as [key|].
  - change (option_list (Some key)) with [key] in *. specialize (Hin key eq_refl).
    change ([key] ++ (rows t' 8).*1) with (((key, to_ne_bytes lev) :: rows t' 8).*1). apply fmap_Permutation, rows_add; try done.
    + rewrite Hx. intros [_ []]. by rewrite list_elem_of_singleton.
    + intros [k v]. rewrite Hx, list_elem_of_singleton, pair_equal_spec. cbn [fst snd].
      destruct (decide (k = key)) as [->|], (decide (v = to_ne_bytes lev)) as [->|]; tauto.
  - change (option_list None) with (@nil bytes) in *. rewrite (rows_ext t' t 8); try done.
    intros x. rewrite Hx, elem_of_nil. tauto.
Qed.

Lemma delete_primary_wp t lev p : txn_wf t → counters_wf t → t_event_sequence t ≠ None → packed_ok p →
  (to_ne_bytes lev, p) ∈ rows t 3 →
  (∀ key, replace_key p = Some key → (key, to_ne_bytes lev) ∈ rows t 8) →
  (∀ r, r ∈ rows t 8 → (8 ≤ length r.1)%nat) →
  (∀ n, superseded_value t = Some n → n = superseded (rows t 8).*1) →
  wp exhausted (delete_primary t lev) (λ t', txn_wf t' ∧ counters_wf t' ∧
    t_view t' = t_view t ∧ t_defer_tag_kind t' = t_defer_tag_kind t ∧
    t_event_sequence t' = t_event_sequence t ∧ t_author_counts t' = t_author_counts t ∧
    (∀ x, x ∈ rows t' 3 ↔ x ∈ rows t 3 ∧ x.1 ≠ to_ne_bytes lev) ∧
    (∀ d x, valid_dbi d → d ≠ 3 →
      x ∈ rows t' d ↔ x ∈ rows t d ∧ ¬ (x.2 = to_ne_bytes lev ∧ x.1 ∈ index_keys p d)) ∧
    ∀ n, superseded_value t' = Some n → n = superseded (rows t' 8).*1).
Proof.
  intros Hwf Hcw Hsq Hp Hin Hkey H8 Hsup. destruct valid_3 as (Hd3 & Hrev3 & _).
  unfold delete_primary. change (d_event dbis) with 3. rewrite get_u64_eq by done.
  rewrite (proj2 (get_plain t 3 _ p Hwf Hd3 Hrev3) Hin). cbn [mbind result_bind]. rewrite view_of_ok by done.
  cbn [mbind result_bind]. eapply wp_seq; [by apply load_superseded_wp|].
  intros t1 ((Hs1 & Hq1 & Ha1) & Hc1 & Hl1 & Hu1). pose proof (same_data_wf t t1 Hs1 Hwf) as Hwf1.
  pose proof (λ d, same_data_rows t t1 d Hs1) as Hr1. destruct Hs1 as (Hv1 & _ & _ & _ & _ & Hdf1).
  eapply wp_seq; [by apply del_indices_wp; [|apply Hp]|]. intros t2 (Hwf2 & Hx2 & Hi2).
  assert (rows t2 20 = rows t1 20 ∧ rows t2 3 = rows t1 3) as [H20 H3].
  { split; (apply rows_ext; [done..|]; intros x; rewrite Hi2 by done;
      rewrite index_keys_none, elem_of_nil by set_solver +; tauto). }
  pose proof Hx2 as (Hv2 & Hq2 & Hu2 & Ha2 & Hdf2).
  pose proof (unlisted_replacements t1 t2 lev p Hwf1 Hwf2) as Hperm. rewrite Hr1 in Hperm.
  eapply wp_seq; [apply (uncount_replacement_wp t2 p); try done|].
  { apply (counters_frame t1); try done. unfold sequence. rewrite Hq2, Hq1. by destruct (t_event_sequence t). }
  { intros Hrep. rewrite Hu2. by apply Hl1. }
  { intros n. rewrite (superseded_value_frame t1 t2) by done. intros ->%Hu1. apply superseded_perm, Hperm; [done|].
    intros x. rewrite Hi2, Hr1 by done. done. }
  intros t3 ((Hs3 & Hq3 & Ha3) & Hc3 & Hu3). pose proof (same_data_wf t2 t3 Hs3 Hwf2) as Hwf3.
  pose proof (λ d, same_data_rows t2 t3 d Hs3) as Hr3. destruct Hs3 as (Hv3 & _ & _ & _ & _ & Hdf3).
  eapply wp_seq; [by apply del_u64_wp|]. intros [t4 b] (_ & Hwf4 & Hx4 & He4 & Ho4).
  pose proof Hx4 as (Hv4 & Hq4 & Hu4 & Ha4 & Hdf4). cbn [wp].
  split_and!; try congruence.
  - apply (counters_frame t3); try done; [by apply Ho4|]. unfold sequence. rewrite Hq4, Hq3, Hq2, Hq1. by destruct (t_event_sequence t).
  - intros x. by rewrite He4, Hr3, H3, Hr1.
  - intros d x Hd Hne. by rewrite Ho4, Hr3, Hi2, Hr1 by done.
  - intros n. rewrite (superseded_value_frame t3 t4), (Ho4 8), Hr3 by (done || by apply Ho4). apply Hu3.
Qed.

(** ** The author and the payload *)

Lemma forget_author_wp t p : txn_wf t → counters_wf t → t_event_sequence t ≠ None → packed_ok p →
  (∀ n, author_value t (PackedEventView_pubkey p) = Some n → 1 ≤ n) →
  wp exhausted (packed ← view_of p; t' ← change_author_count t (PackedEventView_pubkey packed) false;
    t' ← invalidate_visibility t'; Ok (t', Some (PackedEventView_kind packed)))
  (λ '(t', _), txn_wf t' ∧ counters_wf t' ∧ t_view t' = t_view t ∧ t_defer_tag_kind t' = t_defer_tag_kind t ∧
    t_event_sequence t' = t_event_sequence t ∧ superseded_value t' = superseded_value t ∧
    (∀ d, valid_dbi d → d ≠ 20 → rows t' d = rows t d) ∧
    ∀ pk, author_value t' pk =
      if decide (pk = PackedEventView_pubkey p) then bump false <$> author_value t pk else author_value t pk).
Proof.
  intros Hwf Hcw Hsq Hp Hpos. destruct (pubkey_ok p Hp) as [Hpk Hpko]. rewrite view_of_ok by done. cbn [mbind result_bind].
  eapply wp_seq; [by apply count_author_wp|]. intros t1 (Hs1 & Hc1 & Hq1 & Hu1 & Ha1).
  pose proof (same_data_wf t t1 Hs1 Hwf) as Hwf1. pose proof (λ d, same_data_rows t t1 d Hs1) as Hr1.
  eapply wp_seq; [by apply invalidate_visibility_wp|]. intros t2 Hst2. cbn [wp].
  destruct (stores_counters t1 t2 POLICY_GENERATION) as (Hc2 & Hs2 & Hu2 & Ha2); [by left|done..|].
  destruct Hst2 as (Hwf2 & (Hv2 & Hq2 & _ & _ & Hdf2) & Ho2 & _). destruct Hs1 as (Hv1 & _ & _ & _ & _ & Hdf1).
  split_and!; try congruence.
  - by rewrite Hu2, (superseded_value_frame t t1) by (done || by apply Hr1).
  - intros d Hd Hne. by rewrite Ho2, Hr1.
  - intros pk. rewrite Ha2, Ha1. by case_decide; subst.
Qed.

(** The steps of [delete_event_basic] on the payload and its search postings. *)
Lemma delete_payload_wp t lev (kind : option Z) : txn_wf t →
  wp unreadable (indexed_json t lev) (λ json, wp unreadable (del_u64 t 15 lev None) (λ '(t1, b),
    b = bool_decide (to_ne_bytes lev ∈ (rows t 15).*1) ∧
    wp unreadable (match json with
      | Some json =>
          match (match kind with Some kind => Some kind | None => payload_kind json end) with
          | Some kind => remove_event_search t1 lev kind json
          | None => Ok t1
          end
      | None => Ok t1
      end) (λ t', txn_wf t' ∧ same_extra t t' ∧
        (∀ x, x ∈ rows t' 15 ↔ x ∈ rows t 15 ∧ x.1 ≠ to_ne_bytes lev) ∧
        ∀ d, valid_dbi d → d ≠ 15 → d ≠ 17 → rows t' d = rows t d))).
Proof.
  intros Hwf. destruct (indexed_json t lev) as [json|e] eqn:E; cbn [wp]; [|left; eauto].
  eapply wp_mono; [by apply del_u64_wp|]. intros [t1 b] (-> & Hwf1 & Hx1 & He1 & Ho1). split; [done|].
  assert (∀ kind json, wp unreadable (remove_event_search t1 lev kind json) (λ t', txn_wf t' ∧ same_extra t t' ∧
    (∀ x, x ∈ rows t' 15 ↔ x ∈ rows t 15 ∧ x.1 ≠ to_ne_bytes lev) ∧
    ∀ d, valid_dbi d → d ≠ 15 → d ≠ 17 → rows t' d = rows t d)) as Hrem.
  { intros k j. eapply wp_mono; [by apply remove_search_wp|]. intros t2 (Hwf2 & Hx2 & Ho2).
    split_and!; [done|by eapply same_extra_trans|intros x; by rewrite Ho2, He1|]. intros d Hd H15 H17. by rewrite Ho2, Ho1. }
  assert (∀ x, x ∈ rows t1 15 ↔ x ∈ rows t 15 ∧ x.1 ≠ to_ne_bytes lev) by done.
  destruct json as [json|]; [case_match|]; [apply Hrem|cbn [wp]..]; split_and!; try done; intros; by apply Ho1.
Qed.

(** ** The deletion *)

Definition event_at t lev : option bytes := row_get (to_ne_bytes lev) (rows t 3).

Record removed t t' lev : Prop := {
  rem_fields : t_view t' = t_view t ∧ t_defer_tag_kind t' = t_defer_tag_kind t;
  rem_event x : x ∈ rows t' 3 ↔ x ∈ rows t 3 ∧ x.1 ≠ to_ne_bytes lev;
  rem_payload x : x ∈ rows t' 15 ↔ x ∈ rows t 15 ∧ x.1 ≠ to_ne_bytes lev;
  rem_index d x : valid_dbi d → d ∉ [3; 15; 17; 20] → x ∈ rows t' d ↔
    x ∈ rows t d ∧ ¬ ∃ p, event_at t lev = Some p ∧ x.2 = to_ne_bytes lev ∧ x.1 ∈ index_keys p d;
  rem_sequence : sequence t' = sequence t;
  rem_authors pk : author_value t' pk =
    match event_at t lev with
    | Some p => if decide (pk = PackedEventView_pubkey p) then bump false <$> author_value t pk else author_value t pk
    | None => author_value t pk
    end;
  rem_superseded n : superseded_value t' = Some n → n = superseded (rows t' 8).*1;
}.

Lemma event_at_row t lev p : txn_wf t → event_at t lev = Some p ↔ (to_ne_bytes lev, p) ∈ rows t 3.
Proof. intros Hwf. by apply get_plain. Qed.

Lemma event_at_ok t lev p : store_wf t → event_at t lev = Some p → packed_ok p.
Proof.
  intros Hst Hat. apply event_at_row in Hat; [|apply Hst]. by apply (event_packed_ok t (to_ne_bytes lev, p)).
Qed.

Lemma event_at_none t lev : event_at t lev = None ↔ to_ne_bytes lev ∉ (rows t 3).*1.
Proof.
  unfold event_at. rewrite <-row_get_Some_key. destruct (row_get _ _); split; try done; [by intros []|by intros _ []].
Qed.

Lemma author_of_event t lev p n : store_wf t → event_at t lev = Some p →
  author_value t (PackedEventView_pubkey p) = Some n → 1 ≤ n.
Proof.
  intros Hst Hat Hn. pose proof (sw_txn t Hst) as Hwf. apply event_at_row in Hat; [|done].
  apply (sw_authors t Hst) in Hn as ->; [|by apply pubkey_ok, (event_packed_ok t _ Hst Hat)].
  unfold authored. assert ((to_ne_bytes lev, p) ∈ filter (λ r, PackedEventView_pubkey r.2 = PackedEventView_pubkey p) (rows t 3)) as Hf
    by by apply list_elem_of_filter.
  destruct (filter _ _); [by apply not_elem_of_nil in Hf|]. rewrite length_cons. lia.
Qed.

Lemma delete_present_wp t lev p : store_wf t → event_at t lev = Some p →
  wp delete_error (delete_event_basic t lev) (λ '(t', b), b = true ∧ txn_wf t' ∧ counters_wf t' ∧ removed t t' lev).
Proof.
  intros Hst Hat. pose proof (sw_txn t Hst) as Hwf. pose proof (sw_counters t Hst) as Hcw.
  pose proof (proj1 (event_at_row t lev p Hwf) Hat) as Hin. pose proof (event_packed_ok t _ Hst Hin) as Hp. cbn [snd] in Hp.
  unfold delete_event_basic. rewrite preserve_high_water_eq by done. cbn [mbind result_bind].
  set (t0 := set_event_sequence (Some (sequence t)) t). change (d_event dbis) with 3. change (d_event_payload dbis) with 15.
  assert (txn_wf t0) as Hwf0 by by apply (same_data_wf t).
  assert (counters_wf t0) as Hc0 by by apply counters_sequence; [apply Hcw|].
  rewrite get_u64_eq by done. change (rows t0 3) with (rows t 3). fold (event_at t lev). rewrite Hat. cbn [mbind result_bind].
  eapply wp_seq; [eapply wp_weaken; [apply exhausted_delete|]; apply forget_author_wp; try done; intros n; by apply (author_of_event t lev)|].
  intros [t1 kind] (Hwf1 & Hc1 & Hv1 & Hdf1 & Hq1 & Hu1 & Hr1 & Ha1).
  change (∀ d, valid_dbi d → d ≠ 20 → rows t1 d = rows t d) in Hr1.
  eapply wp_seq; [eapply wp_weaken; [by right|by apply delete_payload_wp]|]. intros json Hpay.
  eapply wp_seq; [eapply wp_weaken; [by right|exact Hpay]|]. clear Hpay. intros [t2 b] [-> Hpay].
  eapply wp_seq; [eapply wp_weaken; [by right|exact Hpay]|]. clear Hpay t2.
  intros t2 (Hwf2 & Hx2 & Hp2 & Ho2). pose proof Hx2 as (Hv2 & Hq2 & Hu2 & Ha2 & Hdf2).
  assert (∀ d, valid_dbi d → d ∉ [15; 17; 20] → rows t2 d = rows t d) as Hr2.
  { intros d Hd Hne. rewrite !not_elem_of_cons in Hne. rewrite Ho2, Hr1 by tauto. done. }
  assert (superseded_value t2 = superseded_value t) as Hsv2.
  { etrans; [|exact Hu1]. apply superseded_value_frame; [done|]. by apply Ho2. }
  eapply wp_seq; [eapply wp_weaken; [apply exhausted_delete|]; apply (delete_primary_wp t2 lev p); try done|].
  { apply (counters_frame t1); try done; [by apply Ho2|]. unfold sequence. by rewrite Hq2, Hq1. }
  { by rewrite Hq2, Hq1. }
  { by rewrite Hr2 by (done || set_solver +). }
  { intros key Hkey. rewrite Hr2 by (done || set_solver +). apply (sw_index t Hst); [lia|]. exists p. split; [done|].
    rewrite index_keys_8, Hkey. by apply list_elem_of_singleton. }
  { intros r. rewrite Hr2 by (done || set_solver +). by apply replace_rows_8. }
  { rewrite Hsv2, Hr2 by (done || set_solver +). apply Hst. }
  intros t3 (Hwf3 & Hc3 & Hv3 & Hdf3 & Hq3 & Ha3 & He3 & Hi3 & Hu3). cbn [wp].
  rewrite bool_decide_true by (rewrite Hr1, <-(sw_payloads t Hst) by done; by apply (list_elem_of_fmap_2 fst _ (_, p))).
  split_and!; [done..|]. split; try done.
  - split; [by rewrite Hv3, Hv2, Hv1|by rewrite Hdf3, Hdf2, Hdf1].
  - intros x. by rewrite He3, Hr2 by (done || set_solver +).
  - intros x. rewrite Hi3, index_keys_none, elem_of_nil, Hp2, Hr1 by (done || set_solver +). tauto.
  - intros d x Hd Hne. rewrite !not_elem_of_cons in Hne. rewrite Hi3, Hr2, Hat by (rewrite ?not_elem_of_cons; tauto).
    split; (intros [Hx Hn]; split; [done|]); [by intros (? & [= <-] & ?)|]. intros Hk. apply Hn. by exists p.
  - unfold sequence. by rewrite Hq3, Hq2, Hq1.
  - intros pk. rewrite Hat, (author_value_frame t1), Ha1; [done|by rewrite Ha3|].
    rewrite <-(Ho2 20) by done. apply rows_ext; [done..|]. intros x. rewrite Hi3 by done.
    rewrite index_keys_none, elem_of_nil by set_solver +. tauto.
Qed.

Lemma delete_absent_wp t lev : store_wf t → event_at t lev = None →
  wp delete_error (delete_event_basic t lev) (λ '(t', b), b = false ∧ txn_wf t' ∧ counters_wf t' ∧ removed t t' lev).
Proof.
  intros Hst Hat. pose proof (sw_txn t Hst) as Hwf. pose proof (sw_counters t Hst) as Hcw.
  unfold delete_event_basic. rewrite preserve_high_water_eq by done. cbn [mbind result_bind].
  set (t0 := set_event_sequence (Some (sequence t)) t). change (d_event dbis) with 3. change (d_event_payload dbis) with 15.
  assert (txn_wf t0) as Hwf0 by by apply (same_data_wf t).
  assert (counters_wf t0) as Hc0 by by apply counters_sequence; [apply Hcw|].
  rewrite get_u64_eq by done. change (rows t0 3) with (rows t 3). fold (event_at t lev). rewrite Hat. cbn [mbind result_bind].
  eapply wp_seq; [eapply wp_weaken; [by right|by apply (delete_payload_wp t0 lev None)]|]. intros json Hpay.
  eapply wp_seq; [eapply wp_weaken; [by right|exact Hpay]|]. clear Hpay. intros [t2 b] [-> Hpay].
  eapply wp_seq; [eapply wp_weaken; [by right|exact Hpay]|]. clear Hpay t2.
  intros t2 (Hwf2 & Hx2 & Hp2 & Ho2). pose proof Hx2 as (Hv2 & Hq2 & Hu2 & Ha2 & Hdf2).
  change (rows t0) with (rows t) in *. assert (rows t2 20 = rows t 20) as H20 by by apply Ho2.
  unfold delete_primary. change (d_event dbis) with 3. rewrite get_u64_eq, Ho2 by done. fold (event_at t lev).
  rewrite Hat. cbn [mbind result_bind wp]. pose proof (proj1 (event_at_none t lev) Hat) as Hno.
  rewrite bool_decide_false by by rewrite <-(sw_payloads t Hst).
  assert (sequence t2 = sequence t) as Hs2 by (unfold sequence at 1; by rewrite Hq2).
  split_and!; [done..|by apply (counters_frame t0)|]. split; try done.
  - intros x. rewrite Ho2 by done. pose proof (no_key t 3 _ Hno x). tauto.
  - intros d x Hd Hne. rewrite !not_elem_of_cons in Hne. rewrite Ho2 by tauto. rewrite Hat. naive_solver.
  - intros pk. rewrite Hat. by apply author_value_frame.
  - intros n. rewrite (superseded_value_frame t t2), (Ho2 8) by done. apply Hst.
Qed.

(** ** The invariant after a deletion *)

Lemma removed_wf t t' lev : store_wf t → txn_wf t' → counters_wf t' → removed t t' lev → store_wf t'.
Proof.
  intros Hst Hwf' Hcw' Hrem. pose proof (sw_txn t Hst) as Hwf. pose proof (rem_event _ _ _ Hrem) as He.
  pose proof (λ p, event_at_row t lev p Hwf) as Hat. split; try done.
  - intros r [Hr _]%He. by apply (sw_events t Hst).
  - intros k. rewrite !list_elem_of_fmap. pose proof (sw_payloads t Hst k) as Hk. rewrite !list_elem_of_fmap in Hk.
    setoid_rewrite He. setoid_rewrite (rem_payload _ _ _ Hrem).
    split; intros (r & -> & Hr & Hne); [destruct (proj1 Hk) as (r' & Hr' & ?)|destruct (proj2 Hk) as (r' & Hr' & ?)];
      eauto; exists r'; rewrite <-Hr'; done.
  - intros d k v Hd. rewrite (rem_index _ _ _ Hrem) by (unfold valid_dbi; rewrite ?not_elem_of_cons, ?elem_of_nil; lia).
    rewrite (sw_index t Hst) by lia. setoid_rewrite He. setoid_rewrite Hat. cbn [fst snd]. split.
    + intros [(p & Hp & Hk) Hn]. exists p. split_and!; try done. intros ->. eauto.
    + intros (p & [Hp Hne] & Hk). split; [eauto|]. by intros (p' & _ & ? & _).
  - intros k v. rewrite (rem_index _ _ _ Hrem) by (unfold valid_dbi; rewrite ?not_elem_of_cons, ?elem_of_nil; lia).
    intros [[Hm|(p & Hp & Hk)]%(sw_postings t Hst) Hn]; [by left|]. right. exists p. rewrite He. split_and!; try done.
    cbn [fst snd] in *. intros ->. apply Hn. exists p. by rewrite Hat.
  - intros r. rewrite (rem_sequence _ _ _ Hrem). intros [Hr _]%He. by apply (sw_sequence t Hst).
  - intros pk n Hpk. rewrite (rem_authors _ _ _ Hrem). pose proof (sw_authors t Hst pk) as Ha.
    destruct (event_at t lev) as [p|] eqn:Ep.
    + assert (rows t 3 ≡ₚ (to_ne_bytes lev, p) :: rows t' 3) as Hperm.
      { apply rows_add; try done; [rewrite He; by intros [_ []]|]. intros [k v]. rewrite He, pair_equal_spec. cbn [fst].
        destruct (decide (k = to_ne_bytes lev)) as [->|]; [|tauto]. rewrite <-Hat.
        split; [intros [= <-]; by left|]. by intros [[_ ->]|[_ []]]. }
      rewrite (authored_perm t' t _ pk Hperm) in Ha. cbn [snd] in Ha.
      case_decide; destruct (author_value t pk) as [m|]; try done; intros [= <-]; specialize (Ha m Hpk eq_refl);
        unfold bump; lia.
    + intros Hn. rewrite (Ha n Hpk Hn). unfold authored. f_equal. f_equal. f_equal. symmetry. apply rows_ext; try done.
      intros x. rewrite He. pose proof (no_key t 3 _ (proj1 (event_at_none t lev) Ep) x). tauto.
  - apply Hrem.
Qed.

Lemma delete_event_wp t lev : store_wf t →
  wp delete_error (delete_event_basic t lev) (λ '(t', b),
    b = is_some (event_at t lev) ∧ store_wf t' ∧ removed t t' lev).
Proof.
  intros Hst. destruct (event_at t lev) as [p|] eqn:E;
    (eapply wp_mono; [(by eapply delete_absent_wp) || (by eapply delete_present_wp)|]);
    intros [t' b] (-> & Hwf & Hcw & Hrem); (split_and!; [done|by apply (removed_wf t t' lev)|done]).
Qed.
End delete.
