(* ===== verification/DbLookup.v ===== *)
(** * Lookups in a store

    What the lookups of the write path answer in a store that satisfies
    [store_wf]: the event with an id, the versions of an address, whether a
    request deleted an event.  None of them fails. *)

From S2P Require Import Prelude Utf8 BTreeMap Json Crates Kinds Packed EventParse DbKeys DbCodec DbIndex DbTxn DbState DbPayload Search DbSearch DbTagKind DbWrite DbStore DbCursor DbTable DbScan DbTables DbRows DbRw DbDerived DbOps DbLogic DbCounters DbIndices DbEvents DbDelete.

Local Open Scope Z_scope.

(** ** The first rows of a scan *)

(** When the rows that satisfy [P] are in the range of a scan and come before
    its other rows, the scan visits them first. *)
Lemma scan_rows_first dbi L K D rev (P : Kv → Prop) `{!∀ x, Decision (P x)} : table_sorted dbi L →
  (∀ r, r ∈ L → P r → in_scan dbi K D rev r) →
  (∀ x y, x ∈ L → y ∈ L → P x → ¬ P y → in_scan dbi K D rev y →
    if rev then lcmp dbi x y ≠ Lt else lcmp dbi y x ≠ Lt) →
  scan_rows dbi L K D rev = directed (negb rev) (filter P L) ++
    directed (negb rev) (filter (λ r, ¬ P r) (filter (in_scan dbi K D rev) L)).
Proof.
  intros [Hs _] Hin Hord. unfold scan_rows. set (F := filter (in_scan dbi K D rev) L).
  assert (filter P F = filter P L) as HP.
  { unfold F. rewrite list_filter_filter. apply filter_ext_in. intros r Hr. split; [tauto|]. auto. }
  assert (StronglySorted (λ r r', lcmp dbi r r' = Lt) F) as HsF by by apply StronglySorted_filter_1.
  destruct rev; cbn [directed negb].
  - rewrite <-reverse_app. f_equal. rewrite <-HP. apply (filter_split (λ r r', lcmp dbi r r' = Lt)); [done|].
    intros x y [Hx HxL]%list_elem_of_filter [Hy HyL]%list_elem_of_filter Px Py. by apply Hord.
  - rewrite <-HP. rewrite (filter_split (λ r r', lcmp dbi r r' = Lt) (λ r, ¬ P r) F) at 1; [|done|].
    + f_equal. apply filter_ext_in. intros x _. split; [apply dec_stable|tauto].
    + intros y x [Hy HyL]%list_elem_of_filter [Hx HxL]%list_elem_of_filter Py Px. apply dec_stable in Px. by apply Hord.
Qed.

Section lookup.
Context `{RL : RocksLaws} {HC : HexCrate} {SH : Sha256} {SL : Sha256Laws}.
Implicit Types (t : RwTxn) (lev : Z).

Lemma from_ne_checked v : length v = 8%nat → u64_from_ne_checked v = Ok (from_ne_bytes v).
Proof. intros H8. unfold u64_from_ne_checked, u64_from_ne. rewrite decide_True, take_ge by lia. done. Qed.

(** An entry of an index names a stored event. *)
Lemma index_entry t d k v : store_wf t → 4 ≤ d ≤ 13 → (k, v) ∈ rows t d →
  ∃ p, u64_from_ne_checked v = Ok (from_ne_bytes v) ∧ to_ne_bytes (from_ne_bytes v) = v ∧
    event_at t (from_ne_bytes v) = Some p ∧ packed_ok p ∧ k ∈ index_keys p d.
Proof.
  intros Hst Hd Hin. pose proof (sw_txn t Hst) as Hwf. apply (sw_index t Hst) in Hin as (p & Hp & Hk); [|done].
  exists p. destruct (event_key_u64 t (v, p) Hwf Hp) as [Hv _]. cbn [fst] in Hv.
  pose proof (event_key_length t (v, p) Hwf Hp) as H8. split_and!; try done.
  - by apply from_ne_checked.
  - apply event_at_row; [done|]. by rewrite Hv.
  - by apply (event_packed_ok t (v, p)).
Qed.

Lemma index_keys_4 p : index_keys p 4 = [make_key_string_u64 (PackedEventView_id p) (PackedEventView_created_at p)].
Proof.
  unfold index_keys, keys_in, posting_tables. destruct (index_event_tags p) as (-> & _). done.
Qed.

Lemma id_ok p : packed_ok p → length (PackedEventView_id p) = 32%nat ∧ bytes_ok (PackedEventView_id p).
Proof.
  intros [Hb Hl]. unfold PACKED_HEADER_LEN in Hl. split; [|by apply slice_ok].
  unfold PackedEventView_id, slice. rewrite length_take, length_drop. lia.
Qed.

(** ** By id *)

Lemma run_lookup_id t l id : store_wf t → (∀ r, r ∈ l → r ∈ rows t 4) →
  ∃ b, run_cb (lookup_id_cb id) (None, None) l =
    ((r ← head l; if starts_with r.1 id then Some (from_ne_bytes r.2) else None, None), b).
Proof.
  intros Hst Hl. destruct l as [|[k v] l]; [by eexists|]. cbn [run_cb lookup_id_cb head].
  destruct (index_entry t 4 k v Hst ltac:(lia)) as (p & Hv & _); [by apply Hl; left|].
  rewrite Hv. destruct (starts_with k id) eqn:E; cbn; rewrite E; by eexists.
Qed.

(** Whatever it is asked for, the lookup answers with a stored event. *)
Lemma lookup_id_eq t id : store_wf t → bytes_ok id →
  lookup_event_by_id t id = Ok (r ← head (scan_rows 4 (rows t 4) (make_key_string_u64 id 0) (to_ne_bytes 0) false);
    if starts_with r.1 id then (λ p, (from_ne_bytes r.2, p)) <$> event_at t (from_ne_bytes r.2) else None).
Proof.
  intros Hst Hid. pose proof (sw_txn t Hst) as Hwf. unfold lookup_event_by_id.
  change (d_event_id dbis) with 4. change (d_event dbis) with 3.
  rewrite foreach_full_spec by (done || by apply key_app_ok || apply to_le_bytes_ok).
  set (l := scan_rows _ _ _ _ _).
  assert (∀ r, r ∈ l → r ∈ rows t 4) as Hl by (intros r; by intros [_ ?]%list_elem_of_filter).
  destruct (run_lookup_id t l id Hst Hl) as [b ->]. cbn [mbind result_bind].
  destruct l as [|[k v] l]; cbn [head mbind option_bind fst snd]; [done|].
  destruct (starts_with k id) eqn:E; [|done]. rewrite get_u64_eq by done. cbn [mbind result_bind].
  fold (event_at t (from_ne_bytes v)). by destruct (event_at t (from_ne_bytes v)).
Qed.

Lemma index_value_8 t d r : store_wf t → 4 ≤ d ≤ 13 → r ∈ rows t d → length r.2 = 8%nat ∧ 0 ≤ from_ne_bytes r.2 ≤ U64_MAX.
Proof.
  intros Hst Hd Hr. destruct r as [k v]. apply (sw_index t Hst) in Hr as (p & Hp & _); [|done]. cbn [snd].
  split; [by apply (event_key_length t (v, p) (sw_txn t Hst))|by apply (event_key_u64 t (v, p) (sw_txn t Hst))].
Qed.

(** In the indices by id and by author, the entries of one are the first of a
    forward scan from it. *)
Lemma prefix_scan_rows t d id : store_wf t → d = 4 ∨ d = 10 → length id = 32%nat → bytes_ok id →
  scan_rows d (rows t d) (make_key_string_u64 id 0) (to_ne_bytes 0) false =
  filter (of_author id) (rows t d) ++ filter (λ r, ¬ of_author id r)
    (filter (in_scan d (make_key_string_u64 id 0) (to_ne_bytes 0) false) (rows t d)).
Proof.
  intros Hst Hd Hlen Hid. pose proof (sw_txn t Hst) as Hwf. set (K := make_key_string_u64 id 0). set (D := to_ne_bytes 0).
  assert (valid_dbi d ∧ 4 ≤ d ≤ 13 ∧ key_cmp d = key_cmp 10 ∧ reversed d = true ∧ dup_cmp d = int_cmp) as (Hval & Hd' & Hc & Hrev & Hdup).
  { by destruct Hd; subst d. }
  assert (length K = 40%nat ∧ take 32 K = id ∧ u64_from_ne (drop 32 K) = 0) as (HK1 & HK2 & HK3).
  { unfold K, make_key_string_u64. rewrite length_app, length_to_ne_bytes, Hlen.
    by rewrite take_app_length', drop_app_length' by done. }
  assert (∀ r, in_scan d K D false r ↔ lcmp d (K, D) r ≠ Gt) as Hscan.
  { intros r. unfold in_scan. rewrite Hrev, decide_False; [done|]. intros E. by rewrite E in HK1. }
  rewrite (scan_rows_first d (rows t d) K D false (of_author id)); [done|by apply txn_rows_sorted|..].
  - intros r Hr [H1 H2]. pose proof (rows_ok t d r Hwf Hval Hr) as [Hk Hv].
    rewrite Hscan. unfold lcmp. cbn [fst snd]. rewrite Hc, Hrev, Hdup.
    rewrite (author_key_cmp id) by done. rewrite decide_False, H1 by lia. change (40 - 8)%nat with 32%nat.
    rewrite H2, (cmp_refl bytes_cmp), HK3. cbn [then_with].
    pose proof (from_ne_bytes_bound (take 8 (drop 32 r.1)) ltac:(by apply Forall_take, Forall_drop) ltac:(rewrite length_take; lia)) as [Hmin _].
    unfold int_cmp, u64_from_ne. rewrite bool_decide_true by done.
    destruct (index_value_8 t d r Hst Hd' Hr) as [H8 [Hn _]]. rewrite bool_decide_true by done.
    change (from_ne_bytes D) with 0.
    destruct (Z.compare_spec 0 (from_ne_bytes (take 8 (drop 32 r.1)))); cbn [then_with]; [by apply Z.compare_le_iff|done|lia].
  - intros x y Hx Hy [Hx1 Hx2] Hny. rewrite Hscan. pose proof (rows_ok t d y Hwf Hval Hy) as [Hk Hv].
    unfold lcmp. cbn [fst snd]. rewrite Hc, Hrev.
    pose proof (rows_ok t d x Hwf Hval Hx) as [Hkx _].
    rewrite (key_cmp_opp 10 x.1 y.1), !(author_key_cmp id) by done. case_decide; [done|].
    destruct (bytes_cmp id (take (length y.1 - 8) y.1)) eqn:E; cbn [then_with CompOpp]; [|done..].
    apply (cmp_eq_iff (cmp:=bytes_cmp)) in E. destruct Hny. by apply of_author_tail; [done|lia|].
Qed.

Lemma id_entry t id r : store_wf t → r ∈ rows t 4 → length id = 32%nat → ∃ p,
  event_at t (from_ne_bytes r.2) = Some p ∧ packed_ok p ∧ to_ne_bytes (from_ne_bytes r.2) = r.2 ∧
  (of_author id r ↔ PackedEventView_id p = id) ∧ (starts_with r.1 id = true ↔ PackedEventView_id p = id).
Proof.
  intros Hst Hr Hlen. destruct r as [k v]. destruct (index_entry t 4 k v Hst ltac:(lia) Hr) as (p & _ & Hv & Hat & Hp & Hk).
  rewrite index_keys_4 in Hk. apply list_elem_of_singleton in Hk as ->. destruct (id_ok p Hp) as [Hpid _].
  exists p. split_and!; try done; cbn [fst].
  - unfold of_author, make_key_string_u64. cbn [fst]. rewrite length_app, length_to_ne_bytes, Hpid.
    rewrite take_app_length' by done. naive_solver.
  - rewrite starts_with_true. unfold make_key_string_u64. split; [|intros <-; by eexists].
    intros [r E]. apply app_inj_1 in E as [-> _]; [done|]. by rewrite Hlen.
Qed.

(** The event with an id, if there is one. *)
Lemma lookup_id_spec t id : store_wf t → length id = 32%nat → bytes_ok id →
  ∃ o, lookup_event_by_id t id = Ok o ∧
  match o with
  | Some (lev, p) => event_at t lev = Some p ∧ PackedEventView_id p = id
  | None => ∀ r, r ∈ rows t 3 → PackedEventView_id r.2 ≠ id
  end.
Proof.
  intros Hst Hlen Hid. pose proof (sw_txn t Hst) as Hwf. eexists. split; [by apply lookup_id_eq|].
  rewrite prefix_scan_rows by (done || by left). set (l := filter (of_author id) (rows t 4)).
  destruct l as [|r l'] eqn:El.
  - assert (∀ r, r ∈ rows t 3 → PackedEventView_id r.2 ≠ id) as Hno.
    { intros [v p] Hr E. cbn [snd] in E.
      assert ((make_key_string_u64 id (PackedEventView_created_at p), v) ∈ rows t 4) as Hin.
      { apply (sw_index t Hst); [lia|]. exists p. split; [done|]. rewrite index_keys_4, E. by apply list_elem_of_singleton. }
      destruct (id_entry t id _ Hst Hin Hlen) as (p' & Hat & _ & Hv & Ho & _). cbn [fst snd] in *.
      apply event_at_row in Hat; [|done]. rewrite Hv in Hat.
      assert (p' = p) as -> by (apply (get_plain t 3) in Hr, Hat; try done; congruence).
      apply (not_elem_of_nil (make_key_string_u64 id (PackedEventView_created_at p), v)). rewrite <-El.
      apply list_elem_of_filter. split; [by apply Ho|done]. }
    cbn [app]. set (l' := filter _ _). destruct l' as [|r l''] eqn:E'; cbn [head mbind option_bind]; [done|].
    assert (r ∈ rows t 4) as Hr. { assert (r ∈ l') as Hr by (rewrite E'; left). by apply list_elem_of_filter in Hr as [_ [_ ?]%list_elem_of_filter]. }
    destruct (id_entry t id r Hst Hr Hlen) as (p & Hat & _ & Hv & _ & Hs). apply event_at_row in Hat; [|done].
    destruct (starts_with r.1 id); [|done]. by destruct (Hno _ Hat (proj1 Hs eq_refl)).
  - cbn [app head mbind option_bind]. assert (r ∈ l) as [Ho Hr]%list_elem_of_filter by (rewrite El; left).
    destruct (id_entry t id r Hst Hr Hlen) as (p & Hat & _ & Hv & Hof & Hs).
    rewrite (proj2 Hs (proj1 Hof Ho)), Hat. cbn. split; [done|by apply Hof].
Qed.

(** ** Versions of an address *)

(** The stored versions under a replacement key, the newest local id first. *)
Definition versions t key : list (Z * bytes) :=
  (λ r, (from_ne_bytes r.2, default [] (event_at t (from_ne_bytes r.2)))) <$> reverse (filter (λ r, r.1 = key) (rows t 8)).

Lemma elem_of_versions t key lev p : store_wf t →
  (lev, p) ∈ versions t key ↔ event_at t lev = Some p ∧ u64_ok lev ∧ replace_key p = Some key.
Proof.
  intros Hst. pose proof (sw_txn t Hst) as Hwf. unfold versions. rewrite list_elem_of_fmap. split.
  - intros ([k v] & [= -> ->] & Hr). rewrite elem_of_reverse in Hr. apply list_elem_of_filter in Hr as [<- Hr].
    cbn [fst snd] in *. pose proof (index_value_8 t 8 (k, v) Hst ltac:(lia) Hr) as [_ Hu].
    destruct (index_entry t 8 k v Hst ltac:(lia) Hr) as (p & _ & _ & Hat & Hp & Hk). rewrite Hat. cbn [default from_option id].
    rewrite index_keys_8 in Hk. destruct (replace_key p) as [key|]; [|by apply not_elem_of_nil in Hk].
    by apply list_elem_of_singleton in Hk as ->.
  - intros (Hat & Hu & Hk). exists (key, to_ne_bytes lev). cbn [snd]. rewrite from_to_ne_bytes, Hat by done.
    split; [done|]. rewrite elem_of_reverse. apply list_elem_of_filter. split; [done|].
    apply (sw_index t Hst); [lia|]. exists p. split; [by apply event_at_row|]. rewrite index_keys_8, Hk.
    by apply list_elem_of_singleton.
Qed.

Lemma versions_scan t key : store_wf t → bytes_ok key → key ≠ [] →
  scan_rows 8 (rows t 8) key (to_ne_bytes U64_MAX) true =
  reverse (filter (λ r, r.1 = key) (rows t 8)) ++
  reverse (filter (λ r, r.1 ≠ key) (filter (in_scan 8 key (to_ne_bytes U64_MAX) true) (rows t 8))).
Proof.
  intros Hst Hkey Hne. pose proof (sw_txn t Hst) as Hwf. set (D := to_ne_bytes U64_MAX).
  assert (∀ r, in_scan 8 key D true r ↔ lcmp 8 (key, D) r ≠ Lt) as Hscan.
  { intros r. unfold in_scan. change (reversed 8) with true. by rewrite decide_False. }
  rewrite (scan_rows_first 8 (rows t 8) key D true (λ r, r.1 = key)); [done|by apply txn_rows_sorted|..].
  - intros r Hr E. destruct (index_value_8 t 8 r Hst ltac:(lia) Hr) as [H8 [_ Hd]]. rewrite Hscan. unfold lcmp. cbn [fst snd].
    rewrite E, (proj2 (key_cmp_eq 8 key key Hkey Hkey)) by done. cbn [then_with]. change (reversed 8) with true.
    change (dup_cmp 8 D r.2) with (int_cmp D r.2). unfold int_cmp. rewrite !bool_decide_true by done.
    apply Z.compare_ge_iff. change (from_ne_bytes D) with U64_MAX. lia.
  - intros x y Hx Hy Ex Ey. rewrite Hscan. pose proof (rows_ok t 8 y Hwf ltac:(done) Hy) as [Hk _].
    unfold lcmp. cbn [fst snd]. rewrite Ex. pose proof (key_cmp_eq 8 key y.1 Hkey Hk) as Heq.
    destruct (key_cmp 8 key y.1); cbn [then_with]; try done. destruct Ey. symmetry. by apply Heq.
Qed.

Lemma run_replacement {S} t key (cb : S → Z → PackedEventView → S * bool) s l l' : store_wf t →
  (∀ r, r ∈ l → r.1 = key ∧ r ∈ rows t 8) → (∀ r, r ∈ l' → r.1 ≠ key) →
  ∃ b, run_cb (replacement_cb t key cb) (s, None) (l ++ l') =
    ((fst (feed (λ s '(lev, p), cb s lev p) s
       ((λ r, (from_ne_bytes r.2, default [] (event_at t (from_ne_bytes r.2)))) <$> l)), None), b).
Proof.
  intros Hst Hl Hl'. revert s Hl. induction l as [|[k v] l IH]; intros s Hl.
  - destruct l' as [|[k v] l']; [by eexists|]. cbn [app run_cb replacement_cb]. rewrite decide_True by (by apply (Hl' (k, v)); left).
    by eexists.
  - destruct (Hl (k, v)) as [Hk Hr]; [by left|]. cbn [fst] in Hk. subst k.
    destruct (index_entry t 8 key v Hst ltac:(lia) Hr) as (p & Hv & _ & Hat & Hp & _).
    cbn [app run_cb replacement_cb fmap list_fmap feed snd]. rewrite decide_False by tauto.
    rewrite Hv. cbn [mbind result_bind]. change (d_event dbis) with 3. rewrite get_u64_eq by (done || apply Hst).
    cbn [mbind result_bind]. fold (event_at t (from_ne_bytes v)). rewrite Hat. cbn [ok_or mbind result_bind default from_option id].
    rewrite view_of_ok by done. cbn [mbind result_bind].
    destruct (cb s (from_ne_bytes v) p) as [s' more]. destruct more; [|by eexists].
    apply IH. intros r Hr'. apply Hl. by right.
Qed.

(** The walk over the versions of an address sees exactly those. *)
Lemma foreach_replacement_eq {S} t key (cb : S → Z → PackedEventView → S * bool) s :
  store_wf t → bytes_ok key → key ≠ [] →
  foreach_replacement t key cb s = Ok (fst (feed (λ s '(lev, p), cb s lev p) s (versions t key))).
Proof.
  intros Hst Hkey Hne. unfold foreach_replacement. change (d_event_replace dbis) with 8.
  pose proof (sw_txn t Hst) as Hwf.
  rewrite foreach_full_spec by (done || apply to_le_bytes_ok). rewrite versions_scan by done.
  edestruct (run_replacement t key cb s) as [b ->]; [done|..|done].
  - intros r Hr. rewrite elem_of_reverse in Hr. by apply list_elem_of_filter in Hr.
  - intros r Hr. rewrite elem_of_reverse in Hr. by apply list_elem_of_filter in Hr as [? _].
Qed.

(** ** Deletion requests *)

Lemma index_keys_7 p : index_keys p 7 = PackedEventView_tags p ≫= deletion_of p.
Proof.
  unfold index_keys, keys_in, posting_tables. destruct (index_event_tags p) as (-> & _). cbn. by rewrite app_nil_r.
Qed.

Lemma deletion_exists_eq t id pk : txn_wf t → bytes_ok id → bytes_ok pk →
  deletion_exists t id pk = Ok (bool_decide (id ++ pk ∈ (rows t 7).*1)).
Proof.
  intros Hwf Hid Hpk. unfold deletion_exists. change (d_event_deletion dbis) with 7.
  rewrite get_spec by (done || by split; [apply Forall_app|]). cbn [mbind result_bind].
  pose proof (row_get_Some_key (id ++ pk) (rows t 7)) as Hg.
  f_equal. symmetry. destruct (row_get _ _); cbn [is_some]; [apply bool_decide_eq_true|apply bool_decide_eq_false]; rewrite <-Hg; [done|].
  by intros [].
Qed.

(** A deletion is known exactly when a stored request of that author names the id. *)
Lemma deletion_exists_spec t id pk : store_wf t → bytes_ok id → length pk = 32%nat → bytes_ok pk →
  ∃ b, deletion_exists t id pk = Ok b ∧ (b = true ↔ ∃ r, r ∈ rows t 3 ∧ PackedEventView_kind r.2 = 5 ∧
    PackedEventView_pubkey r.2 = pk ∧ (ch "e", id) ∈ PackedEventView_tags r.2).
Proof.
  intros Hst Hid Hlen Hpk. rewrite deletion_exists_eq by (done || apply Hst). eexists. split; [done|].
  rewrite bool_decide_eq_true, list_elem_of_fmap. split.
  - intros ([k v] & Hk & Hr). apply (sw_index t Hst) in Hr as (p & Hp & Hkey); [|lia]. cbn [fst] in Hk. subst k.
    rewrite index_keys_7, list_elem_of_bind in Hkey. destruct Hkey as ([n val] & Hkey & Htag).
    unfold deletion_of in Hkey. cbn [fst snd] in Hkey. case_match eqn:E; [|by apply not_elem_of_nil in Hkey].
    apply andb_true_iff in E as [->%Z.eqb_eq E%Z.eqb_eq]. apply list_elem_of_singleton in Hkey.
    destruct (pubkey_ok p) as [Hpl _]; [by apply (event_packed_ok t (v, p))|].
    apply app_inj_2 in Hkey as [-> ->]; [|by rewrite Hpl]. by exists (v, p).
  - intros ([v p] & Hr & Hk & <- & Htag). cbn [snd] in *. eexists (_, v). split; [reflexivity|].
    apply (sw_index t Hst); [lia|]. exists p. split; [done|]. rewrite index_keys_7, list_elem_of_bind.
    exists (ch "e", id). split; [|done]. unfold deletion_of. cbn [fst snd]. rewrite Hk.
    by apply list_elem_of_singleton.
Qed.

Lemma index_keys_11 p : index_keys p 11 =
  (PackedEventView_tags p ≫= λ tag, (tombstones_of p tag).1) ++
  (PackedEventView_tags p ≫= λ tag, (tombstones_of p tag).2).
Proof.
  unfold index_keys, keys_in, posting_tables. destruct (index_event_tags p) as (-> & _). cbn. by rewrite app_nil_r.
Qed.

(** The rows of the tombstones parse. *)
Lemma tombstone_key t r : store_wf t → r ∈ rows t 11 → ∃ s n, parse_key_string_u64 r.1 = Ok (s, n).
Proof.
  intros Hst Hr. destruct r as [k v]. apply (sw_index t Hst) in Hr as (p & _ & Hk); [|lia]. cbn [fst].
  assert ((8 ≤ length k)%nat) as H8.
  { rewrite index_keys_11, elem_of_app, !list_elem_of_bind in Hk.
    unfold tombstones_of, address_tombstones in Hk.
    destruct Hk as [(tag & Hk & _)|(tag & Hk & _)]; repeat case_match; cbn [fst snd] in Hk;
      rewrite ?elem_of_nil, ?list_elem_of_singleton in Hk; try done; subst k;
      unfold make_key_string_u64; rewrite length_app, length_to_ne_bytes; lia. }
  unfold parse_key_string_u64. rewrite decide_False by lia. unfold split_tail. eauto.
Qed.

Lemma tombstone_exists_ok t packed d : store_wf t → ∃ b, tombstone_exists t packed d = Ok b.
Proof.
  intros Hst. pose proof (sw_txn t Hst) as Hwf. unfold tombstone_exists. change (d_event_replace_deletion dbis) with 11.
  rewrite foreach_full_spec by (done || apply to_le_bytes_ok || apply key_app_ok, sha256_ok). cbn [mbind result_bind].
  set (l := scan_rows _ _ _ _ _).
  assert (∀ r, r ∈ l → r ∈ rows t 11) as Hl.
  { intros r. unfold l, scan_rows. cbn [directed negb]. rewrite elem_of_reverse. by intros [_ ?]%list_elem_of_filter. }
  destruct l as [|[k v] l]; [by eexists|]. destruct (tombstone_key t (k, v) Hst) as (s & n & Hk); [by apply Hl; left|].
  cbn [run_cb tombstone_cb]. cbn [fst] in Hk. rewrite Hk. case_decide; by eexists.
Qed.

(** ** Events of an author *)

Lemma index_keys_10 p : index_keys p 10 = [make_key_string_u64 (PackedEventView_pubkey p) (PackedEventView_created_at p)].
Proof.
  unfold index_keys, keys_in, posting_tables. destruct (index_event_tags p) as (-> & _). done.
Qed.

Lemma event_row_inj t x y : txn_wf t → x ∈ rows t 3 → y ∈ rows t 3 → x.1 = y.1 → x = y.
Proof.
  intros Hwf Hx Hy E. destruct x as [k v], y as [k' v']. cbn [fst] in E. subst k'.
  apply (get_plain t 3) in Hx, Hy; try done. congruence.
Qed.

(** The entry of an event in the index by author. *)
Definition author_entry (r : Kv) : Kv :=
  (make_key_string_u64 (PackedEventView_pubkey r.2) (PackedEventView_created_at r.2), r.1).

Lemma author_rows t : store_wf t → rows t 10 ≡ₚ author_entry <$> rows t 3.
Proof.
  intros Hst. pose proof (sw_txn t Hst) as Hwf. apply NoDup_Permutation; [by apply rows_NoDup|..].
  - apply NoDup_fmap_2_strong; [|by apply rows_NoDup]. intros x y Hx Hy [= _ E]. by apply (event_row_inj t).
  - intros [k v]. rewrite (sw_index t Hst) by lia. rewrite list_elem_of_fmap. setoid_rewrite index_keys_10.
    setoid_rewrite list_elem_of_singleton. split.
    + intros (p & Hp & ->). by exists (v, p).
    + intros ([v' p] & [= -> ->] & Hp). by exists p.
Qed.

Lemma author_entry_of t r pk : store_wf t → r ∈ rows t 3 → length pk = 32%nat →
  of_author pk (author_entry r) ↔ PackedEventView_pubkey r.2 = pk.
Proof.
  intros Hst Hr Hpk. destruct (pubkey_ok r.2) as [Hl _]; [by apply (event_packed_ok t)|].
  unfold of_author, author_entry, make_key_string_u64. cbn [fst]. rewrite length_app, length_to_ne_bytes, Hl.
  rewrite take_app_length' by done. naive_solver.
Qed.

Lemma filter_fmap_length {A B} (f : A → B) (P : B → Prop) (Q : A → Prop) `{!∀ x, Decision (P x), !∀ x, Decision (Q x)} l :
  (∀ x, x ∈ l → P (f x) ↔ Q x) → length (filter P (f <$> l)) = length (filter Q l).
Proof.
  induction l as [|x l IH]; intros Hl; [done|]. rewrite fmap_cons, !filter_cons.
  rewrite (decide_ext (P (f x)) (Q x)) by (apply Hl; by left).
  case_decide; rewrite ?length_cons, IH; try done; intros y Hy; apply Hl; by right.
Qed.

Lemma authored_index t pk : store_wf t → length pk = 32%nat → len (filter (of_author pk) (rows t 10)) = authored t pk.
Proof.
  intros Hst Hpk. unfold authored. f_equal. rewrite (author_rows t Hst).
  apply filter_fmap_length. intros r Hr. by apply (author_entry_of t).
Qed.

Lemma run_author_count t pk l l' n : store_wf t → length pk = 32%nat → (∀ r, r ∈ l → r ∈ rows t 10 ∧ of_author pk r) →
  (∀ r, r ∈ l' → r ∈ rows t 10 ∧ ¬ of_author pk r) →
  ∃ b, run_cb (author_count_cb pk) n (l ++ l') = (n + len l, b).
Proof.
  intros Hst Hpk Hl Hl'.
  assert (∀ r, r ∈ rows t 10 → starts_with r.1 pk = true ↔ of_author pk r) as Hpre.
  { intros r Hr. rewrite (author_rows t Hst) in Hr. apply list_elem_of_fmap in Hr as (e & -> & He).
    rewrite (author_entry_of t), starts_with_true by done. destruct (pubkey_ok e.2) as [Hpl _]; [by apply (event_packed_ok t)|].
    unfold author_entry, make_key_string_u64. cbn [fst]. split; [|intros <-; by eexists].
    intros [r E]. apply app_inj_1 in E as [-> _]; [done|]. by rewrite Hpk. }
  revert n. induction l as [|r l IH]; intros n.
  - replace (n + len (@nil Kv)) with n by (cbn; lia). destruct l' as [|r l']; [by eexists|].
    destruct (Hl' r) as [Hr Hno]; [by left|]. destruct r as [k v]. cbn [app run_cb]. unfold author_count_cb.
    apply Hpre in Hr. cbn [fst] in Hr. destruct (starts_with k pk); [tauto|by eexists].
  - destruct (Hl r) as [Hr Ha]; [by left|]. destruct r as [k v]. cbn [app run_cb]. unfold author_count_cb at 1.
    apply Hpre in Hr. cbn [fst] in Hr. rewrite (proj2 Hr Ha). cbn [negb].
    destruct (IH (λ r Hr, Hl r (list_elem_of_further _ _ _ Hr)) (n + 1)) as [b ->]. exists b. f_equal. rewrite length_cons. lia.
Qed.

(** ** Steps that leave the events alone *)

Lemma store_frame t t' : store_wf t → txn_wf t' → counters_wf t' →
  (∀ d, 3 ≤ d ≤ 13 ∨ d = 15 → rows t' d = rows t d) →
  (∀ k v, (k, v) ∈ rows t' 21 → is_tag_kind_marker k = true ∨ (k, v) ∈ rows t 21) →
  sequence t' = sequence t → superseded_value t' = superseded_value t →
  (∀ pk n, length pk = 32%nat → author_value t' pk = Some n → author_value t pk = Some n ∨ n = authored t pk) →
  store_wf t'.
Proof.
  intros Hst Hwf' Hcw' Hr H21 Hsq Hsup Hau. pose proof (Hr 3 ltac:(lia)) as H3. split; try done.
  - rewrite H3. apply Hst.
  - rewrite H3, (Hr 15) by lia. apply Hst.
  - intros d k v Hd. rewrite H3, (Hr d) by lia. by apply Hst.
  - intros k v Hk. rewrite H3. destruct (H21 k v Hk) as [|Hin]; [by left|by apply Hst].
  - rewrite H3, Hsq. apply Hst.
  - intros pk n Hpk Hn. unfold authored. rewrite H3. fold (authored t pk).
    destruct (Hau pk n Hpk Hn) as [Hv| ->]; [by apply (sw_authors t Hst)|done].
  - rewrite Hsup, (Hr 8) by lia. apply Hst.
Qed.

Lemma authored_u64 t pk : store_wf t → u64_ok (authored t pk).
Proof.
  intros Hst. pose proof (txn_bounds t (sw_txn t Hst) 3 ltac:(done)) as Hb. unfold authored, u64_ok.
  pose proof (length_filter (λ r : Kv, PackedEventView_pubkey r.2 = pk) (rows t 3)). lia.
Qed.

(** The count of an author, kept or not. *)
Lemma author_count_eq t pk : store_wf t → length pk = 32%nat → bytes_ok pk →
  ∃ t', author_count t pk = Ok (t', authored t pk) ∧ store_wf t' ∧ same_data t t' ∧
    t_event_sequence t' = t_event_sequence t.
Proof.
  intros Hst Hlen Hpk. pose proof (sw_txn t Hst) as Hwf. pose proof (sw_counters t Hst) as Hcw.
  pose proof (sw_authors t Hst pk) as Hau. unfold author_count, author_value in *.
  change state_dbi with (Ok 20 : result DbError Z). cbn [mbind result_bind].
  destruct (t_author_counts t !! author_key pk) as [n|] eqn:En; [by rewrite <-(Hau n) by done; exists t|].
  rewrite get_state by (done || by apply author_key_ok). cbn [mbind result_bind].
  destruct (stored t (author_key pk)) as [raw|] eqn:Es.
  { rewrite decode_counter_Ok by (by apply (cw_stored t Hcw (author_key pk)); [apply author_counter_key|]).
    cbn [mbind result_bind]. rewrite <-(Hau (from_le_bytes raw)) by done. by exists t. }
  change (d_event_pubkey dbis) with 10.
  rewrite foreach_full_spec by (done || by apply key_app_ok || apply to_le_bytes_ok).
  rewrite prefix_scan_rows by (done || by right). cbn [mbind result_bind].
  edestruct (run_author_count t pk) as [b ->]; [done..| | |].
  { intros r [? ?]%list_elem_of_filter. done. }
  { intros r [? [_ ?]%list_elem_of_filter]%list_elem_of_filter. done. }
  cbn [mbind result_bind]. rewrite Z.add_0_l, authored_index by done. eexists. split; [done|].
  fold (set_author_value pk (authored t pk) t). split; [|done].
  apply (store_frame t); try done.
  - by apply (same_data_wf t).
  - destruct Hcw as [C1 C2 C3 C4]. split; [done..|]. intros key m. cbn [set_author_value set_author_counts t_author_counts].
    intros [[<- <-]|[_ Hm]]%lookup_insert_Some; [|by apply C4]. split; [by apply authored_u64|by exists pk].
  - intros k v ?. by right.
  - intros pk' n _. rewrite author_value_set. case_decide; [|by left]. intros [= <-]. by subst; right.
Qed.
End lookup.
