(* ===== verification/DbPostings.v ===== *)
(** * The postings by tag and kind

    The index of tags by kind may lag behind the events: its marker names the
    local id through which it is complete.  [postings_complete] is what a query
    relies on, and [note_tag_kind_indexed] moves the marker only over events
    that are all posted. *)

From S2P Require Import Prelude Utf8 BTreeMap Json Crates Kinds Packed EventParse DbKeys DbCodec DbIndex DbTxn DbState DbPayload Search DbSearch DbTagKind DbWrite DbStore DbCursor DbTable DbScan DbTables DbRows DbRw DbDerived DbOps DbLogic DbCounters DbIndices DbEvents DbDelete DbLookup.

Local Open Scope Z_scope.

Section postings.
Context `{RL : RocksLaws} {HC : HexCrate} {SH : Sha256} {SL : Sha256Laws}.
Implicit Types (t : RwTxn) (lev : Z).

(** ** The marker *)

(** The local id through which the table is complete, in a known layout. *)
Definition through t : option Z :=
  if decide (marker (row_get SCHEMA_KEY (rows t 21)) = Some TAG_KIND_SCHEMA_VERSION)
  then Some (default 0 (marker (row_get INDEXED_THROUGH_KEY (rows t 21)))) else None.

Definition all_posted t (r : Kv) : Prop := ∀ k, k ∈ index_keys r.2 21 → (k, r.1) ∈ rows t 21.

Definition postings_complete t : Prop :=
  ∀ n, through t = Some n → n ≤ sequence t ∧ ∀ r, r ∈ rows t 3 → from_ne_bytes r.1 ≤ n → all_posted t r.

Lemma posting_key_long p k : k ∈ index_keys p 21 → (16 < length k)%nat.
Proof.
  unfold index_keys, keys_in, posting_tables. destruct (index_event_tags p) as (-> & -> & _). cbn. rewrite app_nil_r.
  intros (tag & _ & ->)%elem_of_tag_kind_keys. unfold tag_kind_key, make_key_string_u64_u64.
  rewrite !length_app, !length_to_ne_bytes. cbn. lia.
Qed.

Lemma marker_short k : is_tag_kind_marker k = true → (length k ≤ 8)%nat.
Proof. unfold is_tag_kind_marker. rewrite orb_true_iff, !bool_decide_eq_true. by intros [->| ->]; vm_compute; lia. Qed.

(** The rows under a key determine what a read of it answers. *)
Lemma row_get_same t t' d k : txn_wf t → txn_wf t' → valid_dbi d →
  (∀ v, (k, v) ∈ rows t' d ↔ (k, v) ∈ rows t d) → row_get k (rows t' d) = row_get k (rows t d).
Proof.
  intros Hwf Hwf' Hd Hx. unfold row_get. f_equal. f_equal.
  assert (∀ t, txn_wf t → table_sorted d (filter (λ r, r.1 = k) (rows t d))) as Hs.
  { intros t0 Hwf0. destruct (txn_rows_sorted t0 d Hwf0 Hd) as [Hs Hf]. split; [by apply StronglySorted_filter_1|].
    apply Forall_forall. intros x [_ Hin]%list_elem_of_filter. by eapply Forall_forall in Hf. }
  eapply table_sorted_ext; [by apply Hs..|]. intros [k' v]. rewrite !list_elem_of_filter. cbn [fst].
  split; intros [-> Hin]; (split; [done|]); by apply Hx.
Qed.

Lemma through_same t t' : txn_wf t → txn_wf t' →
  (∀ k v, is_tag_kind_marker k = true → (k, v) ∈ rows t' 21 ↔ (k, v) ∈ rows t 21) → through t' = through t.
Proof.
  intros Hwf Hwf' Hx. unfold through. rewrite !(row_get_same t t' 21); try done; intros v; by apply Hx.
Qed.

(** ** Moving the marker *)

Lemma marker_ne value : u64_ok value → marker (Some (to_ne_bytes value)) = Some value.
Proof. intros Hv. unfold marker. cbn [mbind option_bind]. by rewrite decide_True, from_to_ne_bytes. Qed.

Lemma set_marker_wp t key value : txn_wf t → is_tag_kind_marker key = true →
  wp exhausted (set_marker t 21 key value) (λ t', txn_wf t' ∧ same_extra t t' ∧
    (∀ d, valid_dbi d → d ≠ 21 → rows t' d = rows t d) ∧
    ∀ x, x ∈ rows t' 21 ↔ x = (key, to_ne_bytes value) ∨ x ∈ rows t 21 ∧ x.1 ≠ key).
Proof.
  intros Hwf Hm. pose proof (marker_key_ok key Hm) as Hkey. unfold set_marker.
  eapply wp_seq; [by apply del_wp|]. intros [t1 b] (_ & Hwf1 & Hx1 & Hr1 & Ho1).
  assert (row_ok (key, to_ne_bytes value)) as Hrow by (split; [done|apply to_le_bytes_ok]).
  eapply wp_seq; [by apply put_wp|]. intros [t2 b'] (_ & Hwf2 & Hx2 & Hr2 & Ho2). cbn [wp].
  split_and!; [done|by eapply same_extra_trans|intros; by rewrite Ho2, Ho1|]. intros x.
  rewrite Hr2, elem_of_insert_dup, Hr1 by done. unfold row_del. change (reversed 21) with true. cbn [is_some negb andb].
  rewrite list_elem_of_filter. tauto.
Qed.

Lemma row_get_single (L : list Kv) k v : (∀ w, (k, w) ∈ L ↔ w = v) → row_get k L = Some v.
Proof.
  intros Hx. unfold row_get. destruct (filter (λ r, r.1 = k) L) as [|[k' w] l] eqn:E.
  - assert ((k, v) ∈ filter (λ r, r.1 = k) L) as Hin by (apply list_elem_of_filter; split; [done|by apply Hx]).
    rewrite E in Hin. by apply not_elem_of_nil in Hin.
  - assert ((k', w) ∈ filter (λ r, r.1 = k) L) as [Hk Hin]%list_elem_of_filter by (rewrite E; left).
    cbn [fst] in Hk. subst k'. apply Hx in Hin as ->. done.
Qed.

(** The marker after a batch: it moves to [last] only when every event it comes
    to cover is posted. *)
Lemma note_indexed_wp t first last : store_wf t → postings_complete t → u64_ok last → last ≤ sequence t →
  (∀ r, r ∈ rows t 3 → first ≤ from_ne_bytes r.1 → all_posted t r) →
  wp exhausted (note_tag_kind_indexed t first last) (λ t', postings_complete t' ∧ txn_wf t' ∧ same_extra t t' ∧
    (∀ d, valid_dbi d → d ≠ 21 → rows t' d = rows t d) ∧
    ∀ k v, is_tag_kind_marker k = false → (k, v) ∈ rows t' 21 ↔ (k, v) ∈ rows t 21).
Proof.
  intros Hst Hcomp Hu Hle Hpost. pose proof (sw_txn t Hst) as Hwf. unfold note_tag_kind_indexed.
  change (d_event_tag_kind dbis) with (Some 21). cbv iota beta.
  assert (∀ key, is_tag_kind_marker key = true → get t 21 key = Ok (row_get key (rows t 21))) as Hget.
  { intros key Hk. apply get_spec; [done..|]. split; [by apply marker_key_ok|done]. }
  rewrite (Hget SCHEMA_KEY) by done. cbn [mbind result_bind]. case_decide as Hs; [by split_and!|].
  rewrite (Hget INDEXED_THROUGH_KEY) by done. cbn [mbind result_bind]. case_match eqn:E; [|by split_and!].
  apply andb_true_iff in E as [Hfirst%Z.leb_le _]. eapply wp_mono; [by apply set_marker_wp|].
  intros t' (Hwf' & Hx & Ho & H21). split_and!; try done; [|intros k v Hk; rewrite H21, pair_equal_spec; cbn [fst]].
  2: { split; [intros [[-> _]|[? _]]; done|]. intros Hin. right. split; [done|]. by intros ->. }
  assert (through t' = Some last) as Hth'.
  { assert (SCHEMA_KEY ≠ INDEXED_THROUGH_KEY) as Hne by (vm_compute; done).
    unfold through. rewrite (row_get_same t t' 21 SCHEMA_KEY); try done.
    - rewrite Hs, decide_True by done. rewrite (row_get_single _ _ (to_ne_bytes last)); [by rewrite marker_ne|].
      intros w. rewrite H21, pair_equal_spec. split; [by intros [[_ ->]|[_ []]]|intros ->; by left].
    - intros v. rewrite H21, pair_equal_spec. split; [by intros [[? _]|[? _]]|by right]. }
  assert (∀ r, r ∈ rows t 3 → all_posted t r → all_posted t' r) as Hmono.
  { intros r _ Hall k Hk. apply H21. right. split; [by apply Hall|]. intros E. cbn [fst] in E. subst k.
    apply posting_key_long in Hk. vm_compute in Hk. lia. }
  pose proof Hx as (_ & Hq & _). unfold postings_complete. rewrite Hth', Ho by done. intros n [= <-].
  split; [unfold sequence, stored; by rewrite Hq, !Ho|]. intros r Hr Hlev. apply Hmono; [done|].
  destruct (Hcomp (default 0 (marker (row_get INDEXED_THROUGH_KEY (rows t 21))))) as [_ Hall].
  { unfold through. by rewrite Hs, decide_True. }
  destruct (Z.le_gt_cases first (from_ne_bytes r.1)); [by apply Hpost|]. apply Hall; [done|].
  unfold sat_add in Hfirst. lia.
Qed.
End postings.
