(* ===== verification/DbDecide.v ===== *)
(** * What becomes of an incoming event

    The decisions of the write path in a store that satisfies [store_wf]: what
    [refusal] lets through, which versions [replacement] supersedes, and whose
    events [deletion_targets] may name.  They fail only where the JSON of an
    event or a stored payload cannot be read. *)

From S2P Require Import Prelude Utf8 BTreeMap Json Crates Kinds Packed EventParse Validate DbKeys DbCodec DbIndex DbTxn DbState DbPayload Search DbSearch DbTagKind DbPolicy DbWrite DbStore DbCursor DbTable DbScan DbTables DbRows DbRw DbDerived DbOps DbLogic DbCounters DbIndices DbEvents DbDelete DbLookup.

Local Open Scope Z_scope.

(** ** Walks over tags *)

Lemma foreach_tag_rule {S} (I : S → Prop) (cb : S → Z → bytes → S * bool) s p : I s →
  (∀ s n v, (n, v) ∈ PackedEventView_tags p → I s → I (fst (cb s n v))) → I (foreach_tag cb s p).
Proof.
  intros Hs Hcb. rewrite foreach_tag_each. generalize dependent s.
  induction (PackedEventView_tags p) as [|[n v] l IH]; intros s Hs; [done|]. cbn [each_tag].
  pose proof (Hcb s n v ltac:(by left) Hs) as Hs'. destruct (cb s n v) as [s' []]; [|done].
  apply IH; [|done]. intros s1 n1 v1 Hin. apply Hcb. by right.
Qed.

Section decide.
Context `{RL : RocksLaws} {HC : HexCrate} {HX : HexLaws} {SH : Sha256} {SL : Sha256Laws}.
Context {SF : SerdeFloat} {SK : Secp256k1} {ZC : ZstdCrate} {UC : UnicodeChars}.
Implicit Types (t : RwTxn) (lev : Z) (packed : PackedEventView).

(** The JSON of an event, or a stored payload, cannot be read. *)
Inductive input_error : DbError → Prop :=
| unread_tags json name e : hashed_tag_originals json name = Err e → input_error e
| unread_tag json name v e : original_tag_value json name v = Err e → input_error e
| unread_protection p json e : is_deletion_protected_json p json = Err e → input_error e
| unread_payload dc t raw n e : decode_rw dc t raw n = Err e → input_error e.

Definition no_error {S} (st : S * option DbError) : Prop := match st.2 with Some e => input_error e | None => True end.

(** ** Vanished authors *)

Lemma vanish_timestamp_ok t pk : txn_wf t → bytes_ok pk → ∃ o, vanish_timestamp_rw t pk = Ok o.
Proof.
  intros Hwf Hpk. unfold vanish_timestamp_rw. change (d_vanish_pubkey dbis) with (Some 18). cbv iota beta.
  rewrite get_spec by (done || by split). cbn [mbind result_bind]. by eexists.
Qed.

Lemma event_vanished_wp t packed json : txn_wf t → packed_ok packed →
  wp input_error (is_event_vanished_rw_with_json t packed json) (λ _, True).
Proof.
  intros Hwf Hp. unfold is_event_vanished_rw_with_json, event_vanished.
  assert (∀ b, no_error (foreach_tag (vanished_tag_cb (vanish_timestamp_rw t) (PackedEventView_created_at packed)) (b, None) packed)) as Hwalk.
  { intros b. apply foreach_tag_rule; [done|]. intros [v e] n val [_ Hval]%view_tags_ok Hne; [|apply Hp]. unfold vanished_tag_cb.
    destruct (n =? ch "p"); [|done]. destruct (vanish_timestamp_ok t val Hwf Hval) as [[ts|] ->]; [|done].
    by case_match. }
  apply wp_bind. apply (wp_seq _ _ (λ _, True)).
  - case_match; [|done]. destruct (vanish_timestamp_ok t (PackedEventView_pubkey packed) Hwf) as [[ts|] ->]; [by apply pubkey_ok| |done].
    cbn [mbind result_bind]. case_match; [|done]. destruct (is_deletion_protected_json packed json) eqn:E; [done|].
    cbn. by apply unread_protection with packed json.
  - intros [u authored] _. destruct authored; [done|]. case_match; [|done].
    specialize (Hwalk false). destruct (foreach_tag _ _ _) as [v [e|]]; done.
Qed.

(** ** Refusals *)

(** A stored request of [pk] deletes the event with that id. *)
Definition deletion_stored t (id pk : bytes) : Prop :=
  ∃ r, r ∈ rows t 3 ∧ PackedEventView_kind r.2 = 5 ∧ PackedEventView_pubkey r.2 = pk ∧ (ch "e", id) ∈ PackedEventView_tags r.2.

Lemma deletion_exists_Ok t id pk : store_wf t → bytes_ok id → length pk = 32%nat → bytes_ok pk →
  deletion_exists t id pk = Ok true ∧ deletion_stored t id pk ∨
  deletion_exists t id pk = Ok false ∧ ¬ deletion_stored t id pk.
Proof.
  intros Hst Hid Hlen Hpk. destruct (deletion_exists_spec t id pk) as (b & -> & Hb); [done..|].
  fold (deletion_stored t id pk) in Hb. destruct b; [left|right]; (split; [done|]); [by apply Hb|].
  intros H. by apply Hb in H.
Qed.

(** The tags [recipient_deleted] looks for: a recipient's request names the gift wrap. *)
Definition recipient_requested t packed (tag : PackedEventTag) : Prop :=
  tag.1 = ch "p" ∧ PackedEventView_id packed ++ tag.2 ∈ (rows t 7).*1.

#[local] Instance recipient_requested_dec t packed tag : Decision (recipient_requested t packed tag) := _.

Lemma recipient_deleted_eq t packed : txn_wf t → packed_ok packed →
  recipient_deleted t packed = Ok (bool_decide (PackedEventView_kind packed ∈ GIFT_WRAP_KINDS) &&
    bool_decide (Exists (recipient_requested t packed) (PackedEventView_tags packed))).
Proof.
  intros Hwf Hp. unfold recipient_deleted. case_bool_decide; [|done]. cbn [andb]. rewrite foreach_tag_each.
  pose proof (λ tag, view_tags_ok packed tag (proj1 Hp)) as Hok. destruct (id_ok packed Hp) as [_ Hid].
  induction (PackedEventView_tags packed) as [|[n v] l IH]; [done|]. cbn [each_tag recipient_deleted_cb].
  destruct (Hok (n, v)) as [_ Hv]; [by left|]. cbn [snd] in Hv.
  rewrite (bool_decide_ext (Exists _ _) _ (Exists_cons _ _ _)), bool_decide_or.
  destruct (Z.eqb_spec n (ch "p")) as [->|Hn].
  - rewrite deletion_exists_eq by done.
    destruct (bool_decide (PackedEventView_id packed ++ v ∈ (rows t 7).*1)) eqn:Hd;
      [apply bool_decide_eq_true in Hd|apply bool_decide_eq_false in Hd].
    + by rewrite (bool_decide_true (recipient_requested t packed (ch "p", v))).
    + rewrite (bool_decide_false (recipient_requested t packed (ch "p", v))) by (by intros [_ ?]).
      apply IH. intros tag Hin. apply Hok. by right.
  - rewrite (bool_decide_false (recipient_requested t packed (n, v))) by (by intros [? _]).
    apply IH. intros tag Hin. apply Hok. by right.
Qed.

(** What [refusal] lets through: the id is new, and no stored request of the
    author or of a gift wrap's recipient deletes the event, a protected one
    apart. *)
Record admissible t packed (json : bytes) : Prop := {
  adm_fresh r : r ∈ rows t 3 → PackedEventView_id r.2 ≠ PackedEventView_id packed;
  adm_deleted : PackedEventView_kind packed ≠ VANISH_KIND → PackedEventView_kind packed ≠ DELETION_KIND →
    deletion_stored t (PackedEventView_id packed) (PackedEventView_pubkey packed) →
    is_deletion_protected_json packed json = Ok true;
  adm_recipient tag : PackedEventView_kind packed ∈ GIFT_WRAP_KINDS → tag ∈ PackedEventView_tags packed →
    ¬ recipient_requested t packed tag;
}.

Lemma refusal_wp t policy packed json : store_wf t → packed_ok packed →
  wp input_error (refusal t policy packed json) (λ o,
    match o with
    | None => admissible t packed json
    | Some status => status = Duplicate ∧ (∃ r, r ∈ rows t 3 ∧ PackedEventView_id r.2 = PackedEventView_id packed) ∨ status = Deleted
    end).
Proof.
  intros Hst Hp. pose proof (sw_txn t Hst) as Hwf. destruct (id_ok packed Hp) as [Hidl Hid].
  destruct (pubkey_ok packed Hp) as [Hpkl Hpk]. unfold refusal.
  destruct (lookup_id_spec t (PackedEventView_id packed)) as (o & -> & Ho); [done..|]. cbn [mbind result_bind].
  destruct o as [[lev p]|]; cbn [is_some].
  { left. split; [done|]. destruct Ho as [Hat Hpid]. apply event_at_row in Hat; [|done]. by exists (to_ne_bytes lev, p). }
  case_match; [by right|]. apply (wp_seq _ _ (λ _, True)); [by case_match; [|apply event_vanished_wp]|].
  intros vanished _. destruct vanished; [by right|].
  eapply wp_seq with (λ deleted, deleted = false → PackedEventView_kind packed ≠ VANISH_KIND →
    PackedEventView_kind packed ≠ DELETION_KIND →
    deletion_stored t (PackedEventView_id packed) (PackedEventView_pubkey packed) → is_deletion_protected_json packed json = Ok true).
  - destruct (Z.eqb_spec (PackedEventView_kind packed) VANISH_KIND) as [|Hv]; [by intros _ []|].
    destruct (Z.eqb_spec (PackedEventView_kind packed) DELETION_KIND) as [|Hk]; [by intros _ _ []|]. cbn [negb andb].
    destruct (deletion_exists_Ok t (PackedEventView_id packed) (PackedEventView_pubkey packed)) as [[-> Hd]|[-> Hd]]; [done..| |by intros _ _ _ ?].
    cbn [mbind result_bind]. destruct (is_deletion_protected_json packed json) as [prot|e] eqn:E; [by destruct prot|].
    by apply unread_protection with packed json.
  - intros deleted Hdel. destruct deleted; [by right|]. rewrite recipient_deleted_eq by done. cbn [mbind result_bind].
    case_match eqn:Ew; [by right|]. cbn [wp]. split; [done|by apply Hdel|].
    intros tag Hg Htag Hreq. rewrite bool_decide_true in Ew by done. cbn [andb] in Ew. apply bool_decide_eq_false in Ew.
    apply Ew, Exists_exists. by exists tag.
Qed.

(** ** Versions *)

(** The walk of [replacement]: it stops at a newer version. *)
Lemma feed_candidates packed (l : list (Z * bytes)) cand :
  ∃ out, fst (feed (λ st '(lev, p), (λ '(superseded, candidates) lev other,
    if is_event_a_before_event_b packed other then (true, candidates, false)
    else (superseded, candidates ++ [lev], true)) st lev p) (false, cand) l) =
  (existsb (λ v, is_event_a_before_event_b packed v.2) l, out) ∧
  (existsb (λ v, is_event_a_before_event_b packed v.2) l = false → out = cand ++ l.*1).
Proof.
  revert cand. induction l as [|[lev p] l IH]; intros cand; cbn [feed existsb fmap list_fmap fst snd].
  - exists cand. by rewrite app_nil_r.
  - destruct (is_event_a_before_event_b packed p); cbn [orb]; [by exists cand|].
    destruct (IH (cand ++ [lev])) as (out & -> & Hout). exists out. split; [done|]. intros H.
    by rewrite Hout, <-app_assoc.
Qed.

Lemma replacement_wp t packed json status : store_wf t → packed_ok packed →
  wp input_error (replacement t packed json status) (λ '(status', lev_ids),
    match (if replaceable (PackedEventView_kind packed) then replace_key packed else None) with
    | None => status' = status ∧ lev_ids = []
    | Some key =>
        status' = Replaced ∧ lev_ids = [] ∧
          (∃ lev p, (lev, p) ∈ versions t key ∧ is_event_a_before_event_b packed p = true) ∨
        status' ∈ [status; Deleted] ∧ lev_ids = (versions t key).*1 ∧
          ∀ lev p, (lev, p) ∈ versions t key → is_event_a_before_event_b packed p = false
    end).
Proof.
  intros Hst Hp. unfold replacement. destruct (replaceable _); [|done].
  pose proof (replace_key_counted packed) as Hkey. unfold replace_key in *.
  destruct (first_d_tag packed) as [d|]; [|done]. cbn [mbind option_bind] in *.
  set (key := make_key_string_u64 _ _) in *. destruct (Hkey key Hp eq_refl) as (Hok & H8 & _).
  rewrite (foreach_replacement_eq t key) by (done || by intros E; rewrite E in H8; cbn in H8; lia).
  cbn [mbind result_bind]. destruct (feed_candidates packed (versions t key) []) as (out & Hf & Hout).
  rewrite Hf. clear Hf. destruct (existsb _ _) eqn:E.
  - apply existsb_exists in E as ([lev p] & Hin%list_elem_of_In & Hb). cbn. left. split_and!; [done..|]. by exists lev, p.
  - rewrite Hout by done. cbn [app]. assert (∀ lev p, (lev, p) ∈ versions t key → is_event_a_before_event_b packed p = false) as Hall.
    { intros lev p Hin. destruct (is_event_a_before_event_b packed p) eqn:Eb; [|done].
      rewrite <-E. symmetry. apply existsb_exists. exists (lev, p). by rewrite <-list_elem_of_In. }
    case_decide; [|right; split_and!; [by left|done..]].
    destruct (original_tag_value json "d" d) as [dt|e] eqn:Ed; cbn [mbind result_bind]; [|by apply unread_tag with json "d"%string d].
    destruct (tombstone_exists_ok t packed dt Hst) as [b ->]. cbn [mbind result_bind wp].
    right. split_and!; try done. destruct b; set_solver +.
Qed.

(** ** Addresses *)

Lemma parse_strict_value txt v : parse_strict txt = Ok v → value_wf true v = true.
Proof.
  unfold parse_strict. intros H. inv_bind H. destruct v0 as [w p]. apply parse_value_ok in Hv as [Hw _].
  case_decide; simplify_eq. done.
Qed.

Lemma payload_tag_wf v tag x : value_wf true v = true → tag ∈ payload_tags v → x ∈ tag → value_wf true x = true.
Proof.
  intros Hv Ht Hx. unfold payload_tags in Ht. apply list_elem_of_omap in Ht as (a & Ha & Htag).
  destruct (value_get v "tags") as [w|] eqn:Ew; [|by apply not_elem_of_nil in Ha]. apply (value_get_wf true v) in Ew; [|done].
  destruct w as [| | | |l|]; cbn in Ha; try by apply not_elem_of_nil in Ha. cbn in Ew. rewrite forallb_forall in Ew.
  assert (value_wf true a = true) as Hwa by by apply Ew, list_elem_of_In.
  destruct a; try done. injection Htag as ->. cbn in Hwa. rewrite forallb_forall in Hwa. by apply Hwa, list_elem_of_In.
Qed.

Lemma originals_ok json name m k v : hashed_tag_originals json name = Ok m → m !! k = Some v → bytes_ok v.
Proof.
  unfold hashed_tag_originals. destruct (parse_strict json) as [event|] eqn:E; [|done]. apply parse_strict_value in E.
  cbn [map_err mbind result_bind]. intros [= <-].
  pose proof (λ tag x, payload_tag_wf event tag x E) as Hwf. generalize dependent (payload_tags event). intros tags Hwf.
  assert (∀ m0 : gmap bytes bytes, (∀ k v, m0 !! k = Some v → bytes_ok v) → foldl (λ (originals : gmap bytes bytes) tag,
    if decide ((v ← head tag; as_str v) ≠ Some (str name)) then originals
    else let value := default [] (v ← tag !! 1%nat; as_str v) in
      if (MAX_INDEXED_TAG_VAL_SIZE <? length value)%nat then <[sha256 value := value]> originals else originals)
    m0 tags !! k = Some v → bytes_ok v) as Hfold; [|apply Hfold; by intros ? ? ?%lookup_empty_Some].
  induction tags as [|tag tags IH]; intros m0 Hm0; [apply Hm0|]. cbn [foldl]. apply IH.
  { intros tag' x Hin. apply Hwf; by right. }
  intros k0 v0. case_decide; [apply Hm0|]. cbv zeta. case_match; [|apply Hm0].
  rewrite lookup_insert_Some. intros [[_ <-]|[_ Hl]]; [|by eapply Hm0]. destruct (tag !! 1%nat) as [x|] eqn:Ex; [|constructor].
  cbn [mbind option_bind]. destruct x; try constructor. cbn. apply utf8_valid_bytes_ok.
  eapply (Hwf tag (Str _)); [by left|]. by apply list_elem_of_lookup_2 in Ex.
Qed.

(** ** What a deletion request may delete *)

(** An event of the request's author that is not itself a request, or a gift
    wrap sent to the author. *)
Definition may_delete (deletion p : PackedEventView) : Prop :=
  PackedEventView_pubkey p = PackedEventView_pubkey deletion ∧
    PackedEventView_kind p ≠ VANISH_KIND ∧ PackedEventView_kind p ≠ DELETION_KIND ∨
  PackedEventView_kind p ∈ GIFT_WRAP_KINDS ∧ (ch "p", PackedEventView_pubkey deletion) ∈ PackedEventView_tags p.

Definition deletable t deletion lev : Prop :=
  ∃ p, event_at t lev = Some p ∧ u64_ok lev ∧ may_delete deletion p.

Lemma feed_older created (l : list (Z * bytes)) out :
  fst (feed (λ out '(lev, p), (λ lev_ids lev other,
    (if PackedEventView_created_at other <=? created then lev_ids ++ [lev] else lev_ids, true)) out lev p) out l) =
  out ++ (filter (λ v, PackedEventView_created_at v.2 ≤ created) l).*1.
Proof.
  revert out. induction l as [|[lev p] l IH]; intros out; cbn [feed]; [by rewrite app_nil_r|].
  rewrite filter_cons. cbn [snd]. destruct (Z.leb_spec (PackedEventView_created_at p) created).
  - rewrite decide_True, IH by done. cbn [fmap list_fmap fst]. by rewrite <-app_assoc.
  - rewrite decide_False by lia. apply IH.
Qed.

(** An event stored under the key of an address is of its author and kind. *)
Lemma replace_key_inv p pk d kind : packed_ok p → length pk = 32%nat → u64_ok kind →
  replace_key p = Some (make_key_string_u64 (pk ++ d) kind) →
  PackedEventView_pubkey p = pk ∧ PackedEventView_kind p = kind.
Proof.
  intros Hp Hpk Hk. unfold replace_key. destruct (first_d_tag p) as [d'|]; [|done]. cbn [mbind option_bind].
  intros [= E]. unfold make_key_string_u64 in E. apply app_inj_2 in E as [E Ek]; [|by rewrite !length_to_ne_bytes].
  destruct (pubkey_ok p Hp) as [Hl _]. apply app_inj_1 in E as [E _]; [|by rewrite Hl].
  split; [done|]. apply (f_equal from_ne_bytes) in Ek. rewrite !from_to_ne_bytes in Ek; [done..|by apply kind_u64].
Qed.

Lemma replaceable_may_delete deletion p : PackedEventView_pubkey p = PackedEventView_pubkey deletion →
  replaceable (PackedEventView_kind p) = true → may_delete deletion p.
Proof.
  intros Hpk Hr. left. unfold replaceable, is_replaceable_kind, is_param_replaceable_kind in Hr.
  split_and!; [done|..]; intros E; rewrite E in Hr; vm_compute in Hr; done.
Qed.

Lemma push_address_wp t deletion tag_val long lev_ids : store_wf t → packed_ok deletion →
  (∀ k v, long !! k = Some v → bytes_ok v) →
  ∃ more, push_address_deletions t deletion tag_val long lev_ids = Ok (lev_ids ++ more) ∧ Forall (deletable t deletion) more.
Proof.
  intros Hst Hp Hlong. unfold push_address_deletions. cbv zeta.
  set (address := match hashed_tag_value_digest tag_val with Some digest => long !! digest
    | None => if utf8_valid tag_val then Some tag_val else None end).
  assert (∀ s, address = Some s → bytes_ok s) as Haddr.
  { subst address. destruct (hashed_tag_value_digest tag_val); [apply Hlong|]. destruct (utf8_valid tag_val) eqn:E; [|done].
    intros s [= <-]. by apply utf8_valid_bytes_ok. }
  destruct address as [s|]; cbn [mbind option_bind]; [|exists []; by rewrite app_nil_r].
  specialize (Haddr s eq_refl). destruct (parse_a_tag s) as [[[kind pk] d]|] eqn:E; cbn [result_ok]; [|exists []; by rewrite app_nil_r].
  apply parse_a_tag_Ok in E as (ks & -> & Hks & Hkind & Hpk & Hlen).
  destruct (_ || _) eqn:Eg; [exists []; by rewrite app_nil_r|].
  apply orb_false_iff in Eg as [Hrep%negb_false_iff Hown%negb_false_iff]. apply bool_decide_eq_true in Hown.
  apply parse_u64_digits_Some in Hks as [Hku _]. rewrite !Forall_app in Haddr. destruct Haddr as (_ & _ & _ & _ & Hd).
  set (key := make_key_string_u64 (pk ++ indexed_tag_value d) kind).
  assert (bytes_ok (indexed_tag_value d)) as Hix.
  { unfold indexed_tag_value. case_match; [done|]. constructor; [unfold byte_ok, HASHED_TAG_VAL_MARKER; lia|apply sha256_ok]. }
  rewrite (foreach_replacement_eq t key) by (done || by apply key_app_ok, Forall_app ||
    by intros E%(f_equal length); unfold key, make_key_string_u64 in E; rewrite !length_app, Hlen in E).
  rewrite (feed_older (PackedEventView_created_at deletion)). eexists. split; [done|].
  apply Forall_forall. intros lev ([lev' p] & -> & [_ Hv]%list_elem_of_filter)%list_elem_of_fmap. cbn [fst].
  apply elem_of_versions in Hv as (Hat & Hu & Hk); [|done]. exists p. split_and!; [done..|].
  apply replace_key_inv in Hk as [Hpp Hkk]; [|by eapply event_at_ok|done..].
  apply replaceable_may_delete; [by rewrite Hpp|]. rewrite Hkk. unfold replaceable.
  destruct (is_param_replaceable_kind kind), (is_replaceable_kind kind); done.
Qed.

Lemma lookup_id_any t id : store_wf t → bytes_ok id →
  ∃ o, lookup_event_by_id t id = Ok o ∧ ∀ lev p, o = Some (lev, p) → event_at t lev = Some p ∧ u64_ok lev.
Proof.
  intros Hst Hid. eexists. split; [by apply lookup_id_eq|]. intros lev p. set (l := scan_rows _ _ _ _ _).
  assert (∀ r, r ∈ l → r ∈ rows t 4) as Hl by (intros r; by intros [_ ?]%list_elem_of_filter).
  destruct l as [|r l]; [done|]. cbn [head mbind option_bind]. case_match; [|done].
  destruct (event_at t (from_ne_bytes r.2)) eqn:E; [|done]. intros [= <- <-]. split; [done|].
  apply (index_value_8 t 4); [done|lia|]. apply Hl. by left.
Qed.

Lemma protected_wp c t lev p : store_wf t → event_at t lev = Some p →
  wp input_error (is_deletion_protected_rw c t lev p) (λ _, True).
Proof.
  intros Hst Hat. pose proof (sw_txn t Hst) as Hwf. unfold is_deletion_protected_rw. change (d_event_payload dbis) with 15.
  rewrite get_u64_eq by done. cbn [mbind result_bind]. apply event_at_row in Hat; [|done].
  assert (row_get (to_ne_bytes lev) (rows t 15) ≠ None) as Hne.
  { apply row_get_Some_key, (sw_payloads t Hst). by apply (list_elem_of_fmap_2 fst _ (to_ne_bytes lev, p)). }
  destruct (row_get (to_ne_bytes lev) (rows t 15)) as [raw|]; [|done]. cbn [ok_or mbind result_bind].
  unfold cached_protection. case_match; [done|]. apply (wp_seq _ _ (λ _, True)); [|done].
  destruct (decode_rw Decompressor_new t raw MAX_PAYLOAD_JSON) as [[dc json]|e] eqn:E; cbn [mbind result_bind].
  - destruct (is_deletion_protected_json p json) eqn:E'; [done|]. by apply unread_protection with p json.
  - by apply unread_payload with Decompressor_new t raw MAX_PAYLOAD_JSON.
Qed.

Lemma can_delete_wp c t deletion lev p : store_wf t → event_at t lev = Some p →
  wp input_error (can_delete c t deletion lev p) (λ '(_, b), b = true → may_delete deletion p).
Proof.
  intros Hst Hat. unfold can_delete. set (own := _ && _ && _).
  apply (wp_seq _ _ (λ '(_, b), b = true → own = true)).
  { destruct own; [|done]. apply (wp_seq _ _ (λ _, True)); [by apply protected_wp|]. by intros []. }
  assert (own = true → may_delete deletion p) as Hown.
  { intros H. apply andb_true_iff in H as [[Hv Hd]%andb_true_iff Hpk%bool_decide_eq_true].
    left. by apply negb_true_iff, Z.eqb_neq in Hv, Hd. }
  intros [c' can] Hcan. case_match eqn:Eg; [|cbn [wp]; auto].
  apply andb_true_iff in Eg as [->%negb_true_iff Hg%bool_decide_eq_true]. cbn [wp].
  apply (foreach_tag_rule (λ b, b = true → may_delete deletion p)); [done|]. intros b n v Hin Hb.
  case_match eqn:Et; [|done]. intros _. apply andb_true_iff in Et as [->%Z.eqb_eq ->%bool_decide_eq_true]. by right.
Qed.

Definition targets_ok t deletion (st : ProtectionCache * list Z * option DbError) : Prop :=
  Forall (deletable t deletion) st.1.2 ∧ no_error st.

Lemma deletion_tag_ok t deletion long st n v : store_wf t → packed_ok deletion → bytes_ok v →
  (∀ k v, long !! k = Some v → bytes_ok v) → targets_ok t deletion st →
  targets_ok t deletion (fst (deletion_tag_cb t deletion long st n v)).
Proof.
  intros Hst Hp Hv Hlong. destruct st as [[c levs] error]. intros [Hf He]. cbn [fst snd] in Hf.
  unfold deletion_tag_cb. destruct error as [e|]; [done|]. case_match; [|case_match; [|done]].
  - destruct (lookup_id_any t v Hst Hv) as ([[lev p]|] & -> & Ho); [|done]. destruct (Ho lev p eq_refl) as [Hat Hu].
    pose proof (event_at_ok t lev p Hst Hat) as Hpp. pose proof (view_of_ok p Hpp) as Hview. unfold view_of in Hview.
    destruct (PackedEventView_new p) as [other|]; [|done]. cbn in Hview. injection Hview as ->.
    pose proof (can_delete_wp c t deletion lev p Hst Hat) as Hcan.
    destruct (can_delete c t deletion lev p) as [[c' can]|e]; [|done]. split; [|done]. cbn [fst snd].
    destruct can; [|done]. apply Forall_app. split; [done|]. apply Forall_singleton. exists p. auto.
  - destruct (push_address_wp t deletion v long levs Hst Hp Hlong) as (more & -> & Hm).
    split; [|done]. by apply Forall_app.
Qed.

Lemma deletion_targets_wp c t deletion json : store_wf t → packed_ok deletion →
  wp input_error (deletion_targets c t deletion json) (λ '(_, lev_ids), Forall (deletable t deletion) lev_ids).
Proof.
  intros Hst Hp. unfold deletion_targets.
  apply (wp_seq _ _ (λ long, ∀ k v, long !! k = Some v → bytes_ok v)).
  { case_match; [|by intros k v ?%lookup_empty_Some]. destruct (hashed_tag_originals json "a") as [m|e] eqn:E.
    - intros k v. by apply (originals_ok json "a" m).
    - by apply unread_tags with json "a"%string. }
  intros long Hlong.
  assert (targets_ok t deletion (foreach_tag (deletion_tag_cb t deletion long) (c, [], None) deletion)) as Hok.
  { apply foreach_tag_rule; [by split|]. intros st n v [_ Hv]%view_tags_ok; [|apply Hp]. by apply deletion_tag_ok. }
  destruct (foreach_tag _ _ _) as [[c' levs] [e|]]; by destruct Hok.
Qed.
End decide.
