(* ===== verification/DbBatch.v ===== *)
(** * A batch of events

    [write_events_with_quota] takes a store that satisfies [db_wf] to another:
    every index exact, ids unique, one version per address, the tag postings
    complete up to their marker.  What it writes is within the author's quota,
    and what it deletes is a superseded version or an event that the written
    request may delete. *)

From S2P Require Import Prelude Utf8 BTreeMap Json Crates Kinds Packed EventParse Validate DbKeys DbCodec DbIndex DbTxn DbState DbPayload Search DbSearch DbTagKind DbPolicy DbWrite DbStore DbCursor DbTable DbScan DbTables DbRows DbRw DbDerived DbOps DbLogic DbCounters DbIndices DbEvents DbDelete DbLookup DbPostings DbDecide.

Local Open Scope Z_scope.

(** The trees keep to their own tables: the meta table, the filters and the
    nodes. *)
Class SinkLaws `{RL : RocksLaws} {NS : NegentropySink} : Prop := {
  sink_update_rows s t p b s' t' : txn_wf t → sink_update s t p b = Ok (s', t') →
    txn_wf t' ∧ same_extra t t' ∧ ∀ d, valid_dbi d → d ∉ [1; 2; 16] → rows t' d = rows t d;
}.

#[export] Instance NoopNegentropyLaws `{RL : RocksLaws} : SinkLaws (NS := NoopNegentropy).
Proof. split. intros s t p b s' t' Hwf [= <- <-]. done. Qed.

Section batch.
Context `{RL : RocksLaws} {HC : HexCrate} {HX : HexLaws} {SH : Sha256} {SL : Sha256Laws}.
Context {SF : SerdeFloat} {SK : Secp256k1} {ZC : ZstdCrate} {UC : UnicodeChars} {UL : UnicodeLaws} {SE : SerdeEvent}.
Context {NS : NegentropySink} {SNL : SinkLaws}.
Implicit Types (t : RwTxn) (lev : Z) (packed : PackedEventView).

(** What a batch can fail with: a 64-bit counter runs out, the JSON of an event
    or a stored payload cannot be read, or the trees fail. *)
Inductive write_error : DbError → Prop :=
| we_delete e : delete_error e → write_error e
| we_input e : input_error e → write_error e
| we_sink s t p b e : sink_update s t p b = Err e → write_error e.

Lemma exhausted_write e : exhausted e → write_error e.
Proof. by intros; apply we_delete; left. Qed.

(** The tables of a step that leaves events alone. *)
Definition leaves_events t t' : Prop :=
  store_wf t' ∧ t_view t' = t_view t ∧ t_defer_tag_kind t' = t_defer_tag_kind t ∧ sequence t' = sequence t ∧
  ∀ d, 3 ≤ d ≤ 13 ∨ d = 15 ∨ d = 21 → rows t' d = rows t d.

Lemma sink_wp s t p b : store_wf t → wp write_error (sink_update s t p b) (λ '(_, t'), leaves_events t t').
Proof.
  intros Hst. destruct (sink_update s t p b) as [[s' t']|e] eqn:E; [|by apply we_sink with s t p b].
  apply sink_update_rows in E as (Hwf & Hx & Hr); [|apply Hst]. pose proof Hx as (Hv & Hq & Hu & Ha & Hdf). cbn [wp].
  assert (∀ d, 3 ≤ d ≤ 15 ∨ d = 20 ∨ d = 21 → rows t' d = rows t d) as Hr'.
  { intros d Hd. apply Hr; [unfold valid_dbi; lia|]. rewrite !not_elem_of_cons, elem_of_nil. lia. }
  assert (sequence t' = sequence t) as Hs by (unfold sequence, stored; by rewrite Hq, !Hr' by lia).
  split; [|split_and!; try done; intros d Hd; apply Hr'; lia].
  apply (store_frame t); try done.
  - apply (counters_frame t); try done; [apply Hr'; lia|apply Hst].
  - intros d Hd. apply Hr'. lia.
  - intros k v. rewrite Hr' by lia. by right.
  - apply superseded_value_frame; [done|]. apply Hr'. lia.
  - intros pk n _ <-. left. symmetry. apply author_value_frame; [done|]. apply Hr'. lia.
Qed.

(** ** Vanish markers *)

Lemma leaves_trans t1 t2 t3 : leaves_events t1 t2 → leaves_events t2 t3 → leaves_events t1 t3.
Proof.
  intros (_ & Hv & Hd & Hs & Hr) (Hst & Hv' & Hd' & Hs' & Hr'). split_and!; try congruence.
  intros d Hdd. rewrite Hr', Hr by done. done.
Qed.

(** A generation of the state table. *)
Lemma stores_leaves t t' key : key ∈ [POLICY_GENERATION; VANISH_MARKER_CHANGES] → stores t t' key → store_wf t →
  leaves_events t t'.
Proof.
  intros Hkey Hstores Hst. destruct (stores_counters t t' key Hkey Hstores (sw_counters t Hst)) as (Hc & Hs & Hu & Ha).
  destruct Hstores as (Hwf & (Hv & _ & _ & _ & Hdf) & Ho & _).
  assert (∀ d, 3 ≤ d ≤ 13 ∨ d = 15 ∨ d = 21 → rows t' d = rows t d) as Hr.
  { intros d Hd. apply Ho; [unfold valid_dbi; lia|lia]. }
  split_and!; try done. apply (store_frame t); try done.
  - intros d Hd. apply Hr. lia.
  - intros k v. rewrite Hr by lia. by right.
  - intros pk n _. rewrite Ha. by left.
Qed.

(** A row of a table of its own. *)
Lemma other_leaves t t' d : d ∉ [3;4;5;6;7;8;9;10;11;12;13;15;20;21] → txn_wf t' → same_extra t t' →
  (∀ d', valid_dbi d' → d' ≠ d → rows t' d' = rows t d') → store_wf t → leaves_events t t'.
Proof.
  intros Hd Hwf (Hv & Hq & Hu & Ha & Hdf) Ho Hst.
  assert (∀ d, 3 ≤ d ≤ 13 ∨ d = 15 ∨ d = 20 ∨ d = 21 → rows t' d = rows t d) as Hr.
  { intros d' Hd'. apply Ho; [unfold valid_dbi; lia|]. intros ->. apply Hd. rewrite !elem_of_cons. lia. }
  assert (sequence t' = sequence t) as Hs by (unfold sequence, stored; by rewrite Hq, !Hr by lia).
  split_and!; try done; [|intros; apply Hr; lia]. apply (store_frame t); try done.
  - apply (counters_frame t); try done; [apply Hr; lia|apply Hst].
  - intros d' Hd'. apply Hr. lia.
  - intros k v. rewrite Hr by lia. by right.
  - apply superseded_value_frame; [done|]. apply Hr. lia.
  - intros pk n _ <-. left. symmetry. apply author_value_frame; [done|]. apply Hr. lia.
Qed.

Lemma count_marker_wp t : store_wf t → wp exhausted (count_vanish_marker_change t) (leaves_events t).
Proof.
  intros Hst. pose proof (sw_txn t Hst) as Hwf. pose proof (sw_counters t Hst) as Hcw.
  unfold count_vanish_marker_change, vanish_marker_changes.
  change state_dbi with (Ok 20 : result DbError Z). change (d_state dbis) with (Some 20). cbn [mbind result_bind].
  cbv iota beta. rewrite get_state by (done || apply str_ok). cbn [mbind result_bind].
  assert (∃ o, decode_opt (stored t VANISH_MARKER_CHANGES) = Ok o) as [o ->].
  { destruct (stored t VANISH_MARKER_CHANGES) as [raw|] eqn:E; [|by exists None].
    assert (length raw = 8%nat) as H8 by (apply (cw_stored t Hcw VANISH_MARKER_CHANGES); [left; set_solver|done]).
    unfold decode_opt. rewrite decode_counter_Ok by done. by eexists. }
  cbn [mbind result_bind]. eapply wp_seq; [apply put_state_wp; [done|apply str_ok|]|].
  { unfold u64_ok, wrap64, U64_MAX. pose proof (Z.mod_pos_bound (default 0 o + 1) (2 ^ 64) ltac:(done)). lia. }
  intros [t' b] [Hs _]. cbn [wp]. apply (stores_leaves t t' VANISH_MARKER_CHANGES); [set_solver +|done..].
Qed.

Lemma mark_vanished_wp t pk timestamp : store_wf t → bytes_ok pk → wp exhausted (mark_vanished t pk timestamp) (leaves_events t).
Proof.
  intros Hst Hpk. pose proof (sw_txn t Hst) as Hwf. unfold mark_vanished. change (d_vanish_pubkey dbis) with (Some 18).
  cbn [ok_or mbind result_bind]. rewrite get_spec by (done || by split). cbn [mbind result_bind].
  case_match; [|by split_and!]. eapply wp_seq; [apply put_wp; try done|].
  { split; [split; [done|apply to_le_bytes_ok]|done]. }
  intros [t1 b] (_ & Hwf1 & Hx1 & _ & Ho1).
  assert (leaves_events t t1) as Hl1 by (apply (other_leaves t t1 18); try done; set_solver +).
  pose proof Hl1 as (Hst1 & _).
  eapply wp_seq; [apply invalidate_visibility_wp; apply Hst1|]. intros t2 Hs2.
  assert (leaves_events t1 t2) as Hl2 by (apply (stores_leaves t1 t2 POLICY_GENERATION); [set_solver +|done..]).
  eapply wp_mono; [apply count_marker_wp, Hl2|]. intros t3 Hl3. by eapply leaves_trans, leaves_trans.
Qed.

(** ** Deleting a list of events *)

Record dropped t t' (levs : list Z) : Prop := {
  dr_store : store_wf t';
  dr_fields : t_view t' = t_view t ∧ t_defer_tag_kind t' = t_defer_tag_kind t;
  dr_sequence : sequence t' = sequence t;
  dr_events x : x ∈ rows t' 3 ↔ x ∈ rows t 3 ∧ x.1 ∉ to_ne_bytes <$> levs;
  dr_postings k v : (k, v) ∈ rows t' 21 ↔
    (k, v) ∈ rows t 21 ∧ (is_tag_kind_marker k = true ∨ v ∉ to_ne_bytes <$> levs);
}.

Lemma leaves_dropped t t' : leaves_events t t' → dropped t t' [].
Proof.
  intros (Hst & Hv & Hd & Hs & Hr). split; try done.
  - intros x. rewrite Hr by lia. cbn. rewrite elem_of_nil. tauto.
  - intros k v. rewrite Hr by lia. cbn. rewrite elem_of_nil. tauto.
Qed.

Lemma dropped_trans t1 t2 t3 l l' : dropped t1 t2 l → dropped t2 t3 l' → dropped t1 t3 (l ++ l').
Proof.
  intros [S1 [V1 D1] Q1 E1 P1] [S2 [V2 D2] Q2 E2 P2]. split; try done.
  - split; congruence.
  - congruence.
  - intros x. rewrite E2, E1, fmap_app, elem_of_app. tauto.
  - intros k v. rewrite P2, P1, fmap_app, elem_of_app. tauto.
Qed.

Lemma removed_dropped t t' lev : store_wf t → store_wf t' → removed t t' lev → dropped t t' [lev].
Proof.
  intros Hst Hst' Hrem. pose proof (sw_txn t Hst) as Hwf. split; try done.
  - apply Hrem.
  - apply Hrem.
  - intros x. rewrite (rem_event _ _ _ Hrem). cbn. by rewrite list_elem_of_singleton.
  - intros k v. rewrite (rem_index _ _ _ Hrem) by (done || set_solver +). cbn [fst snd fmap list_fmap].
    rewrite list_elem_of_singleton. split; intros [Hin Hcond]; (split; [done|]).
    + destruct (sw_postings t Hst k v Hin) as [|(p & Hp & Hk)]; [by left|]. right. intros ->. apply Hcond.
      exists p. by rewrite event_at_row.
    + intros (p & _ & -> & Hk). destruct Hcond as [Hm|[]]; [|done]. apply marker_short in Hm.
      apply posting_key_long in Hk. lia.
Qed.

Lemma delete_one_wp s t lev : store_wf t →
  wp write_error (delete_one s t lev) (λ '(_, t', b), dropped t t' [lev] ∧ b = is_some (event_at t lev)).
Proof.
  intros Hst. pose proof (sw_txn t Hst) as Hwf. unfold delete_one, lookup_event_by_levid. change (d_event dbis) with 3.
  rewrite get_u64_eq by done. cbn [mbind result_bind]. fold (event_at t lev).
  destruct (event_at t lev) as [p|] eqn:Hat.
  - rewrite view_of_ok by (by eapply event_at_ok). cbn [mbind result_bind].
    eapply wp_seq; [by apply sink_wp|]. intros [s1 t1] Hl. pose proof Hl as (Hst1 & _ & _ & _ & Hr).
    eapply wp_seq; [eapply wp_weaken; [apply we_delete|by apply delete_event_wp]|].
    intros [t2 b] (-> & Hst2 & Hrem). cbn [wp]. unfold event_at at 1. rewrite Hr by lia. fold (event_at t lev). rewrite Hat.
    split; [|done]. apply (dropped_trans t t1 t2 [] [lev]); [by apply leaves_dropped|by apply removed_dropped].
  - cbn [wp]. split; [|done]. pose proof (no_key t 3 _ (proj1 (event_at_none t lev) Hat)) as Hno. split; try done.
    + intros x. cbn. rewrite list_elem_of_singleton. specialize (Hno x). tauto.
    + intros k v. cbn. rewrite list_elem_of_singleton. split; [|tauto]. intros Hin. split; [done|].
      destruct (sw_postings t Hst k v Hin) as [|(p & Hp & _)]; [by left|right]. by apply (Hno (v, p)).
Qed.

Lemma delete_all_wp s t levs : store_wf t →
  wp write_error (try_fold (λ '(s, t) lev, '(s, t, _) ← delete_one s t lev; Ok (s, t)) (s, t) levs) (λ '(_, t'), dropped t t' levs).
Proof.
  revert s t. induction levs as [|lev levs IH]; intros s t Hst; cbn [try_fold].
  { apply leaves_dropped. by split_and!. }
  pose proof (delete_one_wp s t lev Hst) as Hone. destruct (delete_one s t lev) as [[[s1 t1] b]|e]; [|done].
  cbn [mbind result_bind]. destruct Hone as [Hd _]. eapply wp_mono; [apply IH, Hd|]. intros [s2 t2] Hd2.
  by apply (dropped_trans t t1 t2 [lev] levs).
Qed.

(** ** Storing an event *)

(** An incoming event the parser has accepted. *)
Record writable (packed json : bytes) : Prop := {
  wr_packed : packed_ok packed;
  wr_packed_len : len packed < U32_MAX;
  wr_json : bytes_ok json;
  wr_json_len : len json + 1 < U32_MAX;
}.

Record stored_event t t' packed lev (levs : list Z) : Prop := {
  se_store : store_wf t';
  se_fields : t_view t' = t_view t ∧ t_defer_tag_kind t' = t_defer_tag_kind t;
  se_sequence : lev = sequence t + 1 ∧ u64_ok lev ∧ sequence t' = lev;
  se_events x : x ∈ rows t' 3 ↔ (x = (to_ne_bytes lev, packed) ∨ x ∈ rows t 3) ∧ x.1 ∉ to_ne_bytes <$> levs;
  se_postings k v : (k, v) ∈ rows t' 21 ↔
    ((k, v) ∈ rows t 21 ∨ v = to_ne_bytes lev ∧ k ∈ posted (t_defer_tag_kind t) packed 21) ∧
    (is_tag_kind_marker k = true ∨ v ∉ to_ne_bytes <$> levs);
}.

Lemma store_event_wp {C} w policy (ev : EventToWrite C) levs : store_wf (w_txn w) →
  writable (ev_packed ev) (ev_json ev) →
  wp write_error (store_event w policy ev (ev_packed ev) levs) (λ '(w', ev'), ∃ lev,
    w_first w' = Some (default lev (w_first w)) ∧ w_last w' = Some lev ∧ ev' = set_outcome ev Written lev ∧
    stored_event (w_txn w) (w_txn w') (ev_packed ev) lev levs).
Proof.
  intros Hst [Hp Hpl Hj Hjl]. set (t := w_txn w) in *. unfold store_event. fold t.
  apply (wp_seq _ _ (leaves_events t)).
  { case_match; [|by split_and!]. eapply wp_weaken; [apply exhausted_write|]. apply mark_vanished_wp; [done|]. by apply pubkey_ok. }
  intros t1 Hl1. pose proof Hl1 as (Hst1 & Hv1 & Hd1 & Hs1 & Hr1).
  eapply wp_seq; [eapply wp_weaken; [apply exhausted_write|by apply insert_event_wp]|].
  intros [t2 lev] (Hwf2 & Hc2 & Hins). pose proof (inserted_wf t1 t2 lev _ _ Hst1 Hp Hwf2 Hc2 Hins) as Hst2.
  eapply wp_seq; [by apply sink_wp|]. intros [s3 t3] Hl3. pose proof Hl3 as (Hst3 & Hv3 & Hd3 & Hs3 & Hr3).
  eapply wp_seq; [by apply delete_all_wp|]. intros [s4 t4] [S4 [V4 D4] Q4 E4 P4]. cbn [wp].
  exists lev. split_and!; [done..|]. destruct Hins as [[Vi Di] [Fi Ui] Ei Pi Ii Si _ _]. split; try done; cbn [w_txn].
  - split; congruence.
  - split_and!; [by rewrite Fi, Hs1|done|congruence].
  - intros x. rewrite E4, Hr3, Ei, Hr1 by lia. done.
  - intros k v. rewrite P4, Hr3, Ii, Hr1, Hd1 by (done || lia). done.
Qed.

(** ** The quota of an author *)

Definition by_author t (pk : bytes) lev : Prop := PackedEventView_pubkey <$> event_at t lev = Some pk.

#[export] Instance by_author_dec t pk lev : Decision (by_author t pk lev).
Proof. unfold by_author. apply _. Defined.

(** The author's events among those a write deletes. *)
Definition removed_set t pk (levs : list Z) : gset Z := list_to_set (filter (by_author t pk) levs).

Lemma over_quota_eq t packed levs quota : store_wf t → packed_ok packed →
  ∃ t', over_quota t packed levs quota = Ok (t', quota <? sat_add U64_MAX
      (sat_sub (authored t (PackedEventView_pubkey packed)) (Z.of_nat (size (removed_set t (PackedEventView_pubkey packed) levs)))) 1) ∧
    leaves_events t t'.
Proof.
  intros Hst Hp. set (pk := PackedEventView_pubkey packed). destruct (pubkey_ok packed Hp) as [Hlen Hpk]. fold pk in Hlen, Hpk.
  destruct (author_count_eq t pk) as (t' & Hcount & Hst' & Hs & Hq); [done..|]. unfold over_quota. fold pk. rewrite Hcount.
  cbn [mbind result_bind]. pose proof (λ d, same_data_rows t t' d Hs) as Hr. pose proof (sw_txn t' Hst') as Hwf'.
  assert (∀ l R, try_fold (λ (removed : gset Z) lev,
    o ← get_u64 t' (d_event dbis) lev;
    match o with
    | Some raw => other ← view_of raw; Ok (if decide (PackedEventView_pubkey other = pk) then {[lev]} ∪ removed else removed)
    | None => Ok removed
    end) R l = Ok (R ∪ removed_set t pk l)) as Hfold.
  { induction l as [|lev l IH]; intros R; cbn [try_fold]; [f_equal; set_solver|].
    unfold removed_set. rewrite filter_cons. change (d_event dbis) with 3. rewrite get_u64_eq by done. cbn [mbind result_bind].
    rewrite Hr. fold (event_at t lev). change 3 with (d_event dbis).
    destruct (decide (by_author t pk lev)) as [Hb|Hb]; unfold by_author in Hb;
      (destruct (event_at t lev) as [p|] eqn:Hat; cbn [fmap option_fmap option_map] in Hb; try done);
      try (rewrite view_of_ok by (by apply (event_at_ok t lev))); cbn [mbind result_bind]; (etrans; [apply IH|]); unfold removed_set; try done.
    - rewrite decide_True by congruence. f_equal. set_solver.
    - rewrite decide_False by congruence. done. }
  rewrite Hfold. cbn [mbind result_bind]. rewrite (left_id_L ∅ (∪)). exists t'. split; [done|].
  pose proof Hs as (Hv & _ & _ & _ & _ & Hdf). split_and!; try done.
  unfold sequence. by rewrite Hq, Hr, (same_data_stored t t').
Qed.

Lemma to_ne_inj a b : u64_ok a → u64_ok b → to_ne_bytes a = to_ne_bytes b → a = b.
Proof. intros Ha Hb E. by rewrite <-(from_to_ne_bytes a), <-(from_to_ne_bytes b), E. Qed.

(** What the write of an event leaves of its author's events: one more, less
    those it deletes. *)
Lemma stored_authored t t' packed lev levs : store_wf t → stored_event t t' packed lev levs → Forall u64_ok levs →
  let pk := PackedEventView_pubkey packed in
  authored t' pk + Z.of_nat (size (removed_set t pk levs)) ≤ authored t pk + 1.
Proof.
  intros Hst Hse Hlevs pk. pose proof (sw_txn t Hst) as Hwf. pose proof (sw_txn t' (se_store _ _ _ _ _ Hse)) as Hwf'.
  set (P := λ r : Kv, PackedEventView_pubkey r.2 = pk).
  set (gone := (λ lev, (to_ne_bytes lev, default [] (event_at t lev))) <$> elements (removed_set t pk levs)).
  assert (∀ n, n ∈ removed_set t pk levs → n ∈ levs ∧ ∃ p, event_at t n = Some p ∧ PackedEventView_pubkey p = pk) as Hrem.
  { intros n. unfold removed_set. rewrite elem_of_list_to_set, list_elem_of_filter. unfold by_author.
    destruct (event_at t n) as [p|]; cbn; intros [[= E] Hin]; eauto. }
  assert (length (filter P (rows t' 3) ++ gone) ≤ length ((to_ne_bytes lev, packed) :: filter P (rows t 3)))%nat as Hle.
  { apply submseteq_length, NoDup_submseteq.
    - apply NoDup_app. split_and!; [by apply NoDup_filter, rows_NoDup| |].
      + intros x [_ Hx]%list_elem_of_filter (n & -> & Hn%elem_of_elements)%list_elem_of_fmap.
        apply (se_events _ _ _ _ _ Hse) in Hx as [_ Hx]. apply Hx. cbn [fst]. apply list_elem_of_fmap_2. by apply Hrem.
      + apply NoDup_fmap_2_strong; [|apply NoDup_elements]. intros a b Ha%elem_of_elements Hb%elem_of_elements E%(f_equal fst).
        rewrite Forall_forall in Hlevs. apply to_ne_inj; [by apply Hlevs, Hrem..|done].
    - intros x. rewrite elem_of_app, elem_of_cons, !list_elem_of_filter. intros [[HP Hx]|Hx].
      + apply (se_events _ _ _ _ _ Hse) in Hx as [[->|Hx] _]; [by left|by right].
      + apply list_elem_of_fmap in Hx as (n & -> & Hn%elem_of_elements). apply Hrem in Hn as (_ & p & Hat & Hpk).
        right. rewrite Hat. cbn. split; [done|by apply event_at_row]. }
  rewrite length_app, length_cons in Hle. unfold gone in Hle. rewrite length_fmap in Hle.
  unfold authored. fold P. change (size (removed_set t pk levs)) with (length (elements (removed_set t pk levs))). lia.
Qed.

(** ** The invariant of a database *)

Record db_wf t : Prop := {
  db_store : store_wf t;
  db_ids x y : x ∈ rows t 3 → y ∈ rows t 3 → PackedEventView_id x.2 = PackedEventView_id y.2 → x = y;
  db_versions x y key : x ∈ rows t 3 → y ∈ rows t 3 → replaceable (PackedEventView_kind x.2) = true →
    replace_key x.2 = Some key → replace_key y.2 = Some key → x = y;
  db_postings : postings_complete t;
}.

Lemma leaves_db t t' : db_wf t → leaves_events t t' → db_wf t'.
Proof.
  intros [Hst Hids Hver Hpost] (Hst' & _ & _ & Hs & Hr). pose proof (Hr 3 ltac:(lia)) as H3. split; try done.
  - rewrite H3. apply Hids.
  - rewrite H3. apply Hver.
  - unfold postings_complete, all_posted. rewrite (through_same t t'); [|apply Hst|apply Hst'|by intros; rewrite Hr by lia].
    rewrite H3, Hs, (Hr 21) by lia. apply Hpost.
Qed.

(** The versions of a replaceable event are among what its write deletes. *)
Definition supersedes t packed (levs : list Z) : Prop :=
  replaceable (PackedEventView_kind packed) = true → ∀ key, replace_key packed = Some key →
  ∀ lev p, (lev, p) ∈ versions t key → lev ∈ levs.

(** A version's kind is that of the address. *)
Lemma same_key_kind p q key : packed_ok p → packed_ok q → replace_key p = Some key → replace_key q = Some key →
  replaceable (PackedEventView_kind p) = replaceable (PackedEventView_kind q).
Proof.
  intros Hp Hq Ep Eq. destruct (replace_key_counted p key Hp Ep) as (_ & _ & <-).
  by destruct (replace_key_counted q key Hq Eq) as (_ & _ & <-).
Qed.

Lemma leaves_stored t t0 t' packed lev levs : leaves_events t t0 → stored_event t0 t' packed lev levs →
  stored_event t t' packed lev levs.
Proof.
  intros (_ & Hv & Hd & Hs & Hr) [S [V D] Q E P]. split; try done.
  - split; congruence.
  - by rewrite <-Hs.
  - intros x. by rewrite E, Hr by lia.
  - intros k v. by rewrite P, Hr, Hd by lia.
Qed.

Lemma stored_posted t t' packed lev levs r : stored_event t t' packed lev levs → r ∈ rows t' 3 → r ∈ rows t 3 →
  all_posted t r → all_posted t' r.
Proof.
  intros Hse Hr' Hr Hall k Hk. apply (se_postings _ _ _ _ _ Hse). split; [left; by apply Hall|right].
  by apply (se_events _ _ _ _ _ Hse) in Hr' as [_ ?].
Qed.

Lemma stored_new_posted t t' packed lev levs : stored_event t t' packed lev levs → t_defer_tag_kind t = false →
  (to_ne_bytes lev, packed) ∈ rows t' 3 → all_posted t' (to_ne_bytes lev, packed).
Proof.
  intros Hse Hd Hr' k Hk. apply (se_postings _ _ _ _ _ Hse). split; [right|right].
  - by rewrite Hd.
  - by apply (se_events _ _ _ _ _ Hse) in Hr' as [_ ?].
Qed.

Lemma stored_postings t t' packed lev levs : store_wf t → postings_complete t → stored_event t t' packed lev levs →
  postings_complete t'.
Proof.
  intros Hst Hpost Hse. destruct (se_sequence _ _ _ _ _ Hse) as (Hlev & Hu & Hs).
  assert (through t' = through t) as Hth.
  { apply through_same; [apply Hst|apply Hse|]. intros k v Hm. rewrite (se_postings _ _ _ _ _ Hse). split; [|tauto].
    intros [[?|[_ Hk]] _]; [done|]. apply posted_incl, posting_key_long in Hk. apply marker_short in Hm. lia. }
  intros n. rewrite Hth, Hs. intros Hn. destruct (Hpost n Hn) as [Hle Hall]. split; [lia|]. intros r Hr' Hrn.
  pose proof Hr' as Hr. apply (se_events _ _ _ _ _ Hse) in Hr as [[->|Hr] _]; [cbn [fst] in Hrn; rewrite from_to_ne_bytes in Hrn by done; lia|].
  by apply (stored_posted t t' packed lev levs); auto.
Qed.

Lemma stored_db t t' packed json lev levs : db_wf t → packed_ok packed → admissible t packed json →
  supersedes t packed levs → stored_event t t' packed lev levs → db_wf t'.
Proof.
  intros [Hst Hids Hver Hpost] Hp Hadm Hsup Hse. pose proof (sw_txn t Hst) as Hwf.
  pose proof (se_events _ _ _ _ _ Hse) as He.
  assert (∀ x key, x ∈ rows t 3 → x.1 ∉ to_ne_bytes <$> levs → replaceable (PackedEventView_kind packed) = true →
    replace_key packed = Some key → replace_key x.2 ≠ Some key) as Hgone.
  { intros [k p] key Hx Hnot Hrep Hk Hkx. apply Hnot. cbn [fst snd] in *. destruct (event_key_u64 t (k, p) Hwf Hx) as [Hne Hux].
    cbn [fst] in *. rewrite <-Hne. apply list_elem_of_fmap_2. apply (Hsup Hrep key Hk _ p). apply elem_of_versions; [done|].
    split_and!; try done. apply event_at_row; [done|]. by rewrite Hne. }
  split.
  - apply Hse.
  - intros x y [Hx _]%He [Hy _]%He E. destruct Hx as [->|Hx], Hy as [->|Hy]; [done|..|by apply Hids].
    + by destruct (adm_fresh _ _ _ Hadm y Hy).
    + by destruct (adm_fresh _ _ _ Hadm x Hx).
  - intros x y key [Hx Hxn]%He [Hy Hyn]%He Hrep Ex Ey. destruct Hx as [->|Hx], Hy as [->|Hy]; [done|..|by apply (Hver x y key)].
    + by destruct (Hgone y key Hy Hyn Hrep Ex).
    + destruct (Hgone x key Hx Hxn); try done.
      rewrite <-(same_key_kind x.2 packed key); try done. by apply (event_packed_ok t).
  - by apply (stored_postings t t' packed lev levs).
Qed.
End batch.
