(* ===== verification/DbWriter.v ===== *)
(** * The verdict on each event of a batch

    [write_event] gives every event one verdict.  A refused event changes no
    stored event; a written one is stored under the next local id and deletes
    only the versions it supersedes or what its author may delete.  The loop
    over a batch keeps [db_wf]. *)

From S2P Require Import Prelude Utf8 BTreeMap Json Crates Kinds Packed EventParse Validate DbKeys DbCodec DbIndex DbTxn DbState DbPayload Search DbSearch DbTagKind DbPolicy DbWrite DbStore DbCursor DbTable DbScan DbTables DbRows DbRw DbDerived DbOps DbLogic DbCounters DbIndices DbEvents DbDelete DbLookup DbPostings DbDecide DbBatch.

Local Open Scope Z_scope.

Section writer.
Context `{RL : RocksLaws} {HC : HexCrate} {HX : HexLaws} {SH : Sha256} {SL : Sha256Laws}.
Context {SF : SerdeFloat} {SK : Secp256k1} {ZC : ZstdCrate} {UC : UnicodeChars} {UL : UnicodeLaws} {SE : SerdeEvent}.
Context {NS : NegentropySink} {SNL : SinkLaws} {C : Type}.
Implicit Types (t : RwTxn) (lev : Z) (packed : PackedEventView) (w : Writer) (ev : EventToWrite C).

(** What the write of [packed] may delete: an older version of its address, or,
    as a deletion request, what its author may delete. *)
Definition may_remove packed (p : PackedEventView) : Prop :=
  replaceable (PackedEventView_kind packed) = true ∧ is_Some (replace_key packed) ∧
    replace_key p = replace_key packed ∧ is_event_a_before_event_b packed p = false ∨
  PackedEventView_kind packed = DELETION_KIND ∧ may_delete packed p.

Definition removable t packed lev : Prop := ∃ p, event_at t lev = Some p ∧ u64_ok lev ∧ may_remove packed p.

(** The event was written, with the events [levs] deleted. *)
Record written (author_quota : Z) t t' packed (json : bytes) lev (levs : list Z) : Prop := {
  wn_admissible : admissible t packed json;
  wn_stored : stored_event t t' packed lev levs;
  wn_removed : Forall (removable t packed) levs;
  wn_supersedes : supersedes t packed levs;
  wn_quota : author_quota ≠ 0 → author_quota ≤ U64_MAX → PackedEventView_kind packed ≠ VANISH_KIND →
    authored t' (PackedEventView_pubkey packed) ≤ author_quota;
}.

Inductive verdict (author_quota : Z) w ev : Writer → EventToWrite C → Prop :=
| verdict_refused w' status :
    leaves_events (w_txn w) (w_txn w') → w_first w' = w_first w → w_last w' = w_last w →
    status ∈ [Duplicate; Replaced; Deleted; QuotaExceeded] →
    verdict author_quota w ev w' (set_outcome ev status (ev_lev_id ev))
| verdict_written w' lev levs :
    written author_quota (w_txn w) (w_txn w') (ev_packed ev) (ev_json ev) lev levs →
    w_first w' = Some (default lev (w_first w)) → w_last w' = Some lev →
    verdict author_quota w ev w' (set_outcome ev Written lev).

Lemma leaves_refl t : store_wf t → leaves_events t t.
Proof. intros. by split_and!. Qed.

(** The versions that [replacement] found may be removed, and are all of them. *)
Lemma replacement_removable t packed status status' levs : store_wf t →
  match (if replaceable (PackedEventView_kind packed) then replace_key packed else None) with
  | None => status' = status ∧ levs = []
  | Some key =>
      status' = Replaced ∧ levs = [] ∧
        (∃ lev p, (lev, p) ∈ versions t key ∧ is_event_a_before_event_b packed p = true) ∨
      status' ∈ [status; Deleted] ∧ levs = (versions t key).*1 ∧
        ∀ lev p, (lev, p) ∈ versions t key → is_event_a_before_event_b packed p = false
  end → status' = Pending → Forall (removable t packed) levs ∧ supersedes t packed levs.
Proof.
  intros Hst Hrep ->. unfold supersedes.
  destruct (replaceable (PackedEventView_kind packed)) eqn:Er; [|destruct Hrep as [_ ->]; by split].
  destruct (replace_key packed) as [key|] eqn:Ek; [|destruct Hrep as [_ ->]; by split].
  destruct Hrep as [[? _]|(_ & -> & Hnew)]; [done|]. split.
  - apply Forall_forall. intros lev ([lev' p] & -> & Hv)%list_elem_of_fmap. cbn [fst]. pose proof (Hnew _ _ Hv) as Hb.
    apply elem_of_versions in Hv as (Hat & Hu & Hk); [|done]. exists p. split_and!; [done..|].
    left. rewrite Ek, Hk. by split_and!.
  - intros _ ? [= <-] lev p Hv. by apply (list_elem_of_fmap_2 fst _ (lev, p)).
Qed.

Lemma targets_removable t packed levs : PackedEventView_kind packed = 5 → Forall (deletable t packed) levs →
  Forall (removable t packed) levs.
Proof.
  intros Hk Hf. eapply Forall_impl; [exact Hf|]. intros lev (p & Hat & Hu & Hm). exists p. split_and!; [done..|by right].
Qed.

(** Within the quota before the write, within it after. *)
Lemma quota_kept t t' packed lev levs author_quota : store_wf t → stored_event t t' packed lev levs → Forall u64_ok levs →
  (author_quota <? sat_add U64_MAX (sat_sub (authored t (PackedEventView_pubkey packed))
    (Z.of_nat (size (removed_set t (PackedEventView_pubkey packed) levs)))) 1) = false →
  author_quota ≤ U64_MAX → authored t' (PackedEventView_pubkey packed) ≤ author_quota.
Proof.
  intros Hst Hse Hl Hq Hmax. pose proof (stored_authored t t' packed lev levs Hst Hse Hl) as Ha. cbv zeta in Ha.
  pose proof (authored_u64 t' (PackedEventView_pubkey packed) (se_store _ _ _ _ _ Hse)) as [_ Hu].
  apply Z.ltb_ge in Hq. unfold sat_add, sat_sub in Hq. lia.
Qed.

(** The step after the decisions: the quota, then the write. *)
Lemma quota_store_wp w policy author_quota c ev levs : store_wf (w_txn w) → writable (ev_packed ev) (ev_json ev) →
  admissible (w_txn w) (ev_packed ev) (ev_json ev) → Forall (removable (w_txn w) (ev_packed ev)) levs →
  supersedes (w_txn w) (ev_packed ev) levs →
  wp write_error (
    '(t, over) ← (if negb (author_quota =? 0) && negb (PackedEventView_kind (ev_packed ev) =? VANISH_KIND) then
                    over_quota (w_txn w) (ev_packed ev) levs author_quota
                  else Ok (w_txn w, false));
    let w := mkWriter t (w_sink w) c (w_first w) (w_last w) in
    if over : bool then Ok (w, set_outcome ev QuotaExceeded (ev_lev_id ev))
    else store_event w policy ev (ev_packed ev) levs)
  (λ '(w', ev'), verdict author_quota w ev w' ev').
Proof.
  intros Hst Hwr Hadm Hrem Hsup. set (t := w_txn w) in *. set (pk := PackedEventView_pubkey (ev_packed ev)).
  assert (Forall u64_ok levs) as Hlu by (eapply Forall_impl; [exact Hrem|]; by intros ? (p & _ & ? & _)).
  apply (wp_seq _ _ (λ '(t0, over), leaves_events t t0 ∧
    (over = false → author_quota ≠ 0 → PackedEventView_kind (ev_packed ev) ≠ VANISH_KIND →
      (author_quota <? sat_add U64_MAX (sat_sub (authored t pk) (Z.of_nat (size (removed_set t pk levs)))) 1) = false))).
  { destruct (Z.eqb_spec author_quota 0); [by split; [apply leaves_refl|]|].
    destruct (Z.eqb_spec (PackedEventView_kind (ev_packed ev)) VANISH_KIND); [by split; [apply leaves_refl|]|]. cbn [negb andb].
    destruct (over_quota_eq t (ev_packed ev) levs author_quota Hst (wr_packed _ _ Hwr)) as (t0 & -> & Hl). by split. }
  intros [t0 over] [Hl Hq]. cbv zeta. destruct over.
  - apply verdict_refused; try done. set_solver +.
  - eapply wp_mono; [apply store_event_wp; [apply Hl|done]|]. cbn [w_txn w_first].
    intros [w' ev'] (lev & Hf & Hla & -> & Hse). apply (leaves_stored t) in Hse; [|done].
    apply verdict_written with levs; [|done..]. split; try done. intros Hq0 Hmax Hk.
    apply (quota_kept t (w_txn w') (ev_packed ev) lev levs); try done. by apply Hq.
Qed.

Lemma write_event_wp policy author_quota w previous ev : store_wf (w_txn w) →
  writable (ev_packed ev) (ev_json ev) → ev_status ev = Pending →
  (∀ copy, previous = Some copy → ev_status copy ≠ Pending) →
  wp write_error (write_event policy author_quota w previous ev) (λ '(w', ev'), verdict author_quota w ev w' ev').
Proof.
  intros Hst Hwr Hpend Hprev. pose proof (wr_packed _ _ Hwr) as Hp. unfold write_event. rewrite view_of_ok by done. cbn [mbind result_bind].
  set (t := w_txn w) in *. destruct (copy ← previous; _) as [copy|] eqn:Ecopy.
  { assert (ev_status copy ≠ Pending) as Hne.
    { destruct previous as [c|]; [|done]. cbn in Ecopy. case_decide; [|done]. injection Ecopy as <-. by apply Hprev. }
    apply verdict_refused; [by apply leaves_refl|done..|]. destruct (ev_status copy); [done|set_solver +..]. }
  eapply wp_seq; [eapply wp_weaken; [apply we_input|by apply refusal_wp]|]. intros refused Href. fold t in Href.
  destruct refused as [status|].
  { apply verdict_refused; [by apply leaves_refl|done..|]. destruct Href as [[-> _]| ->]; set_solver +. }
  eapply wp_seq; [eapply wp_weaken; [apply we_input|by apply replacement_wp]|]. intros [status levs] Hrep. fold t in Hrep.
  apply (wp_seq _ _ (λ '(_, targets), Forall (removable t (ev_packed ev)) targets)).
  { destruct (Z.eqb_spec (PackedEventView_kind (ev_packed ev)) 5) as [Hk|]; [|by cbn].
    eapply wp_mono; [eapply wp_weaken; [apply we_input|by apply deletion_targets_wp]|]. intros [c targets] Ht.
    by apply targets_removable. }
  intros [c targets] Htar. cbv zeta. cbn [w_txn w_sink w_first w_last]. case_decide as Hs.
  { apply verdict_refused; [by apply leaves_refl|done..|]. rewrite Hpend in Hrep. clear -Hrep Hs.
    destruct (if replaceable _ then _ else None); [destruct Hrep as [[-> _]|[Hin _]]|by destruct Hrep]; [set_solver +|].
    rewrite !elem_of_cons, elem_of_nil in Hin. destruct Hin as [->|[->|[]]]; [done|set_solver +]. }
  destruct (replacement_removable t (ev_packed ev) (ev_status ev) status levs Hst Hrep Hs) as [Hr Hsup].
  apply (quota_store_wp w policy author_quota c ev (levs ++ targets)); try done.
  - by apply Forall_app.
  - intros Hk key Hkey lev p Hv. apply elem_of_app. left. by eapply Hsup.
Qed.

(** ** The loop *)

(** The database is in order, and so are the postings of what the batch wrote. *)
Record batch_wf w : Prop := {
  bw_db : db_wf (w_txn w);
  bw_posted : match w_first w, w_last w with
    | Some first, Some last => last ≤ sequence (w_txn w) ∧ u64_ok last ∧
        (t_defer_tag_kind (w_txn w) = false →
         ∀ r, r ∈ rows (w_txn w) 3 → first ≤ from_ne_bytes r.1 → all_posted (w_txn w) r)
    | None, None => True
    | _, _ => False
    end;
}.

Lemma refused_keeps w w' : batch_wf w → leaves_events (w_txn w) (w_txn w') → w_first w' = w_first w → w_last w' = w_last w →
  batch_wf w'.
Proof.
  intros [Hdb Hpost] Hl Hf Hla. split; [by eapply leaves_db|]. rewrite Hf, Hla. destruct Hl as (_ & _ & Hd & Hs & Hr).
  destruct (w_first w), (w_last w); try done. destruct Hpost as (? & ? & Hp). rewrite Hs, Hd. split_and!; try done.
  unfold all_posted. rewrite !Hr by lia. apply Hp.
Qed.

Lemma written_keeps author_quota w w' packed json lev levs : batch_wf w → packed_ok packed →
  written author_quota (w_txn w) (w_txn w') packed json lev levs →
  w_first w' = Some (default lev (w_first w)) → w_last w' = Some lev → batch_wf w'.
Proof.
  intros [Hdb Hpost] Hp [Hadm Hse Hrem Hsup _] Hf Hla. split; [by eapply stored_db|]. rewrite Hf, Hla.
  destruct (se_sequence _ _ _ _ _ Hse) as (Hlev & Hu & Hs). rewrite Hs. split_and!; [done..|].
  destruct (se_fields _ _ _ _ _ Hse) as [_ Hd]. rewrite Hd. intros Hdefer r Hr' Hle.
  pose proof Hr' as Hr. apply (se_events _ _ _ _ _ Hse) in Hr as [[->|Hr] _]; [by eapply stored_new_posted|].
  eapply stored_posted; [done..|]. pose proof (sw_sequence _ (db_store _ Hdb) r Hr) as Hseq.
  destruct (w_first w) as [first|], (w_last w) as [last|]; try done; cbn in Hle; [|lia]. by apply Hpost.
Qed.

(** The verdicts on a list of events, each on what the one before left. *)
Inductive verdicts (author_quota : Z) : Writer → list (EventToWrite C) → Writer → list (EventToWrite C) → Prop :=
| verdicts_nil w : verdicts author_quota w [] w []
| verdicts_cons w w1 w2 ev ev' evs evs' : verdict author_quota w ev w1 ev' →
    verdicts author_quota w1 evs w2 evs' → verdicts author_quota w (ev :: evs) w2 (ev' :: evs').

(** An event as the relay hands it to the database. *)
Definition pending ev : Prop := writable (ev_packed ev) (ev_json ev) ∧ ev_status ev = Pending.

Lemma verdict_status author_quota w ev w' ev' : verdict author_quota w ev w' ev' → ev_status ev' ≠ Pending.
Proof. destruct 1 as [w' status _ _ _ Hs|]; [|done]. intros E. cbn in E. subst. set_solver. Qed.

Lemma verdict_keeps author_quota w ev w' ev' : batch_wf w → pending ev → verdict author_quota w ev w' ev' → batch_wf w'.
Proof.
  intros Hb [Hwr _] Hv. destruct Hv as [w' status Hl Hf Hla _|w' lev levs Hwn Hf Hla].
  - by eapply refused_keeps.
  - eapply written_keeps; [done|apply Hwr|done..].
Qed.

Lemma write_loop_wp policy author_quota evs : ∀ w previous, batch_wf w → Forall pending evs →
  (∀ copy, previous = Some copy → ev_status copy ≠ Pending) →
  wp write_error (write_loop policy author_quota w previous evs) (λ '(w', evs'),
    batch_wf w' ∧ verdicts author_quota w evs w' evs').
Proof.
  induction evs as [|ev evs IH]; intros w previous Hb Hevs Hprev; cbn [write_loop].
  { split; [done|constructor]. }
  apply Forall_cons in Hevs as [Hev Hevs].
  eapply wp_seq; [apply write_event_wp; [apply Hb|apply Hev|apply Hev|done]|]. intros [w1 ev1] Hv.
  pose proof (verdict_keeps _ _ _ _ _ Hb Hev Hv) as Hb1.
  eapply wp_seq; [apply IH; [done..|]|]. { intros copy [= <-]. by eapply verdict_status. }
  intros [w2 evs2] [Hb2 Hvs]. split; [done|]. by eapply verdicts_cons.
Qed.

Lemma verdicts_decided author_quota w evs w' evs' : verdicts author_quota w evs w' evs' →
  Forall2 (λ ev ev', ev_packed ev' = ev_packed ev ∧ ev_json ev' = ev_json ev ∧ ev_context ev' = ev_context ev ∧
    ev_status ev' ≠ Pending) evs evs'.
Proof.
  induction 1 as [|w w1 w2 ev ev' evs evs' Hv _ IH]; constructor; [|done].
  pose proof (verdict_status _ _ _ _ _ Hv). by destruct Hv.
Qed.

(** ** The batch *)

Lemma sort_insert_perm {A} (cmp : A → A → comparison) x l : sort_insert cmp x l ≡ₚ x :: l.
Proof.
  induction l as [|y l IH]; cbn [sort_insert]; [done|]. destruct (cmp x y); [done..|].
  rewrite IH. apply Permutation_swap.
Qed.

Lemma sort_by_perm {A} (cmp : A → A → comparison) l : slice_sort_by cmp l ≡ₚ l.
Proof. unfold slice_sort_by. induction l as [|x l IH]; cbn [foldr]; [done|]. by rewrite sort_insert_perm, IH. Qed.

Lemma noted_db t t' : db_wf t → postings_complete t' → txn_wf t' → same_extra t t' →
  (∀ d, valid_dbi d → d ≠ 21 → rows t' d = rows t d) →
  (∀ k v, is_tag_kind_marker k = false → (k, v) ∈ rows t' 21 ↔ (k, v) ∈ rows t 21) → db_wf t'.
Proof.
  intros [Hst Hids Hver _] Hpost Hwf' Hx Ho H21. pose proof (Ho 3 ltac:(done) ltac:(done)) as H3.
  pose proof (Ho 20 ltac:(done) ltac:(done)) as H20. pose proof Hx as (_ & Hq & Hu & Ha & _).
  assert (sequence t' = sequence t) as Hs by (unfold sequence, stored; by rewrite Hq, H20, H3).
  split; [|by rewrite H3..|done]. apply (store_frame t); try done.
  - by apply (counters_frame t); [..|apply Hst].
  - intros d Hd. apply Ho; [unfold valid_dbi; lia|lia].
  - intros k v Hin. destruct (is_tag_kind_marker k) eqn:E; [by left|right]. by apply H21.
  - by apply superseded_value_frame.
  - intros pk n _ <-. left. symmetry. by apply author_value_frame.
Qed.

Lemma write_batch_wp t s c evs policy author_quota : db_wf t → Forall pending evs →
  wp write_error (write_events_with_quota t s c evs policy author_quota) (λ '(t', _, _, evs'), db_wf t' ∧
    ∃ w, verdicts author_quota (mkWriter t s c None None) (slice_sort_by batch_cmp evs) w evs' ∧
      ∀ d, valid_dbi d → d ≠ 21 → rows t' d = rows (w_txn w) d).
Proof.
  intros Hdb Hevs. unfold write_events_with_quota.
  eapply wp_seq; [apply write_loop_wp; [by split|by rewrite sort_by_perm|done]|].
  intros [w evs'] [[Hdb' Hpost] Hvs].
  apply (wp_seq _ _ (λ t', db_wf t' ∧ ∀ d, valid_dbi d → d ≠ 21 → rows t' d = rows (w_txn w) d)).
  - destruct (w_first w) as [first|], (w_last w) as [last|]; [|by split..]. destruct (t_defer_tag_kind (w_txn w)); [by split|].
    cbn [negb]. destruct Hpost as (Hle & Hu & Hall).
    eapply wp_mono; [eapply wp_weaken; [apply exhausted_write|]; apply note_indexed_wp; [apply Hdb'|apply Hdb'|done|done|by apply Hall]|].
    intros t' (Hc & Hwf' & Hx & Ho & H21). split; [|done]. by eapply noted_db.
  - intros t' [Hdb2 Ho]. cbn [wp]. split; [done|]. by exists w.
Qed.
End writer.
