(* ===== verification/DbMarkers.v ===== *)
(** * Opening a database

    [load_markers] reads the two cached markers of the tag postings from the
    store.  They are the values that the rows of the table give, so the first
    transaction on a database that was opened is well formed when its tables
    are. *)

From S2P Require Import Prelude BTreeMap Json DbKeys DbCodec DbIndex DbTxn DbStore DbCursor DbTable DbScan DbTables DbRows DbRw DbDerived DbOps.

Local Open Scope Z_scope.

Section markers.
Context `{RL : RocksLaws}.

(** ** A walk over the entries between two bounds *)

Lemma entries_after (pre rest : list Kv) e : bt_sorted bytes_cmp (pre ++ e :: rest) →
  filter (λ e', cmp_lt bytes_cmp e.1 e'.1) (pre ++ e :: rest) = rest.
Proof.
  intros Hs%bt_key_sorted. unfold key_sorted in Hs.
  assert (∀ x, x ∈ pre → cmp_lt bytes_cmp x.1 e.1) as Hpre.
  { intros x Hx. eapply (StronglySorted_app_1_elem_of (λ x y : Kv, cmp_lt bytes_cmp x.1 y.1)); [exact Hs|done|left]. }
  apply StronglySorted_app_1_r, StronglySorted_inv in Hs as [_ Hrest]. rewrite Forall_forall in Hrest.
  rewrite filter_app, filter_cons, (filter_none _ pre), decide_False, filter_all; [done|done|..].
  - apply (irreflexivity (cmp_lt bytes_cmp)).
  - intros x Hx Hlt. apply (irreflexivity (cmp_lt bytes_cmp) e.1). etrans; [exact Hlt|by apply Hpre].
Qed.

(** The duplicate an entry of the table holds. *)
Definition entry_dup (e : Kv) : bytes := match decode 21 e.1 e.2 with Ok r => r.2 | Err _ => [] end.

Lemma load_marker_loop key R rest : ∀ pre it values fuel,
  bt_sorted bytes_cmp R → (∀ e, e ∈ R → decode 21 e.1 e.2 = Ok (key, entry_dup e)) →
  R = pre ++ rest → it_rows it = R → it_item it = head rest → (length rest < fuel)%nat →
  ∃ it', loop (load_marker_step key) out_of_fuel fuel (it, values) = Ok (it', values ++ (entry_dup <$> rest)).
Proof.
  induction rest as [|e rest IH]; intros pre it values [|fuel] Hs Hdec HR Hit Hi Hf; cbn [length] in Hf; try lia;
    cbn [loop load_marker_step]; rewrite Hi; cbn [head].
  { exists it. cbn. by rewrite app_nil_r. }
  destruct e as [pk value]. pose proof (Hdec (pk, value) ltac:(subst R; set_solver)) as E. cbn [fst snd] in E. rewrite E.
  cbn [mbind result_bind]. rewrite decide_False by (intros H; by apply H). cbn [mbind result_bind].
  destruct (IH (pre ++ [(pk, value)]) (it_next it) (values ++ [entry_dup (pk, value)]) fuel) as (it' & ->); try done.
  - by rewrite <-app_assoc.
  - by rewrite rows_next.
  - rewrite (item_next it _ Hi), Hit, HR, entries_after by by rewrite <-HR. done.
  - lia.
  - exists it'. by rewrite <-app_assoc.
Qed.

(** ** The values of a marker *)

Section load.
Context (db : Db) (v : View) (Hv : v_snapshot v = db_snapshot db) (Hwf : staged_wf (RwTxn_of_view v)).
Local Abbreviation t := (RwTxn_of_view v).
Local Abbreviation items := (cf_items (db_snapshot db) (cf_name 21)).

Lemma phys_items pk : phys_get v (Some []) 21 pk = bt_get bytes_cmp items pk.
Proof using Hv. unfold phys_get. cbn. by rewrite Hv. Qed.

(** The entries of the table are its rows. *)
Lemma item_row e : e ∈ items → ∃ r, e = (enc 21 r, []) ∧ row_ok r.
Proof using Hv Hwf RL.
  destruct e as [pk value]. intros He. pose proof (wf_tables t Hwf 21 ltac:(done) pk value) as H.
  cbn [t_view t_staged RwTxn_of_view] in H. rewrite phys_items in H.
  destruct H as (r & Hr & -> & ->); [by apply bt_get_elem; [apply _|apply items_sorted|]|]. by exists r.
Qed.

Lemma elem_of_items r : row_ok r → (enc 21 r, []) ∈ items ↔ r ∈ rows t 21.
Proof using Hv Hwf RL.
  intros Hr. unfold rows. rewrite elem_of_trows by (apply (wf_sorted t Hwf) || by apply (wf_tables t Hwf)).
  unfold vis. cbn [t_view t_staged RwTxn_of_view]. rewrite phys_items. split.
  - intros He. apply (bt_get_elem _ _ _ _ (items_sorted _ _)) in He. rewrite He.
    pose proof (row_of_plain 21 r ltac:(done) Hr) as E. change (if reversed 21 then [] else r.2) with (@nil Z) in E.
    cbn [mbind option_bind]. by rewrite E.
  - destruct (bt_get _ _ _) as [value|] eqn:E; [|done]. intros _.
    apply bt_get_elem in E; [|apply _|apply items_sorted]. destruct (item_row _ E) as (r' & [= _ ->] & _). done.
Qed.

(** The entries between the bounds of a key are its rows. *)
Lemma in_marker_bounds key r : bytes_ok key → row_ok r →
  in_bounds (Some (encode 21 key None)) (successor (encode 21 key None)) (enc 21 r, []) ↔ r.1 = key.
Proof.
  intros Hk Hr. pose proof (bound_le 21 key r Hk Hr) as Hlo. pose proof (bound_succ_lt 21 key r Hk Hr) as Hhi.
  unfold within in Hlo, Hhi. unfold in_bounds. cbn [fst].
  transitivity (key_side 21 key r = Eq).
  - destruct (successor (encode 21 key None)) as [s|]; unfold cmp_lt, cmp_le, dir_cmp in *;
      rewrite Hlo, Hhi; destruct (key_side 21 key r); naive_solver.
  - unfold key_side. change (reversed 21) with true. cbn [rev_if].
    pose proof (key_cmp_eq 21 key r.1 Hk (proj1 Hr)) as E. destruct (key_cmp 21 key r.1); cbn; naive_solver.
Qed.

Section key.
Context (key : bytes) (Hk : bytes_ok key).
Local Abbreviation R := (filter (in_bounds (Some (encode 21 key None)) (successor (encode 21 key None))) items).

Lemma elem_of_marker_entries e :
  e ∈ R ↔ ∃ dup, bytes_ok dup ∧ e = (enc 21 (key, dup), []) ∧ (key, dup) ∈ rows t 21.
Proof using Hv Hwf RL Hk.
  rewrite list_elem_of_filter. split.
  - intros [Hb He]. destruct (item_row e He) as ([k dup] & -> & Hr). apply in_marker_bounds in Hb; [|done..].
    cbn in Hb. subst k. exists dup. split; [apply Hr|]. split; [done|]. by apply elem_of_items.
  - intros (dup & Hd & -> & Hin). split; [by apply in_marker_bounds|by apply elem_of_items].
Qed.

Lemma decode_marker dup : bytes_ok dup → decode 21 (enc 21 (key, dup)) [] = Ok (key, dup).
Proof using Hk.
  intros Hd. pose proof (decode_encode 21 key dup Hk Hd) as H. by rewrite (decode_reversed 21 _ [] dup).
Qed.

Lemma marker_entry e : e ∈ R → ∃ dup, bytes_ok dup ∧ e = (enc 21 (key, dup), []) ∧ entry_dup e = dup ∧ (key, dup) ∈ rows t 21.
Proof using Hv Hwf RL Hk.
  intros (dup & Hd & -> & Hin)%elem_of_marker_entries. exists dup. unfold entry_dup. cbn [fst snd].
  by rewrite decode_marker.
Qed.

Lemma decode_marker_entry e : e ∈ R → decode 21 e.1 e.2 = Ok (key, entry_dup e).
Proof using Hv Hwf RL Hk. intros (dup & Hd & -> & -> & _)%marker_entry. by apply decode_marker. Qed.

Lemma elem_of_entry_dups d : d ∈ entry_dup <$> R ↔ (key, d) ∈ rows t 21.
Proof using Hv Hwf RL Hk.
  rewrite list_elem_of_fmap. split.
  - by intros (e & -> & (d' & _ & _ & -> & Hin)%marker_entry).
  - intros Hd. assert (bytes_ok d) as Hok.
    { assert (table_sorted 21 (rows t 21)) as Hs by by apply rows_sorted.
      by apply (table_row_ok 21 _ Hs) in Hd as [_ Hd]. }
    exists (enc 21 (key, d), []). split; [unfold entry_dup; cbn [fst snd]; by rewrite decode_marker|].
    apply elem_of_marker_entries. eauto.
Qed.

Lemma entry_dups_NoDup : NoDup (entry_dup <$> R).
Proof using Hv Hwf RL Hk.
  apply NoDup_fmap_2_strong.
  - intros x y (d & _ & -> & -> & _)%marker_entry (d' & _ & -> & -> & _)%marker_entry ->. done.
  - apply NoDup_filter, (NoDup_fmap_1 fst). pose proof (items_sorted (db_snapshot db) (cf_name 21)) as Hs.
    by apply strictly_sorted_NoDup in Hs; [|apply _].
Qed.

Lemma sort_entry_dups : sort_marker_values key (entry_dup <$> R) = marker_rows key (rows t 21).
Proof using Hv Hwf RL Hk.
  assert (table_sorted 21 (rows t 21)) as Hs by by apply rows_sorted.
  assert (∀ d, d ∈ entry_dup <$> R → bytes_ok d) as Hok.
  { intros d Hd%elem_of_entry_dups. by apply (table_row_ok 21 _ Hs) in Hd as [_ Hd]. }
  assert (∀ d, d ∈ sort_marker_values key (entry_dup <$> R) ↔ d ∈ entry_dup <$> R) as Hp
    by (intros d; unfold sort_marker_values; by rewrite slice_sort_perm).
  apply marker_ext; [done..|by intros d Hd%Hp; apply Hok| |].
  - apply sort_marker_sorted; [done|apply entry_dups_NoDup|done].
  - intros d. by rewrite Hp, elem_of_entry_dups.
Qed.

(** One key of [load_markers]. *)
Lemma load_marker_spec :
  let prefix := encode 21 key None in
  let it := it_seek (raw_iterator_cf (db_snapshot db) (cf_name 21) (Some prefix) (successor prefix)) prefix in
  ∃ it' values, loop (load_marker_step key) out_of_fuel (S (length items)) (it, []) = Ok (it', values) ∧
    sort_marker_values key values = marker_rows key (rows t 21).
Proof using Hv Hwf RL Hk.
  intros prefix it. assert (bt_sorted bytes_cmp R) as Hs by apply bt_filter_sorted, items_sorted.
  assert (it_rows it = R) as Hrows by (unfold it; by rewrite rows_seek, rows_iterator).
  destruct (load_marker_loop key R R [] it [] (S (length items))) as (it' & ->).
  - done.
  - intros e. apply decode_marker_entry.
  - done.
  - done.
  - unfold it. rewrite item_seek, rows_iterator. f_equal. apply filter_all.
    intros e [[Hle _] _]%list_elem_of_filter. done.
  - pose proof (length_filter (in_bounds (Some prefix) (successor prefix)) items). unfold prefix in *. lia.
  - exists it', (entry_dup <$> R). split; [done|]. apply sort_entry_dups.
Qed.
End key.

Lemma load_markers_spec : ∃ m, load_markers db = Ok m ∧
  ∀ key, is_tag_kind_marker key = true → bt_get bytes_cmp m key = Some (marker_rows key (rows t 21)).
Proof using Hv Hwf RL.
  unfold load_markers.
  destruct (load_marker_spec SCHEMA_KEY ltac:(by constructor; [|apply str_ok])) as (it1 & vs1 & E1 & S1).
  destruct (load_marker_spec INDEXED_THROUGH_KEY ltac:(by constructor; [|apply str_ok])) as (it2 & vs2 & E2 & S2).
  cbn [try_fold]. rewrite E1, E2. cbn [mbind result_bind]. rewrite !status_ok. cbn [rocks map_err mbind result_bind].
  rewrite S1, S2. eexists. split; [done|]. intros key Hkey. rewrite !bt_get_insert by apply _.
  unfold is_tag_kind_marker in Hkey. apply orb_true_iff in Hkey as [->%bool_decide_eq_true| ->%bool_decide_eq_true]; done.
Qed.
End load.
End markers.
