(* ===== verification/DbCommit.v ===== *)
(** * Commits

    One write batch carries the staged entries, the changed author heads and the
    counts of a transaction.  The transaction that begins after it sees the same
    rows, and its counts, markers and heads agree with them again.  When the write
    reports an error, no transaction begins before the database is opened again,
    which finds all of the batch or nothing of it. *)

From S2P Require Import Prelude BTreeMap Json DbKeys DbCodec DbIndex DbTxn DbStore DbCursor DbTable DbScan DbTables DbRows DbRw DbDerived DbOps DbMarkers.

Local Open Scope Z_scope.

(** ** A batch as a map *)

Definition op_at (cf : string) (k : bytes) (op : BatchOp) : option (option bytes) :=
  match op with
  | PutCf cf' k' v => if decide (cf' = cf ∧ k' = k) then Some (Some v) else None
  | DeleteCf cf' k' => if decide (cf' = cf ∧ k' = k) then Some None else None
  end.

Lemma bt_get_filter_ne (items : list Kv) k k' : bt_sorted bytes_cmp items →
  bt_get bytes_cmp (filter (λ e, e.1 ≠ k) items) k' =
  if decide (k = k') then None else bt_get bytes_cmp items k'.
Proof.
  intros Hs. assert (bt_sorted bytes_cmp (filter (λ e, e.1 ≠ k) items)) as Hs' by by apply bt_filter_sorted.
  apply option_eq. intros v. rewrite (bt_get_elem bytes_cmp) by done. rewrite list_elem_of_filter. cbn [fst].
  case_decide; [naive_solver|]. rewrite (bt_get_elem bytes_cmp) by done. naive_solver.
Qed.

Lemma apply_op_get cf items op k : bt_sorted bytes_cmp items →
  bt_get bytes_cmp (apply_op cf items op) k =
  match op_at cf k op with Some o => o | None => bt_get bytes_cmp items k end.
Proof.
  intros Hs. destruct op as [cf' k' v|cf' k']; cbn [apply_op op_at];
    (destruct (decide (cf' = cf)) as [->|Hne]; [|by rewrite decide_False by tauto]).
  - rewrite bt_get_insert by apply _. destruct (bytes_cmp k k') eqn:E.
    + apply (cmp_eq_iff (cmp:=bytes_cmp)) in E as ->. by rewrite decide_True.
    + rewrite decide_False; [done|]. intros [_ ->]. by rewrite (cmp_refl bytes_cmp) in E.
    + rewrite decide_False; [done|]. intros [_ ->]. by rewrite (cmp_refl bytes_cmp) in E.
  - rewrite bt_get_filter_ne by done. destruct (decide (k' = k)) as [->|]; [by rewrite decide_True|].
    by rewrite decide_False by tauto.
Qed.

(** The entry a batch leaves under a key, when its operations on the key agree. *)
Lemma batch_get cf ops items k o : bt_sorted bytes_cmp items →
  (∀ op o', op ∈ ops → op_at cf k op = Some o' → o' = o) →
  (Exists (λ op, is_Some (op_at cf k op)) ops ∨ o = bt_get bytes_cmp items k) →
  bt_get bytes_cmp (foldl (apply_op cf) items ops) k = o.
Proof.
  revert items. induction ops as [|op ops IH]; intros items Hs Hag Hor; cbn [foldl].
  { destruct Hor as [H|H]; [by apply Exists_nil in H|done]. }
  apply IH; [by apply apply_op_sorted|intros op' o' Hin; apply Hag; by right|].
  rewrite apply_op_get by done. destruct (op_at cf k op) as [o'|] eqn:E.
  - right. symmetry. apply (Hag op); [left|done].
  - destruct Hor as [[[? H]|H]%Exists_cons|H]; [congruence|by left|by right].
Qed.

(** ** Column families *)

Definition all_dbis : list Z := Z.of_nat <$> seq 1 22.

Lemma elem_of_all_dbis dbi : valid_dbi dbi → dbi ∈ all_dbis.
Proof.
  intros H. unfold all_dbis. apply list_elem_of_fmap. exists (Z.to_nat dbi). unfold valid_dbi in H.
  split; [lia|]. apply elem_of_seq. lia.
Qed.

Lemma dbis_forall (f : Z → bool) : forallb f all_dbis = true → ∀ dbi, valid_dbi dbi → f dbi = true.
Proof. intros H dbi Hd. rewrite forallb_forall in H. by apply H, list_elem_of_In, elem_of_all_dbis. Qed.

Lemma dbis_forall2 (f : Z → Z → bool) : forallb (λ a, forallb (f a) all_dbis) all_dbis = true →
  ∀ a b, valid_dbi a → valid_dbi b → f a b = true.
Proof. intros H a b Ha Hb. apply dbis_forall; [|done]. by apply (dbis_forall (λ a, forallb (f a) all_dbis)). Qed.

Lemma cf_name_inj a b : valid_dbi a → valid_dbi b → cf_name (physical a) = cf_name b →
  physical a = physical b.
Proof.
  intros Ha Hb H. pose proof (dbis_forall2 (λ a b, bool_decide (cf_name (physical a) = cf_name b →
    physical a = physical b)) ltac:(by vm_compute) a b Ha Hb) as Hab.
  cbn beta in Hab. rewrite bool_decide_eq_true in Hab. by apply Hab.
Qed.

Lemma cf_name_other dbi : valid_dbi dbi →
  cf_name dbi ≠ HEAD_CF ∧ cf_name dbi ≠ "default"%string ∧ cf_name (physical dbi) = cf_name dbi.
Proof.
  intros Hd. pose proof (dbis_forall (λ dbi, bool_decide (cf_name dbi ≠ HEAD_CF ∧
    cf_name dbi ≠ "default"%string ∧ cf_name (physical dbi) = cf_name dbi)) ltac:(by vm_compute) dbi Hd) as H.
  cbn beta in H. by rewrite bool_decide_eq_true in H.
Qed.

Lemma count_key_inj a b : valid_dbi a → valid_dbi b → count_key a = count_key b → a = b.
Proof.
  intros Ha Hb H. pose proof (dbis_forall2 (λ a b, bool_decide (count_key a = count_key b → a = b))
    ltac:(by vm_compute) a b Ha Hb) as Hab.
  cbn beta in Hab. rewrite bool_decide_eq_true in Hab. by apply Hab.
Qed.

Section commit.
Context `{RL : RocksLaws}.

(** ** The batch *)

Definition staged_ops (t : RwTxn) : list BatchOp :=
  (λ '((dbi, key), value), batch_op (cf_name dbi) key value) <$> t_staged t.
Definition head_ops (heads : list (bytes * option bytes)) : list BatchOp :=
  (λ '(author, head), batch_op HEAD_CF author head) <$> heads.
Definition count_ops (t : RwTxn) : list BatchOp :=
  (λ '(dbi, n), PutCf "default" (count_key dbi) (to_le_bytes 8 n)) <$> map_to_list (t_counts t).

Lemma op_at_batch cf k cf' k' v :
  op_at cf k (batch_op cf' k' v) = if decide (cf' = cf ∧ k' = k) then Some v else None.
Proof. by destruct v. Qed.

Lemma elem_of_staged_ops t op : op ∈ staged_ops t ↔
  ∃ dbi k v, op = batch_op (cf_name dbi) k v ∧ (dbi, k, v) ∈ t_staged t.
Proof.
  unfold staged_ops. rewrite list_elem_of_fmap. split.
  - intros ([[dbi k] v] & -> & H). eauto.
  - intros (dbi & k & v & -> & H). by exists (dbi, k, v).
Qed.

Lemma elem_of_head_ops heads op : op ∈ head_ops heads ↔
  ∃ a h, op = batch_op HEAD_CF a h ∧ (a, h) ∈ heads.
Proof.
  unfold head_ops. rewrite list_elem_of_fmap. split.
  - intros ([a h] & -> & H). eauto.
  - intros (a & h & -> & H). by exists (a, h).
Qed.

Lemma elem_of_count_ops t op : op ∈ count_ops t ↔
  ∃ dbi n, op = PutCf "default" (count_key dbi) (to_le_bytes 8 n) ∧ t_counts t !! dbi = Some n.
Proof.
  unfold count_ops. rewrite list_elem_of_fmap. split.
  - intros ([dbi n] & -> & H%elem_of_map_to_list). eauto.
  - intros (dbi & n & -> & H%elem_of_map_to_list). by exists (dbi, n).
Qed.

(** An operation of the batch on a table is a staged entry. *)
Lemma staged_op_at t dbi k o op : staged_wf t → valid_dbi dbi → op ∈ staged_ops t →
  op_at (cf_name dbi) k op = Some o → (physical dbi, k, o) ∈ t_staged t.
Proof.
  intros Hwf Hd (d & k' & v & -> & Hin)%elem_of_staged_ops. rewrite op_at_batch. case_decide as E; [|done].
  intros [= ->]. destruct E as [Hcf ->].
  destruct (wf_dbis t Hwf (d, k)) as (d' & Hd' & Hp); [by apply (list_elem_of_fmap_2' fst _ _ _ Hin)|].
  cbn in Hp. rewrite Hp in *. by rewrite <-(cf_name_inj d' dbi).
Qed.

Lemma head_op_other heads cf k op : cf ≠ HEAD_CF → op ∈ head_ops heads → op_at cf k op = None.
Proof.
  intros Hcf (a & h & -> & _)%elem_of_head_ops. rewrite op_at_batch, decide_False; [done|]. naive_solver.
Qed.

Lemma count_op_other t cf k op : cf ≠ "default"%string → op ∈ count_ops t → op_at cf k op = None.
Proof.
  intros Hcf (d & n & -> & _)%elem_of_count_ops. cbn. rewrite decide_False; [done|]. naive_solver.
Qed.

Section batch.
Context (t : RwTxn) (heads : list (bytes * option bytes)) (Hwf : txn_wf t).
Local Abbreviation ops := (staged_ops t ++ head_ops heads ++ count_ops t).
Local Abbreviation items := (cf_items (v_snapshot (t_view t))).

(** The stored entries of a table after the batch are those of the transaction. *)
Lemma batch_table dbi k : valid_dbi dbi →
  bt_get bytes_cmp (foldl (apply_op (cf_name dbi)) (items (cf_name dbi)) ops) k =
  phys_get (t_view t) (Some (t_staged t)) dbi k.
Proof using RL Hwf.
  intros Hd. pose proof (txn_staged t Hwf) as Hst. destruct (cf_name_other dbi Hd) as (Hh & Hc & Hp).
  unfold phys_get. cbn [mbind option_bind]. apply batch_get; [apply items_sorted|..].
  - intros op o' [Hin|[Hin|Hin]%elem_of_app]%elem_of_app Hop.
    + apply (staged_op_at t) in Hop; [|done..]. apply (bt_get_elem overlay_cmp) in Hop; [|apply Hst]. by rewrite Hop.
    + rewrite (head_op_other heads) in Hop by done. done.
    + rewrite (count_op_other t) in Hop by done. done.
  - destruct (bt_get overlay_cmp (t_staged t) (physical dbi, k)) as [o|] eqn:E; [left|by right].
    apply (bt_get_elem overlay_cmp) in E; [|apply Hst].
    rewrite !Exists_app. left. apply Exists_exists. exists (batch_op (cf_name (physical dbi)) k o). split.
    + apply (elem_of_staged_ops t). eauto.
    + rewrite op_at_batch, decide_True by done. eauto.
Qed.

Lemma staged_op_cf cf k op : (∀ dbi, valid_dbi dbi → cf_name dbi ≠ cf) → op ∈ staged_ops t →
  op_at cf k op = None.
Proof using RL Hwf.
  intros Hcf (d & k' & v & -> & Hin)%elem_of_staged_ops. rewrite op_at_batch, decide_False; [done|].
  destruct (wf_dbis t (txn_staged t Hwf) (d, k')) as (d' & Hd' & Hp);
    [by apply (list_elem_of_fmap_2' fst _ _ _ Hin)|].
  cbn in Hp. intros [Hd _]. apply (Hcf d' Hd'). destruct (cf_name_other d' Hd') as (_ & _ & <-). by rewrite <-Hp.
Qed.

(** The stored counts. *)
Lemma batch_count dbi : valid_dbi dbi →
  bt_get bytes_cmp (foldl (apply_op "default") (items "default") ops) (count_key dbi) =
  match t_counts t !! dbi with
  | Some n => Some (to_le_bytes 8 n)
  | None => bt_get bytes_cmp (items "default") (count_key dbi)
  end.
Proof using RL Hwf.
  intros Hd. apply batch_get; [apply items_sorted|..].
  - intros op o' [Hin|[Hin|Hin]%elem_of_app]%elem_of_app Hop.
    + rewrite staged_op_cf in Hop; [done| |done]. intros d Hd'. by apply cf_name_other.
    + by rewrite (head_op_other heads) in Hop.
    + apply elem_of_count_ops in Hin as (d & n & -> & Hn). cbn in Hop. case_decide as E; [|done].
      destruct E as [_ E]. apply count_key_inj in E as ->; [|by apply (txn_counts_dom t Hwf)|done].
      rewrite Hn. by injection Hop as <-.
  - destruct (t_counts t !! dbi) as [n|] eqn:E; [left|by right]. rewrite !Exists_app. right; right.
    apply Exists_exists. exists (PutCf "default" (count_key dbi) (to_le_bytes 8 n)). split.
    + apply elem_of_count_ops. eauto.
    + cbn. rewrite decide_True by done. eauto.
Qed.

(** The stored heads. *)
Lemma batch_head a h : (∀ h', (a, h') ∈ heads → h' = h) →
  ((∃ h', (a, h') ∈ heads) ∨ h = bt_get bytes_cmp (items HEAD_CF) a) →
  bt_get bytes_cmp (foldl (apply_op HEAD_CF) (items HEAD_CF) ops) a = h.
Proof using RL Hwf.
  intros Hag Hor. apply batch_get; [apply items_sorted|..].
  - intros op o' [Hin|[Hin|Hin]%elem_of_app]%elem_of_app Hop.
    + rewrite staged_op_cf in Hop; [done| |done]. intros d Hd'. by apply cf_name_other.
    + apply elem_of_head_ops in Hin as (a' & h' & -> & Hin). rewrite op_at_batch in Hop. case_decide as E; [|done].
      destruct E as [_ ->]. injection Hop as <-. by apply Hag.
    + by rewrite (count_op_other t) in Hop.
  - destruct Hor as [[h' Hin]|H]; [left|by right]. rewrite !Exists_app. right; left.
    apply Exists_exists. exists (batch_op HEAD_CF a h'). split.
    + apply elem_of_head_ops. eauto.
    + rewrite op_at_batch, decide_True by done. eauto.
Qed.
End batch.

(** The heads a commit writes: those of the noted authors that changed. *)
Lemma head_updates_spec t : txn_wf t →
  ∃ heads, head_updates t = Ok heads ∧
    ∀ a h, (a, h) ∈ heads ↔ a ∈ t_touched_authors t ∧ h = author_head a (rows t 10) ∧
      bt_get bytes_cmp (cf_items (v_snapshot (t_view t)) HEAD_CF) a ≠ h.
Proof.
  intros Hwf. unfold head_updates.
  set (f := λ updates author, _).
  assert (∀ as' l, (∀ a, a ∈ as' → a ∈ t_touched_authors t) →
    ∃ heads, try_fold f l as' = Ok (l ++ heads) ∧
      ∀ a h, (a, h) ∈ heads ↔ a ∈ as' ∧ h = author_head a (rows t 10) ∧
        bt_get bytes_cmp (cf_items (v_snapshot (t_view t)) HEAD_CF) a ≠ h) as H.
  { induction as' as [|a as' IH]; intros l Hin; cbn [try_fold].
    - exists []. rewrite app_nil_r. split; [done|]. intros a h. set_solver.
    - destruct (txn_touched t Hwf a) as [Ha Hok]; [apply Hin; left|].
      set (h0 := author_head a (rows t 10)).
      set (cur := bt_get bytes_cmp (cf_items (v_snapshot (t_view t)) HEAD_CF) a).
      assert (f l a = Ok (if decide (cur ≠ h0) then l ++ [(a, h0)] else l)) as ->.
      { unfold f. rewrite derived_head_spec by (done || by apply txn_staged). cbn [mbind result_bind].
        by rewrite get_cf_items. }
      cbn [mbind result_bind].
      destruct (IH (if decide (cur ≠ h0) then l ++ [(a, h0)] else l)) as (heads & -> & Hh).
      { intros x Hx. apply Hin. by right. }
      exists (if decide (cur ≠ h0) then (a, h0) :: heads else heads).
      split; [case_decide; [by rewrite <-app_assoc|done]|]. intros x h.
      case_decide as E; rewrite ?elem_of_cons, Hh; [naive_solver|].
      split; [naive_solver|]. intros [[->|Hx] [-> Hne]]; [by destruct Hne|done]. }
  destruct (H (elements (t_touched_authors t)) []) as (heads & -> & Hh).
  { intros a. by rewrite elem_of_elements. }
  exists heads. split; [done|]. intros a h. by rewrite Hh, elem_of_elements.
Qed.

(** ** The next transaction *)

(** The batch of a transaction. *)
Lemma commit_batch_spec t : txn_wf t →
  ∃ heads, commit_batch t = Ok (staged_ops t ++ head_ops heads ++ count_ops t) ∧
    ∀ a h, (a, h) ∈ heads ↔ a ∈ t_touched_authors t ∧ h = author_head a (rows t 10) ∧
      bt_get bytes_cmp (cf_items (v_snapshot (t_view t)) HEAD_CF) a ≠ h.
Proof.
  intros Hwf. destruct (head_updates_spec t Hwf) as (heads & Hu & Hh). exists heads. split; [|done].
  unfold commit_batch. by rewrite Hu.
Qed.

Section next.
Context (t : RwTxn) (heads : list (bytes * option bytes)) (db db' : Db).
Context (Hwf : txn_wf t) (Hsnap : db_snapshot db = v_snapshot (t_view t)).
Context (Hheads : ∀ a h, (a, h) ∈ heads ↔ a ∈ t_touched_authors t ∧ h = author_head a (rows t 10) ∧
  bt_get bytes_cmp (cf_items (v_snapshot (t_view t)) HEAD_CF) a ≠ h).
Context (Hwrite : ∀ cf, cf_items (db_snapshot db') cf = foldl (apply_op cf) (cf_items (db_snapshot db) cf)
  (staged_ops t ++ head_ops heads ++ count_ops t)).
Context (m : MarkerMap).
Local Abbreviation t' := (RwTxn_of_view (mkView (db_snapshot db') m ∅)).

Lemma next_items cf : cf_items (db_snapshot db') cf =
  foldl (apply_op cf) (cf_items (v_snapshot (t_view t)) cf) (staged_ops t ++ head_ops heads ++ count_ops t).
Proof using Hsnap Hwrite. by rewrite Hwrite, Hsnap. Qed.

Lemma next_phys dbi k : valid_dbi dbi →
  phys_get (t_view t') (Some (t_staged t')) dbi k = phys_get (t_view t) (Some (t_staged t)) dbi k.
Proof using RL Hwf Hsnap Hwrite.
  intros Hd. rewrite <-(batch_table t heads Hwf dbi k Hd), <-next_items. done.
Qed.

Lemma next_staged_wf : staged_wf t'.
Proof using RL Hwf Hsnap Hwrite.
  split; [constructor| |by intros k ?%not_elem_of_nil].
  intros dbi Hd pk value. rewrite next_phys by done. by apply (wf_tables t (txn_staged t Hwf)).
Qed.

Lemma next_rows dbi : valid_dbi dbi → rows t' dbi = rows t dbi.
Proof using RL Hwf Hsnap Hwrite.
  intros Hd. pose proof next_staged_wf as Hwf'. pose proof (txn_staged t Hwf) as Hst.
  apply trows_ext; [apply Hwf'|apply Hst|by apply (wf_tables t' Hwf')|by apply (wf_tables t Hst)|].
  intros r. unfold rows. rewrite (elem_of_trows (t_view t')) by (by apply (wf_tables t' Hwf') || apply (wf_sorted t' Hwf')).
  rewrite elem_of_trows by (by apply (wf_tables t Hst) || apply (wf_sorted t Hst)).
  unfold vis. by rewrite next_phys.
Qed.

Lemma next_entries dbi : valid_dbi dbi → entries t' dbi = Ok (len (rows t' dbi)).
Proof using RL Hwf Hsnap Hwrite.
  intros Hd. rewrite next_rows by done. unfold entries. cbn [t_counts RwTxn_of_view]. rewrite lookup_empty.
  unfold count. rewrite valid_validate by done. cbn [mbind result_bind t_view v_snapshot RwTxn_of_view].
  rewrite get_cf_items, next_items, (batch_count t heads Hwf) by done.
  pose proof (txn_counts t Hwf dbi Hd) as Hc. unfold entries in Hc.
  destruct (t_counts t !! dbi) as [n|].
  - cbn [rocks map_err mbind result_bind]. rewrite decide_True by apply length_to_le_bytes.
    f_equal. injection Hc as ->. apply from_to_le_bytes. pose proof (txn_bounds t Hwf dbi Hd).
    unfold U64_MAX in *. lia.
  - rewrite <-Hc. unfold count. rewrite valid_validate by done. cbn [mbind result_bind].
    by rewrite get_cf_items.
Qed.

Lemma next_txn_wf :
  (∀ key, is_tag_kind_marker key = true → default [] (bt_get bytes_cmp m key) = marker_rows key (rows t 21)) →
  txn_wf t'.
Proof using RL Hwf Hsnap Hheads Hwrite.
  intros Hm. assert (∀ d, valid_dbi d → rows t' d = rows t d) as Hrows by apply next_rows.
  split.
  - apply next_staged_wf.
  - apply next_entries.
  - intros d Hd. rewrite Hrows by done. by apply (txn_bounds t Hwf).
  - intros d. cbn [t_counts RwTxn_of_view]. rewrite lookup_empty. by intros [? ?].
  - intros k Hk. rewrite Hrows by (unfold valid_dbi; lia). by apply Hm.
  - intros a. cbn [t_touched_authors RwTxn_of_view]. set_solver.
  - intros a Ha Hok _. rewrite Hrows by (unfold valid_dbi; lia).
    cbn [t_view v_snapshot RwTxn_of_view]. rewrite next_items.
    apply (batch_head t heads Hwf).
    + intros h' (_ & -> & _)%Hheads. done.
    + destruct (decide (a ∈ t_touched_authors t)) as [Hin|Hin]; [|right; symmetry; by apply txn_heads].
      destruct (decide (bt_get bytes_cmp (cf_items (v_snapshot (t_view t)) HEAD_CF) a =
        author_head a (rows t 10))) as [E|E]; [by right|left]. eexists. by apply Hheads.
Qed.
End next.

(** A transaction begins on a database whose markers are published. *)
Lemma begin_published db m :
  RwTxn_begin (mkEnv db (Some (latest_sequence_number db, m))) =
  Ok (mkEnv db (Some (latest_sequence_number db, m)), RwTxn_of_view (mkView (db_snapshot db) m ∅)).
Proof.
  unfold RwTxn_begin, refresh_markers. cbn [env_marker_state env_db].
  destruct (decide _) as [[]|_]; [done|]. cbn [mbind result_bind]. unfold View_new. cbn [loop].
  unfold View_try. cbn [env_marker_state env_db ok_or mbind result_bind].
  destruct (decide _) as [_|[]]; done.
Qed.

Lemma reader_published db m :
  RoTxn_begin (mkEnv db (Some (latest_sequence_number db, m))) =
  Ok (mkEnv db (Some (latest_sequence_number db, m)), mkView (db_snapshot db) m ∅).
Proof.
  unfold RoTxn_begin, View_new. cbn [loop].
  unfold View_try. cbn [env_marker_state env_db ok_or mbind result_bind].
  destruct (decide _) as [_|[]]; done.
Qed.

(** The transactions that begin in [e'] see the rows of [t]. *)
Definition published (e' : Env) (t t' : RwTxn) : Prop :=
  RwTxn_begin e' = Ok (e', t') ∧ RoTxn_begin e' = Ok (e', t_view t') ∧ txn_wf t' ∧
  (∃ m, t' = RwTxn_of_view (mkView (db_snapshot (env_db e')) m ∅)) ∧
  ∀ dbi, valid_dbi dbi → rows t' dbi = rows t dbi.

(** No transaction begins. *)
Definition closed (e' : Env) : Prop :=
  let reopen := rocks_msg "metadata cache unavailable after a storage error; reopen" in
  RwTxn_begin e' = Err reopen ∧ RoTxn_begin e' = Err reopen.

Definition unchanged (db db' : Db) : Prop :=
  ∀ cf, cf_items (db_snapshot db') cf = cf_items (db_snapshot db) cf.

(** A database that holds the batch of [t]. *)
Section applied.
Context (t : RwTxn) (heads : list (bytes * option bytes)) (db db' : Db).
Context (Hwf : txn_wf t) (Hsnap : db_snapshot db = v_snapshot (t_view t)).
Context (Hheads : ∀ a h, (a, h) ∈ heads ↔ a ∈ t_touched_authors t ∧ h = author_head a (rows t 10) ∧
  bt_get bytes_cmp (cf_items (v_snapshot (t_view t)) HEAD_CF) a ≠ h).
Context (Hwrite : ∀ cf, cf_items (db_snapshot db') cf = foldl (apply_op cf) (cf_items (db_snapshot db) cf)
  (staged_ops t ++ head_ops heads ++ count_ops t)).

Lemma applied_published m :
  (∀ key, is_tag_kind_marker key = true → default [] (bt_get bytes_cmp m key) = marker_rows key (rows t 21)) →
  ∃ t', published (mkEnv db' (Some (latest_sequence_number db', m))) t t'.
Proof using RL Hwf Hsnap Hheads Hwrite.
  intros Hm. eexists. unfold published. rewrite begin_published, reader_published. split; [done|]. split; [done|].
  split_and!; [by eapply next_txn_wf|by eexists|]. intros dbi Hd. by eapply next_rows.
Qed.

(** Opening it finds the markers of the rows. *)
Lemma applied_opens : ∃ e'' t', from_native_db db' = Ok e'' ∧ published e'' t t'.
Proof using RL Hwf Hsnap Hheads Hwrite.
  pose proof (next_staged_wf t heads db db' Hwf Hsnap Hwrite []) as Hst.
  destruct (load_markers_spec db' (mkView (db_snapshot db') [] ∅) eq_refl Hst) as (m & Hl & Hm). unfold from_native_db. rewrite Hl. cbn [mbind result_bind].
  destruct (applied_published m) as (t' & Ht'); [|by eauto].
  intros key Hkey. rewrite Hm by done. cbn [default id]. f_equal. by eapply next_rows.
Qed.
End applied.

(** After the batch is written, readers and the next writer see its rows; after
    an error, the next open finds them, or the data as it was. *)
Lemma commit_flushed_publishes e t : txn_wf t → db_snapshot (env_db e) = v_snapshot (t_view t) →
  match commit_flushed e t with
  | (e', Ok _) => ∃ t', published e' t t'
  | (e', Err _) => closed e' ∧ (unchanged (env_db e) (env_db e') ∨
      ∃ e'' t', from_native_db (env_db e') = Ok e'' ∧ published e'' t t')
  end.
Proof.
  intros Hwf Hsnap. destruct (commit_batch_spec t Hwf) as (heads & Hb & Hh).
  unfold commit_flushed. rewrite Hb. destruct (write_opt (env_db e) _) as [db' [u|err]] eqn:Hw.
  - eapply applied_published; [done..| |]; [intros cf; by eapply write_items|]. apply (txn_markers t Hwf).
  - split; [done|]. destruct (write_failed _ _ _ _ Hw) as [Hsame|Happ]; [by left|right]. by eapply applied_opens.
Qed.
End commit.
