(* ===== verification/DbContract.v ===== *)
(** * The contract of the database

    What the rest of the relay may rely on: cursors and scans behave as LMDB's,
    and a transaction is a set of sorted tables that its operations change one
    row at a time. *)

From S2P Require Import Prelude BTreeMap Json DbKeys DbCodec DbIndex DbTxn DbStore DbCursor DbTable DbScan DbTables DbRows DbRw DbDerived DbOps DbCommit.

Local Open Scope Z_scope.

(** ** Sequences of operations *)

Inductive TxnOp : Type :=
| OpPut (dbi : Z) (key val : bytes) (flags : Z)
| OpDel (dbi : Z) (key : bytes) (val : option bytes)
| OpClear (dbi : Z)
| OpGet (dbi : Z) (key : bytes)
| OpEntries (dbi : Z)
| OpScan (dbi : Z) (key dup : bytes) (reverse : bool).

Inductive OpResult : Type :=
| Changed (b : bool)
| Cleared
| Found (v : option bytes)
| Entries (n : Z)
| Visited (rows : list Kv).

Definition op_ok (op : TxnOp) : Prop :=
  match op with
  | OpPut dbi key val _ => valid_dbi dbi ∧ put_ok dbi (key, val)
  | OpDel dbi key val => valid_dbi dbi ∧ key_ok dbi key ∧ opt_bytes_ok val
  | OpClear dbi | OpEntries dbi => valid_dbi dbi
  | OpGet dbi key => valid_dbi dbi ∧ key_ok dbi key
  | OpScan dbi key dup _ => valid_dbi dbi ∧ bytes_ok key ∧ bytes_ok dup
  end.

(** A scan that collects the rows it is given. *)
Definition collect_row (acc : list Kv) (k v : bytes) : list Kv * bool := (acc ++ [(k, v)], true).

(** The tables of the contract, and what an operation does to them. *)
Definition set_table (dbi : Z) (L : list Kv) (T : Z → list Kv) : Z → list Kv :=
  λ d, if decide (d = dbi) then L else T d.

Definition table_step (T : Z → list Kv) (op : TxnOp) : (Z → list Kv) * OpResult :=
  match op with
  | OpPut dbi key val flags =>
      if decide (put_refused dbi (T dbi) (key, val) flags) then (T, Changed false)
      else (set_table dbi (row_insert dbi (key, val) (T dbi)) T, Changed true)
  | OpDel dbi key val =>
      (set_table dbi (row_del dbi key val (T dbi)) T,
       Changed (bool_decide (row_del dbi key val (T dbi) ≠ T dbi)))
  | OpClear dbi => (set_table dbi [] T, Cleared)
  | OpGet dbi key => (T, Found (row_get key (T dbi)))
  | OpEntries dbi => (T, Entries (len (T dbi)))
  | OpScan dbi key dup reverse => (T, Visited (scan_rows dbi (T dbi) key dup reverse))
  end.

Fixpoint run_tables (T : Z → list Kv) (ops : list TxnOp) : (Z → list Kv) * list OpResult :=
  match ops with
  | [] => (T, [])
  | op :: ops =>
      let '(T, r) := table_step T op in
      let '(T, rs) := run_tables T ops in (T, r :: rs)
  end.

Section contract.
Context `{RL : RocksLaws}.

(** What the transaction does. *)
Definition txn_step (t : RwTxn) (op : TxnOp) : result DbError (RwTxn * OpResult) :=
  match op with
  | OpPut dbi key val flags => '(t, b) ← put t dbi key val flags; Ok (t, Changed b)
  | OpDel dbi key val => '(t, b) ← del t dbi key val; Ok (t, Changed b)
  | OpClear dbi => t ← clear t dbi; Ok (t, Cleared)
  | OpGet dbi key => o ← get t dbi key; Ok (t, Found o)
  | OpEntries dbi => n ← entries t dbi; Ok (t, Entries n)
  | OpScan dbi key dup reverse =>
      '(rows, _) ← foreach_full t dbi key dup reverse collect_row []; Ok (t, Visited rows)
  end.

Fixpoint run_txn (t : RwTxn) (ops : list TxnOp) : result DbError (RwTxn * list OpResult) :=
  match ops with
  | [] => Ok (t, [])
  | op :: ops =>
      '(t, r) ← txn_step t op;
      '(t, rs) ← run_txn t ops;
      Ok (t, r :: rs)
  end.

Lemma run_collect acc l : run_cb collect_row acc l = (acc ++ l, true).
Proof.
  revert acc. induction l as [|[k v] l IH]; intros acc; cbn; [by rewrite app_nil_r|].
  by rewrite IH, <-app_assoc.
Qed.

(** The transaction holds these tables. *)
Definition holds (t : RwTxn) (T : Z → list Kv) : Prop :=
  txn_wf t ∧ ∀ dbi, valid_dbi dbi → rows t dbi = T dbi.

Lemma holds_change t t' T dbi L : holds t T → txn_wf t' → rows_change t t' dbi L →
  holds t' (set_table dbi L T).
Proof.
  intros [_ HT] Hwf' [Hr Ho]. split; [done|]. intros d Hd. unfold set_table. case_decide as E; [by subst|].
  by rewrite Ho, HT.
Qed.

Lemma step_simulates t T op : holds t T → op_ok op →
  (∀ dbi, valid_dbi dbi → len (T dbi) < U64_MAX) →
  ∃ t', txn_step t op = Ok (t', (table_step T op).2) ∧ holds t' (table_step T op).1 ∧ same_extra t t'.
Proof.
  intros HT Hop Hlen. pose proof HT as [Hwf Hrows].
  destruct op as [dbi key val flags|dbi key o|dbi|dbi key|dbi|dbi key dup rev];
    cbn [op_ok txn_step table_step] in *.
  - destruct Hop as [Hd Hput].
    destruct (put_spec t dbi key val flags Hwf Hd Hput) as (t' & -> & Hwf' & Hx & Hch); [rewrite Hrows; auto|].
    cbn [mbind result_bind]. rewrite Hrows in * by done. exists t'.
    destruct (decide (put_refused dbi (T dbi) (key, val) flags)) as [E|E];
      [rewrite bool_decide_false by tauto|rewrite bool_decide_true by tauto]; (split_and!; [done| |done]).
    + split; [done|]. intros d Hd'. destruct Hch as [Hr Ho]. destruct (decide (d = dbi)) as [->|]; [done|].
      by rewrite Ho, Hrows.
    + by apply (holds_change t).
  - destruct Hop as (Hd & Hk & Ho).
    destruct (del_spec t dbi key o Hwf Hd Hk Ho) as (t' & -> & Hwf' & Hx & Hch).
    cbn [mbind result_bind]. rewrite Hrows in * by done. exists t'. split_and!; [done| |done]. by apply (holds_change t).
  - destruct (clear_spec t dbi Hwf Hop) as (t' & -> & Hwf' & Hx & Hch).
    exists t'. split_and!; [done| |done]. by apply (holds_change t).
  - destruct Hop as [Hd Hk]. rewrite get_spec by done. cbn [mbind result_bind]. rewrite Hrows by done. by exists t.
  - rewrite (txn_counts t Hwf) by done. cbn [mbind result_bind]. rewrite Hrows by done. by exists t.
  - destruct Hop as (Hd & Hk & Hdup). rewrite foreach_full_spec by done. cbn [mbind result_bind].
    rewrite run_collect, Hrows by done. by exists t.
Qed.

Lemma length_row_del dbi key o L : (length (row_del dbi key o L) ≤ length L)%nat.
Proof. unfold row_del, row_remove. case_match; apply length_filter. Qed.

Lemma step_length T op dbi : op_ok op → (∀ d, valid_dbi d → table_sorted d (T d)) → valid_dbi dbi →
  len ((table_step T op).1 dbi) ≤ len (T dbi) + 1.
Proof.
  intros Hop HT Hd. destruct op as [d key val flags|d key o|d|d key|d|d key dup rev]; cbn [table_step fst]; try lia.
  - destruct Hop as [Hd' [Hr _]]. case_decide; cbn [fst]; [lia|]. unfold set_table. case_decide as E; [subst|lia].
    pose proof (length_row_insert d (key, val) (T d) Hr (HT d Hd')) as H1. lia.
  - unfold set_table. case_decide as E; [subst|lia]. pose proof (length_row_del d key o (T d)). lia.
  - unfold set_table. case_decide as E; [subst|lia]. cbn. lia.
Qed.

Lemma run_simulates t T ops :
  holds t T → Forall op_ok ops → (∀ dbi, valid_dbi dbi → len (T dbi) + len ops ≤ U64_MAX) →
  ∃ t', run_txn t ops = Ok (t', (run_tables T ops).2) ∧ holds t' (run_tables T ops).1 ∧ same_extra t t'.
Proof.
  intros HT Hops. revert t T HT. induction Hops as [|op ops Hop Hops IH]; intros t T HT Hlen;
    cbn [run_txn run_tables].
  { by exists t. }
  pose proof HT as [Hwf Hrows].
  destruct (step_simulates t T op HT Hop) as (t1 & -> & HT1 & Hx1).
  { intros d Hd. specialize (Hlen d Hd). cbn in Hlen. lia. }
  cbn [mbind result_bind]. destruct (table_step T op) as [T1 r] eqn:E. cbn [fst snd] in *.
  destruct (IH t1 T1 HT1) as (t2 & -> & HT2 & Hx2).
  { intros d Hd. pose proof (step_length T op d Hop) as Hl. rewrite E in Hl. cbn [fst] in Hl.
    assert (∀ d, valid_dbi d → table_sorted d (T d)) as Hs.
    { intros d' Hd'. rewrite <-Hrows by done. by apply txn_rows_sorted. }
    specialize (Hl Hs Hd). specialize (Hlen d Hd). cbn [length] in Hlen. lia. }
  cbn [mbind result_bind]. destruct (run_tables T1 ops) as [T2 rs].
  exists t2. split_and!; [done..|]. by eapply same_extra_trans.
Qed.

(** C11. A transaction implements its tables: any sequence of puts (with any
    flags), deletes, clears, lookups, counts and scans succeeds on the overlay
    over the snapshot, gives the results that sorted lists of rows give, and
    leaves the rows of those lists, with the counts, markers and author heads
    that follow from them. *)
Theorem transaction_implements_tables t T ops :
  holds t T → Forall op_ok ops → (∀ dbi, valid_dbi dbi → len (T dbi) + len ops ≤ U64_MAX) →
  ∃ t', run_txn t ops = Ok (t', (run_tables T ops).2) ∧ holds t' (run_tables T ops).1 ∧ same_extra t t'.
Proof. apply run_simulates. Qed.

(** C12. The cursor over RocksDB implements LMDB's cursor, as far as the relay uses
    it ([cursor_spec] says where they differ): on a table of well-formed entries, with any staged changes over the snapshot, each of the
    sixteen operations returns the row it names in the logical order of the
    table (or none, or the error of a missing argument), and leaves the cursor
    at that row, or where it was when there is none.  In particular the loop of
    [position] terminates. *)
Theorem cursor_implements_lmdb c at_ key val op :
  cursor_wf c at_ → opt_bytes_ok key → opt_bytes_ok val →
  match cursor_spec (c_dbi c) (crows c) at_ key val op with
  | Ok o => ∃ c', Cursor_get c key val op = Ok (c', o) ∧ same_table c c' ∧
      cursor_wf c' (match o with Some _ => o | None => at_ end)
  | Err e => Cursor_get c key val op = Err e
  end.
Proof.
  intros Hc Hk Hv. destruct (cursor_spec _ _ _ _ _ _) as [o|e] eqn:E.
  - by apply Cursor_get_returns.
  - by apply (Cursor_get_error c at_).
Qed.

(** C13. Scans terminate and visit exactly their rows: on well-formed entries a
    scan, of either kind and in either direction, returns what its callback
    returns when run over the rows from the start of the range on, in order,
    until it stops; the typed scan of an index, which parses the stored bytes in
    place, gives its callback entries with the same answers. *)
Theorem scans_visit_their_rows {S} (cb : S → bytes → bytes → S * bool)
    (icb : S → IndexEntry → S * bool) c at_ key dup id rev s :
  cursor_wf c at_ → bytes_ok key → bytes_ok dup → u64_ok id → asks_entry icb →
  foreach c key dup rev cb s = Ok (run_cb cb s (scan_rows (c_dbi c) (crows c) key dup rev)) ∧
  foreach_index c key id icb s =
    Ok (run_cb (λ s k v, icb s (from_logical k v)) s
          (scan_rows (c_dbi c) (crows c) key (to_ne_bytes id) true)).
Proof.
  intros Hc Hk Hd Hid Hask. split; [by apply (foreach_spec cb c at_)|by apply (foreach_index_spec icb c at_)].
Qed.
End contract.

(** ** Witnesses: an empty database in memory *)

Definition empty_env : @Env mem_rocks := @mkEnv mem_rocks [] (Some (0, [])).
Definition empty_txn : @RwTxn mem_rocks :=
  @RwTxn_of_view mem_rocks (@mkView mem_rocks [] [] ∅).

Lemma empty_rows dbi : rows empty_txn dbi = [].
Proof. unfold rows, trows. by destruct (reversed dbi). Qed.

Lemma empty_txn_wf : txn_wf empty_txn.
Proof.
  split.
  - split; [constructor|by intros dbi Hd pk value|by intros k ?%not_elem_of_nil].
  - intros dbi Hd. rewrite empty_rows. unfold entries, count. cbn. by rewrite valid_validate.
  - intros dbi Hd. rewrite empty_rows. unfold U64_MAX. cbn. lia.
  - by intros dbi [? ?].
  - intros key Hk. by rewrite empty_rows.
  - intros a. cbn. set_solver.
  - intros a Ha Hok _. by rewrite empty_rows.
Qed.

Lemma bytes_ok_bool (b : bytes) : forallb (λ x, (0 <=? x) && (x <? 256)) b = true → bytes_ok b.
Proof.
  intros H. apply Forall_forall. intros x Hx%list_elem_of_In. rewrite forallb_forall in H.
  specialize (H x Hx). unfold byte_ok. lia.
Qed.

(** A tag index row, an event's payload, a duplicate of the row refused, the
    payload read back and the rows scanned. *)
Definition sample_key : bytes := [101; 1] ++ to_ne_bytes 1700.
Definition sample_ops : list TxnOp :=
  [OpPut 6 sample_key (to_ne_bytes 7) 0; OpPut 15 (to_ne_bytes 7) [0; 123; 125] MDB_NOOVERWRITE;
   OpPut 6 sample_key (to_ne_bytes 7) MDB_NODUPDATA; OpPut 6 sample_key (to_ne_bytes 9) 0;
   OpGet 15 (to_ne_bytes 7); OpScan 6 [] [] true; OpDel 6 sample_key (Some (to_ne_bytes 7));
   OpDel 3 (to_ne_bytes 7) None; OpEntries 6; OpClear 15; OpGet 15 (to_ne_bytes 7)].

Lemma sample_ops_ok : Forall op_ok sample_ops.
Proof.
  repeat (apply Forall_cons_2 || apply Forall_nil_2); cbn [op_ok]; unfold valid_dbi, put_ok, key_ok, row_ok;
    repeat match goal with
    | |- _ ∧ _ => split
    | |- bytes_ok _ => by apply bytes_ok_bool
    | |- opt_bytes_ok _ => intros ? [= <-]; by apply bytes_ok_bool
    | |- opt_bytes_ok _ => done
    | |- combined _ = true → _ => let H := fresh in intros H; vm_compute in H; discriminate H
    | |- combined _ = true → _ => intros _
    | |- _ = 8%nat => done
    | |- _ < U32_MAX => vm_compute; done
    end; lia.
Qed.

Lemma transaction_implements_tables_witness :
  ∃ t', run_txn empty_txn sample_ops = Ok (t',
    [Changed true; Changed true; Changed false; Changed true; Found (Some [0; 123; 125]);
     Visited [(sample_key, to_ne_bytes 9); (sample_key, to_ne_bytes 7)]; Changed true; Changed false;
     Entries 1; Cleared; Found None]) ∧ rows t' 6 = [(sample_key, to_ne_bytes 9)].
Proof.
  destruct (transaction_implements_tables empty_txn (λ _, []) sample_ops) as (t' & E & [_ Hr] & _).
  - split; [exact empty_txn_wf|]. intros. apply empty_rows.
  - exact sample_ops_ok.
  - intros. vm_compute. done.
  - exists t'. split; [exact E|]. rewrite Hr by (unfold valid_dbi; lia). vm_compute. reflexivity.
Defined.


(** A transaction with two tag rows and an event. *)
Lemma sample_txn : ∃ t, run_txn empty_txn (take 4 sample_ops) =
    Ok (t, [Changed true; Changed true; Changed false; Changed true]) ∧ txn_wf t ∧
  rows t 6 = [(sample_key, to_ne_bytes 7); (sample_key, to_ne_bytes 9)] ∧ t_view t = t_view empty_txn.
Proof.
  destruct (run_simulates empty_txn (λ _, []) (take 4 sample_ops)) as (t & E & [Hwf Hr] & [Hv _]).
  - split; [exact empty_txn_wf|]. intros. apply empty_rows.
  - apply Forall_take, sample_ops_ok.
  - intros. vm_compute. done.
  - exists t. split; [exact E|]. split; [done|]. split; [|done].
    rewrite Hr by (unfold valid_dbi; lia). vm_compute. reflexivity.
Qed.

Lemma cursor_implements_lmdb_witness : ∃ t c',
  run_txn empty_txn (take 4 sample_ops) = Ok (t, [Changed true; Changed true; Changed false; Changed true]) ∧
  Cursor_get (Cursor_new (t_view t) 6 (Some (t_staged t))) (Some sample_key) (Some (to_ne_bytes 8))
    MDB_GET_BOTH_RANGE = Ok (c', Some (sample_key, to_ne_bytes 9)).
Proof.
  destruct sample_txn as (t & E & Hwf & Hr & Hv). exists t.
  destruct (txn_cursor_wf t 6 (txn_staged t Hwf) ltac:(unfold valid_dbi; lia)) as [_ Hc].
  pose proof (cursor_implements_lmdb _ None (Some sample_key) (Some (to_ne_bytes 8)) MDB_GET_BOTH_RANGE Hc
    ltac:(intros ? [= <-]; by apply bytes_ok_bool) ltac:(intros ? [= <-]; by apply bytes_ok_bool)) as H.
  change (crows _) with (rows t 6) in H. rewrite Hr in H. destruct H as (c' & H & _).
  exists c'. split; [exact E|exact H].
Defined.

Lemma scans_visit_their_rows_witness : ∃ t,
  run_txn empty_txn (take 4 sample_ops) = Ok (t, [Changed true; Changed true; Changed false; Changed true]) ∧
  foreach (Cursor_new (t_view t) 6 (Some (t_staged t))) sample_key (to_ne_bytes 8) true collect_row [] =
    Ok ([(sample_key, to_ne_bytes 7)], true) ∧
  foreach_index (Cursor_new (t_view t) 6 (Some (t_staged t))) sample_key U64_MAX
    (λ n e, (n + default 0 (ie_created_at e), true)) 0 = Ok (3400, true).
Proof.
  destruct sample_txn as (t & E & Hwf & Hr & Hv). exists t. split; [exact E|].
  destruct (txn_cursor_wf t 6 (txn_staged t Hwf) ltac:(unfold valid_dbi; lia)) as [_ Hc].
  split.
  - destruct (scans_visit_their_rows collect_row (λ s _, (s, true)) _ None sample_key (to_ne_bytes 8) 0 true [] Hc)
      as [H _]; [by apply bytes_ok_bool..|unfold u64_ok, U64_MAX; lia|done|].
    change (crows _) with (rows t 6) in H. rewrite Hr in H. exact H.
  - destruct (scans_visit_their_rows (λ s _ _, (s, true)) (λ n e, (n + default 0 (ie_created_at e), true)) _ None
      sample_key (to_ne_bytes 8) U64_MAX true 0 Hc) as [_ H];
      [by apply bytes_ok_bool..|unfold u64_ok, U64_MAX; lia| |].
    { intros n e e' (Ht & _). by rewrite Ht. }
    change (crows _) with (rows t 6) in H. rewrite Hr in H. exact H.
Defined.
