(* ===== verification/DbDurable.v ===== *)
(** * What a commit makes durable

    [RwTxn::commit] flushes the counters of the transaction to the state table
    and writes one batch.  The transaction that begins next sees the same
    events, the same local id sequence and the same counts, so that [db_wf] is
    an invariant of the database, not only of a transaction. *)

From S2P Require Import Prelude Utf8 BTreeMap Json Crates Kinds Packed EventParse Validate DbKeys DbCodec DbIndex DbTxn DbState DbPayload Search DbSearch DbTagKind DbPolicy DbWrite DbStore DbCursor DbTable DbScan DbTables DbRows DbRw DbDerived DbOps DbLogic DbCounters DbIndices DbEvents DbDelete DbLookup DbPostings DbDecide DbBatch DbWriter DbCommit DbContract.

Local Open Scope Z_scope.

Section durable.
Context `{RL : RocksLaws}.
Implicit Types (t : RwTxn) (e : Env).

(** The counters of a transaction without any in its fields are those stored. *)
Record resumed t t' : Prop := {
  re_txn : txn_wf t';
  re_counters : counters_wf t';
  re_fresh : t' = RwTxn_of_view (t_view t') ∧ v_records (t_view t') = ∅;
  re_rows d : valid_dbi d → d ≠ 20 → rows t' d = rows t d;
  re_state key : ¬ counter_key key → stored t' key = stored t key;
  re_sequence : sequence t' = sequence t;
  re_superseded : superseded_value t' = superseded_value t;
  re_authors pk : author_value t' pk = author_value t pk;
}.

(** The transactions that begin in [e'] go on where [t] ended. *)
Definition begins e' t t' : Prop :=
  RwTxn_begin e' = Ok (e', t') ∧ RoTxn_begin e' = Ok (e', t_view t') ∧ resumed t t'.

Lemma published_begins e' t t1 t' : flushed t t1 → published e' t1 t' → begins e' t t'.
Proof.
  intros [F1 F2 (F3 & F4 & F5 & F6) F7 F8 F9 F10 F11 F12] (Hb & Hro & Hwf' & (m & Ht') & Hr).
  split; [done|]. split; [done|].
  assert (∀ key, stored t' key = stored t1 key) as Hst by (intros; unfold stored; by rewrite Hr).
  assert (sequence t' = sequence t1) as Hsq.
  { unfold sequence. rewrite Hst, Hr, F3 by done. by subst t'. }
  assert (superseded_value t' = superseded_value t1) as Hsu.
  { unfold superseded_value. rewrite Hst, F4. by subst t'. }
  assert (∀ pk, author_value t' pk = author_value t1 pk) as Hau.
  { intros pk. unfold author_value. rewrite Hst, F5. by subst t'. }
  split; try congruence.
  - destruct F12 as [C1 C2 C3 C4]. split.
    + intros key raw. rewrite Hst. apply C1.
    + by rewrite Hsq.
    + by subst t'.
    + subst t'. cbn. intros key n. by rewrite lookup_empty.
  - by subst t'.
  - intros d Hd Hne. by rewrite Hr, F7.
  - intros key Hk. by rewrite Hst, F11.
Qed.

Lemma commit_resumes e t : txn_wf t → counters_wf t → db_snapshot (env_db e) = v_snapshot (t_view t) →
  match commit e t with
  | (e', Ok _) => ∃ t', begins e' t t'
  | (e', Err err) => exhausted err ∧ e' = e ∨ closed e' ∧ (unchanged (env_db e) (env_db e') ∨
      ∃ e'' t', from_native_db (env_db e') = Ok e'' ∧ begins e'' t t')
  end.
Proof.
  intros Hwf Hcw Hsnap. unfold commit. pose proof (flush_wp t Hwf Hcw) as Hflush.
  destruct (flush t) as [t1|err]; [|by left]. cbn [wp] in Hflush.
  pose proof (commit_flushed_publishes e t1 (fl_txn _ _ Hflush) ltac:(by rewrite (fl_view _ _ Hflush))) as Hc.
  destruct (commit_flushed e t1) as [e' [u|err]].
  - destruct Hc as (t' & Ht'). exists t'. by eapply published_begins.
  - right. destruct Hc as [Hcl [Hsame|(e'' & t' & Ho & Ht')]]; split; [done|by left|done|right].
    exists e'', t'. split; [done|]. by eapply published_begins.
Qed.

(** ** Readers *)

(** A reader's lookup by local id. *)
Lemma reader_get_u64 v d lev : staged_wf (RwTxn_of_view v) → v_records v = ∅ → valid_dbi d → combined d = true → u64_ok lev →
  ∃ v', RoTxn_get_u64 v d lev = Ok (v', row_get (to_ne_bytes lev) (rows (RwTxn_of_view v) d)).
Proof.
  intros Hwf Hrec Hd Hc Hlev. unfold RoTxn_get_u64. rewrite Hc.
  assert (event_key (to_ne_bytes lev)) as He by (split; [apply to_le_bytes_ok|apply length_to_ne_bytes]).
  destruct (record_exists (RwTxn_of_view v) (to_ne_bytes lev) Hwf He) as [rec Hat].
  rewrite (record_row_get (RwTxn_of_view v) (to_ne_bytes lev) rec) by done.
  destruct Hat as (Hrec' & _ & _ & Hat). rewrite from_to_ne_bytes in Hat by done.
  change (phys_get _ _ 3 (record_key lev)) with (bt_get bytes_cmp (cf_items (v_snapshot v) COMBINED) (record_key lev)) in Hat.
  unfold get_record. rewrite Hrec, lookup_empty, get_cf_items. cbn [rocks map_err mbind result_bind].
  destruct (bt_get _ _ _) as [value|]; rewrite Hat.
  - rewrite parts_encode by done. cbn [mbind result_bind]. unfold component. eauto.
  - unfold component. destruct (d =? 3); eauto.
Qed.

Context {HC : HexCrate} {SH : Sha256} {SL : Sha256Laws}.

Lemma resumed_db t t' : db_wf t → resumed t t' → db_wf t'.
Proof.
  intros [Hst Hids Hver Hpost] [R1 R2 R3 R4 R5 R6 R7 R8]. pose proof (R4 3 ltac:(done) ltac:(done)) as H3.
  pose proof (R4 21 ltac:(done) ltac:(done)) as H21. split; [|by rewrite H3..|].
  - apply (store_frame t); try done.
    + intros d Hd. apply R4; [unfold valid_dbi; lia|lia].
    + intros k v. rewrite H21. by right.
    + intros pk n _. rewrite R8. by left.
  - unfold postings_complete, all_posted. rewrite (through_same t t'); [|apply Hst|done|by intros; rewrite H21].
    rewrite H3, R6, H21. apply Hpost.
Qed.
End durable.
