(* ===== verification/DbWriteSpec.v ===== *)
(** * What the write path promises

    The properties of crates/wok-db/src/write.rs, on a store that satisfies the
    invariants of [DbEvents] and [DbBatch], and what a commit of it makes
    durable.  The last part is a database in memory with three events, on which
    the properties are applied. *)

From S2P Require Import Prelude Utf8 BTreeMap Json Crates Kinds Packed EventParse Validate DbKeys DbCodec DbIndex DbTxn DbState DbPayload Search DbSearch DbTagKind DbPolicy DbWrite DbStore DbCursor DbTable DbScan DbTables DbRows DbRw DbDerived DbOps DbLogic DbCounters DbIndices DbEvents DbDelete DbLookup DbPostings DbDecide DbBatch DbWriter DbCommit DbContract DbDurable.

Local Open Scope Z_scope.

Lemma feed_collect (l acc : list (Z * bytes)) :
  fst (feed (λ l '(lev, p), (l ++ [(lev, p)], true)) acc l) = acc ++ l.
Proof.
  revert acc. induction l as [|[lev p] l IH]; intros acc; cbn [feed]; [by rewrite app_nil_r|].
  by rewrite IH, <-app_assoc.
Qed.

Section spec.
Context `{RL : RocksLaws} {HC : HexCrate} {HX : HexLaws} {SH : Sha256} {SL : Sha256Laws}.
Context {SF : SerdeFloat} {SK : Secp256k1} {ZC : ZstdCrate} {UC : UnicodeChars} {UL : UnicodeLaws} {SE : SerdeEvent}.
Context {NS : NegentropySink} {SNL : SinkLaws}.
Implicit Types (t : RwTxn) (lev : Z) (packed : PackedEventView).

(** C1. A batch of events takes a database in order to a database in order:
    every index lists exactly the stored events under exactly their keys, every
    event has its payload, no id and no address has two events, the counters
    are the counts they stand for, and the tag postings are complete up to
    their marker.  Every event of the batch, sorted by time and id, gets a
    verdict, each on what the ones before it left.  The batch fails only when a
    64-bit counter runs out, the JSON of an event or a stored payload cannot be
    read, or the negentropy trees fail. *)
Theorem batch_keeps_database {C} t s c (evs : list (EventToWrite C)) policy author_quota :
  db_wf t → Forall pending evs →
  match write_events_with_quota t s c evs policy author_quota with
  | Ok (t', _, _, evs') => db_wf t' ∧
      (∃ w, verdicts author_quota (mkWriter t s c None None) (slice_sort_by batch_cmp evs) w evs' ∧
        ∀ d, valid_dbi d → d ≠ 21 → rows t' d = rows (w_txn w) d) ∧
      Forall (λ ev, ev_status ev ≠ Pending) evs'
  | Err e => write_error e
  end.
Proof.
  intros Hdb Hevs. pose proof (write_batch_wp t s c evs policy author_quota Hdb Hevs) as Hwp.
  destruct (write_events_with_quota t s c evs policy author_quota) as [[[[t' s'] c'] evs']|e]; [|done].
  destruct Hwp as (Hdb' & w & Hvs & Ho). split_and!; [done|by exists w|].
  apply verdicts_decided in Hvs. eapply Forall2_Forall_r; [exact Hvs|]. apply Forall_forall. naive_solver.
Qed.

(** C3. What a write takes out of the store, it may: an event that was stored
    before the write of another and is not after it is an older version of the
    written event's address, or, when a deletion request was written, an event
    of the request's author that is not itself a deletion or vanish request, or
    a gift wrap sent to the author.  A refused event takes out nothing. *)
Theorem write_removes_only_what_it_may {C} policy author_quota w previous (ev : EventToWrite C) w' ev' r :
  store_wf (w_txn w) → pending ev → (∀ copy, previous = Some copy → ev_status copy ≠ Pending) →
  write_event policy author_quota w previous ev = Ok (w', ev') →
  r ∈ rows (w_txn w) 3 → r ∉ rows (w_txn w') 3 →
  ev_status ev' = Written ∧ may_remove (ev_packed ev) r.2.
Proof.
  intros Hst [Hwr Hp] Hprev Hev Hr Hr'. pose proof (sw_txn _ Hst) as Hwf.
  pose proof (wp_Ok _ _ _ _ (write_event_wp policy author_quota w previous ev Hst Hwr Hp Hprev) Hev) as Hv.
  destruct Hv as [w' status (_ & _ & _ & _ & Hrows) _ _ _|w' lev levs [_ Hse Hrem _ _] _ _].
  - rewrite Hrows in Hr' by lia. done.
  - split; [done|]. destruct (decide (r.1 ∈ to_ne_bytes <$> levs)) as [Hin|Hin].
    + apply list_elem_of_fmap in Hin as (n & Hn & Hin). rewrite Forall_forall in Hrem.
      destruct (Hrem n Hin) as (p & Hat & _ & Hmay). apply event_at_row in Hat; [|done].
      by rewrite (event_row_inj (w_txn w) r (to_ne_bytes n, p)).
    + destruct Hr'. apply (se_events _ _ _ _ _ Hse). split; [by right|done].
Qed.



(** C15. [insert_event] stores an event under the local id after the last one
    ever given out, adds exactly the event's record, its payload and one entry
    per key of each index, and keeps the counters exact.  It fails only when a
    64-bit counter runs out. *)
Theorem insert_event_adds_its_rows t packed json : store_wf t → writable packed json →
  match insert_event t packed json with
  | Ok (t', lev) => store_wf t' ∧ lev = sequence t + 1 ∧ sequence t' = lev ∧
      (∀ x, x ∈ rows t' 3 ↔ x = (to_ne_bytes lev, packed) ∨ x ∈ rows t 3) ∧
      (∀ x, x ∈ rows t' 15 ↔ x = (to_ne_bytes lev, encode_raw_payload json) ∨ x ∈ rows t 15) ∧
      ∀ d x, valid_dbi d → d ≠ 3 → d ≠ 15 → x ∈ rows t' d ↔
        x ∈ rows t d ∨ x.2 = to_ne_bytes lev ∧ x.1 ∈ posted (t_defer_tag_kind t) packed d
  | Err e => exhausted e
  end.
Proof.
  intros Hst [Hp Hpl Hj Hjl]. pose proof (insert_event_wp t packed json Hst Hp Hpl Hj Hjl) as Hwp.
  destruct (insert_event t packed json) as [[t' lev]|e]; [|done]. destruct Hwp as (Hwf & Hcw & Hins).
  split; [by eapply inserted_wf|]. destruct Hins as [_ [Hlev _] He Hpay Hix Hs _ _]. done.
Qed.

(** C16. [delete_event_basic] takes out exactly the event's record, its payload
    and its entries of every index, and reports whether there was one; the local
    id is not given out again.  It fails only when a 64-bit counter runs out or
    a payload with search postings cannot be read. *)
Theorem delete_event_takes_its_rows t lev : store_wf t →
  match delete_event_basic t lev with
  | Ok (t', deleted) => deleted = is_some (event_at t lev) ∧ store_wf t' ∧ sequence t' = sequence t ∧
      (∀ x, x ∈ rows t' 3 ↔ x ∈ rows t 3 ∧ x.1 ≠ to_ne_bytes lev) ∧
      (∀ x, x ∈ rows t' 15 ↔ x ∈ rows t 15 ∧ x.1 ≠ to_ne_bytes lev) ∧
      ∀ d x, valid_dbi d → d ∉ [3; 15; 17; 20] → x ∈ rows t' d ↔
        x ∈ rows t d ∧ ¬ ∃ p, event_at t lev = Some p ∧ x.2 = to_ne_bytes lev ∧ x.1 ∈ index_keys p d
  | Err e => delete_error e
  end.
Proof.
  intros Hst. pose proof (delete_event_wp t lev Hst) as Hwp.
  destruct (delete_event_basic t lev) as [[t' b]|e]; [|done]. destruct Hwp as (-> & Hst' & Hrem).
  destruct Hrem as [_ He Hpay Hix Hs _ _]. done.
Qed.

(** C17. The lookups of the write path are exact and do not fail: an id finds
    the stored event with it, or none is stored; a deletion is known exactly
    when a stored request of that author names the id; the count of an author
    is the number of their stored events; and the walk over an address sees
    exactly its stored versions. *)
Theorem lookups_are_exact t : store_wf t →
  (∀ id, length id = 32%nat → bytes_ok id → ∃ o, lookup_event_by_id t id = Ok o ∧
    match o with
    | Some (lev, p) => (to_ne_bytes lev, p) ∈ rows t 3 ∧ PackedEventView_id p = id
    | None => ∀ r, r ∈ rows t 3 → PackedEventView_id r.2 ≠ id
    end) ∧
  (∀ id pk, bytes_ok id → length pk = 32%nat → bytes_ok pk →
    ∃ b, deletion_exists t id pk = Ok b ∧ (b = true ↔ deletion_stored t id pk)) ∧
  (∀ pk, length pk = 32%nat → bytes_ok pk → ∃ t', author_count t pk = Ok (t', authored t pk)) ∧
  (∀ key, bytes_ok key → key ≠ [] → ∃ l,
    foreach_replacement t key (λ l lev p, (l ++ [(lev, p)], true)) [] = Ok l ∧
    ∀ lev p, (lev, p) ∈ l ↔ (to_ne_bytes lev, p) ∈ rows t 3 ∧ u64_ok lev ∧ replace_key p = Some key).
Proof.
  intros Hst. pose proof (sw_txn t Hst) as Hwf. split_and!.
  - intros id Hl Hid. destruct (lookup_id_spec t id Hst Hl Hid) as (o & Ho & Hm). exists o. split; [done|].
    destruct o as [[lev p]|]; [|done]. by rewrite <-event_at_row.
  - intros id pk Hid Hl Hpk. by apply deletion_exists_spec.
  - intros pk Hl Hpk. destruct (author_count_eq t pk Hst Hl Hpk) as (t' & E & _). by exists t'.
  - intros key Hkey Hne. exists (versions t key). split.
    + rewrite foreach_replacement_eq by done. f_equal. apply (feed_collect _ []).
    + intros lev p. rewrite elem_of_versions by done. by rewrite event_at_row.
Qed.

(** The database of [t'] is that of [t]: well formed, with the same rows, apart
    from the table of counters, and the same sequence and author counts. *)
Definition continues t t' : Prop :=
  db_wf t' ∧ t_staged t' = [] ∧ sequence t' = sequence t ∧ (∀ pk, author_value t' pk = author_value t pk) ∧
  ∀ d, valid_dbi d → d ≠ 20 → rows t' d = rows t d.

Lemma begins_continues e t t' : db_wf t → begins e t t' → continues t t'.
Proof.
  intros Hdb (_ & _ & Hre). pose proof (resumed_db t t' Hdb Hre) as Hdb'. destruct Hre as [_ _ [Hf _] Hr _ Hs _ Ha].
  split_and!; try done. by rewrite Hf.
Qed.

(** C8. A commit keeps the database in order and loses or doubles nothing.  When it
    succeeds, the transaction and the readers that begin next see the same
    events and the same rows, in order again, and the sequence of local ids goes
    on where it was, so no local id is ever given to two events.  When a counter
    cannot be flushed nothing changes.  When the store reports an error for the
    batch, the outcome is not known to the code: no transaction begins until the
    database is opened again, and then the stored data is untouched, or all of
    the commit is there, as after a success; never a part of it. *)
Theorem commit_keeps_database e t : db_wf t → db_snapshot (env_db e) = v_snapshot (t_view t) →
  match commit e t with
  | (e', Ok _) => ∃ t', RwTxn_begin e' = Ok (e', t') ∧ RoTxn_begin e' = Ok (e', t_view t') ∧ continues t t'
  | (e', Err err) => exhausted err ∧ e' = e ∨
      closed e' ∧
      (unchanged (env_db e) (env_db e') ∨
       ∃ e'' t', from_native_db (env_db e') = Ok e'' ∧
         RwTxn_begin e'' = Ok (e'', t') ∧ RoTxn_begin e'' = Ok (e'', t_view t') ∧ continues t t')
  end.
Proof.
  intros Hdb Hsnap. pose proof (commit_resumes e t (sw_txn _ (db_store _ Hdb)) (sw_counters _ (db_store _ Hdb)) Hsnap) as Hc.
  destruct (commit e t) as [e' [u|err]].
  - destruct Hc as (t' & Hb). pose proof (begins_continues _ _ _ Hdb Hb). destruct Hb as (? & ? & _). eauto.
  - destruct Hc as [?|[Hcl [Hu|(e'' & t' & Ho & Hb)]]]; [by left|by right; split; [|left]|right]. split; [done|right].
    pose proof (begins_continues _ _ _ Hdb Hb). destruct Hb as (? & ? & _). eauto 10.
Qed.

(** C18. What is written is read back: after an event is inserted and the
    transaction committed, a reader finds under its local id the packed record,
    and as its JSON, byte for byte, the text it was inserted with. *)
Theorem committed_event_reads_back e t packed json t1 lev e' max : store_wf t → writable packed json →
  utf8_valid json = true → insert_event t packed json = Ok (t1, lev) →
  db_snapshot (env_db e) = v_snapshot (t_view t) → commit e t1 = (e', Ok tt) →
  ∃ v v' d, RoTxn_begin e' = Ok (e', v) ∧ RoTxn_get_u64 v 3 lev = Ok (v', Some packed) ∧
    get_event_json v Decompressor_new lev max = Ok (d, json).
Proof.
  intros Hst [Hp Hpl Hj Hjl] Hutf Hins Hsnap Hcommit.
  pose proof (wp_Ok _ _ _ _ (insert_event_wp t packed json Hst Hp Hpl Hj Hjl) Hins) as (Hwf1 & Hcw1 & Hi).
  destruct (ins_fields _ _ _ _ _ Hi) as [Hv _]. destruct (ins_fresh _ _ _ _ _ Hi) as [_ Hu].
  pose proof (commit_resumes e t1 Hwf1 Hcw1 ltac:(by rewrite Hv)) as Hc. rewrite Hcommit in Hc.
  destruct Hc as (t' & _ & Hro & [Hwf' _ [Hf Hrec] Hr _ _ _ _]). set (v := t_view t') in *. rewrite Hf in Hr, Hwf'.
  assert (∀ d x, x.1 = to_ne_bytes lev → d = 3 ∨ d = 15 → x ∈ rows t1 d → combined d = true ∧
    ∃ v', RoTxn_get_u64 v d lev = Ok (v', Some x.2)) as Hget.
  { intros d [k val] E Hd Hx. cbn [fst] in E. subst k. assert (valid_dbi d ∧ combined d = true ∧ reversed d = false ∧ d ≠ 20) as (Hvd & Hcd & Hrd & H20)
      by (by destruct Hd; subst d). split; [done|].
    destruct (reader_get_u64 v d lev (txn_staged _ Hwf') Hrec Hvd Hcd Hu) as [v' ->]. exists v'. f_equal. f_equal.
    apply get_plain; [done..|]. by rewrite Hr. }
  destruct (Hget 3 (to_ne_bytes lev, packed)) as [_ [v3 H3]]; [done|by left|by apply (ins_event _ _ _ _ _ Hi); left|].
  destruct (Hget 15 (to_ne_bytes lev, encode_raw_payload json)) as [_ [v15 H15]];
    [done|by right|by apply (ins_payload _ _ _ _ _ Hi); left|].
  exists v, v3, Decompressor_new. split_and!; [done..|]. unfold get_event_json. change (d_event_payload dbis) with 15.
  rewrite H15. cbn [mbind result_bind ok_or snd]. unfold decode_ro, payload_str. cbn. by rewrite Hutf.
Qed.
End spec.

(** ** A database in memory *)

#[local] Instance ascii_chars : UnicodeChars := {|
  is_alphanumeric c := is_ascii_alphabetic c || ((48 <=? c) && (c <=? 57));
  is_whitespace c := c =? 32;
  to_lowercase c := [if (65 <=? c) && (c <=? 90) then c + 32 else c];
|}.

#[local] Instance ascii_laws : UnicodeLaws.
Proof.
  split. intros c Hc. apply Forall_singleton. unfold char_ok in *. destruct ((65 <=? c) && (c <=? 90)) eqn:E; [|done].
  apply andb_true_iff in E as [?%Z.leb_le ?%Z.leb_le]. lia.
Qed.

(** Stored data without compression. *)
#[local] Instance toy_zstd : ZstdCrate := {|
  DecoderDictionary := unit;
  ZstdDecoder := unit;
  dictionary_copy _ := tt;
  with_prepared_dictionary _ := Ok tt;
  decompress_to_buffer _ src _ := Ok src;
|}.

#[local] Instance toy_serde : SerdeEvent := {|
  from_str_content _ := Ok [];
  from_str_text _ := Err (TBytes []);
  from_str_kind _ := Err (TBytes []);
  from_str_map _ := Err (TBytes []);
|}.

#[local] Instance noop : @NegentropySink mem_rocks := NoopNegentropy.

Lemma empty_counters : counters_wf empty_txn.
Proof.
  assert (∀ key, stored empty_txn key = None) as Hs by (intros; unfold stored; by rewrite empty_rows).
  split.
  - intros key raw _. by rewrite Hs.
  - unfold sequence. rewrite Hs, empty_rows. cbn. unfold u64_ok, U64_MAX. lia.
  - done.
  - intros key n. cbn. by rewrite lookup_empty.
Qed.

Lemma empty_db : db_wf empty_txn.
Proof.
  assert (∀ d x, x ∈ rows empty_txn d → False) as Hno by (intros d x; rewrite empty_rows; apply not_elem_of_nil).
  split; [split|..].
  - exact empty_txn_wf.
  - exact empty_counters.
  - by intros r ?%Hno.
  - intros k. by rewrite !empty_rows.
  - intros d k v _. split; [by intros ?%Hno|by intros (p & ?%Hno & _)].
  - by intros k v ?%Hno.
  - by intros r ?%Hno.
  - intros pk n _. unfold author_value, stored. rewrite empty_rows. cbn. by rewrite lookup_empty.
  - intros n. unfold superseded_value, stored. rewrite empty_rows. done.
  - by intros x y ?%Hno.
  - by intros x y key ?%Hno.
  - intros n. unfold through. rewrite empty_rows. done.
Qed.

(** Events of one author: a note, a request to delete it, an address. *)
Definition record (id kind created_at : Z) (tags : bytes) : bytes :=
  replicate 32 id ++ replicate 32 1 ++ to_ne_bytes created_at ++ to_ne_bytes kind ++ to_ne_bytes 0 ++ tags.
Definition one_tag (name : Z) (value : bytes) : bytes := name :: len value :: value.
Definition incoming (packed : bytes) : EventToWrite unit := EventToWrite_new packed (str "{}").

Definition note : bytes := record 7 1 100 [].
Definition request : bytes := record 9 5 200 (one_tag (ch "e") (replicate 32 7)).

Lemma note_writable : writable note (str "{}").
Proof. split; [split; [by apply bytes_ok_bool|by vm_compute; lia]|by vm_compute|by apply bytes_ok_bool|by vm_compute]. Qed.

Lemma request_writable : writable request (str "{}").
Proof. split; [split; [by apply bytes_ok_bool|by vm_compute; lia]|by vm_compute|by apply bytes_ok_bool|by vm_compute]. Qed.

(** With the note stored. *)
Definition note_txn : @RwTxn mem_rocks :=
  match insert_event empty_txn note (str "{}") with Ok (t, _) => t | Err _ => empty_txn end.

Lemma note_store : store_wf note_txn.
Proof.
  pose proof (insert_event_wp empty_txn note (str "{}") (db_store _ empty_db)) as Hwp. destruct note_writable as [H1 H2 H3 H4].
  specialize (Hwp H1 H2 H3 H4). unfold note_txn. destruct (insert_event empty_txn note (str "{}")) as [[t lev]|e]; [|apply empty_db].
  destruct Hwp as (Hwf & Hcw & Hins). by eapply inserted_wf; [apply empty_db|..].
Qed.

Lemma pending_note : pending (incoming note).
Proof. split; [exact note_writable|done]. Qed.

Lemma pending_request : pending (incoming request).
Proof. split; [exact request_writable|done]. Qed.

(** The request comes first, and is written after the note it deletes. *)
Lemma batch_keeps_database_witness : ∃ t' c' evs',
  write_events_with_quota empty_txn tt ProtectionCache_default [incoming request; incoming note] VanishPolicy_disabled 10 =
    Ok (t', tt, c', evs') ∧ db_wf t' ∧ rows t' 3 = [(to_ne_bytes 2, request)] ∧ ev_status <$> evs' = [Written; Written].
Proof.
  pose proof (batch_keeps_database empty_txn tt ProtectionCache_default [incoming request; incoming note]
    VanishPolicy_disabled 10 empty_db) as H.
  specialize (H (Forall_cons_2 _ _ _ pending_request (Forall_cons_2 _ _ _ pending_note (Forall_nil_2 _)))).
  assert (match write_events_with_quota empty_txn tt ProtectionCache_default [incoming request; incoming note]
      VanishPolicy_disabled 10 with
    | Ok (t', _, _, evs') => (rows t' 3, ev_status <$> evs') = ([(to_ne_bytes 2, request)], [Written; Written])
    | Err _ => False
    end) as Hrun by (vm_compute; reflexivity).
  destruct (write_events_with_quota _ _ _ _ _ _) as [[[[t' []] c'] evs']|e]; [|done].
  injection Hrun as Hr Hs. destruct H as (Hdb & _ & _). exists t', c', evs'. by split_and!.
Defined.

(** The request deletes the note. *)
Lemma write_removes_only_what_it_may_witness : ∃ w' ev',
  write_event VanishPolicy_disabled 0 (mkWriter note_txn tt ProtectionCache_default None None) None (incoming request) =
    Ok (w', ev') ∧ ev_status ev' = Written ∧ may_remove request note.
Proof.
  pose proof (write_removes_only_what_it_may VanishPolicy_disabled 0 (mkWriter note_txn tt ProtectionCache_default None None)
    None (incoming request)) as H.
  assert (match write_event VanishPolicy_disabled 0 (mkWriter note_txn tt ProtectionCache_default None None) None (incoming request) with
    | Ok (w', _) => (rows note_txn 3, rows (w_txn w') 3) = ([(to_ne_bytes 1, note)], [(to_ne_bytes 2, request)])
    | Err _ => False
    end) as Hrun by (vm_compute; reflexivity).
  destruct (write_event _ _ _ _ _) as [[w' ev']|e]; [|destruct Hrun]. apply pair_equal_spec in Hrun as [Hr Hr'].
  exists w', ev'. split; [done|]. apply (H w' ev' (to_ne_bytes 1, note)); [exact note_store|exact pending_request|done|done|..].
  - cbn [w_txn]. rewrite Hr. by left.
  - rewrite Hr'. by intros [E%(f_equal fst)|E%not_elem_of_nil]%elem_of_cons.
Defined.





Lemma insert_event_adds_its_rows_witness : ∃ t',
  insert_event empty_txn note (str "{}") = Ok (t', 1) ∧ store_wf t' ∧ (to_ne_bytes 1, note) ∈ rows t' 3.
Proof.
  pose proof (insert_event_adds_its_rows empty_txn note (str "{}") (db_store _ empty_db) note_writable) as H.
  destruct (insert_event empty_txn note (str "{}")) as [[t' lev]|e] eqn:E; [|by vm_compute in E].
  destruct H as (Hst & Hlev & _ & He & _). change (sequence empty_txn + 1) with 1 in Hlev. subst lev.
  exists t'. split_and!; [done..|]. apply He. by left.
Defined.

Lemma delete_event_takes_its_rows_witness : ∃ t',
  delete_event_basic note_txn 1 = Ok (t', true) ∧ store_wf t' ∧ sequence t' = 1 ∧ (to_ne_bytes 1, note) ∉ rows t' 3.
Proof.
  pose proof (delete_event_takes_its_rows note_txn 1 note_store) as H.
  assert (match delete_event_basic note_txn 1 with Ok (_, b) => b = true | Err _ => False end) as Hrun by (vm_compute; reflexivity).
  destruct (delete_event_basic note_txn 1) as [[t' b]|e]; [|done]. subst b. destruct H as (_ & Hst & Hs & He & _).
  exists t'. split_and!; [done..|by rewrite Hs; vm_compute|]. rewrite He. by intros [_ []].
Defined.

Lemma lookups_are_exact_witness : ∃ o b t',
  lookup_event_by_id note_txn (replicate 32 7) = Ok o ∧ o ≠ None ∧
  deletion_exists note_txn (replicate 32 7) (replicate 32 1) = Ok b ∧
  author_count note_txn (replicate 32 1) = Ok (t', 1).
Proof.
  destruct (lookups_are_exact note_txn note_store) as (H1 & H2 & H3 & _).
  destruct (H1 (replicate 32 7)) as (o & Ho & Hm); [done|by apply bytes_ok_bool|].
  destruct (H2 (replicate 32 7) (replicate 32 1)) as (b & Hb & _); [by apply bytes_ok_bool|done|by apply bytes_ok_bool|].
  destruct (H3 (replicate 32 1)) as (t' & Ht'); [done|by apply bytes_ok_bool|].
  exists o, b, t'. split_and!; [done| |done|]; [|by rewrite Ht'; vm_compute].
  intros ->. apply (Hm (to_ne_bytes 1, note)); [|done]. assert (rows note_txn 3 = [(to_ne_bytes 1, note)]) as -> by (vm_compute; reflexivity).
  by left.
Defined.

Definition batch_txn : @RwTxn mem_rocks :=
  match write_events empty_txn tt ProtectionCache_default [incoming note] with
  | Ok (t, _, _, _) => t
  | Err _ => empty_txn
  end.

Lemma batch_db : db_wf batch_txn.
Proof.
  pose proof (write_batch_wp empty_txn tt ProtectionCache_default [incoming note] VanishPolicy_disabled 0 empty_db
    (Forall_cons_2 _ _ _ pending_note (Forall_nil_2 _))) as Hwp.
  unfold batch_txn, write_events, write_events_with_policy.
  destruct (write_events_with_quota _ _ _ _ _ _) as [[[[t s] c] evs]|e]; [by destruct Hwp|exact empty_db].
Qed.

Lemma commit_keeps_database_witness : ∃ e' t', commit empty_env batch_txn = (e', Ok tt) ∧
  RwTxn_begin e' = Ok (e', t') ∧ db_wf t' ∧ sequence t' = 1 ∧ rows t' 3 = [(to_ne_bytes 1, note)].
Proof.
  pose proof (commit_keeps_database empty_env batch_txn batch_db) as H.
  specialize (H ltac:(vm_compute; reflexivity)).
  assert (sequence batch_txn = 1 ∧ rows batch_txn 3 = [(to_ne_bytes 1, note)]) as [Hs Hr] by (split; vm_compute; reflexivity).
  assert ((commit empty_env batch_txn).2 = Ok tt) as Hrun by (vm_compute; reflexivity).
  destruct (commit empty_env batch_txn) as [e' r]. cbn [snd] in Hrun. subst r.
  destruct H as (t' & Hb & _ & Hdb & _ & Hs' & _ & Hr'). exists e', t'. split_and!; [done..|by rewrite Hs'|].
  rewrite Hr'; [exact Hr|unfold valid_dbi; lia|intros ?; discriminate].
Defined.

(** A write that reports an error, on a store that keeps the batch and on one
    that does not: the commit fails either way, and opening the database again
    finds the event or nothing. *)
Definition failed_commit (kept : bool) : result DbError (bool * list Kv) :=
  let RD := failing_rocks kept in
  '(t, _) ← insert_event (R := RD) (RwTxn_of_view (mkView (@nil BatchOp) [] ∅)) note (str "{}");
  let '(e, r) := commit (@mkEnv RD (@nil BatchOp) (Some (0, []))) t in
  e ← from_native_db (env_db e);
  '(_, t) ← RwTxn_begin e;
  Ok (is_ok r, rows t 3).

Lemma failed_commit_all_or_nothing :
  failed_commit true = Ok (false, [(to_ne_bytes 1, note)]) ∧ failed_commit false = Ok (false, []).
Proof. split; vm_compute; reflexivity. Qed.

Lemma committed_event_reads_back_witness : ∃ t1 e' v d, insert_event empty_txn note (str "{}") = Ok (t1, 1) ∧
  commit empty_env t1 = (e', Ok tt) ∧ RoTxn_begin e' = Ok (e', v) ∧
  get_event_json v Decompressor_new 1 1000 = Ok (d, str "{}").
Proof.
  pose proof (committed_event_reads_back empty_env empty_txn note (str "{}")) as H.
  assert (match insert_event empty_txn note (str "{}") with
    | Ok (t1, lev) => (lev, (commit empty_env t1).2) = (1, Ok tt)
    | Err _ => False
    end) as Hrun by (vm_compute; reflexivity).
  destruct (insert_event empty_txn note (str "{}")) as [[t1 lev]|e]; [|done].
  destruct (commit empty_env t1) as [e' r] eqn:Ec. cbn [snd] in Hrun. injection Hrun as -> ->.
  destruct (H t1 1 e' 1000) as (v & v' & d & Hro & _ & Hj);
    [exact (db_store _ empty_db)|exact note_writable|by vm_compute|done|done|done|].
  exists t1, e', v, d. by split_and!.
Defined.

(** ** Tombstones out of order

    The lookup of an address's tombstones reads one row, the last in the order
    of the table.  That order is bytewise, and the time in the key is written
    with its low byte first, so a request at time 256 is hidden by one at time
    255, and an event it covers is accepted. *)

Definition address : bytes := str "30000:" ++ to_hex (replicate 32 1) ++ str ":x".
Definition address_request (created_at : Z) : bytes :=
  record (created_at mod 251) 5 created_at (one_tag (ch "a") address).
Definition addressed (created_at : Z) : bytes := record 8 30000 created_at (one_tag (ch "d") (str "x")).

Definition status_after (requests : list Z) (created_at : Z) : result DbError (list EventWriteStatus) :=
  '(t, _, _, _) ← write_events empty_txn tt ProtectionCache_default (incoming ∘ address_request <$> requests);
  '(_, _, _, evs) ← write_events t tt ProtectionCache_default [incoming (addressed created_at)];
  Ok (ev_status <$> evs).

Lemma tombstone_hidden_by_earlier :
  status_after [256] 256 = Ok [Deleted] ∧ status_after [255; 256] 256 = Ok [Written].
Proof. split; vm_compute; reflexivity. Qed.
